(* ===== verification/_CoqProject ===== *)
-Q . S2P
Prelude.v
Json.v
Items.v
LoopState.v
PathMatch.v
CommandMatch.v
Permission.v
Redaction.v
Tools.v
ModelTurn.v
Driver.v
Workflow.v
Session.v
Runner.v
AgentTool.v
GraphBuild.v
Graph.v
Swarm.v
Composition.v
Durable.v
DurableAgrees.v
EventLog.v
Registry.v
RunHttp.v
HttpSession.v
Retry.v
LiteLlm.v
LiteLlmTurn.v
Net.v
WebFetch.v
AgUi.v
FrameBudget.v
A2a.v
OpenAiChat.v
OpenAiResponses.v
OpenAiRequest.v
ContentBlocks.v
Anthropic.v
Bedrock.v
BlockRequests.v
Gemini.v
LoopRequests.v
FileTools.v
ExecTools.v
