(* ===== verification/Prelude.v ===== *)
(** * Paigasus Helikon: a verification development

    Paigasus Helikon is a Rust SDK for AI agents: a runtime-agnostic core (the
    agent loop, tools, permissions, guardrails, hooks), and around it runtimes,
    model providers, session stores and tools.  This development models the
    core, the Tokio and durable runners, the state of the HTTP runtime and of
    the AgentCore shim, the conversation and stream translations of the model
    providers and the tools with their network policy, translated from the
    sources under [src/crates/], and proves what makes them correct.

    ** The program and its model

    A run starts in [LlmAgent::run] (paigasus-helikon-core/src/agent.rs).  It
    seeds a conversation, runs the input guardrails, and then alternates between
    the pure state machine [transition] (loop_state.rs) and the action that
    machine asks for: a model call, the tool calls of a turn, a handoff to
    another agent, or termination.  Model streams are folded into turns
    (model.rs), tool calls pass hooks (hook.rs, control.rs), the permission
    pipeline (context.rs, permission.rs, command_match.rs, path_match.rs) and
    redaction (redaction.rs, tool_exec.rs).  A model is a provider: it translates
    the conversation into its vendor's wire format and the vendor's stream back
    into model events (paigasus-helikon-providers-*/src).  A runner drains the events, writes
    the conversation to a session and builds the result (runner.rs, session.rs).
    Agents compose: sequences, parallel branches and loops (workflow.rs), graphs
    (graph.rs), swarms (swarm.rs) and agents as tools (agent_as_tool.rs) are
    agents again.  The durable runner (paigasus-helikon-runtime-temporal) drives
    the same state machine from a workflow whose side effects are activities.
    In the HTTP runtime (paigasus-helikon-runtime-axum/src) the events go to a
    log per run (event_log.rs) that any number of clients replay, in a registry
    that admits, tracks and evicts runs (registry.rs); handlers turn the log
    into responses and SSE frames (dto.rs, error.rs, handlers/runs.rs), and
    requests of one session share a store and a lock (session.rs).  The
    AgentCore shim (paigasus-helikon-runtime-agentcore/src) maps the events to
    two protocols: AG-UI frames over SSE or a WebSocket (agui/), whose writes
    are cut to size and paced (frame.rs), and A2A tasks with a log of updates
    and cancellation (a2a/).

    Files, in dependency order:

    - Prelude: results with the bind of [?], machine integers, string functions
      of the Rust standard library, generic lemmas, hints and tactics.
    - Json: the interface of serde_json in classes with their laws (values and
      objects, printing and parsing, unsigned integers, assignment by key, the
      sizes of serialized text), and the instance [Toy] that satisfies them.
    - Items: the data the components exchange (item.rs, model.rs, agent.rs,
      runner.rs).
    - LoopState: loop_state.rs.  [transition] with one definition per arm; the
      relation [reaches] runs it under any driver that answers an action with
      the matching input.
    - PathMatch, CommandMatch: path_match.rs and command_match.rs, the lexical
      analysis under the permission rules; globset is the interface [Globset].
    - Permission: permission.rs and [RunContext::authorize_tool].
    - Redaction: redaction.rs and the output conversion of tool_exec.rs.
    - Tools: hook.rs, guardrail.rs, control.rs, [execute_tool_call] and
      [run_tools_concurrent].
    - ModelTurn: [ModelTurnAccumulator] of model.rs.
    - Driver: [LlmAgent::run], contexts, handoffs and the failure slot; the
      class [AgentContract] states what an agent promises its caller, and
      handing off preserves it.
    - Workflow: workflow.rs and state.rs, the sequential, parallel and loop
      agents over a run state with overlays per branch.
    - Session: session.rs, compacting_session.rs and token_counter.rs, the
      conversation of a session, its compaction and the estimate of its size.
    - Runner: runner.rs, hydration, the drain of a stream and its persistence,
      and lib.rs of paigasus-helikon-runtime-tokio.
    - AgentTool: agent_as_tool.rs.
    - GraphBuild, Graph: graph.rs, the builder's checks (Kahn's algorithm,
      reachability, strict inputs) and the schedule that runs the graph.
    - Swarm: swarm.rs, a peer-to-peer handoff loop with its permission gate.
    - Composition: agents built from the agents of these files, each kind
      discharging the contract the others assume.
    - Durable, DurableAgrees: the workflow of the durable runner, its payloads
      and error codec, and its agreement with the in-process driver.
    - EventLog, Registry, RunHttp, HttpSession: event_log.rs, registry.rs, the
      HTTP surface (error.rs, dto.rs, the SSE part of handlers/runs.rs) and
      session.rs.
    - Retry: retry.rs of paigasus-helikon-runtime-tokio, a model around a model.
    - LiteLlm, LiteLlmTurn: the LiteLLM provider (stream.rs, sse.rs, error.rs and
      [invoke] of model.rs), the translation of a chat stream with its tool-call
      fragments into model events, and what a turn folded from them contains.
    - OpenAiChat, OpenAiResponses, OpenAiRequest: the OpenAI provider
      (backend/chat.rs, backend/responses.rs, error.rs, translate/request.rs);
      the chat translator is related to LiteLLM's by a simulation.
    - ContentBlocks, Anthropic, Bedrock: the streams of content blocks of the
      Anthropic and Bedrock providers (stream.rs, sse.rs, error.rs, the loop of
      model.rs), over the block state they share.
    - Gemini: the Gemini provider (stream.rs, sse.rs, error.rs, the loop of
      model.rs, translate/request.rs).
    - BlockRequests: translate/request.rs of Anthropic and Bedrock, messages
      whose blocks carry calls and results.
    - LoopRequests: the driver composed with these translations.
    - Net, WebFetch: net/policy.rs and net/proxy.rs of paigasus-helikon-tools,
      the address and host policy with the resolver and the egress proxy that
      enforce it, and web/fetch.rs, the tool that follows redirects under it.
    - FileTools: sandbox.rs, read.rs, write.rs and edit.rs of the same crate, the
      tools over a directory handle and the gate in front of it.
    - ExecTools: bash.rs, exec/mod.rs, exec/host.rs, exec/forkd.rs and
      web/search.rs, the shell tool, its backends and the search tool.
    - AgUi: agui/types.rs, map.rs, sse.rs, ws.rs and session.rs of the shim.
    - FrameBudget: frame.rs, the size and the rate of WebSocket writes.
    - A2a: a2a/types.rs, store.rs, cancel.rs and rpc.rs, tasks whose methods run
      concurrently on one store.

    ** How the code is represented

    Rust structs and enums are records and inductive types with the names of the
    source.  Unsigned integers are [Z] with their wrap-around or saturation
    where the source computes with them, and [nat] for indices.  Strings are
    sequences of characters (bytes where the source works on bytes);
    [anyhow::Error] is the message it displays.  Application code (tools, hooks,
    guardrails, policies, approval handlers, models) is a function that threads
    an arbitrary world [W], so that every order and number of calls is
    observable.  An event stream is the list a consumer that drains it sees.
    Concurrency is explicit: the calls of a turn are state machines moved by an
    arbitrary schedule, the event log and the session locks are step relations
    with any interleaving of writers, wakeups and readers, the methods of the
    A2A server are trees of atomic operations interleaved in every way and
    reasoned about with a rely condition, and hash-map iteration order is a
    parameter.  Tracing, metrics and log lines have no effect on these states
    and are left out.

    ** What is proved

    - The agent loop (LoopState): state and action agree in every reachable
      state; exactly one terminal event, the last; the reported usage is the sum
      over all turns; a run takes at most [2 * max_turns + 2] inputs and
      [max_turns + 2] model calls; structured output of a completed run is
      valid; at most one repair.
    - The driver (Driver): an agent, and every tree of agents built by handing
      off, streams RunStarted, then one terminal event as its last, with the
      failure slot filled exactly by failures, within the stated fuel; a
      completed run is one of the state machine, with its guardrails passed.
    - Composite agents (Workflow, AgentTool, Graph, Swarm, Composition): each
      promises its caller what an agent promises, however they nest; branches
      do not see each other's state and merge in order; the graph's builder
      accepts exactly the acyclic, reachable graphs and a run executes a node
      only after the inputs it needs; a swarm stops within its depth.
    - Sessions and runners: compaction keeps a conversation well formed, with no
      tool result parted from its call; what a runner persists is the
      conversation of the run.
    - The durable runner: its stream keeps the contract of a run, its error
      codec inverts, and on the same answers it takes the decisions of the
      in-process driver.
    - Permissions (Permission, CommandMatch, PathMatch): deny rules are absolute
      and see through quoting, chaining, wrappers and re-entry; an allowed call
      has a reason; the built-in guard for recursive deletion holds in every
      mode; the tokenizer terminates and inverts rendering; cleaned paths are
      canonical.
    - Tools and redaction: every call of a turn is answered, in call order, for
      every schedule; a denied tool is never run; redaction is the last
      transformation and leaves no secret; the loop and the durable pipeline
      agree.
    - Model turns: the items of a turn depend only on the content of the
      stream's channels, not on their interleaving; the LiteLLM translator
      assembles each call from its fragments and its stream folds into the turn
      the provider sent.
    - The other providers' streams: OpenAI's chat translator agrees with
      LiteLLM's event for event; a Responses stream that lost its beginning
      reports the same calls; an Anthropic, a Bedrock and a Gemini stream fold
      into exactly the turn that was sent, however its blocks interleave and
      however it ends.
    - Requests: a translated conversation loses and reorders nothing; the loop
      only makes requests whose calls are answered, as OpenAI and Bedrock demand
      it; Anthropic's rule is met exactly when no assistant message follows an
      exchange that began without one, which the loop does not ensure.
    - The HTTP runtime: the ring buffer refines the history of events;
      subscribers deliver in order without loss other than eviction, miss no
      wakeup and terminate; the registry keeps its queue, counter and cap and
      its sweep reclaims what it should and nothing else; SSE clients see one
      terminal frame; internal errors stay internal; session keys do not collide
      and runs of a session exclude each other.
    - The network policy: the guard refuses exactly the address blocks it lists,
      hosts match label by label, and neither the proxy nor the fetch tool
      connects past the policy, through redirects and rebinding names alike.
    - Files and commands: a file tool never hands on a path that leaves the
      sandbox by its names, and an edit is exact or refused; the command lists
      of the shell tool bind every program of a line; captured output is
      bounded; a micro-VM is torn down after every run and a sweep deletes what
      is due and nothing else.
    - AG-UI: a client that accepts only balanced spans follows every stream, the
      arguments of interleaved calls arrive whole, and a connection keeps the
      runs that share it apart; frames fit the cap, lose nothing and keep the
      rate.
    - A2A: a task moves only forward under every interleaving, an answer of
      cancel is true and stays true, a finished driver leaves a finished task,
      and a subscriber reads the log in order without a gap.
    - Retry: a retrying model adds attempts and waits, and nothing else.

    ** Fuel and bounds

    The driver runs with [loop_fuel = 2 * max_turns + 3] transitions and the
    durable workflow with [durable_fuel = 2 * max_turns + 5], proved enough; a
    tool call takes four steps; redaction recurses to the depth of the value;
    the tokenizer's fuel is the length of its input; retries have
    [max_attempts].  The graph's ordering takes one round per node and its
    reachability one more; a swarm's fuel is its depth budget plus one; a fetch
    makes at most [MAX_REDIRECTS + 1] requests; splitting on whitespace takes
    the length of the text plus one, as does searching a text for a pattern, and
    cutting a text into pieces its number of characters.  A rate-limited write
    sleeps at most once, which is proved.  A replaced string, a swept registry
    and the rest recurse structurally.  Event sequence numbers are unbounded:
    wrapping a [u64] would take 2^64 appends.

    ** What is not modelled

    Libraries the code calls (serde_json, globset, schemars, tokio's and hyper's
    primitives, DNS and TCP) are interfaces with their documented behaviour as
    laws.  Dropping a stream before it is drained, panics of application code,
    tracing spans and the axum plumbing are outside the model.  Of the program's
    other parts, the settings, tools and schemas of a provider's request and its
    HTTP client, the agent builder and the decoding of activity inputs are left
    out; the actix port repeats the axum runtime, and the session stores, the
    OS sandboxes, the MCP client and server, the evaluation harness, the command
    line and the macros are I/O, generated code or wiring. *)

From stdpp Require Export base option strings pretty list sets gmap.
From Stdlib Require Export ZArith Lia.

#[global] Arguments String.append : simpl nomatch.

(** ** Results

    Rust's [Result<A, E>], with the early-return operator [?] as a bind. *)

Inductive result (A E : Type) : Type :=
| Ok (a : A)
| Err (e : E).
Arguments Ok {A E} a.
Arguments Err {A E} e.

Declare Scope helikon_scope.
Delimit Scope helikon_scope with helikon.

Notation "'let?' x ':=' c 'in' k" :=
  (match c with Ok x => k | Err err => Err err end)
    (at level 10, x pattern, c at level 100, k at level 200) : helikon_scope.

Definition unwrap_or_else {A E} (r : result A E) (f : E → A) : A :=
  match r with Ok a => a | Err e => f e end.

Definition is_ok {A E} (r : result A E) : bool :=
  match r with Ok _ => true | Err _ => false end.

Lemma is_ok_true {A E} (r : result A E) : is_ok r = true ↔ ∃ a, r = Ok a.
Proof. destruct r; simpl; naive_solver. Qed.

#[export] Instance result_eq_dec {A E} `{EqDecision A, EqDecision E} :
  EqDecision (result A E).
Proof. solve_decision. Defined.

(** ** Machine integers

    Unsigned integers are [Z] kept in range by the operations that produce
    them.  The workspace sets no [overflow-checks], so release arithmetic
    wraps; the wrapping is written out here and the theorems say when it does
    not happen. *)

Definition u32_max : Z := 4294967295.
Definition u64_max : Z := 18446744073709551615.
Definition u32_wrap (z : Z) : Z := z mod 4294967296.
Definition u64_wrap (z : Z) : Z := z mod 18446744073709551616.
Definition u32_add (a b : Z) : Z := u32_wrap (a + b).
Definition u64_add (a b : Z) : Z := u64_wrap (a + b).
Definition u64_saturating_add (a b : Z) : Z := Z.min u64_max (a + b).
Definition u64_saturating_mul (a b : Z) : Z := Z.min u64_max (a * b).

Lemma u32_add_small a b : (0 ≤ a + b ≤ u32_max)%Z → u32_add a b = (a + b)%Z.
Proof. unfold u32_add, u32_wrap, u32_max. intros. apply Z.mod_small. lia. Qed.

Lemma u64_add_small a b : (0 ≤ a + b ≤ u64_max)%Z → u64_add a b = (a + b)%Z.
Proof. unfold u64_add, u64_wrap, u64_max. intros. apply Z.mod_small. lia. Qed.

Lemma u64_wrap_small a : (0 ≤ a ≤ u64_max)%Z → u64_wrap a = a.
Proof. unfold u64_wrap, u64_max. intros. apply Z.mod_small. lia. Qed.

Lemma u64_add_wrap a b : u64_add (u64_wrap a) (u64_wrap b) = u64_wrap (a + b).
Proof. unfold u64_add, u64_wrap. by rewrite <- Zplus_mod. Qed.

Lemma u64_add_wrap_l a b : u64_add (u64_wrap a) b = u64_wrap (a + b).
Proof. unfold u64_add, u64_wrap. by rewrite Zplus_mod_idemp_l. Qed.

(** ** Lists *)

(** [Iterator::find_map]. *)
Fixpoint find_map {A B} (f : A → option B) (l : list A) : option B :=
  match l with
  | [] => None
  | x :: l' => match f x with Some y => Some y | None => find_map f l' end
  end.

Lemma find_map_Some {A B} (f : A → option B) l y :
  find_map f l = Some y →
  ∃ l1 x l2, l = l1 ++ x :: l2 ∧ f x = Some y ∧ Forall (λ x', f x' = None) l1.
Proof.
  induction l as [|x l IH]; simpl; [done|].
  destruct (f x) eqn:Hx.
  - intros [= ->]. by exists [], x, l.
  - intros (l1 & x' & l2 & -> & ? & ?)%IH. exists (x :: l1), x', l2. auto.
Qed.

Lemma find_map_None {A B} (f : A → option B) l :
  find_map f l = None ↔ Forall (λ x, f x = None) l.
Proof.
  induction l as [|x l IH]; simpl; [done|].
  rewrite Forall_cons. destruct (f x); naive_solver.
Qed.

Lemma existsb_Forall {A} (p : A → bool) l :
  existsb p l = false ↔ Forall (λ x, p x = false) l.
Proof.
  induction l as [|x l IH]; simpl; [done|].
  rewrite Forall_cons, orb_false_iff. naive_solver.
Qed.

Lemma existsb_Exists {A} (p : A → bool) l :
  existsb p l = true ↔ ∃ x, x ∈ l ∧ p x = true.
Proof.
  rewrite existsb_exists. by setoid_rewrite list_elem_of_In.
Qed.

Lemma forallb_Forall_true {A} (p : A → bool) l :
  forallb p l = true ↔ Forall (λ x, p x = true) l.
Proof.
  induction l as [|x l IH]; simpl; [done|].
  rewrite Forall_cons, andb_true_iff. naive_solver.
Qed.

Lemma Forall_weaken {A} (P Q : A → Prop) l :
  Forall P l → (∀ x, P x → Q x) → Forall Q l.
Proof. induction 1; auto. Qed.

Definition is_nil {A} (l : list A) : bool := match l with [] => true | _ => false end.

(** Last element satisfying a partial projection, scanning from the back:
    [iter().rev().find_map(..)]. *)
Definition rfind_map {A B} (f : A → option B) (l : list A) : option B :=
  find_map f (rev l).

(** ** Strings

    A Rust [str] is its UTF-8 bytes. *)

Fixpoint strip_prefix (p s : string) : option string :=
  match p, s with
  | EmptyString, _ => Some s
  | String a p', String b s' => if Ascii.eqb a b then strip_prefix p' s' else None
  | String _ _, EmptyString => None
  end.

Definition starts_with (s p : string) : bool :=
  match strip_prefix p s with Some _ => true | None => false end.

Fixpoint string_of_list (l : list Ascii.ascii) : string :=
  match l with [] => EmptyString | c :: l' => String c (string_of_list l') end.

Fixpoint list_of_string (s : string) : list Ascii.ascii :=
  match s with EmptyString => [] | String c s' => c :: list_of_string s' end.

Definition string_rev (s : string) : string := string_of_list (rev (list_of_string s)).

Definition ends_with (s p : string) : bool := starts_with (string_rev s) (string_rev p).

Definition strip_suffix (p s : string) : option string :=
  string_rev <$> strip_prefix (string_rev p) (string_rev s).

Fixpoint contains_char (s : string) (c : Ascii.ascii) : bool :=
  match s with
  | EmptyString => false
  | String a s' => Ascii.eqb a c || contains_char s' c
  end.

Definition is_empty (s : string) : bool :=
  match s with EmptyString => true | String _ _ => false end.

Lemma strip_prefix_Some p s r : strip_prefix p s = Some r ↔ s = (p +:+ r)%string.
Proof.
  revert s. induction p as [|a p IH]; intros s; simpl.
  - naive_solver.
  - destruct s as [|b s]; [naive_solver|].
    destruct (Ascii.eqb_spec a b) as [->|Hne].
    + rewrite IH. split; [by intros ->|by intros [= ->]].
    + split; [done|]. by intros [= -> _].
Qed.

Lemma starts_with_spec s p : starts_with s p = true ↔ ∃ r, s = (p +:+ r)%string.
Proof.
  unfold starts_with. destruct (strip_prefix p s) eqn:E.
  - apply strip_prefix_Some in E. naive_solver.
  - split; [done|]. intros [r Hr]. apply strip_prefix_Some in Hr. congruence.
Qed.

Lemma string_of_list_of_string s : string_of_list (list_of_string s) = s.
Proof. induction s; simpl; congruence. Qed.

Lemma list_of_string_of_list l : list_of_string (string_of_list l) = l.
Proof. induction l; simpl; congruence. Qed.

Lemma string_rev_involutive s : string_rev (string_rev s) = s.
Proof.
  unfold string_rev. by rewrite list_of_string_of_list, rev_involutive,
    string_of_list_of_string.
Qed.

Lemma is_empty_true s : is_empty s = true ↔ s = ""%string.
Proof. destruct s; naive_solver. Qed.

(** The UTF-8 encodings of the characters with the Unicode [White_Space]
    property, which [str::trim] strips. *)
Definition utf8 (bs : list nat) : string :=
  string_of_list (Ascii.ascii_of_nat <$> bs).

Definition whitespace_encodings : list string :=
  utf8 <$> ([[9]; [10]; [11]; [12]; [13]; [32]; [194; 133]; [194; 160];
             [225; 154; 128]] ++
            ((λ k, [226; 128; 128 + k]) <$> seq 0 11) ++
            [[226; 128; 168]; [226; 128; 169]; [226; 128; 175];
             [226; 129; 159]; [227; 128; 128]])%nat.

Fixpoint trim_with (encs : list string) (fuel : nat) (s : string) : string :=
  match fuel with
  | O => s
  | S fuel' =>
      match find_map (λ e, strip_prefix e s) encs with
      | Some s' => trim_with encs fuel' s'
      | None => s
      end
  end.

Definition trim_start (s : string) : string :=
  trim_with whitespace_encodings (String.length s) s.

Definition trim_end (s : string) : string :=
  string_rev (trim_with (string_rev <$> whitespace_encodings)
                (String.length s) (string_rev s)).

(** [str::trim]. *)
Definition trim (s : string) : string := trim_end (trim_start s).

(** Characters the code names. *)
Definition chr (n : nat) : Ascii.ascii := Ascii.ascii_of_nat n.
Definition slash : Ascii.ascii := chr 47.
Definition backslash : Ascii.ascii := chr 92.
Definition single_quote : Ascii.ascii := chr 39.
Definition double_quote : Ascii.ascii := chr 34.
Definition newline : Ascii.ascii := chr 10.
Definition space : Ascii.ascii := chr 32.
Definition tab : Ascii.ascii := chr 9.

(** Append one character. *)
Definition snoc (s : string) (c : Ascii.ascii) : string := s +:+ String c "".

(** ASCII character classes and case. *)
Definition is_ascii_digit (c : Ascii.ascii) : bool :=
  let n := Ascii.nat_of_ascii c in (48 <=? n)%nat && (n <=? 57)%nat.
Definition is_ascii_lower (c : Ascii.ascii) : bool :=
  let n := Ascii.nat_of_ascii c in (97 <=? n)%nat && (n <=? 122)%nat.
Definition is_ascii_upper (c : Ascii.ascii) : bool :=
  let n := Ascii.nat_of_ascii c in (65 <=? n)%nat && (n <=? 90)%nat.
Definition is_ascii_alphanumeric (c : Ascii.ascii) : bool :=
  is_ascii_digit c || is_ascii_lower c || is_ascii_upper c.
Definition to_ascii_lowercase (c : Ascii.ascii) : Ascii.ascii :=
  if is_ascii_upper c then Ascii.ascii_of_nat (Ascii.nat_of_ascii c + 32) else c.

Fixpoint string_lower (s : string) : string :=
  match s with
  | EmptyString => EmptyString
  | String c s' => String (to_ascii_lowercase c) (string_lower s')
  end.

(** [str::parse] of an unsigned type with the given maximum: an optional plus
    sign, then decimal digits. *)
Fixpoint parse_digits (max acc : Z) (s : string) : option Z :=
  match s with
  | EmptyString => Some acc
  | String c s' =>
      if is_ascii_digit c then
        let acc' := (10 * acc + Z.of_nat (Ascii.nat_of_ascii c - 48))%Z in
        if (acc' <=? max)%Z then parse_digits max acc' s' else None
      else None
  end.

Definition parse_uint (max : Z) (s : string) : option Z :=
  let digits := match strip_prefix "+" s with Some s' => s' | None => s end in
  if is_empty digits then None else parse_digits max 0 digits.

(** [String::from_utf8_lossy]: each maximal ill-formed part of a sequence
    becomes U+FFFD.  [need] more continuation bytes are expected, the next one
    between [lo] and [hi]; [acc] are the bytes of the character so far. *)
Definition replacement : string := utf8 [239; 191; 189]%nat.

Definition lead_byte (b : nat) : option (nat * nat * nat) :=
  let within x y := ((x <=? b)%nat && (b <=? y)%nat)%bool in
  if within 194 223 then Some (1, 128, 191)
  else if within 224 224 then Some (2, 160, 191)
  else if within 237 237 then Some (2, 128, 159)
  else if within 225 239 then Some (2, 128, 191)
  else if within 240 240 then Some (3, 144, 191)
  else if within 241 243 then Some (3, 128, 191)
  else if within 244 244 then Some (3, 128, 143)
  else None.

Fixpoint lossy_go (need lo hi : nat) (acc s : string) : string :=
  match s with
  | EmptyString => if (need =? 0)%nat then "" else replacement
  | String c s' =>
      let b := Ascii.nat_of_ascii c in
      let start :=
        if (b <? 128)%nat then String c (lossy_go 0 0 0 "" s')
        else match lead_byte b with
             | Some (n, l, h) => lossy_go n l h (String c "") s'
             | None => replacement +:+ lossy_go 0 0 0 "" s'
             end in
      match need with
      | O => start
      | S need' =>
          if ((lo <=? b)%nat && (b <=? hi)%nat)%bool then
            if (need' =? 0)%nat then snoc acc c +:+ lossy_go 0 0 0 "" s'
            else lossy_go need' 128 191 (snoc acc c) s'
          else replacement +:+ start
      end
  end.

Definition from_utf8_lossy (s : string) : string := lossy_go 0 0 0 "" s.

(** Split on every occurrence of a separator byte: [str::split(char)]. *)
Fixpoint split_on (sep : Ascii.ascii) (s : string) : list string :=
  match s with
  | EmptyString => [EmptyString]
  | String c s' =>
      if Ascii.eqb c sep then EmptyString :: split_on sep s'
      else match split_on sep s' with
           | [] => [String c EmptyString]
           | w :: ws => String c w :: ws
           end
  end.

Lemma split_on_ne sep s : split_on sep s ≠ [].
Proof.
  destruct s as [|c s]; simpl; [done|].
  destruct (Ascii.eqb c sep); [done|]. by destruct (split_on sep s).
Qed.

Lemma contains_char_app s t c :
  contains_char (s +:+ t) c = contains_char s c || contains_char t c.
Proof. induction s as [|a s IH]; simpl; [done|]. by rewrite IH, orb_assoc. Qed.

Lemma split_on_no_sep sep s : Forall (λ w, contains_char w sep = false) (split_on sep s).
Proof.
  induction s as [|c s IH]; simpl; [by repeat constructor|].
  destruct (Ascii.eqb c sep) eqn:E; [by constructor|].
  destruct (split_on sep s) as [|w ws]; simpl; [by repeat constructor; simpl; rewrite E|].
  apply Forall_cons in IH as [Hw Hws]. constructor; [by simpl; rewrite E|done].
Qed.

Lemma split_on_single sep s : contains_char s sep = false → split_on sep s = [s].
Proof.
  induction s as [|c s IH]; simpl; [done|]. intros [Hc Hs]%orb_false_iff.
  by rewrite Hc, IH.
Qed.

Lemma split_on_app sep s t :
  contains_char s sep = false →
  split_on sep (s +:+ String sep t) = s :: split_on sep t.
Proof.
  induction s as [|c s IH]; simpl.
  - by rewrite Ascii.eqb_refl.
  - intros [Hc Hs]%orb_false_iff. by rewrite Hc, IH.
Qed.

(** [split] undoes [join]. *)
Lemma split_on_concat sep ws :
  ws ≠ [] → Forall (λ w, contains_char w sep = false) ws →
  split_on sep (String.concat (String sep "") ws) = ws.
Proof.
  intros Hne H. induction H as [|w ws Hw Hws IH]; [done|].
  destruct ws as [|w' ws]; [by apply split_on_single|].
  change (String.concat (String sep "") (w :: w' :: ws))
    with (w +:+ String sep (String.concat (String sep "") (w' :: ws))).
  rewrite split_on_app by done. by rewrite IH.
Qed.

(** [str::replace(char, char)]. *)
Fixpoint replace_char (a b : Ascii.ascii) (s : string) : string :=
  match s with
  | EmptyString => EmptyString
  | String c s' => String (if Ascii.eqb c a then b else c) (replace_char a b s')
  end.

Lemma replace_char_id a b s : contains_char s a = false → replace_char a b s = s.
Proof.
  induction s as [|c s IH]; simpl; [done|]. intros [Hc Hs]%orb_false_iff.
  by rewrite Hc, IH.
Qed.

Lemma replace_char_gone a b s : a ≠ b → contains_char (replace_char a b s) a = false.
Proof.
  intros Hab. induction s as [|c s IH]; simpl; [done|]. rewrite IH, orb_false_r.
  destruct (Ascii.eqb_spec c a); apply Ascii.eqb_neq; congruence.
Qed.

Lemma contains_char_concat sep ws c :
  contains_char sep c = false → Forall (λ w, contains_char w c = false) ws →
  contains_char (String.concat sep ws) c = false.
Proof.
  intros Hsep H. induction H as [|w ws Hw Hws IH]; [done|].
  destruct ws as [|w' ws]; [done|].
  change (String.concat sep (w :: w' :: ws))
    with (w +:+ sep +:+ String.concat sep (w' :: ws)).
  by rewrite !contains_char_app, Hw, Hsep, IH.
Qed.

Definition eq_ignore_ascii_case (a b : string) : bool :=
  String.eqb (string_lower a) (string_lower b).

(** Strings as lists of characters. *)
Fixpoint forall_chars (p : Ascii.ascii → bool) (s : string) : bool :=
  match s with
  | EmptyString => true
  | String c s' => p c && forall_chars p s'
  end.

Lemma string_app_assoc (a b c : string) : (a +:+ b) +:+ c = a +:+ (b +:+ c).
Proof. induction a as [|x a IH]; simpl; [done|]. by rewrite IH. Qed.

Lemma string_app_nil_r (a : string) : a +:+ "" = a.
Proof. induction a as [|x a IH]; simpl; [done|]. by rewrite IH. Qed.

Lemma snoc_app s c t : snoc s c +:+ t = s +:+ String c t.
Proof. unfold snoc. by rewrite string_app_assoc. Qed.

Lemma string_length_app (a b : string) :
  String.length (a +:+ b) = (String.length a + String.length b)%nat.
Proof. induction a as [|x a IH]; simpl; [done|]. by rewrite IH. Qed.

Lemma list_of_string_app a b :
  list_of_string (a +:+ b) = (list_of_string a ++ list_of_string b)%list.
Proof. induction a as [|x a IH]; simpl; [done|]. by rewrite IH. Qed.

Lemma string_of_list_app a b :
  string_of_list (a ++ b)%list = string_of_list a +:+ string_of_list b.
Proof. induction a as [|x a IH]; simpl; [done|]. by rewrite IH. Qed.

Lemma string_rev_app a b : string_rev (a +:+ b) = string_rev b +:+ string_rev a.
Proof.
  unfold string_rev. by rewrite list_of_string_app, rev_app_distr, string_of_list_app.
Qed.

(** [n.to_string()] for an unsigned integer. *)
Definition show_Z (n : Z) : string := pretty n.

(** ** Trimming *)

(** Visible ASCII characters. *)
Definition is_graphic (c : Ascii.ascii) : bool :=
  let n := Ascii.nat_of_ascii c in (33 <=? n)%nat && (n <=? 126)%nat.

Lemma graphic_not_whitespace c s :
  is_graphic c = true →
  find_map (λ e, strip_prefix e (String c s)) whitespace_encodings = None
  ∧ find_map (λ e, strip_prefix e (String c s)) (string_rev <$> whitespace_encodings) = None.
Proof.
  destruct c as [[] [] [] [] [] [] [] []]; intros H; vm_compute in H;
    first [discriminate H | split; vm_compute; reflexivity].
Qed.

Lemma trim_with_graphic encs n c s :
  find_map (λ e, strip_prefix e (String c s)) encs = None →
  trim_with encs n (String c s) = String c s.
Proof. intros H. destruct n; simpl; [done|]. by rewrite H. Qed.

Lemma trim_start_graphic c s : is_graphic c = true → trim_start (String c s) = String c s.
Proof. intros H. apply trim_with_graphic. exact (proj1 (graphic_not_whitespace c s H)). Qed.

Lemma trim_start_space s : trim_start (String space s) = trim_start s.
Proof. reflexivity. Qed.

Lemma string_rev_length s : String.length (string_rev s) = String.length s.
Proof.
  assert (∀ l, String.length (string_of_list l) = length l) as H1.
  { induction l as [|c l IH]; simpl; [done|]. by rewrite IH. }
  assert (length (list_of_string s) = String.length s) as H2.
  { induction s as [|c s IH]; simpl; [done|]. by rewrite IH. }
  unfold string_rev. by rewrite H1, length_rev.
Qed.

Lemma trim_end_graphic s c r :
  string_rev s = String c r → is_graphic c = true → trim_end s = s.
Proof.
  intros Hr Hc. unfold trim_end. rewrite Hr, trim_with_graphic, <- Hr.
  - apply string_rev_involutive.
  - exact (proj2 (graphic_not_whitespace c r Hc)).
Qed.

Lemma trim_end_space s : trim_end (s +:+ " ") = trim_end s.
Proof.
  unfold trim_end. rewrite string_rev_app, string_length_app, Nat.add_comm. done.
Qed.

(** A string that begins and ends with visible characters. *)
Definition graphic_ends (s : string) : bool :=
  match s, string_rev s with
  | String c _, String d _ => is_graphic c && is_graphic d
  | _, _ => false
  end.

Lemma trim_graphic s : graphic_ends s = true → trim s = s.
Proof.
  unfold graphic_ends, trim. destruct s as [|c s]; [done|].
  destruct (string_rev (String c s)) as [|d r] eqn:E; [done|].
  intros [Hc Hd]%andb_true_iff. rewrite trim_start_graphic by done.
  by eapply trim_end_graphic.
Qed.

Lemma trim_space_l s : trim (String space s) = trim s.
Proof. unfold trim. by rewrite trim_start_space. Qed.

Lemma trim_graphic_space s : graphic_ends s = true → trim (s +:+ " ") = s.
Proof.
  intros Hg. rewrite <- (trim_graphic s Hg) at 2. unfold trim.
  unfold graphic_ends in Hg. destruct s as [|c s]; [done|].
  destruct (string_rev (String c s)) as [|d r] eqn:E; [done|].
  apply andb_true_iff in Hg as [Hc Hd]. simpl.
  rewrite !trim_start_graphic by done.
  change (String c (s +:+ " ")) with (String c s +:+ " "). apply trim_end_space.
Qed.

Lemma graphic_ends_ne s : graphic_ends s = true → is_empty s = false.
Proof. by destruct s. Qed.

(** A filter that every element passes. *)
Lemma filter_all {A} (P : A → Prop) `{∀ x, Decision (P x)} l : Forall P l → filter P l = l.
Proof. induction 1 as [|x l Hx _ IH]; [done|]. by rewrite filter_cons_True, IH. Qed.

Lemma Is_true_iff (b : bool) : Is_true b ↔ b = true.
Proof. by destruct b. Qed.

Lemma not_Is_true_iff (b : bool) : ¬ Is_true b ↔ b = false.
Proof. destruct b; simpl; intuition congruence. Qed.

(** ** Automation *)

Create HintDb helikon.
Create Rewrite HintDb helikon.
#[export] Hint Rewrite contains_char_app String.eqb_refl Ascii.eqb_refl : helikon.
#[export] Hint Resolve u32_add_small u64_add_small : helikon.

(** Case analysis on every match of the goal, closing the trivial cases. *)
Ltac cases := repeat (case_match; simplify_eq/=); try done.
Ltac split_all := repeat match goal with |- _ ∧ _ => split end.
