(* ===== verification/Json.v ===== *)
(** The interface of the JSON library (serde_json), which is not part of the
    repository: the class [SerdeJson] has the operations the modelled code
    calls, [SerdeJsonLaws] the documented behaviour the theorems rely on, and
    [Toy] an instance the witnesses evaluate. *)

From S2P Require Import Prelude.

Class SerdeJson := {
  (** [serde_json::Value] and the constructors of its variants *)
  Value : Type;
  VNull : Value;
  VBool : bool → Value;
  VString : string → Value;
  VArray : list Value → Value;
  VObject : list (string * Value) → Value;
  (** [from_str], the error rendered by [Display] *)
  from_str : string → result Value string;
  (** [Value::to_string] *)
  to_string : Value → string;
  (** [Value::get] with a string index, [Value::as_str], [Value::as_bool] *)
  get : Value → string → option Value;
  as_str : Value → option string;
  as_bool : Value → option bool;
  as_array : Value → option (list Value);
  (** the entries of an object, in the map's iteration order *)
  as_object : Value → option (list (string * Value));
  (** nesting depth: a measure for recursion over a value *)
  depth : Value → nat;
  (** [PartialEq] *)
  value_eq_dec : EqDecision Value;
}.

#[export] Existing Instance value_eq_dec.

(** Lookup of a key in an object literal: the last binding wins. *)
Definition assoc {A} (k : string) (kvs : list (string * A)) : option A :=
  rfind_map (λ kv, if String.eqb (fst kv) k then Some (snd kv) else None) kvs.

Class SerdeJsonLaws `{SerdeJson} : Prop := {
  as_str_VString : ∀ s, as_str (VString s) = Some s;
  as_str_VObject : ∀ kvs, as_str (VObject kvs) = None;
  as_str_VArray : ∀ vs, as_str (VArray vs) = None;
  as_bool_VBool : ∀ b, as_bool (VBool b) = Some b;
  as_array_VArray : ∀ vs, as_array (VArray vs) = Some vs;
  (** a map sorts its keys *)
  as_object_VObject : ∀ kvs, NoDup kvs.*1 →
    ∃ kvs', as_object (VObject kvs) = Some kvs' ∧ kvs' ≡ₚ kvs;
  as_array_VObject : ∀ kvs, as_array (VObject kvs) = None;
  as_object_VArray : ∀ vs, as_object (VArray vs) = None;
  as_array_VString : ∀ s, as_array (VString s) = None;
  as_object_VString : ∀ s, as_object (VString s) = None;
  as_object_keys : ∀ v kvs, as_object v = Some kvs → NoDup kvs.*1;
  depth_array : ∀ v vs x, as_array v = Some vs → x ∈ vs → (depth x < depth v)%nat;
  depth_object : ∀ v kvs k x, as_object v = Some kvs → (k, x) ∈ kvs → (depth x < depth v)%nat;
  get_VObject : ∀ kvs k, get (VObject kvs) k = assoc k kvs;
  from_str_empty_object : from_str "{}" = Ok (VObject []);
}.

(** Numbers: [Value::from] and [Value::as_u64]. *)
Class JsonU64 `{SerdeJson} := {
  from_u64 : Z → Value;
  as_u64 : Value → option Z;
}.

Class JsonU64Laws `{J : SerdeJson} `{!JsonU64} : Prop := {
  as_u64_from : ∀ n, (0 ≤ n ≤ u64_max)%Z → as_u64 (from_u64 n) = Some n;
  as_u64_range : ∀ v n, as_u64 v = Some n → (0 ≤ n ≤ u64_max)%Z;
}.

(** ** The size of a text

    What a byte of a string takes between the quotes: the quote, the backslash
    and the control characters with a short form are escaped to two bytes, the
    other control characters to six ([\u00XX]). *)
Definition escape_size (c : Ascii.ascii) : nat :=
  let b := Ascii.nat_of_ascii c in
  if existsb (Nat.eqb b) [34; 92; 8; 9; 10; 12; 13] then 2 else if (b <? 32)%nat then 6 else 1.

Fixpoint escaped_size (s : string) : nat :=
  match s with
  | EmptyString => 0
  | String c s' => escape_size c + escaped_size s'
  end.

(** Replacing the entry of a key: [value[key] = x]. *)
Definition replace_key {A} (k : string) (x : A) (kvs : list (string * A)) : list (string * A) :=
  (λ kv, if String.eqb (fst kv) k then (fst kv, x) else kv) <$> kvs.

Class JsonIndex `{SerdeJson} := {
  (** [IndexMut] on an object that has the key *)
  set_index : Value → string → Value → Value;
}.

(** The size of an object's text with entries of the given sizes: the braces, the
    commas, and for each entry two quotes and a colon. *)
Definition object_size (sizes : list (nat * nat)) : nat :=
  2 + list_sum ((λ kx, 3 + kx.1 + kx.2) <$> sizes) + pred (length sizes).

Class JsonTextLaws `{J : SerdeJson} `{!JsonU64} `{!JsonIndex} : Prop := {
  text_string : ∀ s, String.length (to_string (VString s)) = 2 + escaped_size s;
  text_bool : ∀ b, String.length (to_string (VBool b)) ≤ 5;
  text_u64 : ∀ n, (0 ≤ n ≤ u64_max)%Z → String.length (to_string (from_u64 n)) ≤ 20;
  text_object : ∀ v kvs, as_object v = Some kvs →
    String.length (to_string v)
    = object_size ((λ kv, (escaped_size kv.1, String.length (to_string kv.2))) <$> kvs);
  get_as_object : ∀ v k x, get v k = Some x → ∃ kvs, as_object v = Some kvs ∧ (k, x) ∈ kvs;
  as_object_set_index : ∀ v k x kvs, as_object v = Some kvs → k ∈ kvs.*1 →
    as_object (set_index v k x) = Some (replace_key k x kvs);
}.

(** A small concrete instance: values with their structure, a parser of the
    literals [{}], [null], [true], [false] and of unescaped quoted strings. *)
Module Toy.
Inductive value : Type :=
| TNull
| TBool (b : bool)
| TString (s : string)
| TArray (vs : list value)
| TObject (kvs : list (string * value))
| TNumber (n : Z).

Fixpoint value_dec (v w : value) {struct v} : {v = w} + {v ≠ w}.
Proof.
  decide equality.
  - apply Bool.bool_dec.
  - apply String.string_dec.
  - apply (List.list_eq_dec value_dec).
  - apply List.list_eq_dec. intros [k x] [k' x'].
    destruct (String.string_dec k k') as [->|Hk].
    + destruct (value_dec x x') as [->|Hx]; [by left|right; congruence].
    + right; congruence.
  - apply Z.eq_dec.
Defined.

#[export] Instance value_eq_decision : EqDecision value := value_dec.

Definition quote : Ascii.ascii := Ascii.ascii_of_nat 34.

Definition parse (s : string) : result value string :=
  match trim s with
  | "{}" => Ok (TObject [])
  | "null" => Ok TNull
  | "true" => Ok (TBool true)
  | "false" => Ok (TBool false)
  | String c s' =>
      if Ascii.eqb c quote then
        match strip_suffix (String quote "") s' with
        | Some body => Ok (TString body)
        | None => Err "EOF while parsing a string"
        end
      else Err "expected value"
  | EmptyString => Err "EOF while parsing a value"
  end%string.

(** Of two bindings of a key the last one stays. *)
Fixpoint canon {A} (kvs : list (string * A)) : list (string * A) :=
  match kvs with
  | [] => []
  | (k, v) :: kvs' =>
      if existsb (λ kv, String.eqb (fst kv) k) kvs' then canon kvs' else (k, v) :: canon kvs'
  end.

(** The escapes of JSON, on the bits of a byte. *)
Definition hex (b0 b1 b2 b3 : bool) : string :=
  match b3, b2, b1, b0 with
  | false, false, false, false => "0" | false, false, false, true => "1"
  | false, false, true, false => "2" | false, false, true, true => "3"
  | false, true, false, false => "4" | false, true, false, true => "5"
  | false, true, true, false => "6" | false, true, true, true => "7"
  | true, false, false, false => "8" | true, false, false, true => "9"
  | true, false, true, false => "a" | true, false, true, true => "b"
  | true, true, false, false => "c" | true, true, false, true => "d"
  | true, true, true, false => "e" | true, true, true, true => "f"
  end.

Definition short_escapes : list (Ascii.ascii * Ascii.ascii) :=
  [(chr 34, chr 34); (chr 92, chr 92); (chr 8, chr 98); (chr 9, chr 116); (chr 10, chr 110);
   (chr 12, chr 102); (chr 13, chr 114)].

Definition escape_byte (c : Ascii.ascii) : string :=
  match find_map (λ e, if Ascii.eqb c (fst e) then Some (snd e) else None) short_escapes with
  | Some x => String (chr 92) (String x "")
  | None =>
      match c with
      | Ascii.Ascii b0 b1 b2 b3 b4 false false false =>
          String (chr 92) ("u00" +:+ (if b4 then "1" else "0") +:+ hex b0 b1 b2 b3)
      | _ => String c ""
      end
  end.

Fixpoint escape (s : string) : string :=
  match s with
  | EmptyString => EmptyString
  | String c s' => escape_byte c +:+ escape s'
  end.

Definition quoted (s : string) : string := String quote (escape s) +:+ String quote "".

Fixpoint render (v : value) : string :=
  match v with
  | TNull => "null"
  | TBool b => if b then "true" else "false"
  | TString s => quoted s
  | TArray vs => "[" +:+ String.concat "," (render <$> vs) +:+ "]"
  | TObject kvs =>
      "{" +:+ String.concat ","
        ((λ kv, quoted (fst kv) +:+ ":" +:+ snd kv) <$>
          canon ((λ kv, (fst kv, render (snd kv))) <$> kvs)) +:+ "}"
  | TNumber n => show_Z n
  end%string.

Lemma canon_subset {A} (kvs : list (string * A)) kv : kv ∈ canon kvs → kv ∈ kvs.
Proof.
  induction kvs as [|[k v] kvs IH]; simpl; [done|].
  destruct (existsb _ kvs); rewrite ?elem_of_cons; naive_solver.
Qed.

Lemma canon_keys {A} (kvs : list (string * A)) : NoDup (canon kvs).*1.
Proof.
  induction kvs as [|[k v] kvs IH]; simpl; [constructor|].
  destruct (existsb _ kvs) eqn:E; [done|]. simpl. constructor; [|done].
  intros ([k' v'] & Hk & Hin%canon_subset)%list_elem_of_fmap. simpl in Hk. subst k'.
  rewrite existsb_Forall, Forall_forall in E. specialize (E _ Hin). simpl in E.
  by rewrite String.eqb_refl in E.
Qed.

Lemma canon_id {A} (kvs : list (string * A)) : NoDup kvs.*1 → canon kvs = kvs.
Proof.
  induction kvs as [|[k v] kvs IH]; simpl; [done|]. intros [Hk Hn]%NoDup_cons.
  destruct (existsb _ kvs) eqn:E; [|by rewrite IH].
  apply existsb_Exists in E as ([k' v'] & Hin & Heq). apply String.eqb_eq in Heq.
  simpl in Heq. subst k'.
  exfalso. apply Hk, list_elem_of_fmap. by exists (k, v').
Qed.

Definition max_list (l : list nat) : nat := foldr Nat.max 0%nat l.

Lemma max_list_in l x : x ∈ l → (x ≤ max_list l)%nat.
Proof. induction 1; simpl; lia. Qed.

Fixpoint value_depth (v : value) : nat :=
  match v with
  | TArray vs => S (max_list (value_depth <$> vs))
  | TObject kvs => S (max_list ((λ kv, value_depth (snd kv)) <$> kvs))
  | _ => 0
  end.

#[export] Instance json : SerdeJson := {|
  Value := value;
  VNull := TNull; VBool := TBool; VString := TString;
  VArray := TArray; VObject := TObject;
  from_str := parse;
  to_string := render;
  get v k := match v with TObject kvs => assoc k kvs | _ => None end;
  as_str v := match v with TString s => Some s | _ => None end;
  as_bool v := match v with TBool b => Some b | _ => None end;
  as_array v := match v with TArray vs => Some vs | _ => None end;
  as_object v := match v with TObject kvs => Some (canon kvs) | _ => None end;
  depth := value_depth;
|}.

#[export] Instance json_u64 : JsonU64 := {|
  from_u64 n := TNumber n;
  as_u64 v :=
    match v with
    | TNumber n => if (0 <=? n)%Z && (n <=? u64_max)%Z then Some n else None
    | _ => None
    end;
|}.

#[export] Instance json_u64_laws : JsonU64Laws.
Proof.
  split.
  - intros n Hn. simpl. by rewrite (proj2 (Z.leb_le 0 n)), (proj2 (Z.leb_le n u64_max)) by lia.
  - intros [| | | | |k] n H; simplify_eq/=.
    destruct (Z.leb_spec 0 k), (Z.leb_spec k u64_max); simplify_eq/=. lia.
Qed.

#[export] Instance json_index : JsonIndex := {|
  set_index v k x := match v with TObject kvs => TObject (replace_key k x (canon kvs)) | _ => v end;
|}.

#[export] Instance json_laws : SerdeJsonLaws.
Proof.
  split; try reflexivity.
  - intros kvs Hn. simpl. exists kvs. by rewrite canon_id.
  - intros [| | | |kvs0|] kvs Hv; simplify_eq/=. apply canon_keys.
  - intros [| | |vs0| |] vs x Hv Hx; simplify_eq/=. apply Nat.lt_succ_r, max_list_in.
    by apply list_elem_of_fmap_2.
  - intros [| | | |kvs0|] kvs k x Hv Hx; simplify_eq/=. apply Nat.lt_succ_r, max_list_in.
    apply list_elem_of_fmap. exists (k, x). split; [done|by apply canon_subset].
Qed.

(** *** The sizes of the rendered texts *)

Lemma escape_byte_size c : String.length (escape_byte c) = escape_size c.
Proof. destruct c as [[] [] [] [] [] [] [] []]; reflexivity. Qed.

Lemma quoted_size s : String.length (quoted s) = 2 + escaped_size s.
Proof.
  unfold quoted. rewrite string_length_app. simpl. rewrite Nat.add_1_r. do 2 f_equal.
  induction s as [|c s IH]; simpl; [done|]. by rewrite string_length_app, escape_byte_size, IH.
Qed.

Lemma pretty_N_go_length k n s :
  (n < 10 ^ N.of_nat k)%N → String.length (pretty_N_go n s) ≤ k + String.length s.
Proof.
  revert n s. induction k as [|k IH]; intros n s Hn.
  - replace n with 0%N by (simpl in Hn; lia). by rewrite pretty_N_go_0.
  - destruct (decide (0 < n)%N) as [H|H]; [|by replace n with 0%N by lia; rewrite pretty_N_go_0; lia].
    rewrite pretty_N_go_step by done. etrans; [apply IH|simpl; lia].
    apply N.Div0.div_lt_upper_bound.
    by replace (10 * 10 ^ N.of_nat k)%N with (10 ^ N.of_nat (S k))%N
      by (rewrite Nat2N.inj_succ, N.pow_succ_r'; lia).
Qed.

Lemma show_Z_length n : (0 ≤ n ≤ u64_max)%Z → String.length (show_Z n) ≤ 20.
Proof.
  intros Hn. unfold show_Z, pretty, pretty_Z. destruct n as [|p|p]; [simpl; lia| |lia].
  unfold pretty, pretty_positive, pretty, pretty_N. case_decide; [simpl; lia|].
  etrans; [apply (pretty_N_go_length 20)|simpl; lia].
  unfold u64_max in Hn. replace (10 ^ N.of_nat 20)%N with 100000000000000000000%N by done. lia.
Qed.

Lemma assoc_cons {A} k k' (x' : A) kvs :
  assoc k ((k', x') :: kvs) =
    match assoc k kvs with
    | Some x => Some x
    | None => if String.eqb k' k then Some x' else None
    end.
Proof.
  unfold assoc, rfind_map. simpl.
  induction (rev kvs) as [|[j y] l IH]; simpl; [by destruct (String.eqb k' k)|].
  by destruct (String.eqb j k).
Qed.

Lemma assoc_exists {A} k (kvs : list (string * A)) :
  existsb (λ kv, String.eqb (fst kv) k) kvs = bool_decide (is_Some (assoc k kvs)).
Proof.
  induction kvs as [|[k' x'] kvs IH]; [done|]. rewrite assoc_cons. simpl. rewrite IH.
  destruct (assoc k kvs); [by rewrite orb_true_r|]. by destruct (String.eqb k' k).
Qed.

Lemma assoc_canon {A} k (x : A) kvs : assoc k kvs = Some x → (k, x) ∈ canon kvs.
Proof.
  induction kvs as [|[k' x'] kvs IH]; [done|]. rewrite assoc_cons. simpl.
  destruct (existsb _ kvs) eqn:He.
  - intros Hx. apply IH. destruct (assoc k kvs) eqn:Hk; [done|].
    destruct (String.eqb_spec k' k) as [->|]; [|done]. by rewrite assoc_exists, Hk in He.
  - rewrite elem_of_cons. destruct (assoc k kvs); [intros [= ->]; auto|].
    destruct (String.eqb_spec k' k) as [->|]; [|done]. intros [= ->]. by left.
Qed.

Lemma canon_map {A B} (f : A → B) kvs : canon (prod_map id f <$> kvs) = prod_map id f <$> canon kvs.
Proof.
  induction kvs as [|[k v] kvs IH]; csimpl; [done|]. rewrite IH.
  replace (existsb _ (prod_map id f <$> kvs)) with (existsb (λ kv : string * A, String.eqb (fst kv) k) kvs).
  - by destruct (existsb _ kvs).
  - clear. induction kvs as [|[] kvs IH]; csimpl; by rewrite ?IH.
Qed.

Lemma concat_comma_length l :
  String.length (String.concat "," l) = list_sum (String.length <$> l) + pred (length l).
Proof.
  induction l as [|x [|y l] IH]; [done|simpl; lia|].
  change (String.concat "," (x :: y :: l)) with (x +:+ "," +:+ String.concat "," (y :: l)).
  rewrite !string_length_app, IH. simpl. lia.
Qed.

Lemma entries_size (l : list (string * value)) :
  list_sum (String.length <$> ((λ kv, quoted kv.1 +:+ ":" +:+ kv.2) <$> (prod_map id render <$> l)))
  = list_sum ((λ kx, 3 + kx.1 + kx.2) <$>
      ((λ kv, (escaped_size kv.1, String.length (render kv.2))) <$> l)).
Proof.
  unfold list_sum in *. induction l as [|[k v] l IH]; [done|].
  rewrite !fmap_cons. cbn [foldr prod_map fst snd]. rewrite IH, !string_length_app, quoted_size.
  unfold id. simpl. lia.
Qed.

#[export] Instance json_text_laws : JsonTextLaws.
Proof.
  split.
  - intros s. apply quoted_size.
  - intros []; simpl; lia.
  - intros n Hn. by apply show_Z_length.
  - intros [| | | |kvs0|] kvs Hv; simplify_eq/=.
    replace ((λ kv : string * value, (kv.1, render kv.2)) <$> kvs0) with (prod_map id render <$> kvs0)
      by (by apply list_fmap_ext; intros ? []).
    rewrite canon_map, string_length_app, concat_comma_length, !length_fmap, entries_size.
    unfold object_size. rewrite length_fmap. simpl. lia.
  - intros [| | | |kvs|] k x Hx; simplify_eq/=. exists (canon kvs). split; [done|].
    by apply assoc_canon.
  - intros [| | | |kvs0|] k x kvs Hv Hk; simplify_eq/=. rewrite canon_id; [done|].
    unfold replace_key. rewrite <-list_fmap_compose.
    rewrite (list_fmap_ext _ fst); [apply canon_keys|]. intros _ [k' v'] _. unfold compose. simpl.
    by destruct (String.eqb k' k).
Qed.
End Toy.
