(* ===== verification/Items.v ===== *)
(** The data the components exchange: conversation items and content blocks
    (core/src/item.rs), model requests, events and errors (core/src/model.rs),
    token usage (core/src/runner.rs), agent events and errors
    (core/src/agent.rs).  Floating-point sampling parameters are carried as
    their bit patterns; [anyhow::Error] values are carried as the message
    they display. *)

From S2P Require Import Prelude Json.

(** ** Token usage *)

Record TokenUsage := mkTokenUsage {
  input_tokens : Z;
  output_tokens : Z;
  cached_input_tokens : Z;
  reasoning_tokens : Z;
  total_tokens : Z;
}.

Definition TokenUsage_default : TokenUsage := mkTokenUsage 0 0 0 0 0.

(** [TokenUsage::add]: field-wise [+=] on [u64]. *)
Definition TokenUsage_add (self other : TokenUsage) : TokenUsage := {|
  input_tokens := u64_add (input_tokens self) (input_tokens other);
  output_tokens := u64_add (output_tokens self) (output_tokens other);
  cached_input_tokens :=
    u64_add (cached_input_tokens self) (cached_input_tokens other);
  reasoning_tokens := u64_add (reasoning_tokens self) (reasoning_tokens other);
  total_tokens := u64_add (total_tokens self) (total_tokens other);
|}.

#[export] Instance TokenUsage_eq_dec : EqDecision TokenUsage.
Proof. solve_decision. Defined.

(** The running total of a list of turns, as the loop folds it. *)
Definition sum_usage (us : list TokenUsage) : TokenUsage :=
  fold_left TokenUsage_add us TokenUsage_default.

Lemma sum_usage_snoc us u :
  sum_usage (us ++ [u]) = TokenUsage_add (sum_usage us) u.
Proof. unfold sum_usage. by rewrite fold_left_app. Qed.

(** ** Content and items *)

Inductive MediaSource : Type :=
| Url (url : string)
| Base64 (mime_type data : string).

#[export] Instance MediaSource_eq_dec : EqDecision MediaSource.
Proof. solve_decision. Defined.

Inductive FinishReason : Type :=
| Stop
| Length
| ToolCalls
| ContentFilter
| FinishOther (reason : string).

#[export] Instance FinishReason_eq_dec : EqDecision FinishReason.
Proof. solve_decision. Defined.

Inductive GuardrailKind : Type :=
| InputPolicy
| OutputPolicy
| GuardrailOther (reason : string).

#[export] Instance GuardrailKind_eq_dec : EqDecision GuardrailKind.
Proof. solve_decision. Defined.

Inductive ToolChoice : Type :=
| ChoiceAuto
| ChoiceRequired
| ChoiceNone
| ChoiceTool (name : string).

Section Data.
Context `{J : SerdeJson}.

Inductive ContentPart : Type :=
| Text (text : string)
| Image (source : MediaSource)
| Audio (source : MediaSource)
| PartToolUse (call_id name : string) (args : Value)
| PartToolResult (call_id : string) (content : list ContentPart)
| Reasoning (text : string).

Inductive Item : Type :=
| UserMessage (content : list ContentPart)
| AssistantMessage (content : list ContentPart) (agent : option string)
| System (content : list ContentPart)
| ToolCall (call_id name : string) (args : Value)
| ToolResult (call_id : string) (content : list ContentPart).

Record ToolDef := mkToolDef {
  td_name : string;
  td_description : string;
  td_schema : Value;
}.

Inductive ResponseFormat : Type :=
| RFText
| JsonObject
| JsonSchema (name : string) (schema : Value) (strict : bool).

Record ModelSettings := mkModelSettings {
  temperature : option Z;
  top_p : option Z;
  max_output_tokens : option Z;
  tool_choice : option ToolChoice;
  response_format : option ResponseFormat;
  previous_response_id : option string;
}.

Record ModelRequest := mkModelRequest {
  messages : list Item;
  tools : list ToolDef;
  model_settings : ModelSettings;
}.

Inductive ModelEvent : Type :=
| METokenDelta (text : string)
| MEReasoningDelta (text : string)
| METoolCallDelta (call_id : string) (name : option string) (args_delta : string)
| MEUsage (input_tokens output_tokens : Z)
    (cached_input_tokens reasoning_tokens : option Z)
| MEFinish (reason : FinishReason).

Inductive ModelError : Type :=
| Unavailable
| RateLimited (retry_after_ms : option Z)
| ContextLengthExceeded
| Refused (reason : string)
| Transport (msg : string)
| ModelOther (msg : string).

(** [#[error(..)]] of [ModelError]. *)
Definition ModelError_display (e : ModelError) : string :=
  match e with
  | Unavailable => "model provider unavailable"
  | RateLimited r =>
      "rate limited (retry after " +:+
      match r with None => "None" | Some n => "Some(" +:+ show_Z n +:+ ")" end +:+
      " ms)"
  | ContextLengthExceeded => "context length exceeded"
  | Refused reason => "model refused: " +:+ reason
  | Transport m => "transport error: " +:+ m
  | ModelOther m => m
  end.

Inductive ToolError : Type :=
| InvalidArgs (schema_errors : list string)
| ToolDenied (reason : string)
| ToolOther (msg : string).

Inductive SessionError : Type :=
| SessionUnavailable
| Backend (msg : string)
| SessionOther (msg : string).

Inductive AgentError : Type :=
| AEModel (e : ModelError)
| AETool (e : ToolError)
| AESession (e : SessionError)
| AEGuardrail (kind : GuardrailKind)
| HookDenied (event reason : string)
| InvalidStructuredOutput (schema_errors : list string) (final_text : string)
| MaxTurnsExceeded (max : Z)
| MaxIterationsExceeded (max : Z)
| NotImplemented (feature : string)
| MaxAgentDepthExceeded (depth max : Z)
| MaxHandoffsExceeded (limit : Z)
| AEOther (msg : string).

Inductive AgentEvent : Type :=
| RunStarted (agent : string)
| TurnStarted (turn : Z)
| TokenDelta (text : string)
| ReasoningDelta (text : string)
| ToolCallDelta (call_id : string) (name : option string) (args_delta : string)
| MessageOutput (item : Item)
| ToolCallItem (item : Item)
| ToolOutputItem (item : Item)
| HandoffItem (from to : string)
| AgentUpdated (agent : string)
| GuardrailTriggered (kind : GuardrailKind) (info : Value)
| ApprovalRequested (call_id tool : string) (args : Value)
| PermissionDenied (tool reason : string)
| RepairStarted (attempt : Z)
| StructuredOutputFailed (schema_errors : list string) (final_text : string)
| RunCompleted (usage : TokenUsage)
| RunFailed (error : string).

(** [AgentEvent::is_terminal] *)
Definition is_terminal (ev : AgentEvent) : bool :=
  match ev with
  | RunCompleted _ | RunFailed _ => true
  | _ => false
  end.

(** The structured-output type: its name, schema and captured validator. *)
Record OutputType := mkOutputType {
  ot_name : string;
  ot_schema : Value;
  ot_validate : Value → result unit (list string);
}.

(** [OutputType::from_schema] for a type [T] given by its schema and its
    deserializer [from_value] (both derived code). *)
Definition OutputType_from_schema (schema : Value)
    (from_value : Value → result unit string) : OutputType := {|
  ot_schema := schema;
  ot_name :=
    match get schema "title" ≫= as_str with
    | Some s => s
    | None => "StructuredOutput"
    end;
  ot_validate v :=
    match from_value v with Ok _ => Ok tt | Err e => Err [e] end;
|}.

(** The fail-closed stand-in a deserialized [OutputType] gets. *)
Definition unavailable_output_validate (_ : Value) : result unit (list string) :=
  Err ["OutputType::validate is unavailable on a deserialized OutputType; " +:+
       "reconstruct via OutputType::from_schema::<T>() instead"].

Record HandoffDef := mkHandoffDef {
  tool_name : string;
  target : string;
  description : string;
}.

Definition AgentInput_from_user_text (text : string) : list Item :=
  [UserMessage [Text text]].

(** Concatenation of the text of the [UserMessage]s of a conversation. *)
Definition user_text_of (conversation : list Item) : string :=
  fold_left (λ s item,
    match item with
    | UserMessage content =>
        fold_left (λ s' part,
          match part with Text text => s' +:+ text | _ => s' end) content s
    | _ => s
    end) conversation "".

Definition is_tool_call (i : Item) : bool :=
  match i with ToolCall _ _ _ => true | _ => false end.

Definition is_assistant_message (i : Item) : bool :=
  match i with AssistantMessage _ _ => true | _ => false end.
End Data.
