(* ===== verification/LoopState.v ===== *)
(** The pure state machine of the agent loop: core/src/loop_state.rs.

    [transition] takes the current state, the latest input and the driver's
    context, and returns the next state, the events to emit, the side effect
    the driver runs next and the items it appends to the conversation.  Each
    arm of the source's [match] is one definition. *)

From S2P Require Import Prelude Json Items.

Local Open Scope Z_scope.

Section LoopState.
Context `{J : SerdeJson}.

Record ToolCallRequest := mkToolCallRequest {
  tcr_call_id : string;
  tcr_name : string;
  tcr_args : Value;
}.

Record ToolCallOutcome := mkToolCallOutcome {
  tco_call_id : string;
  tco_result : result (list ContentPart) string;
}.

Record FinalOutput := mkFinalOutput {
  fo_content : list ContentPart;
  fo_usage : TokenUsage;
}.

Inductive LoopState : Type :=
| CallingModel (turn : Z) (usage : TokenUsage)
| ExecutingTools (calls : list ToolCallRequest) (turn : Z) (usage : TokenUsage)
| ApplyingHandoff (target : string) (transcript : list Item) (usage : TokenUsage)
| Compacting
| NeedsApproval (pending : list ToolCallRequest)
| Finalizing (turn : Z) (usage : TokenUsage)
| RepairingOutput (turn : Z) (usage : TokenUsage)
| Done (out : FinalOutput)
| Failed (e : AgentError).

Inductive TransitionInput : Type :=
| Start (messages : list Item)
| ModelResponse (items : list Item) (usage : TokenUsage) (finish_reason : FinishReason)
| ToolResults (outcomes : list ToolCallOutcome).

Inductive NextAction : Type :=
| CallModel (request : ModelRequest)
| ExecuteTools (calls : list ToolCallRequest)
| Terminate
| Handoff.

Record TransitionCtx := mkTransitionCtx {
  ctx_tools : list ToolDef;
  ctx_model_settings : ModelSettings;
  ctx_max_turns : Z;
  ctx_conversation : list Item;
  ctx_output : option OutputType;
  ctx_handoffs : list HandoffDef;
}.

Record TransitionOutcome := mkOutcome {
  next_state : LoopState;
  events : list AgentEvent;
  next_action : NextAction;
  conversation_appends : list Item;
}.

(** The derived [Debug] rendering used by the invalid-transition message. *)
Class LoopDebug := {
  debug_state : LoopState → string;
  debug_input : TransitionInput → string;
}.

(** *** Helpers *)

Definition text_of (p : ContentPart) : option string :=
  match p with Text text => Some text | _ => None end.

Definition flatten_text (content : list ContentPart) : string :=
  String.concat "" (omap text_of content).

Definition as_text (out : FinalOutput) : string :=
  String.concat "" (omap text_of (fo_content out)).

Definition accumulate (prior this_turn : TokenUsage) : TokenUsage :=
  TokenUsage_add prior this_turn.

Definition constrained_settings (base : ModelSettings) (output : OutputType)
  : ModelSettings := {|
  temperature := temperature base;
  top_p := top_p base;
  max_output_tokens := max_output_tokens base;
  tool_choice := None;
  response_format := Some (JsonSchema (ot_name output) (ot_schema output) true);
  previous_response_id := previous_response_id base;
|}.

Definition validate_terminal (output : OutputType) (content : list ContentPart)
  : result unit (list string) :=
  match from_str (trim (flatten_text content)) with
  | Ok v => ot_validate output v
  | Err e => Err ["response was not valid JSON: " +:+ e]
  end.

Definition repair_message (name : string) (errors : list string) : Item :=
  UserMessage [Text (
    "Your previous response did not match the required `" +:+ name +:+ "` schema. " +:+
    "Errors: " +:+ String.concat "; " errors +:+
    ". Reply with ONLY a JSON value matching the schema — " +:+
    "no prose, no code fences.")].

Definition last_assistant_content (items : list Item) : list ContentPart :=
  default [] (rfind_map (λ i,
    match i with AssistantMessage content _ => Some content | _ => None end) items).

Definition handoff_tool_def (def : HandoffDef) : ToolDef := {|
  td_name := tool_name def;
  td_description := description def;
  td_schema := VObject [("type", VString "object");
                        ("properties", VObject []);
                        ("additionalProperties", VBool false)];
|}.

Definition turn_tools (ctx : TransitionCtx) : list ToolDef :=
  ctx_tools ctx ++ (handoff_tool_def <$> ctx_handoffs ctx).

Definition dropped_on_handoff (i : Item) : bool :=
  match i with
  | System _ | ToolCall _ _ _ | ToolResult _ _ => true
  | _ => false
  end.

Definition thread_handoff_transcript (conversation : list Item) : list Item :=
  List.filter (λ i, negb (dropped_on_handoff i)) conversation ++
  [UserMessage [Text ("You are now handling a transferred conversation. " +:+
                      "Continue assisting the user.")]].

Definition message_outputs (items : list Item) : list AgentEvent :=
  MessageOutput <$> List.filter is_assistant_message items.

Definition max_turns_message (max : Z) : string :=
  "max turns (" +:+ show_Z max +:+ ") exceeded".

(** *** The arms of [transition] *)

Definition not_implemented (feature : string) : TransitionOutcome := {|
  next_state := Failed (NotImplemented feature);
  events := [RunFailed ("not yet implemented: " +:+ feature)];
  next_action := Terminate;
  conversation_appends := [];
|}.

Definition max_turns_reached (ctx : TransitionCtx) : TransitionOutcome := {|
  next_state := Failed (MaxTurnsExceeded (ctx_max_turns ctx));
  events := [RunFailed (max_turns_message (ctx_max_turns ctx))];
  next_action := Terminate;
  conversation_appends := [];
|}.

Definition constrained_request (ctx : TransitionCtx) (out : OutputType)
    (msgs : list Item) : ModelRequest :=
  mkModelRequest msgs [] (constrained_settings (ctx_model_settings ctx) out).

Definition unconstrained_request (ctx : TransitionCtx) : ModelRequest :=
  mkModelRequest (ctx_conversation ctx) (turn_tools ctx) (ctx_model_settings ctx).

Definition on_start (turn : Z) (prior : TokenUsage) (ctx : TransitionCtx)
  : TransitionOutcome :=
  match ctx_output ctx with
  | Some out =>
      if bool_decide (length (ctx_tools ctx) = 0%nat) then
        {| next_state := Finalizing turn prior;
           events := [TurnStarted turn];
           next_action := CallModel (constrained_request ctx out (ctx_conversation ctx));
           conversation_appends := [] |}
      else
        {| next_state := CallingModel turn prior;
           events := [TurnStarted turn];
           next_action := CallModel (unconstrained_request ctx);
           conversation_appends := [] |}
  | None =>
      {| next_state := CallingModel turn prior;
         events := [TurnStarted turn];
         next_action := CallModel (unconstrained_request ctx);
         conversation_appends := [] |}
  end.

Definition is_handoff_name (ctx : TransitionCtx) (name : string) : bool :=
  existsb (λ h, String.eqb (tool_name h) name) (ctx_handoffs ctx).

(** The first tool call that names a handoff tool, and its target. *)
Definition handoff_target (ctx : TransitionCtx) (items : list Item) : option string :=
  find_map (λ i,
    match i with
    | ToolCall _ name _ =>
        target <$> List.find (λ h, String.eqb (tool_name h) name) (ctx_handoffs ctx)
    | _ => None
    end) items.

Definition handoff_events (ctx : TransitionCtx) (items : list Item) : list AgentEvent :=
  omap (λ item,
    match item with
    | AssistantMessage _ _ => Some (MessageOutput item)
    | ToolCall _ name _ =>
        if is_handoff_name ctx name then Some (ToolCallItem item) else None
    | _ => None
    end) items.

Definition tool_call_events (items : list Item) : list AgentEvent :=
  omap (λ item,
    match item with
    | AssistantMessage _ _ => Some (MessageOutput item)
    | ToolCall _ _ _ => Some (ToolCallItem item)
    | _ => None
    end) items.

Definition tool_call_requests (items : list Item) : list ToolCallRequest :=
  omap (λ item,
    match item with
    | ToolCall call_id name args => Some (mkToolCallRequest call_id name args)
    | _ => None
    end) items.

Definition on_tool_calls (turn : Z) (prior : TokenUsage) (items : list Item)
    (usage : TokenUsage) (ctx : TransitionCtx) : TransitionOutcome :=
  match handoff_target ctx items with
  | Some target =>
      {| next_state := ApplyingHandoff target
           (thread_handoff_transcript (ctx_conversation ctx)) (accumulate prior usage);
         events := handoff_events ctx items;
         next_action := Handoff;
         conversation_appends := [] |}
  | None =>
      let calls := tool_call_requests items in
      {| next_state := ExecutingTools calls turn (accumulate prior usage);
         events := tool_call_events items;
         next_action := ExecuteTools calls;
         conversation_appends := [] |}
  end.

Definition on_final_message (turn : Z) (prior : TokenUsage) (items : list Item)
    (usage : TokenUsage) (ctx : TransitionCtx) : TransitionOutcome :=
  let total := accumulate prior usage in
  match ctx_output ctx with
  | Some out =>
      let finalizing_turn := u32_add turn 1 in
      {| next_state := Finalizing finalizing_turn total;
         events := message_outputs items ++ [TurnStarted finalizing_turn];
         next_action := CallModel (constrained_request ctx out (ctx_conversation ctx));
         conversation_appends := [] |}
  | None =>
      {| next_state := Done (mkFinalOutput (last_assistant_content items) total);
         events := message_outputs items ++ [RunCompleted total];
         next_action := Terminate;
         conversation_appends := [] |}
  end.

Definition tool_output_event (o : ToolCallOutcome) : AgentEvent :=
  ToolOutputItem (ToolResult (tco_call_id o)
    (unwrap_or_else (tco_result o) (λ e, [Text e]))).

Definition on_tool_results (turn : Z) (prior : TokenUsage)
    (outcomes : list ToolCallOutcome) (ctx : TransitionCtx) : TransitionOutcome :=
  let next_turn := u32_add turn 1 in
  let evs := tool_output_event <$> outcomes in
  if next_turn >=? ctx_max_turns ctx then
    {| next_state := Failed (MaxTurnsExceeded (ctx_max_turns ctx));
       events := evs ++ [RunFailed (max_turns_message (ctx_max_turns ctx))];
       next_action := Terminate;
       conversation_appends := [] |}
  else
    {| next_state := CallingModel next_turn prior;
       events := evs ++ [TurnStarted next_turn];
       next_action := CallModel (unconstrained_request ctx);
       conversation_appends := [] |}.

Definition missing_output (where_ : string) : TransitionOutcome := {|
  next_state := Failed (AEOther (where_ +:+ " state without output type"));
  events := [RunFailed ("internal: " +:+ where_ +:+ " without output type")];
  next_action := Terminate;
  conversation_appends := [];
|}.

(** The validation both constrained arms run: a tool call is an error. *)
Definition validate_items (out : OutputType) (items : list Item) (msg : string)
  : result unit (list string) :=
  if existsb is_tool_call items then Err [msg]
  else validate_terminal out (last_assistant_content items).

Definition completed (items : list Item) (total : TokenUsage) : TransitionOutcome := {|
  next_state := Done (mkFinalOutput (last_assistant_content items) total);
  events := message_outputs items ++ [RunCompleted total];
  next_action := Terminate;
  conversation_appends := [];
|}.

Definition on_finalizing (turn : Z) (prior : TokenUsage) (items : list Item)
    (usage : TokenUsage) (ctx : TransitionCtx) : TransitionOutcome :=
  match ctx_output ctx with
  | None => missing_output "Finalizing"
  | Some out =>
      let total := accumulate prior usage in
      match validate_items out items
              "model called a tool on the constrained finalizing turn" with
      | Ok _ => completed items total
      | Err schema_errors =>
          let msg := repair_message (ot_name out) schema_errors in
          {| next_state := RepairingOutput turn total;
             events := message_outputs items ++ [RepairStarted 1];
             next_action :=
               CallModel (constrained_request ctx out (ctx_conversation ctx ++ [msg]));
             conversation_appends := [msg] |}
      end
  end.

Definition on_repairing (prior : TokenUsage) (items : list Item)
    (usage : TokenUsage) (ctx : TransitionCtx) : TransitionOutcome :=
  match ctx_output ctx with
  | None => missing_output "RepairingOutput"
  | Some out =>
      let total := accumulate prior usage in
      match validate_items out items "model called a tool on the repair turn" with
      | Ok _ => completed items total
      | Err schema_errors =>
          let final_text := flatten_text (last_assistant_content items) in
          {| next_state := Failed (InvalidStructuredOutput schema_errors final_text);
             events := message_outputs items ++
               [StructuredOutputFailed schema_errors final_text;
                RunFailed "invalid structured output after one repair attempt"];
             next_action := Terminate;
             conversation_appends := [] |}
      end
  end.

Definition invalid_transition `{LoopDebug} (s : LoopState) (i : TransitionInput)
  : TransitionOutcome :=
  let msg := "invalid transition: " +:+ debug_state s +:+ " ← " +:+ debug_input i in
  {| next_state := Failed (AEOther msg);
     events := [RunFailed msg];
     next_action := Terminate;
     conversation_appends := [] |}.

Definition transition `{LoopDebug} (state : LoopState) (input : TransitionInput)
    (ctx : TransitionCtx) : TransitionOutcome :=
  match state, input with
  | CallingModel turn prior, _ =>
      if turn >=? ctx_max_turns ctx then max_turns_reached ctx
      else match input with
      | Start _ => on_start turn prior ctx
      | ModelResponse items usage _ =>
          if existsb is_tool_call items then on_tool_calls turn prior items usage ctx
          else on_final_message turn prior items usage ctx
      | ToolResults _ => invalid_transition state input
      end
  | ExecutingTools _ turn prior, ToolResults outcomes =>
      on_tool_results turn prior outcomes ctx
  | Finalizing turn prior, ModelResponse items usage _ =>
      on_finalizing turn prior items usage ctx
  | RepairingOutput _ prior, ModelResponse items usage _ =>
      on_repairing prior items usage ctx
  | Compacting, _ => not_implemented "compaction"
  | NeedsApproval _, _ => not_implemented "approval"
  | _, _ => invalid_transition state input
  end.

(** *** The driver's protocol

    The driver answers [CallModel] with a model response and [ExecuteTools]
    with tool results, appends the incoming items to its conversation before
    the step and the step's [conversation_appends] after it. *)

Record AgentPlan := mkAgentPlan {
  plan_tools : list ToolDef;
  plan_model_settings : ModelSettings;
  plan_max_turns : Z;
  plan_output : option OutputType;
  plan_handoffs : list HandoffDef;
}.

Definition ctx_of (plan : AgentPlan) (conversation : list Item) : TransitionCtx := {|
  ctx_tools := plan_tools plan;
  ctx_model_settings := plan_model_settings plan;
  ctx_max_turns := plan_max_turns plan;
  ctx_conversation := conversation;
  ctx_output := plan_output plan;
  ctx_handoffs := plan_handoffs plan;
|}.

Record DriverState := mkDriverState {
  ds_state : LoopState;
  ds_action : NextAction;
  ds_conversation : list Item;
  ds_log : list AgentEvent;
}.

Definition answers (a : NextAction) (i : TransitionInput) : bool :=
  match a, i with
  | CallModel _, ModelResponse _ _ _ => true
  | ExecuteTools _, ToolResults _ => true
  | _, _ => false
  end.

Definition outcome_item (o : ToolCallOutcome) : Item :=
  ToolResult (tco_call_id o) (unwrap_or_else (tco_result o) (λ e, [Text e])).

Definition incoming_items (i : TransitionInput) : list Item :=
  match i with
  | Start _ => []
  | ModelResponse items _ _ => items
  | ToolResults outcomes => outcome_item <$> outcomes
  end.

Section Drive.
Context `{LoopDebug} (plan : AgentPlan) (seed : list Item).

Definition apply_outcome (conversation : list Item) (log : list AgentEvent)
    (o : TransitionOutcome) : DriverState := {|
  ds_state := next_state o;
  ds_action := next_action o;
  ds_conversation := conversation ++ conversation_appends o;
  ds_log := log ++ events o;
|}.

Definition drive_start : DriverState :=
  apply_outcome seed []
    (transition (CallingModel 0 TokenUsage_default) (Start seed) (ctx_of plan seed)).

Definition drive_step (d : DriverState) (i : TransitionInput) : DriverState :=
  let conversation := ds_conversation d ++ incoming_items i in
  apply_outcome conversation (ds_log d)
    (transition (ds_state d) i (ctx_of plan conversation)).

(** [reaches tr d]: the driver is in [d] after the inputs [tr]. *)
Inductive reaches : list TransitionInput → DriverState → Prop :=
| reaches_start : reaches [] drive_start
| reaches_step tr d i :
    reaches tr d → answers (ds_action d) i = true →
    reaches (tr ++ [i]) (drive_step d i).

(** Feed a list of inputs; [None] when one does not answer the action. *)
Fixpoint drive_all (d : DriverState) (tr : list TransitionInput) : option DriverState :=
  match tr with
  | [] => Some d
  | i :: tr' =>
      if answers (ds_action d) i then drive_all (drive_step d i) tr' else None
  end.
End Drive.

Definition usage_of_input (i : TransitionInput) : option TokenUsage :=
  match i with ModelResponse _ usage _ => Some usage | _ => None end.

Definition is_model_response (i : TransitionInput) : bool :=
  match i with ModelResponse _ _ _ => true | _ => false end.

Definition usage_of_state (s : LoopState) : option TokenUsage :=
  match s with
  | CallingModel _ u | ExecutingTools _ _ u | ApplyingHandoff _ _ u
  | Finalizing _ u | RepairingOutput _ u => Some u
  | Done out => Some (fo_usage out)
  | Compacting | NeedsApproval _ | Failed _ => None
  end.

Definition is_repair_started (ev : AgentEvent) : bool :=
  match ev with RepairStarted _ => true | _ => false end.

(** The request a constrained state issues. *)
Definition constrained_by (req : ModelRequest) (out : OutputType) : Prop :=
  tools req = [] ∧ tool_choice (model_settings req) = None ∧
  response_format (model_settings req) =
    Some (JsonSchema (ot_name out) (ot_schema out) true).

(** State and pending action agree, the turn counter is in range, and the
    failures reached are the ones the protocol admits. *)
Definition well_driven (plan : AgentPlan) (s : LoopState) (a : NextAction) : Prop :=
  match s, a with
  | CallingModel turn _, CallModel req =>
      0 ≤ turn < plan_max_turns plan ∧ model_settings req = plan_model_settings plan
      ∧ tools req = plan_tools plan ++ (handoff_tool_def <$> plan_handoffs plan)
  | ExecutingTools calls turn _, ExecuteTools calls' =>
      calls' = calls ∧ calls ≠ [] ∧ 0 ≤ turn < plan_max_turns plan
  | ApplyingHandoff name transcript _, Handoff =>
      (∃ h, h ∈ plan_handoffs plan ∧ target h = name)
      ∧ Forall (λ i, dropped_on_handoff i = false) transcript ∧ transcript ≠ []
  | Finalizing turn _, CallModel req
  | RepairingOutput turn _, CallModel req =>
      0 ≤ turn ≤ plan_max_turns plan
      ∧ ∃ out, plan_output plan = Some out ∧ constrained_by req out
  | Done out, Terminate =>
      ∀ ot, plan_output plan = Some ot → validate_terminal ot (fo_content out) = Ok tt
  | Failed e, Terminate =>
      e = MaxTurnsExceeded (plan_max_turns plan)
      ∨ ∃ errs text, e = InvalidStructuredOutput errs text ∧ plan_output plan ≠ None
  | _, _ => False
  end.
End LoopState.

(** ** Correctness *)

Create HintDb loop_events.

Section Theorems.
Context `{J : SerdeJson} `{D : !LoopDebug} (plan : AgentPlan) (seed : list Item).

Lemma handoff_target_known ctx items name :
  handoff_target ctx items = Some name → ∃ h, h ∈ ctx_handoffs ctx ∧ target h = name.
Proof.
  intros (l1 & x & l2 & -> & Hx & _)%find_map_Some.
  destruct x; simplify_eq/=.
  destruct (List.find _ _) as [h|] eqn:Hf; simplify_eq/=.
  exists h. split; [|done]. apply list_elem_of_In. exact (proj1 (List.find_some _ _ Hf)).
Qed.

Lemma thread_handoff_transcript_clean conv :
  Forall (λ i, dropped_on_handoff i = false) (thread_handoff_transcript conv)
  ∧ thread_handoff_transcript conv ≠ [].
Proof.
  unfold thread_handoff_transcript. split; [|by destruct (List.filter _ _)].
  apply Forall_app; split; [|by repeat constructor].
  apply Forall_forall. intros i Hi%list_elem_of_In%List.filter_In.
  by destruct Hi as [_ ?%negb_true_iff].
Qed.

Lemma tool_call_requests_ne items :
  existsb is_tool_call items = true → tool_call_requests items ≠ [].
Proof.
  intros (x & Hx & Hc)%existsb_Exists. induction Hx as [|x y l _ IH]; simpl.
  - by destruct x.
  - unfold tool_call_requests in *. simpl. destruct y; simpl; auto.
Qed.

Lemma validate_items_ok out items msg :
  validate_items out items msg = Ok tt →
  existsb is_tool_call items = false
  ∧ validate_terminal out (last_assistant_content items) = Ok tt.
Proof. unfold validate_items. by destruct (existsb _ _). Qed.

Lemma drive_all_reaches tr0 d0 tr d :
  reaches plan seed tr0 d0 → drive_all plan d0 tr = Some d → reaches plan seed (tr0 ++ tr) d.
Proof.
  revert tr0 d0. induction tr as [|i tr IH]; intros tr0 d0 Hr; simpl.
  - intros [= ->]. by rewrite app_nil_r.
  - destruct (answers _ i) eqn:Ha; [|done]. intros Hd.
    replace (tr0 ++ i :: tr) with ((tr0 ++ [i]) ++ tr) by (by rewrite <- (assoc_L (++))).
    eapply IH; [|done]. by constructor.
Qed.

(** *** Emitted events *)

Definition no_terminal (evs : list AgentEvent) : Prop :=
  Forall (λ ev, is_terminal ev = false) evs.

Definition one_final_terminal (evs : list AgentEvent) : Prop :=
  ∃ l ev, evs = l ++ [ev] ∧ is_terminal ev = true ∧ no_terminal l.

Lemma omap_no_terminal {A} (f : A → option AgentEvent) l :
  (∀ x ev, f x = Some ev → is_terminal ev = false) → no_terminal (omap f l).
Proof.
  intros Hf. apply Forall_forall. intros ev (x & _ & Hx)%list_elem_of_omap. eauto.
Qed.

Lemma fmap_no_terminal {A} (f : A → AgentEvent) l :
  (∀ x, is_terminal (f x) = false) → no_terminal (f <$> l).
Proof. intros Hf. apply Forall_fmap, Forall_true, Hf. Qed.

Lemma message_outputs_no_terminal items : no_terminal (message_outputs items).
Proof. by apply fmap_no_terminal. Qed.

Lemma tool_events_no_terminal items : no_terminal (tool_call_events items).
Proof. apply omap_no_terminal. intros [] ev; naive_solver. Qed.

Lemma handoff_events_no_terminal ctx items : no_terminal (handoff_events ctx items).
Proof.
  apply omap_no_terminal. intros [] ev; simpl; try destruct (is_handoff_name _ _);
    naive_solver.
Qed.

Lemma tool_output_no_terminal os : no_terminal (tool_output_event <$> os).
Proof. by apply fmap_no_terminal. Qed.

Lemma one_final_app l evs :
  no_terminal l → one_final_terminal evs → one_final_terminal (l ++ evs).
Proof.
  intros Hl (l' & ev & -> & Hev & Hl'). exists (l ++ l'), ev.
  rewrite (assoc_L (++)). split_and!; [done..|]. by apply Forall_app.
Qed.

Lemma one_final_single ev : is_terminal ev = true → one_final_terminal [ev].
Proof. intros. exists [], ev. split_and!; [done..|]. by constructor. Qed.

Hint Resolve message_outputs_no_terminal tool_events_no_terminal
  handoff_events_no_terminal tool_output_no_terminal one_final_app
  one_final_single : loop_events.

(** What one step emits, by the action it asks for. *)
Definition events_agree (o : TransitionOutcome) : Prop :=
  match next_action o with
  | Terminate => one_final_terminal (events o)
  | _ => no_terminal (events o)
  end.

Lemma no_terminal_snoc l ev :
  no_terminal l → is_terminal ev = false → no_terminal (l ++ [ev]).
Proof. intros. apply Forall_app. split; [done|]. by repeat constructor. Qed.

Hint Resolve no_terminal_snoc : loop_events.

Lemma transition_events s i ctx : events_agree (transition s i ctx).
Proof.
  unfold events_agree, transition, invalid_transition, on_start, on_tool_calls,
    on_final_message, on_tool_results, on_finalizing, on_repairing.
  destruct s, i; repeat case_match; simplify_eq/=; auto with loop_events.
  all: try (apply one_final_app; [auto with loop_events|]).
  all: try (by apply one_final_single).
  all: try (by repeat constructor).
  exists [StructuredOutputFailed e (flatten_text (last_assistant_content items))].
  eexists. split_and!; [done..|]. by repeat constructor.
Qed.

Lemma reaches_events tr d :
  reaches plan seed tr d →
  match ds_action d with
  | Terminate => one_final_terminal (ds_log d)
  | _ => no_terminal (ds_log d)
  end.
Proof.
  induction 1 as [|tr d i _ IH Ha].
  - apply (transition_events (CallingModel 0 TokenUsage_default) (Start seed)).
  - pose proof (transition_events (ds_state d) i
      (ctx_of plan (ds_conversation d ++ incoming_items i))) as He.
    unfold events_agree in He. unfold drive_step. simpl.
    destruct (ds_action d); try done;
    destruct (next_action _); try by apply Forall_app.
    all: by apply one_final_app.
Qed.

(** *** Usage *)

Definition usages (tr : list TransitionInput) : list TokenUsage := omap usage_of_input tr.

Lemma usages_snoc tr i :
  usages (tr ++ [i]) =
    match usage_of_input i with Some u => usages tr ++ [u] | None => usages tr end.
Proof.
  unfold usages. rewrite omap_app. simpl. destruct (usage_of_input i); simpl; [done|].
  by rewrite app_nil_r.
Qed.

(** One step folds in exactly the usage of its input. *)
Lemma transition_usage s a i conv u v :
  well_driven plan s a → answers a i = true →
  usage_of_state s = Some u →
  usage_of_state (next_state (transition s i (ctx_of plan conv))) = Some v →
  v = match usage_of_input i with Some w => TokenUsage_add u w | None => u end.
Proof.
  unfold transition, on_tool_calls, on_final_message, on_tool_results, on_finalizing,
    on_repairing, accumulate.
  destruct s, a, i; try done; simpl; intros W _ [= <-]; repeat case_match;
    simplify_eq/=; naive_solver.
Qed.

Lemma no_completed l u : no_terminal l → RunCompleted u ∈ l → False.
Proof.
  unfold no_terminal. rewrite Forall_forall. intros Hl Hin. by specialize (Hl _ Hin).
Qed.

Lemma completed_in_tail l evs u :
  no_terminal l → RunCompleted u ∈ l ++ evs → RunCompleted u ∈ evs.
Proof.
  intros Hl [Hin|Hin]%elem_of_app; [|done]. exfalso. by eapply no_completed.
Qed.

Lemma transition_completed s i ctx u :
  RunCompleted u ∈ events (transition s i ctx) →
  ∃ out, next_state (transition s i ctx) = Done out ∧ fo_usage out = u.
Proof.
  unfold transition, invalid_transition, on_start, on_tool_calls, on_final_message,
    on_tool_results, on_finalizing, on_repairing.
  destruct s, i; repeat case_match; simplify_eq/=; intros Hin;
    try (apply completed_in_tail in Hin; [|by auto with loop_events]);
    try (exfalso; eapply no_completed; [|exact Hin]; by auto with loop_events);
    rewrite ?elem_of_cons, ?elem_of_nil in Hin; naive_solver.
Qed.

Lemma reaches_completed tr d u :
  reaches plan seed tr d → RunCompleted u ∈ ds_log d →
  ∃ out, ds_state d = Done out ∧ fo_usage out = u.
Proof.
  intros Hr Hin. destruct Hr as [|tr d i Hr Ha]; [by apply transition_completed|].
  simpl in Hin. apply elem_of_app in Hin as [Hin|Hin]; [|by apply transition_completed].
  pose proof (reaches_events _ _ Hr) as He.
  destruct (ds_action d); try done; exfalso; by eapply no_completed.
Qed.

(** *** Repair turns *)

Definition repairs (log : list AgentEvent) : nat :=
  length (List.filter is_repair_started log).

Definition repairs_left (s : LoopState) : nat :=
  match s with
  | RepairingOutput _ _ | Done _ | Failed _ => 0
  | _ => 1
  end.

Lemma repairs_app l1 l2 : repairs (l1 ++ l2) = (repairs l1 + repairs l2)%nat.
Proof. unfold repairs. by rewrite List.filter_app, length_app. Qed.

Lemma repairs_none l : Forall (λ ev, is_repair_started ev = false) l → repairs l = 0%nat.
Proof.
  unfold repairs. induction 1 as [|ev l Hev _ IH]; simpl; [done|]. by rewrite Hev.
Qed.

Lemma message_outputs_no_repair items : repairs (message_outputs items) = 0%nat.
Proof. apply repairs_none, Forall_fmap, Forall_true. done. Qed.

Lemma tool_events_no_repair items : repairs (tool_call_events items) = 0%nat.
Proof.
  apply repairs_none, Forall_forall. intros ev ([] & _ & ?)%list_elem_of_omap;
    naive_solver.
Qed.

Lemma handoff_events_no_repair ctx items : repairs (handoff_events ctx items) = 0%nat.
Proof.
  apply repairs_none, Forall_forall.
  intros ev ([| | |? n ?|] & _ & ?)%list_elem_of_omap; simplify_eq/=; try done.
  case_match; naive_solver.
Qed.

Lemma tool_output_no_repair os : repairs (tool_output_event <$> os) = 0%nat.
Proof. apply repairs_none, Forall_fmap, Forall_true. done. Qed.

Lemma transition_repairs s a i conv :
  well_driven plan s a → answers a i = true →
  let o := transition s i (ctx_of plan conv) in
  (repairs (events o) + repairs_left (next_state o) ≤ repairs_left s)%nat.
Proof.
  unfold transition, on_tool_calls, on_final_message, on_tool_results, on_finalizing,
    on_repairing.
  destruct s, a, i; try done; simpl; intros W _; repeat case_match; simplify_eq/=;
    rewrite ?repairs_app, ?message_outputs_no_repair, ?tool_events_no_repair,
      ?handoff_events_no_repair, ?tool_output_no_repair;
    unfold repairs; simpl; try lia; naive_solver.
Qed.

(** *** Invariants of reachable states *)

Hypothesis max_turns_u32 : 0 ≤ plan_max_turns plan ≤ u32_max.

Lemma next_turn turn : 0 ≤ turn < plan_max_turns plan → u32_add turn 1 = turn + 1.
Proof using max_turns_u32. intros. apply u32_add_small. lia. Qed.

Lemma start_well_driven :
  let d := drive_start plan seed in well_driven plan (ds_state d) (ds_action d).
Proof using max_turns_u32.
  unfold drive_start, transition, max_turns_reached, on_start. simpl.
  destruct (0 >=? _) eqn:Hm; simpl; [by left|].
  rewrite Z.geb_leb, Z.leb_gt in Hm.
  destruct (plan_output plan) as [out|] eqn:Ho; [case_bool_decide|]; simpl; try done.
  split; [lia|]. by exists out.
Qed.

(** The step relation preserves agreement between state and action. *)
Lemma transition_well_driven conv s a i :
  well_driven plan s a → answers a i = true →
  let o := transition s i (ctx_of plan conv) in
  well_driven plan (next_state o) (next_action o).
Proof using max_turns_u32.
  destruct s as [turn u|calls turn u|name tr u| |p|turn u|turn u|out|e], a as [req|calls'| |];
    try done; destruct i as [ms|items us fr|os]; try done; intros W _; simpl in *.
  - destruct W as (Ht & _). destruct (turn >=? _) eqn:Hm.
    { rewrite Z.geb_leb, Z.leb_le in Hm. lia. }
    destruct (existsb _ _) eqn:Hc.
    + unfold on_tool_calls. destruct (handoff_target _ _) as [n|] eqn:Hh; simpl.
      * split; [by apply handoff_target_known in Hh|]. apply thread_handoff_transcript_clean.
      * eauto using tool_call_requests_ne.
    + unfold on_final_message. simpl. destruct (plan_output plan) as [out|] eqn:Ho; simpl;
        [|by rewrite Ho].
      rewrite next_turn by lia. split; [lia|]. by exists out.
  - destruct W as (_ & _ & Ht). unfold on_tool_results. simpl. rewrite next_turn by lia.
    destruct (turn + 1 >=? _) eqn:Hm; simpl; [by left|].
    rewrite Z.geb_leb, Z.leb_gt in Hm. split; [lia|done].
  - destruct W as (Ht & out & Ho & Hr). unfold on_finalizing. simpl. rewrite Ho.
    destruct (validate_items _ _ _) as [[]|errs] eqn:V; simpl.
    + intros ot Hot. assert (ot = out) as -> by congruence. exact (proj2 (validate_items_ok _ _ _ V)).
    + split; [lia|]. by exists out.
  - destruct W as (Ht & out & Ho & Hr). unfold on_repairing. simpl. rewrite Ho.
    destruct (validate_items _ _ _) as [[]|errs] eqn:V; simpl.
    + intros ot Hot. assert (ot = out) as -> by congruence. exact (proj2 (validate_items_ok _ _ _ V)).
    + right. exists errs. eexists. split; [done|congruence].
Qed.

Lemma reaches_well_driven tr d :
  reaches plan seed tr d → well_driven plan (ds_state d) (ds_action d).
Proof using max_turns_u32.
  induction 1; [apply start_well_driven|]. by eapply transition_well_driven.
Qed.

Lemma reaches_usage tr d u :
  reaches plan seed tr d → usage_of_state (ds_state d) = Some u →
  u = sum_usage (usages tr).
Proof using max_turns_u32.
  intros Hr. revert u. induction Hr as [|tr d i Hr IH Ha]; intros u.
  - unfold drive_start, transition, on_start; simpl; repeat case_match;
      simplify_eq/=; naive_solver.
  - intros Hu. pose proof (reaches_well_driven _ _ Hr) as W.
    destruct (usage_of_state (ds_state d)) as [u0|] eqn:E0.
    + rewrite usages_snoc. specialize (IH _ eq_refl). subst u0.
      rewrite (transition_usage _ _ _ _ _ _ W Ha E0 Hu).
      destruct (usage_of_input i); [|done]. by rewrite sum_usage_snoc.
    + destruct (ds_state d), (ds_action d); done.
Qed.

(** *** Termination *)

Definition fuel_of (s : LoopState) : Z :=
  match s with
  | CallingModel turn _ => 2 * (plan_max_turns plan - turn) + 1
  | ExecutingTools _ turn _ => 2 * (plan_max_turns plan - turn)
  | Finalizing _ _ => 2
  | RepairingOutput _ _ => 1
  | _ => 0
  end.

(** Model calls a state may still make. *)
Definition calls_left (s : LoopState) : Z :=
  match s with
  | CallingModel turn _ => plan_max_turns plan - turn + 2
  | ExecutingTools _ turn _ => plan_max_turns plan - turn - 1 + 2
  | Finalizing _ _ => 2
  | RepairingOutput _ _ => 1
  | _ => 0
  end.

Lemma transition_decreases s a i conv :
  well_driven plan s a → answers a i = true →
  let s' := next_state (transition s i (ctx_of plan conv)) in
  0 ≤ fuel_of s' < fuel_of s
  ∧ 0 ≤ calls_left s' ≤ calls_left s - Z.b2z (is_model_response i).
Proof using max_turns_u32.
  unfold transition, on_tool_calls, on_final_message, on_tool_results, on_finalizing,
    on_repairing.
  destruct s, a, i; try done; simpl; intros W _; repeat case_match; simplify_eq/=;
    rewrite ?next_turn by lia; rewrite ?Z.geb_leb, ?Z.leb_le, ?Z.leb_gt in *;
    repeat match goal with E : context [u32_add _ _] |- _ => rewrite next_turn in E by lia end;
    lia.
Qed.

Definition model_responses (tr : list TransitionInput) : nat :=
  length (List.filter is_model_response tr).

Lemma reaches_bounded tr d :
  reaches plan seed tr d →
  0 ≤ fuel_of (ds_state d) ∧ Z.of_nat (length tr) + fuel_of (ds_state d)
    ≤ 2 * plan_max_turns plan + 2
  ∧ 0 ≤ calls_left (ds_state d)
  ∧ Z.of_nat (model_responses tr) + calls_left (ds_state d) ≤ plan_max_turns plan + 2.
Proof using max_turns_u32.
  induction 1 as [|tr d i Hr IH Ha].
  - unfold model_responses, drive_start, transition, on_start. simpl.
    case_match eqn:Hm; simpl; [lia|].
    rewrite Z.geb_leb, Z.leb_gt in Hm. repeat case_match; simpl; lia.
  - pose proof (transition_decreases _ _ _ (ds_conversation d ++ incoming_items i)
      (reaches_well_driven _ _ Hr) Ha) as [Hf Hc].
    unfold model_responses in *. rewrite List.filter_app, !length_app. simpl in *.
    destruct (is_model_response i); simpl in *; lia.
Qed.

Lemma reaches_repairs tr d :
  reaches plan seed tr d → (repairs (ds_log d) + repairs_left (ds_state d) ≤ 1)%nat.
Proof using max_turns_u32.
  induction 1 as [|tr d i Hr IH Ha].
  - unfold drive_start, transition, on_start; simpl; repeat case_match; simpl;
      unfold repairs; simpl; lia.
  - pose proof (transition_repairs _ _ _ (ds_conversation d ++ incoming_items i)
      (reaches_well_driven _ _ Hr) Ha) as Ht.
    unfold drive_step. simpl in *. rewrite repairs_app. lia.
Qed.
End Theorems.

(** ** Properties *)

Definition sum_field (f : TokenUsage → Z) (us : list TokenUsage) : Z :=
  fold_right Z.add 0 (f <$> us).

Lemma sum_usage_field (f : TokenUsage → Z) us :
  f TokenUsage_default = 0 →
  (∀ a b, f (TokenUsage_add a b) = u64_add (f a) (f b)) →
  f (sum_usage us) = u64_wrap (sum_field f us).
Proof.
  intros H0 Hadd. induction us as [|u us IH] using rev_ind; [exact H0|].
  rewrite sum_usage_snoc, Hadd, IH, u64_add_wrap_l. f_equal. unfold sum_field.
  rewrite fmap_app, foldr_app. simpl.
  generalize (f <$> us). intros l. induction l as [|x l IHl]; simpl; lia.
Qed.

(** Every field of the total is the wrapped sum of the field over the turns. *)
Definition usage_is_sum (u : TokenUsage) (us : list TokenUsage) : Prop :=
  input_tokens u = u64_wrap (sum_field input_tokens us)
  ∧ output_tokens u = u64_wrap (sum_field output_tokens us)
  ∧ cached_input_tokens u = u64_wrap (sum_field cached_input_tokens us)
  ∧ reasoning_tokens u = u64_wrap (sum_field reasoning_tokens us)
  ∧ total_tokens u = u64_wrap (sum_field total_tokens us).

Lemma sum_usage_is_sum us : usage_is_sum (sum_usage us) us.
Proof. split_and!; by apply sum_usage_field. Qed.

(** A driver that answers each action with the matching input keeps state
    and action in agreement: the turn counter never reaches [max_turns] (nor
    wraps), constrained states issue a tool-free request with the schema of
    the output type, a handoff goes to a declared target with a transcript
    without system and tool items, and a run fails only by exhausting its
    turns or its repair attempt; the not-implemented and invalid-transition
    arms are unreachable. *)
Theorem driver_protocol `{J : SerdeJson} `{D : !LoopDebug} plan seed tr d :
  0 ≤ plan_max_turns plan ≤ u32_max →
  reaches plan seed tr d →
  well_driven plan (ds_state d) (ds_action d).
Proof. intros. by eapply reaches_well_driven. Qed.

(** The event log of a run holds no terminal event while the run goes on
    and exactly one, its last event, when the machine asks to terminate. *)
Theorem one_terminal_event `{J : SerdeJson} `{D : !LoopDebug} plan seed tr d :
  reaches plan seed tr d →
  match ds_action d with
  | Terminate => one_final_terminal (ds_log d)
  | _ => no_terminal (ds_log d)
  end.
Proof. exact (reaches_events plan seed tr d). Qed.

(** The usage a completed run reports is, field by field, the wrapped
    [u64] sum of the usages of all its model turns. *)
Theorem usage_accounted `{J : SerdeJson} `{D : !LoopDebug} plan seed tr d u :
  0 ≤ plan_max_turns plan ≤ u32_max →
  reaches plan seed tr d →
  RunCompleted u ∈ ds_log d →
  usage_is_sum u (usages tr).
Proof.
  intros Hm Hr Hin. destruct (reaches_completed _ _ _ _ _ Hr Hin) as (out & Hd & <-).
  erewrite (reaches_usage plan seed Hm tr d (fo_usage out)); [|done|by rewrite Hd].
  apply sum_usage_is_sum.
Qed.

(** C7. The loop terminates: a run consumes at most [2 * max_turns + 2] inputs
    and makes at most [max_turns + 2] model calls (the constrained and the
    repair turn come on top of [max_turns]). *)
Theorem loop_terminates `{J : SerdeJson} `{D : !LoopDebug} plan seed tr d :
  0 ≤ plan_max_turns plan ≤ u32_max →
  reaches plan seed tr d →
  Z.of_nat (length tr) ≤ 2 * plan_max_turns plan + 2
  ∧ Z.of_nat (model_responses tr) ≤ plan_max_turns plan + 2.
Proof. intros Hm Hr. destruct (reaches_bounded plan seed Hm _ _ Hr). lia. Qed.

(** A run of an agent with an output type that ends in [Done] carries text
    that parses as JSON and that the type's validator accepts. *)
Theorem done_output_valid `{J : SerdeJson} `{D : !LoopDebug} plan seed tr d out ot :
  0 ≤ plan_max_turns plan ≤ u32_max →
  reaches plan seed tr d →
  ds_state d = Done out → plan_output plan = Some ot →
  ∃ v, from_str (trim (as_text out)) = Ok v ∧ ot_validate ot v = Ok tt.
Proof.
  intros Hm Hr Hd Ho. pose proof (reaches_well_driven plan seed Hm _ _ Hr) as W.
  rewrite Hd in W. destruct (ds_action d); try done. specialize (W _ Ho).
  revert W. unfold validate_terminal, as_text, flatten_text.
  destruct (from_str _) as [v|]; [|done]. by exists v.
Qed.

(** A run starts at most one repair turn. *)
Theorem at_most_one_repair `{J : SerdeJson} `{D : !LoopDebug} plan seed tr d :
  0 ≤ plan_max_turns plan ≤ u32_max →
  reaches plan seed tr d →
  (repairs (ds_log d) ≤ 1)%nat.
Proof. intros Hm Hr. pose proof (reaches_repairs plan seed Hm _ _ Hr). lia. Qed.

(** ** A concrete run

    An agent with one tool and an output type: a tool turn, a final answer, a
    constrained turn that is not JSON, and a repair turn that is. *)
Module Demo.
#[local] Existing Instance Toy.json.

#[export] Instance debug : LoopDebug := {| debug_state _ := "s"; debug_input _ := "i" |}.

Definition settings : ModelSettings := mkModelSettings None None None None None None.

Definition output : OutputType :=
  OutputType_from_schema (VObject [("title", VString "Answer")])
    (λ v, match v with Toy.TObject _ => Ok tt | _ => Err "invalid type" end).

Definition plan : AgentPlan :=
  mkAgentPlan [mkToolDef "clock" "" VNull] settings 2 (Some output) [].

Definition usage (n : Z) : TokenUsage := mkTokenUsage n n 0 0 (n + n).

Definition say (s : string) : list Item := [AssistantMessage [Text s] None].

Definition trace : list TransitionInput :=
  [ModelResponse [ToolCall "c1" "clock" VNull] (usage 1) ToolCalls;
   ToolResults [mkToolCallOutcome "c1" (Ok [Text "noon"])];
   ModelResponse (say "It is noon.") (usage 2) Stop;
   ModelResponse (say "noon") (usage 3) Stop;
   ModelResponse (say " {} ") (usage 4) Stop].

Definition seed : list Item := [UserMessage [Text "What time is it?"]].

Definition final : option DriverState := drive_all plan (drive_start plan seed) trace.

Definition end_state : DriverState := default (drive_start plan seed) final.

Lemma reached : reaches plan seed trace end_state.
Proof.
  apply (drive_all_reaches plan seed [] (drive_start plan seed)); [constructor|].
  vm_cast_no_check (eq_refl (Some end_state)).
Qed.
End Demo.

#[local] Existing Instance Toy.json.
#[local] Existing Instance Demo.debug.

Lemma driver_protocol_witness :
  reaches Demo.plan Demo.seed Demo.trace Demo.end_state ∧
  well_driven Demo.plan (ds_state Demo.end_state) (ds_action Demo.end_state).
Proof.
  split; [exact Demo.reached|].
  apply (driver_protocol Demo.plan Demo.seed Demo.trace);
    [vm_compute; split; discriminate|exact Demo.reached].
Defined.

Lemma one_terminal_event_witness :
  ds_action Demo.end_state = Terminate ∧ one_final_terminal (ds_log Demo.end_state).
Proof.
  split; [vm_compute; reflexivity|].
  exact (one_terminal_event Demo.plan Demo.seed Demo.trace _ Demo.reached).
Defined.

Lemma usage_accounted_witness :
  RunCompleted (Demo.usage 10) ∈ ds_log Demo.end_state
  ∧ usage_is_sum (Demo.usage 10) (usages Demo.trace).
Proof.
  assert (RunCompleted (Demo.usage 10) ∈ ds_log Demo.end_state) as Hin.
  { apply (list_elem_of_lookup_2 _ 9). vm_compute. reflexivity. }
  split; [exact Hin|].
  apply (usage_accounted Demo.plan Demo.seed Demo.trace Demo.end_state);
    [vm_compute; split; discriminate|exact Demo.reached|exact Hin].
Defined.

Lemma loop_terminates_witness :
  reaches Demo.plan Demo.seed Demo.trace Demo.end_state
  ∧ Z.of_nat (length Demo.trace) ≤ 2 * plan_max_turns Demo.plan + 2
  ∧ Z.of_nat (model_responses Demo.trace) ≤ plan_max_turns Demo.plan + 2.
Proof.
  split; [exact Demo.reached|].
  apply (loop_terminates Demo.plan Demo.seed Demo.trace Demo.end_state);
    [vm_compute; split; discriminate|exact Demo.reached].
Defined.

Lemma done_output_valid_witness :
  ∃ out, ds_state Demo.end_state = Done out ∧
  ∃ v, from_str (trim (as_text out)) = Ok v ∧ ot_validate Demo.output v = Ok tt.
Proof.
  eexists. split; [vm_compute; reflexivity|].
  apply (done_output_valid Demo.plan Demo.seed Demo.trace Demo.end_state);
    [vm_compute; split; discriminate|exact Demo.reached|vm_compute; reflexivity|
     reflexivity].
Defined.

Lemma at_most_one_repair_witness :
  reaches Demo.plan Demo.seed Demo.trace Demo.end_state
  ∧ (repairs (ds_log Demo.end_state) ≤ 1)%nat.
Proof.
  split; [exact Demo.reached|].
  apply (at_most_one_repair Demo.plan Demo.seed Demo.trace Demo.end_state);
    [vm_compute; split; discriminate|exact Demo.reached].
Defined.
