(* ===== verification/PathMatch.v ===== *)
(** Lexical path matching for permission rules: core/src/path_match.rs.

    [clean_path] normalises a path without a file system; [PathGlob] matches
    the cleaned path against globs compiled by the globset crate, which is a
    parameter ([Globset]). *)

From S2P Require Import Prelude.

(** One component of the path against the stack of components kept so far
    (top first). *)
Definition clean_step (out : list string) (comp : string) : list string :=
  if String.eqb comp "" || String.eqb comp "." then out
  else if String.eqb comp ".." then
    match out with
    | c :: out' => if String.eqb c ".." then ".." :: out else out'
    | [] => [".."]
    end
  else comp :: out.

Definition clean_components (path : string) : list string :=
  let normalized := replace_char backslash slash path in
  let trimmed := default normalized (strip_prefix "./" normalized) in
  reverse (fold_left clean_step (split_on slash trimmed) []).

Definition clean_path (path : string) : string :=
  String.concat "/" (clean_components path).

Definition is_protected_dotpath (path : string) : bool :=
  let cleaned := clean_path path in
  let comps := List.filter (λ c, negb (is_empty c)) (split_on slash cleaned) in
  if existsb (λ c, eq_ignore_ascii_case c ".git" || eq_ignore_ascii_case c ".ssh") comps
  then true
  else match head (reverse comps) with
       | Some c =>
           let lower := string_lower c in
           String.eqb lower ".env" || starts_with lower ".env."
       | None => false
       end.

(** Trim a leading [./], then a single leading [/]. *)
Definition normalize_pattern (pat : string) : string :=
  let pat := replace_char backslash slash pat in
  let p := default pat (strip_prefix "./" pat) in
  default p (strip_prefix "/" p).

(** globset, as the code configures it (case-insensitive, literal separator):
    [glob_build] compiles one pattern, [glob_is_match] matches a path against
    one compiled glob. *)
Class Globset := {
  Glob : Type;
  glob_build : string → option Glob;
  glob_is_match : Glob → string → bool;
}.

(** The patterns a rule pattern stands for: unanchored when it has no [/]. *)
Definition expand_pattern (pattern : string) : list string :=
  if contains_char pattern slash || String.eqb pattern "**" then [pattern]
  else [pattern; "**/" +:+ pattern].

Definition build_globset `{Globset} (pattern : string) : list Glob :=
  if is_empty pattern then [] else omap glob_build (expand_pattern pattern).

(** A [PathGlob] is its normalised pattern and the set compiled from it. *)
Record PathGlob `{Globset} := mkPathGlob {
  pg_pattern : string;
  pg_set : list Glob;
}.

Definition PathGlob_new `{Globset} (pattern : string) : PathGlob :=
  let pattern := normalize_pattern pattern in
  mkPathGlob _ pattern (build_globset pattern).

Definition matches_path `{Globset} (g : PathGlob) (path : string) : bool :=
  existsb (λ glob, glob_is_match glob (clean_path path)) (pg_set g).

(** [PartialEq for PathGlob] compares the patterns only. *)
Definition PathGlob_eqb `{Globset} (a b : PathGlob) : bool :=
  String.eqb (pg_pattern a) (pg_pattern b).

(** ** Correctness *)

(** A component that cleaning keeps in place. *)
Definition kept (c : string) : Prop :=
  c ≠ "" ∧ c ≠ "." ∧ contains_char c slash = false ∧ contains_char c backslash = false.

(** Cleaned components (in path order): a run of [..], then proper names. *)
Definition clean (cs : list string) : Prop :=
  Forall kept cs ∧
  ∃ n rest, cs = replicate n ".." ++ rest ∧ Forall (λ c, c ≠ "..") rest.

(** The same for the stack, top first. *)
Definition clean_stack (out : list string) : Prop :=
  Forall kept out ∧
  ∃ rest n, out = rest ++ replicate n ".." ∧ Forall (λ c, c ≠ "..") rest.

Lemma clean_stack_reverse out : clean_stack out → clean (reverse out).
Proof.
  intros [Hk (rest & n & -> & Hr)]. split; [by apply Forall_reverse|].
  exists n, (reverse rest). rewrite reverse_app, reverse_replicate.
  split; [done|by apply Forall_reverse].
Qed.

Lemma kept_dots : kept "..".
Proof. done. Qed.

Lemma clean_step_clean out comp :
  clean_stack out → contains_char comp slash = false →
  contains_char comp backslash = false → clean_stack (clean_step out comp).
Proof.
  intros [Hk (rest & n & -> & Hr)] Hs Hb. unfold clean_step.
  destruct (String.eqb_spec comp ""); simpl; [by split; eauto|].
  destruct (String.eqb_spec comp "."); simpl; [by split; eauto|].
  destruct (String.eqb_spec comp "..") as [->|Hd].
  - destruct rest as [|c rest]; simpl in *.
    + assert (clean_stack (".." :: replicate n "..")) as Hgoal.
      { split; [by constructor; [apply kept_dots|]|]. by exists [], (S n). }
      by destruct n.
    + apply Forall_cons in Hk as [Hc Hk]. apply Forall_cons in Hr as [Hcd Hr].
      destruct (String.eqb_spec c ".."); [done|]. split; [done|]. by exists rest, n.
  - split; [by constructor|]. exists (comp :: rest), n. by split; [|constructor].
Qed.

Lemma clean_fold_clean comps out :
  clean_stack out →
  Forall (λ c, contains_char c slash = false ∧ contains_char c backslash = false) comps →
  clean_stack (fold_left clean_step comps out).
Proof.
  intros Hout H. revert out Hout. induction H as [|c comps [Hs Hb] _ IH]; intros out Hout;
    simpl; [done|]. by apply IH, clean_step_clean.
Qed.

Lemma split_on_keeps sep s c :
  contains_char s c = false → Forall (λ w, contains_char w c = false) (split_on sep s).
Proof.
  induction s as [|a s IH]; simpl; [by repeat constructor|].
  intros [Ha Hs]%orb_false_iff. specialize (IH Hs).
  destruct (Ascii.eqb a sep); [by constructor|].
  destruct (split_on sep s) as [|w ws]; [by repeat constructor; simpl; rewrite Ha|].
  apply Forall_cons in IH as [Hw Hws]. constructor; [simpl; by rewrite Ha|done].
Qed.

Lemma strip_prefix_keeps p s r c :
  strip_prefix p s = Some r → contains_char s c = false → contains_char r c = false.
Proof.
  intros ->%strip_prefix_Some. rewrite contains_char_app, orb_false_iff. by intros [_ ?].
Qed.

Lemma clean_components_clean path : clean (clean_components path).
Proof.
  unfold clean_components. apply clean_stack_reverse, clean_fold_clean.
  { split; [done|]. by exists [], 0%nat. }
  set (n := replace_char backslash slash path).
  assert (contains_char n backslash = false) as Hn by by apply replace_char_gone.
  assert (contains_char (default n (strip_prefix "./" n)) backslash = false) as Ht.
  { destruct (strip_prefix "./" n) eqn:E; simpl; [by eapply strip_prefix_keeps|done]. }
  apply List.Forall_and; [apply split_on_no_sep|by apply split_on_keeps].
Qed.

(** Folding over components that are already clean only stacks them. *)
Lemma clean_fold_dots n out :
  Forall (λ c, c = "..") out →
  fold_left clean_step (replicate n "..") out = replicate n ".." ++ out.
Proof.
  revert out. induction n as [|n IH]; intros out Hout; simpl; [done|].
  assert (clean_step out ".." = ".." :: out) as ->.
  { destruct Hout as [|c out -> _]; done. }
  rewrite IH by by constructor.
  change (".." :: out) with ([".."] ++ out). rewrite (assoc_L (++)).
  by rewrite <- replicate_cons_app.
Qed.

Lemma clean_fold_names rest out :
  Forall kept rest → Forall (λ c, c ≠ "..") rest →
  fold_left clean_step rest out = reverse rest ++ out.
Proof.
  intros Hk Hr. revert out. induction rest as [|c rest IH]; intros out; simpl; [done|].
  apply Forall_cons in Hk as [(H0 & H1 & _) Hk]. apply Forall_cons in Hr as [H2 Hr].
  unfold clean_step at 2. rewrite !(proj2 (String.eqb_neq _ _)) by done. simpl.
  rewrite IH, reverse_cons by done. by rewrite <- (assoc_L (++)).
Qed.

Lemma clean_fold_id cs : clean cs → reverse (fold_left clean_step cs []) = cs.
Proof.
  intros [Hk (n & rest & -> & Hr)]. apply Forall_app in Hk as [_ Hk].
  rewrite fold_left_app, clean_fold_dots by done. rewrite app_nil_r.
  rewrite clean_fold_names by done.
  by rewrite reverse_app, reverse_involutive, reverse_replicate.
Qed.

Lemma kept_no_dot_slash c cs r :
  kept c → strip_prefix "./" (String.concat "/" (c :: cs)) ≠ Some r.
Proof.
  intros (H0 & H1 & Hs & Hb) E%strip_prefix_Some. destruct c as [|a [|b c]]; [done| |].
  - destruct cs; simpl in E; naive_solver.
  - assert (b = slash) as ->.
    { destruct cs; simpl in E; by injection E. }
    simpl in Hs. by rewrite orb_true_r in Hs.
Qed.

Lemma split_join cs :
  cs ≠ [] → Forall (λ c, contains_char c slash = false) cs →
  split_on slash (String.concat "/" cs) = cs.
Proof. apply (split_on_concat slash). Qed.

(** Cleaning a joined clean list gives the list back. *)
Lemma clean_components_join cs : clean cs → clean_components (String.concat "/" cs) = cs.
Proof.
  intros Hc. pose proof Hc as [Hk _]. unfold clean_components.
  rewrite replace_char_id.
  2:{ apply contains_char_concat; [done|]. eapply Forall_weaken; [exact Hk|]. by intros c (?&?&?&?). }
  destruct cs as [|c cs]; [done|].
  destruct (strip_prefix "./" _) as [r|] eqn:E.
  { exfalso. apply Forall_cons in Hk as [Hk _]. by eapply kept_no_dot_slash. }
  cbn [default from_option]. rewrite split_join; [by apply clean_fold_id|done|].
  eapply Forall_weaken; [exact Hk|]. by intros x (?&?&?&?).
Qed.

Lemma clean_path_components path : clean_components (clean_path path) = clean_components path.
Proof. apply clean_components_join, clean_components_clean. Qed.

(** [clean_path] is idempotent, and its result is a run of [..] components
    followed by proper names: no empty or [.] component, no separator inside a
    component and no [..] after a name, so that no spelling of a path hides a
    component from the matchers. *)
Theorem clean_path_canonical path :
  clean (clean_components path)
  ∧ clean_path path = String.concat "/" (clean_components path)
  ∧ clean_path (clean_path path) = clean_path path.
Proof.
  split_and!; [apply clean_components_clean|done|].
  unfold clean_path at 1. by rewrite clean_path_components.
Qed.

(** The protected-component test on a list of components. *)
Definition protected_components (comps : list string) : Prop :=
  (∃ c, c ∈ comps ∧ (string_lower c = ".git" ∨ string_lower c = ".ssh"))
  ∨ (∃ c, head (reverse comps) = Some c ∧
       (string_lower c = ".env" ∨ ∃ r, string_lower c = ".env." +:+ r)).

Lemma filter_kept cs :
  Forall kept cs → List.filter (λ c, negb (is_empty c)) cs = cs.
Proof.
  induction 1 as [|c cs (Hc & _) _ IH]; simpl; [done|]. rewrite IH. by destruct c.
Qed.

Lemma split_clean_path path :
  List.filter (λ c, negb (is_empty c)) (split_on slash (clean_path path))
  = clean_components path.
Proof.
  unfold clean_path. pose proof (clean_components_clean path) as [Hk _].
  destruct (clean_components path) as [|c cs] eqn:E; [done|].
  rewrite split_join; [by apply filter_kept|done|].
  eapply Forall_weaken; [exact Hk|]. by intros x (?&?&?&?).
Qed.

(** The protected-path test fires exactly when a component of the cleaned
    path is [.git] or [.ssh] or its last one is [.env] or begins with [.env.],
    up to ASCII case; it sees through every spelling with the same cleaned
    components, backslashes included. *)
Theorem is_protected_dotpath_spec path :
  (is_protected_dotpath path = true ↔ protected_components (clean_components path))
  ∧ is_protected_dotpath (clean_path path) = is_protected_dotpath path
  ∧ is_protected_dotpath (replace_char slash backslash path) = is_protected_dotpath path.
Proof.
  assert (∀ p q, clean_components p = clean_components q →
                 is_protected_dotpath p = is_protected_dotpath q) as Hcong.
  { intros p q Hpq. unfold is_protected_dotpath. by rewrite !split_clean_path, Hpq. }
  split_and!.
  - unfold is_protected_dotpath. rewrite split_clean_path.
    unfold protected_components.
    destruct (existsb _ _) eqn:E.
    + split; [intros _; left|done]. apply existsb_Exists in E as (c & Hc & Ho).
      exists c. split; [done|]. unfold eq_ignore_ascii_case in Ho.
      by rewrite orb_true_iff, !String.eqb_eq in Ho.
    + assert (¬ ∃ c, c ∈ clean_components path ∧
                (string_lower c = ".git" ∨ string_lower c = ".ssh")) as Hno.
      { intros (c & Hc & Ho). apply existsb_Forall in E.
        rewrite Forall_forall in E. specialize (E _ Hc). unfold eq_ignore_ascii_case in E.
        apply orb_false_iff in E as [E1%String.eqb_neq E2%String.eqb_neq]. naive_solver. }
      destruct (head _) as [c|]; simpl.
      * rewrite orb_true_iff, String.eqb_eq, starts_with_spec. naive_solver.
      * naive_solver.
  - apply Hcong, clean_path_components.
  - apply Hcong. unfold clean_components.
    assert (replace_char backslash slash (replace_char slash backslash path)
            = replace_char backslash slash path) as ->; [|done].
    induction path as [|c s IH]; simpl; [done|]. f_equal; [|done].
    destruct (Ascii.eqb_spec c slash) as [->|]; [done|]. done.
Qed.
