(* ===== verification/CommandMatch.v ===== *)
(** The shell-command tokenizer of the permission layer:
    core/src/command_match.rs.

    The byte loops of the source, which index into the command, are recursive
    functions on the remaining bytes; [prev] is the byte before them and the
    accumulated [cur] the bytes since the segment start. *)

From Stdlib Require Import Ascii.
From S2P Require Import Prelude.

Inductive quoting := Unquoted | InSingle | InDouble.

Definition push_segment (seg : string) (rest : list string) : list string :=
  if is_empty (trim seg) then rest else trim seg :: rest.

Definition is_gt (c : option Ascii.ascii) : bool :=
  match c with Some c => Ascii.eqb c ">"%char | None => false end.

Definition first_char (s : string) : option Ascii.ascii :=
  match s with String c _ => Some c | EmptyString => None end.

Fixpoint split_go (q : quoting) (prev : option Ascii.ascii) (cur s : string)
  : list string :=
  match s with
  | EmptyString => push_segment cur []
  | String c r =>
      let cur' := snoc cur c in
      match q with
      | InSingle =>
          split_go (if Ascii.eqb c single_quote then Unquoted else InSingle) (Some c) cur' r
      | InDouble =>
          if Ascii.eqb c backslash then
            match r with
            | String d r' => split_go InDouble (Some d) (snoc cur' d) r'
            | EmptyString => split_go InDouble (Some c) cur' r
            end
          else
            split_go (if Ascii.eqb c double_quote then Unquoted else InDouble) (Some c) cur' r
      | Unquoted =>
          if Ascii.eqb c single_quote then split_go InSingle (Some c) cur' r
          else if Ascii.eqb c double_quote then split_go InDouble (Some c) cur' r
          else if Ascii.eqb c backslash then
            match r with
            | String d r' => split_go Unquoted (Some d) (snoc cur' d) r'
            | EmptyString => split_go Unquoted (Some c) cur' r
            end
          else if Ascii.eqb c newline || Ascii.eqb c ";"%char then
            push_segment cur (split_go Unquoted (Some c) "" r)
          else if Ascii.eqb c "&"%char then
            match r with
            | String d r' =>
                if Ascii.eqb d "&"%char then
                  push_segment cur (split_go Unquoted (Some d) "" r')
                else if is_gt prev || Ascii.eqb d ">"%char then
                  split_go Unquoted (Some c) cur' r
                else push_segment cur (split_go Unquoted (Some c) "" r)
            | EmptyString =>
                if is_gt prev then split_go Unquoted (Some c) cur' r
                else push_segment cur (split_go Unquoted (Some c) "" r)
            end
          else if Ascii.eqb c "|"%char then
            match r with
            | String d r' =>
                if Ascii.eqb d "|"%char || Ascii.eqb d "&"%char then
                  push_segment cur (split_go Unquoted (Some d) "" r')
                else push_segment cur (split_go Unquoted (Some c) "" r)
            | EmptyString => push_segment cur (split_go Unquoted (Some c) "" r)
            end
          else split_go Unquoted (Some c) cur' r
      end
  end.

Definition split_operators (command : string) : list string :=
  split_go Unquoted None "" command.

Inductive RedirectOp := Out | Append | FdDup.

#[export] Instance RedirectOp_eq_dec : EqDecision RedirectOp.
Proof. solve_decision. Defined.

Record Redirect := mkRedirect { op : RedirectOp; r_target : string }.

Record ResolvedCommand := mkResolved {
  program : string;
  args : list string;
  redirects : list Redirect;
}.

(** [out.push(byte as char)]: a byte above 127 becomes the two-byte UTF-8
    encoding of the code point of the same number. *)
Definition push_byte (out : string) (c : Ascii.ascii) : string :=
  let n := Ascii.nat_of_ascii c in
  if (n <? 128)%nat then snoc out c
  else snoc (snoc out (chr (192 + n / 64))) (chr (128 + n mod 64)).

Definition is_blank (c : Ascii.ascii) : bool := Ascii.eqb c space || Ascii.eqb c tab.

Definition ends_word (c : Ascii.ascii) : bool :=
  is_blank c || Ascii.eqb c ">"%char || Ascii.eqb c "<"%char.

(** [read_word]: the unquoted word and the bytes after it. *)
Fixpoint read_word_go (q : quoting) (out s : string) : string * string :=
  match s with
  | EmptyString => (out, EmptyString)
  | String c r =>
      match q with
      | InSingle =>
          if Ascii.eqb c single_quote then read_word_go Unquoted out r
          else read_word_go InSingle (push_byte out c) r
      | InDouble =>
          if Ascii.eqb c double_quote then read_word_go Unquoted out r
          else if Ascii.eqb c backslash then
            match r with
            | String d r' => read_word_go InDouble (push_byte out d) r'
            | EmptyString => read_word_go InDouble (push_byte out c) r
            end
          else read_word_go InDouble (push_byte out c) r
      | Unquoted =>
          if ends_word c then (out, s)
          else if Ascii.eqb c single_quote then read_word_go InSingle out r
          else if Ascii.eqb c double_quote then read_word_go InDouble out r
          else if Ascii.eqb c backslash then
            match r with
            | String d r' => read_word_go Unquoted (push_byte out d) r'
            | EmptyString => read_word_go Unquoted out r
            end
          else read_word_go Unquoted (push_byte out c) r
      end
  end.

Definition read_word (s : string) : string * string := read_word_go Unquoted "" s.

Fixpoint skip_while (p : Ascii.ascii → bool) (s : string) : string :=
  match s with
  | String c r => if p c then skip_while p r else s
  | EmptyString => EmptyString
  end.

Definition read_redirect_target (s : string) : string * string :=
  read_word (skip_while is_blank s).

Definition skip_char (c : Ascii.ascii) (s : string) : option string :=
  match s with
  | String d r => if Ascii.eqb d c then Some r else None
  | EmptyString => None
  end.

(** The redirection operator after the optional descriptor and [&]. *)
Definition redirect_op (s : string) : RedirectOp * string :=
  match skip_char ">"%char s with
  | Some s1 =>
      match skip_char ">"%char s1 with
      | Some s2 => (Append, s2)
      | None =>
          match skip_char "&"%char s1 with
          | Some s2 => (FdDup, s2)
          | None => (Out, s1)
          end
      end
  | None => (Out, s)
  end.

Definition parse_redirect (s : string) : option Redirect * string :=
  let s := skip_while is_ascii_digit s in
  let s := default s (skip_char "&"%char s) in
  match skip_char "<"%char s with
  | Some s => (None, snd (read_redirect_target s))
  | None =>
      match redirect_op s with
      | (FdDup, s) => (Some (mkRedirect FdDup ""), snd (read_redirect_target s))
      | (op, s) =>
          let '(target, next) := read_redirect_target s in
          if is_empty target then (None, next) else (Some (mkRedirect op target), next)
      end
  end.

(** Does a redirection start here? *)
Definition starts_redirect (s : string) : bool :=
  match s with
  | String c (String d _) => Ascii.eqb c "&"%char && Ascii.eqb d ">"%char
  | _ => false
  end ||
  match skip_while is_ascii_digit s with
  | String c _ => Ascii.eqb c ">"%char || Ascii.eqb c "<"%char
  | EmptyString => false
  end.

Definition drop_one (s : string) : string :=
  match s with String _ r => r | EmptyString => EmptyString end.

Fixpoint tokenize_fuel (fuel : nat) (s : string) : list string * list Redirect :=
  match fuel with
  | O => ([], [])
  | S fuel' =>
      let s := skip_while is_blank s in
      if is_empty s then ([], [])
      else if starts_redirect s then
        let '(redir, next) := parse_redirect s in
        let '(words, redirects) := tokenize_fuel fuel' next in
        (words, match redir with Some r => r :: redirects | None => redirects end)
      else
        let '(word, next) := read_word s in
        let next :=
          if (String.length next <? String.length s)%nat then next else drop_one s in
        let '(words, redirects) := tokenize_fuel fuel' next in
        (if is_empty word then words else word :: words, redirects)
  end.

(** Each iteration consumes a byte, so the length is enough fuel
    ([tokenize_fuel_enough]). *)
Definition tokenize (segment : string) : list string * list Redirect :=
  tokenize_fuel (S (String.length segment)) segment.

Definition SHELLS : list string := ["bash"; "sh"; "zsh"; "dash"].

Definition contains_str (l : list string) (s : string) : bool := existsb (String.eqb s) l.

Fixpoint c_payload (args : list string) : option string :=
  match args with
  | [] => None
  | a :: it =>
      if String.eqb a "-c" then head it
      else match strip_prefix "-c" a with
           | Some rest => if is_empty rest then c_payload it else Some rest
           | None => c_payload it
           end
  end.

Definition shell_c_payload (cmd : ResolvedCommand) : option string :=
  if contains_str SHELLS (program cmd) then c_payload (args cmd) else None.

Definition WRAPPERS : list string :=
  ["timeout"; "nice"; "nohup"; "stdbuf"; "env"; "command"; "sudo"; "doas"].

(** Options of a wrapper that take a separate argument. *)
Definition arg_opts (wrapper : string) : list string :=
  if contains_str ["sudo"; "doas"] wrapper then
    ["-u"; "-g"; "-C"; "-h"; "-p"; "-r"; "-t"; "-U"; "-R"; "-c"]
  else if String.eqb wrapper "timeout" then ["-s"; "-k"]
  else if String.eqb wrapper "nice" then ["-n"]
  else if String.eqb wrapper "stdbuf" then ["-i"; "-o"; "-e"]
  else if String.eqb wrapper "env" then ["-u"; "-C"; "-S"]
  else [].

Definition is_numeric (w : string) : bool :=
  negb (is_empty w) && forall_chars (λ c, is_ascii_digit c || Ascii.eqb c "."%char) w.

Definition is_name_start (c : Ascii.ascii) : bool :=
  is_ascii_lower c || is_ascii_upper c || Ascii.eqb c "_"%char.

Fixpoint split_at_char (sep : Ascii.ascii) (s : string) : option string :=
  match s with
  | EmptyString => None
  | String c r =>
      if Ascii.eqb c sep then Some EmptyString else String c <$> split_at_char sep r
  end.

Definition is_env_assignment (tok : string) : bool :=
  match split_at_char "="%char tok with
  | None => false
  | Some name =>
      match name with
      | EmptyString => false
      | String c _ =>
          is_name_start c
          && forall_chars (λ c, is_ascii_alphanumeric c || Ascii.eqb c "_"%char) name
      end
  end.

(** The wrapper-stripping loop of [resolve_command].  [opts] is the option
    table of the wrapper just removed, [None] outside a wrapper's options. *)
Fixpoint strip_wrappers (opts : option (list string)) (words : list string)
  : option (string * list string) :=
  match words with
  | [] => None
  | w :: ws =>
      let outer :=
        if is_env_assignment w then strip_wrappers None ws
        else if contains_str WRAPPERS w then strip_wrappers (Some (arg_opts w)) ws
        else Some (w, ws) in
      match opts with
      | None => outer
      | Some os =>
          if starts_with w "-" then
            if contains_str os w then
              match ws with
              | v :: ws' =>
                  if starts_with v "-" then strip_wrappers opts ws
                  else strip_wrappers opts ws'
              | [] => None
              end
            else strip_wrappers opts ws
          else if is_numeric w then strip_wrappers opts ws
          else outer
      end
  end.

Definition resolve_command (segment : string) : option ResolvedCommand :=
  let '(words, redirects) := tokenize segment in
  match strip_wrappers None words with
  | Some (program, args) => Some (mkResolved program args redirects)
  | None => None
  end.

Definition MAX_REENTRY_DEPTH : nat := 3.

(** [depth] counts the re-entries still allowed: [MAX_REENTRY_DEPTH - depth]
    in the source. *)
Fixpoint resolve_into (depth : nat) (command : string) : list ResolvedCommand :=
  flat_map (λ seg,
    match resolve_command seg with
    | None => []
    | Some cmd =>
        cmd ::
        match depth with
        | O => []
        | S depth' =>
            match shell_c_payload cmd with
            | Some inner => resolve_into depth' inner
            | None => []
            end
        end
    end) (split_operators command).

Definition resolve_all (command : string) : list ResolvedCommand :=
  resolve_into MAX_REENTRY_DEPTH command.

Example resolve_ex1 :
  program <$> resolve_all "cd /tmp && sudo -u root rm -rf / ; bash -c 'ls | wc' > out 2>&1"
  = ["cd"; "rm"; "bash"; "ls"; "wc"].
Proof. vm_compute. reflexivity. Qed.

Example resolve_ex2 :
  redirects <$> resolve_all "ls > out 2>&1 &>> log" = [[mkRedirect Out "out"; mkRedirect FdDup "";
    mkRedirect Append "log"]].
Proof. vm_compute. reflexivity. Qed.

(** ** Correctness *)

(** *** Termination of the tokenizer *)

Abbreviation slen := String.length.

Lemma skip_while_length p s : (slen (skip_while p s) ≤ slen s)%nat.
Proof. induction s as [|c s IH]; simpl; [lia|]. destruct (p c); simpl; lia. Qed.

Lemma read_word_go_length q out s : (slen (snd (read_word_go q out s)) ≤ slen s)%nat.
Proof.
  remember (slen s) as n eqn:Hn.
  assert (slen s ≤ n)%nat as Hle by lia. clear Hn.
  revert q out s Hle. induction n as [|n IH]; intros q out [|c r] Hle; simpl in *;
    try lia.
  repeat first [case_match; simpl in * | progress simplify_eq/=]; try lia;
    match goal with
    | |- context [read_word_go ?q ?o ?s] => specialize (IH q o s ltac:(simpl in *; lia)); lia
    end.
Qed.

Lemma read_word_length s : (slen (snd (read_word s)) ≤ slen s)%nat.
Proof. apply read_word_go_length. Qed.

Lemma target_length s : (slen (snd (read_redirect_target s)) ≤ slen s)%nat.
Proof.
  unfold read_redirect_target. etrans; [apply read_word_length|apply skip_while_length].
Qed.

Lemma skip_char_length c s s' : skip_char c s = Some s' → slen s = S (slen s').
Proof. destruct s as [|d s]; simpl; [done|]. destruct (Ascii.eqb d c); naive_solver. Qed.

Lemma redirect_op_length s o s' : redirect_op s = (o, s') → (slen s' ≤ slen s)%nat.
Proof.
  unfold redirect_op. intros H.
  repeat match goal with
  | H : context [match skip_char ?c ?s with _ => _ end] |- _ =>
      let E := fresh "E" in destruct (skip_char c s) eqn:E;
      [apply skip_char_length in E|]
  end; simplify_eq; lia.
Qed.

(** A redirection consumes at least its operator. *)
Lemma parse_redirect_length s :
  starts_redirect s = true → (slen (snd (parse_redirect s)) < slen s)%nat.
Proof.
  unfold starts_redirect, parse_redirect. intros Hs.
  pose proof (skip_while_length is_ascii_digit s) as Hd.
  set (t := skip_while is_ascii_digit s) in *.
  assert ((∃ u, skip_char "&"%char t = Some u) ∨
          skip_char "&"%char t = None ∧
            ∃ c r, t = String c r ∧ (c = ">"%char ∨ c = "<"%char)) as [[u Hu]|(Hu & c & r & Ht & Hc)].
  { apply orb_true_iff in Hs as [Hs|Hs].
    - left. destruct s as [|c [|d r]]; try done.
      apply andb_true_iff in Hs as [->%Ascii.eqb_eq _].
      subst t. by exists (String d r).
    - destruct t as [|c r]; [done|]. right.
      apply orb_true_iff in Hs as [->%Ascii.eqb_eq| ->%Ascii.eqb_eq]; naive_solver. }
  - rewrite Hu. simpl. apply skip_char_length in Hu.
    destruct (skip_char "<"%char u) as [v|] eqn:Hv; simpl.
    + apply skip_char_length in Hv. pose proof (target_length v). lia.
    + destruct (redirect_op u) as [o v] eqn:Ho. apply redirect_op_length in Ho.
      pose proof (target_length v) as Hl.
      destruct (read_redirect_target v) as [tg nx] eqn:Er; simpl in Hl.
      destruct o; simpl; try destruct (is_empty tg); simpl; try rewrite Er; simpl; lia.
  - rewrite Hu. simpl. rewrite Ht in *. simpl in Hd.
    destruct Hc as [-> | ->]; simpl.
    + unfold redirect_op. simpl.
      destruct (skip_char ">"%char r) as [v|] eqn:Hv; simpl.
      * apply skip_char_length in Hv. pose proof (target_length v) as Hl.
        destruct (read_redirect_target v) as [tg nx]; simpl in *.
        destruct (is_empty tg); simpl; lia.
      * destruct (skip_char "&"%char r) as [v|] eqn:Hw; simpl.
        -- apply skip_char_length in Hw. pose proof (target_length v). lia.
        -- pose proof (target_length r) as Hl.
           destruct (read_redirect_target r) as [tg nx]; simpl in *.
           destruct (is_empty tg); simpl; lia.
    + pose proof (target_length r). lia.
Qed.

Lemma drop_one_length s : is_empty s = false → (slen (drop_one s) < slen s)%nat.
Proof. destruct s; simpl; [done|lia]. Qed.

Lemma tokenize_fuel_enough n m s :
  (slen s < n)%nat → (slen s < m)%nat → tokenize_fuel n s = tokenize_fuel m s.
Proof.
  revert m s. induction n as [|n IH]; intros [|m] s Hn Hm; try lia. simpl.
  pose proof (skip_while_length is_blank s) as Hb.
  set (t := skip_while is_blank s) in *.
  destruct (is_empty t) eqn:He; [done|].
  destruct (starts_redirect t) eqn:Hs.
  - pose proof (parse_redirect_length t Hs). destruct (parse_redirect t) as [rd nx].
    simpl in *. by rewrite (IH m) by lia.
  - destruct (read_word t) as [w nx].
    assert (slen (if (slen nx <? slen t)%nat then nx else drop_one t) < slen t)%nat.
    { destruct (Nat.ltb_spec (slen nx) (slen t)); [done|by apply drop_one_length]. }
    by rewrite (IH m) by lia.
Qed.

(** *** Quoting *)

Definition is_ascii (c : Ascii.ascii) : bool := (Ascii.nat_of_ascii c <? 128)%nat.

(** A byte that is neither a quote nor part of a control operator. *)
Definition plain (c : Ascii.ascii) : bool :=
  negb (Ascii.eqb c single_quote || Ascii.eqb c double_quote || Ascii.eqb c backslash
        || (Ascii.eqb c newline || Ascii.eqb c ";"%char) || Ascii.eqb c "&"%char
        || Ascii.eqb c "|"%char).

(** A byte that is an ordinary part of a word outside quotes. *)
Definition bare (c : Ascii.ascii) : bool := is_ascii c && negb (ends_word c) && plain c.

(** The shell spellings of a word: bare characters, backslash escapes, and
    single- and double-quoted pieces in any mixture. *)
Inductive spells : string → string → Prop :=
| spells_nil : spells "" ""
| spells_bare c w s : bare c = true → spells w s → spells (String c w) (String c s)
| spells_escape c w s :
    is_ascii c = true → spells w s → spells (String c w) (String backslash (String c s))
| spells_single v w s :
    forall_chars is_ascii v = true → contains_char v single_quote = false →
    spells w s →
    spells (v +:+ w) (String single_quote (v +:+ String single_quote s))
| spells_double v w s :
    forall_chars is_ascii v = true → contains_char v double_quote = false →
    contains_char v backslash = false → spells w s →
    spells (v +:+ w) (String double_quote (v +:+ String double_quote s)).

Lemma push_byte_ascii out c : is_ascii c = true → push_byte out c = snoc out c.
Proof. unfold push_byte, is_ascii. by intros ->. Qed.

Lemma read_single out v t :
  forall_chars is_ascii v = true → contains_char v single_quote = false →
  read_word_go InSingle out (v +:+ String single_quote t)
  = read_word_go Unquoted (out +:+ v) t.
Proof.
  revert out. induction v as [|c v IH]; intros out Ha Hq; simpl.
  - by rewrite string_app_nil_r.
  - simpl in Ha, Hq. apply andb_true_iff in Ha as [Hc Ha].
    apply orb_false_iff in Hq as [Hcq Hq]. rewrite Hcq, push_byte_ascii by done.
    by rewrite IH, snoc_app.
Qed.

Lemma read_double out v t :
  forall_chars is_ascii v = true → contains_char v double_quote = false →
  contains_char v backslash = false →
  read_word_go InDouble out (v +:+ String double_quote t)
  = read_word_go Unquoted (out +:+ v) t.
Proof.
  revert out. induction v as [|c v IH]; intros out Ha Hq Hb; simpl.
  - by rewrite string_app_nil_r.
  - simpl in Ha, Hq, Hb. apply andb_true_iff in Ha as [Hc Ha].
    apply orb_false_iff in Hq as [Hcq Hq]. apply orb_false_iff in Hb as [Hcb Hb].
    rewrite Hcq, Hcb, push_byte_ascii by done. by rewrite IH, snoc_app.
Qed.

Lemma bare_inv c :
  bare c = true →
  is_ascii c = true ∧ ends_word c = false ∧ Ascii.eqb c single_quote = false
  ∧ Ascii.eqb c double_quote = false ∧ Ascii.eqb c backslash = false.
Proof.
  unfold bare, plain. rewrite !andb_true_iff, !negb_true_iff, !orb_false_iff. tauto.
Qed.

(** A word is over at the end of the input, at a blank or at [<] and [>]. *)
Definition word_over (t : string) : Prop :=
  match t with String c _ => ends_word c = true | EmptyString => True end.

Lemma read_spelled w s out t :
  spells w s → word_over t → read_word_go Unquoted out (s +:+ t) = (out +:+ w, t).
Proof.
  intros Hs Ht. revert out. induction Hs as [|c w s Hc Hs IH|c w s Hc Hs IH|v w s Ha Hq Hs IH|v w s Ha Hq Hb Hs IH];
    intros out; simpl.
  - rewrite string_app_nil_r. destruct t as [|c t]; simpl in *; [done|]. by rewrite Ht.
  - apply bare_inv in Hc as (Ha & He & H1 & H2 & H3).
    rewrite He, H1, H2, H3, push_byte_ascii by done. by rewrite IH, snoc_app.
  - rewrite push_byte_ascii by done. by rewrite IH, snoc_app.
  - rewrite string_app_assoc. simpl. rewrite read_single by done.
    by rewrite IH, string_app_assoc.
  - rewrite string_app_assoc. simpl. rewrite read_double by done.
    by rewrite IH, string_app_assoc.
Qed.

Lemma bare_head_not_blank w s t :
  spells w s → w ≠ "" → skip_while is_blank (s +:+ t) = s +:+ t.
Proof.
  intros Hs Hw. destruct Hs as [|c w s Hc _|c w s _ _|v w s _ _ _|v w s _ _ _ _];
    [done| |done..].
  apply bare_inv in Hc as (_ & He & _). simpl.
  unfold ends_word in He. apply orb_false_iff in He as [He _].
  apply orb_false_iff in He as [He _]. by rewrite He.
Qed.

(** No redirection starts at a spelled word that is followed by a blank or by
    the end of the input. *)
Definition blank_next (t : string) : Prop :=
  match t with String c _ => is_blank c = true | EmptyString => True end.

Lemma blank_not_redirect t :
  blank_next t →
  match skip_while is_ascii_digit t with
  | String c _ => Ascii.eqb c ">" || Ascii.eqb c "<"
  | EmptyString => false
  end%char = false.
Proof.
  destruct t as [|c t]; simpl; [done|]. unfold is_blank.
  intros [->%Ascii.eqb_eq| ->%Ascii.eqb_eq]%orb_true_iff; done.
Qed.

Lemma ends_word_gt_lt c :
  ends_word c = false → (Ascii.eqb c ">" || Ascii.eqb c "<")%char = false.
Proof.
  unfold ends_word. rewrite !orb_false_iff. tauto.
Qed.

Lemma blank_not_gt c :
  is_blank c = true → Ascii.eqb c ">"%char = false ∧ Ascii.eqb c "&"%char = false.
Proof.
  unfold is_blank. by intros [->%Ascii.eqb_eq| ->%Ascii.eqb_eq]%orb_true_iff.
Qed.

Lemma spelled_not_redirect w s t :
  spells w s → blank_next t → starts_redirect (s +:+ t) = false.
Proof.
  intros Hs Ht. unfold starts_redirect. apply orb_false_iff. split.
  - destruct Hs as [|c w s Hc Hs|c w s _ _|v w s _ _ _|v w s _ _ _ _];
      [|destruct Hs as [|d w s Hd Hs|d w s _ _|v w s _ _ _|v w s _ _ _ _]|..];
      simpl; try done; try (by case_match); try apply andb_false_r.
    + destruct t as [|c t]; simpl; [done|]. apply blank_not_gt in Ht as [_ ->].
      by case_match.
    + destruct t as [|d t]; simpl; [done|]. apply blank_not_gt in Ht as [-> _].
      apply andb_false_r.
    + apply bare_inv in Hd as (_ & He & _). apply ends_word_gt_lt in He.
      apply orb_false_iff in He as [-> _]. apply andb_false_r.
  - induction Hs as [|c w s Hc Hs IH|c w s _ _ _|v w s _ _ _ _|v w s _ _ _ _ _];
      simpl; try done; [by apply blank_not_redirect|].
    destruct (is_ascii_digit c); [done|].
    apply bare_inv in Hc as (_ & He & _). by apply ends_word_gt_lt.
Qed.

Lemma spelled_length w s : spells w s → (slen w ≤ slen s)%nat.
Proof.
  induction 1; simpl; rewrite ?string_length_app; simpl; rewrite ?string_length_app;
    simpl; lia.
Qed.

(** Words with a spelling each, written with one blank in between. *)
Inductive spelled_line : list string → string → Prop :=
| line_nil : spelled_line [] ""
| line_one w s : w ≠ "" → spells w s → spelled_line [w] s
| line_cons w s ws t :
    w ≠ "" → spells w s → spelled_line ws t → ws ≠ [] →
    spelled_line (w :: ws) (s +:+ String space t).

(** One iteration of the tokenizer on a spelled word. *)
Lemma tokenize_word n w s t :
  w ≠ "" → spells w s → blank_next t →
  tokenize_fuel (S n) (s +:+ t)
  = let '(ws, rs) := tokenize_fuel n t in (w :: ws, rs).
Proof.
  intros Hw Hs Ht. pose proof (spelled_length _ _ Hs) as Hsl.
  assert (word_over t) as Ho.
  { destruct t as [|c t]; [done|]. simpl in *. unfold ends_word. by rewrite Ht. }
  assert (0 < slen w)%nat by (destruct w; simpl; [done|lia]).
  simpl. rewrite (bare_head_not_blank w), (spelled_not_redirect w) by done.
  destruct (is_empty (s +:+ t)) eqn:E1.
  { apply is_empty_true in E1. apply (f_equal slen) in E1.
    rewrite string_length_app in E1. simpl in E1. lia. }
  unfold read_word. rewrite (read_spelled w) by done. simpl.
  destruct (is_empty w) eqn:E2; [by apply is_empty_true in E2|].
  rewrite string_length_app. destruct (Nat.ltb_spec (slen t) (slen s + slen t)); [done|lia].
Qed.

Lemma tokenize_blank n t :
  tokenize_fuel (S n) (String space t) = tokenize_fuel (S n) t.
Proof. done. Qed.

Lemma tokenize_spelled_fuel ws s n :
  spelled_line ws s → (slen s < n)%nat → tokenize_fuel n s = (ws, []).
Proof.
  intros Hl. revert n. induction Hl as [|w s Hw Hs|w s ws t Hw Hs Hl IH Hne];
    intros [|n] Hn; try lia; [done| |].
  - rewrite <- (string_app_nil_r s), (tokenize_word n w) by done. by destruct n.
  - rewrite (tokenize_word n w) by done. rewrite string_length_app in Hn. simpl in Hn.
    apply spelled_length in Hs. destruct n as [|n]; [destruct w; simpl in *; [done|lia]|].
    rewrite tokenize_blank, IH; [done|]. destruct w; simpl in *; [done|lia].
Qed.

Lemma tokenize_spelled ws s : spelled_line ws s → tokenize s = (ws, []).
Proof. intros. unfold tokenize. eapply tokenize_spelled_fuel; [done|lia]. Qed.

(** *** Control operators *)

Inductive operator := OpAnd | OpOr | OpSemi | OpPipe | OpPipeErr | OpBackground | OpNewline.

Definition op_text (o : operator) : string :=
  match o with
  | OpAnd => "&&" | OpOr => "||" | OpSemi => ";" | OpPipe => "|" | OpPipeErr => "|&"
  | OpBackground => "&" | OpNewline => String newline ""
  end.

(** A compound command, its operators set off by blanks. *)
Fixpoint render (seg : string) (rest : list (operator * string)) : string :=
  match rest with
  | [] => seg
  | (o, seg') :: rest' =>
      seg +:+ String space (op_text o +:+ String space (render seg' rest'))
  end.

(** Text the operator scanner passes over: plain bytes, escapes and quoted
    pieces. *)
Inductive inert : string → Prop :=
| inert_nil : inert ""
| inert_plain c s : plain c = true → inert s → inert (String c s)
| inert_escape c s : inert s → inert (String backslash (String c s))
| inert_single v s :
    contains_char v single_quote = false → inert s →
    inert (String single_quote (v +:+ String single_quote s))
| inert_double v s :
    contains_char v double_quote = false → contains_char v backslash = false → inert s →
    inert (String double_quote (v +:+ String double_quote s)).

Lemma split_single prev cur v t :
  contains_char v single_quote = false →
  split_go InSingle prev cur (v +:+ String single_quote t)
  = split_go Unquoted (Some single_quote) (cur +:+ v +:+ String single_quote "") t.
Proof.
  revert prev cur. induction v as [|c v IH]; intros prev cur; simpl; [done|].
  intros [Hc Hv]%orb_false_iff. by rewrite Hc, IH, snoc_app by done.
Qed.

Lemma split_double prev cur v t :
  contains_char v double_quote = false → contains_char v backslash = false →
  split_go InDouble prev cur (v +:+ String double_quote t)
  = split_go Unquoted (Some double_quote) (cur +:+ v +:+ String double_quote "") t.
Proof.
  revert prev cur. induction v as [|c v IH]; intros prev cur; simpl; [done|].
  intros [Hc Hv]%orb_false_iff [Hb Hw]%orb_false_iff. by rewrite Hc, Hb, IH, snoc_app by done.
Qed.

Lemma plain_split prev cur c t :
  plain c = true →
  split_go Unquoted prev cur (String c t) = split_go Unquoted (Some c) (snoc cur c) t.
Proof.
  unfold plain. rewrite negb_true_iff, !orb_false_iff.
  intros [[[[[Ha Hb] Hc] [Hd He]] Hf] Hg]. simpl. by rewrite Ha, Hb, Hc, Hd, He, Hf, Hg.
Qed.

Lemma split_inert s prev cur t :
  inert s →
  ∃ prev', split_go Unquoted prev cur (s +:+ t) = split_go Unquoted prev' (cur +:+ s) t.
Proof.
  intros Hs. revert prev cur. induction Hs as [|c s Hc _ IH|c s _ IH|v s Hv _ IH|v s Hq Hb _ IH];
    intros prev cur.
  - exists prev. by rewrite string_app_nil_r.
  - simpl (String c s +:+ t). rewrite plain_split by done.
    destruct (IH (Some c) (snoc cur c)) as [p ->]. exists p. by rewrite snoc_app.
  - destruct (IH (Some c) (snoc (snoc cur backslash) c)) as [p Hp]. exists p.
    simpl. rewrite Hp. by rewrite !snoc_app.
  - simpl. rewrite string_app_assoc. simpl. rewrite split_single by done.
    destruct (IH (Some single_quote)
      (snoc cur single_quote +:+ v +:+ String single_quote "")) as [p ->].
    exists p. by rewrite snoc_app, !string_app_assoc; simpl; rewrite string_app_assoc.
  - simpl. rewrite string_app_assoc. simpl. rewrite split_double by done.
    destruct (IH (Some double_quote)
      (snoc cur double_quote +:+ v +:+ String double_quote "")) as [p ->].
    exists p. by rewrite snoc_app, !string_app_assoc; simpl; rewrite string_app_assoc.
Qed.

(** After the blank, an operator ends the segment and the next one starts
    with the blank that follows the operator. *)
Lemma split_at_operator o cur t :
  split_go Unquoted (Some space) cur (op_text o +:+ String space t)
  = push_segment cur (split_go Unquoted (Some space) (String space "") t).
Proof. by destruct o. Qed.

Definition good_segment (s : string) : Prop := inert s ∧ graphic_ends s = true.

Lemma push_good lead seg rest :
  lead = "" ∨ lead = String space "" → graphic_ends seg = true →
  push_segment (lead +:+ seg) rest = seg :: rest
  ∧ push_segment (snoc (lead +:+ seg) space) rest = seg :: rest.
Proof.
  intros Hl Hg. pose proof (graphic_ends_ne _ Hg) as Hne. unfold push_segment, snoc.
  change (String space "") with " " in *.
  destruct Hl as [-> | ->]; simpl; rewrite ?trim_space_l, ?trim_graphic,
    ?trim_graphic_space by done; by rewrite Hne.
Qed.

Lemma split_render_lead lead prev seg rest :
  lead = "" ∨ lead = String space "" →
  good_segment seg → Forall (λ os, good_segment (snd os)) rest →
  split_go Unquoted prev lead (render seg rest) = seg :: (snd <$> rest).
Proof.
  intros Hl Hs Hr. revert lead prev seg Hl Hs.
  induction Hr as [|[o seg'] rest Hg _ IH]; intros lead prev seg Hl [Hi Hge]; simpl.
  - destruct (split_inert seg prev lead "" Hi) as [p Hp].
    rewrite string_app_nil_r in Hp. rewrite Hp. by apply push_good.
  - destruct (split_inert seg prev lead
      (String space (op_text o +:+ String space (render seg' rest))) Hi) as [p ->].
    rewrite plain_split, split_at_operator, IH by (done || by right).
    by apply push_good.
Qed.

Lemma split_render seg rest :
  good_segment seg → Forall (λ os, good_segment (snd os)) rest →
  split_operators (render seg rest) = seg :: (snd <$> rest).
Proof. intros. apply split_render_lead; auto. Qed.

Lemma inert_app s t : inert s → inert t → inert (s +:+ t).
Proof.
  induction 1; intros; simpl; rewrite ?string_app_assoc; simpl; [done| | | |].
  all: constructor; solve [auto].
Qed.

Lemma spells_inert w s : spells w s → inert s.
Proof.
  induction 1 as [|c w s Hc _ IH| | |]; try (by constructor).
  constructor; [|done]. unfold bare in Hc. by apply andb_true_iff in Hc as [_ ?].
Qed.

Lemma line_inert ws s : spelled_line ws s → inert s.
Proof.
  induction 1; [constructor|by eapply spells_inert|].
  apply inert_app; [by eapply spells_inert|]. by constructor.
Qed.

(** *** Resolution depends on the words only *)

(** What a simple command with the given words resolves to. *)
Definition resolve_words (depth : nat) (words : list string) : list ResolvedCommand :=
  match strip_wrappers None words with
  | None => []
  | Some (program, args) =>
      let cmd := mkResolved program args [] in
      cmd ::
      match depth with
      | O => []
      | S depth' =>
          match shell_c_payload cmd with
          | Some inner => resolve_into depth' inner
          | None => []
          end
      end
  end.

(** A simple command: its words and a spelling of them. *)
Definition simple (ws : list string) (s : string) : Prop :=
  spelled_line ws s ∧ graphic_ends s = true.

Lemma resolve_into_simple depth ws s seg rest :
  Forall2 simple (ws :: seg) (s :: (snd <$> rest)) →
  resolve_into depth (render s rest) = flat_map (resolve_words depth) (ws :: seg).
Proof.
  intros [[Hl Hg] Hr]%Forall2_cons.
  assert (good_segment s) as Hs by (split; [by eapply line_inert|done]).
  assert (Forall (λ os, good_segment (snd os)) rest) as Hgs.
  { clear -Hr. remember (snd <$> rest) as l eqn:El. revert rest El.
    induction Hr as [|ws' s' seg l [Hl Hg] _ IH]; intros [|[o x] rest] El; simplify_eq/=;
      constructor; eauto. split; [by eapply line_inert|done]. }
  assert (∀ ss wss, Forall2 simple wss ss →
    flat_map (λ seg, match resolve_command seg with
      | None => []
      | Some cmd => cmd :: match depth with
          | O => []
          | S depth' => match shell_c_payload cmd with
              | Some inner => resolve_into depth' inner | None => [] end end end) ss
    = flat_map (resolve_words depth) wss) as Hmap.
  { induction 1 as [|ws' s' wss ss [Hl' _] _ IH]; [done|]. simpl. rewrite IH. f_equal.
    unfold resolve_command, resolve_words. rewrite (tokenize_spelled ws') by done.
    by destruct (strip_wrappers None ws') as [[p a]|]. }
  pose proof (split_render s rest Hs Hgs) as Hsp.
  specialize (Hmap (s :: (snd <$> rest)) (ws :: seg) ltac:(by apply Forall2_cons)).
  destruct depth; simpl resolve_into; by rewrite Hsp.
Qed.

(** Resolution depends on the words of a command line only.  Whatever mix
    of bare characters, escapes and quotes spells the words, and whatever
    control operators chain the simple commands, the line resolves to the
    commands of its parts, in order, each after wrapper stripping and with its
    [sh -c] payload expanded. *)
Theorem resolve_compound depth ws s wss rest :
  Forall2 simple (ws :: wss) (s :: (snd <$> rest)) →
  resolve_into depth (render s rest) = flat_map (resolve_words depth) (ws :: wss).
Proof. apply resolve_into_simple. Qed.

(** ["cd /tmp && sudo 'r'm -r\f / ; sh -c 'ls'"] *)
Lemma demo_simple :
  Forall2 simple [["cd"; "/tmp"]; ["sudo"; "rm"; "-rf"; "/"]; ["sh"; "-c"; "ls"]]
    ["cd /tmp"; "sudo 'r'm -r\f /"; "sh -c 'ls'"].
Proof.
  repeat constructor.
  - apply (line_cons "cd" "cd" ["/tmp"] "/tmp"); repeat constructor; done.
  - apply (line_cons "sudo" "sudo" _ "'r'm -r\f /"); [done|repeat constructor| |done].
    apply (line_cons "rm" "'r'm" _ "-r\f /"); [done| | |done].
    { apply (spells_single "r" "m" "m"); [done..|]. repeat constructor. }
    apply (line_cons "-rf" "-r\f" _ "/"); [done| | |done].
    + do 2 (apply spells_bare; [done|]). apply spells_escape; [done|constructor].
    + repeat constructor; done.
  - apply (line_cons "sh" "sh" _ "-c 'ls'"); [done|repeat constructor| |done].
    apply (line_cons "-c" "-c" _ "'ls'"); [done|repeat constructor| |done].
    apply line_one; [done|]. apply (spells_single "ls" "" ""); [done..|constructor].
Qed.

Lemma resolve_compound_witness :
  render "cd /tmp" [(OpAnd, "sudo 'r'm -r\f /"); (OpSemi, "sh -c 'ls'")]
    = "cd /tmp && sudo 'r'm -r\f / ; sh -c 'ls'" ∧
  resolve_all "cd /tmp && sudo 'r'm -r\f / ; sh -c 'ls'"
  = [mkResolved "cd" ["/tmp"] []; mkResolved "rm" ["-rf"; "/"] [];
     mkResolved "sh" ["-c"; "ls"] []; mkResolved "ls" [] []].
Proof.
  split; [reflexivity|].
  exact (resolve_compound MAX_REENTRY_DEPTH _ _ _
    [(OpAnd, "sudo 'r'm -r\f /"); (OpSemi, "sh -c 'ls'")] demo_simple).
Defined.

(** The tokenizer terminates on every input: each iteration consumes a
    byte, so the fuel [tokenize] passes gives the result of any larger fuel,
    and the scanners it calls never return more input than they were given. *)
Theorem tokenize_total s n :
  (String.length s < n)%nat → tokenize_fuel n s = tokenize s.
Proof. intros. unfold tokenize. apply tokenize_fuel_enough; lia. Qed.

Lemma tokenize_total_witness :
  (6 < 100)%nat ∧ tokenize_fuel 100 "a '>' " = tokenize "a '>' ".
Proof. split; [lia|]. apply (tokenize_total "a '>' " 100). simpl. lia. Defined.
