(* ===== verification/Permission.v ===== *)
(** The permission layer: rules and guards (core/src/permission.rs) and the
    authorization pipeline [RunContext::authorize_tool] (core/src/context.rs).

    The application's policy and approval handler are asynchronous trait
    objects; they are functions that thread a world [W], so that the model
    tracks when they are consulted. *)

From Stdlib Require Import Ascii.
From S2P Require Import Prelude Json PathMatch CommandMatch.

Inductive PermissionMode := ModeDefault | AcceptEdits | Plan | Bypass | DontAsk.

#[export] Instance PermissionMode_eq_dec : EqDecision PermissionMode.
Proof. solve_decision. Defined.

Inductive ToolEffect := ReadOnly | Write | SideEffect.

#[export] Instance ToolEffect_eq_dec : EqDecision ToolEffect.
Proof. solve_decision. Defined.

Inductive ApprovalOutcome := ApprovalAllow | ApprovalDeny (reason : string).

Inductive GuardAction := GuardDeny (reason : string) | GuardAsk (prompt : string).

Inductive GuardMatcher :=
| RmRecursiveRootOrHome
| ProtectedPathWrite
| ProtectedDotPathWrite.

Record GuardRule := mkGuardRule { g_matcher : GuardMatcher; g_action : GuardAction }.

Definition PROTECTED_PREFIXES : list string :=
  ["/etc"; "/usr"; "/bin"; "/sbin"; "/sys"; "/boot"; "/dev"].

Definition DEVICE_ALLOWLIST : list string :=
  ["/dev/null"; "/dev/zero"; "/dev/full"; "/dev/stdout"; "/dev/stderr"; "/dev/tty";
   "/dev/random"; "/dev/urandom"].

Definition is_protected_path (path : string) : bool :=
  if contains_str DEVICE_ALLOWLIST path then false
  else if String.eqb path "/" then true
  else existsb (λ p, String.eqb path p || starts_with path (p +:+ "/")) PROTECTED_PREFIXES.

Definition is_root_or_home (t : string) : bool :=
  contains_str ["/"; "/*"; "~"; "~/"; "${HOME}"; "$HOME"] t.

(** The flags and targets one argument adds. *)
Definition rm_step (acc : bool * bool * list string) (a : string)
  : bool * bool * list string :=
  let '(recursive, force, targets) := acc in
  if starts_with a "--" then
    if String.eqb a "--recursive" then (true, force, targets)
    else if String.eqb a "--force" then (recursive, true, targets)
    else acc
  else
    match strip_prefix "-" a with
    | Some flags =>
        (recursive || contains_char flags "r"%char || contains_char flags "R"%char,
         force || contains_char flags "f"%char, targets)
    | None => (recursive, force, targets ++ [a])
    end.

Definition is_rm_rf_root_or_home (cmd : ResolvedCommand) : bool :=
  if negb (String.eqb (program cmd) "rm") then false
  else
    let '(recursive, force, targets) :=
      fold_left rm_step (args cmd) (false, false, []) in
    recursive && force && existsb is_root_or_home targets.

(** The write targets of one sub-command that a path test [p] fires on:
    output redirections, [tee] arguments and the first [of=] of [dd]. *)
Definition command_writes (p : string → bool) (c : ResolvedCommand) : bool :=
  existsb (λ r, bool_decide (op r = Out ∨ op r = Append) && p (r_target r)) (redirects c)
  || (String.eqb (program c) "tee" && existsb p (args c))
  || (String.eqb (program c) "dd" &&
      match find_map (strip_prefix "of=") (args c) with
      | Some dst => p dst
      | None => false
      end).

Section Permission.
Context `{J : SerdeJson} `{G : Globset}.

Inductive PermissionDecision :=
| Allow
| Deny (reason : string)
| AskUser (prompt : string)
| Replace (args : Value).

Definition str_arg (args : Value) (key : string) : option string :=
  get args key ≫= as_str.

Definition bash_command_str (tool : string) (args : Value) : option string :=
  if negb (String.eqb tool "Bash") then None else str_arg args "command".

(** The body shared by the two protected-write guards. *)
Definition protected_write (p : string → bool) (tool : string) (args : Value) : bool :=
  match bash_command_str tool args with
  | Some cmd => existsb (command_writes p) (resolve_all cmd)
  | None => false
  end.

Definition is_edit_tool (tool : string) : bool :=
  String.eqb tool "Write" || String.eqb tool "Edit".

Definition protected_path_write (tool : string) (args : Value) : bool :=
  if is_edit_tool tool then
    match str_arg args "path" with
    | Some p => is_protected_path p
    | None => protected_write is_protected_path tool args
    end
  else protected_write is_protected_path tool args.

Definition protected_dotpath_write (tool : string) (args : Value) : bool :=
  if is_edit_tool tool then
    match str_arg args "path" with
    | Some p =>
        if is_protected_dotpath p then true
        else protected_write is_protected_dotpath tool args
    | None => protected_write is_protected_dotpath tool args
    end
  else protected_write is_protected_dotpath tool args.

Definition GuardRule_matches (g : GuardRule) (tool : string) (args : Value) : bool :=
  match g_matcher g with
  | RmRecursiveRootOrHome =>
      match bash_command_str tool args with
      | Some cmd => existsb is_rm_rf_root_or_home (resolve_all cmd)
      | None => false
      end
  | ProtectedPathWrite => protected_path_write tool args
  | ProtectedDotPathWrite => protected_dotpath_write tool args
  end.

Definition destructive_defaults : list GuardRule :=
  [mkGuardRule RmRecursiveRootOrHome
     (GuardAsk "destructive command: recursive force-remove of / or ~");
   mkGuardRule ProtectedPathWrite (GuardAsk "write to a protected system path");
   mkGuardRule ProtectedDotPathWrite
     (GuardAsk "write to a protected VCS/secret path (.git, .ssh, .env)")].

Inductive Matcher :=
| MTool (name : string)
| MBashProgram (program : string)
| MReadPath (glob : PathGlob)
| MEditPath (glob : PathGlob).

Record DenyRule := mkDenyRule { d_matcher : Matcher }.
Record AllowRule := mkAllowRule { a_matcher : Matcher }.

Definition DenyRule_tool (name : string) := mkDenyRule (MTool name).
Definition DenyRule_bash_command (program : string) := mkDenyRule (MBashProgram program).
Definition DenyRule_read (pattern : string) := mkDenyRule (MReadPath (PathGlob_new pattern)).
Definition DenyRule_edit (pattern : string) := mkDenyRule (MEditPath (PathGlob_new pattern)).
Definition AllowRule_tool (name : string) := mkAllowRule (MTool name).
Definition AllowRule_bash_command (program : string) := mkAllowRule (MBashProgram program).
Definition AllowRule_read (pattern : string) := mkAllowRule (MReadPath (PathGlob_new pattern)).
Definition AllowRule_edit (pattern : string) := mkAllowRule (MEditPath (PathGlob_new pattern)).

Inductive PathKind := KindRead | KindEdit.

Definition path_arg_matches (tool : string) (args : Value) (kind : PathKind)
    (glob : PathGlob) : bool :=
  let applies :=
    match kind with
    | KindRead => String.eqb tool "Read"
    | KindEdit => String.eqb tool "Edit" || String.eqb tool "Write"
    end in
  if negb applies then false
  else match str_arg args "path" with
       | Some p => matches_path glob p
       | None => false
       end.

(** A deny rule fires when any sub-command runs the program. *)
Definition DenyRule_matches (r : DenyRule) (tool : string) (args : Value) : bool :=
  match d_matcher r with
  | MTool name => String.eqb name tool
  | MBashProgram prog =>
      match bash_command_str tool args with
      | Some command => existsb (λ c, String.eqb (program c) prog) (resolve_all command)
      | None => false
      end
  | MReadPath glob => path_arg_matches tool args KindRead glob
  | MEditPath glob => path_arg_matches tool args KindEdit glob
  end.

(** An allow rule fires only when every sub-command runs the program. *)
Definition AllowRule_matches (r : AllowRule) (tool : string) (args : Value) : bool :=
  match a_matcher r with
  | MTool name => String.eqb name tool
  | MBashProgram prog =>
      match bash_command_str tool args with
      | Some command =>
          let subs := resolve_all command in
          negb (bool_decide (length subs = 0%nat))
          && forallb (λ c, String.eqb (program c) prog) subs
      | None => false
      end
  | MReadPath glob => path_arg_matches tool args KindRead glob
  | MEditPath glob => path_arg_matches tool args KindEdit glob
  end.

(** *** The authorization pipeline *)

Context {W : Type}.

Record Permissions := mkPermissions {
  p_mode : PermissionMode;
  p_policy : option (string → Value → W → PermissionDecision * W);
  p_deny_rules : list DenyRule;
  p_allow_rules : list AllowRule;
  p_approval_handler : option (string → string → Value → W → ApprovalOutcome * W);
  p_guard_rules : list GuardRule;
  p_default_guards : bool;
}.

Section Authorize.
Variables (p : Permissions) (tool : string) (effect : ToolEffect) (args : Value).

Definition denied_by_rule : bool :=
  existsb (λ r, DenyRule_matches r tool args) (p_deny_rules p).

Definition allowed_by_rule : bool :=
  existsb (λ r, AllowRule_matches r tool args) (p_allow_rules p).

(** The built-in guards, then the user's. *)
Definition all_guards : list GuardRule :=
  (if p_default_guards p then destructive_defaults else []) ++ p_guard_rules p.

(** Step 2: [Some d] is an early return. *)
Fixpoint run_guards (guards : list GuardRule) (w : W)
  : option PermissionDecision * W :=
  match guards with
  | [] => (None, w)
  | g :: gs =>
      if GuardRule_matches g tool args then
        match g_action g with
        | GuardDeny reason => (Some (Deny reason), w)
        | GuardAsk prompt =>
            match p_approval_handler p with
            | None =>
                (Some (Deny ("destructive command requires approval: " +:+ prompt)), w)
            | Some decide =>
                match decide tool prompt args w with
                | (ApprovalAllow, w') => run_guards gs w'
                | (ApprovalDeny reason, w') => (Some (Deny reason), w')
                end
            end
        end
      else run_guards gs w
  end.

(** Step 4: the decision the mode takes alone. *)
Definition mode_decision : option PermissionDecision :=
  match p_mode p with
  | Bypass => Some Allow
  | Plan =>
      if bool_decide (effect = ReadOnly) then None
      else Some (Deny ("Plan mode forbids the side-effecting tool `" +:+ tool +:+ "`"))
  | AcceptEdits => if bool_decide (effect = Write) then Some Allow else None
  | DontAsk => Some (Deny ("DontAsk mode: no allow rule matched `" +:+ tool +:+ "`"))
  | ModeDefault => None
  end.

(** Steps 5 and 6. *)
Definition ask_policy (w : W) : PermissionDecision * W :=
  match p_policy p with
  | None => (Allow, w)
  | Some check =>
      match check tool args w with
      | (AskUser prompt, w') =>
          match p_approval_handler p with
          | None => (Deny "no approval handler installed", w')
          | Some decide =>
              match decide tool prompt args w' with
              | (ApprovalAllow, w'') => (Allow, w'')
              | (ApprovalDeny reason, w'') => (Deny reason, w'')
              end
          end
      | other => other
      end
  end.

Definition authorize_tool (w : W) : PermissionDecision * W :=
  if denied_by_rule then (Deny ("denied by deny rule: " +:+ tool), w)
  else
    match run_guards all_guards w with
    | (Some d, w') => (d, w')
    | (None, w') =>
        if allowed_by_rule then (Allow, w')
        else match mode_decision with
             | Some d => (d, w')
             | None => ask_policy w'
             end
    end.
End Authorize.
End Permission.

Arguments Permissions {J G} W.
Arguments mkPermissions {J G W}.

(** ** Correctness *)

Section Theorems.
Context `{J : SerdeJson} `{G : Globset} {W : Type}.
Variables (p : Permissions W) (tool : string) (effect : ToolEffect) (args : Value).

(** The guard loop returns early with a denial or not at all; falling through
    means that every guard that matched asked and was approved. *)
Lemma run_guards_deny gs w d w' :
  run_guards p tool args gs w = (Some d, w') → ∃ reason, d = Deny reason.
Proof.
  revert w. induction gs as [|g gs IH]; intros w; simpl; [done|].
  repeat case_match; naive_solver.
Qed.

Lemma run_guards_pass gs w w' :
  run_guards p tool args gs w = (None, w') →
  Forall (λ g, GuardRule_matches g tool args = true →
    ∃ prompt decide, g_action g = GuardAsk prompt ∧ p_approval_handler p = Some decide
      ∧ ∃ u u', decide tool prompt args u = (ApprovalAllow, u')) gs.
Proof.
  revert w. induction gs as [|g gs IH]; intros w; simpl; [constructor|].
  destruct (GuardRule_matches g tool args) eqn:Hm.
  - destruct (g_action g) eqn:Ha; [done|].
    destruct (p_approval_handler p) as [decide|] eqn:Hh; [|done].
    destruct (decide _ _ _ _) as [[] w1] eqn:Hd; [|done]. intros Hr.
    constructor; [|by eapply IH]. intros _. exists prompt, decide. eauto 6.
  - intros Hr. constructor; [by rewrite Hm|by eapply IH].
Qed.

Lemma run_guards_no_handler gs w g :
  p_approval_handler p = None → g ∈ gs → GuardRule_matches g tool args = true →
  ∃ reason, run_guards p tool args gs w = (Some (Deny reason), w).
Proof.
  intros Hh Hin Hm. induction gs as [|g' gs IH]; [by apply not_elem_of_nil in Hin|]. simpl.
  destruct (GuardRule_matches g' tool args) eqn:Hg'.
  - rewrite Hh. destruct (g_action g'); eauto.
  - apply elem_of_cons in Hin as [->|Hin]; [congruence|]. by apply IH.
Qed.

Lemma ask_policy_no_ask w : ∀ prompt, fst (ask_policy p tool args w) ≠ AskUser prompt.
Proof. intros prompt. unfold ask_policy. by repeat case_match; simplify_eq/=. Qed.

(** Why a call may be allowed once deny rules and guards let it through. *)
Inductive allowed_because (w' : W) : Prop :=
| because_rule : allowed_by_rule p tool args = true → allowed_because w'
| because_bypass : p_mode p = Bypass → allowed_because w'
| because_edit : p_mode p = AcceptEdits → effect = Write → allowed_because w'
| because_policy :
    p_mode p ≠ DontAsk → (p_mode p = Plan → effect = ReadOnly) →
    (∃ u, ask_policy p tool args u = (Allow, w')) → allowed_because w'.

Lemma authorize_allow_inv w w' :
  authorize_tool p tool effect args w = (Allow, w') →
  denied_by_rule p tool args = false
  ∧ (∃ u, run_guards p tool args (all_guards p) w = (None, u))
  ∧ allowed_because w'.
Proof.
  unfold authorize_tool. destruct (denied_by_rule _ _ _); [done|].
  destruct (run_guards _ _ _ _ w) as [[d|] u] eqn:Hg.
  { apply run_guards_deny in Hg as [r ->]. done. }
  destruct (allowed_by_rule _ _ _) eqn:Ha.
  { intros [= <-]. eauto using allowed_because. }
  unfold mode_decision. destruct (p_mode p) eqn:Hm; repeat case_bool_decide; try done;
    intros Hp; simplify_eq; split_and!; eauto using allowed_because;
    apply because_policy; rewrite ?Hm; naive_solver.
Qed.
End Theorems.

(** ** Properties *)

Section Compound.
Context `{J : SerdeJson} `{G : Globset} {W : Type}.

Lemma bash_resolve args ws s wss rest :
  Forall2 simple (ws :: wss) (s :: (snd <$> rest)) →
  str_arg args "command" = Some (render s rest) →
  ∃ cmd, bash_command_str "Bash" args = Some cmd
    ∧ resolve_all cmd = flat_map (resolve_words MAX_REENTRY_DEPTH) (ws :: wss).
Proof.
  intros Hs Ha. exists (render s rest). split; [exact Ha|]. by apply resolve_into_simple.
Qed.

Lemma existsb_flat_map {A B} (p : B → bool) (f : A → list B) l x y :
  x ∈ l → y ∈ f x → p y = true → existsb p (flat_map f l) = true.
Proof.
  intros Hx Hy Hp. apply existsb_exists. exists y. split; [|done].
  apply in_flat_map. exists x. by rewrite <- !list_elem_of_In.
Qed.

Lemma rule_in_denied (p : Permissions W) r tool args :
  r ∈ p_deny_rules p → DenyRule_matches r tool args = true →
  denied_by_rule p tool args = true.
Proof. intros Hr Hm. apply existsb_Exists. by exists r. Qed.
End Compound.


(** C8. Whenever a call is allowed, no deny rule matched, every guard that
    matched asked and the approval handler approved, and the call is covered
    by an allow rule, by Bypass, by AcceptEdits for a write, or by the policy
    step in a mode that reaches it (never DontAsk; Plan only read-only). *)
Theorem authorize_allow_sound `{J : SerdeJson} `{G : Globset} {W : Type}
    (p : Permissions W) tool effect args w w' :
  authorize_tool p tool effect args w = (Allow, w') →
  denied_by_rule p tool args = false
  ∧ Forall (λ g, GuardRule_matches g tool args = true →
      ∃ prompt decide, g_action g = GuardAsk prompt ∧ p_approval_handler p = Some decide
        ∧ ∃ u u', decide tool prompt args u = (ApprovalAllow, u')) (all_guards p)
  ∧ allowed_because p tool effect args w'.
Proof.
  intros H. destruct (authorize_allow_inv _ _ _ _ _ _ H) as (Hd & [u Hg] & Hb).
  split_and!; [done| |done]. by eapply run_guards_pass.
Qed.

(** Authorization is total and decisive: it never answers with a question,
    and sanitized arguments come from the application's policy alone. *)
Theorem authorize_decides `{J : SerdeJson} `{G : Globset} {W : Type}
    (p : Permissions W) tool effect args w :
  (∀ prompt, fst (authorize_tool p tool effect args w) ≠ AskUser prompt)
  ∧ ∀ v, fst (authorize_tool p tool effect args w) = Replace v →
      ∃ check u u', p_policy p = Some check ∧ check tool args u = (Replace v, u').
Proof.
  unfold authorize_tool. destruct (denied_by_rule _ _ _); [done|].
  destruct (run_guards _ _ _ _ w) as [[d|] u] eqn:Hg.
  { apply run_guards_deny in Hg as [r ->]. done. }
  destruct (allowed_by_rule _ _ _); [done|].
  destruct (mode_decision _ _ _) as [d|] eqn:Hm.
  { unfold mode_decision in Hm. by repeat case_match; simplify_eq. }
  split; [intros; apply ask_policy_no_ask|].
  intros v. unfold ask_policy. destruct (p_policy p) as [check|] eqn:Hp; [|done].
  destruct (check tool args u) as [[] u'] eqn:Hc; simpl; repeat case_match; try done.
  intros [= ->]. by exists check, u, u'.
Qed.

(** The built-in guard stops [rm -rf /] (and its [~], [$HOME], flag and
    spelling variants) wherever it hides in a Bash line: without an approval
    handler the call is denied in every mode, Bypass included, and no allow
    rule or policy can overrule it. *)
Theorem rm_root_guarded `{J : SerdeJson} `{G : Globset} {W : Type}
    (p : Permissions W) effect args ws s wss rest words c w :
  p_default_guards p = true → p_approval_handler p = None →
  Forall2 simple (ws :: wss) (s :: (snd <$> rest)) →
  str_arg args "command" = Some (render s rest) →
  words ∈ ws :: wss → c ∈ resolve_words MAX_REENTRY_DEPTH words →
  is_rm_rf_root_or_home c = true →
  ∃ reason, authorize_tool p "Bash" effect args w = (Deny reason, w).
Proof.
  intros Hg Hh Hs Ha Hin Hc Hrm. unfold authorize_tool.
  destruct (denied_by_rule _ _ _); [by eexists|].
  destruct (bash_resolve args _ _ _ _ Hs Ha) as (cmd & Hb & Hres).
  set (g := mkGuardRule RmRecursiveRootOrHome
     (GuardAsk "destructive command: recursive force-remove of / or ~")).
  destruct (run_guards_no_handler p "Bash" args (all_guards p) w g) as [reason ->].
  - done.
  - unfold all_guards. rewrite Hg. apply list_elem_of_here.
  - unfold GuardRule_matches. simpl. rewrite Hb, Hres. by eapply existsb_flat_map.
  - by exists reason.
Qed.

(** An allow rule for a program never covers a line in which some simple
    command resolves to another program. *)
Theorem allow_program_covers_all `{J : SerdeJson} `{G : Globset}
    prog args ws s wss rest words c :
  Forall2 simple (ws :: wss) (s :: (snd <$> rest)) →
  str_arg args "command" = Some (render s rest) →
  words ∈ ws :: wss → c ∈ resolve_words MAX_REENTRY_DEPTH words →
  program c ≠ prog →
  AllowRule_matches (AllowRule_bash_command prog) "Bash" args = false.
Proof.
  intros Hs Ha Hin Hc Hne.
  destruct (bash_resolve args _ _ _ _ Hs Ha) as (cmd & Hb & Hres).
  unfold AllowRule_matches. simpl. rewrite Hb, Hres. apply andb_false_iff. right.
  apply not_true_iff_false. rewrite forallb_Forall_true, Forall_forall. intros Hall.
  apply Hne, String.eqb_eq, Hall, list_elem_of_In, in_flat_map.
  exists words. by rewrite <- !list_elem_of_In.
Qed.

(** ** Witnesses *)

Module Demo.
#[local] Existing Instance Toy.json.

#[export] Instance globset : Globset := {|
  Glob := string; glob_build := Some; glob_is_match := String.eqb |}.

Definition line : string := "cd /tmp && sudo 'r'm -r\f / ; sh -c 'ls'".
Definition bash_args : Value := VObject [("command", VString line)].

Definition bypass (deny : list DenyRule) : Permissions unit := {|
  p_mode := Bypass; p_policy := None; p_deny_rules := deny; p_allow_rules := [];
  p_approval_handler := None; p_guard_rules := []; p_default_guards := true |}.

Definition rm_root : ResolvedCommand := mkResolved "rm" ["-rf"; "/"] [].

Definition rest : list (operator * string) :=
  [(OpAnd, "sudo 'r'm -r\f /"); (OpSemi, "sh -c 'ls'")].
End Demo.

#[local] Existing Instance Toy.json.
#[local] Existing Instance Demo.globset.


Lemma authorize_allow_sound_witness :
  let p := mkPermissions AcceptEdits None [] []
             (Some (λ _ _ _ n, (ApprovalAllow, S n))) [] true in
  let args := VObject [("path", VString "/etc/hosts")] in
  authorize_tool p "Write" Write args 0 = (Allow, 1)
  ∧ allowed_because p "Write" Write args 1.
Proof.
  set (p := mkPermissions AcceptEdits None [] []
             (Some (λ _ _ _ n, (ApprovalAllow, S n))) [] true).
  intros p' args. subst p'.
  assert (authorize_tool p "Write" Write args 0 = (Allow, 1)) as H
    by (vm_compute; reflexivity).
  split; [exact H|]. exact (proj2 (proj2 (authorize_allow_sound p "Write" Write args 0 1 H))).
Defined.

Lemma rm_root_guarded_witness :
  ∃ reason, authorize_tool (Demo.bypass []) "Bash" SideEffect Demo.bash_args ()
            = (Deny reason, ()).
Proof.
  apply (rm_root_guarded (Demo.bypass []) SideEffect Demo.bash_args _ _ _ Demo.rest
    ["sudo"; "rm"; "-rf"; "/"] Demo.rm_root () eq_refl eq_refl demo_simple).
  - vm_compute. reflexivity.
  - apply list_elem_of_further, list_elem_of_here.
  - vm_compute. apply list_elem_of_here.
  - vm_compute. reflexivity.
Defined.

Lemma allow_program_covers_all_witness :
  AllowRule_matches (AllowRule_bash_command "cd") "Bash" Demo.bash_args = false.
Proof.
  apply (allow_program_covers_all "cd" Demo.bash_args _ _ _ Demo.rest
    ["sudo"; "rm"; "-rf"; "/"] Demo.rm_root demo_simple).
  - vm_compute. reflexivity.
  - apply list_elem_of_further, list_elem_of_here.
  - vm_compute. apply list_elem_of_here.
  - vm_compute. discriminate.
Defined.
