(* ===== verification/Redaction.v ===== *)
(** Secret redaction of tool output: core/src/redaction.rs, and the conversion
    of a tool's output to content parts in core/src/tool_exec.rs.

    A JSON value is traversed by recursion on its nesting depth.  The parent
    process environment is an argument. *)

From Stdlib Require Import Ascii.
From S2P Require Import Prelude Json Items.

Definition SECRET_SUFFIXES : list string :=
  ["_API_KEY"; "_TOKEN"; "_SECRET"; "_PASSWORD"; "_CREDENTIAL"].
Definition MIN_SECRET_LEN : nat := 8.
Definition REDACTED : string := "***".

Record SecretSet := mkSecretSet { secret_values : list string }.

(** [str::to_ascii_uppercase]. *)
Definition to_ascii_uppercase (c : ascii) : ascii :=
  if is_ascii_lower c then ascii_of_nat (nat_of_ascii c - 32) else c.

Fixpoint string_upper (s : string) : string :=
  match s with
  | EmptyString => EmptyString
  | String c s' => String (to_ascii_uppercase c) (string_upper s')
  end.

Definition name_is_secret (name : string) : bool :=
  let upper := string_upper name in
  existsb (λ s, ends_with upper s) SECRET_SUFFIXES.

Definition is_common_word (v : string) : bool :=
  existsb (String.eqb (string_lower v)) ["true"; "false"; "dev"; "prod"; "test"; "none"; "null"]
  || forall_chars is_ascii_digit v.

Definition from_values (values : list string) : SecretSet :=
  mkSecretSet (filter (λ v, (MIN_SECRET_LEN <=? String.length v)%nat && negb (is_common_word v))
    values).

Definition from_env_and_extra (env : list (string * string)) (extra : list string) : SecretSet :=
  from_values (((filter (λ kv, name_is_secret kv.1) env).*2) ++ extra).

(** [str::contains] and [str::replace] with a string pattern; the pattern is not
    empty where they are used. *)
Fixpoint contains_str (s pat : string) : bool :=
  starts_with s pat || match s with EmptyString => false | String _ s' => contains_str s' pat end.

Fixpoint replace_go (fuel : nat) (pat rep s : string) : string :=
  match fuel with
  | O => s
  | S fuel' =>
      match strip_prefix pat s with
      | Some s' => rep +:+ replace_go fuel' pat rep s'
      | None =>
          match s with
          | EmptyString => EmptyString
          | String c s' => String c (replace_go fuel' pat rep s')
          end
      end
  end.

Definition replace (pat rep s : string) : string := replace_go (S (String.length s)) pat rep s.

(** [str::split_inclusive('\n')]. *)
Fixpoint split_lines (s : string) : list string :=
  match s with
  | EmptyString => []
  | String c s' =>
      if Ascii.eqb c newline then String c "" :: split_lines s'
      else match split_lines s' with
           | [] => [String c ""]
           | l :: ls => String c l :: ls
           end
  end.

(** [find] and [split_at]: the text before the first separator and after it. *)
Fixpoint split_sep (sep : ascii) (s : string) : option (string * string) :=
  match s with
  | EmptyString => None
  | String c s' =>
      if Ascii.eqb c sep then Some ("", s')
      else match split_sep sep s' with
           | Some (head, tail) => Some (String c head, tail)
           | None => None
           end
  end.

(** [rsplit([' ', '\t']).next()]: what follows the last blank. *)
Fixpoint last_word (s : string) : string :=
  match s with
  | EmptyString => ""
  | String c s' =>
      if contains_char s' space || contains_char s' tab then last_word s'
      else if Ascii.eqb c space || Ascii.eqb c tab then s' else s
  end.

(** The white space [trim_end] strips. *)
Definition trailing_ws (s : string) : string :=
  let n := String.length (trim_end s) in String.substring n (String.length s - n) s.

(** One separator of [redact_line]: [Some] is an early return. *)
Definition redact_at (sep : ascii) (line : string) : option string :=
  '(head, after) ← split_sep sep line;
  if name_is_secret (trim (last_word head)) then
    let '(sp, rest) := match strip_prefix " " after with
                       | Some r => (" ", r)
                       | None => ("", after)
                       end in
    Some (if is_empty (trim rest) then line
          else head +:+ String sep "" +:+ sp +:+ REDACTED +:+ trailing_ws rest)
  else None.

Definition redact_line (line : string) : string :=
  default line (find_map (λ sep, redact_at sep line) ["="%char; ":"%char]).

Definition redact_key_values (s : string) : string :=
  foldr String.append "" (redact_line <$> split_lines s).

Definition redact_secret (out secret : string) : string :=
  if contains_str out secret then replace secret REDACTED out else out.

Definition redact_str (s : string) (secrets : SecretSet) : string :=
  fold_left redact_secret (secret_values secrets) (redact_key_values s).

Section Redact.
Context `{J : SerdeJson}.

Fixpoint redact_fuel (fuel : nat) (v : Value) (secrets : SecretSet) : Value :=
  match fuel with
  | O => v
  | S fuel' =>
      match as_str v, as_array v, as_object v with
      | Some s, _, _ => VString (redact_str s secrets)
      | _, Some a, _ => VArray ((λ x, redact_fuel fuel' x secrets) <$> a)
      | _, _, Some o => VObject ((λ kv, (kv.1, redact_fuel fuel' kv.2 secrets)) <$> o)
      | None, None, None => v
      end
  end.

Definition redact (v : Value) (secrets : SecretSet) : Value :=
  redact_fuel (S (depth v)) v secrets.

Definition tool_output_to_content_parts (output : Value) : list ContentPart :=
  [Text match as_str output with Some s => s | None => to_string output end].

Definition finalize_tool_output (output : Value) (redact_output : bool) (secrets : SecretSet)
  : list ContentPart :=
  tool_output_to_content_parts (if redact_output then redact output secrets else output).
End Redact.

(** ** Replacing removes *)

Definition star : ascii := "*"%char.
Definition star_free (s : string) : Prop := contains_char s star = false.

Lemma starts_with_cons c d s p :
  starts_with (String c s) (String d p) = Ascii.eqb d c && starts_with s p.
Proof. unfold starts_with. simpl. by destruct (Ascii.eqb d c). Qed.

Lemma starts_with_nil s : starts_with s "" = true.
Proof. by destruct s. Qed.

Lemma strip_prefix_length p s s' :
  strip_prefix p s = Some s' → (String.length s' + String.length p = String.length s)%nat.
Proof. intros ->%strip_prefix_Some. rewrite string_length_app. lia. Qed.

(** A prefix of the result without stars was a prefix of the input. *)
Lemma replace_go_prefix fuel pat s p :
  star_free p → starts_with (replace_go fuel pat REDACTED s) p = true → starts_with s p = true.
Proof.
  revert s p. induction fuel as [|fuel IH]; intros s p Hp; simpl; [done|].
  destruct p as [|d p]; [by rewrite starts_with_nil|].
  unfold star_free in Hp. simpl in Hp. apply orb_false_iff in Hp as [Hd Hp].
  destruct (strip_prefix pat s) as [s'|] eqn:E.
  - unfold REDACTED. simpl. rewrite starts_with_cons. unfold star in Hd.
    intros [Hc _]%andb_true_iff. congruence.
  - destruct s as [|c s]; [done|]. rewrite !starts_with_cons.
    intros [-> Hs]%andb_true_iff. by apply IH.
Qed.

Lemma contains_str_app a s p : contains_str s p = true → contains_str (a +:+ s) p = true.
Proof.
  intros Hs. induction a as [|c a IH]; [done|]. simpl. rewrite IH. apply orb_true_r.
Qed.

Lemma contains_str_star s p :
  p ≠ "" → star_free p → contains_str (REDACTED +:+ s) p = contains_str s p.
Proof.
  intros Hne Hp. destruct p as [|d p]; [done|]. unfold star_free in Hp. simpl in Hp.
  apply orb_false_iff in Hp as [Hd _].
  assert (∀ t, contains_str (String star t) (String d p) = contains_str t (String d p)) as Hstep.
  { intros t. cbn [contains_str]. by rewrite starts_with_cons, Hd. }
  unfold REDACTED. simpl (_ +:+ _). by rewrite !Hstep.
Qed.

(** Replacing creates no occurrence of a pattern without stars. *)
Lemma replace_go_no_new fuel pat s p :
  p ≠ "" → star_free p →
  contains_str (replace_go fuel pat REDACTED s) p = true → contains_str s p = true.
Proof.
  intros Hne Hp. revert s. induction fuel as [|fuel IH]; intros s; [done|].
  cbn [replace_go]. destruct (strip_prefix pat s) as [s'|] eqn:E.
  - rewrite contains_str_star by done. intros Hs%IH. apply strip_prefix_Some in E as ->.
    by apply contains_str_app.
  - destruct s as [|c s]; [done|]. cbn [contains_str]. intros [Hs|Hs]%orb_true_iff.
    + apply orb_true_iff. left. destruct p as [|d p]; [done|]. rewrite starts_with_cons in *.
      apply andb_true_iff in Hs as [-> Hs]. simpl.
      unfold star_free in Hp. simpl in Hp. apply orb_false_iff in Hp as [_ Hp].
      by eapply replace_go_prefix.
    + apply orb_true_iff. right. by apply IH.
Qed.

Lemma replace_go_removes fuel p s :
  p ≠ "" → star_free p → (String.length s < fuel)%nat →
  contains_str (replace_go fuel p REDACTED s) p = false.
Proof.
  intros Hne Hp. revert s. induction fuel as [|fuel IH]; intros s Hs; [lia|].
  cbn [replace_go]. destruct (strip_prefix p s) as [s'|] eqn:E.
  - rewrite contains_str_star by done. apply IH. apply strip_prefix_length in E.
    destruct p; [done|]. simpl in E. lia.
  - destruct s as [|c s]; [by destruct p|]. cbn [contains_str]. simpl in Hs.
    rewrite IH, orb_false_r by lia. apply not_true_is_false. intros Hc.
    assert (starts_with (String c s) p = true) as Hst.
    { destruct p as [|d p]; [done|]. rewrite starts_with_cons in *.
      apply andb_true_iff in Hc as [-> Hc]. simpl.
      unfold star_free in Hp. simpl in Hp. apply orb_false_iff in Hp as [_ Hp].
      by eapply replace_go_prefix. }
    unfold starts_with in Hst. by rewrite E in Hst.
Qed.

Lemma redact_secret_no_new out secret p :
  p ≠ "" → star_free p → contains_str out p = false →
  contains_str (redact_secret out secret) p = false.
Proof.
  intros Hne Hp Hout. unfold redact_secret. destruct (contains_str out secret); [|done].
  apply not_true_is_false. intros Hc%replace_go_no_new; [congruence|done..].
Qed.

Lemma redact_secret_removes out p :
  p ≠ "" → star_free p → contains_str (redact_secret out p) p = false.
Proof.
  intros Hne Hp. unfold redact_secret. destruct (contains_str out p) eqn:E; [|done].
  apply replace_go_removes; [done..|lia].
Qed.

Lemma redact_secrets_removed secrets out p :
  p ≠ "" → star_free p → p ∈ secrets →
  contains_str (fold_left redact_secret secrets out) p = false.
Proof.
  intros Hne Hp. induction secrets as [|x secrets IH] using rev_ind; [by intros ?%elem_of_nil|].
  rewrite fold_left_app. simpl. intros [Hin|Hin]%elem_of_app.
  - by apply redact_secret_no_new, IH.
  - apply list_elem_of_singleton in Hin as <-. by apply redact_secret_removes.
Qed.

Lemma from_values_ne values x : x ∈ secret_values (from_values values) → x ≠ "".
Proof. unfold from_values. simpl. intros [Hx _]%list_elem_of_filter ->. done. Qed.

(** ** Strings inside a value *)

Section Leaves.
Context `{J : SerdeJson} `{L : !SerdeJsonLaws}.

Inductive leaf : Value → string → Prop :=
| leaf_string v s : as_str v = Some s → leaf v s
| leaf_array v vs x s : as_array v = Some vs → x ∈ vs → leaf x s → leaf v s
| leaf_object v kvs k x s : as_object v = Some kvs → (k, x) ∈ kvs → leaf x s → leaf v s.

Lemma leaf_inv_string t s : leaf (VString t) s → s = t.
Proof.
  inversion 1 as [? ? Hs|? ? ? ? Hs|? ? ? ? ? Hs]; subst.
  - rewrite as_str_VString in Hs. congruence.
  - by rewrite as_array_VString in Hs.
  - by rewrite as_object_VString in Hs.
Qed.

Lemma leaf_inv_array vs s : leaf (VArray vs) s → ∃ x, x ∈ vs ∧ leaf x s.
Proof.
  inversion 1 as [? ? Hs|? ? x ? Hs|? ? ? ? ? Hs]; subst.
  - by rewrite as_str_VArray in Hs.
  - rewrite as_array_VArray in Hs. simplify_eq. eauto.
  - by rewrite as_object_VArray in Hs.
Qed.

Lemma leaf_inv_object kvs s :
  NoDup kvs.*1 → leaf (VObject kvs) s → ∃ k x, (k, x) ∈ kvs ∧ leaf x s.
Proof.
  intros Hn. inversion 1 as [? ? Hs|? ? x ? Hs|? ? k x ? Hs]; subst.
  - by rewrite as_str_VObject in Hs.
  - by rewrite as_array_VObject in Hs.
  - destruct (as_object_VObject kvs Hn) as (kvs' & E & Hp). rewrite E in Hs. simplify_eq.
    exists k, x. by rewrite <- Hp.
Qed.

(** The strings of a redacted value are the redacted strings of the value. *)
Lemma redact_fuel_leaf fuel v secrets s :
  (depth v < fuel)%nat → leaf (redact_fuel fuel v secrets) s →
  ∃ s0, leaf v s0 ∧ s = redact_str s0 secrets.
Proof.
  revert v s. induction fuel as [|fuel IH]; intros v s Hd; [lia|]. cbn [redact_fuel].
  destruct (as_str v) as [t|] eqn:Es.
  { intros ->%leaf_inv_string. exists t. split; [by constructor|done]. }
  destruct (as_array v) as [vs|] eqn:Ea.
  { intros (x & Hx & Hl)%leaf_inv_array. apply list_elem_of_fmap in Hx as (y & -> & Hy).
    pose proof (depth_array _ _ _ Ea Hy).
    destruct (IH y s ltac:(lia) Hl) as (s0 & Hs0 & ->).
    exists s0. split; [by eapply leaf_array|done]. }
  destruct (as_object v) as [kvs|] eqn:Eo.
  { intros (k & x & Hx & Hl)%leaf_inv_object.
    - apply list_elem_of_fmap in Hx as ([k' y] & Heq & Hy). simplify_eq/=.
      pose proof (depth_object _ _ _ _ Eo Hy).
      destruct (IH y s ltac:(lia) Hl) as (s0 & Hs0 & ->).
      exists s0. split; [by eapply leaf_object|done].
    - rewrite <- list_fmap_compose. apply (as_object_keys _ _ Eo). }
  inversion 1; subst; congruence.
Qed.
End Leaves.

(** ** Assignments to secret names *)

Definition nl : string := String newline "".

Lemma split_lines_app p s :
  split_lines (p +:+ String newline s) = (split_lines (p +:+ nl) ++ split_lines s)%list.
Proof.
  induction p as [|c p IH]; simpl; [done|]. rewrite IH.
  destruct (Ascii.eqb c newline); [done|].
  assert (split_lines (p +:+ nl) ≠ []) as Hne.
  { destruct p as [|d p]; simpl; [done|]. destruct (Ascii.eqb d newline); [done|].
    by destruct (split_lines (p +:+ nl)). }
  by destruct (split_lines (p +:+ nl)).
Qed.

Lemma split_lines_line l : contains_char l newline = false → split_lines (l +:+ nl) = [l +:+ nl].
Proof.
  induction l as [|c l IH]; simpl; [done|]. intros [Hc Hl]%orb_false_iff. by rewrite Hc, IH.
Qed.

Lemma split_sep_app sep head after :
  contains_char head sep = false → split_sep sep (head +:+ String sep after) = Some (head, after).
Proof.
  induction head as [|c head IH]; simpl; [by rewrite Ascii.eqb_refl|].
  intros [Hc Hh]%orb_false_iff. by rewrite Hc, IH.
Qed.

Lemma trim_end_newline s : trim_end (s +:+ nl) = trim_end s.
Proof.
  unfold trim_end, nl. rewrite string_rev_app, string_length_app, Nat.add_comm. done.
Qed.

Lemma substring_app a b :
  String.substring (String.length a) (String.length (a +:+ b) - String.length a) (a +:+ b) = b.
Proof.
  induction a as [|c a IH]; simpl; [|exact IH]. rewrite Nat.sub_0_r.
  induction b as [|c b IH]; simpl; [done|]. by rewrite IH.
Qed.

Lemma trim_graphic_ends v : graphic_ends v = true → trim_start v = v ∧ trim_end v = v.
Proof.
  intros Hg. unfold graphic_ends in Hg. destruct v as [|c v]; [done|].
  destruct (string_rev (String c v)) as [|d r] eqn:E; [done|].
  apply andb_true_iff in Hg as [Hc Hd].
  split; [by apply trim_start_graphic|by eapply trim_end_graphic].
Qed.

Lemma trailing_ws_line v : graphic_ends v = true → trailing_ws (v +:+ nl) = nl.
Proof.
  intros [_ Hv]%trim_graphic_ends. unfold trailing_ws.
  rewrite trim_end_newline, Hv. apply substring_app.
Qed.

Lemma trim_line v : graphic_ends v = true → is_empty (trim (v +:+ nl)) = false.
Proof.
  intros Hg. pose proof (trim_graphic_ends v Hg) as [_ He].
  destruct v as [|c v]; [done|]. unfold trim.
  assert (is_graphic c = true) as Hc.
  { unfold graphic_ends in Hg. destruct (string_rev _); [done|].
    by apply andb_true_iff in Hg as [? _]. }
  simpl (_ +:+ _). rewrite trim_start_graphic by done.
  change (String c (v +:+ nl)) with (String c v +:+ nl).
  by rewrite trim_end_newline, He.
Qed.

Lemma redact_line_assignment head v :
  contains_char head "="%char = false → name_is_secret (trim (last_word head)) = true →
  graphic_ends v = true →
  redact_line (head +:+ String "=" (v +:+ nl)) = head +:+ "=" +:+ REDACTED +:+ nl.
Proof.
  intros Hh Hn Hg. unfold redact_line. cbn [find_map]. unfold redact_at at 1.
  rewrite split_sep_app by done. cbn [mbind option_bind]. rewrite Hn.
  assert (strip_prefix " " (v +:+ nl) = None) as ->.
  { destruct v as [|c v]; [done|]. unfold graphic_ends in Hg.
    destruct (string_rev _); [done|]. apply andb_true_iff in Hg as [Hc _].
    change (strip_prefix " " (String c (v +:+ nl)) = None). cbn [strip_prefix].
    destruct (Ascii.eqb_spec " " c) as [<-|]; [|done]. by vm_compute in Hc. }
  rewrite trim_line, trailing_ws_line by done. done.
Qed.

(** The text before a line is empty or a sequence of complete lines. *)
Definition whole_lines (pre : string) : Prop := pre = "" ∨ ∃ p, pre = p +:+ nl.

Lemma split_lines_at pre l post :
  whole_lines pre → contains_char l newline = false →
  split_lines (pre +:+ l +:+ String newline post)
  = (split_lines pre ++ [l +:+ nl] ++ split_lines post)%list.
Proof.
  intros Hpre Hl.
  assert (split_lines (l +:+ String newline post) = [l +:+ nl] ++ split_lines post)%list as Hs.
  { by rewrite split_lines_app, split_lines_line. }
  destruct Hpre as [->|(p & ->)]; [done|]. unfold nl at 1.
  rewrite string_app_assoc. simpl (String newline "" +:+ _).
  rewrite split_lines_app. by rewrite Hs.
Qed.

(** Redaction removes the known secrets: no string anywhere inside a
    redacted tool output contains a secret of the set (whose values have no
    [*]), whichever secrets overlap and whatever the output looks like. *)
Theorem redact_removes_secrets `{J : SerdeJson} `{L : !SerdeJsonLaws} env extra v s secret :
  let secrets := from_env_and_extra env extra in
  Forall star_free (secret_values secrets) → secret ∈ secret_values secrets →
  leaf (redact v secrets) s → contains_str s secret = false.
Proof.
  intros secrets Hstar Hin Hl. apply redact_fuel_leaf in Hl as (s0 & _ & ->); [|lia].
  apply redact_secrets_removed; [by eapply from_values_ne| |done].
  rewrite Forall_forall in Hstar. by apply Hstar.
Qed.

(** The value of an assignment to a secret-shaped name does not influence the
    redacted text: two texts that differ only in that value, on a line of its
    own, redact to the same string. *)
Theorem redact_assignment_hides secrets pre head v1 v2 post :
  whole_lines pre →
  contains_char head newline = false → contains_char head "="%char = false →
  name_is_secret (trim (last_word head)) = true →
  graphic_ends v1 = true → graphic_ends v2 = true →
  contains_char v1 newline = false → contains_char v2 newline = false →
  redact_str (pre +:+ (head +:+ String "=" v1) +:+ String newline post) secrets
  = redact_str (pre +:+ (head +:+ String "=" v2) +:+ String newline post) secrets.
Proof.
  intros Hpre Hnl Heq Hn Hg1 Hg2 Hn1 Hn2. unfold redact_str, redact_key_values. f_equal.
  rewrite !split_lines_at by (try done; rewrite contains_char_app; simpl; by rewrite Hnl, ?Hn1, ?Hn2).
  rewrite !fmap_app, !foldr_app. simpl.
  rewrite !string_app_assoc. simpl. by rewrite !redact_line_assignment.
Qed.

(** *** Witnesses *)

#[local] Existing Instance Toy.json.
#[local] Existing Instance Toy.json_laws.

Lemma redact_removes_secrets_witness :
  redact (VArray [VString "key is hunter2hunter2!"])
    (from_env_and_extra [("DB_PASSWORD", "hunter2hunter2")] [])
  = VArray [VString "key is ***!"]
  ∧ contains_str "key is ***!" "hunter2hunter2" = false.
Proof.
  split; [vm_compute; reflexivity|].
  apply (redact_removes_secrets [("DB_PASSWORD", "hunter2hunter2")] []
    (VArray [VString "key is hunter2hunter2!"])).
  - vm_compute. repeat constructor.
  - vm_compute. left.
  - eapply leaf_array; [vm_compute; reflexivity|left|by constructor].
Defined.

Lemma redact_assignment_hides_witness :
  redact_str ("PATH=/bin" +:+ nl +:+ "export X_API_KEY=abc" +:+ nl) (mkSecretSet [])
  = redact_str ("PATH=/bin" +:+ nl +:+ "export X_API_KEY=some-other-key" +:+ nl) (mkSecretSet []).
Proof.
  exact (redact_assignment_hides (mkSecretSet []) ("PATH=/bin" +:+ nl) "export X_API_KEY" "abc"
    "some-other-key" "" (or_intror (ex_intro _ "PATH=/bin" eq_refl)) eq_refl eq_refl eq_refl eq_refl
    eq_refl eq_refl eq_refl).
Defined.
