(* ===== verification/Tools.v ===== *)
(** The control layer and the execution of tool calls: core/src/hook.rs,
    guardrail.rs, control.rs, tool_exec.rs and [run_tools_concurrent] of
    agent.rs.

    Hooks, guardrails, tools, policies and approval handlers are functions on a
    world [W] they may read and change.  The calls of one turn run
    concurrently: a call is a state machine that moves from await to await, and
    a schedule says which call moves next.  Every schedule is completed by
    running the remaining calls in order, so the functions are total; the
    theorems hold for every schedule. *)

From S2P Require Import Prelude Json Items PathMatch CommandMatch LoopState Permission Redaction.

(** The derived [Debug] renderings that error messages contain. *)
Class RustDebug `{SerdeJson} := {
  debug_strings : list string → string;
  debug_guardrail_kind : GuardrailKind → string;
}.

Section Tools.
Context `{J : SerdeJson} `{G : Globset} `{R : !RustDebug} {W : Type}.

Definition ToolError_display (e : ToolError) : string :=
  match e with
  | InvalidArgs schema_errors => "invalid tool arguments: " +:+ debug_strings schema_errors
  | ToolDenied reason => "operation denied: " +:+ reason
  | ToolOther msg => msg
  end.

(** ** Hooks and guardrails *)

Inductive HookEvent : Type :=
| OnRunStart
| OnTurnStart (turn : Z)
| PreToolUse (tool : string) (args : Value)
| PostToolUse (tool : string) (output : Value)
| OnHandoff (from to : string)
| OnRunComplete
| OnSubagentStop (agent : string).

Inductive HookDecision : Type :=
| HookAllow
| HookDeny (reason : string)
| ReplaceInput (value : Value)
| ReplaceOutput (value : Value)
| InjectSystemMessage (text : string).

Definition Hook : Type := HookEvent → W → HookDecision * W.

Inductive GuardrailInput : Type :=
| UserText (text : string)
| ModelOutput (text : string).

Inductive GuardrailVerdict : Type :=
| Pass
| Tripwire (kind : GuardrailKind) (info : Value).

(** A guardrail's own error is given by its [Display]. *)
Definition Guardrail : Type := GuardrailInput → W → result GuardrailVerdict string * W.

Record Interceptors := mkInterceptors {
  i_permissions : Permissions W;
  i_input_guardrails : list Guardrail;
  i_output_guardrails : list Guardrail;
  i_agent_hooks : list Hook;
  i_run_hooks : list Hook;
  i_redact_output : bool;
  i_extra_secrets : list string;
}.

Record ResolvedHookDecision := mkResolvedHook {
  denied : option string;
  replacement : option Value;
  injections : list string;
}.

Fixpoint fire_hooks (hooks : list Hook) (event : HookEvent) (out : ResolvedHookDecision) (w : W)
  : ResolvedHookDecision * W :=
  match hooks with
  | [] => (out, w)
  | on_event :: hooks' =>
      let '(decision, w) := on_event event w in
      match decision with
      | HookAllow => fire_hooks hooks' event out w
      | HookDeny reason => (mkResolvedHook (Some reason) (replacement out) (injections out), w)
      | ReplaceInput value | ReplaceOutput value =>
          fire_hooks hooks' event (mkResolvedHook (denied out) (Some value) (injections out)) w
      | InjectSystemMessage text =>
          fire_hooks hooks' event
            (mkResolvedHook (denied out) (replacement out) (injections out ++ [text])) w
      end
  end.

Definition fire (i : Interceptors) (event : HookEvent) (w : W) : ResolvedHookDecision * W :=
  fire_hooks (i_agent_hooks i ++ i_run_hooks i) event (mkResolvedHook None None []) w.

Fixpoint run_guardrails (guardrails : list Guardrail) (input : GuardrailInput) (w : W)
  : option (GuardrailKind * Value) * W :=
  match guardrails with
  | [] => (None, w)
  | check :: guardrails' =>
      let '(verdict, w) := check input w in
      match verdict with
      | Ok Pass => run_guardrails guardrails' input w
      | Ok (Tripwire kind info) => (Some (kind, info), w)
      | Err e => (Some (GuardrailOther e, VNull), w)
      end
  end.

Definition run_input_guardrails (i : Interceptors) (text : string) (w : W) :=
  run_guardrails (i_input_guardrails i) (UserText text) w.

Definition run_output_guardrails (i : Interceptors) (text : string) (w : W) :=
  run_guardrails (i_output_guardrails i) (ModelOutput text) w.

(** ** One tool call *)

Record Tool := mkTool {
  t_name : string;
  t_description : string;
  t_schema : Value;
  t_effect : ToolEffect;
  t_invoke : Value → W → result Value ToolError * W;
}.

Definition find_tool (tools : list Tool) (name : string) : option Tool :=
  List.find (λ t, String.eqb (t_name t) name) tools.

Definition call_effect (tools : list Tool) (name : string) : ToolEffect :=
  match find_tool tools name with Some t => t_effect t | None => SideEffect end.

(** Where the future of a call is: before its PreToolUse hook, before its
    authorization, before the invocation, before its PostToolUse hook, or
    resolved. *)
Inductive CallState : Type :=
| CallStart
| CallAuthorize (args : Value)
| CallInvoke (args : Value)
| CallPost (output : Value)
| CallDone (res : result (list ContentPart) string).

Section Call.
Variables (tools : list Tool) (i : Interceptors) (secrets : SecretSet) (call : ToolCallRequest).

Definition call_pre (w : W) : CallState * W :=
  let '(pre, w) := fire i (PreToolUse (tcr_name call) (tcr_args call)) w in
  match denied pre with
  | Some reason => (CallDone (Err ("blocked by PreToolUse hook: " +:+ reason)), w)
  | None => (CallAuthorize (default (tcr_args call) (replacement pre)), w)
  end.

Definition call_authorize (args : Value) (w : W) : CallState * list AgentEvent * W :=
  let '(decision, w) :=
    authorize_tool (i_permissions i) (tcr_name call) (call_effect tools (tcr_name call)) args w in
  match decision with
  | Allow => (CallInvoke args, [], w)
  | Replace sanitized => (CallInvoke sanitized, [], w)
  | Deny reason | AskUser reason =>
      (CallDone (Err ("permission denied: " +:+ reason)), [PermissionDenied (tcr_name call) reason], w)
  end.

Definition call_invoke (args : Value) (w : W) : CallState * W :=
  match find_tool tools (tcr_name call) with
  | Some t =>
      let '(res, w) := t_invoke t args w in
      match res with
      | Ok output => (CallPost output, w)
      | Err e => (CallDone (Err (ToolError_display e)), w)
      end
  | None => (CallDone (Err ("unknown tool: " +:+ tcr_name call)), w)
  end.

Definition call_post (output : Value) (w : W) : CallState * W :=
  let '(post, w) := fire i (PostToolUse (tcr_name call) output) w in
  match denied post with
  | Some reason => (CallDone (Err ("blocked by PostToolUse hook: " +:+ reason)), w)
  | None =>
      (CallDone (Ok (finalize_tool_output (default output (replacement post))
                       (i_redact_output i) secrets)), w)
  end.

Definition call_step (s : CallState) (w : W) : CallState * list AgentEvent * W :=
  match s with
  | CallStart => let '(s', w') := call_pre w in (s', [], w')
  | CallAuthorize args => call_authorize args w
  | CallInvoke args => let '(s', w') := call_invoke args w in (s', [], w')
  | CallPost output => let '(s', w') := call_post output w in (s', [], w')
  | CallDone _ => (s, [], w)
  end.
End Call.

Definition is_done (s : CallState) : bool := match s with CallDone _ => true | _ => false end.

(** ** The calls of a turn *)

(** The pool of futures, the events pushed so far and the world. *)
Record Pool := mkPool {
  pool_calls : list (ToolCallRequest * CallState);
  pool_denied : list AgentEvent;
  pool_world : W;
}.

Section Pool.
Variables (tools : list Tool) (i : Interceptors) (secrets : SecretSet) (limit : option positive).

(** The first future that is not resolved: [buffered] has yielded those before
    it, and keeps [limit] futures from it on in flight. *)
Fixpoint first_pending (calls : list (ToolCallRequest * CallState)) : nat :=
  match calls with
  | (_, CallDone _) :: calls' => S (first_pending calls')
  | _ => 0
  end.

Definition in_flight (calls : list (ToolCallRequest * CallState)) (k : nat) : bool :=
  match limit with
  | None => true
  | Some n => (k <? first_pending calls + Pos.to_nat n)%nat
  end.

(** Future [k] moves to its next await. *)
Definition pool_step (p : Pool) (k : nat) : Pool :=
  match pool_calls p !! k with
  | Some (call, s) =>
      if in_flight (pool_calls p) k then
        let '(s', evs, w') := call_step tools i secrets call s (pool_world p) in
        mkPool (<[k:=(call, s')]> (pool_calls p)) (pool_denied p ++ evs) w'
      else p
  | None => p
  end.

Definition pool_start (calls : list ToolCallRequest) (w : W) : Pool :=
  mkPool ((λ c, (c, CallStart)) <$> calls) [] w.

(** The given schedule, then every call in order to its end (a call has four
    steps at most). *)
Definition complete (n : nat) : list nat := flat_map (λ k, [k; k; k; k]) (seq 0 n).

Definition run_pool (schedule : list nat) (p : Pool) : Pool :=
  fold_left pool_step (schedule ++ complete (length (pool_calls p))) p.

Definition outcome_of (c : ToolCallRequest * CallState) : ToolCallOutcome :=
  mkToolCallOutcome (tcr_call_id c.1)
    match c.2 with CallDone res => res | _ => Err "" end.

Definition run_tools (schedule : list nat) (calls : list ToolCallRequest) (w : W)
  : list ToolCallOutcome * list AgentEvent * W :=
  let p := run_pool schedule (pool_start calls w) in
  (outcome_of <$> pool_calls p, pool_denied p, pool_world p).
End Pool.

Definition run_tools_concurrent (env : list (string * string)) (limit : option positive)
    (tools : list Tool) (i : Interceptors) (schedule : list nat)
    (calls : list ToolCallRequest) (w : W) : list ToolCallOutcome * list AgentEvent * W :=
  run_tools tools i (from_env_and_extra env (i_extra_secrets i)) limit schedule calls w.

(** The hook-free pipeline of a durable runner. *)
Definition execute_tool_call (env : list (string * string)) (tools : list Tool) (i : Interceptors)
    (call : ToolCallRequest) (w : W) : ToolCallOutcome * option AgentEvent * W :=
  let name := tcr_name call in
  let outcome res := mkToolCallOutcome (tcr_call_id call) res in
  let invoke args w :=
    match find_tool tools name with
    | None => (outcome (Err ("unknown tool: " +:+ name)), None, w)
    | Some t =>
        let '(res, w) := t_invoke t args w in
        let secrets := from_env_and_extra env (i_extra_secrets i) in
        (outcome match res with
                 | Ok output => Ok (finalize_tool_output output (i_redact_output i) secrets)
                 | Err e => Err (ToolError_display e)
                 end, None, w)
    end in
  let '(decision, w) :=
    authorize_tool (i_permissions i) name (call_effect tools name) (tcr_args call) w in
  match decision with
  | Allow => invoke (tcr_args call) w
  | Replace sanitized => invoke sanitized w
  | Deny reason | AskUser reason =>
      (outcome (Err ("permission denied: " +:+ reason)), Some (PermissionDenied name reason), w)
  end.
End Tools.

(** ** Completion *)

Section PoolLemmas.
#[local] Open Scope nat_scope.
Context `{J : SerdeJson} `{G : Globset} `{R : !RustDebug} {W : Type}.
Variables (tools : list (Tool (W:=W))) (i : Interceptors (W:=W)) (secrets : SecretSet).
Variable (limit : option positive).

#[local] Abbreviation step := (pool_step tools i secrets limit).

(** Awaits a call still has ahead. *)
Definition steps_left (s : CallState) : nat :=
  match s with
  | CallStart => 4
  | CallAuthorize _ => 3
  | CallInvoke _ => 2
  | CallPost _ => 1
  | CallDone _ => 0
  end.

Lemma call_step_left call s w :
  steps_left (call_step tools i secrets call s w).1.1 ≤ steps_left s - 1.
Proof.
  destruct s as [|args|args|output|res]; simpl; [..|lia].
  - unfold call_pre. destruct (fire _ _ _) as [pre w']. destruct (denied pre); simpl; lia.
  - unfold call_authorize. destruct (authorize_tool _ _ _ _ _) as [[] w']; simpl; lia.
  - unfold call_invoke. destruct (find_tool _ _) as [t|]; simpl; [|lia].
    destruct (t_invoke t args w) as [[] w']; simpl; lia.
  - unfold call_post. destruct (fire _ _ _) as [post w']. destruct (denied post); simpl; lia.
Qed.

Lemma pool_step_length p k : length (pool_calls (step p k)) = length (pool_calls p).
Proof.
  unfold pool_step. destruct (pool_calls p !! k) as [[c s]|]; [|done].
  destruct (in_flight _ _ _); [|done].
  destruct (call_step _ _ _ _ _ _) as [[s' evs] w']. apply length_insert.
Qed.

(** A step moves one call, and only forward. *)
Lemma pool_step_lookup p k j c s :
  pool_calls p !! j = Some (c, s) →
  ∃ s', pool_calls (step p k) !! j = Some (c, s')
    ∧ steps_left s' ≤ steps_left s - (if decide (j = k ∧ in_flight limit (pool_calls p) k = true)
                                      then 1 else 0).
Proof.
  intros Hj. unfold pool_step. destruct (pool_calls p !! k) as [[c0 s0]|] eqn:Ek.
  - destruct (in_flight limit (pool_calls p) k) eqn:Hf.
    + pose proof (call_step_left c0 s0 (pool_world p)) as Hl.
      destruct (call_step tools i secrets c0 s0 (pool_world p)) as [[s' evs] w']. simpl in *.
      destruct (decide (j = k)) as [->|Hne].
      * simplify_eq. exists s'. rewrite list_lookup_insert_eq by (by eapply lookup_lt_Some).
        split; [done|]. rewrite decide_True by done. done.
      * exists s. rewrite list_lookup_insert_ne, decide_False by naive_solver. split; [done|lia].
    + exists s. split; [done|]. rewrite decide_False by naive_solver. lia.
  - exists s. split; [done|]. case_decide as Hd; [|lia]. destruct Hd as [-> _]. congruence.
Qed.

Definition prefix_done (n : nat) (p : Pool (W:=W)) : Prop :=
  ∀ j c s, j < n → pool_calls p !! j = Some (c, s) → steps_left s = 0.

Lemma pool_step_inv p k j c s' :
  pool_calls (step p k) !! j = Some (c, s') →
  ∃ s, pool_calls p !! j = Some (c, s)
    ∧ steps_left s' ≤ steps_left s - (if decide (j = k ∧ in_flight limit (pool_calls p) k = true)
                                      then 1 else 0).
Proof.
  intros Hj. destruct (pool_calls p !! j) as [[c0 s]|] eqn:E.
  - destruct (pool_step_lookup p k j c0 s E) as (s'' & Hs & Hl). exists s. naive_solver.
  - apply lookup_ge_None in E. apply lookup_lt_Some in Hj. rewrite pool_step_length in Hj. lia.
Qed.

Lemma prefix_done_step n p k : prefix_done n p → prefix_done n (step p k).
Proof.
  intros Hp j c s' Hj Hs. apply pool_step_inv in Hs as (s & Hs & Hl).
  specialize (Hp j c s Hj Hs). lia.
Qed.

Lemma first_pending_ge (l : list (ToolCallRequest * CallState)) n :
  n ≤ length l → (∀ j c s, j < n → l !! j = Some (c, s) → steps_left s = 0) →
  n ≤ first_pending l.
Proof.
  revert n. induction l as [|[c s] l IH]; intros n Hn Hd; simpl in Hn; [lia|].
  destruct n as [|n]; [lia|].
  pose proof (Hd 0 c s ltac:(lia) eq_refl) as Hs. destruct s; try done. simpl.
  apply le_n_S, IH; [lia|]. intros j c' s' Hj. apply (Hd (S j)). lia.
Qed.

Lemma prefix_in_flight n p :
  n < length (pool_calls p) → prefix_done n p → in_flight limit (pool_calls p) n = true.
Proof.
  intros Hn Hp. unfold in_flight. destruct limit as [m|]; [|done].
  apply Nat.ltb_lt. pose proof (first_pending_ge (pool_calls p) n ltac:(lia) Hp). lia.
Qed.

Lemma finish_one n m p c s :
  prefix_done n p → pool_calls p !! n = Some (c, s) → steps_left s ≤ m →
  prefix_done (S n) (fold_left step (replicate m n) p).
Proof.
  revert p s. induction m as [|m IH]; intros p s Hp Hn Hs; simpl.
  - intros j c' s' Hj Hj'. destruct (decide (j = n)) as [->|]; [|eapply Hp; [|done]; lia].
    simplify_eq. lia.
  - destruct (pool_step_lookup p n n c s Hn) as (s' & Hs' & Hl).
    rewrite decide_True in Hl by (split; [done|]; by eapply prefix_in_flight, Hp; apply lookup_lt_Some in Hn).
    eapply IH; [by apply prefix_done_step|done|lia].
Qed.

Lemma fold_step_length ks p : length (pool_calls (fold_left step ks p)) = length (pool_calls p).
Proof. revert p. induction ks as [|k ks IH]; intros p; simpl; [done|]. by rewrite IH, pool_step_length. Qed.

Lemma fold_complete n p :
  n ≤ length (pool_calls p) → prefix_done n (fold_left step (complete n) p).
Proof.
  induction n as [|n IH]; intros Hn; [intros j c s Hj; lia|].
  unfold complete. rewrite seq_S, flat_map_app. simpl. rewrite fold_left_app.
  specialize (IH ltac:(lia)).
  assert (n < length (pool_calls (fold_left step (complete n) p))) as Hlt
    by (rewrite fold_step_length; lia).
  destruct (lookup_lt_is_Some_2 _ _ Hlt) as [[c s] Hs].
  apply (finish_one n 4 _ c s IH Hs). destruct s; simpl; lia.
Qed.

Lemma fold_step_calls ks p : (pool_calls (fold_left step ks p)).*1 = (pool_calls p).*1.
Proof.
  revert p. induction ks as [|k ks IH]; intros p; simpl; [done|]. rewrite IH.
  apply list_eq. intros j. rewrite !list_lookup_fmap.
  destruct (pool_calls p !! j) as [[c s]|] eqn:E.
  - destruct (pool_step_lookup p k j c s E) as (s' & -> & _). done.
  - apply lookup_ge_None in E.
    by rewrite (lookup_ge_None_2 (pool_calls (step p k))) by (rewrite pool_step_length; lia).
Qed.

(** Every schedule leaves every call resolved. *)
Lemma run_pool_done schedule p :
  Forall (λ cs, is_done cs.2 = true) (pool_calls (run_pool tools i secrets limit schedule p)).
Proof.
  unfold run_pool. rewrite fold_left_app. set (p' := fold_left step schedule p).
  assert (length (pool_calls p) = length (pool_calls p')) as -> by (unfold p'; by rewrite fold_step_length).
  apply Forall_lookup. intros j [c s] Hj.
  pose proof (lookup_lt_Some _ _ _ Hj) as Hlt. rewrite fold_step_length in Hlt.
  pose proof (fold_complete (length (pool_calls p')) p' ltac:(lia) j c s Hlt Hj) as Hs.
  by destruct s.
Qed.

(** A property of calls that every step keeps holds in every schedule. *)
Lemma run_pool_forall (P : ToolCallRequest → CallState → Prop) schedule p :
  (∀ c s w, P c s → P c (call_step tools i secrets c s w).1.1) →
  Forall (λ cs, P cs.1 cs.2) (pool_calls p) →
  ∀ ks, Forall (λ cs, P cs.1 cs.2) (pool_calls (fold_left step (schedule ++ ks) p)).
Proof.
  intros HP Hp ks. rewrite fold_left_app. generalize (schedule ++ ks). intros l.
  assert (∀ l p, Forall (λ cs, P cs.1 cs.2) (pool_calls p) →
    Forall (λ cs, P cs.1 cs.2) (pool_calls (fold_left step l p))) as Hfold; [|by apply Hfold, Hfold].
  clear -HP. intros l. induction l as [|k l IH]; intros p Hp; simpl; [done|]. apply IH.
  unfold pool_step. destruct (pool_calls p !! k) as [[c s]|] eqn:E; [|done].
  destruct (in_flight _ _ _); [|done].
  specialize (HP c s (pool_world p)).
  destruct (call_step _ _ _ _ _ _) as [[s' evs] w']. simpl in *.
  apply Forall_insert; [done|]. apply HP. by apply (Forall_lookup_1 _ _ _ _ Hp E).
Qed.

Lemma pool_start_forall (P : ToolCallRequest → CallState → Prop) calls (w : W) :
  (∀ c, P c CallStart) → Forall (λ cs, P cs.1 cs.2) (pool_calls (pool_start calls w)).
Proof. intros HP. apply Forall_fmap, Forall_true. intros c. apply HP. Qed.

Lemma pool_start_calls calls (w : W) : (pool_calls (pool_start calls w)).*1 = calls.
Proof. unfold pool_start. simpl. induction calls as [|c calls IH]; csimpl; congruence. Qed.

(** Only denials are pushed. *)
Lemma fold_step_denied ks p :
  Forall (λ ev, ∃ tool reason, ev = PermissionDenied tool reason) (pool_denied p) →
  Forall (λ ev, ∃ tool reason, ev = PermissionDenied tool reason)
    (pool_denied (fold_left step ks p)).
Proof.
  revert p. induction ks as [|k ks IH]; intros p Hp; simpl; [done|]. apply IH.
  unfold pool_step. destruct (pool_calls p !! k) as [[c s]|]; [|done].
  destruct (in_flight _ _ _); [|done].
  assert (Forall (λ ev, ∃ tool reason, ev = PermissionDenied tool reason)
    (call_step tools i secrets c s (pool_world p)).1.2) as Hs.
  { destruct s as [|args|args|output|res]; simpl; try constructor.
    - destruct (call_pre _ _ _); constructor.
    - unfold call_authorize. destruct (authorize_tool _ _ _ _ _) as [[] w'];
        constructor; eauto.
    - destruct (call_invoke _ _ _ _); constructor.
    - destruct (call_post _ _ _ _); constructor. }
  destruct (call_step _ _ _ _ _ _) as [[s' evs] w']. simpl in *. by apply Forall_app.
Qed.

(** What a successful outcome is made of. *)
Definition output_final (c : ToolCallRequest) (s : CallState) : Prop :=
  match s with
  | CallDone (Ok content) =>
      ∃ v, content = finalize_tool_output v (i_redact_output i) secrets
  | _ => True
  end.

Lemma output_final_step c s w :
  output_final c s → output_final c (call_step tools i secrets c s w).1.1.
Proof.
  intros Hs. destruct s as [|args|args|output|res]; simpl in *; [..|done].
  - unfold call_pre. destruct (fire _ _ _) as [pre w']. by destruct (denied pre).
  - unfold call_authorize. by destruct (authorize_tool _ _ _ _ _) as [[] w'].
  - unfold call_invoke. destruct (find_tool _ _) as [t|]; [|done].
    by destruct (t_invoke t args w) as [[] w'].
  - unfold call_post. destruct (fire _ _ _) as [post w']. destruct (denied post); simpl; eauto.
Qed.

(** A pool of one call. *)
Definition step1 (c : ToolCallRequest) (x : CallState * list AgentEvent * W)
  : CallState * list AgentEvent * W :=
  let '(s, evs, w) := x in
  let '(s', evs', w') := call_step tools i secrets c s w in (s', evs ++ evs', w').

Definition finish1 (c : ToolCallRequest) (x : CallState * list AgentEvent * W) :=
  step1 c (step1 c (step1 c (step1 c x))).

Lemma step1_left c x : steps_left (step1 c x).1.1 ≤ steps_left x.1.1 - 1.
Proof.
  destruct x as [[s evs] w]. unfold step1. simpl. pose proof (call_step_left c s w).
  by destruct (call_step _ _ _ _ _ _) as [[s' evs'] w'].
Qed.

Lemma step1_done c x : steps_left x.1.1 = 0 → step1 c x = x.
Proof. destruct x as [[[] evs] w]; simpl; try done. by rewrite app_nil_r. Qed.

Lemma finish1_step c x : finish1 c (step1 c x) = finish1 c x.
Proof.
  unfold finish1. apply step1_done.
  pose proof (step1_left c x). pose proof (step1_left c (step1 c x)).
  pose proof (step1_left c (step1 c (step1 c x))).
  pose proof (step1_left c (step1 c (step1 c (step1 c x)))).
  assert (steps_left x.1.1 ≤ 4) by (destruct x as [[[] ?] ?]; simpl; lia). lia.
Qed.

Definition pool1 (c : ToolCallRequest) (x : CallState * list AgentEvent * W) : Pool :=
  mkPool [(c, x.1.1)] x.1.2 x.2.

Lemma pool1_step c x : step (pool1 c x) 0 = pool1 c (step1 c x).
Proof.
  destruct x as [[s evs] w]. unfold pool_step, pool1, in_flight. simpl.
  assert (match limit with
          | None => true
          | Some n => 0 <? match s with CallDone _ => 1 | _ => 0 end + Pos.to_nat n
          end = true) as ->.
  { destruct limit as [n|]; [|done]. apply Nat.ltb_lt. lia. }
  by destruct (call_step tools i secrets c s w) as [[s' evs'] w'].
Qed.

Lemma fold_pool1 c ks x :
  ∃ y, fold_left step ks (pool1 c x) = pool1 c y ∧ finish1 c y = finish1 c x.
Proof.
  revert x. induction ks as [|k ks IH]; intros x; simpl; [by exists x|].
  destruct k as [|k].
  - rewrite pool1_step. destruct (IH (step1 c x)) as (y & -> & Hy). exists y.
    by rewrite Hy, finish1_step.
  - by destruct (IH x) as (y & Hy & ?); exists y.
Qed.

Lemma run_pool1 schedule c w :
  run_pool tools i secrets limit schedule (pool_start [c] w)
  = pool1 c (finish1 c (CallStart, [], w)).
Proof.
  unfold run_pool. rewrite fold_left_app.
  change (pool_start [c] w) with (pool1 c (CallStart, [], w)).
  destruct (fold_pool1 c schedule (CallStart, [], w)) as (y & -> & Hy).
  rewrite <- Hy. simpl. by rewrite !pool1_step.
Qed.
End PoolLemmas.

(** *** Without hooks, in order *)

Section InOrder.
#[local] Open Scope nat_scope.
Context `{J : SerdeJson} `{G : Globset} `{R : !RustDebug} {W : Type}.
Variables (env : list (string * string)) (tools : list (Tool (W:=W))) (i : Interceptors (W:=W)).
Variable (limit : option positive).
Hypothesis no_agent_hooks : i_agent_hooks i = [].
Hypothesis no_run_hooks : i_run_hooks i = [].

#[local] Abbreviation secrets := (from_env_and_extra env (i_extra_secrets i)).
#[local] Abbreviation step := (pool_step tools i secrets limit).

Lemma fire_no_hooks ev (w : W) : fire i ev w = (mkResolvedHook None None [], w).
Proof using no_agent_hooks no_run_hooks. unfold fire. by rewrite no_agent_hooks, no_run_hooks. Qed.

Lemma execute_tool_call_id call w :
  tco_call_id (execute_tool_call env tools i call w).1.1 = tcr_call_id call.
Proof.
  unfold execute_tool_call. destruct (authorize_tool _ _ _ _ _) as [[| | |] w1]; try done.
  all: destruct (find_tool _ _) as [t|]; [|done]; by destruct (t_invoke t _ w1) as [[]].
Qed.

(** The future of a call, run to its end, is the hook-free pipeline. *)
Lemma finish1_no_hooks call evs w :
  finish1 tools i secrets call (CallStart, evs, w)
  = (let '(outcome, denial, w') := execute_tool_call env tools i call w in
     (CallDone (tco_result outcome), evs ++ option_list denial, w')).
Proof using no_agent_hooks no_run_hooks.
  unfold execute_tool_call, finish1, step1. simpl. unfold call_pre. rewrite fire_no_hooks. simpl.
  unfold call_authorize. destruct (authorize_tool _ _ _ _ _) as [[| | |] w1]; simpl;
    rewrite ?app_nil_r; try done.
  all: unfold call_invoke; destruct (find_tool _ _) as [t|]; simpl; rewrite ?app_nil_r; [|done].
  all: destruct (t_invoke t _ w1) as [[output|e] w2]; simpl; rewrite ?app_nil_r; [|done].
  all: unfold call_post; rewrite fire_no_hooks; simpl; by rewrite app_nil_r.
Qed.

(** The calls one after the other. *)
Fixpoint calls_in_order (calls : list ToolCallRequest) (w : W)
  : list ToolCallOutcome * list AgentEvent * W :=
  match calls with
  | [] => ([], [], w)
  | call :: calls' =>
      let '(outcome, denial, w) := execute_tool_call env tools i call w in
      let '(outcomes, denials, w) := calls_in_order calls' w in
      (outcome :: outcomes, option_list denial ++ denials, w)
  end.

Lemma step_front dn c s rest evs w :
  Forall (λ cs, is_done cs.2 = true) dn →
  step (mkPool (dn ++ (c, s) :: rest) evs w) (length dn)
  = (let '(s', evs', w') := step1 tools i secrets c (s, evs, w) in mkPool (dn ++ (c, s') :: rest) evs' w').
Proof.
  intros Hd. unfold pool_step. simpl. rewrite list_lookup_middle by done.
  assert (in_flight limit (dn ++ (c, s) :: rest) (length dn) = true) as ->.
  { unfold in_flight. destruct limit as [n|]; [|done]. apply Nat.ltb_lt.
    enough (length dn ≤ first_pending (dn ++ (c, s) :: rest)) by lia.
    apply first_pending_ge; [rewrite length_app; lia|]. intros j c' s' Hj Hl.
    rewrite lookup_app_l in Hl by done. apply list_elem_of_lookup_2 in Hl.
    rewrite Forall_forall in Hd. by destruct s'; specialize (Hd _ Hl). }
  destruct (call_step _ _ _ _ _ _) as [[s' evs'] w'].
  by rewrite <- (Nat.add_0_r (length dn)), insert_app_r.
Qed.

Lemma calls_in_order_denials calls w :
  Forall (λ ev, ∃ tool reason, ev = PermissionDenied tool reason) (calls_in_order calls w).1.2.
Proof.
  revert w. induction calls as [|c calls IH]; intros w; simpl; [constructor|].
  destruct (execute_tool_call env tools i c w) as [[outcome denial] w1] eqn:E. specialize (IH w1).
  destruct (calls_in_order calls w1) as [[outcomes denials] w2]. simpl in *. apply Forall_app_2; [|done].
  unfold execute_tool_call in E. destruct (authorize_tool _ _ _ _ _) as [[| | |] w3];
    repeat case_match; simplify_eq/=; repeat constructor; eauto.
Qed.

(** The four steps the completion grants the first call that is left. *)
Lemma step_front_four dn c s rest evs w :
  Forall (λ cs, is_done cs.2 = true) dn →
  fold_left step [length dn; length dn; length dn; length dn] (mkPool (dn ++ (c, s) :: rest) evs w)
  = (let '(s', evs', w') := finish1 tools i secrets c (s, evs, w) in mkPool (dn ++ (c, s') :: rest) evs' w').
Proof.
  intros Hd. simpl. unfold finish1. rewrite step_front by done.
  destruct (step1 tools i secrets c (s, evs, w)) as [[s1 e1] w1]. rewrite step_front by done.
  destruct (step1 tools i secrets c (s1, e1, w1)) as [[s2 e2] w2]. rewrite step_front by done.
  destruct (step1 tools i secrets c (s2, e2, w2)) as [[s3 e3] w3]. by rewrite step_front.
Qed.

Lemma run_pool_in_order dn calls evs w :
  Forall (λ cs, is_done cs.2 = true) dn →
  let p := fold_left step (flat_map (λ k, [k; k; k; k]) (seq (length dn) (length calls)))
    (mkPool (dn ++ ((λ c, (c, CallStart)) <$> calls)) evs w) in
  let '(outcomes, denials, w') := calls_in_order calls w in
  outcome_of <$> pool_calls p = (outcome_of <$> dn) ++ outcomes
  ∧ pool_denied p = evs ++ denials ∧ pool_world p = w'.
Proof using no_agent_hooks no_run_hooks.
  revert dn evs w. induction calls as [|c calls IH]; intros dn evs w Hd; [by simpl; rewrite !app_nil_r|].
  cbn [length seq flat_map fmap list_fmap calls_in_order].
  rewrite fold_left_app, step_front_four, finish1_no_hooks by done.
  pose proof (execute_tool_call_id c w) as Hid.
  destruct (execute_tool_call env tools i c w) as [[outcome denial] w1]. simpl in Hid.
  specialize (IH (dn ++ [(c, CallDone (tco_result outcome))]) (evs ++ option_list denial) w1
    ltac:(by apply Forall_app_2, Forall_singleton)).
  rewrite length_app, Nat.add_1_r, <- (assoc_L (++)) in IH. simpl in IH.
  destruct (calls_in_order calls w1) as [[outcomes denials] w2]. destruct IH as (-> & -> & ->).
  rewrite fmap_app, <- !(assoc_L (++)). split_and!; try done. simpl. unfold outcome_of at 2. simpl.
  rewrite <- Hid. by destruct outcome.
Qed.

Lemma run_tools_in_order calls w :
  run_tools_concurrent env limit tools i [] calls w = calls_in_order calls w.
Proof using no_agent_hooks no_run_hooks.
  pose proof (run_pool_in_order [] calls [] w ltac:(constructor)) as H.
  unfold run_tools_concurrent, run_tools, run_pool, complete. simpl app. unfold pool_start.
  cbn [pool_calls]. rewrite length_fmap. simpl in H. destruct (calls_in_order calls w) as [[os ds] w'].
  by destruct H as (-> & -> & ->).
Qed.
End InOrder.

(** ** Tools behind a deny rule *)

Section Denied.
Context `{J : SerdeJson} `{G : Globset} `{R : !RustDebug} {W : Type}.
Variables (i : Interceptors (W:=W)) (name : string).

Definition always_denied : Prop :=
  ∃ r, r ∈ p_deny_rules (i_permissions i) ∧ ∀ args, DenyRule_matches r name args = true.

(** Two tools that may differ in their implementation when they have the name. *)
Definition same_but (t1 t2 : Tool (W:=W)) : Prop :=
  t_name t1 = t_name t2 ∧ t_effect t1 = t_effect t2 ∧ (t_name t1 = name ∨ t1 = t2).

Definition not_invoked (c : ToolCallRequest) (s : CallState) : Prop :=
  tcr_name c = name → ∀ args, s ≠ CallInvoke args.

Lemma find_tool_same tools1 tools2 n :
  Forall2 same_but tools1 tools2 →
  match find_tool tools1 n, find_tool tools2 n with
  | Some t1, Some t2 => same_but t1 t2 ∧ t_name t1 = n
  | None, None => True
  | _, _ => False
  end.
Proof.
  induction 1 as [|t1 t2 ts1 ts2 Hs _ IH]; simpl; [done|]. destruct Hs as (Hn & He & Ht).
  rewrite <- Hn. destruct (String.eqb_spec (t_name t1) n); [|done]. by split_and!.
Qed.

Lemma not_invoked_step tools secrets c s w :
  always_denied → not_invoked c s → not_invoked c (call_step tools i secrets c s w).1.1.
Proof.
  intros (r & Hr & Hm) Hs Hn. specialize (Hs Hn).
  destruct s as [|args|args|output|res]; simpl; try done.
  - unfold call_pre. destruct (fire _ _ _) as [pre w']. by destruct (denied pre).
  - unfold call_authorize, authorize_tool, denied_by_rule.
    fold (denied_by_rule (i_permissions i) (tcr_name c) args).
    by rewrite (rule_in_denied _ r _ _ Hr) by (rewrite Hn; apply Hm).
  - by destruct (Hs args).
  - unfold call_post. destruct (fire _ _ _) as [post w']. by destruct (denied post).
Qed.

Lemma call_step_same tools1 tools2 secrets c s w :
  Forall2 same_but tools1 tools2 → not_invoked c s →
  call_step tools1 i secrets c s w = call_step tools2 i secrets c s w.
Proof.
  intros Hts Hs. pose proof (find_tool_same _ _ (tcr_name c) Hts) as Hf.
  destruct s as [|args|args|output|res]; simpl; try done.
  - unfold call_authorize, call_effect.
    destruct (find_tool tools1 _) as [t1|], (find_tool tools2 _) as [t2|]; try done.
    by destruct Hf as [(_ & -> & _) _].
  - unfold call_invoke.
    destruct (find_tool tools1 _) as [t1|], (find_tool tools2 _) as [t2|]; try done.
    destruct Hf as [(Hn & _ & [Ht| ->]) Hname]; [|done].
    by destruct (Hs ltac:(congruence) args).
Qed.

Lemma fold_step_same tools1 tools2 secrets limit ks p :
  always_denied → Forall2 same_but tools1 tools2 →
  Forall (λ cs, not_invoked cs.1 cs.2) (pool_calls p) →
  fold_left (pool_step tools1 i secrets limit) ks p
  = fold_left (pool_step tools2 i secrets limit) ks p.
Proof.
  intros Hd Hts. revert p. induction ks as [|k ks IH]; intros p Hp; simpl; [done|].
  assert (pool_step tools1 i secrets limit p k = pool_step tools2 i secrets limit p k) as Heq.
  { unfold pool_step. destruct (pool_calls p !! k) as [[c s]|] eqn:E; [|done].
    pose proof (Forall_lookup_1 _ _ _ _ Hp E) as Hs. simpl in Hs.
    by rewrite (call_step_same tools1 tools2). }
  rewrite Heq. apply IH. unfold pool_step.
  destruct (pool_calls p !! k) as [[c s]|] eqn:E; [|done]. destruct (in_flight _ _ _); [|done].
  pose proof (Forall_lookup_1 _ _ _ _ Hp E) as Hs.
  pose proof (not_invoked_step tools2 secrets c s (pool_world p) Hd Hs) as Hs'.
  destruct (call_step _ _ _ _ _ _) as [[s' evs] w']. by apply Forall_insert.
Qed.
End Denied.

Lemma run_tools_ids `{J : SerdeJson} `{G : Globset} `{R : !RustDebug} {W : Type}
    env limit (tools : list (Tool (W:=W))) i schedule calls w :
  tco_call_id <$> (run_tools_concurrent env limit tools i schedule calls w).1.1 = tcr_call_id <$> calls.
Proof.
  unfold run_tools_concurrent, run_tools, run_pool. simpl. rewrite <- list_fmap_compose.
  change (tco_call_id ∘ outcome_of) with (tcr_call_id ∘ (λ cs : ToolCallRequest * CallState, cs.1)).
  by rewrite list_fmap_compose, fold_step_calls, pool_start_calls.
Qed.

(** C9. However the calls of a turn interleave and whatever the concurrency
    limit, [run_tools_concurrent] resolves every call and returns the outcomes
    in the order of the calls; the only events it pushes are denials. *)
Theorem tool_outcomes_ordered `{J : SerdeJson} `{G : Globset} `{R : !RustDebug} {W : Type}
    env limit (tools : list (Tool (W:=W))) i schedule calls w :
  let '(outcomes, denials, _) := run_tools_concurrent env limit tools i schedule calls w in
  tco_call_id <$> outcomes = tcr_call_id <$> calls
  ∧ Forall (λ ev, ∃ tool reason, ev = PermissionDenied tool reason) denials
  ∧ Forall (λ cs, is_done cs.2 = true)
      (pool_calls (run_pool tools i (from_env_and_extra env (i_extra_secrets i)) limit schedule
         (pool_start calls w))).
Proof.
  pose proof (run_tools_ids env limit tools i schedule calls w) as Hids. revert Hids.
  unfold run_tools_concurrent, run_tools. simpl. intros Hids. split_and!.
  - exact Hids.
  - by apply fold_step_denied.
  - apply run_pool_done.
Qed.

(** C10. Redaction is the last transformation of a tool's output: whatever the
    tools and the hooks do, with redaction on the text of a successful outcome
    is the rendering of a redacted value, and when that value is a string it
    contains none of the ([*]-free) secrets. *)
Theorem tool_output_redacted `{J : SerdeJson} `{L : !SerdeJsonLaws} `{G : Globset}
    `{R : !RustDebug} {W : Type} env limit (tools : list (Tool (W:=W))) i schedule calls w :
  let secrets := from_env_and_extra env (i_extra_secrets i) in
  i_redact_output i = true →
  Forall star_free (secret_values secrets) →
  Forall (λ o, ∀ content, tco_result o = Ok content →
    ∃ v, content = tool_output_to_content_parts (redact v secrets)
      ∧ ∀ text secret, as_str (redact v secrets) = Some text → secret ∈ secret_values secrets →
          content = [Text text] ∧ contains_str text secret = false)
    (run_tools_concurrent env limit tools i schedule calls w).1.1.
Proof.
  intros secrets Hr Hstar. unfold run_tools_concurrent, run_tools. simpl. apply Forall_fmap.
  assert (Forall (λ cs, output_final i secrets cs.1 cs.2) (pool_calls
    (run_pool tools i secrets limit schedule (pool_start calls w)))) as Hf.
  { apply run_pool_forall; [apply output_final_step|]. by apply pool_start_forall. }
  eapply Forall_weaken; [exact Hf|]. intros [c s]. unfold outcome_of. simpl.
  destruct s as [| | | |res]; try done. simpl. intros Hs content ->.
  destruct Hs as [v ->]. rewrite Hr. exists v. split; [done|]. intros text secret Ht Hin.
  unfold finalize_tool_output, tool_output_to_content_parts. fold secrets. rewrite Ht. split; [done|].
  apply (redact_removes_secrets env (i_extra_secrets i) v); [done..|]. by constructor.
Qed.

(** A tool behind a deny rule is inert: whatever hooks, policies, modes and
    approvals say, replacing its implementation changes neither the outcomes
    nor the events nor the world of any run of the calls. *)
Theorem denied_tool_inert `{J : SerdeJson} `{G : Globset} `{R : !RustDebug} {W : Type}
    env limit (tools1 tools2 : list (Tool (W:=W))) i name schedule calls w :
  always_denied i name → Forall2 (same_but name) tools1 tools2 →
  run_tools_concurrent env limit tools1 i schedule calls w
  = run_tools_concurrent env limit tools2 i schedule calls w.
Proof.
  intros Hd Hts. unfold run_tools_concurrent, run_tools, run_pool.
  rewrite (fold_step_same i name tools1 tools2); [done..|].
  by apply pool_start_forall.
Qed.

(** The durable runner's pipeline agrees with the agent loop: without hooks,
    a call executed in the loop (alone in its turn, under any schedule and
    limit) gives the outcome, the denial event and the effects of
    [execute_tool_call]. *)
Theorem execute_tool_call_agrees `{J : SerdeJson} `{G : Globset} `{R : !RustDebug} {W : Type}
    env limit (tools : list (Tool (W:=W))) i schedule call w :
  i_agent_hooks i = [] → i_run_hooks i = [] →
  run_tools_concurrent env limit tools i schedule [call] w
  = (let '(outcome, denial, w') := execute_tool_call env tools i call w in
     ([outcome], option_list denial, w')).
Proof.
  intros Ha Hh. unfold run_tools_concurrent, run_tools.
  rewrite run_pool1, finish1_no_hooks by done. pose proof (execute_tool_call_id env tools i call w) as Hid.
  destruct (execute_tool_call env tools i call w) as [[outcome denial] w']. simpl in *.
  unfold outcome_of. simpl. rewrite <- Hid. by destruct outcome.
Qed.

(** *** Witnesses: a tool that leaks a secret, one that is denied *)

Module ToolsDemo.
#[local] Existing Instance Toy.json.
#[local] Existing Instance Demo.globset.

#[export] Instance debug : RustDebug := {|
  debug_strings l := "[" +:+ String.concat ", " l +:+ "]";
  debug_guardrail_kind _ := "InputPolicy";
|}.

(** The world counts invocations. *)
Definition tool (name : string) (out : Value) : Tool (W:=nat) :=
  mkTool name "" VNull ReadOnly (λ _ n, (Ok out, S n)).

Definition tools (denied_out : Value) : list (Tool (W:=nat)) :=
  [tool "env" (VString "it is hunter2hunter2"); tool "bad" denied_out].

Definition ic : Interceptors (W:=nat) :=
  mkInterceptors
    (mkPermissions ModeDefault None [DenyRule_tool "bad"] [] None [] true) [] [] [] [] true
    ["hunter2hunter2"].

Definition calls : list ToolCallRequest :=
  [mkToolCallRequest "1" "env" VNull; mkToolCallRequest "2" "bad" VNull].
End ToolsDemo.

#[local] Existing Instance Toy.json.
#[local] Existing Instance Toy.json_laws.
#[local] Existing Instance Demo.globset.
#[local] Existing Instance ToolsDemo.debug.

Lemma tool_output_redacted_witness :
  (run_tools_concurrent [] (Some 1%positive) (ToolsDemo.tools VNull) ToolsDemo.ic [1; 0; 1]%nat
     ToolsDemo.calls 0%nat).1.1
  = [mkToolCallOutcome "1" (Ok [Text "it is ***"]);
     mkToolCallOutcome "2" (Err "permission denied: denied by deny rule: bad")]
  ∧ ∃ v, [Text "it is ***"]
      = tool_output_to_content_parts (redact v (from_env_and_extra [] ["hunter2hunter2"])).
Proof.
  split; [vm_compute; reflexivity|].
  pose proof (tool_output_redacted [] (Some 1%positive) (ToolsDemo.tools VNull) ToolsDemo.ic
    [1; 0; 1]%nat ToolsDemo.calls 0%nat eq_refl ltac:(vm_compute; repeat constructor)) as Hf.
  destruct (proj1 (Forall_cons _ _ _) Hf) as [H1 _].
  destruct (H1 [Text "it is ***"] eq_refl) as (v & Hv & _).
  exists v. exact Hv.
Defined.

Lemma denied_tool_inert_witness :
  run_tools_concurrent [] None (ToolsDemo.tools VNull) ToolsDemo.ic [1; 0]%nat ToolsDemo.calls 0%nat
  = run_tools_concurrent [] None (ToolsDemo.tools (VString "boom")) ToolsDemo.ic [1; 0]%nat
      ToolsDemo.calls 0%nat.
Proof.
  apply (denied_tool_inert [] None _ _ ToolsDemo.ic "bad").
  - exists (DenyRule_tool "bad"). split; [left|]. intros args. reflexivity.
  - constructor; [by split_and!; [..|right]|]. constructor; [by split_and!; [..|left]|constructor].
Defined.

Lemma execute_tool_call_agrees_witness :
  run_tools_concurrent [] None (ToolsDemo.tools VNull) ToolsDemo.ic []
    [mkToolCallRequest "1" "env" VNull] 0%nat
  = ([mkToolCallOutcome "1" (Ok [Text "it is ***"])], [], 1%nat).
Proof.
  exact (execute_tool_call_agrees [] None (ToolsDemo.tools VNull) ToolsDemo.ic []
    (mkToolCallRequest "1" "env" VNull) 0%nat eq_refl eq_refl).
Defined.
