(* ===== verification/ModelTurn.v ===== *)
(** Accumulation of a model stream into one turn: [ModelTurnAccumulator] and
    [build_items] of core/src/model.rs.  The [BTreeMap] of tool calls is an
    association list kept sorted by key ([btree_alter]). *)

From Stdlib Require Import OrdersEx.
From S2P Require Import Prelude Json Items.

(** ** Ordered string maps *)

Definition str_lt (a b : string) : Prop := String.compare a b = Lt.

#[export] Instance str_lt_strict : StrictOrder str_lt := String_as_OT.lt_strorder.

Lemma str_compare_spec a b : CompareSpec (a = b) (str_lt a b) (str_lt b a) (String.compare a b).
Proof. apply String_as_OT.compare_spec. Qed.

Section BTree.
Context {V : Type}.

(** [map.entry(k).or_default()] followed by an update of the entry. *)
Fixpoint btree_alter (d : V) (f : V → V) (k : string) (m : list (string * V))
  : list (string * V) :=
  match m with
  | [] => [(k, f d)]
  | (k', v) :: m' =>
      match String.compare k k' with
      | Lt => (k, f d) :: m
      | Eq => (k', f v) :: m'
      | Gt => (k', v) :: btree_alter d f k m'
      end
  end.

Fixpoint btree_get (k : string) (m : list (string * V)) : option V :=
  match m with
  | [] => None
  | (k', v) :: m' => if String.eqb k k' then Some v else btree_get k m'
  end.

(** Keys strictly increase. *)
Fixpoint btree_sorted (m : list (string * V)) : Prop :=
  match m with
  | [] => True
  | (k, _) :: m' => Forall (λ kv, str_lt k (fst kv)) m' ∧ btree_sorted m'
  end.

Lemma btree_alter_keys d f k m P :
  Forall (λ kv, P (fst kv)) m → P k → Forall (λ kv, P (fst kv)) (btree_alter d f k m).
Proof.
  induction 1 as [|[k' v] m Hv Hm IH]; intros Hk; simpl; [by repeat constructor|].
  destruct (String.compare k k'); repeat constructor; auto.
Qed.

Lemma btree_alter_sorted d f k m : btree_sorted m → btree_sorted (btree_alter d f k m).
Proof.
  induction m as [|[k' v] m IH]; simpl; [done|]. intros [Hlt Hs].
  destruct (str_compare_spec k k') as [->|Hk|Hk]; simpl; [done| |].
  - split_and!; [|done..]. constructor; [done|].
    eapply Forall_weaken; [exact Hlt|]. simpl. intros x Hx. by etrans.
  - split; [|by apply IH]. by apply (btree_alter_keys d f k m (str_lt k')).
Qed.

Lemma btree_get_lt k m : Forall (λ kv, str_lt k (fst kv)) m → btree_get k m = None.
Proof.
  induction 1 as [|[k' v] m Hv _ IH]; simpl in *; [done|].
  destruct (String.eqb_spec k k') as [->|]; [|done]. by apply irreflexivity in Hv; [|apply _].
Qed.

Lemma btree_get_alter d f k k0 m :
  btree_sorted m →
  btree_get k0 (btree_alter d f k m)
  = if String.eqb k0 k then Some (f (default d (btree_get k m))) else btree_get k0 m.
Proof.
  induction m as [|[k' v] m IH]; simpl; [by destruct (String.eqb k0 k)|]. intros [Hlt Hs].
  destruct (str_compare_spec k k') as [->|Hk|Hk]; simpl.
  - rewrite String.eqb_refl. by destruct (String.eqb k0 k').
  - destruct (String.eqb_spec k k') as [->|]; [by apply irreflexivity in Hk; [|apply _]|].
    rewrite (btree_get_lt k m).
    2:{ eapply Forall_weaken; [exact Hlt|]. simpl. intros x Hx. by etrans. }
    by destruct (String.eqb k0 k).
  - destruct (String.eqb_spec k k') as [->|]; [by apply irreflexivity in Hk; [|apply _]|].
    rewrite IH by done. destruct (String.eqb_spec k0 k') as [->|]; [|done].
    destruct (String.eqb_spec k' k) as [->|]; [by apply irreflexivity in Hk; [|apply _]|done].
Qed.

(** Sorted maps with the same lookups are equal. *)
Lemma btree_ext m1 m2 :
  btree_sorted m1 → btree_sorted m2 → (∀ k, btree_get k m1 = btree_get k m2) → m1 = m2.
Proof.
  revert m2. induction m1 as [|[k v] m1 IH]; intros [|[k' v'] m2] S1 S2 Hg; simpl in *.
  - done.
  - specialize (Hg k'). by rewrite String.eqb_refl in Hg.
  - specialize (Hg k). by rewrite String.eqb_refl in Hg.
  - destruct S1 as [L1 S1], S2 as [L2 S2].
    assert (k = k') as <-.
    { pose proof (Hg k) as H1. pose proof (Hg k') as H2. rewrite String.eqb_refl in H1, H2.
      destruct (str_compare_spec k k') as [->|Hk|Hk]; [done|exfalso..].
      - destruct (String.eqb_spec k k') as [->|]; [by apply irreflexivity in Hk; [|apply _]|].
        rewrite btree_get_lt in H1; [done|].
        eapply Forall_weaken; [exact L2|]. simpl. intros x Hx. by etrans.
      - destruct (String.eqb_spec k' k) as [->|]; [by apply irreflexivity in Hk; [|apply _]|].
        rewrite btree_get_lt in H2; [done|].
        eapply Forall_weaken; [exact L1|]. simpl. intros x Hx. by etrans. }
    assert (v = v') as <-.
    { specialize (Hg k). rewrite String.eqb_refl in Hg. by injection Hg. }
    f_equal. apply IH; [done..|]. intros k0. specialize (Hg k0).
    destruct (String.eqb k0 k) eqn:E; [|done]. apply String.eqb_eq in E. subst k0.
    by rewrite !btree_get_lt.
Qed.

Lemma btree_get_In k v m : btree_sorted m → btree_get k m = Some v ↔ (k, v) ∈ m.
Proof.
  induction m as [|[k' v'] m IH]; simpl; [intros _; rewrite elem_of_nil; done|].
  intros [L S]. rewrite elem_of_cons. destruct (String.eqb_spec k k') as [->|Hne].
  - split; [intros [= ->]; by left|]. intros [[= ->]|Hin]; [done|].
    rewrite Forall_forall in L. specialize (L _ Hin). simpl in L.
    by apply irreflexivity in L; [|apply _].
  - rewrite IH by done. naive_solver.
Qed.
End BTree.

(** ** The accumulator *)

Section ModelTurn.
Context `{J : SerdeJson}.

Record ModelTurn := mkModelTurn {
  mt_items : list Item;
  mt_usage : TokenUsage;
  mt_finish_reason : FinishReason;
}.

Record ToolCallAccum := mkToolCallAccum { tca_name : option string; args_str : string }.

Definition ToolCallAccum_default : ToolCallAccum := mkToolCallAccum None "".

Record ModelTurnAccumulator := mkAccumulator {
  agent_name : string;
  text : string;
  reasoning : string;
  tool_accum : list (string * ToolCallAccum);
  finish_reason : FinishReason;
  latest_usage : option TokenUsage;
}.

Definition ModelTurnAccumulator_new (name : string) : ModelTurnAccumulator :=
  mkAccumulator name "" "" [] Stop None.

(** The update of one tool call's entry: the first name wins, the argument
    deltas are concatenated. *)
Definition accum_delta (name : option string) (args_delta : string) (a : ToolCallAccum)
  : ToolCallAccum :=
  mkToolCallAccum (match tca_name a with Some n => Some n | None => name end)
    (args_str a +:+ args_delta).

Definition usage_of_event (input output : Z) (cached reasoning : option Z) : TokenUsage :=
  mkTokenUsage input output (default 0%Z cached) (default 0%Z reasoning)
    (u64_add input output).

Definition observe (acc : ModelTurnAccumulator) (event : ModelEvent)
  : ModelTurnAccumulator :=
  let '(mkAccumulator a t r m f u) := acc in
  match event with
  | METokenDelta d => mkAccumulator a (t +:+ d) r m f u
  | MEReasoningDelta d => mkAccumulator a t (r +:+ d) m f u
  | METoolCallDelta call_id name args_delta =>
      mkAccumulator a t r
        (btree_alter ToolCallAccum_default (accum_delta name args_delta) call_id m) f u
  | MEUsage i o c rt => mkAccumulator a t r m f (Some (usage_of_event i o c rt))
  | MEFinish reason => mkAccumulator a t r m reason u
  end.

Definition assistant_items (agent_name text reasoning : string) : list Item :=
  if negb (is_empty text) || negb (is_empty reasoning) then
    [AssistantMessage
       ((if is_empty reasoning then [] else [Reasoning reasoning]) ++
        (if is_empty text then [] else [Text text])) (Some agent_name)]
  else [].

(** The [ToolCall] item of one accumulated call; blank arguments are [{}]. *)
Definition tool_call_item (call_id : string) (accum : ToolCallAccum)
  : result Item string :=
  let args_str := if is_empty (trim (args_str accum)) then "{}" else args_str accum in
  match from_str args_str with
  | Ok args => Ok (ToolCall call_id (default "" (tca_name accum)) args)
  | Err e =>
      Err ("invalid tool args for call_id=" +:+ call_id +:+ " (name=" +:+
           default "?" (tca_name accum) +:+ "): " +:+ e)
  end.

(** The loop over the map in key order, with the early return of [?]. *)
Fixpoint tool_call_items (m : list (string * ToolCallAccum)) : result (list Item) string :=
  match m with
  | [] => Ok []
  | (call_id, accum) :: m' =>
      match tool_call_item call_id accum with
      | Err e => Err e
      | Ok i => match tool_call_items m' with Ok its => Ok (i :: its) | Err e => Err e end
      end
  end.

Definition build_items (agent_name text reasoning : string)
    (m : list (string * ToolCallAccum)) : result (list Item) string :=
  match tool_call_items m with
  | Ok calls => Ok (assistant_items agent_name text reasoning ++ calls)
  | Err e => Err e
  end.

Definition finish (acc : ModelTurnAccumulator) : result ModelTurn string :=
  match build_items (agent_name acc) (text acc) (reasoning acc) (tool_accum acc) with
  | Ok items =>
      Ok (mkModelTurn items (default TokenUsage_default (latest_usage acc))
            (finish_reason acc))
  | Err e => Err e
  end.

Definition observe_all (name : string) (evs : list ModelEvent) : ModelTurnAccumulator :=
  fold_left observe evs (ModelTurnAccumulator_new name).

(** ** Correctness

    A stream is specified channel by channel: the text, the reasoning, each
    call's deltas, the last usage and the last finish reason. *)

Definition text_deltas (evs : list ModelEvent) : list string :=
  omap (λ ev, match ev with METokenDelta d => Some d | _ => None end) evs.

Definition reasoning_deltas (evs : list ModelEvent) : list string :=
  omap (λ ev, match ev with MEReasoningDelta d => Some d | _ => None end) evs.

Definition call_deltas (k : string) (evs : list ModelEvent) : list (option string * string) :=
  omap (λ ev, match ev with
    | METoolCallDelta c n d => if String.eqb k c then Some (n, d) else None
    | _ => None end) evs.

Definition usage_events (evs : list ModelEvent) : list TokenUsage :=
  omap (λ ev, match ev with
    | MEUsage i o c r => Some (usage_of_event i o c r) | _ => None end) evs.

Definition finish_events (evs : list ModelEvent) : list FinishReason :=
  omap (λ ev, match ev with MEFinish r => Some r | _ => None end) evs.

Definition same_channels (evs1 evs2 : list ModelEvent) : Prop :=
  text_deltas evs1 = text_deltas evs2
  ∧ reasoning_deltas evs1 = reasoning_deltas evs2
  ∧ (∀ k, call_deltas k evs1 = call_deltas k evs2)
  ∧ usage_events evs1 = usage_events evs2
  ∧ finish_events evs1 = finish_events evs2.

Definition concat_all (l : list string) : string := foldr String.append "" l.

Definition first_name (l : list (option string * string)) : option string :=
  find_map fst l.

(** What a call's deltas amount to. *)
Definition call_spec (l : list (option string * string)) : option ToolCallAccum :=
  match l with
  | [] => None
  | _ => Some (mkToolCallAccum (first_name l) (concat_all (snd <$> l)))
  end.

Lemma concat_all_snoc l s : concat_all (l ++ [s]) = concat_all l +:+ s.
Proof.
  induction l as [|x l IH]; simpl; [by rewrite string_app_nil_r|].
  by rewrite IH, string_app_assoc.
Qed.

Lemma find_map_app {A B} (f : A → option B) l1 l2 :
  find_map f (l1 ++ l2) = match find_map f l1 with Some y => Some y | None => find_map f l2 end.
Proof. induction l1 as [|x l1 IH]; simpl; [done|]. by destruct (f x). Qed.

Lemma call_spec_snoc l n d :
  call_spec (l ++ [(n, d)])
  = Some (accum_delta n d (default ToolCallAccum_default (call_spec l))).
Proof.
  assert (call_spec (l ++ [(n, d)]) = Some (mkToolCallAccum (first_name (l ++ [(n, d)]))
    (concat_all (snd <$> l ++ [(n, d)])))) as -> by by destruct l.
  unfold first_name. rewrite fmap_app. simpl. rewrite concat_all_snoc, find_map_app. simpl.
  unfold accum_delta, call_spec, first_name.
  destruct l as [|[n0 d0] l]; simpl; [by destruct n|].
  destruct n0; [done|]. by destruct (find_map fst l), n.
Qed.

Record acc_spec (name : string) (evs : list ModelEvent) (acc : ModelTurnAccumulator) : Prop := {
  spec_name : agent_name acc = name;
  spec_text : text acc = concat_all (text_deltas evs);
  spec_reasoning : reasoning acc = concat_all (reasoning_deltas evs);
  spec_sorted : btree_sorted (tool_accum acc);
  spec_calls : ∀ k, btree_get k (tool_accum acc) = call_spec (call_deltas k evs);
  spec_usage : latest_usage acc = last (usage_events evs);
  spec_finish : finish_reason acc = default Stop (last (finish_events evs));
}.

Lemma observe_spec name evs acc ev :
  acc_spec name evs acc → acc_spec name (evs ++ [ev]) (observe acc ev).
Proof.
  intros [Hn Ht Hr Hs Hc Hu Hf]. destruct acc as [a t r m f u]; simpl in *.
  destruct ev; split; simpl;
    unfold text_deltas, reasoning_deltas, call_deltas, usage_events, finish_events in *;
    rewrite ?omap_app; simpl;
    rewrite ?app_nil_r, ?last_snoc; try done;
    try (by rewrite concat_all_snoc; congruence);
    try (intros k; rewrite omap_app; simpl; rewrite ?app_nil_r; apply Hc).
  - by apply btree_alter_sorted.
  - intros k. rewrite omap_app, btree_get_alter by done. simpl.
    destruct (String.eqb_spec k call_id) as [->|]; simpl; [|by rewrite app_nil_r].
    by rewrite call_spec_snoc, Hc.
Qed.

Lemma observe_all_spec name evs : acc_spec name evs (observe_all name evs).
Proof.
  induction evs as [|ev evs IH] using rev_ind; [by split|].
  unfold observe_all in *. rewrite fold_left_app. by apply observe_spec.
Qed.

Lemma acc_spec_ext name evs1 evs2 a1 a2 :
  same_channels evs1 evs2 → acc_spec name evs1 a1 → acc_spec name evs2 a2 → a1 = a2.
Proof.
  intros (Et & Er & Ec & Eu & Ef) [Hn1 Ht1 Hr1 Hs1 Hc1 Hu1 Hf1] [Hn2 Ht2 Hr2 Hs2 Hc2 Hu2 Hf2].
  destruct a1, a2; simpl in *. f_equal; try congruence.
  apply btree_ext; [done..|]. intros k. by rewrite Hc1, Hc2, Ec.
Qed.

Lemma tool_call_items_ok m items :
  tool_call_items m = Ok items ↔
  Forall2 (λ kv i, tool_call_item (fst kv) (snd kv) = Ok i) m items.
Proof.
  revert items. induction m as [|[k a] m IH]; intros items; simpl.
  - split; [intros [= <-]; constructor|]. by inversion 1.
  - destruct (tool_call_item k a) as [i|e] eqn:Hi.
    + destruct (tool_call_items m) as [its|e] eqn:Hm; split.
      * intros [= <-]. constructor; [done|]. by apply IH.
      * inversion 1 as [|? ? ? ? Hi' Hr]; simplify_eq/=. apply IH in Hr. congruence.
      * done.
      * inversion 1 as [|? ? ? ? Hi' Hr]; simplify_eq/=. apply IH in Hr. congruence.
    + split; [done|]. inversion 1; simplify_eq/=; congruence.
Qed.
End ModelTurn.

(** The interleaving of a provider's stream does not matter: two streams
    with the same text, reasoning, per-call deltas, usage and finish events
    (each in its own order) give the same turn, with the tool calls sorted by
    call id. *)
Theorem turn_of_channels `{J : SerdeJson} name evs1 evs2 :
  same_channels evs1 evs2 →
  finish (observe_all name evs1) = finish (observe_all name evs2).
Proof.
  intros H. by rewrite (acc_spec_ext name evs1 evs2 _ (observe_all name evs2) H
    (observe_all_spec name evs1) (observe_all_spec name evs2)).
Qed.

(** A finished turn is the concatenation of its stream: one assistant
    message with the concatenated reasoning and text (none when both are
    empty), then for each call id, in increasing order, one tool call whose
    name is the first one streamed and whose arguments parse the concatenated
    deltas ([{}] when blank); usage and finish reason are the last reported. *)
Theorem turn_content `{J : SerdeJson} name evs turn :
  finish (observe_all name evs) = Ok turn →
  ∃ m calls,
    mt_items turn = assistant_items name (concat_all (text_deltas evs))
                      (concat_all (reasoning_deltas evs)) ++ calls
    ∧ btree_sorted m
    ∧ (∀ k, btree_get k m = call_spec (call_deltas k evs))
    ∧ Forall2 (λ kv i, tool_call_item (fst kv) (snd kv) = Ok i) m calls
    ∧ mt_usage turn = default TokenUsage_default (last (usage_events evs))
    ∧ mt_finish_reason turn = default Stop (last (finish_events evs)).
Proof.
  destruct (observe_all_spec name evs) as [Hn Ht Hr Hs Hc Hu Hf].
  unfold finish, build_items. destruct (tool_call_items _) as [calls|e] eqn:Hcalls; [|done].
  intros [= <-]. exists (tool_accum (observe_all name evs)), calls. simpl.
  split_and!; [by rewrite Hn, Ht, Hr|done|done|by apply tool_call_items_ok|by rewrite Hu|done].
Qed.

#[local] Existing Instance Toy.json.

Definition interleaved : list ModelEvent :=
  [METoolCallDelta "b" (Some "read") "{"; METokenDelta "Let me "; METoolCallDelta "a" None " ";
   METoolCallDelta "b" None "}"; METokenDelta "look."; METoolCallDelta "a" (Some "ls") "";
   MEFinish ToolCalls].

Definition in_order : list ModelEvent :=
  [METokenDelta "Let me "; METokenDelta "look."; METoolCallDelta "a" None " ";
   METoolCallDelta "a" (Some "ls") ""; METoolCallDelta "b" (Some "read") "{";
   METoolCallDelta "b" None "}"; MEFinish ToolCalls].

Lemma interleaved_same : same_channels interleaved in_order.
Proof.
  split_and!; try reflexivity. intros k. unfold call_deltas, interleaved, in_order. simpl.
  destruct (String.eqb_spec k "a") as [->|]; [reflexivity|].
  by destruct (String.eqb_spec k "b") as [->|].
Qed.

Lemma turn_of_channels_witness :
  finish (observe_all "bot" interleaved) = finish (observe_all "bot" in_order).
Proof. exact (turn_of_channels "bot" interleaved in_order interleaved_same). Defined.

Lemma turn_content_witness :
  ∃ turn m calls, finish (observe_all "bot" interleaved) = Ok turn
    ∧ mt_items turn = assistant_items "bot" "Let me look." "" ++ calls
    ∧ Forall2 (λ kv i, tool_call_item (fst kv) (snd kv) = Ok i) m calls.
Proof.
  assert (finish (observe_all "bot" interleaved)
    = Ok (mkModelTurn [AssistantMessage [Text "Let me look."] (Some "bot");
        ToolCall "a" "ls" (VObject []); ToolCall "b" "read" (VObject [])]
        TokenUsage_default ToolCalls)) as H by (vm_compute; reflexivity).
  destruct (turn_content "bot" interleaved _ H) as (m & calls & Hi & _ & _ & Hc & _).
  eexists _, m, calls. split; [exact H|]. split; [exact Hi|exact Hc].
Defined.
