(* ===== verification/Driver.v ===== *)
(** The agent-loop driver: [LlmAgent::run] of core/src/agent.rs, with the run
    context of context.rs, the handoffs of handoff.rs and the failure slot.

    The event stream is the list of the events a consumer that drains it sees;
    the world threads through every await in the order of the code.  A model
    stream is finite.  The driver's loop has fuel, and [run] gives it the bound
    the loop is proved to keep. *)

From Stdlib Require Import Ascii.
From S2P Require Import Prelude Json Items PathMatch CommandMatch LoopState Permission.
From S2P Require Import Redaction Tools ModelTurn.

Section Driver.
Context `{J : SerdeJson} `{G : Globset} `{D : !LoopDebug} `{R : !RustDebug} {W : Type}.

(** ** Errors and the failure slot *)

Definition AgentError_display (e : AgentError) : string :=
  match e with
  | AEModel e => "model failed: " +:+ ModelError_display e
  | AETool e => "tool failed: " +:+ ToolError_display e
  | AESession SessionUnavailable => "session failed: session backend unavailable"
  | AESession (Backend msg) | AESession (SessionOther msg) => "session failed: " +:+ msg
  | AEGuardrail kind => "guardrail tripped: " +:+ debug_guardrail_kind kind
  | HookDenied event reason => "hook denied " +:+ event +:+ ": " +:+ reason
  | InvalidStructuredOutput schema_errors _ =>
      "invalid structured output after one repair attempt: " +:+ debug_strings schema_errors
  | MaxTurnsExceeded max => "max turns (" +:+ show_Z max +:+ ") exceeded"
  | MaxIterationsExceeded max => "max iterations (" +:+ show_Z max +:+ ") exceeded"
  | NotImplemented feature => "not yet implemented: " +:+ feature
  | MaxAgentDepthExceeded depth max =>
      "agent nesting depth (" +:+ show_Z depth +:+ ") exceeded max (" +:+ show_Z max +:+ ")"
  | MaxHandoffsExceeded limit => "max handoffs (" +:+ show_Z limit +:+ ") exceeded"
  | AEOther msg => msg
  end.

(** The failure slot of the run's context, shared by handed-off runs, and the
    world. *)
Definition RunState : Type := option AgentError * W.

(** [FailureSlot::set]: the last write wins. *)
Definition failure_set (err : AgentError) (st : RunState) : RunState := (Some err, st.2).

(** ** Contexts and agents *)

Record RunConfig := mkRunConfig {
  max_turns : Z;
  timeout : option Z;
  parallel_tool_call_limit : option positive;
  max_agent_depth : Z;
}.

Record RunContext := mkRunContext {
  rc_permissions : Permissions W;
  rc_hooks : list (Hook (W:=W));
  rc_run_config : option RunConfig;
  rc_agent_depth : Z;
  rc_redact_output : bool;
  rc_extra_secrets : list string;
}.

Definition u32_saturating_add (a b : Z) : Z := Z.min (a + b) u32_max.

Definition handoff_child (ctx : RunContext) : RunContext :=
  mkRunContext (rc_permissions ctx) (rc_hooks ctx) (rc_run_config ctx)
    (u32_saturating_add (rc_agent_depth ctx) 1) (rc_redact_output ctx) (rc_extra_secrets ctx).

(** The [Agent] trait. *)
Record Agent := mkAgent {
  ag_name : string;
  ag_description : string;
  ag_run : RunContext → list Item → RunState → result (list AgentEvent) AgentError * RunState;
}.

(** handoff.rs *)
Fixpoint slug_go (prev_underscore : bool) (name : string) : string :=
  match name with
  | EmptyString => EmptyString
  | String ch name' =>
      if is_ascii_alphanumeric ch then String (to_ascii_lowercase ch) (slug_go false name')
      else if prev_underscore then slug_go true name'
      else String "_" (slug_go true name')
  end.

Fixpoint trim_underscores (s : string) : string :=
  match s with
  | String c s' => if Ascii.eqb c "_" then trim_underscores s' else s
  | EmptyString => EmptyString
  end.

Definition slug (name : string) : string :=
  string_rev (trim_underscores (string_rev (trim_underscores (slug_go false name)))).

Definition Handoff_to_def (a : Agent) : HandoffDef :=
  mkHandoffDef ("transfer_to_" +:+ slug (ag_name a)) (ag_name a) (ag_description a).

(** [Model::invoke]: an error, or the finite stream of its items. *)
Definition ModelInvoke : Type :=
  ModelRequest → W → result (list (result ModelEvent ModelError)) ModelError * W.

Record LlmAgent := mkLlmAgent {
  la_name : string;
  la_description : string;
  la_instructions : RunContext → W → string;
  la_model : ModelInvoke;
  la_tools : list (Tool (W:=W));
  la_handoffs : list Agent;
  la_output_type : option OutputType;
  la_input_guardrails : list (Guardrail (W:=W));
  la_output_guardrails : list (Guardrail (W:=W));
  la_hooks : list (Hook (W:=W));
  la_model_settings : ModelSettings;
  la_config : RunConfig;
}.

(** ** One run *)

Section Run.
(** The process environment, the agent, its context, and the scheduling of
    concurrent tool calls, which may depend on anything. *)
Variables (env : list (string * string)) (agent : LlmAgent) (ctx : RunContext).
Variable schedule : W → list nat.

Definition effective_config : RunConfig := default (la_config agent) (rc_run_config ctx).

Definition interceptors : Interceptors (W:=W) :=
  mkInterceptors (rc_permissions ctx) (la_input_guardrails agent) (la_output_guardrails agent)
    (la_hooks agent) (rc_hooks ctx) (rc_redact_output ctx) (rc_extra_secrets ctx).

Definition tool_defs : list ToolDef :=
  (λ t, mkToolDef (t_name t) (t_description t) (t_schema t)) <$> la_tools agent.

Definition handoff_defs : list HandoffDef := Handoff_to_def <$> la_handoffs agent.

Definition plan : AgentPlan :=
  mkAgentPlan tool_defs (la_model_settings agent) (max_turns effective_config)
    (la_output_type agent) handoff_defs.

Definition system_message (text : string) : Item := System [Text text].

(** The loop between two transitions. *)
Record Loop := mkLoop {
  lp_state : LoopState;
  lp_input : TransitionInput;
  lp_conversation : list Item;
  lp_injections : list string;
  lp_run : RunState;
}.

(** What one part of the loop yields, and whether the stream goes on. *)
Inductive Flow : Type :=
| Continue (yielded : list AgentEvent) (l : Loop)
| Stop (yielded : list AgentEvent) (st : RunState).

(** [failure.set(err); yield RunFailed; return], after [yielded]. *)
Definition fail_with (yielded : list AgentEvent) (err : AgentError) (msg : string) (st : RunState)
  : Flow :=
  Stop (yielded ++ [RunFailed msg]) (failure_set err st).

Definition fail (yielded : list AgentEvent) (err : AgentError) (st : RunState) : Flow :=
  fail_with yielded err (AgentError_display err) st.

(** Yield the events of a transition, with the OnTurnStart hook before each
    [TurnStarted]; [Some reason] when it denied. *)
Fixpoint emit (evs : list AgentEvent) (inj : list string) (w : W)
  : list AgentEvent * list string * option string * W :=
  match evs with
  | [] => ([], inj, None, w)
  | ev :: evs' =>
      let '(verdict, inj, w) :=
        match ev with
        | TurnStarted turn =>
            let '(on_turn, w) := fire interceptors (OnTurnStart turn) w in
            match denied on_turn with
            | Some reason => (Some reason, inj, w)
            | None => (None, inj ++ injections on_turn, w)
            end
        | _ => (None, inj, w)
        end in
      match verdict with
      | Some reason => ([], inj, Some reason, w)
      | None =>
          let '(out, inj, verdict, w) := emit evs' inj w in (ev :: out, inj, verdict, w)
      end
  end.

(** Drain the model stream into the accumulator, forwarding the deltas. *)
Definition forward (ev : ModelEvent) : list AgentEvent :=
  match ev with
  | METokenDelta text => [TokenDelta text]
  | MEReasoningDelta text => [ReasoningDelta text]
  | METoolCallDelta call_id name args_delta => [ToolCallDelta call_id name args_delta]
  | MEUsage _ _ _ _ | MEFinish _ => []
  end.

Fixpoint drain (stream : list (result ModelEvent ModelError)) (acc : ModelTurnAccumulator)
  : list AgentEvent * result ModelTurnAccumulator ModelError :=
  match stream with
  | [] => ([], Ok acc)
  | Ok ev :: stream' =>
      let '(evs, res) := drain stream' (observe acc ev) in (forward ev ++ evs, res)
  | Err e :: _ => ([], Err e)
  end.

Definition push_injections (request : ModelRequest) (inj : list string) : ModelRequest :=
  mkModelRequest (messages request ++ (system_message <$> inj)) (tools request)
    (model_settings request).

Definition call_model (yielded : list AgentEvent) (request : ModelRequest) (state : LoopState)
    (conversation : list Item) (inj : list string) (st : RunState) : Flow :=
  let '(res, w) := la_model agent (push_injections request inj) st.2 in
  let st := (st.1, w) in
  match res with
  | Err e => fail_with yielded (AEModel e) (ModelError_display e) st
  | Ok stream =>
      let '(deltas, res) := drain stream (ModelTurnAccumulator_new (la_name agent)) in
      let yielded := yielded ++ deltas in
      match res with
      | Err e => fail_with yielded (AEModel e) (ModelError_display e) st
      | Ok acc =>
          match finish acc with
          | Err e => fail_with yielded (AEOther e) e st
          | Ok turn =>
              Continue yielded
                (mkLoop state
                   (ModelResponse (mt_items turn) (mt_usage turn) (mt_finish_reason turn))
                   (conversation ++ mt_items turn) [] st)
          end
      end
  end.

Definition execute_tools (yielded : list AgentEvent) (calls : list ToolCallRequest)
    (state : LoopState) (conversation : list Item) (inj : list string) (st : RunState) : Flow :=
  let '(outcomes, denials, w) :=
    run_tools_concurrent env (parallel_tool_call_limit effective_config) (la_tools agent)
      interceptors (schedule st.2) calls st.2 in
  Continue (yielded ++ denials)
    (mkLoop state (ToolResults outcomes) (conversation ++ (outcome_item <$> outcomes)) inj
       (st.1, w)).

Definition terminate (yielded : list AgentEvent) (state : LoopState) (st : RunState) : Flow :=
  let '(_, w) := fire interceptors OnRunComplete st.2 in
  let st := (st.1, w) in
  Stop yielded match state with Failed err => failure_set err st | _ => st end.

(** Relay the events of a handed-off run. *)
Definition relay (parent_usage : TokenUsage) (ev : AgentEvent) : option AgentEvent :=
  match ev with
  | RunStarted _ => None
  | RunCompleted usage => Some (RunCompleted (TokenUsage_add parent_usage usage))
  | other => Some other
  end.

Definition apply_handoff (yielded : list AgentEvent) (state : LoopState) (st : RunState) : Flow :=
  match state with
  | ApplyingHandoff target transcript parent_usage =>
      let child := handoff_child ctx in
      let max := max_agent_depth effective_config in
      if (max <? rc_agent_depth child)%Z then
        fail yielded (MaxAgentDepthExceeded (rc_agent_depth child) max) st
      else
        match List.find (λ h, String.eqb (ag_name h) target) (la_handoffs agent) with
        | None => fail yielded (AEOther ("unknown handoff target: " +:+ target)) st
        | Some target_agent =>
            let '(on_handoff, w) := fire interceptors (OnHandoff (la_name agent) target) st.2 in
            let st := (st.1, w) in
            match denied on_handoff with
            | Some reason => fail yielded (HookDenied "OnHandoff" reason) st
            | None =>
                let yielded :=
                  yielded ++ [HandoffItem (la_name agent) target; AgentUpdated target] in
                let '(res, st) := ag_run target_agent child transcript st in
                match res with
                | Err e => fail yielded e st
                | Ok sub =>
                    let '(_, w) := fire interceptors (OnSubagentStop target) st.2 in
                    Stop (yielded ++ omap (relay parent_usage) sub) (st.1, w)
                end
            end
        end
  | _ => Stop yielded st
  end.

(** One turn of the loop: the transition, the output guardrails on a terminal
    output, the events, the action. *)
Definition loop_body (l : Loop) : Flow :=
  let o := transition (lp_state l) (lp_input l) (ctx_of plan (lp_conversation l)) in
  let '(slot, w) := lp_run l in
  let '(trip, w) :=
    match next_state o with
    | Done out => run_output_guardrails interceptors (as_text out) w
    | _ => (None, w)
    end in
  let '(evs, action, slot) :=
    match trip with
    | Some (kind, info) =>
        ([GuardrailTriggered kind info; RunFailed "output guardrail tripwire"], Terminate,
         Some (AEGuardrail kind))
    | None => (events o, next_action o, slot)
    end in
  let '(yielded, inj, verdict, w) := emit evs (lp_injections l) w in
  match verdict with
  | Some reason => fail yielded (HookDenied "OnTurnStart" reason) (slot, w)
  | None =>
      let conversation := lp_conversation l ++ conversation_appends o in
      match action with
      | CallModel request => call_model yielded request (next_state o) conversation inj (slot, w)
      | ExecuteTools calls => execute_tools yielded calls (next_state o) conversation inj (slot, w)
      | Terminate => terminate yielded (next_state o) (slot, w)
      | Handoff => apply_handoff yielded (next_state o) (slot, w)
      end
  end.

(** The loop; [None] when the fuel runs out. *)
Fixpoint drive (fuel : nat) (l : Loop) : option (list AgentEvent * RunState) :=
  match fuel with
  | O => None
  | S fuel' =>
      match loop_body l with
      | Stop evs st => Some (evs, st)
      | Continue evs l' =>
          '(evs', st) ← drive fuel' l';
          Some (evs ++ evs', st)
      end
  end.

(** The first transfer-tool name that collides with an earlier one or a tool. *)
Fixpoint collision (real seen : list string) (defs : list HandoffDef) : option string :=
  match defs with
  | [] => None
  | d :: defs' =>
      if bool_decide (tool_name d ∈ seen) || bool_decide (tool_name d ∈ real)
      then Some (tool_name d)
      else collision real (tool_name d :: seen) defs'
  end.

Definition seed_conversation (input : list Item) (w : W) : list Item :=
  let instructions := la_instructions agent ctx w in
  (if is_empty instructions then [] else [system_message instructions]) ++ input.

(** The stream up to the loop. *)
Definition prologue (input : list Item) (st : RunState) : Flow :=
  let conversation := seed_conversation input st.2 in
  match collision (td_name <$> tool_defs) [] handoff_defs with
  | Some name => fail [] (AEOther ("handoff transfer-tool name collision: '" +:+ name +:+ "'")) st
  | None =>
      let '(on_start, w) := fire interceptors OnRunStart st.2 in
      let st := (st.1, w) in
      match denied on_start with
      | Some reason => fail [] (HookDenied "OnRunStart" reason) st
      | None =>
          let '(trip, w) := run_input_guardrails interceptors (user_text_of conversation) st.2 in
          let st := (st.1, w) in
          match trip with
          | Some (kind, info) =>
              fail_with [GuardrailTriggered kind info] (AEGuardrail kind)
                "input guardrail tripwire" st
          | None =>
              Continue []
                (mkLoop (CallingModel 0 TokenUsage_default) (Start input) conversation
                   (injections on_start) st)
          end
      end
  end.

Definition run_stream (fuel : nat) (input : list Item) (st : RunState)
  : option (list AgentEvent * RunState) :=
  '(evs, st') ←
    match prologue input st with
    | Stop evs st' => Some (evs, st')
    | Continue evs l => '(evs', st') ← drive fuel l; Some (evs ++ evs', st')
    end;
  Some (RunStarted (la_name agent) :: evs, st').

(** Transitions a run can make. *)
Definition loop_fuel : nat := Z.to_nat (2 * max_turns effective_config + 3).
End Run.

(** The trait implementation, running with the fuel that is enough. *)
Definition LlmAgent_agent (env : list (string * string)) (schedule : W → list nat)
    (agent : LlmAgent) : Agent :=
  mkAgent (la_name agent) (la_description agent)
    (λ ctx input st,
      match run_stream env agent ctx schedule (loop_fuel agent ctx) input st with
      | Some (evs, st') => (Ok evs, st')
      | None => (Ok [], st)
      end).
End Driver.

(** ** Correctness *)

(** How a run may end: with one terminal event, the last; a completed run leaves
    the failure slot alone, a failed one has filled it. *)
Definition run_ends `{J : SerdeJson} {W : Type} (evs : list AgentEvent)
    (slot : option AgentError) (st' : RunState (W:=W)) : Prop :=
  ∃ l ev, evs = l ++ [ev] ∧ no_terminal l
    ∧ match ev with
      | RunCompleted _ => st'.1 = slot
      | RunFailed _ => is_Some st'.1
      | _ => False
      end.

(** [max_turns] is a [u32]. *)
Definition config_ok (c : RunConfig) : Prop := (0 ≤ max_turns c ≤ u32_max)%Z.

Definition context_ok `{J : SerdeJson} `{G : Globset} {W : Type} (ctx : RunContext (W:=W)) : Prop :=
  match rc_run_config ctx with Some c => config_ok c | None => True end.

(** What every agent promises to the agent that hands off to it and to the
    runner: its stream opens with [RunStarted] and ends as a run does. *)
Class AgentContract `{J : SerdeJson} `{G : Globset} {W : Type} (a : Agent (W:=W)) : Prop :=
  agent_contract : ∀ ctx input st,
    context_ok ctx →
    match ag_run a ctx input st with
    | (Ok evs, st') => ∃ name rest, evs = RunStarted name :: rest ∧ run_ends rest st.1 st'
    | (Err _, _) => True
    end.

Section Transitions.
Context `{J : SerdeJson} `{D : !LoopDebug}.

(** The terminal event of a final state. *)
Definition terminal_event (s : LoopState) (ev : AgentEvent) : Prop :=
  match s with
  | Failed _ => ∃ msg, ev = RunFailed msg
  | Done out => ev = RunCompleted (fo_usage out)
  | _ => False
  end.

Definition ends_as (s : LoopState) (evs : list AgentEvent) : Prop :=
  ∃ l ev, evs = l ++ [ev] ∧ no_terminal l ∧ terminal_event s ev.

Lemma ends_as_single s ev : terminal_event s ev → ends_as s [ev].
Proof. intros. exists [], ev. split_and!; [done|constructor|done]. Qed.

Lemma ends_as_app s l evs : no_terminal l → ends_as s evs → ends_as s (l ++ evs).
Proof.
  intros Hl (l' & ev & -> & Hl' & Hev). exists (l ++ l'), ev.
  rewrite (assoc_L (++)). split_and!; [done|by apply Forall_app|done].
Qed.

Lemma transition_ends s i ctx :
  let o := transition s i ctx in next_action o = Terminate → ends_as (next_state o) (events o).
Proof.
  unfold transition, invalid_transition, on_start, on_tool_calls, on_final_message,
    on_tool_results, on_finalizing, on_repairing, max_turns_reached, not_implemented,
    missing_output, completed.
  destruct s, i; repeat case_match; simplify_eq/=; intros Ha; try discriminate Ha.
  all: try (apply ends_as_app; [apply message_outputs_no_terminal || apply tool_output_no_terminal|]).
  all: try (apply ends_as_single; simpl; eauto; done).
  eexists [_], _. split_and!; [done|by repeat constructor|simpl; eauto].
Qed.

(** A prefix that stops before a [TurnStarted] has no terminal event. *)
Lemma prefix_no_terminal out turn rest :
  no_terminal (out ++ TurnStarted turn :: rest) ∨ one_final_terminal (out ++ TurnStarted turn :: rest) →
  no_terminal out.
Proof.
  intros [Hn|(l & ev & Heq & Hev & Hl)]; [by apply Forall_app in Hn as [? _]|].
  destruct rest as [|x rest _] using rev_ind.
  - apply app_inj_tail in Heq as [-> <-]. done.
  - rewrite app_comm_cons, (assoc_L (++)) in Heq. apply app_inj_tail in Heq as [<- _].
    by apply Forall_app in Hl as [? _].
Qed.
End Transitions.

Section Run.
Context `{J : SerdeJson} `{G : Globset} `{D : !LoopDebug} `{R : !RustDebug} {W : Type}.
Variables (env : list (string * string)) (agent : LlmAgent (W:=W)) (ctx : RunContext (W:=W)).
Variable schedule : W → list nat.

Lemma emit_spec evs inj w :
  let '(out, _, verdict, _) := emit agent ctx evs inj w in
  match verdict with
  | None => out = evs
  | Some _ => ∃ turn rest, evs = out ++ TurnStarted turn :: rest
  end.
Proof.
  revert inj w. induction evs as [|ev evs IH]; intros inj w; simpl; [done|].
  assert (∀ inj w,
    let '(out, _, verdict, _) :=
      let '(out, inj, verdict, w) := emit agent ctx evs inj w in (ev :: out, inj, verdict, w) in
    match verdict with
    | None => out = ev :: evs
    | Some _ => ∃ turn rest, ev :: evs = out ++ TurnStarted turn :: rest
    end) as Hnext.
  { intros inj' w'. specialize (IH inj' w').
    destruct (emit agent ctx evs inj' w') as [[[out inj''] [v|]] w'']; [|congruence].
    destruct IH as (turn & rest & ->). by exists turn, rest. }
  destruct ev; try apply Hnext.
  destruct (fire _ _ _) as [on_turn w']. destruct (denied on_turn); [|apply Hnext].
  by exists turn, evs.
Qed.

Lemma drain_no_terminal stream acc : no_terminal (drain stream acc).1.
Proof.
  revert acc. induction stream as [|[ev|e] stream IH]; intros acc; simpl; [constructor| |constructor].
  specialize (IH (observe acc ev)). destruct (drain stream (observe acc ev)) as [evs res].
  simpl in *. apply Forall_app. split; [|done]. destruct ev; by repeat constructor.
Qed.

(** *** The loop follows the protocol of the state machine *)

Abbreviation the_plan := (plan agent ctx).

(** After [n] transitions the loop is where the protocol is after [n - 1]
    inputs, with the next input at hand. *)
Inductive in_protocol (seed : list Item) : nat → Loop (W:=W) → Prop :=
| in_start ms inj st :
    in_protocol seed 0 (mkLoop (CallingModel 0 TokenUsage_default) (Start ms) seed inj st)
| in_step tr d input inj st :
    reaches the_plan seed tr d → answers (ds_action d) input = true →
    in_protocol seed (S (length tr))
      (mkLoop (ds_state d) input (ds_conversation d ++ incoming_items input) inj st).

Definition loop_outcome (l : Loop (W:=W)) : TransitionOutcome :=
  transition (lp_state l) (lp_input l) (ctx_of the_plan (lp_conversation l)).

(** The next transition of the loop is the next one of the protocol. *)
Lemma in_protocol_next seed n l :
  in_protocol seed n l →
  ∃ tr d pre, reaches the_plan seed tr d ∧ length tr = n
    ∧ ds_state d = next_state (loop_outcome l) ∧ ds_action d = next_action (loop_outcome l)
    ∧ ds_conversation d = lp_conversation l ++ conversation_appends (loop_outcome l)
    ∧ ds_log d = pre ++ events (loop_outcome l)
    ∧ match n with
      | O => pre = []
      | S _ => ∃ tr0 d0, reaches the_plan seed tr0 d0 ∧ ds_log d0 = pre
          ∧ ds_state d0 = lp_state l
      end.
Proof.
  intros [ms inj st|tr d input inj st Hr Ha].
  - exists [], (drive_start the_plan seed), []. split; [constructor|]. by split_and!.
  - exists (tr ++ [input]), (drive_step the_plan d input), (ds_log d).
    split; [by constructor|]. split_and!; try done; [rewrite length_app; simpl; lia|].
    by exists tr, d.
Qed.

(** *** Where a part of the loop may lead *)

Lemma run_ends_app l evs slot (st' : RunState (W:=W)) :
  no_terminal l → run_ends evs slot st' → run_ends (l ++ evs) slot st'.
Proof.
  intros Hl (l' & ev & -> & Hl' & Hev). exists (l ++ l'), ev.
  rewrite (assoc_L (++)). split_and!; [done|by apply Forall_app|done].
Qed.

Lemma run_ends_fail l msg err slot (st : RunState (W:=W)) :
  no_terminal l → run_ends (l ++ [RunFailed msg]) slot (failure_set err st).
Proof. intros Hl. exists l, (RunFailed msg). by split_and!; [..|eexists]. Qed.

(** [seed] and [n] as in [in_protocol]; [slot] is the failure slot the part started with. *)
Definition flow_ok (seed : list Item) (n : nat) (slot : option AgentError) (f : Flow (W:=W))
  : Prop :=
  match f with
  | Continue evs l => no_terminal evs ∧ in_protocol seed n l ∧ (lp_run l).1 = slot
  | Stop evs st => run_ends evs slot st
  end.

Section Parts.
Variables (seed : list Item) (tr : list TransitionInput) (d : DriverState).
Variable (yielded : list AgentEvent).
Hypothesis reached : reaches the_plan seed tr d.
Hypothesis quiet : no_terminal yielded.

Lemma call_model_ok request inj st :
  ds_action d = CallModel request →
  flow_ok seed (S (length tr)) st.1
    (call_model agent yielded request (ds_state d) (ds_conversation d) inj st).
Proof.
  intros Ha. unfold call_model. destruct (la_model agent _ _) as [[stream|e] w]; [|by apply run_ends_fail].
  pose proof (drain_no_terminal stream (ModelTurnAccumulator_new (la_name agent))) as Hd.
  destruct (drain stream _) as [deltas [acc|e]]; simpl in Hd;
    [|apply run_ends_fail; by apply Forall_app].
  destruct (finish acc) as [turn|e]; [|apply run_ends_fail; by apply Forall_app].
  split_and!; [by apply Forall_app| |done].
  apply (in_step seed tr d (ModelResponse (mt_items turn) (mt_usage turn) (mt_finish_reason turn)));
    [done|by rewrite Ha].
Qed.

Lemma execute_tools_ok calls inj st :
  ds_action d = ExecuteTools calls →
  flow_ok seed (S (length tr)) st.1
    (execute_tools env agent ctx schedule yielded calls (ds_state d) (ds_conversation d) inj st).
Proof.
  intros Ha. unfold execute_tools.
  destruct (run_tools_concurrent _ _ _ _ _ _ _) as [[outcomes denials] w] eqn:E.
  split_and!; [|by apply (in_step seed tr d (ToolResults outcomes)); [|rewrite Ha]|done].
  apply Forall_app. split; [done|]. unfold run_tools_concurrent, run_tools in E. simplify_eq.
  eapply Forall_weaken; [apply fold_step_denied; constructor|].
  by intros ev (tool & reason & ->).
Qed.

Lemma relay_ends usage sub slot (st' : RunState (W:=W)) name :
  run_ends sub slot st' → run_ends (omap (relay usage) (RunStarted name :: sub)) slot st'.
Proof.
  intros (l & ev & -> & Hl & Hev). simpl. rewrite omap_app. apply run_ends_app.
  - apply Forall_forall. intros x (y & Hy & Hr)%list_elem_of_omap.
    unfold no_terminal in Hl. rewrite Forall_forall in Hl. specialize (Hl y Hy).
    by destruct y; simplify_eq/=.
  - destruct ev; try done; eexists [], _; (split_and!; [done|constructor|done]).
Qed.

Lemma apply_handoff_ok st :
  context_ok ctx → Forall AgentContract (la_handoffs agent) →
  well_driven the_plan (ds_state d) Handoff →
  flow_ok seed (S (length tr)) st.1 (apply_handoff agent ctx yielded (ds_state d) st).
Proof.
  intros Hok Hc Hw. unfold apply_handoff.
  destruct (ds_state d) as [| |target transcript usage| | | | | |]; try done.
  destruct (_ <? _)%Z; [by apply run_ends_fail|].
  destruct (List.find _ _) as [a|] eqn:Ef; [|by apply run_ends_fail].
  destruct (fire _ _ _) as [on_handoff w]. destruct (denied on_handoff); [by apply run_ends_fail|].
  apply List.find_some in Ef as [Hin _]. apply list_elem_of_In in Hin.
  rewrite Forall_forall in Hc. pose proof (Hc _ Hin (handoff_child ctx) transcript (st.1, w) Hok) as Ha.
  destruct (ag_run a _ _ _) as [[sub|e] st'].
  - destruct (fire _ _ _) as [ignored w']. destruct Ha as (name & rest & -> & He).
    unfold flow_ok. apply run_ends_app; [apply Forall_app; by repeat constructor|].
    apply (relay_ends usage _ _ _ name) in He. destruct He as (l & ev & Heq & Hl & Hev).
    exists l, ev. by split_and!; [|..|destruct ev].
  - apply run_ends_fail. apply Forall_app. by repeat constructor.
Qed.

End Parts.

(** The arm [Terminate], after events that end as the state does. *)
Lemma terminate_ok evs state (st : RunState (W:=W)) seed n :
  ends_as state evs → flow_ok seed n st.1 (terminate agent ctx evs state st).
Proof.
  intros (l & ev & -> & Hl & Hev). unfold terminate.
  destruct (fire _ _ _) as [ignored w]. exists l, ev. split_and!; [done..|].
  destruct state; simpl in *; try done; [by subst|]. destruct Hev as [msg ->]. by eexists.
Qed.

(** The events to emit, the action and the slot, after the output guardrails. *)
Definition gated (o : TransitionOutcome) (trip : option (GuardrailKind * Value))
    (slot : option AgentError) : list AgentEvent * NextAction * option AgentError :=
  match trip with
  | Some (kind, info) =>
      ([GuardrailTriggered kind info; RunFailed "output guardrail tripwire"], Terminate,
       Some (AEGuardrail kind))
  | None => (events o, next_action o, slot)
  end.

Section Loop.
Variables (seed : list Item).
Hypothesis max_turns_u32 : (0 ≤ max_turns (effective_config agent ctx) ≤ u32_max)%Z.
Hypothesis ctx_ok : context_ok ctx.
Hypothesis contracts : Forall AgentContract (la_handoffs agent).

Lemma loop_body_ok n l :
  in_protocol seed n l →
  flow_ok seed (S n) (lp_run l).1 (loop_body env agent ctx schedule l).
Proof.
  intros Hp. destruct (in_protocol_next seed n l Hp) as (tr & d & pre & Hr & <- & Hs & Ha & Hc & _ & _).
  unfold loop_body. fold (loop_outcome l). set (o := loop_outcome l) in *.
  destruct (lp_run l) as [slot w].
  destruct (match next_state o with Done out => _ | _ => _ end) as [trip w1] eqn:Htrip.
  destruct trip as [[kind info]|].
  - simpl. unfold terminate. destruct (fire _ _ _) as [ignored w2].
    exists [GuardrailTriggered kind info], (RunFailed "output guardrail tripwire").
    split_and!; [done|by repeat constructor|]. destruct (next_state o); by eexists.
  - pose proof (emit_spec (events o) (lp_injections l) w1) as He.
    destruct (emit agent ctx (events o) (lp_injections l) w1) as [[[yielded inj] [reason|]] w2].
    + destruct He as (turn & rest & He). apply (run_ends_fail yielded).
      eapply (prefix_no_terminal yielded turn rest). rewrite <- He.
      pose proof (transition_events (lp_state l) (lp_input l) (ctx_of the_plan (lp_conversation l))) as Hev.
      unfold events_agree in Hev. fold (loop_outcome l) in Hev. fold o in Hev.
      destruct (next_action o); [by left..|by right|by left].
    + subst yielded.
      pose proof (transition_events (lp_state l) (lp_input l) (ctx_of the_plan (lp_conversation l))) as Hev.
      unfold events_agree in Hev. fold (loop_outcome l) in Hev. fold o in Hev.
      rewrite <- Hs, <- Hc. destruct (next_action o) as [request|calls| |] eqn:Eo.
      * by apply (call_model_ok seed tr d (events o) Hr Hev request inj (slot, w2)).
      * by apply (execute_tools_ok seed tr d (events o) Hr Hev calls inj (slot, w2)).
      * apply (terminate_ok _ _ (slot, w2)). rewrite Hs. by apply transition_ends.
      * apply (apply_handoff_ok seed tr d (events o) Hev (slot, w2)); try done. rewrite <- Ha.
        by apply (reaches_well_driven the_plan seed max_turns_u32 tr d).
Qed.

(** A loop that holds an input for its state has transitions left. *)
Lemma in_protocol_bounded n l :
  in_protocol seed n l → (n < loop_fuel agent ctx)%nat.
Proof.
  unfold loop_fuel. set (m := max_turns (effective_config agent ctx)) in *.
  intros [ms inj st|tr d input inj st Hr Ha]; [lia|].
  pose proof (reaches_bounded the_plan seed max_turns_u32 tr d Hr) as (Hf & Hb & _).
  pose proof (reaches_well_driven the_plan seed max_turns_u32 tr d Hr) as Hw.
  simpl (plan_max_turns the_plan) in *. fold m in Hb.
  assert (0 < fuel_of the_plan (ds_state d))%Z; [|lia].
  destruct (ds_state d), (ds_action d); simpl in Hw; try done; simpl; try done; fold m;
    simpl in Hw; lia.
Qed.

(** With the fuel of the bound the loop ends, as a run does. *)
Lemma drive_ok fuel n l :
  in_protocol seed n l → (loop_fuel agent ctx ≤ n + fuel)%nat →
  ∃ evs st', drive env agent ctx schedule fuel l = Some (evs, st') ∧ run_ends evs (lp_run l).1 st'.
Proof.
  revert n l. induction fuel as [|fuel IH]; intros n l Hp Hf.
  - apply in_protocol_bounded in Hp. lia.
  - pose proof (loop_body_ok n l Hp) as Hb. simpl.
    destruct (loop_body env agent ctx schedule l) as [evs l'|evs st']; [|by eauto].
    destruct Hb as (Hq & Hp' & Hslot).
    destruct (IH (S n) l' Hp' ltac:(lia)) as (evs' & st' & -> & He). simpl.
    exists (evs ++ evs'), st'. split; [done|].
    destruct He as (l0 & ev & -> & Hl & Hev). exists (evs ++ l0), ev.
    rewrite (assoc_L (++)). split_and!; [done|by apply Forall_app|].
    rewrite Hslot in Hev. by destruct ev.
Qed.
End Loop.

Lemma prologue_ok input st :
  flow_ok (seed_conversation agent ctx input st.2) 0 st.1 (prologue agent ctx input st).
Proof.
  unfold prologue. destruct (collision _ _ _); [apply (run_ends_fail []); constructor|].
  destruct (fire _ _ _) as [on_start w]. destruct (denied on_start); [apply (run_ends_fail []); constructor|].
  destruct (run_input_guardrails _ _ _) as [[[kind info]|] w'].
  - apply (run_ends_fail [_]). by repeat constructor.
  - split_and!; [constructor|constructor|done].
Qed.

Lemma run_stream_ok input st :
  context_ok ctx → config_ok (la_config agent) →
  Forall AgentContract (la_handoffs agent) →
  ∃ evs st', run_stream env agent ctx schedule (loop_fuel agent ctx) input st
      = Some (RunStarted (la_name agent) :: evs, st') ∧ run_ends evs st.1 st'.
Proof.
  intros Hok Hcfg Hc.
  assert (0 ≤ max_turns (effective_config agent ctx) ≤ u32_max)%Z as Hm.
  { unfold effective_config, context_ok in *. by destruct (rc_run_config ctx). }
  unfold run_stream. pose proof (prologue_ok input st) as Hp.
  destruct (prologue agent ctx input st) as [evs l|evs st']; simpl.
  - destruct Hp as (Hq & Hp & Hslot).
    destruct (drive_ok _ Hm Hok Hc (loop_fuel agent ctx) 0 l Hp ltac:(lia)) as (evs' & st' & -> & He).
    simpl. exists (evs ++ evs'), st'. split; [done|]. apply run_ends_app; [done|].
    destruct He as (l0 & ev & -> & Hl & Hev). exists l0, ev. split_and!; [done..|].
    rewrite Hslot in Hev. by destruct ev.
  - by eauto.
Qed.

(** *** Completed runs *)

(** The events of the state machine, as opposed to the forwarded deltas and the
    denials of the tool layer. *)
Definition is_loop_event (ev : AgentEvent) : bool :=
  match ev with
  | TokenDelta _ | ReasoningDelta _ | ToolCallDelta _ _ _ | PermissionDenied _ _ => false
  | _ => true
  end.

Abbreviation loop_events := (filter (λ ev, is_loop_event ev = true)).

Lemma drain_no_loop stream acc : loop_events (drain stream acc).1 = [].
Proof.
  revert acc. induction stream as [|[ev|e] stream IH]; intros acc; simpl; [done| |done].
  specialize (IH (observe acc ev)). destruct (drain stream (observe acc ev)) as [evs res].
  simpl in *. rewrite filter_app, IH. by destruct ev.
Qed.

Lemma denials_no_loop evs :
  Forall (λ ev, ∃ tool reason, ev = PermissionDenied tool reason) evs → loop_events evs = [].
Proof. by induction 1 as [|ev evs (tool & reason & ->) _ IH]. Qed.

Lemma loop_body_continue l evs l' :
  loop_body env agent ctx schedule l = Continue evs l' →
  let o := loop_outcome l in
  ∃ input inj st,
    answers (next_action o) input = true
    ∧ l' = mkLoop (next_state o) input
             ((lp_conversation l ++ conversation_appends o) ++ incoming_items input) inj st
    ∧ loop_events evs = loop_events (events o).
Proof.
  intros Hl o. unfold loop_body in Hl. fold (loop_outcome l) in Hl. fold o in Hl.
  destruct (lp_run l) as [slot w].
  destruct (match next_state o with Done out => _ | _ => _ end) as [trip w1].
  destruct trip as [[kind info]|].
  { simpl in Hl. unfold terminate in Hl. by destruct (fire _ _ _). }
  pose proof (emit_spec (events o) (lp_injections l) w1) as He.
  destruct (emit agent ctx (events o) (lp_injections l) w1) as [[[yielded inj] [reason|]] w2];
    [done|]. subst yielded.
  destruct (next_action o) as [request|calls| |] eqn:Eo.
  - unfold call_model in Hl. destruct (la_model agent _ _) as [[stream|e] w3]; [|done].
    pose proof (drain_no_loop stream (ModelTurnAccumulator_new (la_name agent))) as Hd.
    destruct (drain stream _) as [deltas [acc|e]]; [|done]. simpl in Hd.
    destruct (finish acc) as [turn|e]; [|done]. injection Hl as <- <-.
    exists (ModelResponse (mt_items turn) (mt_usage turn) (mt_finish_reason turn)).
    eexists _, _. split_and!; [done..|]. by rewrite filter_app, Hd, app_nil_r.
  - unfold execute_tools in Hl.
    destruct (run_tools_concurrent _ _ _ _ _ _ _) as [[outcomes denials] w3] eqn:E.
    injection Hl as <- <-. exists (ToolResults outcomes). eexists _, _. split_and!; [done..|].
    rewrite filter_app, (denials_no_loop denials), app_nil_r; [done|].
    unfold run_tools_concurrent, run_tools in E. simplify_eq. apply fold_step_denied. constructor.
  - unfold terminate in Hl. by destruct (fire _ _ _).
  - unfold apply_handoff, fail, fail_with in Hl. repeat case_match; done.
Qed.

Lemma loop_body_completed l evs u st' :
  la_handoffs agent = [] →
  loop_body env agent ctx schedule l = Stop (evs ++ [RunCompleted u]) st' →
  let o := loop_outcome l in
  next_action o = Terminate ∧ events o = evs ++ [RunCompleted u]
  ∧ ∃ out w w', next_state o = Done out ∧ fo_usage out = u
      ∧ run_output_guardrails (interceptors agent ctx) (as_text out) w = (None, w').
Proof.
  intros Hh Hl o. unfold loop_body in Hl. fold (loop_outcome l) in Hl. fold o in Hl.
  destruct (lp_run l) as [slot w].
  destruct (match next_state o with Done out => _ | _ => _ end) as [trip w1] eqn:Htrip.
  assert (∀ ys msg err st, fail_with ys err msg st = Stop (evs ++ [RunCompleted u]) st' → False) as Hfail.
  { intros ys msg err st [= Heq _]. by apply app_inj_tail in Heq as [_ ?]. }
  destruct trip as [[kind info]|].
  { exfalso. simpl in Hl. unfold terminate in Hl. destruct (fire _ _ _) as [ignored w2].
    injection Hl as Heq _. by apply (app_inj_tail [_]) in Heq as [_ ?]. }
  pose proof (emit_spec (events o) (lp_injections l) w1) as He.
  destruct (emit agent ctx (events o) (lp_injections l) w1) as [[[yielded inj] [reason|]] w2];
    [by apply Hfail in Hl|]. subst yielded.
  pose proof (transition_events (lp_state l) (lp_input l) (ctx_of the_plan (lp_conversation l))) as Hev.
  unfold events_agree in Hev. fold (loop_outcome l) in Hev. fold o in Hev.
  destruct (next_action o) as [request|calls| |] eqn:Eo.
  - exfalso. unfold call_model in Hl. repeat case_match; try done; by apply Hfail in Hl.
  - exfalso. unfold execute_tools in Hl. by repeat case_match.
  - split; [done|]. unfold terminate in Hl. destruct (fire _ _ _) as [ignored w3].
    injection Hl as Hl _. split; [done|].
    pose proof (transition_ends (lp_state l) (lp_input l) (ctx_of the_plan (lp_conversation l))) as Ht.
    fold (loop_outcome l) in Ht. fold o in Ht. destruct (Ht Eo) as (l0 & ev & Heq & _ & Hs).
    rewrite Hl in Heq. apply app_inj_tail in Heq as [_ <-].
    destruct (next_state o) as [| | | | | | |out|]; try done; [|by destruct Hs].
    simpl in Hs. exists out, w, w1. split_and!; [done|congruence|done].
  - exfalso. unfold apply_handoff in Hl. rewrite Hh in Hl. simpl in Hl.
    assert (∀ st, Stop (events o) st = Stop (evs ++ [RunCompleted u]) st' → False) as Hstop.
    { intros st [= Heq _]. rewrite Heq in Hev. apply Forall_app in Hev as [_ Hev].
      apply Forall_cons in Hev as [Hev _]. done. }
    destruct (next_state o); try (by apply Hstop in Hl).
    destruct (_ <? _)%Z; by apply Hfail in Hl.
Qed.

(** A completed loop reached the final state of the protocol. *)
Definition completed_at (seed : list Item) (log : list AgentEvent) (u : TokenUsage) : Prop :=
  ∃ tr d out w w',
    reaches the_plan seed tr d ∧ ds_action d = Terminate ∧ ds_state d = Done out
    ∧ fo_usage out = u
    ∧ run_output_guardrails (interceptors agent ctx) (as_text out) w = (None, w')
    ∧ loop_events (ds_log d) = log.

Lemma loop_body_quiet l evs0 l' u :
  loop_body env agent ctx schedule l = Continue evs0 l' → RunCompleted u ∉ evs0.
Proof.
  intros Hb Hin. destruct (loop_body_continue _ _ _ Hb) as (input & inj & st & Hans & _ & Hf).
  assert (RunCompleted u ∈ loop_events evs0) as Hl by by apply list_elem_of_filter.
  rewrite Hf in Hl. apply list_elem_of_filter in Hl as [_ Hl].
  pose proof (transition_events (lp_state l) (lp_input l) (ctx_of the_plan (lp_conversation l))) as Hev.
  unfold events_agree in Hev. fold (loop_outcome l) in Hev.
  destruct (next_action (loop_outcome l)); try done; by eapply no_completed.
Qed.

Lemma drive_completed_step seed fuel l tr1 d1 pre evs u st' :
  la_handoffs agent = [] →
  reaches the_plan seed tr1 d1 → ds_state d1 = next_state (loop_outcome l) →
  ds_action d1 = next_action (loop_outcome l) →
  ds_conversation d1 = lp_conversation l ++ conversation_appends (loop_outcome l) →
  ds_log d1 = pre ++ events (loop_outcome l) →
  (∀ input inj st evs',
     answers (ds_action d1) input = true →
     drive env agent ctx schedule fuel
       (mkLoop (ds_state d1) input (ds_conversation d1 ++ incoming_items input) inj st)
       = Some (evs' ++ [RunCompleted u], st') →
     completed_at seed (loop_events (ds_log d1 ++ evs' ++ [RunCompleted u])) u) →
  drive env agent ctx schedule (S fuel) l = Some (evs ++ [RunCompleted u], st') →
  completed_at seed (loop_events (pre ++ evs ++ [RunCompleted u])) u.
Proof.
  intros Hh Hr Hs Ha Hc Hlog IH Hd. simpl in Hd.
  destruct (loop_body env agent ctx schedule l) as [evs0 l'|evs0 st0] eqn:Hb.
  - destruct (loop_body_continue _ _ _ Hb) as (input & inj & st & Hans & -> & Hf).
    pose proof (loop_body_quiet _ _ _ u Hb) as Hq.
    rewrite <- Hs, <- Hc in Hd. rewrite <- Ha in Hans.
    destruct (drive _ _ _ _ _ _) as [[evs1 st1]|] eqn:Hd1; [|done]. simpl in Hd.
    injection Hd as Heq ->. destruct evs1 as [|ev evs1 _] using rev_ind.
    { rewrite app_nil_r in Heq. subst evs0. destruct Hq. apply elem_of_app. right. left. }
    rewrite (assoc_L (++)) in Heq. apply app_inj_tail in Heq as [<- ->].
    specialize (IH _ _ _ _ Hans Hd1). rewrite Hlog in IH.
    revert IH. by rewrite !filter_app, Hf, !(assoc_L (++)).
  - injection Hd as -> ->. destruct (loop_body_completed _ _ _ _ Hh Hb) as (Hac & Hev & out & w & w' & Hd & Hu & Hg).
    exists tr1, d1, out, w, w'. rewrite Hlog, Hev, Ha, Hs. by split_and!.
Qed.

Lemma drive_completed seed fuel tr d input inj st evs u st' :
  la_handoffs agent = [] →
  reaches the_plan seed tr d → answers (ds_action d) input = true →
  drive env agent ctx schedule fuel
    (mkLoop (ds_state d) input (ds_conversation d ++ incoming_items input) inj st)
    = Some (evs ++ [RunCompleted u], st') →
  completed_at seed (loop_events (ds_log d ++ evs ++ [RunCompleted u])) u.
Proof.
  intros Hh. revert tr d input inj st evs. induction fuel as [|fuel IH];
    intros tr d input inj st evs Hr Hans Hd; [done|].
  eapply (drive_completed_step seed fuel
    (mkLoop (ds_state d) input (ds_conversation d ++ incoming_items input) inj st)
    (tr ++ [input]) (drive_step the_plan d input));
    [done|by constructor|reflexivity..| |done].
  intros input' inj' st'' evs' Hans' Hd'. eapply (IH (tr ++ [input])); [by constructor|done..].
Qed.

Lemma drive_start_completed seed fuel ms inj st evs u st' :
  la_handoffs agent = [] →
  drive env agent ctx schedule fuel
    (mkLoop (CallingModel 0 TokenUsage_default) (Start ms) seed inj st)
    = Some (evs ++ [RunCompleted u], st') →
  completed_at seed (loop_events (evs ++ [RunCompleted u])) u.
Proof.
  intros Hh Hd. destruct fuel as [|fuel]; [done|].
  eapply (drive_completed_step seed fuel
    (mkLoop (CallingModel 0 TokenUsage_default) (Start ms) seed inj st) []
    (drive_start the_plan seed) []);
    [done|constructor|reflexivity..| |done].
  intros input' inj' st'' evs' Hans' Hd'. eapply drive_completed; [done|constructor|done..].
Qed.

Lemma run_stream_completed fuel input st evs u st' :
  la_handoffs agent = [] →
  run_stream env agent ctx schedule fuel input st = Some (evs ++ [RunCompleted u], st') →
  ∃ log, completed_at (seed_conversation agent ctx input st.2) log u
    ∧ loop_events (evs ++ [RunCompleted u]) = RunStarted (la_name agent) :: log.
Proof.
  intros Hh Hrun. unfold run_stream in Hrun.
  destruct (prologue agent ctx input st) as [evs0 l|evs0 st0] eqn:Hp; simpl in Hrun.
  - assert (evs0 = [] ∧ ∃ inj st1, l = mkLoop (CallingModel 0 TokenUsage_default) (Start input)
      (seed_conversation agent ctx input st.2) inj st1) as (-> & inj & st1 & ->).
    { unfold prologue, fail, fail_with in Hp. repeat case_match; simplify_eq. eauto. }
    destruct (drive _ _ _ _ _ _) as [[evs1 st2]|] eqn:Hd; [|done]. simpl in Hrun.
    injection Hrun as Heq ->. destruct evs1 as [|ev evs1 _] using rev_ind.
    { by destruct evs as [|? []]. }
    rewrite app_comm_cons in Heq. apply app_inj_tail in Heq as [<- ->].
    eexists. split; [by eapply drive_start_completed|]. done.
  - exfalso. injection Hrun as Heq _.
    assert (∃ y msg, evs0 = y ++ [RunFailed msg]) as (y & msg & ->).
    { assert (∀ y err msg st1, fail_with y err msg st1 = Stop evs0 st0 →
        ∃ y msg, evs0 = y ++ [RunFailed msg]) as Hf by (intros y err msg st1 [= <- _]; eauto).
      unfold prologue, fail in Hp. repeat case_match; try done; by eapply Hf. }
    rewrite app_comm_cons in Heq. by apply app_inj_tail in Heq as [_ ?].
Qed.
End Run.

(** Agents made of LLM agents only. *)
Inductive llm_tree `{J : SerdeJson} `{G : Globset} `{D : !LoopDebug} `{R : !RustDebug} {W : Type}
    (env : list (string * string)) (schedule : W → list nat) : Agent (W:=W) → Prop :=
| llm_tree_node agent :
    config_ok (la_config agent) → Forall (llm_tree env schedule) (la_handoffs agent) →
    llm_tree env schedule (LlmAgent_agent env schedule agent).

(** An LLM agent meets the contract of agents whenever the agents it can
    hand off to do: with the fuel of the bound its stream opens with
    [RunStarted] and ends with exactly one terminal event, its last; the
    failure slot is filled when the run failed and untouched when it
    completed; whatever models, tools, hooks, guardrails, policies and tool
    schedules do. *)
Theorem llm_agent_contract `{J : SerdeJson} `{G : Globset} `{D : !LoopDebug} `{R : !RustDebug}
    {W : Type} env schedule (agent : LlmAgent (W:=W)) :
  config_ok (la_config agent) → Forall AgentContract (la_handoffs agent) →
  AgentContract (LlmAgent_agent env schedule agent).
Proof.
  intros Hcfg Hc ctx input st Hok. simpl.
  destruct (run_stream_ok env agent ctx schedule input st Hok Hcfg Hc) as (evs & st' & -> & He).
  by exists (la_name agent), evs.
Qed.

(** Handoffs compose: every agent built from LLM agents by handing off meets
    the contract, at any nesting. *)
Theorem llm_tree_contract `{J : SerdeJson} `{G : Globset} `{D : !LoopDebug} `{R : !RustDebug}
    {W : Type} env schedule (a : Agent (W:=W)) :
  llm_tree env schedule a → AgentContract a.
Proof.
  revert a. fix IH 2. intros a [agent Hcfg Hts] ctx input st Hok. simpl.
  assert (Forall AgentContract (la_handoffs agent)) as Hc.
  { induction Hts as [|h hs Hh Hhs IHhs]; constructor; [by apply IH|exact IHhs]. }
  destruct (run_stream_ok env agent ctx schedule input st Hok Hcfg Hc) as (evs & st' & -> & He).
  by exists (la_name agent), evs.
Qed.


(** The input guardrails are a gate: when one trips, the stream is exactly
    the three events of the tripwire and the run has had no effect after the
    guardrails; no model, tool or handoff target was called. *)
Theorem input_guardrail_blocks `{J : SerdeJson} `{G : Globset} `{D : !LoopDebug} `{R : !RustDebug}
    {W : Type} env (agent : LlmAgent (W:=W)) ctx schedule fuel input slot w w1 w2 hook kind info :
  collision (td_name <$> tool_defs agent) [] (handoff_defs agent) = None →
  fire (interceptors agent ctx) OnRunStart w = (hook, w1) → denied hook = None →
  run_input_guardrails (interceptors agent ctx)
    (user_text_of (seed_conversation agent ctx input w)) w1 = (Some (kind, info), w2) →
  run_stream env agent ctx schedule fuel input (slot, w)
  = Some ([RunStarted (la_name agent); GuardrailTriggered kind info;
           RunFailed "input guardrail tripwire"], (Some (AEGuardrail kind), w2)).
Proof.
  intros Hcol Hfire Hden Hg. unfold run_stream, prologue. simpl.
  by rewrite Hcol, Hfire, Hden, Hg.
Qed.

(** *** Witnesses: a triage agent that hands off to an expert *)

Module DriverDemo.
#[local] Existing Instance Toy.json.
#[local] Existing Instance Permission.Demo.globset.
#[local] Existing Instance ToolsDemo.debug.

#[export] Instance loop_debug : LoopDebug := {| debug_state _ := "state"; debug_input _ := "input" |}.

(** The world is the script of the model's answers. *)
Definition script : Type := list (list (result ModelEvent ModelError)).

Definition model : ModelInvoke (W:=script) := λ _ w,
  match w with
  | [] => (Err Items.Unavailable, [])
  | answer :: w' => (Ok answer, w')
  end.

Definition config : RunConfig := mkRunConfig 4 None None 2.

Definition trip_on (bad : string) : Guardrail (W:=script) := λ input w,
  match input with
  | UserText t => (if String.eqb t bad then Ok (Tripwire InputPolicy VNull) else Ok Pass, w)
  | ModelOutput _ => (Ok Pass, w)
  end.

Definition llm (name : string) (targets : list Agent) : LlmAgent (W:=script) :=
  mkLlmAgent name "" (λ _ _, "") model [] targets None [trip_on "attack"] [trip_on "attack"] []
    LoopState.Demo.settings config.

Definition expert : LlmAgent := llm "expert" [].
Definition triage : LlmAgent := llm "triage" [LlmAgent_agent [] (λ _, []) expert].

Definition ctx : RunContext (W:=script) :=
  mkRunContext (mkPermissions ModeDefault None [] [] None [] true) [] None 0 true [].

Definition say (text : string) (n : Z) : list (result ModelEvent ModelError) :=
  [Ok (METokenDelta text); Ok (MEUsage n n None None); Ok (MEFinish Items.Stop)].

Definition transfer : list (result ModelEvent ModelError) :=
  [Ok (METoolCallDelta "c1" (Some "transfer_to_expert") "{}"); Ok (MEUsage 5 5 None None)].
End DriverDemo.

#[local] Existing Instance Toy.json.
#[local] Existing Instance Permission.Demo.globset.
#[local] Existing Instance ToolsDemo.debug.
#[local] Existing Instance DriverDemo.loop_debug.

Lemma llm_agent_contract_witness :
  let evs := [RunStarted "expert"; TurnStarted 0; TokenDelta "hi";
              MessageOutput (AssistantMessage [Text "hi"] (Some "expert"));
              RunCompleted (mkTokenUsage 2 2 0 0 4)] in
  ag_run (LlmAgent_agent [] (λ _, []) DriverDemo.expert) DriverDemo.ctx
    [UserMessage [Text "hello"]] (None, [DriverDemo.say "hi" 2]) = (Ok evs, (None, []))
  ∧ ∃ name rest, evs = RunStarted name :: rest
      ∧ run_ends rest None ((None, []) : RunState (W:=DriverDemo.script)).
Proof.
  intros evs.
  assert (ag_run (LlmAgent_agent [] (λ _, []) DriverDemo.expert) DriverDemo.ctx
    [UserMessage [Text "hello"]] (None, [DriverDemo.say "hi" 2]) = (Ok evs, (None, []))) as Hrun
    by (vm_compute; reflexivity).
  split; [exact Hrun|].
  pose proof (llm_agent_contract [] (λ _, []) DriverDemo.expert
    ltac:(vm_compute; split; discriminate) (Forall_nil_2 _) DriverDemo.ctx
    [UserMessage [Text "hello"]] (None, [DriverDemo.say "hi" 2]) I) as Hc.
  rewrite Hrun in Hc. exact Hc.
Defined.

(** The handed-off run: one opening and one terminal event, summed usage. *)
Lemma llm_tree_contract_witness :
  let evs := [RunStarted "triage"; TurnStarted 0;
              ToolCallDelta "c1" (Some "transfer_to_expert") "{}";
              ToolCallItem (ToolCall "c1" "transfer_to_expert" (VObject []));
              HandoffItem "triage" "expert"; AgentUpdated "expert"; TurnStarted 0;
              TokenDelta "hi"; MessageOutput (AssistantMessage [Text "hi"] (Some "expert"));
              RunCompleted (mkTokenUsage 7 7 0 0 14)] in
  ag_run (LlmAgent_agent [] (λ _, []) DriverDemo.triage) DriverDemo.ctx
    [UserMessage [Text "hello"]] (None, [DriverDemo.transfer; DriverDemo.say "hi" 2])
  = (Ok evs, (None, []))
  ∧ ∃ name rest, evs = RunStarted name :: rest
      ∧ run_ends rest None ((None, []) : RunState (W:=DriverDemo.script)).
Proof.
  intros evs.
  assert (ag_run (LlmAgent_agent [] (λ _, []) DriverDemo.triage) DriverDemo.ctx
    [UserMessage [Text "hello"]] (None, [DriverDemo.transfer; DriverDemo.say "hi" 2])
    = (Ok evs, (None, []))) as Hrun by (vm_compute; reflexivity).
  split; [exact Hrun|].
  assert (llm_tree [] (λ _, []) (LlmAgent_agent [] (λ _, []) DriverDemo.triage)) as Ht.
  { apply llm_tree_node; [vm_compute; split; discriminate|]. constructor; [|constructor].
    apply llm_tree_node; [vm_compute; split; discriminate|constructor]. }
  pose proof (llm_tree_contract _ _ _ Ht DriverDemo.ctx [UserMessage [Text "hello"]]
    (None, [DriverDemo.transfer; DriverDemo.say "hi" 2]) I) as Hc.
  rewrite Hrun in Hc. exact Hc.
Defined.


Lemma input_guardrail_blocks_witness :
  run_stream [] DriverDemo.expert DriverDemo.ctx (λ _, []) 11 [UserMessage [Text "attack"]]
    (None, [DriverDemo.say "hi" 2])
  = Some ([RunStarted "expert"; GuardrailTriggered InputPolicy VNull;
           RunFailed "input guardrail tripwire"],
      (Some (AEGuardrail InputPolicy), [DriverDemo.say "hi" 2])).
Proof.
  exact (input_guardrail_blocks [] DriverDemo.expert DriverDemo.ctx (λ _, []) 11
    [UserMessage [Text "attack"]] None [DriverDemo.say "hi" 2] [DriverDemo.say "hi" 2]
    [DriverDemo.say "hi" 2] (mkResolvedHook None None []) InputPolicy VNull eq_refl eq_refl eq_refl
    eq_refl).
Defined.
