(* ===== verification/Workflow.v ===== *)
(** Deterministic workflow agents: core/src/workflow.rs, with the run-scoped
    store and the escalation signal of core/src/state.rs.

    [SequentialAgent] and [LoopAgent] are agents over agents, so they are
    values of [Agent] whose runs call the runs of their steps.  The store and
    the signal are shared with the tools of a step through handles; they live
    in the world, which the class [Scratch] gives access to.  [ParallelAgent]
    polls the streams of its branches in whatever order they are ready: its
    model takes what every branch's stream yields, and the order, as inputs. *)

From S2P Require Import Prelude Json Items PathMatch CommandMatch LoopState Permission.
From S2P Require Import Redaction Tools ModelTurn Driver.

(** [SessionState] and [ActionsHandle::is_escalated] of the current run. *)
Class Scratch `{SerdeJson} (W : Type) := {
  state_of : W → gmap string Value;
  put_state : gmap string Value → W → W;
  escalated : W → bool;
  put_escalated : bool → W → W;
}.

Class ScratchLaws `{SerdeJson} (W : Type) `{!Scratch W} : Prop := {
  state_put : ∀ m w, state_of (put_state m w) = m;
  state_put_escalated : ∀ b w, state_of (put_escalated b w) = state_of w;
  escalated_put : ∀ b w, escalated (put_escalated b w) = b;
  escalated_put_state : ∀ m w, escalated (put_state m w) = escalated w;
}.

(** [SessionState::set] *)
Definition state_set `{SerdeJson} `{!Scratch W} (key text : string) (w : W) : W :=
  put_state (<[key:=VString text]> (state_of w)) w.

Definition assistant_text `{SerdeJson} (item : Item) : option string :=
  match item with
  | AssistantMessage content _ => Some (String.concat "" (omap text_of content))
  | _ => None
  end.

Definition RunConfig_default : RunConfig := mkRunConfig 16 None None 8.

Definition max_depth (run_config : option RunConfig) : Z :=
  default (max_agent_depth RunConfig_default) (max_agent_depth <$> run_config).

Section Workflow.
Context `{J : SerdeJson} `{G : Globset} `{R : !RustDebug} {W : Type} `{Sc : !Scratch W}.

(** [RunContext::subagent_child], but for the fresh failure slot and the fresh
    signal, which a step's run starts with. *)
Definition subagent_child (ctx : RunContext (W:=W)) : RunContext :=
  mkRunContext (rc_permissions ctx) (rc_hooks ctx) (rc_run_config ctx)
    (u32_saturating_add (rc_agent_depth ctx) 1) (rc_redact_output ctx) (rc_extra_secrets ctx).

(** The hooks of the run are told; what they answer is ignored. *)
Definition notify_hooks (hooks : list (Hook (W:=W))) (event : HookEvent) (w : W) : W :=
  fold_left (λ w hook, (hook event w).2) hooks w.

(** The nesting guard every workflow agent starts with. *)
Definition too_deep (ctx : RunContext (W:=W)) : option AgentError :=
  let max := max_depth (rc_run_config ctx) in
  let depth := u32_add (rc_agent_depth ctx) 1 in
  if (max <? depth)%Z then Some (MaxAgentDepthExceeded depth max) else None.

(** ** One step *)

(** What is kept while the stream of a step is relayed. *)
Record Relay := mkRelay { rl_total : TokenUsage; rl_text : string; rl_failed : bool }.

Definition relay_event (r : Relay) (ev : AgentEvent) : option AgentEvent * Relay :=
  match ev with
  | RunStarted _ => (None, r)
  | RunCompleted usage =>
      (None, mkRelay (TokenUsage_add (rl_total r) usage) (rl_text r) (rl_failed r))
  | RunFailed _ => (Some ev, mkRelay (rl_total r) (rl_text r) true)
  | MessageOutput item =>
      (Some ev, mkRelay (rl_total r) (default (rl_text r) (assistant_text item)) (rl_failed r))
  | _ => (Some ev, r)
  end.

Fixpoint relay_stream (r : Relay) (sub : list AgentEvent) : list AgentEvent * Relay :=
  match sub with
  | [] => ([], r)
  | ev :: sub' =>
      let '(o, r) := relay_event r ev in
      let '(out, r) := relay_stream r sub' in
      (option_list o ++ out, r)
  end.

(** Return from the stream, or go on with the next step. *)
Inductive StepFlow : Type :=
| StepReturn (yielded : list AgentEvent) (st : RunState (W:=W))
| StepNext (yielded : list AgentEvent) (total : TokenUsage) (stop : bool) (st : RunState (W:=W)).

(** Run one sub-agent; [stop] is the signal it left. *)
Definition run_step (ctx : RunContext (W:=W)) (input : list Item) (key : string)
    (agent : Agent (W:=W)) (total : TokenUsage) (st : RunState (W:=W)) : StepFlow :=
  let '(res, child) :=
    ag_run agent (subagent_child ctx) input (None, put_escalated false st.2) in
  let signal := escalated child.2 in
  let w := put_escalated (escalated st.2) child.2 in
  match res with
  | Err e =>
      StepReturn [AgentUpdated (ag_name agent); RunFailed (AgentError_display e)]
        (failure_set e (st.1, w))
  | Ok sub =>
      let '(out, r) := relay_stream (mkRelay total "" false) sub in
      let yielded := AgentUpdated (ag_name agent) :: out in
      let w := notify_hooks (rc_hooks ctx) (OnSubagentStop (ag_name agent)) w in
      if rl_failed r then
        StepReturn yielded
          match child.1 with Some e => failure_set e (st.1, w) | None => (st.1, w) end
      else StepNext yielded (rl_total r) signal (st.1, state_set key (rl_text r) w)
  end.

(** ** Sequences *)

Record SequentialAgent := mkSequentialAgent {
  sq_name : string;
  sq_description : string;
  sq_agents : list (string * Agent (W:=W));
}.

Definition SequentialAgent_new (name description : string) : SequentialAgent :=
  mkSequentialAgent name description [].

Definition then_keyed (s : SequentialAgent) (key : string) (a : Agent) : SequentialAgent :=
  mkSequentialAgent (sq_name s) (sq_description s) (sq_agents s ++ [(key, a)]).

Definition then_ (s : SequentialAgent) (a : Agent) : SequentialAgent := then_keyed s (ag_name a) a.

Fixpoint run_steps (ctx : RunContext) (input : list Item) (agents : list (string * Agent))
    (total : TokenUsage) (st : RunState (W:=W)) : list AgentEvent * RunState :=
  match agents with
  | [] => ([RunCompleted total], st)
  | (key, agent) :: agents' =>
      match run_step ctx input key agent total st with
      | StepReturn yielded st => (yielded, st)
      | StepNext yielded total _ st =>
          let '(out, st) := run_steps ctx input agents' total st in (yielded ++ out, st)
      end
  end.

(** [fail] with the nesting error, or the body. *)
Definition guarded (ctx : RunContext) (name : string)
    (body : RunState → list AgentEvent * RunState) (st : RunState (W:=W))
  : result (list AgentEvent) AgentError * RunState :=
  match too_deep ctx with
  | Some err => (Ok [RunStarted name; RunFailed (AgentError_display err)], failure_set err st)
  | None => let '(out, st) := body st in (Ok (RunStarted name :: out), st)
  end.

Definition SequentialAgent_agent (s : SequentialAgent) : Agent :=
  mkAgent (sq_name s) (sq_description s) (λ ctx input,
    guarded ctx (sq_name s) (run_steps ctx input (sq_agents s) TokenUsage_default)).

(** ** Loops *)

Record LoopAgent := mkLoopAgent {
  lo_name : string;
  lo_description : string;
  lo_agents : list (string * Agent (W:=W));
  lo_max_iterations : Z;
}.

(** One pass; no total when the stream returns. *)
Fixpoint run_pass (ctx : RunContext) (input : list Item) (agents : list (string * Agent))
    (total : TokenUsage) (st : RunState (W:=W))
  : list AgentEvent * RunState * option TokenUsage :=
  match agents with
  | [] => ([], st, Some total)
  | (key, agent) :: agents' =>
      match run_step ctx input key agent total st with
      | StepReturn yielded st => (yielded, st, None)
      | StepNext yielded total true st => (yielded ++ [RunCompleted total], st, None)
      | StepNext yielded total false st =>
          let '(out, st, total) := run_pass ctx input agents' total st in (yielded ++ out, st, total)
      end
  end.

Fixpoint run_iterations (ctx : RunContext) (input : list Item) (a : LoopAgent) (left : nat)
    (total : TokenUsage) (st : RunState (W:=W)) : list AgentEvent * RunState :=
  match left with
  | O =>
      let err := MaxIterationsExceeded (lo_max_iterations a) in
      ([RunFailed (AgentError_display err)], failure_set err st)
  | S left' =>
      let '(out, st, total) := run_pass ctx input (lo_agents a) total st in
      match total with
      | None => (out, st)
      | Some total => let '(out', st) := run_iterations ctx input a left' total st in (out ++ out', st)
      end
  end.

Definition LoopAgent_agent (a : LoopAgent) : Agent :=
  mkAgent (lo_name a) (lo_description a) (λ ctx input,
    guarded ctx (lo_name a)
      (run_iterations ctx input a (Z.to_nat (lo_max_iterations a)) TokenUsage_default)).
End Workflow.

(** ** The merge of parallel branches *)

Section Parallel.
Context `{J : SerdeJson} `{R : !RustDebug}.

(** What a branch does once started: it refuses to run, or its stream yields
    [Ok] of these events and leaves [br_slot] in its failure slot. *)
Record Branch := mkBranch {
  br_key : string;
  br_name : string;
  br_run : result (list AgentEvent) AgentError;
  br_slot : option AgentError;
}.

(** The effects on the run's store and its hooks, in order. *)
Inductive Effect : Type :=
| SetState (key text : string)
| SubagentStop (agent : string).

(** Start the branches: the events, and the error that ends the stream. *)
Fixpoint start_branches (seen : list string) (branches : list Branch)
  : list AgentEvent * option AgentError :=
  match branches with
  | [] => ([], None)
  | b :: branches' =>
      if bool_decide (br_key b ∈ seen) then
        ([], Some (AEOther ("duplicate parallel branch key: " +:+ br_key b)))
      else
        match br_run b with
        | Err e => ([AgentUpdated (br_name b)], Some e)
        | Ok _ =>
            let '(evs, failure) := start_branches (br_key b :: seen) branches' in
            (AgentUpdated (br_name b) :: evs, failure)
        end
  end.

Record Merge := mkMerge {
  mg_total : TokenUsage;
  mg_finals : list string;
  mg_completed : list (string * string);
  mg_saw_failure : bool;
  mg_effects : list Effect;
}.

(** [BTreeMap::insert] *)
Definition btree_insert (k v : string) (m : list (string * string)) : list (string * string) :=
  btree_alter v (λ _, v) k m.

(** One event of the merged stream, of branch [i]; [None] when out of range. *)
Definition merge_event (branches : list Branch) (m : Merge) (i : nat) (ev : AgentEvent)
  : option (option AgentEvent * Merge) :=
  b ← branches !! i;
  final ← mg_finals m !! i;
  Some
    match ev with
    | RunStarted _ => (None, m)
    | RunCompleted usage =>
        (None, mkMerge (TokenUsage_add (mg_total m) usage) (mg_finals m)
          (btree_insert (br_key b) final (mg_completed m)) (mg_saw_failure m)
          (mg_effects m ++ [SetState (br_key b) final; SubagentStop (br_name b)]))
    | RunFailed _ =>
        (None, mkMerge (mg_total m) (mg_finals m) (mg_completed m) true
          (mg_effects m ++ [SubagentStop (br_name b)]))
    | MessageOutput item =>
        (Some ev, match assistant_text item with
                  | Some t => mkMerge (mg_total m) (<[i:=t]> (mg_finals m)) (mg_completed m)
                                (mg_saw_failure m) (mg_effects m)
                  | None => m
                  end)
    | _ => (Some ev, m)
    end.

Definition merge_step (branches : list Branch) (acc : option (list AgentEvent * Merge))
    (p : nat * AgentEvent) : option (list AgentEvent * Merge) :=
  '(out, m) ← acc;
  '(o, m) ← merge_event branches m p.1 p.2;
  Some (out ++ option_list o, m).

(** [merged]: what [select_all] yields, tagged with the branch. *)
Definition merge (branches : list Branch) (merged : list (nat * AgentEvent))
  : option (list AgentEvent * Merge) :=
  fold_left (merge_step branches) merged
    (Some ([], mkMerge TokenUsage_default (replicate (length branches) "") [] false [])).

Definition outputs_json (m : list (string * string)) : string :=
  to_string (VObject (prod_map id VString <$> m)).

(** [ParallelAgent::run] after the nesting guard: the stream, the failure slot
    and the effects; [None] would be an index out of range. *)
Definition parallel_run (name : string) (branches : list Branch)
    (merged : list (nat * AgentEvent)) (slot : option AgentError)
  : option (list AgentEvent * option AgentError * list Effect) :=
  match start_branches [] branches with
  | (evs, Some err) => Some (evs ++ [RunFailed (AgentError_display err)], Some err, [])
  | (evs, None) =>
      '(out, m) ← merge branches merged;
      let first_err := find_map br_slot branches in
      if mg_saw_failure m || bool_decide (is_Some first_err) then
        let err := default (AEOther "a parallel branch failed") first_err in
        Some (evs ++ out ++ [RunFailed (AgentError_display err)], Some err, mg_effects m)
      else
        Some (evs ++ out ++
          [MessageOutput (AssistantMessage [Text (outputs_json (mg_completed m))] (Some name));
           RunCompleted (mg_total m)], slot, mg_effects m)
  end.
End Parallel.

(** ** Correctness *)

(** The text a stream leaves: that of its last assistant message. *)
Definition message_text `{SerdeJson} (ev : AgentEvent) : option string :=
  match ev with MessageOutput item => assistant_text item | _ => None end.

Definition final_text_from `{SerdeJson} (seed : string) (sub : list AgentEvent) : string :=
  default seed (last (omap message_text sub)).

Definition not_started `{SerdeJson} (ev : AgentEvent) : bool :=
  match ev with RunStarted _ => false | _ => true end.

Section Relay.
Context `{J : SerdeJson} {W : Type}.

(** Before the terminal event a stream is passed on but for [RunStarted]. *)
Lemma relay_quiet r l sub :
  no_terminal l →
  relay_stream r (l ++ sub)
  = let '(out, r') := relay_stream (mkRelay (rl_total r) (final_text_from (rl_text r) l) (rl_failed r)) sub in
    (filter (λ ev, not_started ev = true) l ++ out, r').
Proof.
  unfold final_text_from. revert r. induction l as [|ev l IH]; intros r Hl.
  { destruct r. simpl. by destruct (relay_stream _ sub). }
  apply Forall_cons in Hl as [Hev Hl]. simpl.
  destruct (relay_event r ev) as [o r1] eqn:E.
  rewrite (IH r1 Hl).
  assert (rl_total r1 = rl_total r ∧ rl_failed r1 = rl_failed r
    ∧ rl_text r1 = default (rl_text r) (message_text ev)
    ∧ option_list o = filter (λ ev, not_started ev = true) [ev]) as (-> & -> & Ht & Ho).
  { destruct ev; simplify_eq/=; done. }
  assert (default (rl_text r1) (last (omap message_text l))
    = default (rl_text r) (last (omap message_text (ev :: l)))) as ->.
  { rewrite Ht. simpl. destruct (message_text ev) as [t|]; [|done].
    by rewrite last_cons; destruct (last _). }
  destruct (relay_stream _ sub) as [out r']. rewrite (assoc_L (++)), Ho.
  by rewrite <- (filter_app _ [ev]).
Qed.

Lemma filter_no_terminal l :
  no_terminal l → no_terminal (filter (λ ev, not_started ev = true) l).
Proof. intros Hl. apply Forall_forall. intros x [_ Hx]%list_elem_of_filter. by eapply Forall_forall in Hl. Qed.
Abbreviation passed_on := (filter (λ ev, not_started ev = true)).

Lemma relay_completed r l u :
  no_terminal l →
  relay_stream r (l ++ [RunCompleted u])
  = (passed_on l, mkRelay (TokenUsage_add (rl_total r) u) (final_text_from (rl_text r) l) (rl_failed r)).
Proof. intros Hl. rewrite relay_quiet by done. simpl. by rewrite app_nil_r. Qed.

Lemma relay_failed r l msg :
  no_terminal l →
  relay_stream r (l ++ [RunFailed msg])
  = (passed_on l ++ [RunFailed msg], mkRelay (rl_total r) (final_text_from (rl_text r) l) true).
Proof. intros Hl. by rewrite relay_quiet. Qed.
End Relay.

Section Contract.
Context `{J : SerdeJson} `{G : Globset} `{R : !RustDebug} {W : Type} `{Sc : !Scratch W}.
Implicit Types (ctx : RunContext (W:=W)) (st : RunState (W:=W)).

Lemma child_context_ok ctx : context_ok ctx → context_ok (subagent_child ctx).
Proof. done. Qed.

(** Steps of an agent that keeps the contract. *)
Definition step_ok (slot : option AgentError) (f : StepFlow (W:=W)) : Prop :=
  match f with
  | StepReturn evs st' => run_ends evs slot st'
  | StepNext evs _ _ st' => no_terminal evs ∧ st'.1 = slot
  end.

Lemma run_step_ok ctx input key agent total st :
  context_ok ctx → AgentContract agent → step_ok st.1 (run_step ctx input key agent total st).
Proof.
  intros Hok Hc. unfold run_step.
  pose proof (Hc (subagent_child ctx) input (None, put_escalated false st.2) Hok) as Ha.
  destruct (ag_run agent _ _ _) as [[sub|e] child]; simpl in *.
  - destruct Ha as (name & rest & -> & l & ev & -> & Hl & Hev). rewrite app_comm_cons.
    assert (no_terminal (RunStarted name :: l)) as Hl' by by constructor.
    pose proof (filter_no_terminal _ Hl') as Hf.
    destruct ev; try done.
    + rewrite relay_completed by done. simpl. split; [by constructor|done].
    + rewrite relay_failed by done. simpl in *. destruct Hev as [e ->].
      eapply (run_ends_fail (AgentUpdated (ag_name agent) :: _)). by constructor.
  - by apply (run_ends_fail [_]); repeat constructor.
Qed.

(** A part of a stream after a quiet one. *)
Lemma run_ends_after l (p : list AgentEvent * RunState (W:=W)) slot st :
  no_terminal l → st.1 = slot → run_ends p.1 st.1 p.2 → run_ends (l ++ p.1) slot p.2.
Proof. intros Hl <- He. by apply run_ends_app. Qed.

Lemma run_steps_ok ctx input agents total st :
  context_ok ctx → Forall (λ ka, AgentContract ka.2) agents →
  let p := run_steps ctx input agents total st in run_ends p.1 st.1 p.2.
Proof.
  intros Hok Hc. revert total st. induction Hc as [|[key agent] agents Ha _ IH]; intros total st; simpl.
  - exists [], (RunCompleted total). split_and!; [done|constructor|done].
  - pose proof (run_step_ok ctx input key agent total st Hok Ha) as Hs.
    destruct (run_step ctx input key agent total st) as [evs st'|evs total' stop st']; [done|].
    destruct Hs as [Hq Hslot]. specialize (IH total' st'). simpl in IH.
    pose proof (run_ends_after evs (run_steps ctx input agents total' st') st.1 st' Hq Hslot IH).
    by destruct (run_steps ctx input agents total' st').
Qed.

Lemma run_pass_ok ctx input agents total st :
  context_ok ctx → Forall (λ ka, AgentContract ka.2) agents →
  match run_pass ctx input agents total st with
  | (evs, st', None) => run_ends evs st.1 st'
  | (evs, st', Some _) => no_terminal evs ∧ st'.1 = st.1
  end.
Proof.
  intros Hok Hc. revert total st. induction Hc as [|[key agent] agents Ha _ IH]; intros total st; simpl.
  - split; [constructor|done].
  - pose proof (run_step_ok ctx input key agent total st Hok Ha) as Hs.
    destruct (run_step ctx input key agent total st) as [evs st'|evs total' [] st']; [done|..];
      destruct Hs as [Hq Hslot].
    + exists evs, (RunCompleted total'). by split_and!.
    + specialize (IH total' st'). rewrite Hslot in IH.
      destruct (run_pass ctx input agents total' st') as [[evs' st''] [t|]].
      * destruct IH. split; [by apply Forall_app|done].
      * by apply run_ends_app.
Qed.

Lemma run_iterations_ok ctx input a left total st :
  context_ok ctx → Forall (λ ka, AgentContract ka.2) (lo_agents a) →
  let p := run_iterations ctx input a left total st in run_ends p.1 st.1 p.2.
Proof.
  intros Hok Hc. revert total st. induction left as [|left IH]; intros total st.
  - simpl. apply (run_ends_fail []). constructor.
  - simpl. pose proof (run_pass_ok ctx input (lo_agents a) total st Hok Hc) as Hp.
    destruct (run_pass ctx input (lo_agents a) total st) as [[evs st'] [t|]]; [|done].
    destruct Hp as [Hq Hslot]. specialize (IH t st'). simpl in IH.
    pose proof (run_ends_after evs (run_iterations ctx input a left t st') st.1 st' Hq Hslot IH).
    by destruct (run_iterations ctx input a left t st').
Qed.

Lemma guarded_contract ctx name body st :
  run_ends (body st).1 st.1 (body st).2 →
  match guarded ctx name body st with
  | (Ok evs, st') => ∃ name rest, evs = RunStarted name :: rest ∧ run_ends rest st.1 st'
  | (Err _, _) => True
  end.
Proof.
  intros He. unfold guarded. destruct (too_deep ctx) as [err|].
  - eexists _, _. split; [done|]. apply (run_ends_fail []). constructor.
  - destruct (body st) as [out st']. by eexists _, _.
Qed.
End Contract.

(** ** What a completed workflow did *)

Section Threads.
Context `{J : SerdeJson} `{G : Globset} `{R : !RustDebug} {W : Type} `{Sc : !Scratch W}.
Variables (ctx : RunContext (W:=W)) (input : list Item).

(** The steps run one after the other, each in a fresh child context: a step
    completes with usage [u] and leaves [signal]; then its final text is stored
    under its key and the next step starts in the world that results. *)
Inductive threads : list (string * Agent (W:=W)) → list bool → RunState (W:=W) →
    list TokenUsage → RunState (W:=W) → Prop :=
| threads_none st : threads [] [] st [] st
| threads_step key agent agents st name sub u child signals us st' :
    ag_run agent (subagent_child ctx) input (None, put_escalated false st.2)
      = (Ok (RunStarted name :: sub ++ [RunCompleted u]), child) →
    threads agents signals
      (st.1, state_set key (final_text_from "" sub)
        (notify_hooks (rc_hooks ctx) (OnSubagentStop (ag_name agent))
          (put_escalated (escalated st.2) child.2))) us st' →
    threads ((key, agent) :: agents) (escalated child.2 :: signals) st (u :: us) st'.

Lemma threads_app l1 l2 s1 s2 st us1 st1 us2 st2 :
  threads l1 s1 st us1 st1 → threads l2 s2 st1 us2 st2 →
  threads (l1 ++ l2) (s1 ++ s2) st (us1 ++ us2) st2.
Proof. induction 1; [done|]. intros. simpl. econstructor; [done|]. auto. Qed.

Hypothesis ctx_ok : context_ok ctx.

Lemma run_step_completed key agent total st evs total' stop st' :
  AgentContract agent →
  run_step ctx input key agent total st = StepNext evs total' stop st' →
  ∃ u, threads [(key, agent)] [stop] st [u] st' ∧ total' = TokenUsage_add total u.
Proof.
  intros Hc. unfold run_step.
  pose proof (Hc (subagent_child ctx) input (None, put_escalated false st.2) ctx_ok) as Ha.
  destruct (ag_run agent _ _ _) as [[sub|e] child] eqn:E; simpl in *; [|done].
  destruct Ha as (name & rest & -> & l & ev & -> & Hl & Hev). rewrite app_comm_cons.
  destruct ev; try done; [|by rewrite relay_failed by (by constructor)].
  rewrite relay_completed by by constructor. simpl. intros [= <- <- <- <-].
  exists usage. split; [|done].
  econstructor; [exact E|]. unfold final_text_from. simpl. constructor.
Qed.

Lemma run_step_failed key agent total st evs st' :
  AgentContract agent →
  run_step ctx input key agent total st = StepReturn evs st' → ∃ l msg, evs = l ++ [RunFailed msg].
Proof.
  intros Hc. unfold run_step.
  pose proof (Hc (subagent_child ctx) input (None, put_escalated false st.2) ctx_ok) as Ha.
  destruct (ag_run agent _ _ _) as [[sub|e] child]; simpl in *.
  - destruct Ha as (name & rest & -> & l & ev & -> & Hl & Hev). rewrite app_comm_cons.
    destruct ev; try done; [by rewrite relay_completed by (by constructor)|].
    rewrite relay_failed by by constructor. simpl. intros [= <- _].
    by eexists (_ :: _), _.
  - intros [= <- _]. by eexists [_], _.
Qed.

(** A completed end is the end of the last part. *)
Lemma completed_app (l : list AgentEvent) l' evs u :
  l ++ l' = evs ++ [RunCompleted u] → l' ≠ [] → ∃ evs', l' = evs' ++ [RunCompleted u].
Proof.
  destruct l' as [|ev l' _] using rev_ind; [done|]. rewrite (assoc_L (++)).
  intros [_ ->]%app_inj_tail _. eauto.
Qed.

Lemma not_failed_completed (l : list AgentEvent) msg evs u :
  l ++ [RunFailed msg] ≠ evs ++ [RunCompleted u].
Proof. by intros [_ ?]%app_inj_tail. Qed.

Lemma run_steps_completed agents total st evs u st' :
  Forall (λ ka, AgentContract ka.2) agents →
  run_steps ctx input agents total st = (evs ++ [RunCompleted u], st') →
  ∃ signals us, threads agents signals st us st' ∧ u = fold_left TokenUsage_add us total.
Proof.
  intros Hc. revert total st evs. induction Hc as [|[key agent] agents Ha Hcs IH]; intros total st evs; simpl.
  - intros [= Heq <-]. destruct evs as [|? []]; simplify_eq/=. exists [], []. split; [constructor|done].
  - destruct (run_step ctx input key agent total st) as [out st1|out total1 stop st1] eqn:Es.
    + intros [= -> <-]. destruct (run_step_failed _ _ _ _ _ _ Ha Es) as (l & msg & Hl).
      by apply eq_sym, not_failed_completed in Hl.
    + destruct (run_step_completed _ _ _ _ _ _ _ _ Ha Es) as (u1 & Ht & ->).
      pose proof (run_steps_ok ctx input agents (TokenUsage_add total u1) st1 ctx_ok Hcs) as Hr.
      destruct (run_steps ctx input agents _ st1) as [out' st2] eqn:E. simpl in Hr.
      intros [= Heq <-]. destruct (completed_app out out' evs u Heq) as [evs' ->].
      { destruct Hr as (l & ev & -> & _). by destruct l. }
      destruct (IH _ _ _ E) as (signals & us & Hts & ->).
      exists (stop :: signals), (u1 :: us). split; [|done].
      exact (threads_app [_] _ [_] _ _ [_] _ _ _ Ht Hts).
Qed.
(** The last of these steps, and only the last, signalled. *)
Abbreviation only_last n := (replicate n false ++ [true]).

Lemma run_pass_next agents total st out st' total' :
  Forall (λ ka, AgentContract ka.2) agents →
  run_pass ctx input agents total st = (out, st', Some total') →
  ∃ us, threads agents (replicate (length agents) false) st us st'
    ∧ total' = fold_left TokenUsage_add us total.
Proof.
  intros Hc. revert total st out. induction Hc as [|[key agent] agents Ha Hcs IH]; intros total st out; simpl.
  - intros [= <- <- <-]. exists []. split; [constructor|done].
  - destruct (run_step ctx input key agent total st) as [|out1 total1 [] st1] eqn:Es; [done..|].
    destruct (run_step_completed _ _ _ _ _ _ _ _ Ha Es) as (u1 & Ht & ->).
    destruct (run_pass ctx input agents _ st1) as [[out2 st2] r] eqn:E. intros [= _ <- ->].
    destruct (IH _ _ _ E) as (us & Hts & ->). exists (u1 :: us). split; [|done].
    exact (threads_app [_] _ [_] _ _ [_] _ _ _ Ht Hts).
Qed.

Lemma run_pass_completed agents total st evs u st' :
  Forall (λ ka, AgentContract ka.2) agents →
  run_pass ctx input agents total st = (evs ++ [RunCompleted u], st', None) →
  ∃ pre ka rest us, agents = pre ++ ka :: rest
    ∧ threads (pre ++ [ka]) (only_last (length pre)) st us st'
    ∧ u = fold_left TokenUsage_add us total.
Proof.
  intros Hc. revert total st evs. induction Hc as [|[key agent] agents Ha Hcs IH]; intros total st evs; simpl; [done|].
  destruct (run_step ctx input key agent total st) as [out st1|out total1 [] st1] eqn:Es.
  - intros [= -> <-]. destruct (run_step_failed _ _ _ _ _ _ Ha Es) as (l & msg & Hl).
    by apply eq_sym, not_failed_completed in Hl.
  - destruct (run_step_completed _ _ _ _ _ _ _ _ Ha Es) as (u1 & Ht & ->).
    intros [= Heq <-]. apply app_inj_tail in Heq as [_ [= <-]].
    exists [], (key, agent), agents, [u1]. by split_and!.
  - destruct (run_step_completed _ _ _ _ _ _ _ _ Ha Es) as (u1 & Ht & ->).
    pose proof (run_pass_ok ctx input agents (TokenUsage_add total u1) st1 ctx_ok Hcs) as Hr.
    destruct (run_pass ctx input agents _ st1) as [[out' st2] r] eqn:E. intros [= Heq <- ->].
    destruct (completed_app out out' evs u Heq) as [evs' ->].
    { destruct Hr as (l & ev & -> & _). by destruct l. }
    destruct (IH _ _ _ E) as (pre & ka & rest & us & -> & Hts & ->).
    exists ((key, agent) :: pre), ka, rest, (u1 :: us). split_and!; [done| |done].
    exact (threads_app [_] _ [_] _ _ [_] _ _ _ Ht Hts).
Qed.

Lemma run_iterations_completed a left total st evs u st' :
  Forall (λ ka, AgentContract ka.2) (lo_agents a) →
  run_iterations ctx input a left total st = (evs ++ [RunCompleted u], st') →
  ∃ n pre ka rest us, (n < left)%nat ∧ lo_agents a = pre ++ ka :: rest
    ∧ threads (concat (replicate n (lo_agents a)) ++ pre ++ [ka])
        (only_last (n * length (lo_agents a) + length pre)) st us st'
    ∧ u = fold_left TokenUsage_add us total.
Proof.
  intros Hc. revert total st evs. induction left as [|left IH]; intros total st evs; simpl.
  - intros [= Heq _]. by apply (not_failed_completed []) in Heq.
  - pose proof (run_pass_ok ctx input (lo_agents a) total st ctx_ok Hc) as Hp.
    destruct (run_pass ctx input (lo_agents a) total st) as [[out st1] [total1|]] eqn:E.
    + destruct (run_pass_next _ _ _ _ _ _ Hc E) as (us1 & Ht & ->).
      pose proof (run_iterations_ok ctx input a left (fold_left TokenUsage_add us1 total) st1 ctx_ok Hc) as Hr.
      destruct (run_iterations ctx input a left _ st1) as [out' st2] eqn:E'. simpl in Hr.
      intros [= Heq <-]. destruct (completed_app out out' evs u Heq) as [evs' ->].
      { destruct Hr as (l & ev & -> & _). by destruct l. }
      destruct (IH _ _ _ E') as (n & pre & ka & rest & us & Hn & Hl & Hts & ->).
      exists (S n), pre, ka, rest, (us1 ++ us). split_and!; [lia|done| |by rewrite fold_left_app].
      simpl. rewrite <- (assoc_L (++)). pose proof (threads_app _ _ _ _ _ _ _ _ _ Ht Hts) as Happ.
      rewrite (assoc_L (++) (replicate _ _)), <- replicate_add in Happ. by rewrite Nat.add_assoc in Happ.
    + intros [= -> <-]. destruct (run_pass_completed _ _ _ _ _ _ Hc E) as (pre & ka & rest & us & Hl & Ht & ->).
      exists O, pre, ka, rest, us. split_and!; [lia|done..].
Qed.
End Threads.

(** ** The merge of parallel branches does not depend on the order *)

(** What of [merged] came from branch [i]. *)
Definition of_branch {A} (i : nat) (merged : list (nat * A)) : list A :=
  omap (λ p, if Nat.eqb p.1 i then Some p.2 else None) merged.

Definition interleaves {A} (merged : list (nat * A)) (streams : list (list A)) : Prop :=
  Forall (λ p, p.1 < length streams)%nat merged
  ∧ ∀ i s, streams !! i = Some s → of_branch i merged = s.

Section Interleave.
Context {A : Type}.

Lemma of_branch_app i (m1 m2 : list (nat * A)) :
  of_branch i (m1 ++ m2) = of_branch i m1 ++ of_branch i m2.
Proof. apply omap_app. Qed.

Lemma flat_map_app_perm {B C} (f g : B → list C) l :
  flat_map (λ x, f x ++ g x) l ≡ₚ flat_map f l ++ flat_map g l.
Proof. induction l as [|x l IH]; simpl; [done|]. rewrite IH. solve_Permutation. Qed.

Lemma flat_map_single j (x : A) l :
  NoDup l → j ∈ l → flat_map (λ i, if Nat.eqb j i then [x] else []) l = [x].
Proof.
  assert (∀ l, j ∉ l → flat_map (λ i, if Nat.eqb j i then [x] else []) l = []) as Hnil.
  { intros l' Hl'. induction l' as [|y l' IH]; simpl; [done|].
    apply not_elem_of_cons in Hl' as [Hne Hl']. rewrite IH by done.
    by destruct (Nat.eqb_spec j y). }
  induction 1 as [|y l Hy _ IH]; [by intros ?%elem_of_nil|]. simpl.
  intros [->|Hin]%elem_of_cons.
  - by rewrite Nat.eqb_refl, Hnil.
  - rewrite IH by done. destruct (Nat.eqb_spec j y); [by subst|done].
Qed.

(** Merging loses and adds nothing. *)
Lemma interleaves_perm (merged : list (nat * A)) streams :
  interleaves merged streams → merged.*2 ≡ₚ concat streams.
Proof.
  intros [Hr Hs].
  assert (merged.*2 ≡ₚ flat_map (λ i, of_branch i merged) (seq 0 (length streams))) as ->.
  { clear Hs. induction Hr as [|[j x] merged Hj _ IH]; simpl in *.
    - clear. induction (seq 0 _) as [|y l IH]; simpl; done.
    - rewrite (flat_map_ext _ (λ i, (if Nat.eqb j i then [x] else []) ++ of_branch i merged)).
      2:{ intros i. unfold of_branch. simpl. by destruct (Nat.eqb j i). }
      rewrite flat_map_app_perm, flat_map_single, <- IH; [done|apply NoDup_ListNoDup, List.seq_NoDup|].
      apply elem_of_seq. lia. }
  rewrite flat_map_concat_map. apply reflexive_eq. f_equal.
  apply list_eq. intros i. change (map ?f ?l) with (f <$> l). rewrite list_lookup_fmap.
  destruct (streams !! i) as [s|] eqn:E.
  - rewrite lookup_seq_lt by (by eapply lookup_lt_Some). simpl. by rewrite (Hs i s).
  - rewrite lookup_seq_ge by (by apply lookup_ge_None). done.
Qed.
End Interleave.

Section MergeSpec.
Context `{J : SerdeJson} `{R : !RustDebug}.
Variable branches : list Branch.
Hypothesis distinct : NoDup (br_key <$> branches).

Definition completed_usage (ev : AgentEvent) : option TokenUsage :=
  match ev with RunCompleted u => Some u | _ => None end.

Definition is_run_failed (ev : AgentEvent) : bool :=
  match ev with RunFailed _ => true | _ => false end.

(** The branch of key [k] has completed with final text [t]. *)
Definition has_output (merged : list (nat * AgentEvent)) (k t : string) : Prop :=
  ∃ i b s u, branches !! i = Some b ∧ br_key b = k
    ∧ of_branch i merged = s ++ [RunCompleted u] ∧ t = final_text_from "" s.

(** A branch yields nothing after a terminal event. *)
Definition orderly (merged : list (nat * AgentEvent)) : Prop :=
  ∀ i l ev l', of_branch i merged = l ++ ev :: l' → l' ≠ [] → is_terminal ev = false.

Lemma of_branch_snoc i (m : list (nat * AgentEvent)) j ev :
  of_branch i (m ++ [(j, ev)]) = of_branch i m ++ (if Nat.eqb j i then [ev] else []).
Proof. rewrite of_branch_app. unfold of_branch at 2. simpl. by destruct (Nat.eqb j i). Qed.

Lemma orderly_snoc m j ev :
  orderly (m ++ [(j, ev)]) → orderly m ∧ no_terminal (of_branch j m).
Proof.
  intros Ho. split.
  - intros i l e l' Hm Hne. apply (Ho i l e (l' ++ (if Nat.eqb j i then [ev] else []))).
    + by rewrite of_branch_snoc, Hm, <- (assoc_L (++)).
    + by destruct l'.
  - apply Forall_forall. intros e (l & l' & Hm)%list_elem_of_split.
    apply (Ho j l e (l' ++ [ev])); [|by destruct l'].
    by rewrite of_branch_snoc, Nat.eqb_refl, Hm, <- (assoc_L (++)).
Qed.

Lemma final_text_snoc seed s ev :
  message_text ev = None → final_text_from seed (s ++ [ev]) = final_text_from seed s.
Proof. intros Hev. unfold final_text_from. rewrite omap_app. simpl. rewrite Hev. by rewrite app_nil_r. Qed.

Lemma final_text_message seed s ev t :
  message_text ev = Some t → final_text_from seed (s ++ [ev]) = t.
Proof. intros Hev. unfold final_text_from. rewrite omap_app. simpl. rewrite Hev. by rewrite last_snoc. Qed.

Lemma has_output_snoc m j b ev k t :
  branches !! j = Some b → no_terminal (of_branch j m) →
  has_output (m ++ [(j, ev)]) k t
  ↔ has_output m k t
    ∨ ∃ u, ev = RunCompleted u ∧ k = br_key b ∧ t = final_text_from "" (of_branch j m).
Proof.
  intros Hb Hn. split.
  - intros (i & b' & s & u & Hb' & <- & Hm & ->). rewrite of_branch_snoc in Hm.
    destruct (Nat.eqb_spec j i) as [->|].
    + simplify_eq. apply app_inj_tail in Hm as [<- ->]. right. eauto.
    + rewrite app_nil_r in Hm. left. by exists i, b', s, u.
  - intros [(i & b' & s & u & Hb' & <- & Hm & ->)|(u & -> & -> & ->)].
    + exists i, b', s, u. rewrite of_branch_snoc. destruct (Nat.eqb_spec j i) as [->|].
      * exfalso. rewrite Hm in Hn. apply Forall_app in Hn as [_ Hn]. by apply Forall_cons in Hn as [? _].
      * by rewrite app_nil_r.
    + exists j, b, (of_branch j m), u. by rewrite of_branch_snoc, Nat.eqb_refl.
Qed.

(** The state of the merge after part of the merged stream. *)
Definition merge_inv (merged : list (nat * AgentEvent)) (out : list AgentEvent) (m : Merge) : Prop :=
  no_terminal out
  ∧ length (mg_finals m) = length branches
  ∧ (∀ i t, mg_finals m !! i = Some t → t = final_text_from "" (of_branch i merged))
  ∧ mg_total m = sum_usage (omap completed_usage merged.*2)
  ∧ mg_saw_failure m = existsb is_run_failed merged.*2
  ∧ btree_sorted (mg_completed m)
  ∧ (∀ k t, btree_get k (mg_completed m) = Some t ↔ has_output merged k t)
  ∧ (∀ k t, SetState k t ∈ mg_effects m ↔ has_output merged k t).

(** Keys tell branches apart. *)
Lemma key_inj i j b b' :
  branches !! i = Some b → branches !! j = Some b' → br_key b = br_key b' → i = j ∧ b = b'.
Proof.
  intros Hi Hj He. assert (i = j) as ->.
  { eapply NoDup_lookup; [exact distinct| |]; rewrite list_lookup_fmap, ?Hi, ?Hj; simpl; [done|by rewrite He]. }
  by simplify_eq.
Qed.

Definition finals_ok (finals : list string) (merged : list (nat * AgentEvent)) : Prop :=
  ∀ i t, finals !! i = Some t → t = final_text_from "" (of_branch i merged).

Lemma finals_same finals m j ev :
  message_text ev = None → finals_ok finals m → finals_ok finals (m ++ [(j, ev)]).
Proof.
  intros Hev Hf i t Hi. rewrite of_branch_snoc. destruct (Nat.eqb j i).
  - rewrite final_text_snoc by done. by apply Hf.
  - rewrite app_nil_r. by apply Hf.
Qed.

Lemma finals_set finals m j ev t :
  message_text ev = Some t → finals_ok finals m → finals_ok (<[j:=t]> finals) (m ++ [(j, ev)]).
Proof.
  intros Hev Hf i t' Hi. rewrite of_branch_snoc. destruct (Nat.eqb_spec j i) as [->|Hne].
  - rewrite (final_text_message _ _ _ t) by done.
    apply list_lookup_insert_Some in Hi. naive_solver.
  - rewrite app_nil_r. apply Hf. by rewrite list_lookup_insert_ne in Hi.
Qed.

(** An event that is not terminal changes nothing but the texts. *)
Lemma merge_inv_quiet merged out m j b ev o finals :
  branches !! j = Some b → no_terminal (of_branch j merged) → is_terminal ev = false →
  o = [ev] ∨ o = [] →
  length finals = length (mg_finals m) → finals_ok finals (merged ++ [(j, ev)]) →
  merge_inv merged out m →
  merge_inv (merged ++ [(j, ev)]) (out ++ o)
    (mkMerge (mg_total m) finals (mg_completed m) (mg_saw_failure m) (mg_effects m)).
Proof.
  intros Hb Hn Ht Ho Hlen Hf (Hout & Hl & _ & Htot & Hfail & Hs & Hc & He).
  assert (∀ k t, has_output (merged ++ [(j, ev)]) k t ↔ has_output merged k t) as Hsame.
  { intros k t. rewrite has_output_snoc by done. split; [|by left].
    intros [?|(u & -> & _)]; done. }
  split_and!; simpl.
  - apply Forall_app. split; [done|]. destruct Ho as [->| ->]; by repeat constructor.
  - by rewrite Hlen.
  - done.
  - rewrite fmap_app, omap_app. simpl. destruct ev; try done; by rewrite app_nil_r.
  - rewrite fmap_app, existsb_app, Hfail. simpl. destruct ev; try done; by rewrite !orb_false_r.
  - done.
  - intros k t. by rewrite Hsame.
  - intros k t. by rewrite Hsame.
Qed.

Lemma merge_event_inv merged out m j ev :
  (j < length branches)%nat → orderly (merged ++ [(j, ev)]) → merge_inv merged out m →
  ∃ o m', merge_event branches m j ev = Some (o, m')
    ∧ merge_inv (merged ++ [(j, ev)]) (out ++ option_list o) m'.
Proof.
  intros Hj [_ Hn]%orderly_snoc Hinv.
  pose proof Hinv as (Hout & Hl & Hf & Htot & Hfail & Hs & Hc & He).
  destruct (lookup_lt_is_Some_2 branches j Hj) as [b Hb].
  destruct (lookup_lt_is_Some_2 (mg_finals m) j ltac:(lia)) as [final Hfinal].
  pose proof (Hf j final Hfinal) as Hft.
  unfold merge_event. rewrite Hb, Hfinal. simpl.
  destruct (is_terminal ev) eqn:Et.
  - destruct ev; try done; eexists _, _; (split; [done|]); split_and!; simpl.
    + by rewrite app_nil_r.
    + done.
    + by apply finals_same.
    + rewrite fmap_app, omap_app. simpl. by rewrite sum_usage_snoc, Htot.
    + rewrite fmap_app, existsb_app, Hfail. simpl. by rewrite orb_false_r.
    + by apply btree_alter_sorted.
    + intros k t. unfold btree_insert. rewrite btree_get_alter, has_output_snoc, <- Hc by done.
      destruct (String.eqb_spec k (br_key b)) as [->|Hk]; [|naive_solver].
      split; [naive_solver|]. intros [Hg|(u & _ & _ & ->)]; [|by rewrite Hft].
      apply Hc in Hg as (i & b' & s & u & Hb' & Hkey & Hm & _).
      destruct (key_inj _ _ _ _ Hb' Hb Hkey) as [-> ->]. exfalso.
      rewrite Hm in Hn. apply Forall_app in Hn as [_ Hn]. by apply Forall_cons in Hn as [? _].
    + intros k t. rewrite elem_of_app, has_output_snoc, He by done. rewrite !elem_of_cons, elem_of_nil.
      naive_solver.
    + by rewrite app_nil_r.
    + done.
    + by apply finals_same.
    + rewrite fmap_app, omap_app. simpl. by rewrite app_nil_r.
    + rewrite fmap_app, existsb_app. simpl. by rewrite orb_true_r.
    + done.
    + intros k t. rewrite has_output_snoc, Hc by done. naive_solver.
    + intros k t. rewrite elem_of_app, has_output_snoc, He by done. rewrite !elem_of_cons, elem_of_nil.
      naive_solver.
  - assert (∀ o, o = [ev] ∨ o = [] → message_text ev = None →
      merge_inv (merged ++ [(j, ev)]) (out ++ o) m) as Hquiet.
    { intros o Ho Hm. pose proof (merge_inv_quiet merged out m j b ev o (mg_finals m) Hb Hn Et Ho eq_refl
        (finals_same _ _ _ _ Hm Hf) Hinv). by destruct m. }
    destruct ev; try done; try (eexists _, _; split; [done|]; apply Hquiet; auto; done).
    destruct (assistant_text item) as [t|] eqn:Ea; eexists _, _; (split; [done|]).
    + eapply merge_inv_quiet; [done..|by left| |by apply finals_set|done]. by rewrite length_insert.
    + apply Hquiet; auto.
Qed.

Lemma merge_spec merged :
  Forall (λ p, p.1 < length branches)%nat merged → orderly merged →
  ∃ out m, merge branches merged = Some (out, m) ∧ merge_inv merged out m.
Proof.
  unfold merge. induction merged as [|[j ev] merged IH] using rev_ind; intros Hr Ho.
  - eexists _, _. split; [done|]. split_and!; simpl; try done.
    + constructor.
    + by rewrite length_replicate.
    + intros i t [-> _]%lookup_replicate. done.
    + intros k t. split; [done|]. intros (i & b & s & u & _ & _ & Hm & _). by destruct s.
    + intros k t. split; [by intros ?%elem_of_nil|].
      intros (i & b & s & u & _ & _ & Hm & _). by destruct s.
  - apply Forall_app in Hr as [Hr Hj]. apply Forall_cons in Hj as [Hj _]. simpl in Hj.
    destruct (orderly_snoc _ _ _ Ho) as [Ho' _].
    destruct (IH Hr Ho') as (out & m & Hm & Hinv). rewrite fold_left_app, Hm. simpl.
    destruct (merge_event_inv merged out m j ev Hj Ho Hinv) as (o & m' & -> & Hinv'). simpl. eauto.
Qed.
Lemma start_branches_ok seen bs :
  NoDup (br_key <$> bs) → (∀ b, b ∈ bs → (br_key b ∉ seen) ∧ is_ok (br_run b) = true) →
  start_branches seen bs = ((λ b, AgentUpdated (br_name b)) <$> bs, None).
Proof.
  revert seen. induction bs as [|b bs IH]; intros seen Hd Hok; simpl; [done|].
  apply NoDup_cons in Hd as [Hb Hd]. destruct (Hok b ltac:(by left)) as [Hseen Hrun].
  rewrite bool_decide_false by done. destruct (br_run b); [|done].
  rewrite (IH (br_key b :: seen)); [done|done|]. intros b' Hb'.
  destruct (Hok b' ltac:(by right)). split; [|done].
  rewrite not_elem_of_cons. split; [|done]. intros Heq. apply Hb.
  apply list_elem_of_fmap. eauto.
Qed.

(** A branch that keeps the contract of agents, and its stream. *)
Definition branch_ok (b : Branch) (sub : list AgentEvent) : Prop :=
  br_run b = Ok sub
  ∧ ∃ name rest, sub = RunStarted name :: rest ∧ run_ends rest None (br_slot b, tt).

Section Merged.
Variables (subs : list (list AgentEvent)) (merged : list (nat * AgentEvent)).
Hypothesis all_ok : Forall2 branch_ok branches subs.
Hypothesis shuffled : interleaves merged subs.

Lemma merged_in_range : Forall (λ p, p.1 < length branches)%nat merged.
Proof. rewrite (Forall2_length _ _ _ all_ok). exact (proj1 shuffled). Qed.

Lemma of_branch_out i : subs !! i = None → of_branch i merged = [].
Proof.
  intros Hi. apply lookup_ge_None in Hi. pose proof (proj1 shuffled) as Hr.
  clear shuffled. induction Hr as [|[j ev] m Hj _ IH]; [done|]. unfold of_branch in *. simpl in *.
  destruct (Nat.eqb_spec j i); [lia|done].
Qed.

Lemma merged_orderly : orderly merged.
Proof.
  intros i l ev l' Hm Hne. destruct (subs !! i) as [sub|] eqn:Ei.
  - destruct (Forall2_lookup_r _ _ _ _ _ all_ok Ei) as (b & _ & _ & name & rest & -> & l0 & ev0 & -> & Hl0 & _).
    rewrite (proj2 shuffled _ _ Ei) in Hm.
    destruct l' as [|x l' _] using rev_ind; [done|].
    rewrite app_comm_cons, (app_comm_cons _ _ ev), (assoc_L (++)) in Hm.
    apply app_inj_tail in Hm as [Hm _].
    assert (no_terminal (RunStarted name :: l0)) as Hq by by constructor.
    rewrite Hm in Hq. apply Forall_app in Hq as [_ Hq]. by apply Forall_cons in Hq as [? _].
  - rewrite (of_branch_out i Ei) in Hm. by destruct l.
Qed.

(** Without a filled slot every branch completed. *)
Hypothesis no_slot : find_map br_slot branches = None.

Lemma branch_completed i b sub :
  branches !! i = Some b → subs !! i = Some sub →
  ∃ l u, sub = l ++ [RunCompleted u] ∧ no_terminal l.
Proof.
  intros Hb Hsub.
  destruct (Forall2_lookup_lr _ _ _ _ _ _ all_ok Hb Hsub) as (_ & name & rest & -> & l & ev & -> & Hl & Hev).
  apply find_map_None in no_slot. rewrite Forall_forall in no_slot.
  rewrite (no_slot b) in Hev by (by eapply list_elem_of_lookup_2). simpl in Hev.
  destruct ev; try done.
  exists (RunStarted name :: l), usage. split; [done|]. by constructor.
Qed.

Definition branch_outputs : list (string * string) :=
  zip (br_key <$> branches) (final_text_from "" <$> subs).

Lemma has_output_spec key t : has_output merged key t ↔ (key, t) ∈ branch_outputs.
Proof.
  unfold branch_outputs. split.
  - intros (i & b & s & u & Hb & <- & Hm & ->).
    destruct (Forall2_lookup_l _ _ _ _ _ all_ok Hb) as (sub & Hsub & _).
    rewrite (proj2 shuffled _ _ Hsub) in Hm. subst sub. apply list_elem_of_lookup. exists i.
    rewrite lookup_zip_with, !list_lookup_fmap, Hb, Hsub. simpl. by rewrite final_text_snoc.
  - intros (i & Hi)%list_elem_of_lookup. rewrite lookup_zip_with, !list_lookup_fmap in Hi.
    destruct (branches !! i) as [b|] eqn:Hb; [|done]. destruct (subs !! i) as [sub|] eqn:Hsub; [|done].
    simpl in Hi. injection Hi as <- <-. destruct (branch_completed i b sub Hb Hsub) as (l & u & -> & _).
    exists i, b, l, u. split_and!; [done..| |].
    + by rewrite (proj2 shuffled _ _ Hsub).
    + by rewrite final_text_snoc.
Qed.

Lemma no_branch_failed : existsb is_run_failed merged.*2 = false.
Proof.
  apply existsb_Forall. rewrite (interleaves_perm _ _ shuffled). apply Forall_concat, Forall_forall.
  intros sub (i & Hsub)%list_elem_of_lookup.
  destruct (Forall2_lookup_r _ _ _ _ _ all_ok Hsub) as (b & Hb & _).
  destruct (branch_completed i b sub Hb Hsub) as (l & u & -> & Hl).
  apply Forall_app. split; [|by repeat constructor].
  eapply Forall_weaken; [exact Hl|]. by intros [].
Qed.
End Merged.
End MergeSpec.

(** A sorted map of the outputs, as a function of the branches alone. *)
Definition sorted_outputs (kts : list (string * string)) : list (string * string) :=
  fold_left (λ m kt, btree_insert kt.1 kt.2 m) kts [].

Lemma sorted_outputs_spec kts :
  btree_sorted (sorted_outputs kts)
  ∧ (NoDup kts.*1 → ∀ k t, btree_get k (sorted_outputs kts) = Some t ↔ (k, t) ∈ kts).
Proof.
  unfold sorted_outputs. induction kts as [|[k0 t0] kts [Hs IH]] using rev_ind.
  - split; [done|]. intros _ k t. rewrite elem_of_nil. done.
  - rewrite fold_left_app. simpl. split; [by apply btree_alter_sorted|].
    rewrite fmap_app. intros (Hd & Hnot & _)%NoDup_app k t. unfold btree_insert.
    rewrite btree_get_alter, elem_of_app, list_elem_of_singleton by done.
    destruct (String.eqb_spec k k0) as [->|Hk]; [|rewrite IH by done; naive_solver].
    split; [naive_solver|]. intros [Hin|[= ->]]; [|done]. exfalso.
    apply (Hnot k0); [|by left]. apply list_elem_of_fmap. by exists (k0, t).
Qed.

Lemma sorted_outputs_unique kts m :
  NoDup kts.*1 → btree_sorted m → (∀ k t, btree_get k m = Some t ↔ (k, t) ∈ kts) →
  m = sorted_outputs kts.
Proof.
  intros Hd Hm Hg. destruct (sorted_outputs_spec kts) as [Hs Hspec].
  apply btree_ext; [done..|]. intros k. apply option_eq. intros t. by rewrite Hg, Hspec.
Qed.

Lemma sum_field_perm (f : TokenUsage → Z) us us' : us ≡ₚ us' → sum_field f us = sum_field f us'.
Proof.
  intros Hp. unfold sum_field. apply (foldr_permutation_proper eq Z.add); [apply _|intros; lia|].
  by apply fmap_Permutation.
Qed.

Lemma usage_is_sum_perm u us us' : us ≡ₚ us' → usage_is_sum u us → usage_is_sum u us'.
Proof.
  intros Hp (? & ? & ? & ? & ?). by split_and!; rewrite <- (sum_field_perm _ _ _ Hp).
Qed.

(** C23. The merge of parallel branches is deterministic: whatever the order in
    which the events of contract-keeping branches with distinct keys arrive,
    the stream ends with one terminal event; it fails exactly when a branch
    failed, with the error of the first such branch, and otherwise ends with
    the object of the branches' final texts, sorted by key, and the sum of
    their usage, each text being stored under its key. *)
Theorem parallel_deterministic `{J : SerdeJson} `{R : !RustDebug} name branches subs merged slot :
  NoDup (br_key <$> branches) → Forall2 branch_ok branches subs → interleaves merged subs →
  ∃ out slot' effects total,
    let outputs := zip (br_key <$> branches) (final_text_from "" <$> subs) in
    no_terminal out
    ∧ parallel_run name branches merged slot
      = Some (((λ b, AgentUpdated (br_name b)) <$> branches) ++ out ++
          match find_map br_slot branches with
          | Some e => [RunFailed (AgentError_display e)]
          | None =>
              [MessageOutput (AssistantMessage [Text (outputs_json (sorted_outputs outputs))] (Some name));
               RunCompleted total]
          end, slot', effects)
    ∧ match find_map br_slot branches with
      | Some e => slot' = Some e
      | None => slot' = slot ∧ usage_is_sum total (omap completed_usage (concat subs))
          ∧ ∀ k t, SetState k t ∈ effects ↔ (k, t) ∈ outputs
      end.
Proof.
  intros Hd Hok Hi. unfold parallel_run.
  rewrite (start_branches_ok [] branches Hd).
  2:{ intros b (i & Hb)%list_elem_of_lookup. split; [apply not_elem_of_nil|].
      destruct (Forall2_lookup_l _ _ _ _ _ Hok Hb) as (sub & _ & Hrun & _). by rewrite Hrun. }
  destruct (merge_spec branches Hd merged (merged_in_range branches subs merged Hok Hi)
    (merged_orderly branches subs merged Hok Hi)) as (out & m & -> & Hinv). simpl.
  destruct Hinv as (Hq & _ & _ & Htot & Hfail & Hs & Hc & He).
  destruct (find_map br_slot branches) as [e|] eqn:Hslot.
  - rewrite bool_decide_true, orb_true_r by eauto. exists out, (Some e), (mg_effects m), (mg_total m). done.
  - rewrite Hfail, (no_branch_failed branches subs merged Hok Hi Hslot). simpl.
    exists out, slot, (mg_effects m), (mg_total m).
    pose proof (has_output_spec branches subs merged Hok Hi Hslot) as Ho.
    assert (mg_completed m = sorted_outputs (branch_outputs branches subs)) as ->.
    { apply sorted_outputs_unique; [|done|intros; by rewrite Hc, Ho].
      unfold branch_outputs. rewrite fst_zip; [done|].
      rewrite !length_fmap. by rewrite (Forall2_length _ _ _ Hok). }
    split_and!; [done..| |intros k t; by rewrite He, Ho].
    rewrite Htot. eapply usage_is_sum_perm; [|apply sum_usage_is_sum].
    by apply omap_Permutation, interleaves_perm.
Qed.

(** A completed sequence ran all its steps in order, each in a fresh child
    context and in the world the previous one left, in which that one's final
    text is stored under its key; the reported usage is the sum over the steps. *)
Theorem sequential_completed `{J : SerdeJson} `{G : Globset} `{R : !RustDebug} {W : Type}
    `{Sc : !Scratch W} (s : SequentialAgent (W:=W)) ctx input st evs u st' :
  context_ok ctx → Forall (λ ka, AgentContract ka.2) (sq_agents s) →
  ag_run (SequentialAgent_agent s) ctx input st = (Ok (evs ++ [RunCompleted u]), st') →
  ∃ signals us, threads ctx input (sq_agents s) signals st us st' ∧ u = sum_usage us.
Proof.
  intros Hok Hc. simpl. unfold guarded. destruct (too_deep ctx) as [err|].
  - intros [= Heq _]. by apply (not_failed_completed [_]) in Heq.
  - destruct (run_steps _ _ _ _ _) as [out st1] eqn:E. intros [= Heq <-].
    pose proof (run_steps_ok ctx input (sq_agents s) TokenUsage_default st Hok Hc) as Hr.
    rewrite E in Hr. simpl in Hr. destruct (completed_app [RunStarted (sq_name s)] out evs u Heq) as [evs' ->].
    { destruct Hr as (l & ev & -> & _). by destruct l. }
    exact (run_steps_completed _ _ Hok _ _ _ _ _ _ Hc E).
Qed.

(** A loop completes only on a signal: it ran fewer than [max_iterations] full
    passes without one, then the steps of a pass up to the first that raised
    it, and reports the sum of their usage. *)
Theorem loop_completed `{J : SerdeJson} `{G : Globset} `{R : !RustDebug} {W : Type}
    `{Sc : !Scratch W} (a : LoopAgent (W:=W)) ctx input st evs u st' :
  context_ok ctx → Forall (λ ka, AgentContract ka.2) (lo_agents a) →
  ag_run (LoopAgent_agent a) ctx input st = (Ok (evs ++ [RunCompleted u]), st') →
  ∃ n pre ka rest us,
    (Z.of_nat n < lo_max_iterations a)%Z
    ∧ lo_agents a = pre ++ ka :: rest
    ∧ threads ctx input (concat (replicate n (lo_agents a)) ++ pre ++ [ka])
        (replicate (n * length (lo_agents a) + length pre) false ++ [true]) st us st'
    ∧ u = sum_usage us.
Proof.
  intros Hok Hc. simpl. unfold guarded. destruct (too_deep ctx) as [err|].
  - intros [= Heq _]. by apply (not_failed_completed [_]) in Heq.
  - destruct (run_iterations _ _ _ _ _ _) as [out st1] eqn:E. intros [= Heq <-].
    pose proof (run_iterations_ok ctx input a (Z.to_nat (lo_max_iterations a)) TokenUsage_default st Hok Hc) as Hr.
    rewrite E in Hr. simpl in Hr. destruct (completed_app [RunStarted (lo_name a)] out evs u Heq) as [evs' ->].
    { destruct Hr as (l & ev & -> & _). by destruct l. }
    destruct (run_iterations_completed _ _ Hok _ _ _ _ _ _ _ Hc E)
      as (n & pre & ka & rest & us & Hn & Hl & Ht & Hu).
    exists n, pre, ka, rest, us. split_and!; [lia|done..].
Qed.

(** *** Witnesses *)

Module WorkflowDemo.
#[local] Existing Instance Toy.json.
#[local] Existing Instance Permission.Demo.globset.
#[local] Existing Instance ToolsDemo.debug.
#[local] Existing Instance DriverDemo.loop_debug.

(** The world is the store and the signal. *)
Definition World : Type := gmap string Toy.value * bool.

#[export] Instance scratch : Scratch World := {|
  state_of w := w.1;
  put_state m w := (m, w.2);
  escalated w := w.2;
  put_escalated b w := (w.1, b);
|}.

#[export] Instance scratch_laws : ScratchLaws World.
Proof. by split. Qed.

Definition ctx : RunContext (W:=World) :=
  mkRunContext (mkPermissions ModeDefault None [] [] None [] true) [] None 0 true [].

Definition usage (n : Z) : TokenUsage := mkTokenUsage n n 0 0 (2 * n).

Definition said (name text : string) : AgentEvent :=
  MessageOutput (AssistantMessage [Text text] (Some name)).

(** An agent that says [text], and signals when the store has key [stop]. *)
Definition speaker (name text stop : string) : Agent (W:=World) :=
  mkAgent name "" (λ _ _ st,
    (Ok [RunStarted name; said name text; RunCompleted (usage 3)],
     (st.1, (st.2.1, bool_decide (is_Some (st.2.1 !! stop)))))).

Lemma speaker_contract name text stop : AgentContract (speaker name text stop).
Proof.
  intros ctx input st _. eexists _, _. split; [reflexivity|].
  exists [said name text], (RunCompleted (usage 3)). by split_and!; [|repeat constructor|].
Defined.

Definition model : ModelInvoke (W:=World) := λ _ w,
  (Ok [Ok (METokenDelta "hi"); Ok (MEUsage 2 2 None None); Ok (MEFinish Items.Stop)], w).

Definition llm (name : string) : LlmAgent (W:=World) :=
  mkLlmAgent name "" (λ _ _, "") model [] [] None [] [] [] LoopState.Demo.settings DriverDemo.config.

Definition pipeline : SequentialAgent (W:=World) :=
  then_ (then_keyed (SequentialAgent_new "pipeline" "") "draft" (speaker "writer" "text" ""))
    (speaker "critic" "fine" "").

(** The critic stops the loop once there is a draft. *)
Definition rounds : LoopAgent (W:=World) :=
  mkLoopAgent "rounds" "" [("draft", speaker "writer" "text" ""); ("review", speaker "critic" "fine" "review")] 5.

Definition start : RunState (W:=World) := (None, (∅, false)).

Definition branches : list Branch :=
  [mkBranch "b" "writer" (Ok [RunStarted "writer"; said "writer" "text"; RunCompleted (usage 3)]) None;
   mkBranch "a" "critic" (Ok [RunStarted "critic"; said "critic" "fine"; RunCompleted (usage 4)]) None].

Definition subs : list (list AgentEvent) :=
  [[RunStarted "writer"; said "writer" "text"; RunCompleted (usage 3)];
   [RunStarted "critic"; said "critic" "fine"; RunCompleted (usage 4)]].

Definition merged : list (nat * AgentEvent) :=
  [(0, RunStarted "writer"); (1, RunStarted "critic"); (1, said "critic" "fine");
   (1, RunCompleted (usage 4)); (0, said "writer" "text"); (0, RunCompleted (usage 3))]%nat.
End WorkflowDemo.

Section Witnesses.
#[local] Existing Instance Toy.json.
#[local] Existing Instance Permission.Demo.globset.
#[local] Existing Instance ToolsDemo.debug.
#[local] Existing Instance DriverDemo.loop_debug.
Import WorkflowDemo.

Lemma sequential_completed_witness :
  let evs := [RunStarted "pipeline"; AgentUpdated "writer"; said "writer" "text";
              AgentUpdated "critic"; said "critic" "fine"] in
  let p := ag_run (SequentialAgent_agent pipeline) ctx [] start in
  p.1 = Ok (evs ++ [RunCompleted (usage 6)]) ∧ p.2.2.1 !! "draft" = Some (Toy.TString "text")
  ∧ ∃ signals us, threads ctx [] (sq_agents pipeline) signals start us p.2 ∧ usage 6 = sum_usage us.
Proof.
  intros evs p. assert (p.1 = Ok (evs ++ [RunCompleted (usage 6)])) as Hp by (vm_compute; reflexivity).
  split; [exact Hp|]. split; [vm_compute; reflexivity|].
  apply (sequential_completed pipeline ctx [] start evs (usage 6) p.2); [exact I| |].
  - repeat apply Forall_cons_2; [apply speaker_contract..|constructor].
  - change (p = (Ok (evs ++ [RunCompleted (usage 6)]), p.2)). rewrite <- Hp. by destruct p.
Defined.

(** The second pass stops after the critic. *)
Lemma loop_completed_witness :
  let p := ag_run (LoopAgent_agent rounds) ctx [] start in
  ∃ evs, p.1 = Ok (evs ++ [RunCompleted (usage 12)])
  ∧ ∃ n pre ka rest us, (Z.of_nat n < 5)%Z ∧ lo_agents rounds = pre ++ ka :: rest
    ∧ threads ctx [] (concat (replicate n (lo_agents rounds)) ++ pre ++ [ka])
        (replicate (n * 2 + length pre) false ++ [true]) start us p.2
    ∧ usage 12 = sum_usage us.
Proof.
  intros p. set (pass := [AgentUpdated "writer"; said "writer" "text"; AgentUpdated "critic"; said "critic" "fine"]).
  exists (RunStarted "rounds" :: pass ++ pass).
  assert (p.1 = Ok ((RunStarted "rounds" :: pass ++ pass) ++ [RunCompleted (usage 12)])) as Hp
    by (vm_compute; reflexivity).
  split; [exact Hp|].
  apply (loop_completed rounds ctx [] start (RunStarted "rounds" :: pass ++ pass) (usage 12) p.2); [exact I| |].
  - repeat apply Forall_cons_2; [apply speaker_contract..|constructor].
  - change (p = (Ok ((RunStarted "rounds" :: pass ++ pass) ++ [RunCompleted (usage 12)]), p.2)).
    rewrite <- Hp. by destruct p.
Defined.

Lemma parallel_deterministic_witness :
  interleaves merged subs
  ∧ ∃ out slot' effects total,
      no_terminal out
      ∧ parallel_run "team" branches merged None
        = Some ([AgentUpdated "writer"; AgentUpdated "critic"] ++ out ++
            [said "team" (outputs_json [("a", "fine"); ("b", "text")]); RunCompleted total], slot', effects)
      ∧ slot' = None ∧ usage_is_sum total [usage 3; usage 4].
Proof.
  assert (interleaves merged subs) as Hi.
  { split; [repeat constructor|]. intros [|[|i]] s [= <-]; vm_compute; reflexivity. }
  split; [exact Hi|].
  assert (NoDup (br_key <$> branches)) as Hd by (apply (bool_decide_unpack _); vm_compute; exact I).
  assert (Forall2 branch_ok branches subs) as Hok.
  { assert (∀ name text n, run_ends [said name text; RunCompleted (usage n)] None
      ((None, tt) : RunState (W:=unit))) as Hends.
    { intros name text n. exists [said name text], (RunCompleted (usage n)).
      by split_and!; [|repeat constructor|]. }
    constructor; [|constructor; [|constructor]].
    all: split; [reflexivity|]; eexists _, _; split; [reflexivity|apply Hends]. }
  destruct (parallel_deterministic "team" branches subs merged None Hd Hok Hi)
    as (out & slot' & effects & total & Hq & Hrun & Hslot & Hu & _).
  exists out, slot', effects, total. split_and!; [exact Hq|exact Hrun|exact Hslot|exact Hu].
Defined.
End Witnesses.
