(* ===== verification/Session.v ===== *)
(** Conversation persistence: core/src/session.rs, the compacting wrapper of
    compacting_session.rs and the token estimate of token_counter.rs.

    A session is an append-only log behind the interface [Session], whose laws
    [SessionLaws] say what the wrapper relies on; [MemorySession] implements
    it.  [now] is the clock, read once per recorded event.  Lengths ([usize],
    64 bits) are natural numbers, the estimate with its saturation is a [Z]. *)

From S2P Require Import Prelude Json Items PathMatch CommandMatch LoopState Permission.
From S2P Require Import Redaction Tools ModelTurn Driver.

Section Events.
Context `{J : SerdeJson}.

Inductive SessionEvent : Type :=
| SEUserMessage (content : list ContentPart) (ts : Z)
| SEAssistantMessage (content : list ContentPart) (agent : string) (ts : Z)
| SEToolCalled (call_id name : string) (args : Value) (ts : Z)
| SEToolReturned (call_id : string) (content : list ContentPart) (ts : Z)
| SEHandoffOccurred (from to : string) (ts : Z)
| SECompacted (summary : string) (original_count : Z) (ts : Z).

Definition kind (ev : SessionEvent) : string :=
  match ev with
  | SEUserMessage _ _ => "user_message"
  | SEAssistantMessage _ _ _ => "assistant_message"
  | SEToolCalled _ _ _ _ => "tool_called"
  | SEToolReturned _ _ _ => "tool_returned"
  | SEHandoffOccurred _ _ _ => "handoff_occurred"
  | SECompacted _ _ _ => "compacted"
  end.

Definition event_ts (ev : SessionEvent) : Z :=
  match ev with
  | SEUserMessage _ ts | SEAssistantMessage _ _ ts | SEToolCalled _ _ _ ts
  | SEToolReturned _ _ ts | SEHandoffOccurred _ _ ts | SECompacted _ _ ts => ts
  end.

Definition i64_min : Z := - 2 ^ 63.
Definition i64_max : Z := 2 ^ 63 - 1.

Definition ts_nanos_saturating (ev : SessionEvent) : Z :=
  let nanos := event_ts ev in
  if ((i64_min <=? nanos) && (nanos <=? i64_max))%Z then nanos
  else if (nanos <? 0)%Z then i64_min else i64_max.

(** ** Projection

    [messages], and how many of them each event still in effect contributed. *)
Definition Projection : Type := list Item * list nat.

Definition list_sum (l : list nat) : nat := fold_right Nat.add 0%nat l.

Definition push_item (p : Projection) (i : Item) : Projection := (p.1 ++ [i], p.2 ++ [1%nat]).

Definition project_step (p : Projection) (ev : SessionEvent) : Projection :=
  match ev with
  | SEUserMessage content _ => push_item p (UserMessage content)
  | SEAssistantMessage content agent _ => push_item p (AssistantMessage content (Some agent))
  | SEToolCalled call_id name args _ => push_item p (ToolCall call_id name args)
  | SEToolReturned call_id content _ => push_item p (ToolResult call_id content)
  | SEHandoffOccurred _ _ _ => (p.1, p.2 ++ [0%nat])
  | SECompacted summary original_count _ =>
      let '(messages, contributions) := p in
      let n := Z.to_nat original_count in
      let drop_from_idx := (length contributions - n)%nat in
      let drop_msg_count := list_sum (drop drop_from_idx contributions) in
      let new_len := (length messages - drop_msg_count)%nat in
      push_item (take new_len messages, take drop_from_idx contributions) (System [Text summary])
  end.

Definition project_state (events : list SessionEvent) : Projection :=
  fold_left project_step events ([], []).

Definition project (events : list SessionEvent) : list Item := (project_state events).1.

(** ** The in-memory session *)

Definition MemorySession : Type := list SessionEvent.

Definition MemorySession_new : MemorySession := [].

Definition usize_max : Z := u64_max.

Definition memory_append (events : list SessionEvent) (s : MemorySession)
  : result unit SessionError * MemorySession := (Ok tt, s ++ events).

(** [since] is exclusive; a start past the end is an empty slice. *)
Definition memory_events (since : option Z) (s : MemorySession) : result (list SessionEvent) SessionError :=
  let start := match since with Some n => Z.min (n + 1) usize_max | None => 0 end%Z in
  Ok (if (start <=? Z.of_nat (length s))%Z then drop (Z.to_nat start) s else []).

Definition memory_snapshot (s : MemorySession) : result (list Item) SessionError :=
  match memory_events None s with Ok events => Ok (project events) | Err e => Err e end.

(** ** The recorder *)

Record SessionRecorder := mkSessionRecorder {
  sr_events : list SessionEvent;
  current_agent : string;
}.

Variable now : nat → Z.

Definition SessionRecorder_new (root_agent : string) : SessionRecorder :=
  mkSessionRecorder [] root_agent.

(** The event constructors read the clock. *)
Definition record (r : SessionRecorder) (ev : Z → SessionEvent) : SessionRecorder :=
  mkSessionRecorder (sr_events r ++ [ev (now (length (sr_events r)))]) (current_agent r).

Definition record_item (r : SessionRecorder) (item : Item) : SessionRecorder :=
  match item with
  | UserMessage content => record r (SEUserMessage content)
  | AssistantMessage content agent =>
      record r (SEAssistantMessage content (default (current_agent r) agent))
  | ToolCall call_id name args => record r (SEToolCalled call_id name args)
  | ToolResult call_id content => record r (SEToolReturned call_id content)
  | System _ => r
  end.

Definition record_input (r : SessionRecorder) (messages : list Item) : SessionRecorder :=
  fold_left record_item messages r.

Definition observe_event (r : SessionRecorder) (ev : AgentEvent) : SessionRecorder :=
  match ev with
  | RunStarted agent | AgentUpdated agent => mkSessionRecorder (sr_events r) agent
  | MessageOutput (AssistantMessage content agent) =>
      record r (SEAssistantMessage content (default (current_agent r) agent))
  | ToolCallItem (ToolCall call_id name args) => record r (SEToolCalled call_id name args)
  | ToolOutputItem (ToolResult call_id content) => record r (SEToolReturned call_id content)
  | HandoffItem from to => record r (SEHandoffOccurred from to)
  | _ => r
  end.

Definition observe_all (r : SessionRecorder) (evs : list AgentEvent) : SessionRecorder :=
  fold_left observe_event evs r.

Definition returned_ids (events : list SessionEvent) : list string :=
  omap (λ e, match e with SEToolReturned call_id _ _ => Some call_id | _ => None end) events.

Definition unfinished_text : string := "tool call did not complete (run cancelled/timed out)".

Definition synthesized (events : list SessionEvent) : list (Z → SessionEvent) :=
  omap (λ e,
    match e with
    | SEToolCalled call_id _ _ _ =>
        if bool_decide (call_id ∈ returned_ids events) then None
        else Some (SEToolReturned call_id [Text unfinished_text])
    | _ => None
    end) events.

(** [SessionRecorder::drain], which leaves the recorder empty. *)
Definition drain_recorder (r : SessionRecorder) : list SessionEvent * SessionRecorder :=
  (sr_events (fold_left record (synthesized (sr_events r)) r),
   mkSessionRecorder [] (current_agent r)).
End Events.

(** ** The interface of sessions *)

(** What a session backend offers: operations on a state [S] that may fail. *)
Class Session `{SerdeJson} (S : Type) := {
  session_append : list SessionEvent → S → result unit SessionError * S;
  session_events : option Z → S → result (list SessionEvent) SessionError;
  session_snapshot : S → result (list Item) SessionError;
}.

(** Append-only: a successful append adds its events to the log, a failed one
    leaves it alone, and reads return it. *)
Class SessionLaws `{SerdeJson} (S : Type) `{!Session S} := {
  session_log : S → list SessionEvent;
  append_ok : ∀ evs s s', session_append evs s = (Ok tt, s') → session_log s' = session_log s ++ evs;
  append_err : ∀ evs s e s', session_append evs s = (Err e, s') → session_log s' = session_log s;
  events_ok : ∀ s l, session_events None s = Ok l → l = session_log s;
  snapshot_ok : ∀ s l, session_snapshot s = Ok l → l = project (session_log s);
}.

#[export] Instance memory_session `{J : SerdeJson} : Session MemorySession := {|
  session_append := memory_append;
  session_events := memory_events;
  session_snapshot := memory_snapshot;
|}.

(** ** Token estimates: token_counter.rs *)

Section Tokens.
Context `{J : SerdeJson}.

Definition json_chars (v : Value) : nat := String.length (to_string v).

Fixpoint part_chars (part : ContentPart) : nat :=
  match part with
  | Text text | Reasoning text => String.length text
  | PartToolUse _ name args => String.length name + json_chars args
  | PartToolResult _ content => list_sum (List.map part_chars content)
  | Image _ | Audio _ => 0
  end%nat.

Definition item_chars (item : Item) : nat :=
  match item with
  | UserMessage content | AssistantMessage content _ | System content | ToolResult _ content =>
      list_sum (part_chars <$> content)
  | ToolCall _ name args => (String.length name + json_chars args)%nat
  end.

Definition total_chars (items : list Item) : nat := list_sum (item_chars <$> items).

(** [HeuristicTokenCounter::count]: the ceiling of a quarter. *)
Definition heuristic_count (items : list Item) : Z := (Z.of_nat (total_chars items) + 3) / 4.
End Tokens.

(** ** The compacting session *)

Definition DEFAULT_THRESHOLD : Z := 8000.

Definition DEFAULT_PROMPT : string :=
  "Summarize the conversation so far into a concise summary, " +:+
  "preserving key facts, decisions, and open questions.".

Definition usize_saturating_mul (a b : Z) : Z := Z.min (a * b) usize_max.
Definition usize_saturating_add (a b : Z) : Z := Z.min (a + b) usize_max.

Section Compacting.
Context `{J : SerdeJson} {S W : Type} `{SS : !Session S}.

(** The fixed part, and the inner session with the two atomics. *)
Record CompactingConfig := mkCompactingConfig {
  cc_model : ModelInvoke (W:=W);
  cc_counter : list Item → Z;
  cc_threshold : Z;
  cc_settings : ModelSettings;
  cc_prompt : string;
}.

Record CompactingSession := mkCompactingSession {
  cs_inner : S;
  cheap_estimate : Z;
  compacting : bool;
}.

(** [build]: [None] is [ZeroThreshold]. *)
Definition compacting_build (threshold : Z) (inner : S) : option CompactingSession :=
  if (threshold =? 0)%Z then None else Some (mkCompactingSession inner usize_max false).

Variable cfg : CompactingConfig.
Variable now : Z.

Definition add_estimate (events : list SessionEvent) (c : CompactingSession) : CompactingSession :=
  let chars := u64_wrap (cc_counter cfg (project events) * 4) in
  mkCompactingSession (cs_inner c) (usize_saturating_add (cheap_estimate c) chars) (compacting c).

Definition is_compacted (ev : SessionEvent) : bool :=
  match ev with SECompacted _ _ _ => true | _ => false end.

(** Events since, and including, the last marker. *)
Fixpoint live_go (since : option nat) (events : list SessionEvent) : option nat :=
  match events with
  | [] => since
  | ev :: events' =>
      live_go (if is_compacted ev then Some 1 else Nat.succ <$> since)%nat events'
  end.

Definition live_count (events : list SessionEvent) : nat :=
  default (length events) (live_go None events).

(** The text of the model's answer; [None] is any error. *)
Fixpoint summary_of (stream : list (result ModelEvent ModelError)) : option string :=
  match stream with
  | [] => Some ""
  | Err _ :: _ => None
  | Ok (METokenDelta text) :: stream' => String.append text <$> summary_of stream'
  | Ok (MEFinish _) :: _ => Some ""
  | Ok _ :: stream' => summary_of stream'
  end.

Definition collect_summary (req : ModelRequest) (w : W) : option string * W :=
  match cc_model cfg req w with
  | (Err _, w) => (None, w)
  | (Ok stream, w) => (summary_of stream, w)
  end.

Definition is_running_summary (messages : list Item) : bool :=
  match messages with [] | [System _] => true | _ => false end.

Definition set_estimate (n : Z) (c : CompactingSession) : CompactingSession :=
  mkCompactingSession (cs_inner c) n (compacting c).

(** [maybe_compact] under the single-flight flag. *)
Definition compact_now (c : CompactingSession) (w : W)
  : result unit SessionError * CompactingSession * W :=
  match session_events None (cs_inner c) with
  | Err e => (Err e, c, w)
  | Ok evs =>
      let messages := project evs in
      let tokens := cc_counter cfg messages in
      if (tokens <=? cc_threshold cfg)%Z then
        (Ok tt, set_estimate (usize_saturating_mul tokens 4) c, w)
      else if is_running_summary messages then (Ok tt, c, w)
      else
        let req := mkModelRequest (messages ++ [UserMessage [Text (cc_prompt cfg)]]) []
                     (cc_settings cfg) in
        match collect_summary req w with
        | (None, w) => (Ok tt, c, w)
        | (Some summary, w) =>
            if is_empty (trim summary) then (Ok tt, c, w)
            else
              match session_append [SECompacted summary (Z.of_nat (live_count evs)) now] (cs_inner c) with
              | (Err e, inner) => (Err e, mkCompactingSession inner (cheap_estimate c) (compacting c), w)
              | (Ok _, inner) =>
                  (Ok tt, mkCompactingSession inner
                    (usize_saturating_mul (cc_counter cfg [System [Text summary]]) 4) (compacting c), w)
              end
        end
  end.

Definition maybe_compact (c : CompactingSession) (w : W)
  : result unit SessionError * CompactingSession * W :=
  if (cheap_estimate c <=? usize_saturating_mul (cc_threshold cfg) 4)%Z then (Ok tt, c, w)
  else if compacting c then (Ok tt, c, w)
  else
    let '(res, c, w) := compact_now (mkCompactingSession (cs_inner c) (cheap_estimate c) true) w in
    (res, mkCompactingSession (cs_inner c) (cheap_estimate c) false, w).

Definition compacting_append (events : list SessionEvent) (c : CompactingSession) (w : W)
  : result unit SessionError * CompactingSession * W :=
  match session_append events (cs_inner c) with
  | (Err e, inner) => (Err e, mkCompactingSession inner (cheap_estimate c) (compacting c), w)
  | (Ok _, inner) =>
      maybe_compact (add_estimate events (mkCompactingSession inner (cheap_estimate c) (compacting c))) w
  end.

Definition compacting_events (since : option Z) (c : CompactingSession) :=
  session_events since (cs_inner c).
Definition compacting_snapshot (c : CompactingSession) := session_snapshot (cs_inner c).
End Compacting.

(** ** The projection as a list of units

    The reference: every event in effect is the list of the items it stands
    for, and a marker replaces the last [original_count] of them by one. *)

Section Units.
Context `{J : SerdeJson}.

Definition event_items (ev : SessionEvent) : list Item :=
  match ev with
  | SEUserMessage content _ => [UserMessage content]
  | SEAssistantMessage content agent _ => [AssistantMessage content (Some agent)]
  | SEToolCalled call_id name args _ => [ToolCall call_id name args]
  | SEToolReturned call_id content _ => [ToolResult call_id content]
  | SEHandoffOccurred _ _ _ => []
  | SECompacted summary _ _ => [System [Text summary]]
  end.

Definition units_step (units : list (list Item)) (ev : SessionEvent) : list (list Item) :=
  match ev with
  | SECompacted _ n _ => take (length units - Z.to_nat n) units ++ [event_items ev]
  | _ => units ++ [event_items ev]
  end.

Definition units (events : list SessionEvent) : list (list Item) := fold_left units_step events [].

Lemma list_sum_app l1 l2 : list_sum (l1 ++ l2) = (list_sum l1 + list_sum l2)%nat.
Proof. unfold list_sum. induction l1 as [|x l1 IH]; simpl; [done|]. lia. Qed.

Lemma list_sum_lengths {A} (us : list (list A)) : list_sum (length <$> us) = length (concat us).
Proof. induction us as [|u us IH]; simpl; [done|]. by rewrite length_app, <- IH. Qed.

Lemma concat_take {A} k (us : list (list A)) :
  take (length (concat us) - length (concat (drop k us))) (concat us) = concat (take k us).
Proof.
  rewrite <- (take_drop k us) at 1 3. rewrite concat_app, length_app.
  replace (_ + _ - _)%nat with (length (concat (take k us))) by lia. apply take_app_length.
Qed.

Lemma project_step_units us ev :
  project_step (concat us, length <$> us) ev
  = (concat (units_step us ev), length <$> units_step us ev).
Proof.
  assert (∀ u, concat (us ++ [u]) = concat us ++ u) as Hc.
  { intros u. rewrite concat_app. simpl. by rewrite app_nil_r. }
  destruct ev; unfold push_item; simpl; rewrite ?Hc, ?fmap_app; simpl; try done;
    [by rewrite app_nil_r|].
  rewrite length_fmap, <- fmap_drop, list_sum_lengths, concat_take, concat_app, fmap_take. done.
Qed.

Lemma project_state_units events :
  project_state events = (concat (units events), length <$> units events).
Proof.
  unfold project_state, units. change ([] : list Item, [] : list nat) with
    (concat ([] : list (list Item)), length <$> ([] : list (list Item))).
  generalize ([] : list (list Item)). induction events as [|ev events IH]; intros us; simpl; [done|].
  by rewrite project_step_units, IH.
Qed.

Definition unmarked (events : list SessionEvent) : Prop :=
  Forall (λ ev, is_compacted ev = false) events.

Lemma units_app e1 e2 : unmarked e2 → units (e1 ++ e2) = units e1 ++ (event_items <$> e2).
Proof.
  intros Hu. unfold units. rewrite fold_left_app. generalize (fold_left units_step e1 []).
  induction Hu as [|ev e2 Hev _ IH]; intros us; simpl; [by rewrite app_nil_r|].
  rewrite IH. destruct ev; try done; simpl; by rewrite <- (assoc_L (++)).
Qed.

Lemma project_units events : project events = concat (units events).
Proof. unfold project. by rewrite project_state_units. Qed.

Lemma project_app e1 e2 : unmarked e2 → project (e1 ++ e2) = project e1 ++ project e2.
Proof.
  intros Hu. rewrite !project_units, units_app by done.
  pose proof (units_app [] e2 Hu) as H2. simpl in H2. by rewrite H2, concat_app.
Qed.

Lemma project_snoc e ev : is_compacted ev = false → project (e ++ [ev]) = project e ++ event_items ev.
Proof.
  intros Hev. rewrite project_app by (by repeat constructor). f_equal.
  rewrite project_units. destruct ev; try done; simpl; by rewrite ?app_nil_r.
Qed.
End Units.

(** The projection of a log is the concatenation of what its events stand
    for, where a compaction marker stands for the last [original_count] events
    still in effect; its bookkeeping of contributions never underflows. *)
Theorem project_refines `{J : SerdeJson} events :
  project events = concat (units events)
  ∧ list_sum (project_state events).2 = length (project events).
Proof.
  split; [apply project_units|]. rewrite project_state_units. simpl.
  by rewrite list_sum_lengths, project_units.
Qed.

(** ** What the recorder keeps of a run *)

Section Recorder.
Context `{J : SerdeJson} (now : nat → Z).

(** Items the log can carry with their author. *)
Definition visible (item : Item) : bool := match item with System _ => false | _ => true end.

Definition attributed (item : Item) : bool :=
  match item with AssistantMessage _ None => false | _ => true end.

Definition event_item (ev : AgentEvent) : option Item :=
  match ev with
  | MessageOutput (AssistantMessage content agent) => Some (AssistantMessage content agent)
  | ToolCallItem (ToolCall call_id name args) => Some (ToolCall call_id name args)
  | ToolOutputItem (ToolResult call_id content) => Some (ToolResult call_id content)
  | _ => None
  end.

Abbreviation visible_items := (filter (λ i, visible i = true)).

Lemma project_record r ev :
  (∀ ts, is_compacted (ev ts) = false) →
  project (sr_events (record now r ev))
  = project (sr_events r) ++ event_items (ev (now (length (sr_events r)))).
Proof. intros Hev. simpl. by apply project_snoc. Qed.

Lemma record_input_project r messages :
  Forall (λ i, attributed i = true) messages →
  project (sr_events (record_input now r messages))
  = project (sr_events r) ++ visible_items messages.
Proof.
  intros Ha. revert r. unfold record_input. induction Ha as [|item messages Hi _ IH]; intros r; simpl.
  - by rewrite app_nil_r.
  - rewrite IH. destruct item as [|? [|]| | |]; try done; simpl; rewrite ?project_snoc by done; simpl;
      by rewrite <- ?(assoc_L (++)).
Qed.

Lemma observe_all_project r evs :
  Forall (λ i, attributed i = true) (omap event_item evs) →
  project (sr_events (observe_all now r evs)) = project (sr_events r) ++ omap event_item evs.
Proof.
  revert r. unfold observe_all. induction evs as [|ev evs IH]; intros r Ha; simpl.
  - by rewrite app_nil_r.
  - simpl in Ha. destruct ev; simpl in *; try (rewrite IH by done; done);
      try (destruct item; simpl in *; try (rewrite IH by done; done)).
    + apply Forall_cons in Ha as [Hi Ha]. destruct agent; [|done].
      rewrite IH by done. simpl. rewrite project_snoc by done. simpl. by rewrite <- (assoc_L (++)).
    + apply Forall_cons in Ha as [Hi Ha].
      rewrite IH by done. simpl. rewrite project_snoc by done. simpl. by rewrite <- (assoc_L (++)).
    + apply Forall_cons in Ha as [Hi Ha].
      rewrite IH by done. simpl. rewrite project_snoc by done. simpl. by rewrite <- (assoc_L (++)).
    + rewrite IH by done. simpl. rewrite project_snoc by done. simpl. by rewrite app_nil_r.
Qed.

(** The recorder never writes a marker. *)
Lemma record_unmarked r ev :
  (∀ ts, is_compacted (ev ts) = false) → unmarked (sr_events r) → unmarked (sr_events (record now r ev)).
Proof. intros Hev Hu. apply Forall_app. split; [done|]. by repeat constructor. Qed.

Lemma record_input_unmarked r messages :
  unmarked (sr_events r) → unmarked (sr_events (record_input now r messages)).
Proof.
  revert r. unfold record_input. induction messages as [|item messages IH]; intros r Hu; simpl; [done|].
  apply IH. destruct item; simpl; try done; by apply record_unmarked.
Qed.

Lemma observe_all_unmarked r evs :
  unmarked (sr_events r) → unmarked (sr_events (observe_all now r evs)).
Proof.
  revert r. unfold observe_all. induction evs as [|ev evs IH]; intros r Hu; simpl; [done|].
  apply IH. destruct ev; try done; simpl; try (destruct item; try done); by apply record_unmarked.
Qed.

(** *** Draining *)

Definition called_ids (events : list SessionEvent) : list string :=
  omap (λ e, match e with SEToolCalled call_id _ _ _ => Some call_id | _ => None end) events.

Lemma fold_record r fs :
  sr_events (fold_left (record now) fs r)
  = sr_events r ++ imap (λ k f, f (now (length (sr_events r) + k)%nat)) fs.
Proof.
  revert r. induction fs as [|f fs IH]; intros r; simpl; [by rewrite app_nil_r|].
  rewrite IH. simpl. rewrite <- (assoc_L (++)), length_app. simpl. do 2 f_equal; [by rewrite Nat.add_0_r|].
  apply imap_ext. intros i x _. simpl. do 2 f_equal. lia.
Qed.

Definition unanswered (events : list SessionEvent) : list string :=
  filter (λ id, id ∉ returned_ids events) (called_ids events).

(** The drained log: the recorded events, then one result per unanswered call. *)
Lemma drain_spec r :
  ∃ tss, length tss = length (unanswered (sr_events r))
    ∧ (drain_recorder now r).1 = sr_events r
      ++ zip_with (λ id ts, SEToolReturned id [Text unfinished_text] ts) (unanswered (sr_events r)) tss.
Proof.
  unfold drain_recorder. simpl. rewrite fold_record.
  assert (synthesized (sr_events r)
    = (λ id, SEToolReturned id [Text unfinished_text]) <$> unanswered (sr_events r)) as ->.
  { unfold synthesized, unanswered, called_ids. generalize (returned_ids (sr_events r)). intros ids.
    induction (sr_events r) as [|e es IH]; simpl; [done|]. destruct e; simpl; try exact IH.
    case_bool_decide as Hin.
    - rewrite filter_cons_False by auto. exact IH.
    - rewrite filter_cons_True by done. simpl. by f_equal. }
  exists ((λ k, now (length (sr_events r) + k)%nat) <$> seq 0 (length (unanswered (sr_events r)))).
  split; [by rewrite length_fmap, length_seq|]. f_equal.
  generalize (unanswered (sr_events r)). intros ids.
  apply list_eq. intros i. rewrite list_lookup_imap, list_lookup_fmap, lookup_zip_with, list_lookup_fmap.
  destruct (ids !! i) as [id|] eqn:E; simpl; [|done].
  by rewrite lookup_seq_lt by (by eapply lookup_lt_Some).
Qed.

Lemma unmarked_results ids tss :
  unmarked (zip_with (λ id ts, SEToolReturned id [Text unfinished_text] ts) ids tss).
Proof. revert tss. induction ids as [|id ids IH]; intros [|ts tss]; simpl; constructor; [done|apply IH]. Qed.

Lemma project_results ids tss :
  length tss = length ids →
  project (zip_with (λ id ts, SEToolReturned id [Text unfinished_text] ts) ids tss)
  = (λ id, ToolResult id [Text unfinished_text]) <$> ids.
Proof.
  intros Hl. pose proof (units_app [] _ (unmarked_results ids tss)) as Hu. simpl in Hu.
  rewrite project_units, Hu. clear Hu. revert tss Hl.
  induction ids as [|id ids IH]; intros [|ts tss] Hl; simplify_eq/=; [done..|]. f_equal. by apply IH.
Qed.

Lemma returned_ids_app l1 l2 : returned_ids (l1 ++ l2) = returned_ids l1 ++ returned_ids l2.
Proof. apply omap_app. Qed.

Lemma called_ids_app l1 l2 : called_ids (l1 ++ l2) = called_ids l1 ++ called_ids l2.
Proof. apply omap_app. Qed.

Lemma ids_of_results ids tss :
  length tss = length ids →
  let evs := zip_with (λ id ts, SEToolReturned id [Text unfinished_text] ts) ids tss in
  returned_ids evs = ids ∧ called_ids evs = [].
Proof.
  revert tss. induction ids as [|id ids IH]; intros [|ts tss] Hl; simplify_eq/=; [done..|].
  destruct (IH tss Hl) as [H1 H2]. unfold returned_ids, called_ids in *. simpl. split; [by f_equal|done].
Qed.
End Recorder.

Abbreviation visible_items := (filter (λ i, visible i = true)).

(** What the accumulator makes of a model stream. *)
Definition model_item `{J : SerdeJson} (item : Item) : bool :=
  match item with AssistantMessage _ (Some _) | ToolCall _ _ _ => true | _ => false end.

Definition model_input `{J : SerdeJson} (i : TransitionInput) : Prop :=
  Forall (λ item, model_item item = true)
    match i with ModelResponse items _ _ => items | _ => [] end.

Section Resume.
Context `{J : SerdeJson} `{D : !LoopDebug} (plan : AgentPlan) (seed : list Item).
Hypothesis max_turns_u32 : (0 ≤ plan_max_turns plan ≤ u32_max)%Z.
Hypothesis no_handoffs : plan_handoffs plan = [].
Hypothesis plain : plan_output plan = None.

Lemma handoff_target_none conv items : handoff_target (ctx_of plan conv) items = None.
Proof.
  apply find_map_None, Forall_forall. intros item _. destruct item; try done.
  unfold ctx_of. simpl. by rewrite no_handoffs.
Qed.

Lemma tool_call_events_items items :
  Forall (λ item, model_item item = true) items →
  omap event_item (tool_call_events items) = items.
Proof.
  induction 1 as [|item items Hi _ IH]; [done|]. unfold tool_call_events in *.
  destruct item as [|? [|]| | |]; try done; simpl; f_equal; exact IH.
Qed.

Lemma message_outputs_items items :
  Forall (λ item, model_item item = true) items → existsb is_tool_call items = false →
  omap event_item (message_outputs items) = items.
Proof.
  induction 1 as [|item items Hi _ IH]; [done|]. unfold message_outputs in *.
  destruct item as [|? [|]| | |]; try done; simpl. intros Hn. f_equal. exact (IH Hn).
Qed.

Lemma tool_output_items (outcomes : list ToolCallOutcome) :
  omap event_item (tool_output_event <$> outcomes) = outcome_item <$> outcomes.
Proof. induction outcomes as [|o os IH]; simpl; [done|]. unfold tool_output_event in *. simpl. by f_equal. Qed.

(** In the protocol a transition reports exactly the items that came in. *)
Lemma transition_recorded conv s a i :
  well_driven plan s a → answers a i = true → model_input i →
  omap event_item (events (transition s i (ctx_of plan conv))) = incoming_items i
  ∧ conversation_appends (transition s i (ctx_of plan conv)) = [].
Proof.
  intros Hw Ha Hi. destruct s, a; try done; destruct i; try done; simpl in Hw;
    try (by destruct Hw as (_ & out & Hout & _); rewrite plain in Hout).
  - destruct Hw as (Hturn & _ & _). unfold transition. simpl.
    destruct (Z.geb_spec turn (plan_max_turns plan)); [lia|].
    destruct (existsb is_tool_call items) eqn:Et.
    + unfold on_tool_calls. rewrite handoff_target_none. simpl. by rewrite tool_call_events_items.
    + unfold on_final_message. simpl. rewrite plain. simpl.
      rewrite omap_app, message_outputs_items by done. simpl. by rewrite app_nil_r.
  - unfold transition, on_tool_results. simpl.
    destruct (_ >=? _)%Z; simpl; rewrite omap_app, tool_output_items; simpl; by rewrite app_nil_r.
Qed.

Lemma start_recorded :
  omap event_item (ds_log (drive_start plan seed)) = []
  ∧ ds_conversation (drive_start plan seed) = seed.
Proof.
  unfold drive_start, apply_outcome, transition. simpl.
  destruct (0 >=? _)%Z; simpl; [by rewrite app_nil_r|].
  unfold on_start. simpl. rewrite plain. simpl. by rewrite app_nil_r.
Qed.

Lemma reaches_recorded tr d :
  reaches plan seed tr d → Forall model_input tr →
  ds_conversation d = seed ++ omap event_item (ds_log d)
  ∧ Forall (λ i, visible i = true ∧ attributed i = true) (omap event_item (ds_log d)).
Proof.
  induction 1 as [|tr d i Hr IH Ha]; intros Hm.
  - destruct start_recorded as [-> ->]. by rewrite app_nil_r.
  - apply Forall_app in Hm as [Hm Hi]. apply Forall_cons in Hi as [Hi _].
    destruct (IH Hm) as [Hc Hv].
    unfold drive_step, apply_outcome. simpl.
    destruct (transition_recorded (ds_conversation d ++ incoming_items i) _ _ i
      (reaches_well_driven plan seed max_turns_u32 tr d Hr) Ha Hi) as [He ->].
    rewrite omap_app, He, app_nil_r, Hc, <- (assoc_L (++)). split; [done|].
    apply Forall_app. split; [done|]. destruct i; simpl in *; [constructor| |].
    + eapply Forall_weaken; [exact Hi|]. by intros [|? [|]| | |].
    + apply Forall_fmap, Forall_forall. done.
Qed.
End Resume.

(** Draining a recorder answers every recorded call: the log it hands over
    is what was recorded, followed by one synthesized result per call whose id
    has no result, and the recorder is left empty. *)
Theorem drain_answers_calls `{J : SerdeJson} now r :
  let '(events, r') := drain_recorder now r in
  project events = project (sr_events r)
    ++ ((λ id, ToolResult id [Text unfinished_text]) <$> unanswered (sr_events r))
  ∧ (∀ id, id ∈ called_ids events → id ∈ returned_ids events)
  ∧ sr_events r' = [].
Proof.
  destruct (drain_recorder now r) as [events r'] eqn:E.
  destruct (drain_spec now r) as (tss & Hl & Hd). rewrite E in Hd. simpl in Hd. subst events.
  destruct (ids_of_results _ _ Hl) as [Hr Hc].
  split_and!; [|intros id|unfold drain_recorder in E; by simplify_eq].
  - by rewrite project_app, project_results by (done || apply unmarked_results).
  - rewrite called_ids_app, returned_ids_app, Hr, Hc, app_nil_r, elem_of_app.
    intros Hin. destruct (decide (id ∈ returned_ids (sr_events r))) as [|Hn]; [by left|right].
    apply list_elem_of_filter. done.
Qed.


(** ** Compaction *)

(** Reading after a sequence id drops the events up to and including it. *)
Lemma memory_events_since `{J : SerdeJson} since (s : MemorySession) :
  (0 ≤ since ≤ u64_max)%Z → (Z.of_nat (length s) < usize_max)%Z →
  memory_events (Some since) s = Ok (drop (Z.to_nat since + 1) s).
Proof.
  intros Hs Hl. unfold memory_events, usize_max in *.
  destruct (Z.leb_spec (Z.min (since + 1) u64_max) (Z.of_nat (length s))) as [Hle|Hgt].
  - do 2 f_equal. lia.
  - rewrite drop_ge; [done|]. lia.
Qed.

Lemma memory_events_all `{J : SerdeJson} (s : MemorySession) : memory_events None s = Ok s.
Proof. unfold memory_events. destruct (Z.leb_spec 0 (Z.of_nat (length s))); [done|lia]. Qed.

#[export] Instance memory_session_laws `{J : SerdeJson} : SessionLaws MemorySession.
Proof.
  exists (λ s, s).
  - intros evs s s' [= <-]. done.
  - done.
  - intros s l. simpl. rewrite memory_events_all. by intros [= <-].
  - intros s l. simpl. unfold memory_snapshot. rewrite memory_events_all. by intros [= <-].
Defined.

Section Live.
Context `{J : SerdeJson}.

Lemma live_go_unmarked since l e :
  unmarked e → live_go since (l ++ e) = Nat.add (length e) <$> live_go since l.
Proof.
  intros Hu. revert since. induction l as [|x l IH]; intros since; simpl; [|apply IH].
  revert since. induction Hu as [|ev e Hev _ IHe]; intros since; simpl; [by destruct since|].
  rewrite Hev, IHe. destruct since; simpl; [|done]. f_equal. apply Nat.add_succ_r.
Qed.

Lemma live_count_unmarked l e : unmarked e → live_count (l ++ e) = (live_count l + length e)%nat.
Proof.
  intros Hu. unfold live_count. rewrite live_go_unmarked by done.
  destruct (live_go None l); simpl; [lia|]. by rewrite length_app.
Qed.

Lemma live_count_marker l summary n ts : live_count (l ++ [SECompacted summary n ts]) = 1%nat.
Proof.
  unfold live_count. assert (∀ since, live_go since (l ++ [SECompacted summary n ts]) = Some 1%nat) as ->; [|done].
  induction l as [|x l IH]; intros since; simpl; [done|apply IH].
Qed.

(** Every marker replaced everything before it. *)
Definition covered (l : list SessionEvent) : Prop := length (units l) = live_count l.

Lemma covered_unmarked l e : unmarked e → covered l → covered (l ++ e).
Proof.
  unfold covered. intros Hu Hc. rewrite units_app, length_app, length_fmap, live_count_unmarked by done. lia.
Qed.

Lemma marker_replaces l summary ts :
  covered l →
  let l' := l ++ [SECompacted summary (Z.of_nat (live_count l)) ts] in
  covered l' ∧ project l' = [System [Text summary]].
Proof.
  intros Hc l'. unfold covered in *. rewrite project_units.
  assert (units l' = [[System [Text summary]]]) as ->; [|subst l'; by rewrite live_count_marker].
  subst l'. unfold units. rewrite fold_left_app. simpl. fold (units l).
  rewrite Nat2Z.id, Hc, Nat.sub_diag. done.
Qed.

Lemma total_chars_app l1 l2 : total_chars (l1 ++ l2) = (total_chars l1 + total_chars l2)%nat.
Proof. unfold total_chars. by rewrite fmap_app, list_sum_app. Qed.

(** The count is the least number of fours that covers the characters. *)
Lemma heuristic_count_le items n :
  (heuristic_count items ≤ n ↔ Z.of_nat (total_chars items) ≤ 4 * n)%Z.
Proof. unfold heuristic_count. Z.to_euclidean_division_equations. lia. Qed.

Lemma heuristic_count_covers items :
  (Z.of_nat (total_chars items) ≤ 4 * heuristic_count items ≤ Z.of_nat (total_chars items) + 3)%Z.
Proof. unfold heuristic_count. Z.to_euclidean_division_equations. lia. Qed.
End Live.

Section Gate.
Context `{J : SerdeJson} {S W : Type} `{SS : !Session S} `{SL : !SessionLaws S}.
Variables (cfg : CompactingConfig (W:=W)) (now : Z).
Hypothesis heuristic : cc_counter cfg = heuristic_count.
Hypothesis small_threshold : (0 < 4 * cc_threshold cfg < usize_max)%Z.

Abbreviation log_of c := (session_log (cs_inner c)).

(** The estimate bounds the projected text from above. *)
Definition estimate_ok (c : CompactingSession (S:=S)) : Prop :=
  cheap_estimate c = usize_max
  ∨ (Z.of_nat (total_chars (project (log_of c))) ≤ cheap_estimate c)%Z.

Definition session_ok (c : CompactingSession) : Prop :=
  estimate_ok c ∧ compacting c = false ∧ covered (log_of c).

Lemma add_estimate_ok events c inner :
  unmarked events → (Z.of_nat (total_chars (project events)) + 3 ≤ usize_max)%Z →
  session_log inner = log_of c ++ events → session_ok c →
  session_ok (add_estimate cfg events (mkCompactingSession inner (cheap_estimate c) (compacting c))).
Proof.
  intros Hu Hsmall Hlog (He & Hf & Hc). unfold add_estimate. split_and!; simpl; [|done|].
  2:{ rewrite Hlog. by apply covered_unmarked. }
  unfold estimate_ok. simpl. rewrite Hlog, project_app, total_chars_app, heuristic by done.
  pose proof (heuristic_count_covers (project events)) as Hcount. unfold usize_max in *.
  rewrite u64_wrap_small by lia. unfold usize_saturating_add.
  destruct He as [->|He]; unfold usize_max; lia.
Qed.

(** What an append that succeeds leaves behind. *)
Definition settled (c c' : CompactingSession) (w : W) : Prop :=
  (log_of c' = log_of c
   ∧ ((heuristic_count (project (log_of c)) ≤ cc_threshold cfg)%Z
      ∨ is_running_summary (project (log_of c)) = true
      ∨ ∃ req, match (collect_summary cfg req w).1 with
               | Some summary => is_empty (trim summary) = true
               | None => True
               end))
  ∨ ∃ summary, is_empty (trim summary) = false
      ∧ log_of c' = log_of c ++ [SECompacted summary (Z.of_nat (live_count (log_of c))) now]
      ∧ project (log_of c') = [System [Text summary]].

Lemma compact_now_ok c w :
  estimate_ok c → covered (log_of c) →
  let '(res, c', w') := compact_now cfg now c w in
  estimate_ok c' ∧ covered (log_of c') ∧ (res = Ok tt → settled c c' w).
Proof.
  intros He Hc. unfold compact_now.
  destruct (session_events None (cs_inner c)) as [evs|e] eqn:Eev; [|done].
  apply events_ok in Eev as ->. rewrite heuristic.
  destruct (Z.leb_spec (heuristic_count (project (log_of c))) (cc_threshold cfg)) as [Hle|Hgt].
  - split_and!; [|done|intros _; left; split; [done|by left]].
    right. unfold set_estimate, usize_saturating_mul. simpl.
    pose proof (heuristic_count_covers (project (log_of c))).
    apply heuristic_count_le in Hle. lia.
  - destruct (is_running_summary (project (log_of c))) eqn:Er.
    { split_and!; [done..|]. intros _. left. split; [done|]. by right; left. }
    set (req := mkModelRequest _ _ _).
    destruct (collect_summary cfg req w) as [[summary|] w'] eqn:Es.
    2:{ split_and!; [done..|]. intros _. left. split; [done|]. right; right. exists req. by rewrite Es. }
    destruct (is_empty (trim summary)) eqn:Et.
    { split_and!; [done..|]. intros _. left. split; [done|]. right; right. exists req. by rewrite Es. }
    destruct (session_append _ (cs_inner c)) as [[[]|e] inner] eqn:Ea.
    + apply append_ok in Ea. destruct (marker_replaces (log_of c) summary now Hc) as [Hcov Hproj].
      unfold estimate_ok. simpl. rewrite Ea. split_and!; [|done|].
      * rewrite Hproj. unfold usize_saturating_mul.
        pose proof (heuristic_count_covers [System [Text summary]]). lia.
      * intros _. right. exists summary. simpl. by rewrite Ea.
    + apply append_err in Ea. unfold estimate_ok in *. simpl. by rewrite Ea.
Qed.

Lemma compacting_append_ok events c w :
  unmarked events → (Z.of_nat (total_chars (project events)) + 3 ≤ usize_max)%Z → session_ok c →
  let '(res, c', w') := compacting_append cfg now events c w in
  session_ok c'
  ∧ (res = Ok tt → ∃ inner, session_log inner = log_of c ++ events
       ∧ settled (mkCompactingSession inner 0 false) c' w).
Proof.
  intros Hu Hsmall Hok. unfold compacting_append.
  destruct (session_append events (cs_inner c)) as [[[]|e] inner] eqn:Ea.
  - apply append_ok in Ea. pose proof (add_estimate_ok events c inner Hu Hsmall Ea Hok) as Hok'.
    set (c1 := add_estimate cfg events _) in *. assert (log_of c1 = log_of c ++ events) as Hlog by exact Ea.
    destruct Hok' as (He & Hf & Hc). unfold maybe_compact.
    destruct (Z.leb_spec (cheap_estimate c1) (usize_saturating_mul (cc_threshold cfg) 4)) as [Hle|Hgt].
    + split; [done|]. intros _. exists inner. split; [done|]. left. split; [done|]. left. simpl.
      apply heuristic_count_le. destruct He as [He|He]; unfold usize_saturating_mul in Hle; [lia|].
      change (log_of c1) with (session_log inner) in He. lia.
    + rewrite Hf. pose proof (compact_now_ok (mkCompactingSession (cs_inner c1) (cheap_estimate c1) true) w He Hc) as Hn.
      destruct (compact_now _ _ _ _) as [[res c'] w']. destruct Hn as (He' & Hc' & Hs).
      split; [done|]. intros Hres. exists inner. split; [done|]. by apply Hs.
  - apply append_err in Ea. destruct Hok as (He & Hf & Hc). split; [|done].
    unfold session_ok, estimate_ok in *. simpl. by rewrite Ea.
Qed.
End Gate.

(** The compacting session keeps its promise: with the default counter, an
    append that succeeds leaves a log that is within the threshold, or whose
    projection is empty or a lone summary, or whose summarization failed or
    was blank, or that was compacted, in which case the snapshot is exactly
    the summary.  Its estimate never falls below the projected text, on any
    path, errors of the inner session included. *)
Theorem compaction_settles `{J : SerdeJson} {S W : Type} `{SS : !Session S} `{SL : !SessionLaws S}
    (cfg : CompactingConfig (W:=W)) now events c w :
  cc_counter cfg = heuristic_count → (0 < 4 * cc_threshold cfg < usize_max)%Z →
  unmarked events → (Z.of_nat (total_chars (project events)) + 3 ≤ usize_max)%Z → session_ok c →
  let '(res, c', w') := compacting_append cfg now events c w in
  session_ok c'
  ∧ (res = Ok tt → ∃ inner, session_log inner = session_log (cs_inner c) ++ events
       ∧ settled cfg now (mkCompactingSession inner 0 false) c' w).
Proof. intros. by apply compacting_append_ok. Qed.

(** *** Witnesses *)

Module SessionLogDemo.
#[local] Existing Instance Toy.json.
#[local] Existing Instance LoopState.Demo.debug.

Definition now : nat → Z := λ _, 0%Z.

Definition demo_plan : AgentPlan := mkAgentPlan [] LoopState.Demo.settings 4 None [].

Definition history : list Item := [UserMessage [Text "earlier"]].
Definition input : list Item := [UserMessage [Text "add 1 and 2"]].

Definition call : TransitionInput :=
  ModelResponse [AssistantMessage [Text "calling"] (Some "bot"); ToolCall "fc_0" "add" VNull]
    TokenUsage_default ToolCalls.

Definition called_state : DriverState := drive_step demo_plan (drive_start demo_plan (history ++ input)) call.

Lemma called_reached : reaches demo_plan (history ++ input) [call] called_state.
Proof. apply (reaches_step demo_plan (history ++ input) []); [constructor|reflexivity]. Defined.

Definition log : MemorySession := [SEUserMessage [Text "earlier"] 0].

Definition recorder : SessionRecorder :=
  observe_all now (record_input now (SessionRecorder_new "bot") input) (ds_log called_state).

(** A summarizing model and a threshold of one token. *)
Definition summarizer : CompactingConfig (W:=unit) :=
  mkCompactingConfig (λ _ w, (Ok [Ok (METokenDelta "summary"); Ok (MEFinish Items.Stop)], w))
    heuristic_count 1 LoopState.Demo.settings DEFAULT_PROMPT.

Definition fresh : CompactingSession (S:=MemorySession) := mkCompactingSession [] usize_max false.

(** A call id that is used again in a later turn: the second call of an
    interrupted run is left without a result of its own. *)
Definition reused : SessionRecorder :=
  observe_all now (SessionRecorder_new "bot")
    [ToolCallItem (ToolCall "fc_0" "add" VNull); ToolOutputItem (ToolResult "fc_0" [Text "3"]);
     ToolCallItem (ToolCall "fc_0" "add" VNull)].

Example reused_id_unanswered :
  project (drain_recorder now reused).1
  = [ToolCall "fc_0" "add" VNull; ToolResult "fc_0" [Text "3"]; ToolCall "fc_0" "add" VNull].
Proof. vm_compute. reflexivity. Qed.
End SessionLogDemo.

Section Witnesses.
#[local] Existing Instance Toy.json.
#[local] Existing Instance LoopState.Demo.debug.
Import SessionLogDemo.


Lemma compaction_settles_witness :
  let events := [SEUserMessage [Text "a long question"] 0; SEAssistantMessage [Text "a long answer"] "bot" 0] in
  let '(res, c', _) := compacting_append summarizer 0 events fresh tt in
  res = Ok tt ∧ project (cs_inner c') = [System [Text "summary"]] ∧ session_ok c'.
Proof.
  assert (Forall (λ ev, is_compacted ev = false)
    [SEUserMessage [Text "a long question"] 0; SEAssistantMessage [Text "a long answer"] "bot" 0]) as Hu
    by (repeat constructor).
  pose proof (compaction_settles summarizer 0 _ fresh tt eq_refl ltac:(vm_compute; split; reflexivity) Hu
    ltac:(vm_compute; discriminate)) as H.
  specialize (H ltac:(split; [left; reflexivity|split; reflexivity])).
  destruct H as [Hok _]. split; [vm_compute; reflexivity|]. split; [vm_compute; reflexivity|exact Hok].
Defined.
End Witnesses.
