(* ===== verification/Runner.v ===== *)
(** Running an agent: the collection of an event stream in core/src/runner.rs
    and the default runner of runtime-tokio/src/lib.rs.

    When cancellation or the deadline fires, and what the failure slot holds by
    then, is the argument [cut]: the runner's select fires while it waits for
    the event of that number.  What the runner does to the outside world is
    returned: the events it yields and the batches it appends to the session. *)

From S2P Require Import Prelude Json Items PathMatch CommandMatch LoopState Permission.
From S2P Require Import Redaction Tools ModelTurn Driver Workflow Session.

Section Runner.
Context `{J : SerdeJson} `{R : !RustDebug}.

Record RunResult := mkRunResult {
  final_output : string;
  rr_events : list AgentEvent;
  rr_usage : TokenUsage;
}.

Inductive RunError : Type :=
| REAgent (e : AgentError)
| REMaxIterations
| RECancelled
| RETimeout
| REOther (msg : string).

Inductive RunInterrupt : Type :=
| Cancelled
| TimedOut.

Definition run_error (i : RunInterrupt) : RunError :=
  match i with Cancelled => RECancelled | TimedOut => RETimeout end.

Definition terminal_message (i : RunInterrupt) : string :=
  match i with Cancelled => "run cancelled" | TimedOut => "run timed out" end.

Definition interrupt_event (i : RunInterrupt) : AgentEvent := RunFailed (terminal_message i).

Definition effective_interrupt (interrupt : option RunInterrupt) (saw_terminal : bool)
  : option RunInterrupt :=
  if saw_terminal then None else interrupt.

(** ** Collecting a stream *)

Record Collected := mkCollected {
  co_final : string;
  co_usage : TokenUsage;
  co_failed : option string;
  co_structured : option (list string * string);
}.

Definition collect_event (c : Collected) (ev : AgentEvent) : Collected :=
  match ev with
  | MessageOutput (AssistantMessage content _) =>
      mkCollected (String.concat "" (omap text_of content)) (co_usage c) (co_failed c) (co_structured c)
  | RunCompleted u => mkCollected (co_final c) u (co_failed c) (co_structured c)
  | StructuredOutputFailed schema_errors final_text =>
      mkCollected (co_final c) (co_usage c) (co_failed c) (Some (schema_errors, final_text))
  | RunFailed error => mkCollected (co_final c) (co_usage c) (Some error) (co_structured c)
  | _ => c
  end.

Definition collect_all (evs : list AgentEvent) : Collected :=
  fold_left collect_event evs (mkCollected "" TokenUsage_default None None).

(** [RunResultStreaming::collect]; [failure] is the failure slot's content, when
    there is a slot and it is filled. *)
Definition collect (evs : list AgentEvent) (failure : option AgentError) : result RunResult RunError :=
  let c := collect_all evs in
  match co_failed c with
  | Some err_msg =>
      match failure with Some err => Err (REAgent err) | None => Err (REOther err_msg) end
  | None => Ok (mkRunResult (co_final c) evs (co_usage c))
  end.

(** [RunResultStreaming::collect_typed] for a type given by its deserializer. *)
Definition collect_typed {T} (parse : string → result T string) (evs : list AgentEvent)
    (failure : option AgentError) : result (T * list AgentEvent * TokenUsage) AgentError :=
  let c := collect_all evs in
  match co_failed c with
  | Some err_msg =>
      match failure, co_structured c with
      | Some err, _ => Err err
      | None, Some (schema_errors, final_text) => Err (InvalidStructuredOutput schema_errors final_text)
      | None, None => Err (AEOther err_msg)
      end
  | None =>
      match parse (trim (co_final c)) with
      | Ok v => Ok (v, evs, co_usage c)
      | Err e => Err (AEOther ("collect_typed: failed to deserialize final output: " +:+ e))
      end
  end.

(** ** The runner *)

Definition Cut : Type := option (nat * RunInterrupt * option AgentError).

(** What passes, the interrupt if it fired, and the failure slot then; [slot] is
    what it holds at the end of the stream. *)
Definition controlled (evs : list AgentEvent) (slot : option AgentError) (cut : Cut)
  : list AgentEvent * option RunInterrupt * option AgentError :=
  match cut with
  | Some (k, i, slot') =>
      if (k <=? length evs)%nat then (take k evs, Some i, slot') else (evs, None, slot)
  | None => (evs, None, slot)
  end.

Definition SessionError_display (e : SessionError) : string :=
  match e with
  | SessionUnavailable => "session backend unavailable"
  | Backend msg | SessionOther msg => msg
  end.

Variable now : nat → Z.

(** The merged input and the seeded recorder. *)
Definition load_and_record (snapshot : result (list Item) SessionError) (agent_name : string)
    (input : list Item) : result (list Item * SessionRecorder) RunError :=
  match snapshot with
  | Err e => Err (REOther (SessionError_display e))
  | Ok messages => Ok (messages ++ input, record_input now (SessionRecorder_new agent_name) input)
  end.

Context `{G : Globset} {W : Type}.

Definition with_run_config (ctx : RunContext (W:=W)) (config : RunConfig) : RunContext :=
  mkRunContext (rc_permissions ctx) (rc_hooks ctx) (Some config) (rc_agent_depth ctx)
    (rc_redact_output ctx) (rc_extra_secrets ctx).

(** [TokioRunner::run]: the outcome and the batches appended to the session. *)
Definition run (snapshot : result (list Item) SessionError) (agent : Agent (W:=W)) (ctx : RunContext)
    (input : list Item) (config : RunConfig) (cut : Cut) (st : RunState (W:=W))
  : result RunResult RunError * list (list SessionEvent) :=
  match load_and_record snapshot (ag_name agent) input with
  | Err e => (Err e, [])
  | Ok (merged, recorder) =>
      match ag_run agent (with_run_config ctx config) merged st with
      | (Err e, _) => (Err (REAgent e), [])
      | (Ok evs, st') =>
          let '(seen, interrupt, slot) := controlled evs st'.1 cut in
          let collected := collect seen slot in
          let batch := (drain_recorder now (observe_all now recorder seen)).1 in
          let saw_terminal :=
            match collected with Ok r => existsb is_terminal (rr_events r) | Err _ => true end in
          (match effective_interrupt interrupt saw_terminal with
           | Some i => Err (run_error i)
           | None => collected
           end, [batch])
      end
  end.

(** What the streaming runner does, in order. *)
Inductive StreamAct : Type :=
| Persist (batch : list SessionEvent)
| Yield (ev : AgentEvent).

(** The relay loop: persist before the first terminal event is exposed. *)
Fixpoint relay_recorded (recorder : SessionRecorder) (finalized saw_terminal : bool)
    (evs : list AgentEvent) : list StreamAct * SessionRecorder * bool :=
  match evs with
  | [] => ([], recorder, saw_terminal)
  | ev :: evs' =>
      let recorder := observe_event now recorder ev in
      if is_terminal ev then
        let '(batch, recorder) :=
          if finalized then ([], recorder)
          else let '(events, r) := drain_recorder now recorder in ([Persist events], r) in
        let '(acts, recorder, saw) := relay_recorded recorder true true evs' in
        (batch ++ Yield ev :: acts, recorder, saw)
      else
        let '(acts, recorder, saw) := relay_recorded recorder finalized saw_terminal evs' in
        (Yield ev :: acts, recorder, saw)
  end.

(** [TokioRunner::run_streamed], drained by its consumer. *)
Definition run_streamed (snapshot : result (list Item) SessionError) (agent : Agent (W:=W))
    (ctx : RunContext) (input : list Item) (config : RunConfig) (cut : Cut) (st : RunState (W:=W))
  : result (list StreamAct) RunError :=
  match load_and_record snapshot (ag_name agent) input with
  | Err e => Err e
  | Ok (merged, recorder) =>
      match ag_run agent (with_run_config ctx config) merged st with
      | (Err e, _) => Err (REAgent e)
      | (Ok evs, st') =>
          let '(seen, interrupt, _) := controlled evs st'.1 cut in
          let '(acts, recorder, saw_terminal) := relay_recorded recorder false false seen in
          Ok (acts ++
            match effective_interrupt interrupt saw_terminal with
            | Some i => [Persist (drain_recorder now recorder).1; Yield (interrupt_event i)]
            | None => []
            end)
      end
  end.
End Runner.

(** ** Correctness *)

Section Collect.
Context `{J : SerdeJson}.

(** Up to the terminal event only the text and the structured error change. *)
Lemma collect_quiet l c :
  no_terminal l →
  let c' := fold_left collect_event l c in
  co_final c' = final_text_from (co_final c) l ∧ co_usage c' = co_usage c ∧ co_failed c' = co_failed c.
Proof.
  unfold final_text_from. intros Hl. revert c.
  induction Hl as [|ev l Hev _ IH]; intros c; simpl; [done|].
  destruct (IH (collect_event c ev)) as (Hf & Hu & He). rewrite Hf, Hu, He.
  assert (co_final (collect_event c ev) = default (co_final c) (message_text ev)
    ∧ co_usage (collect_event c ev) = co_usage c ∧ co_failed (collect_event c ev) = co_failed c)
    as (-> & -> & ->) by (destruct ev; try done; by destruct item).
  split_and!; try done. destruct (message_text ev); [|done]. simpl. rewrite last_cons. by destruct (last _).
Qed.

(** The outcome a run's stream stands for. *)
Definition outcome_of_stream (evs : list AgentEvent) (ev : AgentEvent) (slot : option AgentError)
  : result RunResult RunError :=
  match ev, slot with
  | RunCompleted u, _ => Ok (mkRunResult (final_text_from "" evs) evs u)
  | RunFailed _, Some e => Err (REAgent e)
  | RunFailed msg, None => Err (REOther msg)
  | _, _ => Err REMaxIterations
  end.

Lemma final_text_terminal seed l ev :
  is_terminal ev = true → final_text_from seed (l ++ [ev]) = final_text_from seed l.
Proof. intros Hev. apply final_text_snoc. by destruct ev. Qed.

Lemma collect_run l ev slot :
  no_terminal l → is_terminal ev = true →
  collect (l ++ [ev]) slot = outcome_of_stream (l ++ [ev]) ev slot.
Proof.
  intros Hl Hev. unfold collect, collect_all. rewrite fold_left_app. simpl.
  destruct (collect_quiet l (mkCollected "" TokenUsage_default None None) Hl) as (Hf & Hu & He).
  simpl in Hf, He. unfold outcome_of_stream. rewrite final_text_terminal by done.
  destruct ev; try done; simpl. by rewrite He, Hf.
Qed.

Lemma collect_partial l slot :
  no_terminal l → ∃ r, collect l slot = Ok r ∧ rr_events r = l.
Proof.
  intros Hl. unfold collect, collect_all.
  destruct (collect_quiet l (mkCollected "" TokenUsage_default None None) Hl) as (_ & _ & He).
  rewrite He. simpl. eauto.
Qed.

Lemma no_terminal_existsb l : no_terminal l → existsb is_terminal l = false.
Proof. intros Hl. by apply existsb_Forall. Qed.

Lemma no_terminal_take k l : no_terminal l → no_terminal (take k l).
Proof. intros Hl. by apply Forall_take. Qed.
Lemma collected_saw_terminal l ev slot :
  no_terminal l → is_terminal ev = true →
  match collect (l ++ [ev]) slot with Ok r => existsb is_terminal (rr_events r) | Err _ => true end = true.
Proof.
  intros Hl Hev. rewrite collect_run by done. unfold outcome_of_stream.
  destruct ev; try done; [|by destruct slot].
  cbn [rr_events]. by rewrite existsb_app, orb_true_r.
Qed.

(** Either the whole stream passes, or the interrupt fires before its end. *)
Lemma controlled_cases l ev slot cut :
  let '(seen, interrupt, slot') := controlled (l ++ [ev]) slot cut in
  (seen = l ++ [ev]
   ∧ match cut with Some (k, _, _) => (k <? length (l ++ [ev]))%nat = false | None => slot' = slot end)
  ∨ ∃ k i, cut = Some (k, i, slot') ∧ (k <? length (l ++ [ev]))%nat = true
    ∧ seen = take k l ∧ take k (l ++ [ev]) = take k l ∧ interrupt = Some i.
Proof.
  destruct cut as [[[k i] slot']|]; simpl; [|by left].
  destruct (Nat.ltb_spec k (length (l ++ [ev]))) as [Hk|Hk].
  - rewrite (proj2 (Nat.leb_le _ _)) by lia. right. exists k, i.
    apply Nat.ltb_lt in Hk as Hb. rewrite length_app in Hk. simpl in Hk.
    rewrite take_app_le by lia. by split_and!.
  - destruct (Nat.leb_spec k (length (l ++ [ev]))); left; [|done]. by rewrite take_ge.
Qed.
End Collect.

Section Stream.
Context `{J : SerdeJson} (now : nat → Z).

Lemma relay_recorded_quiet r l :
  no_terminal l →
  relay_recorded now r false false l = (Yield <$> l, observe_all now r l, false).
Proof.
  intros Hl. revert r. induction Hl as [|ev l Hev _ IH]; intros r; simpl; [done|].
  rewrite Hev, IH. done.
Qed.

Lemma relay_recorded_run r l ev :
  no_terminal l → is_terminal ev = true →
  ∃ r', relay_recorded now r false false (l ++ [ev])
    = ((Yield <$> l) ++ [Persist (drain_recorder now (observe_all now r (l ++ [ev]))).1; Yield ev], r', true).
Proof.
  intros Hl Hev. revert r. induction Hl as [|x l Hx _ IH]; intros r; simpl.
  - rewrite Hev. eexists. reflexivity.
  - rewrite Hx. destruct (IH (observe_event now r x)) as [r' ->]. by exists r'.
Qed.
End Stream.

(** What a streaming consumer sees, and when the recording is stored. *)
Definition persist_then `{SerdeJson} now (recorder : SessionRecorder) (before : list AgentEvent) (ev : AgentEvent)
  : list StreamAct :=
  (Yield <$> before) ++ [Persist (drain_recorder now (observe_all now recorder (before ++ [ev]))).1; Yield ev].

Section RunnerTheorems.
Context `{J : SerdeJson} `{G : Globset} {W : Type}.
Variables (now : nat → Z) (history : list Item) (agent : Agent (W:=W)) (ctx : RunContext (W:=W)).
Variables (input : list Item) (config : RunConfig) (st : RunState (W:=W)).
Hypothesis config_valid : config_ok config.
Hypothesis contract : AgentContract agent.

Lemma stream_shape evs st' :
  ag_run agent (with_run_config ctx config) (history ++ input) st = (Ok evs, st') →
  ∃ l ev, evs = l ++ [ev] ∧ no_terminal l ∧ is_terminal ev = true
    ∧ match ev with RunFailed _ => is_Some st'.1 | _ => True end.
Proof.
  intros Hrun. pose proof (contract (with_run_config ctx config) (history ++ input) st config_valid) as Hc.
  rewrite Hrun in Hc. destruct Hc as (name & rest & -> & l & ev & -> & Hl & Hev).
  exists (RunStarted name :: l), ev. split_and!; [done|by constructor|by destruct ev|by destruct ev].
Qed.

End RunnerTheorems.

(** C3. The runner reports what happened: for an agent that keeps its contract, a
    run that is not interrupted before its terminal event returns the collected
    result of a completed stream, or the recorded error of a failed one, and an
    interrupt wins exactly when it fires before the terminal event; on every
    path one batch is appended to the session, the recording of what was seen. *)
Theorem run_outcome `{J : SerdeJson} `{G : Globset} {W : Type} now history (agent : Agent (W:=W)) ctx
    input config cut st evs st' :
  config_ok config → AgentContract agent →
  ag_run agent (with_run_config ctx config) (history ++ input) st = (Ok evs, st') →
  let recorder := record_input now (SessionRecorder_new (ag_name agent)) input in
  let '(seen, _, slot) := controlled evs st'.1 cut in
  ∃ l ev,
    evs = l ++ [ev] ∧ no_terminal l ∧ is_terminal ev = true
    ∧ run now (Ok history) agent ctx input config cut st
      = (match cut with
         | Some (k, i, _) =>
             if (k <? length evs)%nat then Err (run_error i) else outcome_of_stream evs ev slot
         | None => outcome_of_stream evs ev slot
         end, [(drain_recorder now (observe_all now recorder seen)).1])
    ∧ (cut = None → match outcome_of_stream evs ev slot with Err (REOther _) => False | _ => True end).
Proof.
  intros Hcfg Hc Hrun recorder.
  destruct (stream_shape history agent ctx input config st Hcfg Hc evs st' Hrun)
    as (l & ev & -> & Hl & Hev & Hslot).
  pose proof (controlled_cases l ev st'.1 cut) as Hcut.
  destruct (controlled (l ++ [ev]) st'.1 cut) as [[seen interrupt] slot] eqn:Ec.
  exists l, ev. split_and!; [done..| |].
  - unfold run. simpl. rewrite Hrun, Ec. f_equal.
    destruct Hcut as [[-> Hcut]|(k & i & -> & -> & -> & Htake & ->)].
    + rewrite collected_saw_terminal, collect_run by done. simpl.
      by destruct cut as [[[k i] slot']|]; [rewrite Hcut|].
    + destruct (collect_partial (take k l) slot (no_terminal_take k l Hl)) as (r & -> & ->).
      by rewrite no_terminal_existsb by (by apply no_terminal_take).
  - intros ->. simpl in Ec. simplify_eq. destruct ev; try done. simpl.
    destruct Hslot as [e ->]. done.
Qed.

(** A streaming consumer sees exactly one terminal event, the last, whatever
    interrupts the run: the agent's own, or the interrupt's when it fires
    first; everything before is passed on unchanged, and the recording is
    persisted exactly once, immediately before the terminal event. *)
Theorem run_streamed_one_terminal `{J : SerdeJson} `{G : Globset} {W : Type} now history
    (agent : Agent (W:=W)) ctx input config cut st evs st' :
  config_ok config → AgentContract agent →
  ag_run agent (with_run_config ctx config) (history ++ input) st = (Ok evs, st') →
  let recorder := record_input now (SessionRecorder_new (ag_name agent)) input in
  ∃ before ev,
    run_streamed now (Ok history) agent ctx input config cut st
      = Ok (persist_then now recorder before ev)
    ∧ no_terminal before ∧ is_terminal ev = true
    ∧ match cut with
      | Some (k, i, _) =>
          if (k <? length evs)%nat then before = take k evs ∧ ev = interrupt_event i
          else before ++ [ev] = evs
      | None => before ++ [ev] = evs
      end.
Proof.
  intros Hcfg Hc Hrun r.
  destruct (stream_shape history agent ctx input config st Hcfg Hc evs st' Hrun)
    as (l & ev & -> & Hl & Hev & _).
  unfold run_streamed. simpl. rewrite Hrun. fold r.
  pose proof (controlled_cases l ev st'.1 cut) as Hcut.
  destruct (controlled (l ++ [ev]) st'.1 cut) as [[seen interrupt] slot].
  destruct Hcut as [[-> Hcut]|(k & i & -> & -> & -> & Htake & ->)].
  - destruct (relay_recorded_run now r l ev Hl Hev) as [r' ->].
    exists l, ev. split_and!; [|done|done|].
    + unfold effective_interrupt. by rewrite app_nil_r.
    + by destruct cut as [[[k i] slot']|]; [rewrite Hcut|].
  - rewrite relay_recorded_quiet by (by apply no_terminal_take).
    exists (take k l), (interrupt_event i). split_and!; try done; [|by apply no_terminal_take].
    unfold persist_then, observe_all. by rewrite fold_left_app.
Qed.

(** ** A run that is cancelled while it waits for its third event *)

Module RunnerDemo.
#[local] Existing Instance Toy.json.
Import WorkflowDemo.

Definition agent : Agent (W:=World) := speaker "writer" "text" "".

Definition evs : list AgentEvent := [RunStarted "writer"; said "writer" "text"; RunCompleted (usage 3)].

Definition cut : Cut := Some (2%nat, Cancelled, None).

Definition now (n : nat) : Z := Z.of_nat n.

Definition input : list Item := [UserMessage [Text "go"]].

Lemma config_valid : config_ok DriverDemo.config.
Proof. vm_compute. split; discriminate. Qed.
End RunnerDemo.

Section Witnesses.
#[local] Existing Instance Toy.json.
#[local] Existing Instance Permission.Demo.globset.
#[local] Existing Instance ToolsDemo.debug.
#[local] Existing Instance DriverDemo.loop_debug.
Import WorkflowDemo RunnerDemo.

Lemma run_outcome_witness :
  let p := run now (Ok []) agent ctx input DriverDemo.config None start in
  p.1 = Ok (mkRunResult "text" evs (usage 3))
  ∧ ∃ l ev, evs = l ++ [ev] ∧ p.1 = outcome_of_stream evs ev None.
Proof.
  intros p. split; [vm_compute; reflexivity|].
  destruct (run_outcome now [] agent ctx input DriverDemo.config None start evs (None, (∅, false)) config_valid
    (speaker_contract "writer" "text" "")) as (l & ev & Hl & _ & _ & Hrun & _); [vm_compute; reflexivity|].
  exists l, ev. split; [exact Hl|]. unfold p. rewrite Hrun. reflexivity.
Defined.

Lemma run_streamed_one_terminal_witness :
  ∃ before ev,
    run_streamed now (Ok []) agent ctx input DriverDemo.config cut start
      = Ok (persist_then now (record_input now (SessionRecorder_new "writer") input) before ev)
    ∧ before = take 2 evs ∧ ev = RunFailed "run cancelled".
Proof.
  destruct (run_streamed_one_terminal now [] agent ctx input DriverDemo.config cut start evs (None, (∅, false)) config_valid
    (speaker_contract "writer" "text" "")) as (before & ev & Hrun & _ & _ & Hcut); [vm_compute; reflexivity|].
  exists before, ev. split; [exact Hrun|]. exact Hcut.
Defined.
End Witnesses.
