(* ===== verification/AgentTool.v ===== *)
(** Agents as tools: core/src/agent_as_tool.rs, with the builder of contexts in
    core/src/context.rs and the projection a tool sees.

    A tool of the loop is a value of [Tool]; the adapter is one for every
    context its run projects.  The sub-run gets an empty store and a lowered
    signal of its own, and the parent's are put back when it is over. *)

From S2P Require Import Prelude Json Items PathMatch CommandMatch LoopState Permission.
From S2P Require Import Redaction Tools ModelTurn Driver Workflow Session Runner.

Section Contexts.
Context `{J : SerdeJson} `{G : Globset} {W : Type}.

(** ** Building contexts *)

Definition Permissions_default : Permissions W := mkPermissions ModeDefault None [] [] None [] true.

Definition RunContext_new (hooks : list (Hook (W:=W))) : RunContext (W:=W) :=
  mkRunContext Permissions_default hooks None 0 true [].

Definition set_permissions (ctx : RunContext (W:=W)) (p : Permissions W) : RunContext :=
  mkRunContext p (rc_hooks ctx) (rc_run_config ctx) (rc_agent_depth ctx) (rc_redact_output ctx)
    (rc_extra_secrets ctx).

Definition with_hooks (hooks : list (Hook (W:=W))) (ctx : RunContext (W:=W)) : RunContext :=
  mkRunContext (rc_permissions ctx) hooks (rc_run_config ctx) (rc_agent_depth ctx)
    (rc_redact_output ctx) (rc_extra_secrets ctx).

Definition with_agent_depth (depth : Z) (ctx : RunContext (W:=W)) : RunContext :=
  mkRunContext (rc_permissions ctx) (rc_hooks ctx) (rc_run_config ctx) depth
    (rc_redact_output ctx) (rc_extra_secrets ctx).

(** Which changes of mode are applied. *)
Definition mode_change_allowed (old new : PermissionMode) : bool :=
  match old, new with
  | DontAsk, _ => false
  | Bypass, DontAsk => true
  | Bypass, _ => false
  | _, _ => true
  end.

Definition with_permission_mode (mode : PermissionMode) (ctx : RunContext (W:=W)) : RunContext :=
  let p := rc_permissions ctx in
  if mode_change_allowed (p_mode p) mode then
    set_permissions ctx (mkPermissions mode (p_policy p) (p_deny_rules p) (p_allow_rules p)
      (p_approval_handler p) (p_guard_rules p) (p_default_guards p))
  else ctx.

Definition with_permission_policy (policy : string → Value → W → PermissionDecision * W)
    (ctx : RunContext (W:=W)) : RunContext :=
  let p := rc_permissions ctx in
  set_permissions ctx (mkPermissions (p_mode p) (Some policy) (p_deny_rules p) (p_allow_rules p)
    (p_approval_handler p) (p_guard_rules p) (p_default_guards p)).

Definition with_deny_rules (rules : list DenyRule) (ctx : RunContext (W:=W)) : RunContext :=
  let p := rc_permissions ctx in
  set_permissions ctx (mkPermissions (p_mode p) (p_policy p) rules (p_allow_rules p)
    (p_approval_handler p) (p_guard_rules p) (p_default_guards p)).

Definition with_allow_rules (rules : list AllowRule) (ctx : RunContext (W:=W)) : RunContext :=
  let p := rc_permissions ctx in
  set_permissions ctx (mkPermissions (p_mode p) (p_policy p) (p_deny_rules p) rules
    (p_approval_handler p) (p_guard_rules p) (p_default_guards p)).

Definition with_approval_handler (decide : string → string → Value → W → ApprovalOutcome * W)
    (ctx : RunContext (W:=W)) : RunContext :=
  let p := rc_permissions ctx in
  set_permissions ctx (mkPermissions (p_mode p) (p_policy p) (p_deny_rules p) (p_allow_rules p)
    (Some decide) (p_guard_rules p) (p_default_guards p)).

Definition with_guard_rules (rules : list GuardRule) (ctx : RunContext (W:=W)) : RunContext :=
  let p := rc_permissions ctx in
  set_permissions ctx (mkPermissions (p_mode p) (p_policy p) (p_deny_rules p) (p_allow_rules p)
    (p_approval_handler p) rules (p_default_guards p)).

Definition without_default_guards (ctx : RunContext (W:=W)) : RunContext :=
  let p := rc_permissions ctx in
  set_permissions ctx (mkPermissions (p_mode p) (p_policy p) (p_deny_rules p) (p_allow_rules p)
    (p_approval_handler p) (p_guard_rules p) false).

Definition without_output_redaction (ctx : RunContext (W:=W)) : RunContext :=
  mkRunContext (rc_permissions ctx) (rc_hooks ctx) (rc_run_config ctx) (rc_agent_depth ctx)
    false (rc_extra_secrets ctx).

Definition with_extra_secrets (secrets : list string) (ctx : RunContext (W:=W)) : RunContext :=
  mkRunContext (rc_permissions ctx) (rc_hooks ctx) (rc_run_config ctx) (rc_agent_depth ctx)
    (rc_redact_output ctx) (rc_extra_secrets ctx ++ secrets).

(** ** What a tool sees of its run *)

Record ToolContext := mkToolContext {
  tc_agent_depth : Z;
  tc_max_agent_depth : Z;
  tc_hooks : list (Hook (W:=W));
  tc_permissions : Permissions W;
  tc_redact_output : bool;
  tc_extra_secrets : list string;
}.

Definition to_tool_context (ctx : RunContext (W:=W)) : ToolContext :=
  mkToolContext (rc_agent_depth ctx)
    (default (max_agent_depth RunConfig_default) (max_agent_depth <$> rc_run_config ctx))
    (rc_hooks ctx) (rc_permissions ctx) (rc_redact_output ctx) (rc_extra_secrets ctx).

End Contexts.

Section AgentAsTool.
Context `{J : SerdeJson} `{G : Globset} `{R : !RustDebug} {W : Type} `{Sc : !Scratch W}.

Record AgentAsTool := mkAgentAsTool {
  at_agent : Agent (W:=W);
  at_name : string;
  at_description : string;
  at_schema : Value;
}.

(** The schema of the one argument. *)
Definition input_schema : Value :=
  VObject [("type", VString "object");
    ("properties", VObject [("input", VObject [("type", VString "string");
       ("description", VString "The request to pass to the wrapped agent.")])]);
    ("required", VArray [VString "input"]);
    ("additionalProperties", VBool false)].

Definition AgentAsTool_shared (agent : Agent (W:=W)) : AgentAsTool :=
  mkAgentAsTool agent (ag_name agent) (ag_description agent) input_schema.

Definition with_name (name : string) (t : AgentAsTool) : AgentAsTool :=
  mkAgentAsTool (at_agent t) name (at_description t) (at_schema t).

Definition with_description (description : string) (t : AgentAsTool) : AgentAsTool :=
  mkAgentAsTool (at_agent t) (at_name t) description (at_schema t).

(** The sub-run's context, built as the source builds it. *)
Definition sub_context (tc : ToolContext (W:=W)) : RunContext (W:=W) :=
  let p := tc_permissions tc in
  let ctx := with_extra_secrets (tc_extra_secrets tc) (with_guard_rules (p_guard_rules p)
    (with_allow_rules (p_allow_rules p) (with_deny_rules (p_deny_rules p)
      (with_permission_mode (p_mode p)
        (with_agent_depth (u32_add (tc_agent_depth tc) 1) (RunContext_new [])))))) in
  let ctx := match p_policy p with Some check => with_permission_policy check ctx | None => ctx end in
  let ctx := match p_approval_handler p with Some h => with_approval_handler h ctx | None => ctx end in
  let ctx := if p_default_guards p then ctx else without_default_guards ctx in
  if tc_redact_output tc then ctx else without_output_redaction ctx.

(** A fresh store and a lowered signal for the sub-run; afterwards the
    parent's store is back, and at the end its signal. *)
Definition enter_sub (w : W) : W := put_escalated false (put_state ∅ w).

Definition leave_sub (parent w : W) : W :=
  put_escalated (escalated parent) (put_state (state_of parent) w).

(** The parent's hooks are told in a context with its store and a signal of
    its own. *)
Definition fire_stop (tc : ToolContext (W:=W)) (name : string) (parent w : W) : W :=
  put_escalated (escalated parent)
    (notify_hooks (tc_hooks tc) (OnSubagentStop name)
      (put_escalated false (put_state (state_of parent) w))).

Definition RunError_display (e : RunError) : string :=
  match e with
  | REAgent e => "agent failed: " +:+ AgentError_display e
  | REMaxIterations => "max iterations reached"
  | RECancelled => "cancelled"
  | RETimeout => "run timed out"
  | REOther msg => msg
  end.

(** [RunError] as [ToolError]: an agent's error is passed on as it is. *)
Definition tool_error (e : RunError) : ToolError :=
  match e with
  | REAgent a => ToolOther (AgentError_display a)
  | other => ToolOther (RunError_display other)
  end.

(** [AgentAsTool::invoke] *)
Definition agent_tool_invoke (t : AgentAsTool) (tc : ToolContext (W:=W)) (args : Value) (w : W)
  : result Value ToolError * W :=
  match get args "input" ≫= as_str with
  | None => (Err (InvalidArgs ["expected a string field `input`"]), w)
  | Some input_text =>
      let depth := u32_add (tc_agent_depth tc) 1 in
      let max := tc_max_agent_depth tc in
      if (max <? depth)%Z then
        (Err (ToolOther (AgentError_display (MaxAgentDepthExceeded depth max))), w)
      else
        let '(res, child) :=
          ag_run (at_agent t) (sub_context tc) [UserMessage [Text input_text]] (None, enter_sub w) in
        match res with
        | Err e => (Err (ToolOther (AgentError_display e)), leave_sub w child.2)
        | Ok stream =>
            let w' := fire_stop tc (ag_name (at_agent t)) w child.2 in
            match collect stream child.1 with
            | Err e => (Err (tool_error e), w')
            | Ok r => (Ok (VString (final_output r)), w')
            end
        end
  end.

(** The [Tool] implementation, in a run whose context projects to [tc]; the
    trait's default effect. *)
Definition AgentAsTool_tool (t : AgentAsTool) (tc : ToolContext (W:=W)) : Tool (W:=W) :=
  mkTool (at_name t) (at_description t) (at_schema t) SideEffect (agent_tool_invoke t tc).
End AgentAsTool.

(** ** Correctness *)

Section Correct.
Context `{J : SerdeJson} `{G : Globset} `{R : !RustDebug} {W : Type} `{Sc : !Scratch W}.
Implicit Types (tc : ToolContext (W:=W)) (t : AgentAsTool (W:=W)).

(** The builder chain loses nothing: whatever the parent run was configured to
    forbid, guard, allow, ask or redact, the sub-run is. *)
Lemma sub_context_inherits tc :
  sub_context tc
  = mkRunContext (tc_permissions tc) [] None (u32_add (tc_agent_depth tc) 1) (tc_redact_output tc)
      (tc_extra_secrets tc).
Proof.
  destruct tc as [depth max hooks [mode policy deny allow handler guards defaults] redact secrets].
  unfold sub_context. simpl. destruct policy, handler, defaults, redact; destruct mode; reflexivity.
Qed.

(** What the answer is when the sub-run streamed [evs]. *)
Definition tool_answer (evs : list AgentEvent) (slot : option AgentError) (r : result Value ToolError) : Prop :=
  (∃ u, last evs = Some (RunCompleted u) ∧ r = Ok (VString (final_text_from "" evs)))
  ∨ (∃ msg e, last evs = Some (RunFailed msg) ∧ slot = Some e ∧ r = Err (ToolOther (AgentError_display e))).

Lemma collect_tool_answer (evs : list AgentEvent) st' :
  (∃ name rest, evs = RunStarted name :: rest ∧ run_ends rest None (st' : RunState (W:=W))) →
  tool_answer evs st'.1
    match collect evs st'.1 with Err e => Err (tool_error e) | Ok r => Ok (VString (final_output r)) end.
Proof.
  intros (name & rest & -> & l & ev & -> & Hl & Hev).
  rewrite app_comm_cons, collect_run; [|by constructor|by destruct ev].
  unfold tool_answer. rewrite last_snoc. destruct ev; try done; simpl in *.
  - left. by eexists.
  - destruct Hev as [e ->]. right. by eexists _, e.
Qed.

Lemma fire_stop_restores `{L : !ScratchLaws W} tc name parent w :
  escalated (fire_stop tc name parent w) = escalated parent
  ∧ (tc_hooks tc = [] → state_of (fire_stop tc name parent w) = state_of parent).
Proof.
  unfold fire_stop. rewrite escalated_put. split; [done|]. intros ->. simpl.
  by rewrite !state_put_escalated, state_put.
Qed.
End Correct.

(** C26. An agent used as a tool is isolated from the run that calls it and bounded
    by it.  Its run inherits the parent's permissions and redaction exactly, one
    level deeper and without hooks, starts in an empty store with the signal
    lowered and no failure recorded, and leaves the parent's signal, and without
    hooks its store, as they were; the answer is the final text of a completed
    run and the recorded error of a failed one.  A call without text or beyond
    the parent's nesting limit runs nothing. *)
Theorem agent_tool_isolated `{J : SerdeJson} `{G : Globset} `{R : !RustDebug} {W : Type} `{Sc : !Scratch W}
    `{L : !ScratchLaws W} (t : AgentAsTool) (ctx : RunContext (W:=W)) args w :
  AgentContract (at_agent t) →
  let tc := to_tool_context ctx in
  let '(r, w') := t_invoke (AgentAsTool_tool t tc) args w in
  escalated w' = escalated w
  ∧ (rc_hooks ctx = [] → state_of w' = state_of w)
  ∧ match get args "input" ≫= as_str with
    | None => r = Err (InvalidArgs ["expected a string field `input`"]) ∧ w' = w
    | Some text =>
        let depth := u32_add (rc_agent_depth ctx) 1 in
        let max := max_depth (rc_run_config ctx) in
        if (max <? depth)%Z then
          r = Err (ToolOther (AgentError_display (MaxAgentDepthExceeded depth max))) ∧ w' = w
        else
          ∃ sub w0,
            rc_permissions sub = rc_permissions ctx ∧ rc_redact_output sub = rc_redact_output ctx
            ∧ rc_extra_secrets sub = rc_extra_secrets ctx ∧ rc_agent_depth sub = depth ∧ rc_hooks sub = []
            ∧ state_of w0 = ∅ ∧ escalated w0 = false
            ∧ match ag_run (at_agent t) sub [UserMessage [Text text]] (None, w0) with
              | (Err e, _) => r = Err (ToolOther (AgentError_display e))
              | (Ok evs, child) => tool_answer evs child.1 r
              end
    end.
Proof.
  intros Hc tc. simpl. unfold agent_tool_invoke.
  destruct (get args "input" ≫= as_str) as [text|]; [|done]. simpl.
  change (default _ _) with (max_depth (rc_run_config ctx)).
  destruct (_ <? _)%Z; [done|].
  pose proof (Hc (sub_context tc) [UserMessage [Text text]] (None, enter_sub w)) as Hrun.
  rewrite sub_context_inherits in Hrun at 1. specialize (Hrun I).
  assert (state_of (enter_sub w) = ∅ ∧ escalated (enter_sub w) = false) as [Hs He].
  { unfold enter_sub. by rewrite state_put_escalated, state_put, escalated_put. }
  destruct (ag_run _ _ _ _) as [[evs|e] child] eqn:Ha.
  - apply collect_tool_answer in Hrun. destruct (collect evs child.1).
    all: destruct (fire_stop_restores tc (ag_name (at_agent t)) w child.2) as [Hf Hq].
    all: split; [exact Hf|]; split; [exact Hq|].
    all: exists (sub_context tc), (enter_sub w); rewrite sub_context_inherits at 1 2 3 4 5; rewrite Ha.
    all: by split_and!.
  - split; [by unfold leave_sub; rewrite escalated_put|].
    split; [intros _; unfold leave_sub; by rewrite state_put_escalated, state_put|].
    exists (sub_context tc), (enter_sub w). rewrite sub_context_inherits at 1 2 3 4 5. rewrite Ha.
    by split_and!.
Qed.

(** *** A speaker as a tool, and one call too deep *)

Module AgentToolDemo.
#[local] Existing Instance Toy.json.
#[local] Existing Instance Permission.Demo.globset.
#[local] Existing Instance ToolsDemo.debug.
Import WorkflowDemo.

Definition ctx : RunContext (W:=World) :=
  with_permission_mode Plan (with_extra_secrets ["hunter2"] (with_agent_depth 7
    (RunContext_new [λ _ w, (HookAllow, (<["told":=Toy.TBool (escalated w)]> w.1, true))]))).

Definition critic : AgentAsTool (W:=World) := AgentAsTool_shared (speaker "critic" "fine" "draft").

Definition world : World := ({["draft" := Toy.TString "text"]}, false).

Definition args : Toy.value := Toy.TObject [("input", Toy.TString "judge")].
End AgentToolDemo.

Section Witnesses.
#[local] Existing Instance Toy.json.
#[local] Existing Instance Permission.Demo.globset.
#[local] Existing Instance ToolsDemo.debug.
Import WorkflowDemo AgentToolDemo.

Example nesting_refused :
  agent_tool_invoke critic (to_tool_context (with_agent_depth 8 ctx)) AgentToolDemo.args world
  = (Err (ToolOther "agent nesting depth (9) exceeded max (8)"), world).
Proof. vm_compute. reflexivity. Qed.

(** The hook sees the parent's store, and what it signals is not the parent's. *)
Lemma agent_tool_isolated_witness :
  let p := t_invoke (AgentAsTool_tool critic (to_tool_context AgentToolDemo.ctx)) AgentToolDemo.args world in
  p.1 = Ok (Toy.TString "fine") ∧ p.2.1 !! "draft" = Some (Toy.TString "text")
  ∧ p.2.1 !! "told" = Some (Toy.TBool false) ∧ escalated p.2 = false.
Proof.
  intros p. split; [vm_compute; reflexivity|]. split; [vm_compute; reflexivity|].
  split; [vm_compute; reflexivity|].
  pose proof (agent_tool_isolated critic AgentToolDemo.ctx AgentToolDemo.args world
    (speaker_contract "critic" "fine" "draft")) as H.
  cbv zeta in H. unfold p. destruct (t_invoke _ _ _) as [r w']. exact (proj1 H).
Defined.
End Witnesses.
