(* ===== verification/GraphBuild.v ===== *)
(** Graphs of agents, their declaration: [GraphAgentBuilder] of core/src/graph.rs.

    Building resolves names to indices, rejects what is not a graph, and runs
    Kahn's algorithm to reject cycles.  A node's agent is a payload here; the
    scheduler that runs the nodes is the file Graph. *)

From stdpp Require Import sorting.
From S2P Require Import Prelude.

(** [sort_unstable] on names. *)
Definition sort_names (names : list string) : list string := merge_sort String.le names.

Section Build.
Context {A : Type}.

Inductive GraphBuildError : Type :=
| GraphEmpty
| GraphMissingName
| DuplicateNode (name : string)
| UnknownNode (name : string)
| GraphCycle (names : list string).

Record GraphAgentBuilder := mkGraphAgentBuilder {
  gb_name : option string;
  gb_description : string;
  gb_nodes : list (string * A);
  gb_edges : list (string * string);
}.

Record GraphAgent := mkGraphAgent {
  gr_name : string;
  gr_description : string;
  gr_nodes : list (string * A);
  gr_preds : list (list nat);
  gr_succs : list (list nat);
}.

Definition node_names (b : GraphAgentBuilder) : list string := (gb_nodes b).*1.

Definition graph_builder : GraphAgentBuilder := mkGraphAgentBuilder None "" [] [].

Definition gb_set_name (b : GraphAgentBuilder) (name : string) : GraphAgentBuilder :=
  mkGraphAgentBuilder (Some name) (gb_description b) (gb_nodes b) (gb_edges b).

Definition gb_set_description (b : GraphAgentBuilder) (d : string) : GraphAgentBuilder :=
  mkGraphAgentBuilder (gb_name b) d (gb_nodes b) (gb_edges b).

Definition gb_node (b : GraphAgentBuilder) (name : string) (agent : A) : GraphAgentBuilder :=
  mkGraphAgentBuilder (gb_name b) (gb_description b) (gb_nodes b ++ [(name, agent)]) (gb_edges b).

Definition gb_edge (b : GraphAgentBuilder) (from to : string) : GraphAgentBuilder :=
  mkGraphAgentBuilder (gb_name b) (gb_description b) (gb_nodes b) (gb_edges b ++ [(from, to)]).

(** ** Resolving names *)

Fixpoint index_nodes (i : nat) (index : gmap string nat) (names : list string)
  : result (gmap string nat) GraphBuildError :=
  match names with
  | [] => Ok index
  | n :: names' =>
      match index !! n with
      | Some _ => Err (DuplicateNode n)
      | None => index_nodes (S i) (<[n:=i]> index) names'
      end
  end.

Record Adjacency := mkAdjacency {
  ad_preds : list (list nat);
  ad_succs : list (list nat);
  ad_seen : list (nat * nat);
}.

(** [l[i].push(x)] *)
Definition push_at (i x : nat) (l : list (list nat)) : list (list nat) :=
  alter (λ xs, xs ++ [x]) i l.

Definition add_edge (adj : Adjacency) (f t : nat) : Adjacency :=
  if bool_decide ((f, t) ∈ ad_seen adj) then adj
  else mkAdjacency (push_at t f (ad_preds adj)) (push_at f t (ad_succs adj)) ((f, t) :: ad_seen adj).

Fixpoint add_edges (index : gmap string nat) (edges : list (string * string)) (adj : Adjacency)
  : result Adjacency GraphBuildError :=
  match edges with
  | [] => Ok adj
  | (from, to) :: edges' =>
      match index !! from with
      | None => Err (UnknownNode from)
      | Some f =>
          match index !! to with
          | None => Err (UnknownNode to)
          | Some t => add_edges index edges' (add_edge adj f t)
          end
      end
  end.

(** ** Kahn's algorithm *)

Definition next (l : list (list nat)) (i : nat) : list nat := default [] (l !! i).

(** A node is done: its successors lose a predecessor, and those that have none
    left, and may be queued, are. *)
Fixpoint release (may : nat → bool) (js : list nat) (indegree queue : list nat)
  : list nat * list nat :=
  match js with
  | [] => (indegree, queue)
  | j :: js' =>
      let indegree := alter Nat.pred j indegree in
      release may js' indegree
        (if bool_decide (indegree !! j = Some 0%nat) && may j then queue ++ [j] else queue)
  end.

Record Kahn := mkKahn {
  kn_indegree : list nat;
  kn_queue : list nat;
  kn_visited : nat;
}.

Definition sources (indegree : list nat) : list nat :=
  filter (λ i, indegree !! i = Some 0%nat) (seq 0 (length indegree)).

Definition kahn_start (preds : list (list nat)) : Kahn :=
  let indegree := length <$> preds in mkKahn indegree (sources indegree) 0.

Definition kahn_step (succs : list (list nat)) (k : Kahn) : Kahn :=
  match kn_queue k with
  | [] => k
  | i :: queue =>
      let '(indegree, queue) := release (λ _, true) (next succs i) (kn_indegree k) queue in
      mkKahn indegree queue (S (kn_visited k))
  end.

Definition kahn (succs : list (list nat)) (fuel : nat) (k : Kahn) : Kahn :=
  Nat.iter fuel (kahn_step succs) k.

Definition leftover (names : list string) (indegree : list nat) : list string :=
  omap (λ p, if (0 <? p.2)%nat then Some p.1 else None) (zip names indegree).

(** [GraphAgentBuilder::build]; a node is visited once, so that the queue is
    empty after as many steps as there are nodes. *)
Definition build (b : GraphAgentBuilder) : result GraphAgent GraphBuildError :=
  match gb_name b with
  | None => Err GraphMissingName
  | Some name =>
      let names := node_names b in
      let n := length names in
      if bool_decide (gb_nodes b = []) then Err GraphEmpty
      else
        match index_nodes 0 ∅ names with
        | Err e => Err e
        | Ok index =>
            match add_edges index (gb_edges b) (mkAdjacency (replicate n []) (replicate n []) []) with
            | Err e => Err e
            | Ok adj =>
                let k := kahn (ad_succs adj) n (kahn_start (ad_preds adj)) in
                if (kn_visited k =? n)%nat then
                  Ok (mkGraphAgent name (gb_description b) (gb_nodes b) (ad_preds adj) (ad_succs adj))
                else Err (GraphCycle (sort_names (leftover names (kn_indegree k))))
            end
        end
  end.
End Build.

(** ** Correctness *)

Lemma sort_names_unique l l' : l ≡ₚ l' → sort_names l = sort_names l'.
Proof.
  intros Hp. unfold sort_names. apply (Sorted_unique String.le).
  - apply Sorted_merge_sort, _.
  - apply Sorted_merge_sort, _.
  - by rewrite !merge_sort_Permutation.
Qed.

Lemma elem_of_sort_names x l : x ∈ sort_names l ↔ x ∈ l.
Proof. unfold sort_names. by rewrite merge_sort_Permutation. Qed.

(** *** Names and edges *)

Definition index_of (names : list string) (index : gmap string nat) : Prop :=
  ∀ x k, index !! x = Some k ↔ names !! k = Some x.

Lemma index_nodes_ok done rest index :
  index_of done index →
  match index_nodes (length done) index rest with
  | Ok index' => index_of (done ++ rest) index'
  | Err (DuplicateNode x) =>
      ∃ i j, (i < j)%nat ∧ (done ++ rest) !! i = Some x ∧ (done ++ rest) !! j = Some x
  | Err _ => False
  end.
Proof.
  revert done index. induction rest as [|n rest IH]; intros done index Hi; simpl; [by rewrite app_nil_r|].
  destruct (index !! n) as [k|] eqn:E.
  - apply Hi in E. pose proof (lookup_lt_Some _ _ _ E) as Hk. exists k, (length done).
    split; [done|]. split; [by apply lookup_app_l_Some|]. by rewrite list_lookup_middle.
  - assert (index_of (done ++ [n]) (<[n:=length done]> index)) as Hi'.
    { intros x k. destruct (decide (x = n)) as [->|Hx].
      - rewrite lookup_insert_eq, lookup_snoc_Some. split; [intros [= <-]; by right|].
        intros [[_ Hk]|[-> _]]; [|done]. apply (proj2 (Hi _ _)) in Hk. by rewrite Hk in E.
      - rewrite lookup_insert_ne, lookup_snoc_Some by done. rewrite (Hi x k). split.
        + intros Hk. left. split; [by eapply lookup_lt_Some|done].
        + by intros [[_ Hk]|[_ ->]]. }
    specialize (IH _ _ Hi'). rewrite length_app, <- (assoc_L (++)) in IH. simpl in IH.
    by rewrite Nat.add_1_r in IH.
Qed.

Lemma index_of_NoDup names index : index_of names index → NoDup names.
Proof.
  intros Hi. apply NoDup_alt. intros i j x Hx Hy. apply (proj2 (Hi _ _)) in Hx, Hy. by simplify_eq.
Qed.

(** The two adjacency lists are converse to each other. *)
Record shape_ok (n : nat) (preds succs : list (list nat)) : Prop := {
  shape_preds : length preds = n;
  shape_succs : length succs = n;
  shape_converse : ∀ i j, i ∈ next preds j ↔ j ∈ next succs i;
  shape_range : ∀ i j, i ∈ next preds j → (i < n)%nat ∧ (j < n)%nat;
  shape_NoDup_preds : ∀ j, NoDup (next preds j);
  shape_NoDup_succs : ∀ i, NoDup (next succs i);
}.

Record adj_ok (n : nat) (adj : Adjacency) : Prop := {
  adj_shape : shape_ok n (ad_preds adj) (ad_succs adj);
  adj_seen : ∀ i j, (i, j) ∈ ad_seen adj ↔ i ∈ next (ad_preds adj) j;
}.

Lemma next_push i x l k :
  (i < length l)%nat → next (push_at i x l) k = if decide (k = i) then next l k ++ [x] else next l k.
Proof.
  intros Hi. unfold next, push_at. destruct (decide (k = i)) as [->|Hk].
  - rewrite list_lookup_alter_eq. destruct (lookup_lt_is_Some_2 _ _ Hi) as [xs ->]. done.
  - by rewrite list_lookup_alter_ne.
Qed.

Lemma elem_of_next_push i x l k y :
  (i < length l)%nat → y ∈ next (push_at i x l) k ↔ y ∈ next l k ∨ (k = i ∧ y = x).
Proof.
  intros Hi. rewrite next_push by done. destruct (decide (k = i)); [|naive_solver].
  rewrite elem_of_app, list_elem_of_singleton. naive_solver.
Qed.

Lemma NoDup_next_push i x l :
  (i < length l)%nat → (∀ k, NoDup (next l k)) → x ∉ next l i → ∀ k, NoDup (next (push_at i x l) k).
Proof.
  intros Hi Hn Hx k. rewrite next_push by done. destruct (decide (k = i)) as [->|]; [|done].
  apply NoDup_app. split; [done|]. split; [|apply NoDup_singleton].
  by intros y Hy ->%list_elem_of_singleton.
Qed.

Lemma next_lt l i x : x ∈ next l i → (i < length l)%nat.
Proof.
  unfold next. destruct (l !! i) eqn:E; simpl; [|by rewrite elem_of_nil].
  intros _. by eapply lookup_lt_Some.
Qed.

Lemma add_edge_ok n adj f t :
  adj_ok n adj → (f < n)%nat → (t < n)%nat →
  adj_ok n (add_edge adj f t)
  ∧ ∀ i j, (i, j) ∈ ad_seen (add_edge adj f t) ↔ (i, j) ∈ ad_seen adj ∨ (i = f ∧ j = t).
Proof.
  intros [[Hp Hs Hc Hr HP HS] Hseen] Hf Ht. unfold add_edge. case_bool_decide as E.
  { split; [by split; [split|]|]. intros i j. split; [by left|]. by intros [|[-> ->]]. }
  assert (f ∉ next (ad_preds adj) t) as Hn by by rewrite <- Hseen.
  assert (t ∉ next (ad_succs adj) f) as Hn' by by rewrite <- Hc.
  assert (∀ i j, (i, j) ∈ ad_seen adj ∨ i = f ∧ j = t ↔ i ∈ next (ad_preds adj) j ∨ j = t ∧ i = f) as Hsw
    by (intros i j; rewrite Hseen; tauto).
  split; [split; [split|]|]; simpl.
  - unfold push_at. by rewrite length_alter.
  - unfold push_at. by rewrite length_alter.
  - intros i j. rewrite !elem_of_next_push by lia. rewrite Hc. tauto.
  - intros i j. rewrite elem_of_next_push by lia. intros [Hin|[-> ->]]; [by apply Hr|done].
  - apply NoDup_next_push; [lia|done..].
  - apply NoDup_next_push; [lia|done..].
  - intros i j. rewrite elem_of_cons, elem_of_next_push, <- Hsw by lia. split.
    + intros [[= -> ->]|]; [by right|by left].
    + intros [|[-> ->]]; [by right|by left].
  - intros i j. rewrite elem_of_cons. split.
    + intros [[= -> ->]|]; [by right|by left].
    + intros [|[-> ->]]; [by right|by left].
Qed.

(** The edge from [i] to [j] was declared. *)
Definition declared (names : list string) (edges : list (string * string)) (i j : nat) : Prop :=
  ∃ from to, (from, to) ∈ edges ∧ names !! i = Some from ∧ names !! j = Some to.

Lemma add_edges_ok names index edges adj :
  index_of names index → adj_ok (length names) adj →
  match add_edges index edges adj with
  | Ok adj' =>
      adj_ok (length names) adj'
      ∧ ∀ i j, (i, j) ∈ ad_seen adj' ↔ (i, j) ∈ ad_seen adj ∨ declared names edges i j
  | Err (UnknownNode x) => (x ∉ names) ∧ (x ∈ (edges.*1) ∨ x ∈ (edges.*2))
  | Err _ => False
  end.
Proof.
  intros Hi. revert adj. induction edges as [|[from to] edges IH]; intros adj Ha; simpl.
  { split; [done|]. intros i j. split; [by left|]. by intros [|(? & ? & ?%elem_of_nil & _)]. }
  assert (∀ x, index !! x = None → x ∉ names) as Hnone.
  { intros x Hx (k & Hk)%list_elem_of_lookup. apply (proj2 (Hi _ _)) in Hk. by rewrite Hk in Hx. }
  destruct (index !! from) as [f|] eqn:Ef; [|split; [by apply Hnone|left; left]].
  destruct (index !! to) as [t|] eqn:Et; [|split; [by apply Hnone|right; left]].
  apply (proj1 (Hi _ _)) in Ef as Ef', Et as Et'. 
  destruct (add_edge_ok (length names) adj f t Ha) as [Ha' Hseen];
    [by eapply lookup_lt_Some..|].
  specialize (IH _ Ha'). destruct (add_edges index edges (add_edge adj f t)) as [adj'|[]]; try done.
  - destruct IH as [Hok Hs]. split; [done|]. intros i j. rewrite Hs, Hseen. unfold declared.
    split.
    + intros [[|[-> ->]]|(a & b & ? & ?)]; [by left|right..].
      * exists from, to. split; [left|done].
      * exists a, b. split; [by right|done].
    + intros [|(a & b & [[= -> ->]|Hin]%elem_of_cons & Ha0 & Hb0)]; [by left; left| |].
      * left. right. apply (proj2 (Hi _ _)) in Ha0, Hb0. by simplify_eq.
      * right. by exists a, b.
  - destruct IH as [Hx Hin]. split; [done|]. destruct Hin as [Hin|Hin]; [left|right]; by apply list_elem_of_further.
Qed.

Lemma adj_ok_empty n : adj_ok n (mkAdjacency (replicate n []) (replicate n []) []).
Proof.
  assert (∀ k, next (replicate n []) k = []) as Hn.
  { intros k. unfold next. destruct (replicate n [] !! k) eqn:E; [|done].
    by apply lookup_replicate in E as [-> _]. }
  split; [split|]; simpl; intros; rewrite ?length_replicate, ?Hn, ?elem_of_nil in *; try done.
  all: apply NoDup_nil_2.
Qed.

(** *** Counting predecessors *)

Lemma release_ok may js indegree queue :
  NoDup js → Forall (λ j, j < length indegree)%nat js →
  ∃ indegree',
    release may js indegree queue
      = (indegree', queue ++ filter (λ j, indegree' !! j = Some 0%nat ∧ may j = true) js)
    ∧ length indegree' = length indegree
    ∧ ∀ j, indegree' !! j = if decide (j ∈ js) then Nat.pred <$> indegree !! j else indegree !! j.
Proof.
  revert indegree queue. induction js as [|j js IH]; intros indegree queue Hd Hr; simpl.
  { exists indegree. by rewrite app_nil_r. }
  apply NoDup_cons in Hd as [Hj Hd]. apply Forall_cons in Hr as [Hlt Hr].
  set (ind := alter Nat.pred j indegree).
  set (q := if bool_decide (ind !! j = Some 0%nat) && may j then queue ++ [j] else queue).
  destruct (IH ind q Hd) as (indegree' & -> & Hlen & Hl).
  { unfold ind. eapply Forall_weaken; [exact Hr|]. intros k Hk. by rewrite length_alter. }
  exists indegree'. unfold ind in Hlen. rewrite length_alter in Hlen. split_and!; [|done|].
  - f_equal. assert (indegree' !! j = ind !! j) as Hjj by (rewrite Hl, decide_False; done).
    rewrite filter_cons. unfold q. rewrite Hjj. case_bool_decide as E; simpl.
    + destruct (may j) eqn:Em.
      * rewrite decide_True by done. by rewrite <- (assoc_L (++)).
      * by rewrite decide_False by (by intros []).
    + by rewrite decide_False by (by intros []).
  - intros k. rewrite Hl. unfold ind. destruct (decide (k = j)) as [->|Hkj].
    + rewrite list_lookup_alter_eq, decide_False, decide_True by (done || left). done.
    + rewrite list_lookup_alter_ne by done.
      destruct (decide (k ∈ js)) as [Hk|Hk].
      * by rewrite decide_True by (by right).
      * by rewrite decide_False by (by intros [|]%elem_of_cons).
Qed.

(** The predecessors that are not done. *)
Definition open_preds (done : list nat) (ps : list nat) : list nat := filter (λ p, p ∉ done) ps.

Definition indegree_ok (preds : list (list nat)) (done indegree : list nat) : Prop :=
  length indegree = length preds
  ∧ ∀ j, (j < length preds)%nat → indegree !! j = Some (length (open_preds done (next preds j))).

Section Counting.
Context (n : nat) (preds succs : list (list nat)).
Hypothesis shape : shape_ok n preds succs.

Lemma indegree_start : indegree_ok preds [] (length <$> preds).
Proof.
  split; [by rewrite length_fmap|]. intros j Hj. rewrite list_lookup_fmap. unfold next.
  destruct (lookup_lt_is_Some_2 _ _ Hj) as [ps ->]. simpl. f_equal. unfold open_preds.
  symmetry. f_equal. apply filter_all, Forall_forall. intros p _. apply not_elem_of_nil.
Qed.

Lemma open_preds_done i done ps :
  NoDup ps → i ∉ done →
  length (open_preds (i :: done) ps)
  = if decide (i ∈ ps) then Nat.pred (length (open_preds done ps)) else length (open_preds done ps).
Proof.
  intros Hd Hi. unfold open_preds. induction Hd as [|p ps Hp Hd IH]; simpl; [done|].
  rewrite !filter_cons. destruct (decide (p = i)) as [->|Hne].
  - rewrite decide_False by (intros Hn; apply Hn; left). rewrite (decide_True (P:=i ∉ done)) by done.
    rewrite IH, decide_False, decide_True by (done || left). done.
  - destruct (decide (p ∈ done)) as [Hin|Hin].
    + rewrite (decide_False (P:=p ∉ i :: done)) by (intros Hn; apply Hn; by right).
      rewrite (decide_False (P:=p ∉ done)) by (by intros Hn). rewrite IH.
      destruct (decide (i ∈ ps)); [by rewrite decide_True by (by right)|].
      by rewrite decide_False by (by intros [|]%elem_of_cons).
    + rewrite (decide_True (P:=p ∉ i :: done)) by (by intros [|]%elem_of_cons).
      rewrite (decide_True (P:=p ∉ done)) by done. simpl. rewrite IH.
      destruct (decide (i ∈ ps)) as [Hps|Hps].
      * rewrite decide_True by (by right).
        assert (i ∈ filter (λ q, q ∉ done) ps) as Hf by by apply list_elem_of_filter.
        destruct (filter (λ q, q ∉ done) ps); [by apply elem_of_nil in Hf|done].
      * by rewrite decide_False by (by intros [|]%elem_of_cons).
Qed.

(** Marking a node done keeps the counts, and queues what it was the last open
    predecessor of. *)
Lemma release_done may i done indegree queue :
  indegree_ok preds done indegree → i ∉ done → (i < n)%nat →
  ∃ indegree',
    release may (next succs i) indegree queue
      = (indegree', queue ++ filter (λ j, indegree' !! j = Some 0%nat ∧ may j = true) (next succs i))
    ∧ indegree_ok preds (i :: done) indegree'.
Proof.
  intros [Hlen Hind] Hi Hn. destruct shape as [Hp Hs Hc Hr HP HS].
  destruct (release_ok may (next succs i) indegree queue (HS i)) as (ind' & Hrel & Hlen' & Hl).
  { apply Forall_forall. intros j Hj. rewrite Hlen, Hp. apply Hc, Hr in Hj. tauto. }
  exists ind'. split; [exact Hrel|]. split; [lia|]. intros j Hj. rewrite Hl, (Hind j Hj), open_preds_done by done.
  destruct (decide (j ∈ next succs i)) as [Hin|Hin].
  - by rewrite decide_True by (by apply Hc).
  - rewrite decide_False; [done|]. intros Hin'. by apply Hin, Hc.
Qed.

(** A count of zero means that the predecessors are done. *)
Lemma indegree_zero done indegree j :
  indegree_ok preds done indegree → (j < n)%nat →
  indegree !! j = Some 0%nat ↔ ∀ p, p ∈ next preds j → p ∈ done.
Proof.
  intros [Hlen Hind] Hj. rewrite Hind by (by rewrite (shape_preds _ _ _ shape)). unfold open_preds. split.
  - intros [= H0] p Hp. apply nil_length_inv in H0. destruct (decide (p ∈ done)) as [|Hn]; [done|].
    exfalso. apply (not_elem_of_nil p). rewrite <- H0. by apply list_elem_of_filter.
  - intros Hall. do 2 f_equal. apply length_zero_iff_nil. destruct (filter _ _) as [|p l] eqn:E; [done|].
    exfalso. assert (p ∈ filter (λ p, p ∉ done) (next preds j)) as Hp by (rewrite E; left).
    apply list_elem_of_filter in Hp as [Hn Hp]. by apply Hn, Hall.
Qed.

(** *** The invariant of Kahn's algorithm *)

Definition edge (i j : nat) : Prop := i ∈ next preds j.

(** [done]: the nodes visited so far. *)
Record kahn_inv (done : list nat) (k : Kahn) : Prop := {
  ki_indegree : indegree_ok preds done (kn_indegree k);
  ki_visited : kn_visited k = length done;
  ki_NoDup : NoDup (done ++ kn_queue k);
  ki_range : Forall (λ i, i < n)%nat (done ++ kn_queue k);
  ki_ready : ∀ j, (j < n)%nat → kn_indegree k !! j = Some 0%nat ↔ j ∈ done ++ kn_queue k;
  ki_acc : ∀ j, j ∈ done → Acc edge j;
}.

Lemma kahn_start_inv : kahn_inv [] (kahn_start preds).
Proof.
  destruct shape as [Hp Hs Hc Hr HP HS]. pose proof indegree_start as Hi. split; simpl.
  - exact Hi.
  - reflexivity.
  - apply NoDup_filter, NoDup_seq.
  - apply Forall_forall. intros i [_ Hin]%list_elem_of_filter.
    rewrite length_fmap in Hin. apply elem_of_seq in Hin. lia.
  - intros j Hj. unfold sources. rewrite list_elem_of_filter, length_fmap, elem_of_seq. split; [|tauto].
    intros. split; [done|lia].
  - by intros j ?%elem_of_nil.
Qed.

Lemma kahn_step_inv done k i queue :
  kahn_inv done k → kn_queue k = i :: queue → kahn_inv (i :: done) (kahn_step succs k).
Proof.
  intros [Hi Hv Hd Hr Hz Ha] Hq. unfold kahn_step. rewrite Hq in *.
  assert (Permutation (done ++ i :: queue) (i :: done ++ queue)) as Hp by by rewrite Permutation_middle.
  assert (NoDup ((i :: done) ++ queue)) as Hd' by (simpl; by rewrite <- Hp).
  assert (i ∉ done) as Hn by (apply NoDup_cons in Hd' as [Hn _]; intros H; apply Hn, elem_of_app; by left).
  assert (i < n)%nat as Hlt by (rewrite Hp in Hr; by apply Forall_cons in Hr as [? _]).
  destruct (release_done (λ _, true) i done (kn_indegree k) queue Hi Hn Hlt) as (ind' & -> & Hi').
  assert (∀ j, j ∈ next succs i → (j < n)%nat) as Hsr
    by (intros j Hj; apply (shape_range _ _ _ shape i j), (shape_converse _ _ _ shape); exact Hj).
  assert (∀ j, (j < n)%nat → kn_indegree k !! j = Some 0%nat ↔ ∀ p, p ∈ next preds j → p ∈ done) as Hiff
    by (intros j Hj; by apply indegree_zero).
  assert (∀ j, (j < n)%nat → ind' !! j = Some 0%nat ↔ ∀ p, p ∈ next preds j → p ∈ i :: done) as Hiff'
    by (intros j Hj; by apply indegree_zero).
  assert (∀ j, (j < n)%nat → ind' !! j = Some 0%nat →
    j ∈ (i :: done) ++ queue ++ filter (λ j, ind' !! j = Some 0%nat ∧ true = true) (next succs i)) as Hnew.
  { intros j Hj Hj0. rewrite (assoc_L (++)), elem_of_app, list_elem_of_filter.
    destruct (decide (i ∈ next preds j)) as [Hin|Hin].
    - right. split; [done|]. by apply (shape_converse _ _ _ shape).
    - left. simpl. rewrite <- Hp. apply Hz; [done|]. apply Hiff; [done|].
      intros p Hpj. specialize (proj1 (Hiff' j Hj) Hj0 p Hpj) as Hpi.
      apply elem_of_cons in Hpi as [->|]; done. }
  split; simpl.
  - done.
  - by rewrite Hv.
  - rewrite app_comm_cons, (assoc_L (++)). apply NoDup_app. split; [done|].
    split; [|apply NoDup_filter, (shape_NoDup_succs _ _ _ shape)].
    intros j Hin [_ Hj]%list_elem_of_filter. simpl in Hin. rewrite <- Hp in Hin.
    pose proof (Hsr j Hj) as Hjn. apply Hz in Hin; [|done].
    apply Hn, (proj1 (Hiff j Hjn) Hin). by apply (shape_converse _ _ _ shape).
  - rewrite app_comm_cons, (assoc_L (++)). apply Forall_app. split; [simpl; by rewrite <- Hp|].
    apply Forall_forall. intros j [_ Hj]%list_elem_of_filter. by apply Hsr.
  - intros j Hj. split; [by apply Hnew|]. rewrite app_comm_cons, (assoc_L (++)), elem_of_app.
    intros [Hin|[[Hj0 _] _]%list_elem_of_filter]; [|done].
    simpl in Hin. rewrite <- Hp in Hin. apply Hz in Hin; [|done].
    apply Hiff'; [done|]. intros p Hpj. right. by apply (proj1 (Hiff j Hj) Hin).
  - intros j [->|Hj]%elem_of_cons; [|by apply Ha]. constructor. intros p Hpi. apply Ha.
    assert (i ∈ done ++ i :: queue) as Hin by (rewrite Hp; left).
    apply Hz in Hin; [|done]. by apply (proj1 (Hiff i Hlt) Hin).
Qed.

(** As many steps as there are nodes empty the queue. *)
Lemma kahn_finished :
  ∃ done, kahn_inv done (kahn succs n (kahn_start preds)) ∧ kn_queue (kahn succs n (kahn_start preds)) = [].
Proof.
  unfold kahn.
  assert (∀ m, ∃ done, kahn_inv done (Nat.iter m (kahn_step succs) (kahn_start preds))
    ∧ (kn_queue (Nat.iter m (kahn_step succs) (kahn_start preds)) = [] ∨ length done = m)) as Hm.
  { induction m as [|m (done & Hinv & Hq)]; simpl; [exists []; split; [apply kahn_start_inv|by right]|].
    set (k := Nat.iter m (kahn_step succs) (kahn_start preds)) in *.
    destruct (kn_queue k) as [|i queue] eqn:E.
    - exists done. unfold kahn_step. rewrite E. by split; [|left].
    - exists (i :: done). split; [by eapply kahn_step_inv|]. right. destruct Hq as [|<-]; done. }
  destruct (Hm n) as (done & Hinv & Hq). exists done. split; [done|].
  destruct Hq as [|Hlen]; [done|]. destruct (kn_queue _) as [|i queue] eqn:E; [done|].
  pose proof (ki_NoDup _ _ Hinv) as Hd. pose proof (ki_range _ _ Hinv) as Hr. rewrite E in Hd, Hr.
  assert (length (done ++ i :: queue) ≤ length (seq 0 n))%nat as Hle.
  { apply submseteq_length, NoDup_submseteq; [done|]. intros j Hj. rewrite Forall_forall in Hr.
    apply elem_of_seq. specialize (Hr j Hj). lia. }
  rewrite length_app, length_seq in Hle. simpl in Hle. lia.
Qed.
End Counting.

(** *** Cycles *)

(** Walking back within a finite set meets a node twice. *)
Lemma walk_back (R : nat → nat → Prop) m (X V : list nat) x y :
  (length X ≤ m)%nat → y ∈ X → (∀ z, z ∈ X → ∃ w, (w ∈ X ∨ w ∈ V) ∧ R w z) →
  (∀ v, v ∈ V → rtc R y v) → rtc R y x → ∃ k, tc R k k ∧ rtc R k x.
Proof.
  revert X V y. induction m as [|m IH]; intros X V y Hm Hy Hback HV Hx.
  { destruct X; [by apply elem_of_nil in Hy|simpl in Hm; lia]. }
  destruct (Hback y Hy) as (w & Hw & Hr).
  destruct (decide (w ∈ y :: V)) as [Hin|Hin].
  - exists w. split; [|by eapply rtc_l]. eapply tc_rtc_r; [by apply tc_once|].
    apply elem_of_cons in Hin as [->|]; [done|by apply HV].
  - apply not_elem_of_cons in Hin as [Hne Hnv]. destruct Hw as [Hw|]; [|done].
    apply (IH (filter (λ z, z ≠ y) X) (y :: V) w).
    + assert (length (filter (λ z, z ≠ y) X) < length X)%nat; [|lia].
      clear -Hy. induction X as [|z X IHX]; [by apply elem_of_nil in Hy|]. rewrite filter_cons.
      destruct (decide (z ≠ y)) as [Hz|Hz]; simpl.
      * apply elem_of_cons in Hy as [->|Hy]; [done|]. specialize (IHX Hy). lia.
      * pose proof (length_filter (λ z, z ≠ y) X). lia.
    + by apply list_elem_of_filter.
    + intros z [_ Hz]%list_elem_of_filter. destruct (Hback z Hz) as (u & Hu & Hru). exists u. split; [|done].
      rewrite list_elem_of_filter, elem_of_cons. destruct (decide (u = y)); tauto.
    + intros v [->|Hv]%elem_of_cons; [by apply rtc_once|]. eapply rtc_l; [exact Hr|by apply HV].
    + by eapply rtc_l.
Qed.

Lemma Acc_no_cycle (R : nat → nat → Prop) j k : Acc R j → tc R k k → ¬ rtc R k j.
Proof.
  intros Hj Hk Hkj.
  assert (tc R k j → False) as Hno.
  { clear Hkj. induction Hj as [j _ IH]. intros Ht.
    assert (∃ p, tc R k p ∧ R p j) as (p & Hp & Hpj).
    { clear IH. revert j Ht. apply tc_ind_r; eauto. }
    by apply (IH p). }
  apply Hno. eapply tc_rtc_r; [exact Hk|exact Hkj].
Qed.

Lemma elem_of_leftover names indegree x :
  x ∈ leftover names indegree ↔ ∃ i d, names !! i = Some x ∧ indegree !! i = Some (S d).
Proof.
  unfold leftover. rewrite list_elem_of_omap. split.
  - intros ([y d] & (i & Hi)%list_elem_of_lookup & Hx). simpl in Hx.
    rewrite lookup_zip_with in Hi. destruct (names !! i) eqn:En, (indegree !! i) eqn:Ei; simplify_eq/=.
    destruct d as [|d]; simplify_eq/=. by exists i, d.
  - intros (i & d & Hn & Hd). exists (x, S d). split; [|done].
    apply list_elem_of_lookup. exists i. by rewrite lookup_zip_with, Hn, Hd.
Qed.

(** What Kahn's algorithm leaves when its queue is empty. *)
Section Finished.
Context (n : nat) (preds succs : list (list nat)) (done : list nat) (k : Kahn).
Hypothesis shape : shape_ok n preds succs.
Hypothesis inv : kahn_inv n preds done k.
Hypothesis finished : kn_queue k = [].

Lemma done_range i : i ∈ done → (i < n)%nat.
Proof.
  intros Hi. pose proof (ki_range _ _ _ _ inv) as Hr. rewrite Forall_forall in Hr.
  apply Hr, elem_of_app. by left.
Qed.

Lemma zero_iff_done j : (j < n)%nat → kn_indegree k !! j = Some 0%nat ↔ j ∈ done.
Proof. intros Hj. rewrite (ki_ready _ _ _ _ inv j Hj), finished, app_nil_r. done. Qed.

Lemma all_visited : kn_visited k = n → ∀ j, (j < n)%nat → j ∈ done.
Proof.
  intros Hn j Hj. destruct (decide (j ∈ done)) as [|Hnj]; [done|]. exfalso.
  pose proof (ki_NoDup _ _ _ _ inv) as Hd. rewrite finished, app_nil_r in Hd.
  rewrite (ki_visited _ _ _ _ inv) in Hn.
  assert (length (j :: done) ≤ length (seq 0 n))%nat as Hle.
  { apply submseteq_length, NoDup_submseteq; [by constructor|]. intros i Hin. apply elem_of_seq.
    apply elem_of_cons in Hin as [->|Hin%done_range]; lia. }
  rewrite length_seq in Hle. simpl in Hle. lia.
Qed.

Lemma some_unvisited : kn_visited k ≠ n → ∃ j, (j < n)%nat ∧ j ∉ done.
Proof.
  intros Hn. destruct (filter (λ j, j ∉ done) (seq 0 n)) as [|i l] eqn:E.
  - exfalso. apply Hn. pose proof (ki_NoDup _ _ _ _ inv) as Hd. rewrite finished, app_nil_r in Hd.
    rewrite (ki_visited _ _ _ _ inv). transitivity (length (seq 0 n)); [|apply length_seq].
    apply Permutation_length, NoDup_Permutation; [done|apply NoDup_seq|]. intros j. rewrite elem_of_seq.
    split; [intros Hj%done_range; lia|]. intros [_ Hj]. destruct (decide (j ∈ done)) as [|Hnj]; [done|].
    exfalso. apply (not_elem_of_nil j). rewrite <- E. apply list_elem_of_filter. rewrite elem_of_seq.
    split; [done|lia].
  - exists i. assert (i ∈ filter (λ j, j ∉ done) (seq 0 n)) as Hin by (rewrite E; left).
    apply list_elem_of_filter in Hin as [Hni Hlt%elem_of_seq]. split; [lia|done].
Qed.

Lemma unvisited_pred j : (j < n)%nat → j ∉ done → ∃ p, p ∈ next preds j ∧ p ∉ done.
Proof.
  intros Hj Hnj. destruct (open_preds done (next preds j)) as [|p l] eqn:E.
  - exfalso. apply Hnj, zero_iff_done; [done|].
    rewrite (proj2 (ki_indegree _ _ _ _ inv)) by (by rewrite (shape_preds _ _ _ shape)). by rewrite E.
  - exists p. assert (p ∈ open_preds done (next preds j)) as Hp by (rewrite E; left).
    by apply list_elem_of_filter in Hp as [? ?].
Qed.

(** What is not visited is on a cycle or behind one. *)
Lemma unvisited_cycle i :
  (i < n)%nat → i ∉ done → ∃ c, tc (edge preds) c c ∧ rtc (edge preds) c i.
Proof.
  intros Hlt Hni. apply (walk_back _ n (filter (λ j, j ∉ done) (seq 0 n)) [] i i).
  - etrans; [apply length_filter|]. by rewrite length_seq.
  - apply list_elem_of_filter. split; [done|]. apply elem_of_seq. lia.
  - intros z [Hz0 Hz1%elem_of_seq]%list_elem_of_filter.
    destruct (unvisited_pred z) as (p & Hp & Hnp); [lia|done|]. exists p. split; [|exact Hp]. left.
    apply list_elem_of_filter. split; [done|]. apply elem_of_seq.
    destruct (shape_range _ _ _ shape p z Hp). lia.
  - by intros v ?%elem_of_nil.
  - done.
Qed.

Lemma leftover_spec names x :
  length names = n →
  x ∈ leftover names (kn_indegree k)
  ↔ ∃ i c, names !! i = Some x ∧ tc (edge preds) c c ∧ rtc (edge preds) c i.
Proof.
  intros Hnames. rewrite elem_of_leftover. split.
  - intros (i & d & Hx & Hd0). assert (i < n)%nat as Hlt by (rewrite <- Hnames; by eapply lookup_lt_Some).
    destruct (unvisited_cycle i) as (c & Hc & Hci); [done| |by exists i, c].
    intros Hin%zero_iff_done; [|done]. by rewrite Hd0 in Hin.
  - intros (i & c & Hx & Hc & Hci). assert (i < n)%nat as Hlt by (rewrite <- Hnames; by eapply lookup_lt_Some).
    destruct (kn_indegree k !! i) as [[|d]|] eqn:E; [exfalso|by exists i, d|].
    + apply zero_iff_done in E; [|done]. by apply (Acc_no_cycle _ _ _ (ki_acc _ _ _ _ inv i E) Hc).
    + rewrite (proj2 (ki_indegree _ _ _ _ inv)) in E; [done|]. by rewrite (shape_preds _ _ _ shape).
Qed.
End Finished.

(** What Kahn's algorithm decides. *)
Lemma kahn_correct n names preds succs :
  shape_ok n preds succs → length names = n →
  let k := kahn succs n (kahn_start preds) in
  if (kn_visited k =? n)%nat then ∀ j, Acc (edge preds) j
  else (∃ i, tc (edge preds) i i)
    ∧ ∀ x, x ∈ leftover names (kn_indegree k)
        ↔ ∃ i c, names !! i = Some x ∧ tc (edge preds) c c ∧ rtc (edge preds) c i.
Proof.
  intros Hshape Hnames k. destruct (kahn_finished n preds succs Hshape) as (done & Hinv & Hq).
  fold k in Hinv, Hq. destruct (Nat.eqb_spec (kn_visited k) n) as [Hn|Hn].
  - intros j. destruct (decide (j < n)%nat) as [Hj|Hj].
    + by eapply (ki_acc _ _ _ _ Hinv), all_visited.
    + constructor. intros p Hp. destruct (shape_range _ _ _ Hshape p j Hp). lia.
  - split; [|intros x; by eapply leftover_spec].
    destruct (some_unvisited n preds done k Hinv Hq Hn) as (j & Hj & Hnj).
    destruct (unvisited_cycle n preds succs done k Hshape Hinv Hq j Hj Hnj) as (c & Hc & _). by exists c.
Qed.

(** *** The result of building *)

Definition arrow {A} (b : GraphAgentBuilder (A:=A)) : nat → nat → Prop :=
  declared (node_names b) (gb_edges b).

(** What holds of a graph that was built. *)
Record built {A} (b : GraphAgentBuilder (A:=A)) (g : GraphAgent (A:=A)) : Prop := {
  built_name : gb_name b = Some (gr_name g);
  built_nodes : gr_nodes g = gb_nodes b;
  built_nonempty : gb_nodes b ≠ [];
  built_NoDup : NoDup (node_names b);
  built_known : Forall (λ e, e.1 ∈ node_names b ∧ e.2 ∈ node_names b) (gb_edges b);
  built_shape : shape_ok (length (gr_nodes g)) (gr_preds g) (gr_succs g);
  built_edges : ∀ i j, edge (gr_preds g) i j ↔ arrow b i j;
  built_acyclic : ∀ j, Acc (edge (gr_preds g)) j;
}.

Lemma declared_known names edges index adj adj' :
  index_of names index → add_edges index edges adj = Ok adj' →
  Forall (λ e, e.1 ∈ names ∧ e.2 ∈ names) edges.
Proof.
  intros Hi. revert adj. induction edges as [|[from to] edges IH]; intros adj; simpl; [constructor|].
  destruct (index !! from) as [f|] eqn:Ef; [|done]. destruct (index !! to) as [t|] eqn:Et; [|done].
  intros Hadd. constructor; [|by eapply IH]. apply (proj1 (Hi _ _)) in Ef, Et.
  by split; eapply list_elem_of_lookup_2.
Qed.

(** The two stages of building, after the name. *)
Lemma build_edges names edges index :
  index_of names index →
  let n := length names in
  match add_edges index edges (mkAdjacency (replicate n []) (replicate n []) []) with
  | Ok adj =>
      shape_ok n (ad_preds adj) (ad_succs adj)
      ∧ (∀ i j, edge (ad_preds adj) i j ↔ declared names edges i j)
      ∧ Forall (λ e, e.1 ∈ names ∧ e.2 ∈ names) edges
  | Err (UnknownNode x) => (x ∉ names) ∧ (x ∈ (edges.*1) ∨ x ∈ (edges.*2))
  | Err _ => False
  end.
Proof.
  intros Hi n. pose proof (add_edges_ok names index edges _ Hi (adj_ok_empty n)) as Hadd. fold n in Hadd.
  destruct (add_edges _ _ _) as [adj|e] eqn:E; [|by destruct e].
  destruct Hadd as [[Hshape Hseen] Hall]. split; [done|]. split; [|by eapply declared_known].
  intros i j. unfold edge. rewrite <- Hseen, Hall. simpl. rewrite elem_of_nil. tauto.
Qed.

(** A declaration of a graph. *)
Record valid_graph {A} (b : GraphAgentBuilder (A:=A)) : Prop := {
  valid_name : is_Some (gb_name b);
  valid_nonempty : gb_nodes b ≠ [];
  valid_NoDup : NoDup (node_names b);
  valid_known : Forall (λ e, e.1 ∈ node_names b ∧ e.2 ∈ node_names b) (gb_edges b);
  valid_acyclic : ∀ i, ¬ tc (arrow b) i i;
}.

(** What an error says of the declaration. *)
Definition error_true {A} (b : GraphAgentBuilder (A:=A)) (e : GraphBuildError) : Prop :=
  match e with
  | GraphMissingName => gb_name b = None
  | GraphEmpty => gb_nodes b = []
  | DuplicateNode x =>
      ∃ i j, (i < j)%nat ∧ node_names b !! i = Some x ∧ node_names b !! j = Some x
  | UnknownNode x => (x ∉ node_names b) ∧ (x ∈ ((gb_edges b).*1) ∨ x ∈ ((gb_edges b).*2))
  | GraphCycle listed =>
      (∃ i, tc (arrow b) i i)
      ∧ ∀ x, x ∈ listed
          ↔ ∃ i c, node_names b !! i = Some x ∧ tc (arrow b) c c ∧ rtc (arrow b) c i
  end.

Lemma build_spec {A} (b : GraphAgentBuilder (A:=A)) :
  match build b with Ok g => built b g | Err e => error_true b e end.
Proof.
  unfold build. destruct (gb_name b) as [name|] eqn:En; [|done].
  case_bool_decide as Hne; [done|].
  assert (index_of [] ∅) as H0 by (intros x k; by rewrite lookup_empty).
  pose proof (index_nodes_ok [] (node_names b) ∅ H0) as Hindex. simpl in Hindex.
  destruct (index_nodes 0 ∅ (node_names b)) as [index|e]; [|by destruct e].
  pose proof (build_edges (node_names b) (gb_edges b) index Hindex) as Hedges. simpl in Hedges.
  destruct (add_edges _ _ _) as [adj|e]; [|by destruct e].
  destruct Hedges as (Hshape & Hedge & Hknown).
  pose proof (kahn_correct _ (node_names b) _ _ Hshape eq_refl) as Hk. simpl in Hk.
  destruct (_ =? _)%nat.
  - split; simpl; try done; [by eapply index_of_NoDup|]. by rewrite <- (length_fmap fst).
  - destruct Hk as [(i & Hi) Hl].
    assert (∀ x y, tc (edge (ad_preds adj)) x y ↔ tc (arrow b) x y) as Htc
      by (intros x y; split; apply tc_congruence with (f:=id); apply Hedge).
    assert (∀ x y, rtc (edge (ad_preds adj)) x y ↔ rtc (arrow b) x y) as Hrtc
      by (intros x y; split; apply rtc_congruence with (f:=id); apply Hedge).
    split; [exists i; by apply Htc|]. intros x. rewrite elem_of_sort_names, Hl.
    split; intros (j & c & Hx & Hc & Hcj); exists j, c; split_and!; (done || by apply Htc || by apply Hrtc).
Qed.

Lemma built_valid {A} (b : GraphAgentBuilder (A:=A)) g : built b g → valid_graph b.
Proof.
  intros [Hn Hnodes Hne Hd Hk _ Hedges Hacc]. split; try done.
  intros i Hi. apply (Acc_no_cycle (edge (gr_preds g)) i i (Hacc i)); [|reflexivity].
  revert Hi. apply tc_congruence with (f:=id). intros. by apply Hedges.
Qed.

Lemma valid_no_error {A} (b : GraphAgentBuilder (A:=A)) e : valid_graph b → ¬ error_true b e.
Proof.
  intros [[x Hn] Hne Hd Hk Hc]. destruct e as [| |x0|x0|l]; simpl; [done|by rewrite Hn|..].
  - intros (i & j & Hij & Hi & Hj). assert (i = j) by (by eapply NoDup_lookup). lia.
  - rewrite Forall_forall in Hk. intros [Hx [Hin|Hin]].
    all: apply list_elem_of_fmap in Hin as (e & -> & He); by destruct (Hk e He).
  - intros [[i Hi] _]. by apply (Hc i).
Qed.

(** C35. Building a graph succeeds exactly on the declarations that are graphs:
    named, non-empty, with distinct node names, edges between known nodes and
    no cycle; then the adjacency lists hold every declared edge once, in both
    directions.  Every error is true of the declaration, and a cycle error lists
    the nodes that are on a cycle or behind one. *)
Theorem build_correct {A} (b : GraphAgentBuilder (A:=A)) :
  ((∃ g, build b = Ok g) ↔ valid_graph b)
  ∧ match build b with Ok g => built b g | Err e => error_true b e end.
Proof.
  pose proof (build_spec b) as Hspec. split; [|done]. split.
  - intros [g Hg]. rewrite Hg in Hspec. by eapply built_valid.
  - intros Hv. destruct (build b) as [g|e]; [by exists g|]. by apply valid_no_error in Hspec.
Qed.

(** The cycle error also names what is behind a cycle. *)
Example build_behind_cycle :
  build (mkGraphAgentBuilder (Some "g") "" [("a", tt); ("b", tt); ("c", tt)]
    [("a", "b"); ("b", "a"); ("b", "c")]) = Err (GraphCycle ["a"; "b"; "c"]).
Proof. vm_compute. reflexivity. Qed.

