(* ===== verification/Graph.v ===== *)
(** Graphs of agents, their execution: [GraphAgent::run] of core/src/graph.rs.

    The scheduler is a state machine: it launches the nodes that are ready, and
    then takes one event from one of the running streams, over and over.  Which
    stream is ready first is an input of every step.  A node is a function of
    the messages it is given; the streams it returns are drained by the
    scheduler alone. *)

From S2P Require Import Prelude Json Items PathMatch CommandMatch LoopState Permission.
From S2P Require Import Redaction Tools ModelTurn Driver Workflow GraphBuild.

Section Graph.
Context `{J : SerdeJson} `{R : !RustDebug}.

(** An agent as a node: it refuses to run, or its stream yields these events and
    leaves the second component in its failure slot. *)
Record Node := mkNode {
  nd_agent : string;
  nd_run : list Item → result (list AgentEvent * option AgentError) AgentError;
}.

Variable g : GraphAgent (A:=Node).
Variable input : list Item.

Let n := length (gr_nodes g).

Definition node_name (i : nat) : string := default "" (fst <$> gr_nodes g !! i).

Record GraphState := mkGraphState {
  gs_indegree : list nat;
  gs_finals : list (option string);
  gs_skipped : list bool;
  gs_failed : list nat;
  gs_failures : list (option AgentError);
  gs_total : TokenUsage;
  gs_running : gmap nat (list AgentEvent);
  gs_ready : list nat;
  gs_out : list AgentEvent;
  gs_effects : list Effect;
}.

(** *** Skipping what a failure cuts off *)

Fixpoint mark_children (js stack : list nat) (skipped : list bool) : list nat * list bool :=
  match js with
  | [] => (stack, skipped)
  | j :: js' =>
      if bool_decide (skipped !! j = Some false) then mark_children js' (j :: stack) (<[j:=true]> skipped)
      else mark_children js' stack skipped
  end.

Fixpoint mark_go (fuel : nat) (stack : list nat) (skipped : list bool) : list bool :=
  match fuel, stack with
  | S fuel', k :: stack' =>
      let '(stack, skipped) := mark_children (next (gr_succs g) k) stack' skipped in
      mark_go fuel' stack skipped
  | _, _ => skipped
  end.

(** Every node is pushed at most once. *)
Definition mark_skipped (i : nat) (skipped : list bool) : list bool :=
  mark_go (S (length skipped)) [i] skipped.

(** *** Launching *)

(** The original input and what the predecessors said, in declared order. *)
Definition node_input (text : nat → option string) (i : nat) : list Item :=
  input ++ omap (λ p,
    (λ t, UserMessage [Text ("[" +:+ node_name p +:+ " output]" +:+ String newline t)]) <$> text p)
    (next (gr_preds g) i).

Definition text_of_node (s : GraphState) (p : nat) : option string := mjoin (gs_finals s !! p).

Definition launch (s : GraphState) (i : nat) : GraphState :=
  match gr_nodes g !! i with
  | None => s
  | Some (_, node) =>
      let out := gs_out s ++ [AgentUpdated (nd_agent node)] in
      match nd_run node (node_input (text_of_node s) i) with
      | Ok (evs, slot) =>
          mkGraphState (gs_indegree s) (gs_finals s) (gs_skipped s) (gs_failed s)
            (<[i:=slot]> (gs_failures s)) (gs_total s) (<[i:=evs]> (gs_running s)) (gs_ready s)
            out (gs_effects s)
      | Err e =>
          mkGraphState (gs_indegree s) (gs_finals s) (mark_skipped i (gs_skipped s)) (gs_failed s ++ [i])
            (<[i:=Some e]> (gs_failures s)) (gs_total s) (gs_running s) (gs_ready s)
            out (gs_effects s)
      end
  end.

Definition set_ready (s : GraphState) (ready : list nat) : GraphState :=
  mkGraphState (gs_indegree s) (gs_finals s) (gs_skipped s) (gs_failed s) (gs_failures s) (gs_total s)
    (gs_running s) ready (gs_out s) (gs_effects s).

Definition launch_ready (s : GraphState) : GraphState :=
  fold_left launch (gs_ready s) (set_ready s []).

Definition graph_start : GraphState :=
  let indegree := length <$> gr_preds g in
  mkGraphState indegree (replicate n None) (replicate n false) [] (replicate n None)
    TokenUsage_default ∅ (sources indegree) [] [].

(** *** One event *)

Definition on_message (s : GraphState) (i : nat) (item : Item) : GraphState :=
  mkGraphState (gs_indegree s)
    (match assistant_text item with Some t => <[i:=Some t]> (gs_finals s) | None => gs_finals s end)
    (gs_skipped s) (gs_failed s) (gs_failures s) (gs_total s) (gs_running s) (gs_ready s)
    (gs_out s ++ [MessageOutput item]) (gs_effects s).

Definition agent_name_of (i : nat) : string := default "" (nd_agent ∘ snd <$> gr_nodes g !! i).

Definition on_completed (s : GraphState) (i : nat) (usage : TokenUsage) : GraphState :=
  let '(indegree, ready) :=
    release (λ j, negb (default true (gs_skipped s !! j))) (next (gr_succs g) i)
      (gs_indegree s) (gs_ready s) in
  mkGraphState indegree (gs_finals s) (gs_skipped s) (gs_failed s) (gs_failures s)
    (TokenUsage_add (gs_total s) usage) (gs_running s) ready (gs_out s)
    (gs_effects s ++
      [SetState (node_name i) (default "" (text_of_node s i)); SubagentStop (agent_name_of i)]).

Definition on_failed (s : GraphState) (i : nat) : GraphState :=
  mkGraphState (gs_indegree s) (gs_finals s) (mark_skipped i (gs_skipped s)) (gs_failed s ++ [i])
    (gs_failures s) (gs_total s) (gs_running s) (gs_ready s) (gs_out s)
    (gs_effects s ++ [SubagentStop (agent_name_of i)]).

Definition on_other (s : GraphState) (ev : AgentEvent) : GraphState :=
  mkGraphState (gs_indegree s) (gs_finals s) (gs_skipped s) (gs_failed s) (gs_failures s) (gs_total s)
    (gs_running s) (gs_ready s) (gs_out s ++ [ev]) (gs_effects s).

Definition handle_event (s : GraphState) (i : nat) (ev : AgentEvent) : GraphState :=
  match ev with
  | RunStarted _ => s
  | MessageOutput item => on_message s i item
  | RunCompleted usage => on_completed s i usage
  | RunFailed _ => on_failed s i
  | _ => on_other s ev
  end.

Definition set_running (s : GraphState) (running : gmap nat (list AgentEvent)) : GraphState :=
  mkGraphState (gs_indegree s) (gs_finals s) (gs_skipped s) (gs_failed s) (gs_failures s) (gs_total s)
    running (gs_ready s) (gs_out s) (gs_effects s).

(** The stream of node [i] is the one that is ready. *)
Definition graph_step (s : GraphState) (i : nat) : option GraphState :=
  match gs_running s !! i with
  | Some (ev :: rest) =>
      Some (launch_ready (handle_event (set_running s (<[i:=rest]> (gs_running s))) i ev))
  | _ => None
  end.

Definition run_schedule (schedule : list nat) (s : GraphState) : GraphState :=
  fold_left (λ s i, default s (graph_step s i)) schedule s.

Definition drained (s : GraphState) : bool :=
  bool_decide (map_Forall (λ _ rest, rest = []) (gs_running s)).

(** *** After the last event *)

Definition skipped_names (s : GraphState) : list string :=
  node_name <$> filter (λ i, gs_skipped s !! i = Some true) (seq 0 (length (gs_skipped s))).

Definition failure_message (failed skipped : list string) (err : AgentError) : string :=
  "graph node(s) " +:+ debug_strings (sort_names failed) +:+ " failed ("
  +:+ AgentError_display err +:+ "); skipped downstream: "
  +:+ debug_strings (sort_names skipped).

Definition sink_outputs (text : nat → option string) : list (string * string) :=
  fold_left (λ m i,
    match next (gr_succs g) i with
    | [] => btree_insert (node_name i) (default "" (text i)) m
    | _ => m
    end) (seq 0 n) [].

Definition sink_text (text : nat → option string) : string :=
  match sink_outputs text with [(_, t)] => t | outputs => outputs_json outputs end.

(** The end of the stream and the failure slot; [slot] is what it held. *)
Definition conclude (s : GraphState) (slot : option AgentError) : list AgentEvent * option AgentError :=
  match gs_failed s with
  | [] =>
      ([MessageOutput (AssistantMessage [Text (sink_text (text_of_node s))] (Some (gr_name g)));
        RunCompleted (gs_total s)], slot)
  | _ =>
      let first_err :=
        default (AEOther "a graph node failed") (find_map (λ i, mjoin (gs_failures s !! i)) (gs_failed s)) in
      ([RunFailed (failure_message (node_name <$> gs_failed s) (skipped_names s) first_err)], Some first_err)
  end.

(** [GraphAgent::run] after the nesting guard. *)
Definition graph_run (schedule : list nat) (slot : option AgentError)
  : list AgentEvent * option AgentError * list Effect :=
  let s := run_schedule schedule (launch_ready graph_start) in
  let '(final, slot) := conclude s slot in
  (RunStarted (gr_name g) :: gs_out s ++ final, slot, gs_effects s).
End Graph.

(** ** Correctness *)

(** *** Marking *)

Definition unmarked_count (skipped : list bool) : nat := length (filter (λ b, b = false) skipped).

Lemma unmarked_count_insert (skipped : list bool) j :
  skipped !! j = Some false → unmarked_count skipped = S (unmarked_count (<[j:=true]> skipped)).
Proof.
  intros Hj. rewrite <- (take_drop_middle _ _ _ Hj) at 1. pose proof (lookup_lt_Some _ _ _ Hj) as Hlt.
  rewrite insert_take_drop by done. unfold unmarked_count. rewrite !filter_app, !length_app, !filter_cons. simpl. lia.
Qed.

Lemma lookup_marked (skipped : list bool) j k :
  skipped !! j = Some false → <[j:=true]> skipped !! k = Some true ↔ skipped !! k = Some true ∨ k = j.
Proof.
  intros Hj. pose proof (lookup_lt_Some _ _ _ Hj) as Hlt. rewrite list_lookup_insert_Some. split.
  - intros [(-> & _ & _)|[_ ?]]; [by right|by left].
  - intros [Hk| ->]; [|by left]. right. split; [|done]. intros ->. congruence.
Qed.

Lemma mark_children_ok (js stack : list nat) (skipped : list bool) :
  let '(stack', skipped') := mark_children js stack skipped in
  length skipped' = length skipped
  ∧ (length stack' + unmarked_count skipped' = length stack + unmarked_count skipped)%nat
  ∧ (∀ j, j ∈ stack → j ∈ stack')
  ∧ (∀ j, j ∈ stack' → j ∈ stack ∨ j ∈ js)
  ∧ (∀ j, skipped !! j = Some true → skipped' !! j = Some true)
  ∧ (∀ j, skipped' !! j = Some true → skipped !! j = Some true ∨ (j ∈ js ∧ j ∈ stack'))
  ∧ ∀ j, j ∈ js → (j < length skipped)%nat → skipped' !! j = Some true.
Proof.
  revert stack skipped. induction js as [|j js IH]; intros stack skipped; simpl.
  { split_and!; try done; intros; [by left..|by left|]. by apply elem_of_nil in H. }
  case_bool_decide as E.
  - specialize (IH (j :: stack) (<[j:=true]> skipped)).
    destruct (mark_children js (j :: stack) _) as [stack' skipped'].
    destruct IH as (Hl & Hc & Hs & Hs' & Hm & Hm' & Hr). rewrite length_insert in *.
    split_and!.
    + done.
    + rewrite (unmarked_count_insert _ _ E). simpl in Hc. lia.
    + intros k Hk. apply Hs. by right.
    + intros k Hk. destruct (Hs' k Hk) as [[->|]%elem_of_cons|]; [right; left|by left|right; by right].
    + intros k Hk. apply Hm, (lookup_marked _ _ _ E). by left.
    + intros k Hk. destruct (Hm' k Hk) as [Hk'|[]]; [|right; split; [by right|done]].
      apply (proj1 (lookup_marked _ _ _ E)) in Hk' as [| ->]; [by left|right]. split; [left|apply Hs; left].
    + intros k [->|Hk]%elem_of_cons Hlt; [|by apply Hr]. apply Hm, (lookup_marked _ _ _ E). by right.
  - specialize (IH stack skipped). destruct (mark_children js stack skipped) as [stack' skipped'].
    destruct IH as (Hl & Hc & Hs & Hs' & Hm & Hm' & Hr).
    split_and!; try done.
    + intros k Hk. destruct (Hs' k Hk); [by left|right; by right].
    + intros k Hk. destruct (Hm' k Hk) as [|[]]; [by left|right]. split; [by right|done].
    + intros k [->|Hk]%elem_of_cons Hlt; [|by apply Hr]. apply Hm.
      destruct (lookup_lt_is_Some_2 _ _ Hlt) as [[] Hb]; [done|by rewrite Hb in E].
Qed.

Section Marking.
Context `{J : SerdeJson} (g : GraphAgent (A:=Node)).
Let E (i j : nat) : Prop := j ∈ next (gr_succs g) i.

Definition marked_closed (skipped : list bool) : Prop :=
  ∀ k j, skipped !! k = Some true → j ∈ next (gr_succs g) k → skipped !! j = Some true.

Lemma mark_go_ok fuel stack skipped :
  (∀ k j, E k j → (j < length skipped)%nat) →
  (length stack + unmarked_count skipped ≤ fuel)%nat →
  (∀ k j, skipped !! k = Some true → E k j → k ∈ stack ∨ skipped !! j = Some true) →
  let r := mark_go g fuel stack skipped in
  length r = length skipped
  ∧ (∀ j, skipped !! j = Some true → r !! j = Some true)
  ∧ (∀ k j, k ∈ stack → E k j → r !! j = Some true)
  ∧ marked_closed r
  ∧ ∀ j, r !! j = Some true → skipped !! j = Some true ∨ ∃ k, k ∈ stack ∧ tc E k j.
Proof.
  intros Hrange. revert stack skipped Hrange. induction fuel as [|fuel IH]; intros [|k stack] skipped Hrange Hf Hc; simpl in *.
  1,3: split_and!; try done;
       [by intros ? ? ?%elem_of_nil|by intros k j Hk Hj; destruct (Hc k j Hk Hj) as [?%elem_of_nil|]|by left].
  { lia. }
  pose proof (mark_children_ok (next (gr_succs g) k) stack skipped) as Hm.
  destruct (mark_children _ stack skipped) as [stack' skipped'].
  destruct Hm as (Hl & Hcnt & Hs & Hs' & Hm & Hm' & Hr).
  destruct (IH stack' skipped') as (Hl' & Hsub & Hst & Hcl & Hsound); [by rewrite Hl|lia| |].
  { intros k' j Hk' Hj. destruct (Hm' k' Hk') as [Hk''|[_ ?]]; [|by left].
    destruct (Hc k' j Hk'' Hj) as [[->|]%elem_of_cons|].
    - right. apply Hr; [done|by eapply Hrange].
    - left. by apply Hs.
    - right. by apply Hm. }
  split_and!; [lia| | |done|].
  - intros j Hj. by apply Hsub, Hm.
  - intros k' j [->|Hk']%elem_of_cons Hj; [|by apply (Hst k'); [apply Hs|]].
    apply Hsub, Hr; [done|by eapply Hrange].
  - intros j Hj. destruct (Hsound j Hj) as [Hj'|(k' & Hk' & Ht)].
    + destruct (Hm' j Hj') as [|[Hin _]]; [by left|right]. exists k. split; [left|by apply tc_once].
    + right. destruct (Hs' k' Hk') as [Hin|Hin]; [exists k'; split; [by right|done]|].
      exists k. split; [left|]. by eapply tc_l.
Qed.

(** Marking marks the descendants. *)
Lemma mark_skipped_ok i skipped :
  (∀ k j, E k j → (j < length skipped)%nat) → marked_closed skipped →
  length (mark_skipped g i skipped) = length skipped
  ∧ marked_closed (mark_skipped g i skipped)
  ∧ ∀ j, mark_skipped g i skipped !! j = Some true ↔ skipped !! j = Some true ∨ tc E i j.
Proof.
  intros Hrange Hcl. unfold mark_skipped.
  destruct (mark_go_ok (S (length skipped)) [i] skipped Hrange) as (Hl & Hsub & Hst & Hcl' & Hsound).
  - simpl. unfold unmarked_count. pose proof (length_filter (λ b, b = false) skipped). lia.
  - intros k j Hk Hj. right. by eapply Hcl.
  - split_and!; [done..|]. intros j. split.
    + intros Hj. destruct (Hsound j Hj) as [|(k & ->%list_elem_of_singleton & Ht)]; [by left|by right].
    + intros [Hj|Ht]; [by apply Hsub|]. revert j Ht. apply tc_ind_r.
      * intros j Hj. eapply Hst; [by left|done].
      * intros j k _ Hjk Hj. by eapply Hcl'.
Qed.
End Marking.

(** *** What every node stands for

    The reference semantics, without a scheduler: a node whose predecessors
    are all done runs on their texts, any other node is skipped. *)

Inductive Outcome : Type :=
| NodeDone (text : option string)
| NodeFailed (e : AgentError)
| NodeSkipped.

Section Reference.
Context `{J : SerdeJson} (g : GraphAgent (A:=Node)) (input : list Item).

Definition outcome_of (r : result (list AgentEvent * option AgentError) AgentError) : Outcome :=
  match r with
  | Err e => NodeFailed e
  | Ok (evs, slot) =>
      match last evs with
      | Some (RunCompleted _) => NodeDone (last (omap message_text evs))
      | _ => NodeFailed (default (AEOther "a graph node failed") slot)
      end
  end.

Inductive verdict : nat → Outcome → Prop :=
| verdict_run i name node text :
    gr_nodes g !! i = Some (name, node) →
    (∀ p, p ∈ next (gr_preds g) i → verdict p (NodeDone (text p))) →
    verdict i (outcome_of (nd_run node (node_input g input text i)))
| verdict_skipped i p o :
    p ∈ next (gr_preds g) i → verdict p o → (∀ t, o ≠ NodeDone t) → verdict i NodeSkipped.

(** The usage of a node that is done. *)
Definition node_usage (i : nat) (u : TokenUsage) : Prop :=
  ∃ name node text evs slot,
    gr_nodes g !! i = Some (name, node)
    ∧ (∀ p, p ∈ next (gr_preds g) i → verdict p (NodeDone (text p)))
    ∧ nd_run node (node_input g input text i) = Ok (evs, slot) ∧ last evs = Some (RunCompleted u).

Lemma node_input_ext text text' i :
  (∀ p, p ∈ next (gr_preds g) i → text p = text' p) →
  node_input g input text i = node_input g input text' i.
Proof.
  intros Ht. unfold node_input. f_equal. apply list_omap_ext, Forall_Forall2_diag, Forall_forall.
  intros p Hp. by rewrite (Ht p Hp).
Qed.

(** A node stands for one outcome. *)
Lemma verdict_functional i o o' : verdict i o → verdict i o' → o = o'.
Proof.
  intros H. revert o'. induction H as [i name node text Hn Hp IH|i p o Hp Hv IH Hnd]; intros o' H'.
  - inversion H' as [i' name' node' text' Hn' Hp'|i' p o'' Hp' Hv' Hnd']; subst.
    + rewrite Hn in Hn'. injection Hn' as <- <-. do 2 f_equal. apply node_input_ext.
      intros p Hpi. specialize (IH p Hpi _ (Hp' p Hpi)). congruence.
    + exfalso. specialize (IH p Hp' _ Hv'). by apply (Hnd' (text p)).
  - inversion H' as [i' name' node' text' Hn' Hp'|]; subst; [|done].
    exfalso. apply (Hnd (text' p)). by apply IH, Hp'.
Qed.
End Reference.

Lemma sum_list_with_le {A} (f h : A → nat) l :
  (∀ x, x ∈ l → (f x ≤ h x)%nat) → (sum_list_with f l ≤ sum_list_with h l)%nat.
Proof.
  induction l as [|x l IH]; intros Hle; simpl; [done|].
  specialize (Hle x ltac:(left)) as Hx. specialize (IH ltac:(intros y Hy; apply Hle; by right)). lia.
Qed.

Lemma sum_list_with_lt {A} (f h : A → nat) l x :
  (∀ y, y ∈ l → (f y ≤ h y)%nat) → x ∈ l → (f x < h x)%nat →
  (sum_list_with f l < sum_list_with h l)%nat.
Proof.
  intros Hle (l1 & l2 & ->)%list_elem_of_split Hx. rewrite !sum_list_with_app. simpl.
  pose proof (sum_list_with_le f h l1 ltac:(intros y Hy; apply Hle; set_solver)).
  pose proof (sum_list_with_le f h l2 ltac:(intros y Hy; apply Hle; set_solver)). lia.
Qed.

(** An agent that keeps its contract, as a node. *)
Definition node_ok `{J : SerdeJson} (node : Node) : Prop :=
  ∀ input evs slot, nd_run node input = Ok (evs, slot) →
  ∃ name rest, evs = RunStarted name :: rest ∧ run_ends rest None ((slot, tt) : RunState (W:=unit)).

Section Scheduler.
Context `{J : SerdeJson} `{R : !RustDebug} (g : GraphAgent (A:=Node)) (input : list Item).
Let n := length (gr_nodes g).
Let E := edge (gr_preds g).
Hypothesis shape : shape_ok n (gr_preds g) (gr_succs g).
Hypothesis nodes_ok : Forall (λ p, node_ok p.2) (gr_nodes g).

Definition started (s : GraphState) (i : nat) : Prop :=
  is_Some (gs_running s !! i) ∨ i ∈ gs_failed s.

(** Node [i] has been launched, and [rest] is what its stream still holds. *)
Definition running_ok (dn : list nat) (s : GraphState) (i : nat) (rest : list AgentEvent) : Prop :=
  ∃ name node evs slot consumed,
    gr_nodes g !! i = Some (name, node)
    ∧ nd_run node (node_input g input (text_of_node s) i) = Ok (evs, slot)
    ∧ evs = consumed ++ rest
    ∧ gs_failures s !! i = Some slot
    ∧ text_of_node s i = last (omap message_text consumed)
    ∧ (rest = [] → i ∈ dn ∨ i ∈ gs_failed s)
    ∧ (rest ≠ [] → (i ∉ dn) ∧ i ∉ gs_failed s).

(** [dn]: the nodes that are done; [todo]: those about to be launched. *)
Record graph_inv (dn todo : list nat) (s : GraphState) : Prop := {
  gi_indegree : indegree_ok (gr_preds g) dn (gs_indegree s);
  gi_lengths : length (gs_finals s) = n ∧ length (gs_skipped s) = n ∧ length (gs_failures s) = n;
  gi_started : ∀ i, (i < n)%nat → (∀ p, p ∈ next (gr_preds g) i → p ∈ dn) ↔ started s i ∨ i ∈ todo;
  gi_range : ∀ i, started s i ∨ i ∈ todo → (i < n)%nat;
  gi_todo : NoDup todo ∧ ∀ i, i ∈ todo → ¬ started s i;
  gi_fresh : ∀ i, ¬ started s i → text_of_node s i = None;
  gi_running : ∀ i rest, gs_running s !! i = Some rest → running_ok dn s i rest;
  gi_failed : ∀ i, i ∈ gs_failed s → (i ∉ dn) ∧ ∃ e, gs_failures s !! i = Some (Some e)
    ∧ verdict g input i (NodeFailed e);
  gi_done : ∀ i, i ∈ dn → gs_running s !! i = Some []
    ∧ verdict g input i (NodeDone (text_of_node s i));
  gi_NoDup : NoDup dn ∧ NoDup (gs_failed s);
  gi_skipped : ∀ j, gs_skipped s !! j = Some true ↔ ∃ f, f ∈ gs_failed s ∧ tc E f j;
  gi_usage : ∃ us, gs_total s = sum_usage us ∧ Forall2 (node_usage g input) (reverse dn) us;
  gi_effects : ∀ k t, SetState k t ∈ gs_effects s
    ↔ ∃ i, i ∈ dn ∧ k = node_name g i ∧ t = default "" (text_of_node s i);
  gi_out : no_terminal (gs_out s);
}.

Lemma done_started dn todo s i : graph_inv dn todo s → i ∈ dn → started s i.
Proof. intros Hinv Hi. left. by rewrite (proj1 (gi_done _ _ _ Hinv i Hi)). Qed.

(** What comes before a started node is done. *)
Lemma ancestors_done dn todo s i j :
  graph_inv dn todo s → tc E j i → started s i ∨ i ∈ todo → j ∈ dn.
Proof.
  intros Hinv. revert i. refine (tc_ind_r (λ i, started s i ∨ i ∈ todo → j ∈ dn) j _ _).
  - intros i Hji Hi. apply (gi_started _ _ _ Hinv i); [by eapply gi_range|done|exact Hji].
  - intros p i Hjp Hpi IH Hi. apply IH. left. eapply done_started; [exact Hinv|].
    apply (gi_started _ _ _ Hinv i); [by eapply gi_range|done|exact Hpi].
Qed.

Lemma started_not_skipped dn todo s i :
  graph_inv dn todo s → started s i ∨ i ∈ todo → gs_skipped s !! i ≠ Some true.
Proof.
  intros Hinv Hi (f & Hf & Ht)%(gi_skipped _ _ _ Hinv).
  destruct (gi_failed _ _ _ Hinv f Hf) as [Hn _]. apply Hn. by eapply ancestors_done.
Qed.

Lemma marked_closed_inv dn todo s : graph_inv dn todo s → marked_closed g (gs_skipped s).
Proof.
  intros Hinv k j (f & Hf & Ht)%(gi_skipped _ _ _ Hinv) Hj. apply (gi_skipped _ _ _ Hinv).
  exists f. split; [done|]. eapply tc_r; [exact Ht|]. by apply (shape_converse _ _ _ shape).
Qed.

(** Marking what a failed node cuts off keeps the reading of the flags. *)
Lemma mark_skipped_inv dn todo s i :
  graph_inv dn todo s →
  length (mark_skipped g i (gs_skipped s)) = n
  ∧ ∀ j, mark_skipped g i (gs_skipped s) !! j = Some true ↔ ∃ f, f ∈ gs_failed s ++ [i] ∧ tc E f j.
Proof.
  intros Hinv. pose proof (gi_lengths _ _ _ Hinv) as (_ & Hl & _).
  destruct (mark_skipped_ok g i (gs_skipped s)) as (Hlen & _ & Hm).
  - intros k j Hj. rewrite Hl. by eapply (shape_range _ _ _ shape), (shape_converse _ _ _ shape).
  - by eapply marked_closed_inv.
  - split; [lia|]. intros j. rewrite Hm, (gi_skipped _ _ _ Hinv).
    assert (tc (λ i j, j ∈ next (gr_succs g) i) i j ↔ tc E i j) as ->.
    { split; apply tc_congruence with (f:=id); intros x y; apply (shape_converse _ _ _ shape). }
    split.
    + intros [(f & Hf & Ht)|Ht]; [exists f|exists i]; rewrite elem_of_app, list_elem_of_singleton; tauto.
    + intros (f & [Hf| ->%list_elem_of_singleton]%elem_of_app & Ht); [left; by exists f|by right].
Qed.

(** The texts of what is done determine the outcome of a node that may start. *)
Lemma verdict_started dn todo s i name node :
  graph_inv dn todo s → started s i ∨ i ∈ todo → gr_nodes g !! i = Some (name, node) →
  verdict g input i (outcome_of (nd_run node (node_input g input (text_of_node s) i))).
Proof.
  intros Hinv Hi Hnode. eapply verdict_run; [exact Hnode|]. intros p Hp.
  apply (gi_done _ _ _ Hinv). by apply (gi_started _ _ _ Hinv i); [eapply gi_range|..].
Qed.

Lemma node_lookup i : (i < n)%nat → ∃ name node, gr_nodes g !! i = Some (name, node) ∧ node_ok node.
Proof.
  intros Hi. destruct (lookup_lt_is_Some_2 _ _ Hi) as [[name node] Hn]. exists name, node. split; [done|].
  by apply (Forall_lookup_1 _ _ _ _ nodes_ok Hn).
Qed.

(** A node that may start but has not is neither done nor failed. *)
Lemma not_started dn todo s i :
  graph_inv dn todo s → ¬ started s i →
  (i ∉ dn) ∧ (i ∉ gs_failed s) ∧ gs_running s !! i = None.
Proof.
  intros Hinv Hi. split_and!.
  - intros Hin. apply Hi. by eapply done_started.
  - intros Hin. apply Hi. by right.
  - apply eq_None_not_Some. intros Hin. apply Hi. by left.
Qed.

Lemma launch_ok_inv dn todo s i name node evs slot :
  graph_inv dn (i :: todo) s → gr_nodes g !! i = Some (name, node) → node_ok node →
  nd_run node (node_input g input (text_of_node s) i) = Ok (evs, slot) →
  graph_inv dn todo (launch g input s i).
Proof.
  intros Hinv Hnode Hok Hrun. unfold launch. rewrite Hnode, Hrun.
  pose proof (gi_todo _ _ _ Hinv) as [[Hni Htd]%NoDup_cons Hns].
  assert (¬ started s i) as Hsi by (apply Hns; left).
  destruct (not_started _ _ _ _ Hinv Hsi) as (Hndn & Hnf & Hnr).
  pose proof (gi_lengths _ _ _ Hinv) as (Hl1 & Hl2 & Hl3).
  assert (i < n)%nat as Hlt by (eapply gi_range; [exact Hinv|right; left]).
  match goal with |- graph_inv _ _ ?s => set (s' := s) end.
  assert (∀ j, started s' j ↔ started s j ∨ j = i) as Hst.
  { intros j. unfold started. simpl. destruct (decide (j = i)) as [->|Hj].
    - rewrite lookup_insert_eq. split; [by right|left; by eexists].
    - rewrite lookup_insert_ne by done. split; [by left|]. by intros [|]. }
  destruct Hinv as [Hind _ Hs Hrg Ht Hfr Hr Hf Hd Hnd Hsk Hu He Ho]. split; try done.
  - simpl. by rewrite length_insert.
  - intros j Hj. rewrite (Hs j Hj), Hst, elem_of_cons. tauto.
  - intros j Hj. apply Hrg. rewrite Hst, elem_of_cons in *. tauto.
  - split; [done|]. intros j Hj. rewrite Hst. intros [Hsj| ->]; [|done]. by apply (Hns j); [right|].
  - intros j Hj. apply Hfr. intros Hsj. apply Hj. rewrite Hst. by left.
  - intros j rest. simpl. destruct (decide (j = i)) as [->|Hj].
    + rewrite lookup_insert_eq. intros [= <-]. exists name, node, evs, slot, []. simpl.
      rewrite list_lookup_insert_eq by lia. split_and!; try done; [by apply Hfr|].
      intros ->. destruct (Hok _ _ _ Hrun) as (? & ? & ? & _). done.
    + rewrite lookup_insert_ne by done. intros Hj'. destruct (Hr j rest Hj') as (x1 & x2 & x3 & x4 & x5 & Hx).
      exists x1, x2, x3, x4, x5. simpl. by rewrite list_lookup_insert_ne by done.
  - intros j Hj. destruct (Hf j Hj) as (? & e & ?). split; [done|]. exists e. simpl.
    rewrite list_lookup_insert_ne; [done|]. intros ->. by apply Hnf.
  - intros j Hj. simpl. rewrite lookup_insert_ne; [by apply Hd|]. intros ->. by apply Hndn.
  - simpl. apply Forall_app. split; [done|by repeat constructor].
Qed.

(** A node fails: when it refuses to run, or at the end of its stream. *)
Lemma failed_inv dn todo todo' s s' i e evs :
  graph_inv dn todo s → (i < n)%nat → (i ∉ dn) → i ∉ gs_failed s →
  gs_indegree s' = gs_indegree s → gs_finals s' = gs_finals s →
  gs_skipped s' = mark_skipped g i (gs_skipped s) → gs_failed s' = gs_failed s ++ [i] →
  length (gs_failures s') = n → gs_failures s' !! i = Some (Some e) →
  (∀ j, j ≠ i → gs_failures s' !! j = gs_failures s !! j) → gs_total s' = gs_total s →
  (∀ j, j ≠ i → gs_running s' !! j = gs_running s !! j) →
  (∀ rest, gs_running s' !! i = Some rest → rest = [] ∧ running_ok dn s' i []) →
  (∀ k t, SetState k t ∈ gs_effects s' ↔ SetState k t ∈ gs_effects s) →
  gs_out s' = gs_out s ++ evs → no_terminal evs →
  (∀ j, j ∈ todo' ↔ j ∈ todo ∧ j ≠ i) → NoDup todo' → started s i ∨ i ∈ todo →
  verdict g input i (NodeFailed e) → graph_inv dn todo' s'.
Proof.
  intros Hinv Hlt Hndn Hnf Eind Efin Eskip Efail Elen Efi Efj Etot Erun Eruni Eeff Eout Hevs Htd Hnt Hsi Hv.
  pose proof (mark_skipped_inv dn todo s i Hinv) as [Hml Hm].
  assert (∀ j, text_of_node s' j = text_of_node s j) as Htext by (intros j; unfold text_of_node; by rewrite Efin).
  assert (∀ j, j ≠ i → started s' j ↔ started s j) as Hst.
  { intros j Hj. unfold started. rewrite Erun, Efail, elem_of_app, list_elem_of_singleton by done. tauto. }
  assert (started s' i) as Hsti by (right; rewrite Efail; apply elem_of_app; right; left).
  destruct Hinv as [Hind (Hl1 & Hl2 & Hl3) Hs Hrg Ht Hfr Hr Hf Hd Hnd Hsk Hu He Ho]. split.
  - by rewrite Eind.
  - by rewrite Efin, Eskip.
  - intros j Hj. rewrite (Hs j Hj), Htd. destruct (decide (j = i)) as [->|Hji]; [tauto|].
    rewrite (Hst j Hji). tauto.
  - intros j Hj. destruct (decide (j = i)) as [->|Hji]; [done|]. apply Hrg.
    rewrite (Hst j Hji), Htd in Hj. tauto.
  - split; [done|]. intros j [Hj Hji]%Htd. rewrite (Hst j Hji). by apply (proj2 Ht).
  - intros j Hj. rewrite Htext. apply Hfr. intros Hsj. apply Hj.
    destruct (decide (j = i)) as [->|Hji]; [done|]. by apply Hst.
  - intros j rest Hj. destruct (decide (j = i)) as [->|Hji]; [by destruct (Eruni rest Hj) as [-> ?]|].
    rewrite Erun in Hj by done. destruct (Hr j rest Hj) as (x1 & x2 & x3 & x4 & x5 & H1 & H2 & H3 & H4 & H5 & H6 & H7).
    exists x1, x2, x3, x4, x5. rewrite Efj, Htext, Efail, elem_of_app, list_elem_of_singleton by done.
    split_and!; try done; [|tauto..]. by rewrite (node_input_ext g input _ (text_of_node s)).
  - intros j Hj. rewrite Efail, elem_of_app, list_elem_of_singleton in Hj.
    destruct (decide (j = i)) as [->|Hji]; [by split; [|exists e]|]. rewrite Efj by done. apply Hf. tauto.
  - intros j Hj. rewrite Htext, Erun by (by intros ->). by apply Hd.
  - split; [apply Hnd|]. rewrite Efail. apply NoDup_app. split; [apply Hnd|]. split; [|apply NoDup_singleton].
    by intros j Hj ->%list_elem_of_singleton.
  - intros j. rewrite Eskip, Efail. apply Hm.
  - by rewrite Etot.
  - intros k t. rewrite Eeff, He. by setoid_rewrite Htext.
  - rewrite Eout. by apply Forall_app.
Qed.

Lemma launch_inv dn todo s i :
  graph_inv dn (i :: todo) s → graph_inv dn todo (launch g input s i).
Proof.
  intros Hinv. assert (i < n)%nat as Hlt by (eapply gi_range; [exact Hinv|right; left]).
  destruct (node_lookup i Hlt) as (name & node & Hnode & Hok).
  destruct (nd_run node (node_input g input (text_of_node s) i)) as [[evs slot]|e] eqn:Hrun;
    [by eapply launch_ok_inv|].
  pose proof (gi_todo _ _ _ Hinv) as [[Hni Htd]%NoDup_cons Hns].
  destruct (not_started _ _ _ _ Hinv (Hns i ltac:(left))) as (Hndn & Hnf & Hnr).
  pose proof (gi_lengths _ _ _ Hinv) as (Hl1 & Hl2 & Hl3).
  unfold launch. rewrite Hnode, Hrun.
  eapply (failed_inv dn (i :: todo) todo s _ i e [AgentUpdated (nd_agent node)]); simpl; try done.
  - by rewrite length_insert.
  - rewrite list_lookup_insert_eq by lia. done.
  - intros j Hj. by rewrite list_lookup_insert_ne.
  - by rewrite Hnr.
  - by repeat constructor.
  - intros j. rewrite elem_of_cons. split; [|tauto]. intros Hj. split; [by right|]. by intros ->.
  - right. left.
  - assert (NodeFailed e = outcome_of (nd_run node (node_input g input (text_of_node s) i))) as ->
      by by rewrite Hrun.
    eapply verdict_started; [exact Hinv|right; left|exact Hnode].
Qed.

Lemma launch_ready_inv dn s :
  graph_inv dn (gs_ready s) s → graph_inv dn [] (launch_ready g input s) ∧ gs_ready (launch_ready g input s) = [].
Proof.
  intros Hinv. unfold launch_ready.
  assert (graph_inv dn (gs_ready s) (set_ready s [])) as Hinv' by (by destruct Hinv; split).
  assert (gs_ready (set_ready s []) = []) as Hq by done.
  revert Hinv' Hq. generalize (set_ready s []) as s0. generalize (gs_ready s) as todo. clear s Hinv.
  induction todo as [|i todo IH]; intros s Hinv Hq; simpl; [done|]. apply IH; [by apply launch_inv|].
  unfold launch. destruct (gr_nodes g !! i) as [[? ?]|]; [|done]. by destruct (nd_run _ _) as [[? ?]|].
Qed.

Lemma graph_start_inv : graph_inv [] (sources (length <$> gr_preds g)) (graph_start g).
Proof.
  pose proof (indegree_start (gr_preds g)) as Hind.
  pose proof (shape_preds _ _ _ shape) as Hlp.
  assert (∀ i, ¬ started (graph_start g) i) as Hns.
  { intros i [[x Hx]|Hx]; simpl in Hx; [by rewrite lookup_empty in Hx|by apply elem_of_nil in Hx]. }
  assert (∀ i, text_of_node (graph_start g) i = None) as Htext.
  { intros i. unfold text_of_node. simpl. destruct (replicate _ _ !! i) eqn:Ei; [|done].
    by apply lookup_replicate in Ei as [-> _]. }
  assert (∀ i, i ∈ sources (length <$> gr_preds g)
    ↔ (i < n)%nat ∧ ∀ p, p ∈ next (gr_preds g) i → p ∈ []) as Hsrc.
  { intros i. unfold sources. rewrite list_elem_of_filter, elem_of_seq, length_fmap, Hlp. split.
    - intros [H0 Hi]. split; [lia|]. apply (indegree_zero n _ _ shape [] _ i Hind); [lia|done].
    - intros [Hi H0]. split; [|lia]. by apply (indegree_zero n _ _ shape [] _ i Hind). }
  split; simpl.
  - exact Hind.
  - by rewrite !length_replicate.
  - intros i Hi. rewrite Hsrc. split; [by right|]. intros [Hx|[_ Hx]]; [by apply Hns in Hx|done].
  - intros i [Hx|[Hi _]%Hsrc]; [by apply Hns in Hx|done].
  - split; [apply NoDup_filter, NoDup_seq|]. intros i _. apply Hns.
  - intros i _. apply Htext.
  - intros i rest Hx. by rewrite lookup_empty in Hx.
  - by intros i ?%elem_of_nil.
  - by intros i ?%elem_of_nil.
  - split; constructor.
  - intros j. split; [|by intros (f & ?%elem_of_nil & _)].
    intros Hj. by apply lookup_replicate in Hj as [? _].
  - exists []. split; [done|constructor].
  - intros k t. split; [by intros ?%elem_of_nil|]. by intros (i & ?%elem_of_nil & _).
  - constructor.
Qed.

(** *** Events *)

(** The last event of a stream is its terminal one. *)
Lemma stream_position node evs slot inp consumed ev rest :
  node_ok node → nd_run node inp = Ok (evs, slot) → evs = consumed ++ ev :: rest →
  is_terminal ev = bool_decide (rest = [])
  ∧ match ev with
    | RunCompleted _ => outcome_of (Ok (evs, slot)) = NodeDone (last (omap message_text consumed))
    | RunFailed _ => ∃ e, slot = Some e ∧ outcome_of (Ok (evs, slot)) = NodeFailed e
    | _ => True
    end.
Proof.
  intros Hok Hrun ->. destruct (Hok _ _ _ Hrun) as (name & rest' & Hev & l & fin & -> & Hl & Hfin).
  assert (is_terminal fin = true) as Hft by by destruct fin.
  destruct rest as [|x rest _] using rev_ind.
  - rewrite app_comm_cons in Hev. apply app_inj_tail in Hev as [-> ->]. split; [done|].
    destruct fin; try done; unfold outcome_of; rewrite last_snoc; simpl in Hfin.
    + rewrite omap_app. by rewrite app_nil_r.
    + destruct Hfin as [e He]. simpl in He. subst slot. by exists e.
  - rewrite bool_decide_eq_false_2 by (by destruct rest).
    rewrite !app_comm_cons, (assoc_L (++)) in Hev. apply app_inj_tail in Hev as [Hev ->].
    assert (no_terminal (RunStarted name :: l)) as Hnt by by constructor.
    rewrite <- Hev in Hnt. apply Forall_app in Hnt as [_ Hnt]. apply Forall_cons in Hnt as [Ht _].
    split; [done|]. by destruct ev.
Qed.

(** Everything but the end of a stream. *)
Lemma quiet_inv dn s s' i ev rest evs :
  graph_inv dn [] s → gs_running s !! i = Some (ev :: rest) → is_terminal ev = false →
  gs_indegree s' = gs_indegree s → length (gs_finals s') = n →
  gs_skipped s' = gs_skipped s → gs_failed s' = gs_failed s → gs_failures s' = gs_failures s →
  gs_total s' = gs_total s → gs_running s' = <[i:=rest]> (gs_running s) → gs_effects s' = gs_effects s →
  gs_out s' = gs_out s ++ evs → no_terminal evs →
  (∀ j, text_of_node s' j
    = if decide (j = i) then match message_text ev with Some t => Some t | None => text_of_node s i end
      else text_of_node s j) →
  graph_inv dn [] s'.
Proof.
  intros Hinv Hi Hev Eind Efin Eskip Efail Efl Etot Erun Eeff Eout Hevs Etext.
  assert (∀ j, started s' j ↔ started s j) as Hst.
  { intros j. unfold started. rewrite Erun, Efail. destruct (decide (j = i)) as [->|Hj].
    - rewrite lookup_insert_eq, Hi. split; (intros [_|]; [left; by eexists|by right]).
    - by rewrite lookup_insert_ne. }
  pose proof (gi_running _ _ _ Hinv i _ Hi) as (x1 & node & x3 & x4 & x5 & Hnode & Hrun & Hx3 & Hfl & Htx & _ & Hne).
  destruct (Hne ltac:(done)) as [Hndn Hnf].
  assert (rest ≠ []) as Hrest.
  { pose proof (Forall_lookup_1 _ _ _ _ nodes_ok Hnode) as Hok. simpl in Hok.
    destruct (stream_position _ _ _ _ _ _ _ Hok Hrun Hx3) as [Ht _]. rewrite Hev in Ht.
    symmetry in Ht. by apply bool_decide_eq_false in Ht. }
  assert (∀ j, j ∈ dn → text_of_node s' j = text_of_node s j) as Hdt.
  { intros j Hj. rewrite Etext, decide_False; [done|]. by intros ->. }
  assert (∀ j, started s j → node_input g input (text_of_node s') j = node_input g input (text_of_node s) j) as Hin.
  { intros j Hj. apply node_input_ext. intros p Hp. apply Hdt.
    apply (gi_started _ _ _ Hinv j); [eapply gi_range; [exact Hinv|by left]|by left|exact Hp]. }
  destruct Hinv as [Hind (Hl1 & Hl2 & Hl3) Hs Hrg Ht Hfr Hr Hf Hd Hnd Hsk Hu He Ho].
  assert (started s i) as Hsi by (left; by rewrite Hi).
  split; rewrite ?Eind, ?Eskip, ?Efail, ?Efl, ?Etot, ?Eeff, ?Eout; try done.
  - intros j Hj. by rewrite Hst, Hs.
  - intros j Hj. apply Hrg. by rewrite Hst in Hj.
  - split; [constructor|]. by intros j ?%elem_of_nil.
  - intros j Hj. rewrite Hst in Hj. rewrite Etext, decide_False by (by intros ->). by apply Hfr.
  - intros j rest'. rewrite Erun. destruct (decide (j = i)) as [->|Hj].
    + rewrite lookup_insert_eq. intros [= <-]. exists x1, node, x3, x4, (x5 ++ [ev]).
      rewrite Hin, Efail, Efl, Etext, decide_True, omap_app, <- (assoc_L (++)) by done.
      split_and!; try done. simpl. destruct (message_text ev); [by rewrite last_snoc|by rewrite app_nil_r].
    + rewrite lookup_insert_ne by done. intros Hj'. destruct (Hr j rest' Hj') as (y1 & y2 & y3 & y4 & y5 & Hy).
      exists y1, y2, y3, y4, y5. rewrite Hin by (left; by rewrite Hj').
      by rewrite Efail, Efl, Etext, decide_False by done.
  - intros j Hj. rewrite Erun, lookup_insert_ne by (by intros ->). rewrite Hdt by done. by apply Hd.
  - intros k t. rewrite He. split; intros (j & Hj & -> & ->); exists j; (split; [done|]); by rewrite Hdt.
  - by apply Forall_app.
Qed.

Lemma failed_event_inv dn s i msg :
  graph_inv dn [] s → gs_running s !! i = Some [RunFailed msg] →
  graph_inv dn [] (on_failed g (set_running s (<[i:=[]]> (gs_running s))) i).
Proof.
  intros Hinv Hi. pose proof (gi_running _ _ _ Hinv i _ Hi) as (name & node & evs & slot & consumed & Hr).
  destruct Hr as (Hnode & Hrun & Hevs & Hfl & Htx & _ & Hne). destruct (Hne ltac:(done)) as [Hndn Hnf].
  assert (started s i) as Hsi by (left; by rewrite Hi).
  assert (i < n)%nat as Hlt by (eapply gi_range; [exact Hinv|by left]).
  destruct (stream_position _ _ _ _ _ _ _ (Forall_lookup_1 _ _ _ _ nodes_ok Hnode) Hrun Hevs)
    as [_ (e & -> & Hout)].
  pose proof (gi_lengths _ _ _ Hinv) as (_ & _ & Hl3).
  eapply (failed_inv dn [] [] s _ i e []); simpl; try done; try by left.
  - intros j Hj. by rewrite lookup_insert_ne.
  - rewrite lookup_insert_eq. intros rest [= <-]. split; [done|].
    exists name, node, evs, (Some e), evs. unfold text_of_node at 2. simpl.
    rewrite app_nil_r. split_and!; try done.
    + fold (text_of_node s i). rewrite Htx, Hevs, omap_app. by rewrite app_nil_r.
    + intros _. right. apply elem_of_app. right. left.
  - intros k t. rewrite elem_of_app, list_elem_of_singleton. split; [by intros [|]|by left].
  - by rewrite app_nil_r.
  - intros j. split; [by intros ?%elem_of_nil|by intros [?%elem_of_nil _]].
  - rewrite <- Hout, <- Hrun. by eapply verdict_started; [exact Hinv|left|].
Qed.

(** The nodes that completing [i] releases are those it was the last open
    predecessor of. *)
Lemma released_spec dn s i indegree' j :
  graph_inv dn [] s → started s i → (i ∉ dn) → i ∉ gs_failed s → indegree_ok (gr_preds g) (i :: dn) indegree' →
  j ∈ filter (λ j, indegree' !! j = Some 0%nat ∧ negb (default true (gs_skipped s !! j)) = true)
        (next (gr_succs g) i)
  ↔ i ∈ next (gr_preds g) j ∧ ∀ p, p ∈ next (gr_preds g) j → p ∈ i :: dn.
Proof.
  intros Hinv Hsi Hndn Hnf Hind. rewrite list_elem_of_filter, <- (shape_converse _ _ _ shape). split.
  - intros [[H0 _] Hj]. split; [done|].
    apply (indegree_zero n _ _ shape (i :: dn) _ j Hind); [by apply (shape_range _ _ _ shape i j)|done].
  - intros [Hj Hall]. destruct (shape_range _ _ _ shape i j Hj) as [_ Hjn]. split; [|done]. split.
    { by apply (indegree_zero n _ _ shape (i :: dn) _ j Hind). }
    assert (gs_skipped s !! j ≠ Some true) as Hns.
    { intros (f & Hf & Ht)%(gi_skipped _ _ _ Hinv).
      assert (∃ p, rtc E f p ∧ p ∈ next (gr_preds g) j) as (p & Hfp & Hp).
      { clear -Ht. revert j Ht. apply tc_ind_r; eauto using tc_rtc, rtc_refl. }
      destruct (gi_failed _ _ _ Hinv f Hf) as [Hfd _].
      assert (started s p) as Hsp.
      { apply Hall in Hp. apply elem_of_cons in Hp as [->|Hp]; [done|by eapply done_started]. }
      apply rtc_tc in Hfp as [->|Hfp].
      - apply Hall in Hp. by apply elem_of_cons in Hp as [->|].
      - apply Hfd. eapply ancestors_done; [exact Hinv|exact Hfp|by left]. }
    pose proof (gi_lengths _ _ _ Hinv) as (_ & Hl2 & _).
    destruct (lookup_lt_is_Some_2 (gs_skipped s) j) as [[] Hb]; [lia|done|by rewrite Hb].
Qed.

Lemma completed_event_inv dn s i u :
  graph_inv dn [] s → gs_running s !! i = Some [RunCompleted u] → gs_ready s = [] →
  let s' := on_completed g (set_running s (<[i:=[]]> (gs_running s))) i u in
  graph_inv (i :: dn) (gs_ready s') s'.
Proof.
  intros Hinv Hi Hready. pose proof (gi_running _ _ _ Hinv i _ Hi) as (name & node & evs & slot & consumed & Hr).
  destruct Hr as (Hnode & Hrun & Hevs & Hfl & Htx & _ & Hne). destruct (Hne ltac:(done)) as [Hndn Hnf].
  assert (started s i) as Hsi by (left; by rewrite Hi).
  assert (i < n)%nat as Hlt by (eapply gi_range; [exact Hinv|by left]).
  destruct (stream_position _ _ _ _ _ _ _ (Forall_lookup_1 _ _ _ _ nodes_ok Hnode) Hrun Hevs) as [_ Hout].
  pose proof (verdict_started dn [] s i name node Hinv (or_introl Hsi) Hnode) as Hv.
  rewrite Hrun, Hout, <- Htx in Hv.
  destruct (release_done n _ _ shape (λ j, negb (default true (gs_skipped s !! j))) i dn (gs_indegree s)
    (gs_ready s) (gi_indegree _ _ _ Hinv) Hndn Hlt) as (ind' & Hrel & Hind').
  unfold on_completed. simpl. rewrite Hrel, Hready. simpl.
  set (todo := filter _ (next (gr_succs g) i)).
  assert (∀ j, j ∈ todo ↔ i ∈ next (gr_preds g) j ∧ ∀ p, p ∈ next (gr_preds g) j → p ∈ i :: dn) as Htodo.
  { intros j. by apply released_spec. }
  match goal with |- graph_inv _ _ ?s => set (s' := s) end.
  assert (∀ j, started s' j ↔ started s j) as Hst.
  { intros j. unfold started. simpl. destruct (decide (j = i)) as [->|Hj].
    - rewrite lookup_insert_eq, Hi. split; (intros [_|]; [left; by eexists|by right]).
    - by rewrite lookup_insert_ne. }
  destruct Hinv as [Hind Hl Hs Hrg Ht Hfr Hr Hf Hd Hnd Hsk Hu He Ho]. split; try done.
  - intros j Hj. rewrite Hst, Htodo. specialize (Hs j Hj). rewrite elem_of_nil in Hs. split.
    + intros Hall. destruct (decide (i ∈ next (gr_preds g) j)) as [Hin|Hin]; [by right|left].
      assert (started s j ∨ False) as [|[]]; [|done]. apply Hs. intros p Hp.
      apply Hall in Hp as Hp'. apply elem_of_cons in Hp' as [->|]; done.
    + intros [Hsj|[_ Hall]]; [|done]. intros p Hp. right. apply Hs; [by left|done].
  - intros j [Hj|Hj]; [apply Hrg; left; by apply Hst|].
    apply Htodo in Hj as [Hj _]. by apply (shape_range _ _ _ shape i j).
  - split; [apply NoDup_filter, (shape_NoDup_succs _ _ _ shape)|]. intros j [Hj _]%Htodo.
    rewrite Hst. intros Hsj. apply Hndn. apply (Hs j); [by apply (shape_range _ _ _ shape i j)|by left|done].
  - intros j Hj. apply Hfr. by rewrite Hst in Hj.
  - intros j rest. simpl. destruct (decide (j = i)) as [->|Hj].
    + rewrite lookup_insert_eq. intros [= <-]. exists name, node, evs, slot, evs. rewrite app_nil_r.
      split_and!; try done; [|intros _; left; left].
      change (text_of_node s' i) with (text_of_node s i). rewrite Htx, Hevs, omap_app. by rewrite app_nil_r.
    + rewrite lookup_insert_ne by done. intros Hj'.
      destruct (Hr j rest Hj') as (y1 & y2 & y3 & y4 & y5 & H1 & H2 & H3 & H4 & H5 & H6 & H7).
      exists y1, y2, y3, y4, y5. rewrite elem_of_cons. split_and!; try done; simpl; tauto.
  - intros j Hj. destruct (Hf j Hj) as [Hjd ?]. split; [|done].
    intros [->|]%elem_of_cons; done.
  - intros j Hj. simpl. destruct (decide (j = i)) as [->|Hji]; [by rewrite lookup_insert_eq|].
    rewrite lookup_insert_ne by done. apply Hd. by apply elem_of_cons in Hj as [->|].
  - split; [constructor; [done|apply Hnd]|apply Hnd].
  - destruct Hu as (us & Htot & Hus). exists (us ++ [u]). simpl. split; [by rewrite sum_usage_snoc, <- Htot|].
    rewrite reverse_cons. apply Forall2_app; [done|]. constructor; [|constructor].
    exists name, node, (text_of_node s), evs, slot. split_and!; [done| |done|by rewrite Hevs, last_snoc].
    intros p Hp. apply Hd. apply (Hs i); [done|by left|done].
  - intros k t. simpl. rewrite !elem_of_app, !elem_of_cons, elem_of_nil, He. split.
    + intros [(j & Hj & ->& ->)|[[= -> ->]|[|]]]; [|exists i|done..].
      * exists j. split; [by right|done].
      * split; [left|done].
    + intros (j & [->|Hj]%elem_of_cons & -> & ->); [right; by left|left]. by exists j.
Qed.

(** What an event within a stream changes. *)
Lemma handle_quiet s i ev :
  is_terminal ev = false → (i < length (gs_finals s))%nat →
  let s' := handle_event g s i ev in
  gs_indegree s' = gs_indegree s ∧ length (gs_finals s') = length (gs_finals s)
  ∧ gs_skipped s' = gs_skipped s ∧ gs_failed s' = gs_failed s ∧ gs_failures s' = gs_failures s
  ∧ gs_total s' = gs_total s ∧ gs_running s' = gs_running s ∧ gs_ready s' = gs_ready s
  ∧ gs_effects s' = gs_effects s ∧ (∃ out, gs_out s' = gs_out s ++ out ∧ no_terminal out)
  ∧ ∀ j, text_of_node s' j
      = if decide (j = i) then match message_text ev with Some t => Some t | None => text_of_node s i end
        else text_of_node s j.
Proof.
  intros Hev Hi.
  assert (∀ j, text_of_node s j = if decide (j = i) then text_of_node s i else text_of_node s j) as Hsame
    by (intros j; by destruct (decide (j = i)) as [->|]).
  destruct ev; try done; simpl.
  1: split_and!; [done..| |exact Hsame]; exists []; split; [by rewrite app_nil_r|constructor].
  5: { unfold text_of_node. simpl. split_and!; try done.
       - destruct (assistant_text item); [apply length_insert|done].
       - exists [MessageOutput item]. split; [done|by repeat constructor].
       - intros j. destruct (assistant_text item) as [t|]; [|exact (Hsame j)].
         destruct (decide (j = i)) as [->|Hj]; [by rewrite list_lookup_insert_eq|].
         by rewrite list_lookup_insert_ne. }
  all: split_and!; [done..| |exact Hsame]; eexists; (split; [reflexivity|by repeat constructor]).
Qed.

Lemma handle_event_inv dn s i ev rest :
  graph_inv dn [] s → gs_ready s = [] → gs_running s !! i = Some (ev :: rest) →
  let s' := handle_event g (set_running s (<[i:=rest]> (gs_running s))) i ev in
  ∃ dn', graph_inv dn' (gs_ready s') s'.
Proof.
  intros Hinv Hready Hi.
  pose proof (gi_running _ _ _ Hinv i _ Hi) as (name & node & evs & slot & consumed & Hnode & Hrun & Hevs & _).
  destruct (stream_position _ _ _ _ _ _ _ (Forall_lookup_1 _ _ _ _ nodes_ok Hnode) Hrun Hevs) as [Ht _].
  assert (i < n)%nat as Hlt by (eapply gi_range; [exact Hinv|left; left; by rewrite Hi]).
  pose proof (gi_lengths _ _ _ Hinv) as (Hl1 & _ & _).
  destruct (is_terminal ev) eqn:Eterm; symmetry in Ht.
  - apply bool_decide_eq_true in Ht as ->. destruct ev; try done; simpl.
    + exists (i :: dn). by apply completed_event_inv.
    + exists dn. rewrite Hready. by eapply failed_event_inv.
  - pose proof (handle_quiet (set_running s (<[i:=rest]> (gs_running s))) i ev Eterm) as Hq.
    destruct Hq as (Hind & Hlen & Hsk & Hfa & Hfl & Htot & Hrn & Hrd & Heff & (out & Hout & Hno) & Htx);
      [simpl; lia|].
    exists dn. rewrite Hrd. simpl. rewrite Hready. eapply (quiet_inv dn s _ i ev rest out); try done. simpl in Hlen. lia.
Qed.

Lemma graph_step_inv dn s i s' :
  graph_inv dn [] s → gs_ready s = [] → graph_step g input s i = Some s' →
  ∃ dn', graph_inv dn' [] s' ∧ gs_ready s' = [].
Proof.
  intros Hinv Hready. unfold graph_step. destruct (gs_running s !! i) as [[|ev rest]|] eqn:Hi; [done| |done].
  intros [= <-]. destruct (handle_event_inv dn s i ev rest Hinv Hready Hi) as (dn' & Hinv').
  exists dn'. by apply launch_ready_inv.
Qed.

Lemma run_schedule_inv schedule :
  ∃ dn, graph_inv dn [] (run_schedule g input schedule (launch_ready g input (graph_start g)))
    ∧ gs_ready (run_schedule g input schedule (launch_ready g input (graph_start g))) = [].
Proof.
  unfold run_schedule. induction schedule as [|i schedule (dn & Hinv & Hready)] using rev_ind.
  - exists []. apply launch_ready_inv, graph_start_inv.
  - rewrite fold_left_app. simpl. destruct (graph_step g input _ i) as [s'|] eqn:Hs; [|by exists dn].
    by eapply graph_step_inv.
Qed.

(** *** Termination *)

Definition unstarted (s : GraphState) : nat :=
  sum_list_with (λ i, if decide (started s i) then 0 else 1)%nat (seq 0 n).

Definition pending (s : GraphState) : nat :=
  sum_list_with (λ i, length (default [] (gs_running s !! i))) (seq 0 n).

Lemma launch_started s i j : (i < n)%nat → started (launch g input s i) j ↔ started s j ∨ j = i.
Proof.
  intros Hi. destruct (node_lookup i Hi) as (name & node & Hnode & _).
  unfold launch, started. rewrite Hnode. destruct (nd_run _ _) as [[evs slot]|e]; simpl.
  - destruct (decide (j = i)) as [->|Hj].
    + rewrite lookup_insert_eq. split; [by right|left; by eexists].
    + rewrite lookup_insert_ne by done. tauto.
  - rewrite elem_of_app, list_elem_of_singleton. tauto.
Qed.

Lemma launch_all_started todo s j :
  Forall (λ i, i < n)%nat todo → started (fold_left (launch g input) todo s) j ↔ started s j ∨ j ∈ todo.
Proof.
  intros Ht. revert s. induction Ht as [|i todo Hi _ IH]; intros s; simpl; [set_solver|].
  rewrite IH, launch_started, elem_of_cons by done. tauto.
Qed.

(** What a step does to the streams: a launched stream is new. *)
Lemma launch_ready_nil s : gs_ready s = [] → launch_ready g input s = set_ready s [].
Proof. unfold launch_ready. by intros ->. Qed.

Lemma unstarted_le s s' :
  (∀ j, started s j → started s' j) → (unstarted s' ≤ unstarted s)%nat.
Proof.
  intros Hst. apply sum_list_with_le. intros j _.
  destruct (decide (started s j)); [rewrite decide_True by auto|destruct (decide (started s' j))]; lia.
Qed.

Lemma graph_step_measure dn s i s' :
  graph_inv dn [] s → gs_ready s = [] → graph_step g input s i = Some s' →
  (unstarted s' < unstarted s)%nat ∨ ((unstarted s' ≤ unstarted s)%nat ∧ (pending s' < pending s)%nat).
Proof.
  intros Hinv Hready. unfold graph_step. destruct (gs_running s !! i) as [[|ev rest]|] eqn:Hi; [done| |done].
  intros [= <-]. destruct (handle_event_inv dn s i ev rest Hinv Hready Hi) as (dn' & Hinv').
  set (s1 := handle_event _ _ i ev) in *.
  assert (gs_running s1 = <[i:=rest]> (gs_running s)) as Hrun1.
  { subst s1. destruct ev; simpl; try done.
    unfold on_completed. by destruct (release _ _ _ _). }
  assert (∀ j, started s j → started s1 j) as Hst1.
  { intros j [Hj|Hj].
    - left. rewrite Hrun1. destruct (decide (j = i)) as [->|]; [by rewrite lookup_insert_eq|].
      by rewrite lookup_insert_ne.
    - right. subst s1. destruct ev; simpl; try done; [|].
      + unfold on_completed. by destruct (release _ _ _ _).
      + apply elem_of_app. by left. }
  assert (∀ j, started (launch_ready g input s1) j ↔ started s1 j ∨ j ∈ gs_ready s1) as Hst2.
  { intros j. unfold launch_ready. rewrite launch_all_started; [done|].
    apply Forall_forall. intros k Hk. eapply gi_range; [exact Hinv'|by right]. }
  destruct (gs_ready s1) as [|k todo] eqn:Hr1.
  - right. split; [apply unstarted_le; intros j Hj; apply Hst2; left; by apply Hst1|].
    rewrite launch_ready_nil by done. unfold pending. simpl. rewrite Hrun1.
    apply (sum_list_with_lt _ _ _ i).
    + intros j _. destruct (decide (j = i)) as [->|]; [rewrite lookup_insert_eq, Hi; simpl; lia|].
      by rewrite lookup_insert_ne.
    + apply elem_of_seq. split; [lia|]. eapply gi_range; [exact Hinv|left; left; by rewrite Hi].
    + rewrite lookup_insert_eq, Hi. simpl. lia.
  - left. assert (k ∈ k :: todo) as Hk by left.
    apply (sum_list_with_lt _ _ _ k).
    + intros j _. destruct (decide (started s j)) as [Hj|]; [|destruct (decide _); lia].
      rewrite decide_True; [lia|]. apply Hst2. left. by apply Hst1.
    + apply elem_of_seq. split; [lia|]. eapply gi_range; [exact Hinv'|by right].
    + rewrite decide_True by (apply Hst2; by right). rewrite decide_False; [lia|].
      intros Hsk. apply (proj2 (gi_todo _ _ _ Hinv') k Hk). by apply Hst1.
Qed.

Definition graph_next (s' s : GraphState) : Prop := ∃ i, graph_step g input s i = Some s'.

Lemma graph_next_acc a b dn s :
  (unstarted s ≤ a)%nat → (pending s ≤ b)%nat → graph_inv dn [] s → gs_ready s = [] → Acc graph_next s.
Proof.
  revert b dn s. induction a as [a IHa] using lt_wf_ind. intros b.
  induction b as [b IHb] using lt_wf_ind. intros dn s Ha Hb Hinv Hready. constructor. intros s' [i Hs].
  destruct (graph_step_inv dn s i s' Hinv Hready Hs) as (dn' & Hinv' & Hready').
  destruct (graph_step_measure dn s i s' Hinv Hready Hs) as [Hlt|[Hle Hlt]].
  - eapply (IHa (unstarted s')); [lia|done|reflexivity|exact Hinv'|done].
  - eapply (IHb (pending s')); [lia|lia|done|exact Hinv'|done].
Qed.

(** A state is drained exactly when no stream has an event left. *)
Lemma drained_spec s : drained s = true ↔ ∀ i, graph_step g input s i = None.
Proof.
  unfold drained. rewrite bool_decide_eq_true. unfold graph_step. split.
  - intros Hd i. destruct (gs_running s !! i) as [rest|] eqn:Hi; [|done]. by rewrite (Hd i rest Hi).
  - intros Hn i rest Hi. specialize (Hn i). rewrite Hi in Hn. by destruct rest.
Qed.

(** Every execution can be finished. *)
Lemma can_finish s : Acc graph_next s → ∃ more, drained (run_schedule g input more s) = true.
Proof.
  induction 1 as [s _ IH]. destruct (drained s) eqn:Hd; [by exists []|].
  assert (∃ i s', graph_step g input s i = Some s') as (i & s' & Hs).
  { unfold drained in Hd. apply bool_decide_eq_false in Hd.
    apply map_not_Forall in Hd as (i & rest & Hi & Hr); [|apply _].
    exists i. unfold graph_step. rewrite Hi. destruct rest; [done|by eexists]. }
  destruct (IH s') as [more Hm]; [by exists i|]. exists (i :: more). unfold run_schedule in *. simpl.
  by rewrite Hs.
Qed.

(** *** At the end *)

Lemma final_verdicts dn s :
  graph_inv dn [] s → drained s = true → (∀ j, Acc E j) → ∀ j, (j < n)%nat →
  j ∈ dn ∨ j ∈ gs_failed s ∨ (gs_skipped s !! j = Some true ∧ verdict g input j NodeSkipped).
Proof.
  intros Hinv Hdr Hacc j. unfold drained in Hdr. apply bool_decide_eq_true in Hdr.
  induction (Hacc j) as [j _ IH]. intros Hj.
  destruct (open_preds dn (next (gr_preds g) j)) as [|p ps] eqn:Hop.
  - assert (started s j ∨ j ∈ []) as [[[rest Hr]|Hf]|?%elem_of_nil]; [|  |by right; left|done].
    { apply (gi_started _ _ _ Hinv j Hj). intros p Hp. destruct (decide (p ∈ dn)) as [|Hn]; [done|].
      exfalso. apply (not_elem_of_nil p). rewrite <- Hop. by apply list_elem_of_filter. }
    pose proof (gi_running _ _ _ Hinv j _ Hr) as (? & ? & ? & ? & ? & _ & _ & _ & _ & _ & He & _).
    rewrite (Hdr j rest Hr) in He. destruct (He eq_refl); [by left|right; by left].
  - assert (p ∈ open_preds dn (next (gr_preds g) j)) as [Hpn Hp]%list_elem_of_filter by (rewrite Hop; left).
    destruct (shape_range _ _ _ shape p j Hp) as [Hpl _]. right. right.
    destruct (IH p Hp Hpl) as [|[Hf|[Hsk Hv]]]; [done| |].
    + destruct (gi_failed _ _ _ Hinv p Hf) as (_ & e & _ & Hv). split.
      * apply (gi_skipped _ _ _ Hinv). exists p. split; [done|by apply tc_once].
      * by eapply verdict_skipped.
    + split; [|by eapply verdict_skipped]. apply (gi_skipped _ _ _ Hinv) in Hsk as (f & Hf & Ht).
      apply (gi_skipped _ _ _ Hinv). exists f. split; [done|by eapply tc_r].
Qed.

Lemma verdict_range i o : verdict g input i o → (i < n)%nat.
Proof.
  intros [j name node text Hn _|j p o' Hp _ _]; [by eapply lookup_lt_Some|].
  by apply (shape_range _ _ _ shape p j).
Qed.

(** The error a failed graph reports is that of one of its failed nodes. *)
Lemma first_error dn s :
  graph_inv dn [] s → gs_failed s ≠ [] →
  ∃ i e, verdict g input i (NodeFailed e)
    ∧ find_map (λ i, mjoin (gs_failures s !! i)) (gs_failed s) = Some e.
Proof.
  intros Hinv Hne. destruct (find_map _ (gs_failed s)) as [e|] eqn:Ef.
  - apply find_map_Some in Ef as (l1 & i & l2 & Hl & He & _).
    destruct (gi_failed _ _ _ Hinv i) as (_ & e' & He' & Hv); [rewrite Hl; apply elem_of_app; right; left|].
    exists i, e.     rewrite He' in He. simpl in He. by simplify_eq.
  - apply find_map_None in Ef. rewrite Forall_forall in Ef. destruct (gs_failed s) as [|f fs] eqn:Efs; [done|].
    destruct (gi_failed _ _ _ Hinv f) as (_ & e & He & _); [rewrite Efs; left|].
    specialize (Ef f ltac:(left)). by rewrite He in Ef.
Qed.

(** The flags of a finished run say what every node stands for. *)
Lemma final_iff dn s :
  graph_inv dn [] s → drained s = true → (∀ j, Acc E j) →
  (∀ j, j ∈ dn ↔ ∃ t, verdict g input j (NodeDone t))
  ∧ (∀ j, j ∈ gs_failed s ↔ ∃ e, verdict g input j (NodeFailed e))
  ∧ (∀ j, gs_skipped s !! j = Some true ↔ verdict g input j NodeSkipped).
Proof.
  intros Hinv Hdr Hacc. pose proof (final_verdicts dn s Hinv Hdr Hacc) as Hf.
  assert (∀ j, j ∈ dn → ∃ t, verdict g input j (NodeDone t)) as H1.
  { intros j Hj. eexists. by apply (gi_done _ _ _ Hinv). }
  assert (∀ j, j ∈ gs_failed s → ∃ e, verdict g input j (NodeFailed e)) as H2.
  { intros j Hj. destruct (gi_failed _ _ _ Hinv j Hj) as (_ & e & _ & Hv). by exists e. }
  assert (∀ j, gs_skipped s !! j = Some true → verdict g input j NodeSkipped) as H3.
  { intros j Hj. pose proof Hj as (f & Hfl & Ht)%(gi_skipped _ _ _ Hinv).
    assert (j < n)%nat as Hlt.
    { rewrite <- (proj1 (proj2 (gi_lengths _ _ _ Hinv))). by eapply lookup_lt_Some. }
    destruct (Hf j Hlt) as [Hd|[Hd|[_ ?]]]; [exfalso..|done].
    - eapply started_not_skipped; [exact Hinv|left; by eapply done_started|exact Hj].
    - eapply started_not_skipped; [exact Hinv|left; by right|exact Hj]. }
  split_and!; intros j; split; auto; intros Hv.
  - destruct Hv as [t Hv]. destruct (Hf j (verdict_range _ _ Hv)) as [|[Hj|[_ Hv']]]; [done|exfalso..].
    + destruct (H2 j Hj) as [e Hv']. by pose proof (verdict_functional _ _ _ _ _ Hv Hv').
    + by pose proof (verdict_functional _ _ _ _ _ Hv Hv').
  - destruct Hv as [e Hv]. destruct (Hf j (verdict_range _ _ Hv)) as [Hj|[|[_ Hv']]]; [exfalso|done|exfalso].
    + destruct (H1 j Hj) as [t Hv']. by pose proof (verdict_functional _ _ _ _ _ Hv Hv').
    + by pose proof (verdict_functional _ _ _ _ _ Hv Hv').
  - destruct (Hf j (verdict_range _ _ Hv)) as [Hj|[Hj|[? _]]]; [exfalso..|done].
    + destruct (H1 j Hj) as [t Hv']. by pose proof (verdict_functional _ _ _ _ _ Hv Hv').
    + destruct (H2 j Hj) as [t Hv']. by pose proof (verdict_functional _ _ _ _ _ Hv Hv').
Qed.
End Scheduler.

Section Conclude.
Context `{J : SerdeJson} `{R : !RustDebug} (g : GraphAgent (A:=Node)) (input : list Item).

Lemma conclude_done s slot :
  gs_failed s = [] →
  conclude g s slot
  = ([MessageOutput (AssistantMessage [Text (sink_text g (text_of_node s))] (Some (gr_name g)));
      RunCompleted (gs_total s)], slot).
Proof. unfold conclude. by intros ->. Qed.

Lemma conclude_failed s slot e :
  gs_failed s ≠ [] → find_map (λ i, mjoin (gs_failures s !! i)) (gs_failed s) = Some e →
  conclude g s slot
  = ([RunFailed (failure_message (node_name g <$> gs_failed s) (skipped_names g s) e)], Some e).
Proof. unfold conclude. destruct (gs_failed s) eqn:Ef; [done|]. intros _ ->. done. Qed.

Lemma done_usage dn s :
  graph_inv g input dn [] s → (∀ i, (i < length (gr_nodes g))%nat → i ∈ dn) →
  ∃ us, Forall2 (node_usage g input) (seq 0 (length (gr_nodes g))) us ∧ usage_is_sum (gs_total s) us.
Proof.
  intros Hinv Hall. destruct (gi_usage _ _ _ _ _ Hinv) as (us & -> & Hus).
  assert (reverse dn ≡ₚ seq 0 (length (gr_nodes g))) as Hperm.
  { rewrite reverse_Permutation. apply NoDup_Permutation; [apply (gi_NoDup _ _ _ _ _ Hinv)|apply NoDup_seq|].
    intros i. rewrite elem_of_seq. split; [|intros [_ Hi]; by apply Hall].
    intros Hi. split; [lia|]. eapply gi_range; [exact Hinv|left; by eapply done_started]. }
  destruct (Permutation_Forall2 Hperm Hus) as (us' & Hp' & Hus'). exists us'. split; [done|].
  eapply usage_is_sum_perm; [exact Hp'|apply sum_usage_is_sum].
Qed.
End Conclude.

(** The end of a graph's run, as a function of what its nodes stand for alone. *)
Definition graph_result `{J : SerdeJson} `{R : !RustDebug} (g : GraphAgent (A:=Node)) (input : list Item)
    (slot : option AgentError) (final : list AgentEvent) (slot' : option AgentError) : Prop :=
  let n := length (gr_nodes g) in
  (∃ text us total,
    (∀ i, (i < n)%nat → verdict g input i (NodeDone (text i)))
    ∧ Forall2 (node_usage g input) (seq 0 n) us ∧ usage_is_sum total us
    ∧ final = [MessageOutput (AssistantMessage [Text (sink_text g text)] (Some (gr_name g)));
               RunCompleted total]
    ∧ slot' = slot)
  ∨ ∃ i e failed skipped,
    verdict g input i (NodeFailed e)
    ∧ NoDup failed ∧ (∀ j, j ∈ failed ↔ ∃ e, verdict g input j (NodeFailed e))
    ∧ NoDup skipped ∧ (∀ j, j ∈ skipped ↔ verdict g input j NodeSkipped)
    ∧ final = [RunFailed (failure_message (node_name g <$> failed) (node_name g <$> skipped) e)]
    ∧ slot' = Some e.


(** C34. The scheduler terminates: no schedule goes on for ever, every execution
    can be finished, and it is finished exactly when no stream is ready. *)
Theorem graph_terminates `{J : SerdeJson} `{R : !RustDebug} b (g : GraphAgent (A:=Node)) input :
  built b g → Forall (λ p, node_ok p.2) (gr_nodes g) →
  let start := launch_ready g input (graph_start g) in
  Acc (λ s' s, ∃ i, graph_step g input s i = Some s') start
  ∧ (∀ schedule, ∃ more, drained (run_schedule g input (schedule ++ more) start) = true)
  ∧ ∀ schedule, drained (run_schedule g input schedule start) = true
      ↔ ∀ i, graph_step g input (run_schedule g input schedule start) i = None.
Proof.
  intros Hb Hok start. pose proof (built_shape _ _ Hb) as Hshape.
  assert (∀ schedule, Acc (graph_next g input) (run_schedule g input schedule start)) as Hacc.
  { intros schedule. destruct (run_schedule_inv g input Hshape Hok schedule) as (dn & Hinv & Hready).
    by eapply graph_next_acc. }
  split_and!.
  - exact (Hacc []).
  - intros schedule. destruct (can_finish g input _ (Hacc schedule)) as [more Hm]. exists more.
    unfold run_schedule in *. by rewrite fold_left_app.
  - intros schedule. apply drained_spec.
Qed.

(** ** A diamond, and one whose left arm fails *)

Module GraphDemo.
#[local] Existing Instance Toy.json.
#[local] Existing Instance ToolsDemo.debug.
Import WorkflowDemo.

(** Says what it was told last. *)
Definition echo (name : string) : Node :=
  mkNode name (λ input,
    let heard := match last input with Some (UserMessage [Text t]) => t | _ => "" end in
    Ok ([RunStarted name; said name (name +:+ "(" +:+ heard +:+ ")"); RunCompleted (usage 1)], None)).

Definition broken : Node :=
  mkNode "broken" (λ _, Ok ([RunStarted "broken"; RunFailed "boom"], Some (AEOther "boom"))).

Definition diamond (left : Node) : GraphAgentBuilder (A:=Node) :=
  mkGraphAgentBuilder (Some "g") "" [("top", echo "t"); ("left", left); ("right", echo "r"); ("bottom", echo "b")]
    [("top", "left"); ("top", "right"); ("left", "bottom"); ("right", "bottom"); ("top", "left")].

Definition graph (left : Node) : GraphAgent (A:=Node) :=
  mkGraphAgent "g" "" (gb_nodes (diamond left)) [[]; [0]; [0]; [1; 2]]%nat [[1; 2]; [3]; [3]; []]%nat.

Lemma graph_built left : built (diamond left) (graph left).
Proof.
  assert (build (diamond left) = Ok (graph left)) as Hb by (vm_compute; reflexivity).
  pose proof (build_spec (diamond left)) as H. by rewrite Hb in H.
Qed.

Definition input : list Item := [UserMessage [Text "go"]].

Definition schedule : list nat := [0; 0; 0; 2; 1; 1; 2; 2; 1; 3; 3; 3]%nat.

Lemma echo_ok name : node_ok (echo name).
Proof.
  intros inp evs slot [= <- <-]. eexists _, _. split; [reflexivity|].
  eexists [_], _. split; [reflexivity|]. split; [by repeat constructor|done].
Qed.

Lemma broken_ok : node_ok broken.
Proof.
  intros inp evs slot [= <- <-]. eexists _, _. split; [reflexivity|].
  exists [], (RunFailed "boom"). split; [done|]. split; [constructor|by eexists].
Qed.

Lemma nodes_ok left : node_ok left → Forall (λ p, node_ok p.2) (gr_nodes (graph left)).
Proof. intros Hl. repeat constructor; simpl; (apply echo_ok || exact Hl). Qed.
End GraphDemo.

Section Witnesses.
#[local] Existing Instance Toy.json.
#[local] Existing Instance ToolsDemo.debug.
Import WorkflowDemo GraphDemo.


Lemma graph_terminates_witness :
  let s := run_schedule (graph (echo "l")) input schedule
             (launch_ready (graph (echo "l")) input (graph_start (graph (echo "l")))) in
  drained s = true ∧ omap message_text (conclude (graph (echo "l")) s None).1
    = ["b([right output]" +:+ String newline "r([top output]" +:+ String newline "t(go)))"]
  ∧ ∀ i, graph_step (graph (echo "l")) input s i = None.
Proof.
  intros s. assert (drained s = true) as Hd by (vm_compute; reflexivity).
  split; [exact Hd|]. split; [vm_compute; reflexivity|].
  destruct (graph_terminates (diamond (echo "l")) (graph (echo "l")) input (graph_built (echo "l"))
    (nodes_ok (echo "l") (echo_ok "l"))) as (_ & _ & H). by apply H.
Defined.
End Witnesses.
