(* ===== verification/Swarm.v ===== *)
(** Swarms: core/src/swarm.rs, a pool of LLM agents with handoffs to each other.

    The members of a swarm refer to each other through weak slots, so a member
    is a recursive agent: the run of member [i] may run member [j], and so on.
    The recursion is by fuel, and a theorem shows that the nesting guard of the
    agent loop makes any fuel beyond the depth budget immaterial. *)

From S2P Require Import Prelude Json Items PathMatch CommandMatch LoopState Permission.
From S2P Require Import Redaction Tools ModelTurn Driver Workflow.

Section Swarm.
Context `{J : SerdeJson} `{G : Globset} `{D : !LoopDebug} `{R : !RustDebug} {W : Type} `{Sc : !Scratch W}.
Variables (env : list (string * string)) (schedule : W → list nat).

Inductive SwarmBuildError : Type :=
| SwarmEmpty
| SwarmMissingName
| DuplicateMember (name : string)
| UnknownEntry (name : string).

Record SwarmAgentBuilder := mkSwarmAgentBuilder {
  sb_name : option string;
  sb_description : string;
  sb_members : list (LlmAgent (W:=W));
  sb_entry : option string;
  sb_max_handoffs : option Z;
}.

Record SwarmAgent := mkSwarmAgent {
  sw_name : string;
  sw_description : string;
  sw_members : list (LlmAgent (W:=W));
  sw_entry : nat;
  sw_max_handoffs : option Z;
}.

Fixpoint duplicate_member (seen : list string) (names : list string) : option string :=
  match names with
  | [] => None
  | x :: names' => if bool_decide (x ∈ seen) then Some x else duplicate_member (x :: seen) names'
  end.

(** [Iterator::position] *)
Fixpoint position (x : string) (names : list string) : option nat :=
  match names with
  | [] => None
  | y :: names' => if String.eqb y x then Some 0%nat else S <$> position x names'
  end.

(** [SwarmAgentBuilder::build]; the wiring of the members is [member]. *)
Definition swarm_build (b : SwarmAgentBuilder) : result SwarmAgent SwarmBuildError :=
  match sb_name b with
  | None => Err SwarmMissingName
  | Some name =>
      if bool_decide (length (sb_members b) = 0%nat) then Err SwarmEmpty
      else
        let names := la_name <$> sb_members b in
        match duplicate_member [] names with
        | Some x => Err (DuplicateMember x)
        | None =>
            match match sb_entry b with None => Ok 0%nat | Some e =>
                    match position e names with Some k => Ok k | None => Err (UnknownEntry e) end end with
            | Err e => Err e
            | Ok entry => Ok (mkSwarmAgent name (sb_description b) (sb_members b) entry (sb_max_handoffs b))
            end
        end
  end.

(** ** The members *)

(** [agent.handoffs.extend(handoffs)] *)
Definition with_handoffs (a : LlmAgent (W:=W)) (handoffs : list (Agent (W:=W))) : LlmAgent :=
  mkLlmAgent (la_name a) (la_description a) (la_instructions a) (la_model a) (la_tools a) handoffs
    (la_output_type a) (la_input_guardrails a) (la_output_guardrails a) (la_hooks a)
    (la_model_settings a) (la_config a).

(** [MemberSlot]: named as the member, running it with the context unchanged. *)
Definition member_slot (a : LlmAgent (W:=W)) (target : Agent (W:=W)) : Agent :=
  mkAgent (la_name a) (la_description a) (ag_run target).

(** A slot whose member is gone. *)
Definition dead_member (a : LlmAgent (W:=W)) : Agent (W:=W) :=
  mkAgent (la_name a) (la_description a) (λ _ _ st,
    (Err (AEOther ("swarm member '" +:+ la_name a +:+ "' is no longer alive")), st)).

Definition others (i : nat) (members : list (LlmAgent (W:=W))) : list (nat * LlmAgent) :=
  filter (λ p, p.1 ≠ i) (imap (λ j a, (j, a)) members).

(** Member [i], which must exist, wired to its siblings. *)
Fixpoint member (members : list (LlmAgent (W:=W))) (fuel : nat) (i : nat) (a : LlmAgent (W:=W))
  : Agent (W:=W) :=
  match fuel with
  | O => dead_member a
  | S fuel' =>
      LlmAgent_agent env schedule
        (with_handoffs a (la_handoffs a ++
          ((λ p, member_slot p.2 (member members fuel' p.1 p.2)) <$> others i members)))
  end.

(** ** The swarm's run *)

(** What is kept while the entry's stream is relayed; [None] when the handoff
    budget is exceeded. *)
Fixpoint relay_swarm (max_handoffs : option Z) (hops : Z) (sub : list AgentEvent)
  : list AgentEvent * option Z :=
  match sub with
  | [] => ([], None)
  | RunStarted _ :: sub' => relay_swarm max_handoffs hops sub'
  | HandoffItem from to :: sub' =>
      let hops := u32_add hops 1 in
      match max_handoffs with
      | Some limit =>
          if (limit <? hops)%Z then ([], Some limit)
          else let '(out, cut) := relay_swarm max_handoffs hops sub' in (HandoffItem from to :: out, cut)
      | None => let '(out, cut) := relay_swarm max_handoffs hops sub' in (HandoffItem from to :: out, cut)
      end
  | ev :: sub' => let '(out, cut) := relay_swarm max_handoffs hops sub' in (ev :: out, cut)
  end.

Definition is_run_failed_event (ev : AgentEvent) : bool :=
  match ev with RunFailed _ => true | _ => false end.

(** The stream after the nesting guard.  When the budget is exceeded the entry's
    stream is dropped half-way, and the world is what the run had made of it by
    then: the argument [dropped]. *)
Definition swarm_body (s : SwarmAgent) (dropped : W → W) (fuel : nat) (ctx : RunContext (W:=W))
    (input : list Item) (st : RunState) : list AgentEvent * RunState :=
  match sw_members s !! sw_entry s with
  | None => ([], st)
  | Some a =>
      let '(res, child) :=
        ag_run (member (sw_members s) fuel (sw_entry s) a) (subagent_child ctx) input
          (None, put_escalated false st.2) in
      let w := put_escalated (escalated st.2) child.2 in
      match res with
      | Err e =>
          ([AgentUpdated (la_name a); RunFailed (AgentError_display e)], failure_set e (st.1, w))
      | Ok sub =>
          match relay_swarm (sw_max_handoffs s) 0 sub with
          | (out, Some limit) =>
              let err := MaxHandoffsExceeded limit in
              (AgentUpdated (la_name a) :: out ++ [RunFailed (AgentError_display err)],
               failure_set err (st.1, dropped st.2))
          | (out, None) =>
              let st' :=
                if existsb is_run_failed_event out then
                  match child.1 with Some e => failure_set e (st.1, w) | None => (st.1, w) end
                else (st.1, w) in
              (AgentUpdated (la_name a) :: out,
               (st'.1, notify_hooks (rc_hooks ctx) (OnSubagentStop (la_name a)) st'.2))
          end
      end
  end.

(** Members nest at most as deep as the largest depth budget among them. *)
Definition depth_budget (ctx : RunContext (W:=W)) (members : list (LlmAgent (W:=W))) : Z :=
  foldr Z.max 0%Z ((λ a, max_agent_depth (effective_config a ctx)) <$> members).

Definition swarm_fuel (ctx : RunContext (W:=W)) (members : list (LlmAgent (W:=W))) : nat :=
  S (Z.to_nat (depth_budget ctx members)).

Definition SwarmAgent_agent (s : SwarmAgent) (dropped : W → W) : Agent (W:=W) :=
  mkAgent (sw_name s) (sw_description s) (λ ctx input,
    guarded ctx (sw_name s) (swarm_body s dropped (swarm_fuel ctx (sw_members s)) ctx input)).
End Swarm.

(** ** Correctness *)

(** *** A run depends on its handoff targets only through their runs

    in the child context, and only when the nesting guard lets a handoff pass. *)

Section Congruence.
Context `{J : SerdeJson} `{G : Globset} `{D : !LoopDebug} `{R : !RustDebug} {W : Type}.
Variables (env : list (string * string)) (schedule : W → list nat).
Variables (a : LlmAgent (W:=W)) (ctx : RunContext (W:=W)) (hs hs' : list (Agent (W:=W))).

Definition same_target (h h' : Agent (W:=W)) : Prop :=
  ag_name h = ag_name h' ∧ ag_description h = ag_description h'
  ∧ ((rc_agent_depth (handoff_child ctx) ≤ max_agent_depth (effective_config a ctx))%Z →
     ∀ input st, ag_run h (handoff_child ctx) input st = ag_run h' (handoff_child ctx) input st).

Hypothesis same : Forall2 same_target hs hs'.

Lemma plan_congr : plan (with_handoffs a hs) ctx = plan (with_handoffs a hs') ctx.
Proof.
  assert (handoff_defs (with_handoffs a hs) = handoff_defs (with_handoffs a hs')) as Hd.
  { change (Handoff_to_def <$> hs = Handoff_to_def <$> hs').
    induction same as [|h h' l l' (Hn & Hd & _) Hl IH]; [done|]. rewrite !fmap_cons, IH by done. f_equal.
    unfold Handoff_to_def. by rewrite Hn, Hd. }
  unfold plan. by rewrite Hd.
Qed.

Lemma find_congr target :
  match List.find (λ h, String.eqb (ag_name h) target) hs,
        List.find (λ h, String.eqb (ag_name h) target) hs' with
  | Some h, Some h' => same_target h h'
  | None, None => True
  | _, _ => False
  end.
Proof.
  revert same. generalize hs, hs'. induction 1 as [|h h' l l' Hh _ IH]; simpl; [done|].
  pose proof Hh as (Hn & _). rewrite <- Hn. by destruct (String.eqb (ag_name h) target).
Qed.

Lemma apply_handoff_congr yielded state st :
  apply_handoff (with_handoffs a hs) ctx yielded state st
  = apply_handoff (with_handoffs a hs') ctx yielded state st.
Proof.
  destruct state; try done. unfold apply_handoff. simpl.
  change (effective_config (with_handoffs a hs) ctx) with (effective_config a ctx).
  change (effective_config (with_handoffs a hs') ctx) with (effective_config a ctx).
  change (interceptors (with_handoffs a hs') ctx) with (interceptors (with_handoffs a hs) ctx).
  destruct (Z.ltb_spec (max_agent_depth (effective_config a ctx)) (u32_saturating_add (rc_agent_depth ctx) 1))
    as [|Hle]; [done|].
  pose proof (find_congr target) as Hf.
  destruct (List.find _ hs) as [h|], (List.find _ hs') as [h'|]; try done.
  destruct Hf as (_ & _ & Hr). destruct (fire _ _ _) as [o w]. destruct (denied o); [done|].
  by rewrite Hr.
Qed.

Lemma loop_body_congr l :
  loop_body env (with_handoffs a hs) ctx schedule l = loop_body env (with_handoffs a hs') ctx schedule l.
Proof.
  unfold loop_body. rewrite plan_congr.
  change (interceptors (with_handoffs a hs') ctx) with (interceptors (with_handoffs a hs) ctx).
  destruct (lp_run l) as [slot w]. destruct (match next_state _ with Done _ => _ | _ => _ end) as [trip w'].
  destruct (match trip with Some _ => _ | None => _ end) as [[evs action] slot'].
  change (emit (with_handoffs a hs') ctx evs) with (emit (with_handoffs a hs) ctx evs).
  destruct (emit _ _ _ _ _) as [[[yielded inj] verdict] w'']. destruct verdict; [done|].
  destruct action; try done. apply apply_handoff_congr.
Qed.

Lemma run_stream_congr fuel input st :
  run_stream env (with_handoffs a hs) ctx schedule fuel input st
  = run_stream env (with_handoffs a hs') ctx schedule fuel input st.
Proof.
  assert (∀ f l, drive env (with_handoffs a hs) ctx schedule f l
    = drive env (with_handoffs a hs') ctx schedule f l) as Hdrive.
  { induction f as [|f IH]; intros l; simpl; [done|]. rewrite loop_body_congr.
    destruct (loop_body _ _ _ _ l); [by rewrite IH|done]. }
  assert (prologue (with_handoffs a hs) ctx input st = prologue (with_handoffs a hs') ctx input st) as Hp.
  { unfold prologue. pose proof (f_equal plan_handoffs plan_congr) as Hh. simpl in Hh. by rewrite Hh. }
  unfold run_stream. rewrite Hp. destruct (prologue (with_handoffs a hs') ctx input st); [|done].
  by rewrite Hdrive.
Qed.
End Congruence.

Section Members.
Context `{J : SerdeJson} `{G : Globset} `{D : !LoopDebug} `{R : !RustDebug} {W : Type} `{Sc : !Scratch W}.
Variables (env : list (string * string)) (schedule : W → list nat) (members : list (LlmAgent (W:=W))).

Lemma depth_budget_le ctx a :
  a ∈ members → (max_agent_depth (effective_config a ctx) ≤ depth_budget ctx members)%Z.
Proof.
  unfold depth_budget. induction members as [|b l IH]; intros Ha; [by apply elem_of_nil in Ha|].
  rewrite fmap_cons. simpl. apply elem_of_cons in Ha as [->|Ha]; [lia|]. specialize (IH Ha). lia.
Qed.

Lemma elem_of_others i p : p ∈ others i members → p.2 ∈ members.
Proof.
  intros [_ Hp]%list_elem_of_filter. apply elem_of_lookup_imap in Hp as (j & a & -> & Ha). simpl.
  by eapply list_elem_of_lookup_2.
Qed.

Lemma same_target_refl (a : LlmAgent (W:=W)) ctx hs : Forall2 (same_target a ctx) hs hs.
Proof. apply Forall_Forall2_diag, Forall_forall. intros h _. by repeat split. Qed.

(** Beyond the depth budget fuel is immaterial. *)
Lemma member_fuel fuel fuel' i a ctx input st :
  a ∈ members → (depth_budget ctx members < u32_max)%Z → (0 ≤ rc_agent_depth ctx)%Z →
  (0 < fuel)%nat → (0 < fuel')%nat →
  (depth_budget ctx members - rc_agent_depth ctx < Z.of_nat fuel)%Z →
  (depth_budget ctx members - rc_agent_depth ctx < Z.of_nat fuel')%Z →
  ag_run (member env schedule members fuel i a) ctx input st
  = ag_run (member env schedule members fuel' i a) ctx input st.
Proof.
  revert fuel' i a ctx input st. induction fuel as [|fuel IH]; intros fuel' i a ctx input st; [lia|].
  intros Ha Hb Hd _ Hp Hf Hf'. destruct fuel' as [|fuel']; [lia|]. clear Hp. cbn [member LlmAgent_agent ag_run].
  change (loop_fuel (with_handoffs a (la_handoffs a ++ ((λ p, member_slot p.2
    (member env schedule members fuel p.1 p.2)) <$> others i members))) ctx) with (loop_fuel a ctx).
  change (loop_fuel (with_handoffs a (la_handoffs a ++ ((λ p, member_slot p.2
    (member env schedule members fuel' p.1 p.2)) <$> others i members))) ctx) with (loop_fuel a ctx).
  erewrite run_stream_congr; [reflexivity|]. apply Forall2_app; [apply same_target_refl|].
  apply Forall2_fmap, Forall_Forall2_diag, Forall_forall. intros [j b] Hj%elem_of_others. simpl in Hj.
  split; [done|]. split; [done|]. simpl. intros Hguard input' st'.
  pose proof (depth_budget_le ctx a Ha) as Hle. unfold u32_saturating_add in Hguard.
  assert (rc_agent_depth (handoff_child ctx) = rc_agent_depth ctx + 1)%Z as Hchild
    by (simpl; unfold u32_saturating_add; lia).
  apply IH; rewrite ?Hchild; try done;
    change (depth_budget (handoff_child ctx) members) with (depth_budget ctx members); lia.
Qed.

(** Members keep the contract of agents. *)
Lemma member_contract fuel i a :
  Forall (λ a, config_ok (la_config a) ∧ Forall AgentContract (la_handoffs a)) members → a ∈ members →
  AgentContract (member env schedule members fuel i a).
Proof.
  intros Hok. revert i a. induction fuel as [|fuel IH]; intros i a Ha ctx input st Hctx; simpl; [done|].
  pose proof Hok as Hok'. rewrite Forall_forall in Hok'. destruct (Hok' a Ha) as [Hcfg Hh].
  apply (llm_agent_contract env schedule (with_handoffs a _)); [done| |done]. simpl.
  apply Forall_app. split; [done|]. apply Forall_fmap, Forall_forall. intros p Hp%elem_of_others.
  by apply IH.
Qed.
End Members.

(** *** The handoff budget *)

Section Budget.
Context `{J : SerdeJson}.

Definition is_handoff (ev : AgentEvent) : bool := match ev with HandoffItem _ _ => true | _ => false end.

Definition handoffs_in (evs : list AgentEvent) : nat := length (filter (λ ev, is_handoff ev = true) evs).

Lemma handoffs_in_cons ev l :
  handoffs_in (ev :: l) = ((if is_handoff ev then 1 else 0) + handoffs_in l)%nat.
Proof. unfold handoffs_in. rewrite filter_cons. by destruct (is_handoff ev). Qed.

(** The relay passes on a prefix: all of it, or up to the handoff that exceeds
    the budget. *)
Lemma relay_swarm_spec budget hops sub :
  let '(out, cut) := relay_swarm budget hops sub in
  ∃ k, out = filter (λ ev, not_started ev = true) (take k sub)
    ∧ match cut with
      | None => k = length sub
      | Some limit => budget = Some limit ∧ (k < length sub)%nat
      end.
Proof.
  revert hops. induction sub as [|ev sub IH]; intros hops; simpl; [by exists 0%nat|].
  assert (∀ h,
    let '(out, cut) := relay_swarm budget h sub in
    not_started ev = true →
    ∃ k, ev :: out = filter (λ ev, not_started ev = true) (take k (ev :: sub))
      ∧ match cut with
        | None => k = S (length sub)
        | Some limit => budget = Some limit ∧ (k < S (length sub))%nat
        end) as Hpass.
  { intros h. specialize (IH h). destruct (relay_swarm budget h sub) as [out cut]. intros Hev.
    destruct IH as (k & -> & Hk). exists (S k). simpl. rewrite filter_cons, decide_True by done.
    split; [done|]. destruct cut; [split; [apply Hk|lia]|by f_equal]. }
  destruct ev; try (specialize (Hpass hops); destruct (relay_swarm budget hops sub); by apply Hpass).
  - specialize (IH hops). destruct (relay_swarm budget hops sub) as [out cut].
    destruct IH as (k & -> & Hk). exists (S k). split; [done|].
    destruct cut; [split; [apply Hk|lia]|by f_equal].
  - specialize (Hpass (u32_add hops 1)). destruct budget as [limit|].
    + destruct (_ <? _)%Z; [exists 0%nat; split; [done|]; split; [done|lia]|].
      destruct (relay_swarm _ _ sub). by apply Hpass.
    + destruct (relay_swarm _ _ sub). by apply Hpass.
Qed.

Lemma relay_swarm_bounded limit hops sub :
  (0 ≤ hops ≤ limit)%Z → (limit < u32_max)%Z →
  (Z.of_nat (handoffs_in (relay_swarm (Some limit) hops sub).1) ≤ limit - hops)%Z.
Proof.
  revert hops. induction sub as [|ev sub IH]; intros hops Hh Hl; simpl; [unfold handoffs_in; simpl; lia|].
  destruct ev; try (specialize (IH hops Hh Hl); destruct (relay_swarm _ hops sub); exact IH).
  rewrite u32_add_small by lia. destruct (Z.ltb_spec limit (hops + 1)); [unfold handoffs_in; simpl; lia|].
  specialize (IH (hops + 1)%Z ltac:(lia) Hl). destruct (relay_swarm _ _ sub). simpl in *.
  rewrite handoffs_in_cons. simpl. lia.
Qed.
End Budget.

(** *** Building *)

Section BuildSpec.
Context `{J : SerdeJson} `{G : Globset} {W : Type}.

Lemma duplicate_member_spec seen names :
  NoDup seen →
  match duplicate_member seen names with
  | Some x => ¬ NoDup (seen ++ names) ∧ x ∈ names
  | None => NoDup (seen ++ names)
  end.
Proof.
  revert seen. induction names as [|x names IH]; intros seen Hs; simpl; [by rewrite app_nil_r|].
  case_bool_decide as E.
  - split; [|left]. intros (_ & Hd & _)%NoDup_app. apply (Hd x E). left.
  - specialize (IH (x :: seen) ltac:(by constructor)).
    assert ((x :: seen) ++ names ≡ₚ seen ++ x :: names) as Hp by (simpl; by rewrite Permutation_middle).
    destruct (duplicate_member _ names); rewrite Hp in IH; [|done].
    destruct IH. split; [done|by right].
Qed.

Lemma position_spec x names :
  match position x names with Some k => names !! k = Some x | None => x ∉ names end.
Proof.
  induction names as [|y names IH]; simpl; [apply not_elem_of_nil|].
  destruct (String.eqb_spec y x) as [->|Hn]; [done|].
  destruct (position x names); simpl; [done|]. by apply not_elem_of_cons.
Qed.

(** What building a swarm guarantees. *)
Lemma swarm_build_ok (b : SwarmAgentBuilder (W:=W)) s :
  swarm_build b = Ok s →
  sw_members s = sb_members b ∧ sw_max_handoffs s = sb_max_handoffs b
  ∧ NoDup (la_name <$> sw_members s) ∧ is_Some (sw_members s !! sw_entry s).
Proof.
  unfold swarm_build. destruct (sb_name b) as [name|]; [|done]. case_bool_decide as Hlen; [done|].
  pose proof (duplicate_member_spec [] (la_name <$> sb_members b) ltac:(constructor)) as Hd.
  destruct (duplicate_member _ _); [done|]. destruct (sb_entry b) as [e|].
  - pose proof (position_spec e (la_name <$> sb_members b)) as Hp.
    destruct (position _ _) as [k|]; [|done]. intros [= <-]. simpl. split_and!; [done..|].
    rewrite list_lookup_fmap in Hp. destruct (sb_members b !! k); [by eexists|done].
  - intros [= <-]. simpl. split_and!; [done..|]. destruct (sb_members b); [done|by eexists].
Qed.
End BuildSpec.

(** *** The run *)

Section Run.
Context `{J : SerdeJson} `{G : Globset} `{D : !LoopDebug} `{R : !RustDebug} {W : Type} `{Sc : !Scratch W}.
Variables (env : list (string * string)) (schedule : W → list nat) (s : SwarmAgent (W:=W)) (dropped : W → W).

Definition member_ok (a : LlmAgent (W:=W)) : Prop :=
  config_ok (la_config a) ∧ Forall AgentContract (la_handoffs a).

Lemma swarm_body_ends fuel ctx input st :
  Forall member_ok (sw_members s) → is_Some (sw_members s !! sw_entry s) → context_ok ctx →
  run_ends (swarm_body env schedule s dropped fuel ctx input st).1 st.1
    (swarm_body env schedule s dropped fuel ctx input st).2.
Proof.
  intros Hm [a Ha] Hctx. unfold swarm_body. rewrite Ha.
  pose proof (member_contract env schedule (sw_members s) fuel (sw_entry s) a Hm
    ltac:(by eapply list_elem_of_lookup_2) (subagent_child ctx) input (None, put_escalated false st.2) Hctx) as Hc.
  destruct (ag_run _ _ _ _) as [[sub|e] child];
    [|apply (run_ends_fail [AgentUpdated _]); by repeat constructor].
  destruct Hc as (name & rest & -> & l & ev & -> & Hl & Hev).
  pose proof (relay_swarm_spec (sw_max_handoffs s) 0 (RunStarted name :: l ++ [ev])) as Hr.
  destruct (relay_swarm _ _ _) as [out [limit|]]; destruct Hr as (k & -> & Hk).
  - apply (run_ends_fail (AgentUpdated _ :: _)). constructor; [done|]. apply filter_no_terminal.
    destruct Hk as [_ Hk]. rewrite app_comm_cons, length_app in Hk. simpl in Hk.
    rewrite app_comm_cons, take_app_le by (simpl; lia). apply Forall_take. by constructor.
  - rewrite Hk, take_ge by done. rewrite filter_cons, decide_False, filter_app by done.
    assert (not_started ev = true) as Hns by by destruct ev.
    rewrite (filter_cons_True _ ev) by done. rewrite filter_nil, existsb_app. simpl.
    assert (existsb is_run_failed_event (filter (λ ev, not_started ev = true) l) = false) as Hq.
    { apply existsb_Forall, Forall_forall. intros x [_ Hx]%list_elem_of_filter.
      eapply Forall_forall in Hl; [|exact Hx]. by destruct x. }
    exists (AgentUpdated (la_name a) :: filter (λ ev, not_started ev = true) l), ev. split; [done|].
    split; [constructor; [done|by apply filter_no_terminal]|].
    rewrite Hq. destruct ev; try done. simpl in *. destruct Hev as [e ->]. by eexists.
Qed.

Lemma swarm_body_handoffs fuel ctx input st limit :
  sw_max_handoffs s = Some limit → (0 ≤ limit < u32_max)%Z →
  (Z.of_nat (handoffs_in (swarm_body env schedule s dropped fuel ctx input st).1) ≤ limit)%Z.
Proof.
  intros Hlim Hl. unfold swarm_body.
  destruct (sw_members s !! sw_entry s) as [a|]; [|unfold handoffs_in; simpl; lia].
  destruct (ag_run _ _ _ _) as [[sub|e] child];
    [|cbn [fst]; rewrite !handoffs_in_cons; unfold handoffs_in; simpl; lia].
  pose proof (relay_swarm_bounded limit 0 sub ltac:(lia) ltac:(lia)) as Hb. rewrite Hlim.
  destruct (relay_swarm (Some limit) 0 sub) as [out [cut|]]; simpl in *; rewrite handoffs_in_cons; simpl; [|lia].
  unfold handoffs_in in *. rewrite filter_app, length_app. simpl. lia.
Qed.
End Run.

(** A swarm terminates: the nesting guard of its members bounds the chain of
    handoffs, so that the fuel of the model is immaterial from the depth budget
    on. *)
Theorem swarm_fuel_enough `{J : SerdeJson} `{G : Globset} `{D : !LoopDebug} `{R : !RustDebug} {W : Type}
    `{Sc : !Scratch W} env schedule (s : SwarmAgent (W:=W)) dropped fuel ctx input st :
  (depth_budget ctx (sw_members s) < u32_max)%Z → (0 ≤ rc_agent_depth ctx)%Z →
  (swarm_fuel ctx (sw_members s) ≤ fuel)%nat →
  swarm_body env schedule s dropped fuel ctx input st
  = swarm_body env schedule s dropped (swarm_fuel ctx (sw_members s)) ctx input st.
Proof.
  intros Hb Hd Hf. unfold swarm_body. destruct (sw_members s !! sw_entry s) as [a|] eqn:Ha; [|done].
  assert (a ∈ sw_members s) as Hin by (by eapply list_elem_of_lookup_2).
  unfold swarm_fuel in *.
  assert (0 ≤ rc_agent_depth (subagent_child ctx))%Z as Hd'
    by (simpl; unfold u32_saturating_add, u32_max; lia).
  rewrite (member_fuel env schedule (sw_members s) fuel (S (Z.to_nat (depth_budget ctx (sw_members s))))
    (sw_entry s) a (subagent_child ctx)); [done|..]; try done; try lia.
  all: change (depth_budget (subagent_child ctx) (sw_members s)) with (depth_budget ctx (sw_members s)); lia.
Qed.

(** A swarm that was built keeps the contract of agents, and a handoff budget
    is kept: whatever its members do, the stream opens with [RunStarted], ends
    with one terminal event that agrees with the failure slot, and holds no more
    handoffs than the budget allows. *)
Theorem swarm_contract `{J : SerdeJson} `{G : Globset} `{D : !LoopDebug} `{R : !RustDebug} {W : Type}
    `{Sc : !Scratch W} env schedule b (s : SwarmAgent (W:=W)) dropped :
  swarm_build b = Ok s → Forall member_ok (sb_members b) →
  AgentContract (SwarmAgent_agent env schedule s dropped)
  ∧ ∀ limit ctx input st evs st',
      sb_max_handoffs b = Some limit → (0 ≤ limit < u32_max)%Z →
      ag_run (SwarmAgent_agent env schedule s dropped) ctx input st = (Ok evs, st') →
      (Z.of_nat (handoffs_in evs) ≤ limit)%Z.
Proof.
  intros Hb Hm. destruct (swarm_build_ok b s Hb) as (Hms & Hmax & _ & Hentry). rewrite <- Hms in Hm. split.
  - intros ctx input st Hctx. simpl. apply guarded_contract. by apply swarm_body_ends.
  - intros limit ctx input st evs st' Hlim Hl. simpl. unfold guarded.
    destruct (too_deep ctx);
      [intros [= <- _]; rewrite !handoffs_in_cons; unfold handoffs_in; simpl; lia|].
    pose proof (swarm_body_handoffs env schedule s dropped (swarm_fuel ctx (sw_members s)) ctx input st limit
      ltac:(by rewrite Hmax) Hl) as Hh.
    destruct (swarm_body _ _ _ _ _ _ _ _) as [out st1]. intros [= <- _].
    rewrite handoffs_in_cons. exact Hh.
Qed.

(** ** Two members that hand off to each other for ever *)

Module SwarmDemo.
#[local] Existing Instance Toy.json.
#[local] Existing Instance Permission.Demo.globset.
#[local] Existing Instance ToolsDemo.debug.
#[local] Existing Instance DriverDemo.loop_debug.
Import WorkflowDemo.

Definition transfers_to (target : string) : ModelInvoke (W:=World) := λ _ w,
  (Ok [Ok (METoolCallDelta "c1" (Some ("transfer_to_" +:+ target)) "{}"); Ok (MEUsage 1 1 None None)], w).

Definition player (name target : string) : LlmAgent (W:=World) :=
  mkLlmAgent name "" (λ _ _, "") (transfers_to target) [] [] None [] [] [] LoopState.Demo.settings
    (mkRunConfig 4 None None 5).

Definition builder (max_handoffs : option Z) : SwarmAgentBuilder (W:=World) :=
  mkSwarmAgentBuilder (Some "match") "" [player "ping" "pong"; player "pong" "ping"] (Some "pong") max_handoffs.

Definition swarm (max_handoffs : option Z) : SwarmAgent (W:=World) :=
  mkSwarmAgent "match" "" (sb_members (builder max_handoffs)) 1 max_handoffs.

Definition input : list Item := [UserMessage [Text "serve"]].

Definition the_end (p : list AgentEvent * RunState (W:=World)) : option AgentEvent * option AgentError :=
  (last p.1, p.2.1).
End SwarmDemo.

Section Witnesses.
#[local] Existing Instance Toy.json.
#[local] Existing Instance Permission.Demo.globset.
#[local] Existing Instance ToolsDemo.debug.
#[local] Existing Instance DriverDemo.loop_debug.
Import WorkflowDemo SwarmDemo.

Lemma swarm_fuel_enough_witness :
  let body fuel := swarm_body [] (λ _, []) (swarm None) id fuel ctx SwarmDemo.input start in
  the_end (body 6) = (Some (RunFailed "agent nesting depth (6) exceeded max (5)"), Some (MaxAgentDepthExceeded 6 5))
  ∧ body 20 = body 6.
Proof.
  intros body. split; [vm_compute; reflexivity|].
  apply (swarm_fuel_enough [] (λ _, []) (swarm None) id 20 ctx SwarmDemo.input start).
  - vm_compute. reflexivity.
  - vm_compute. discriminate.
  - apply Nat.leb_le. vm_compute. reflexivity.
Defined.

Lemma swarm_contract_witness :
  let p := ag_run (SwarmAgent_agent [] (λ _, []) (swarm (Some 3%Z)) id) ctx SwarmDemo.input start in
  last (match p.1 with Ok evs => evs | Err _ => [] end) = Some (RunFailed "max handoffs (3) exceeded")
  ∧ match p with
    | (Ok evs, st') => (∃ name rest, evs = RunStarted name :: rest ∧ run_ends rest None st')
        ∧ (Z.of_nat (handoffs_in evs) ≤ 3)%Z
    | (Err _, _) => True
    end.
Proof.
  intros p. split; [vm_compute; reflexivity|].
  assert (Forall member_ok (sb_members (builder (Some 3%Z)))) as Hm.
  { repeat apply Forall_cons_2; [| |apply Forall_nil_2]; (split; [vm_compute; split; discriminate|constructor]). }
  destruct (swarm_contract [] (λ _, []) (builder (Some 3%Z)) (swarm (Some 3%Z)) id) as [Hc Hh];
    [vm_compute; reflexivity|exact Hm|].
  pose proof (Hc ctx SwarmDemo.input start I) as Hrun. fold p in Hrun.
  destruct p as [[evs|e] st'] eqn:Ep; [|exact I]. split; [exact Hrun|].
  apply (Hh 3%Z ctx SwarmDemo.input start evs st'); [reflexivity|vm_compute; split; [discriminate|reflexivity]|].
  exact Ep.
Defined.
End Witnesses.
