(* ===== verification/Composition.v ===== *)
(** Agents over agents: everything that is an agent and is built from agents.

    LLM agents hand off, sequences and loops run their steps, swarms wire their
    members; the class [AgentContract] is what all of them promise, and building
    preserves it.  The concurrent composites, [ParallelAgent] and [GraphAgent],
    have their own theorems in Workflow and Graph. *)

From S2P Require Import Prelude Json Items PathMatch CommandMatch LoopState Permission.
From S2P Require Import Redaction Tools ModelTurn Driver Workflow Swarm.

(** Agents made of LLM agents, their handoffs, sequences, loops and swarms. *)
Inductive composed `{J : SerdeJson} `{G : Globset} `{D : !LoopDebug} `{R : !RustDebug} {W : Type}
    `{Sc : !Scratch W} (env : list (string * string)) (schedule : W → list nat)
  : Agent (W:=W) → Prop :=
| composed_llm agent :
    config_ok (la_config agent) → Forall (composed env schedule) (la_handoffs agent) →
    composed env schedule (LlmAgent_agent env schedule agent)
| composed_sequential s :
    Forall (λ ka, composed env schedule ka.2) (sq_agents s) →
    composed env schedule (SequentialAgent_agent s)
| composed_loop a :
    Forall (λ ka, composed env schedule ka.2) (lo_agents a) →
    composed env schedule (LoopAgent_agent a)
| composed_swarm b s dropped :
    swarm_build b = Ok s →
    Forall (λ a, config_ok (la_config a)) (sb_members b) →
    Forall (λ a, Forall (composed env schedule) (la_handoffs a)) (sb_members b) →
    composed env schedule (SwarmAgent_agent env schedule s dropped).

(** C1. Composition preserves the contract of agents: whatever is built from LLM
    agents by handing off, sequencing, looping and swarming, at any nesting,
    streams [RunStarted] first and exactly one terminal event last, and fills the
    failure slot exactly when it failed. *)
Theorem composed_contract `{J : SerdeJson} `{G : Globset} `{D : !LoopDebug} `{R : !RustDebug}
    {W : Type} `{Sc : !Scratch W} env schedule (a : Agent (W:=W)) :
  composed env schedule a → AgentContract a.
Proof.
  revert a. fix IH 2. intros a [agent Hcfg Hts|s Hts|l Hts|b s dropped Hb Hcfg Hts] ctx input st Hok.
  - assert (Forall AgentContract (la_handoffs agent)) as Hc.
    { induction Hts as [|h hs Hh Hhs IHhs]; constructor; [by apply IH|exact IHhs]. }
    destruct (run_stream_ok env agent ctx schedule input st Hok Hcfg Hc) as (evs & st' & He & Hr).
    simpl. rewrite He. by exists (la_name agent), evs.
  - apply guarded_contract, run_steps_ok; [done|].
    induction Hts as [|h hs Hh Hhs IHhs]; constructor; [by apply IH|exact IHhs].
  - apply guarded_contract, run_iterations_ok; [done|].
    induction Hts as [|h hs Hh Hhs IHhs]; constructor; [by apply IH|exact IHhs].
  - assert (Forall (λ m, Forall AgentContract (la_handoffs m)) (sb_members b)) as Hc.
    { clear Hb Hcfg. induction Hts as [|m ms Hm Hms IHms]; constructor; [|exact IHms].
      induction Hm as [|h hs Hh Hhs IHhs]; constructor; [by apply IH|exact IHhs]. }
    destruct (swarm_build_ok b s Hb) as (Hms & _ & _ & Hentry).
    apply guarded_contract, swarm_body_ends; [|done|done].
    rewrite Hms. apply Forall_and. by split.
Qed.

(** *** A sequence of an agent, a loop and a swarm *)

Module CompositionDemo.
#[local] Existing Instance Toy.json.
#[local] Existing Instance Permission.Demo.globset.
#[local] Existing Instance ToolsDemo.debug.
#[local] Existing Instance DriverDemo.loop_debug.
Import WorkflowDemo SwarmDemo.

Definition again : Agent (W:=World) :=
  LoopAgent_agent (mkLoopAgent "again" "" [("x", LlmAgent_agent [] (λ _, []) (llm "two"))] 1).

Definition nested : Agent (W:=World) :=
  SequentialAgent_agent (mkSequentialAgent "nested" ""
    [("first", LlmAgent_agent [] (λ _, []) (llm "one"));
     ("rally", SwarmAgent_agent [] (λ _, []) (swarm (Some 2%Z)) id);
     ("again", again)]).

End CompositionDemo.

Section Witnesses.
#[local] Existing Instance Toy.json.
#[local] Existing Instance Permission.Demo.globset.
#[local] Existing Instance ToolsDemo.debug.
#[local] Existing Instance DriverDemo.loop_debug.
Import WorkflowDemo SwarmDemo CompositionDemo.

Lemma composed_contract_witness :
  let p := ag_run nested ctx [UserMessage [Text "go"]] start in
  last (match p.1 with Ok evs => evs | Err _ => [] end)
  = Some (RunFailed "max handoffs (2) exceeded")
  ∧ match p with
    | (Ok evs, st') => ∃ name rest, evs = RunStarted name :: rest ∧ run_ends rest None st'
    | (Err _, _) => True
    end.
Proof.
  split; [vm_compute; reflexivity|].
  apply (composed_contract [] (λ _, []) nested); [|exact I].
  assert (∀ name, composed [] (λ _, []) (LlmAgent_agent [] (λ _, []) (llm name))) as Hllm.
  { intros name. apply composed_llm; [vm_compute; split; discriminate|constructor]. }
  apply composed_sequential. repeat apply Forall_cons_2; [apply Hllm| | |constructor].
  - apply (composed_swarm [] (λ _, []) (builder (Some 2%Z))); [vm_compute; reflexivity|..];
      repeat apply Forall_cons_2; try constructor; vm_compute; discriminate.
  - apply composed_loop. apply Forall_cons_2; [apply Hllm|constructor].
Defined.

End Witnesses.
