(* ===== verification/Durable.v ===== *)
(** The durable runner: runtime-temporal/src (driver.rs, payloads.rs, error.rs,
    activities.rs, workflow.rs, worker.rs, runner.rs).

    [DurableDriver] is a step machine around the same [transition] as the loop of
    [LlmAgent::run]: it says which activity comes next and is told what the
    activity answered.  The workflow executes its effects; the worker answers
    them.  The Temporal service is a parameter: an activity is a function of the
    world that answers or fails with a message, and the activities of a chunk
    run in any order.  Timers and cancellation are the place of an interrupt. *)

From S2P Require Import Prelude Json Items PathMatch CommandMatch LoopState Permission.
From S2P Require Import Redaction Tools ModelTurn Driver Workflow Session Runner AgentTool.

Section Payloads.
Context `{J : SerdeJson} `{R : !RustDebug}.

(** ** Errors on the wire *)

Inductive ErrorKindPayload : Type :=
| EKMaxTurnsExceeded (n : Z)
| EKInvalidStructuredOutput (schema_errors : list string) (final_text : string)
| EKModel (message : string)
| EKHandoffUnsupported (target : string)
| EKOther (message : string).

Definition from_agent_error (e : AgentError) : ErrorKindPayload :=
  match e with
  | MaxTurnsExceeded n => EKMaxTurnsExceeded n
  | InvalidStructuredOutput schema_errors final_text => EKInvalidStructuredOutput schema_errors final_text
  | AEModel e => EKModel (ModelError_display e)
  | _ => EKOther (AgentError_display e)
  end.

Definition into_agent_error (k : ErrorKindPayload) : AgentError :=
  match k with
  | EKMaxTurnsExceeded n => MaxTurnsExceeded n
  | EKInvalidStructuredOutput schema_errors final_text => InvalidStructuredOutput schema_errors final_text
  | EKModel message => AEOther message
  | EKHandoffUnsupported target => AEOther ("handoff unsupported: " +:+ target)
  | EKOther message => AEOther message
  end.

(** The JSON of an [ErrorKindPayload]: serde's derived implementations. *)
Class ErrorCodec := {
  ek_to_string : ErrorKindPayload → string;
  ek_from_str : string → option ErrorKindPayload;
}.

Class ErrorCodecLaws `{!ErrorCodec} : Prop := {
  ek_round_trip : ∀ k, ek_from_str (ek_to_string k) = Some k;
}.

(** ** The payloads *)

Record DriverConfig := mkDriverConfig {
  dc_max_turns : Z;
  dc_parallel_tool_call_limit : option nat;
}.

Record WorkflowInput := mkWorkflowInput {
  wi_agent_name : string;
  wi_conversation : list Item;
  wi_config : DriverConfig;
  wi_timeout_ms : option Z;
  wi_ctx_seed : option Value;
}.

Inductive RunStatusPayload : Type :=
| StatusCompleted (out : FinalOutput)
| StatusAgentFailed (kind : ErrorKindPayload)
| StatusCancelled
| StatusTimedOut.

Record DurableRunOutcome := mkDurableRunOutcome {
  do_status : RunStatusPayload;
  do_events : list AgentEvent;
  do_usage : TokenUsage;
}.

(** ** The step machine *)

Inductive DriverEffect : Type :=
| EffRenderInstructions
| EffCallModel (request : ModelRequest)
| EffExecuteTools (calls : list ToolCallRequest)
| EffFinished (outcome : DurableRunOutcome).

(** driver.rs's [AgentPlan] *)
Record DurablePlan := mkDurablePlan {
  dp_tool_defs : list ToolDef;
  dp_model_settings : ModelSettings;
  dp_output : option OutputType;
}.

Inductive Phase : Type :=
| AwaitingInstructions
| Driving
| PhaseDone (outcome : DurableRunOutcome).

Record DurableDriver := mkDurableDriver {
  dd_agent_name : string;
  dd_plan : DurablePlan;
  dd_config : DriverConfig;
  dd_seed_messages : list Item;
  dd_conversation : list Item;
  dd_loop_state : LoopState;
  dd_pending_input : option TransitionInput;
  dd_events : list AgentEvent;
  dd_usage : TokenUsage;
  dd_phase : Phase;
}.

Definition DurableDriver_new (input : WorkflowInput) (plan : DurablePlan) : DurableDriver :=
  mkDurableDriver (wi_agent_name input) plan (wi_config input) (wi_conversation input) []
    (CallingModel 0 TokenUsage_default) None [] TokenUsage_default AwaitingInstructions.

Definition state_usage (state : LoopState) : option TokenUsage :=
  match state with
  | CallingModel _ usage | ExecutingTools _ _ usage | ApplyingHandoff _ _ usage
  | Finalizing _ usage | RepairingOutput _ usage => Some usage
  | Done out => Some (fo_usage out)
  | _ => None
  end.

Definition set_phase (d : DurableDriver) (phase : Phase) : DurableDriver :=
  mkDurableDriver (dd_agent_name d) (dd_plan d) (dd_config d) (dd_seed_messages d) (dd_conversation d)
    (dd_loop_state d) (dd_pending_input d) (dd_events d) (dd_usage d) phase.

Definition durable_finish (d : DurableDriver) (status : RunStatusPayload)
  : DriverEffect * DurableDriver :=
  let outcome := mkDurableRunOutcome status (dd_events d) (dd_usage d) in
  (EffFinished outcome, set_phase d (PhaseDone outcome)).

(** The machine after a transition, in state [state]. *)
Definition advance (d : DurableDriver) (o : TransitionOutcome) (state : LoopState) : DurableDriver :=
  mkDurableDriver (dd_agent_name d) (dd_plan d) (dd_config d) (dd_seed_messages d)
    (dd_conversation d ++ conversation_appends o) state None (dd_events d ++ events o)
    (default (dd_usage d) (state_usage (next_state o))) (dd_phase d).

Definition transition_ctx (d : DurableDriver) : TransitionCtx :=
  mkTransitionCtx (dp_tool_defs (dd_plan d)) (dp_model_settings (dd_plan d))
    (dc_max_turns (dd_config d)) (dd_conversation d) (dp_output (dd_plan d)) [].

(** [DurableDriver::next_effect]; [None] where it panics. *)
Definition next_effect `{D : !LoopDebug} (d : DurableDriver) : option (DriverEffect * DurableDriver) :=
  match dd_phase d with
  | AwaitingInstructions => Some (EffRenderInstructions, d)
  | PhaseDone outcome => Some (EffFinished outcome, d)
  | Driving =>
      tx_input ← dd_pending_input d;
      let o := transition (dd_loop_state d) tx_input (transition_ctx d) in
      Some match next_action o with
           | CallModel request => (EffCallModel request, advance d o (next_state o))
           | ExecuteTools calls => (EffExecuteTools calls, advance d o (next_state o))
           | Terminate =>
               durable_finish (advance d o (dd_loop_state d))
                 match next_state o with
                 | Done out => StatusCompleted out
                 | Failed err => StatusAgentFailed (from_agent_error err)
                 | other =>
                     StatusAgentFailed (EKOther ("unexpected terminal state: " +:+ debug_state other))
                 end
           | Handoff =>
               let target :=
                 match next_state o with ApplyingHandoff target _ _ => target | _ => "<unknown>" end in
               durable_finish (advance d o (dd_loop_state d))
                 (StatusAgentFailed (EKHandoffUnsupported target))
           end
  end.

Definition apply_instructions (d : DurableDriver) (system_text : string) : DurableDriver :=
  mkDurableDriver (dd_agent_name d) (dd_plan d) (dd_config d) []
    ((if is_empty system_text then [] else [System [Text system_text]]) ++ dd_seed_messages d)
    (CallingModel 0 TokenUsage_default) (Some (Start (dd_seed_messages d)))
    (dd_events d ++ [RunStarted (dd_agent_name d)]) (dd_usage d) Driving.

Definition with_input (d : DurableDriver) (items : list Item) (input : TransitionInput) : DurableDriver :=
  mkDurableDriver (dd_agent_name d) (dd_plan d) (dd_config d) (dd_seed_messages d)
    (dd_conversation d ++ items) (dd_loop_state d) (Some input) (dd_events d) (dd_usage d) (dd_phase d).

Definition apply_model (d : DurableDriver) (turn : ModelTurn) : DurableDriver :=
  with_input d (mt_items turn) (ModelResponse (mt_items turn) (mt_usage turn) (mt_finish_reason turn)).

Definition push_event (d : DurableDriver) (ev : AgentEvent) : DurableDriver :=
  mkDurableDriver (dd_agent_name d) (dd_plan d) (dd_config d) (dd_seed_messages d) (dd_conversation d)
    (dd_loop_state d) (dd_pending_input d) (dd_events d ++ [ev]) (dd_usage d) (dd_phase d).

Definition apply_model_failure (d : DurableDriver) (kind : ErrorKindPayload) : DurableDriver :=
  let message := AgentError_display (into_agent_error kind) in
  (durable_finish (push_event d (RunFailed message)) (StatusAgentFailed kind)).2.

Definition apply_tools (d : DurableDriver) (outcomes : list ToolCallOutcome) : DurableDriver :=
  with_input d
    ((λ o, ToolResult (tco_call_id o) (unwrap_or_else (tco_result o) (λ e, [Text e]))) <$> outcomes)
    (ToolResults outcomes).

Definition interrupt (d : DurableDriver) (kind : RunInterrupt) : DurableRunOutcome :=
  match dd_phase d with
  | PhaseDone outcome => outcome
  | _ =>
      mkDurableRunOutcome match kind with Cancelled => StatusCancelled | TimedOut => StatusTimedOut end
        (dd_events d) (dd_usage d)
  end.
End Payloads.

(** ** The workflow *)

Section Effects.
Context `{J : SerdeJson} `{D : !LoopDebug} `{R : !RustDebug} `{EC : !ErrorCodec} {W : Type}.

(** The activities of a worker, as the workflow sees them: the answer, or the
    message of the failure. *)
Record Activities := mkActivities {
  act_render_instructions : W → result string string * W;
  act_call_model : ModelRequest → W → result ModelTurn string * W;
  act_invoke_tool : ToolCallRequest → W → result ToolCallOutcome string * W;
}.

Definition extract_error_kind (message : string) : ErrorKindPayload :=
  default (EKModel message) (ek_from_str message).

(** [join_all]: the activities that were started run in some order, the answers
    come back in the order they were started in. *)
Definition join_step {A} (started : list (W → A * W)) (x : list (option A) * W) (i : nat)
  : list (option A) * W :=
  match started !! i, x.1 !! i with
  | Some f, Some None => let '(a, w) := f x.2 in (<[i:=Some a]> x.1, w)
  | _, _ => x
  end.

Definition join_all {A} (started : list (W → A * W)) (order : list nat) (w : W) : list A * W :=
  let n := length started in
  let '(answers, w) := fold_left (join_step started) (order ++ seq 0 n) (replicate n None, w) in
  (omap id answers, w).

(** [slice::chunks] for a positive size. *)
Fixpoint chunks {A} (fuel size : nat) (l : list A) : list (list A) :=
  match fuel, l with
  | O, _ | _, [] => []
  | S fuel', _ => take size l :: chunks fuel' size (drop size l)
  end.

Definition chunk_size (parallel_limit : option nat) (calls : nat) : nat :=
  match parallel_limit with
  | Some (S n) => S n
  | _ => Nat.max calls 1
  end.

Section Run.
Variables (acts : Activities) (order : W → list nat).

Definition start_tool (call : ToolCallRequest) (w : W) : ToolCallOutcome * W :=
  match act_invoke_tool acts call w with
  | (Ok outcome, w) => (outcome, w)
  | (Err message, w) =>
      (mkToolCallOutcome (tcr_call_id call) (Err ("tool activity failed: " +:+ message)), w)
  end.

Definition execute_tool_activities (parallel_limit : option nat) (calls : list ToolCallRequest) (w : W)
  : list ToolCallOutcome * W :=
  fold_left (λ x chunk,
      let '(outcomes, w) := x in
      let '(chunk_outcomes, w) := join_all (start_tool <$> chunk) (order w) w in
      (outcomes ++ chunk_outcomes, w))
    (chunks (length calls) (chunk_size parallel_limit (length calls)) calls) ([], w).

(** Execute one effect and feed the answer back. *)
Definition perform (limit : option nat) (effect : DriverEffect) (d : DurableDriver) (w : W)
  : DurableDriver * W :=
  match effect with
  | EffRenderInstructions =>
      match act_render_instructions acts w with
      | (Ok system_text, w) => (apply_instructions d system_text, w)
      | (Err message, w) => (apply_model_failure d (extract_error_kind message), w)
      end
  | EffCallModel request =>
      match act_call_model acts request w with
      | (Ok turn, w) => (apply_model d turn, w)
      | (Err message, w) => (apply_model_failure d (extract_error_kind message), w)
      end
  | EffExecuteTools calls =>
      let '(outcomes, w) := execute_tool_activities limit calls w in (apply_tools d outcomes, w)
  | EffFinished _ => (d, w)
  end.

(** [run_effects]; [None] when the fuel runs out or the machine panics. *)
Fixpoint run_effects (limit : option nat) (fuel : nat) (d : DurableDriver) (w : W)
  : option (DurableRunOutcome * W) :=
  match fuel with
  | O => None
  | S fuel' =>
      '(effect, d) ← next_effect d;
      match effect with
      | EffFinished outcome => Some (outcome, w)
      | _ => let '(d, w) := perform limit effect d w in run_effects limit fuel' d w
      end
  end.

(** The same, interrupted while the activity after [n] others is awaited. *)
Fixpoint run_interrupted (limit : option nat) (kind : RunInterrupt) (n : nat) (d : DurableDriver) (w : W)
  : option (DurableRunOutcome * W) :=
  '(effect, d) ← next_effect d;
  match effect with
  | EffFinished outcome => Some (outcome, w)
  | _ =>
      match n with
      | O => Some (interrupt d kind, w)
      | S n' => let '(d, w) := perform limit effect d w in run_interrupted limit kind n' d w
      end
  end.
End Run.

Definition unknown_agent_outcome (agent_name : string) : DurableRunOutcome :=
  mkDurableRunOutcome
    (StatusAgentFailed (EKOther ("no agent named '" +:+ agent_name +:+ "' is registered on this worker")))
    [] TokenUsage_default.

(** Effects of a run: one per transition, the instructions and the end. *)
Definition durable_fuel (config : DriverConfig) : nat := Z.to_nat (2 * dc_max_turns config + 5).

(** workflow.rs's [drive]; [cut] is the place of an interrupt that wins the race. *)
Definition drive_workflow (plans : gmap string DurablePlan) (acts : Activities) (order : W → list nat)
    (cut : option (nat * RunInterrupt)) (input : WorkflowInput) (w : W)
  : option (DurableRunOutcome * W) :=
  match plans !! wi_agent_name input with
  | None => Some (unknown_agent_outcome (wi_agent_name input), w)
  | Some plan =>
      let limit := dc_parallel_tool_call_limit (wi_config input) in
      let driver := DurableDriver_new input plan in
      match cut with
      | None => run_effects acts order limit (durable_fuel (wi_config input)) driver w
      | Some (n, kind) => run_interrupted acts order limit kind n driver w
      end
  end.
End Effects.

Arguments Activities {J} W.

(** ** The worker *)

Section Worker.
Context `{J : SerdeJson} `{G : Globset} `{R : !RustDebug} `{EC : !ErrorCodec} {W : Type}.
Variable env : list (string * string).

Record WorkerPosture := mkWorkerPosture {
  wp_permissions : Permissions W;
  wp_redact_output : bool;
  wp_extra_secrets : list string;
}.

Definition WorkerPosture_default : WorkerPosture := mkWorkerPosture Permissions_default true [].

(** [WorkerPosture::apply] *)
Definition posture_apply (p : WorkerPosture) (ctx : RunContext (W:=W)) : RunContext (W:=W) :=
  let q := wp_permissions p in
  let ctx := with_extra_secrets (wp_extra_secrets p) (with_guard_rules (p_guard_rules q)
    (with_allow_rules (p_allow_rules q) (with_deny_rules (p_deny_rules q)
      (with_permission_mode (p_mode q) ctx)))) in
  let ctx := match p_policy q with Some check => with_permission_policy check ctx | None => ctx end in
  let ctx := match p_approval_handler q with Some h => with_approval_handler h ctx | None => ctx end in
  let ctx := if p_default_guards q then ctx else without_default_guards ctx in
  if wp_redact_output p then ctx else without_output_redaction ctx.

Record DurableAgentDef := mkDurableAgentDef {
  df_name : string;
  df_instructions : RunContext (W:=W) → W → string;
  df_model : ModelInvoke (W:=W);
  df_tools : list (Tool (W:=W));
  df_plan : DurablePlan;
}.

Inductive RegistrationError : Type :=
| UnsupportedFeature (feature : string)
| DuplicateAgentName (name : string).

(** [TemporalAgentWorkerBuilder::register] *)
Definition register (registry : gmap string DurableAgentDef) (agent : LlmAgent (W:=W))
  : result (gmap string DurableAgentDef) RegistrationError :=
  if bool_decide (length (la_hooks agent) ≠ 0%nat) then Err (UnsupportedFeature "hooks")
  else if bool_decide (length (la_handoffs agent) ≠ 0%nat) then Err (UnsupportedFeature "handoffs")
  else if bool_decide (length (la_input_guardrails agent) ≠ 0%nat) then
    Err (UnsupportedFeature "input_guardrails")
  else if bool_decide (length (la_output_guardrails agent) ≠ 0%nat) then
    Err (UnsupportedFeature "output_guardrails")
  else if bool_decide (is_Some (registry !! la_name agent)) then Err (DuplicateAgentName (la_name agent))
  else
    let plan := mkDurablePlan (tool_defs agent) (la_model_settings agent) (la_output_type agent) in
    Ok (<[la_name agent := mkDurableAgentDef (la_name agent) (la_instructions agent) (la_model agent)
            (la_tools agent) plan]> registry).

(** What [build] hands to the workflow. *)
Definition registry_plans (registry : gmap string DurableAgentDef) : gmap string DurablePlan :=
  df_plan <$> registry.

(** Drain a model's stream into the accumulator. *)
Fixpoint observe_stream (stream : list (result ModelEvent ModelError)) (acc : ModelTurnAccumulator)
  : result ModelTurnAccumulator ModelError :=
  match stream with
  | [] => Ok acc
  | Ok ev :: stream' => observe_stream stream' (observe acc ev)
  | Err e :: _ => Err e
  end.

Definition call_model_inner (model : ModelInvoke (W:=W)) (agent_name : string) (request : ModelRequest)
    (w : W) : result ModelTurn ErrorKindPayload * W :=
  let '(res, w) := model request w in
  match res with
  | Err e => (Err (EKModel (ModelError_display e)), w)
  | Ok stream =>
      match observe_stream stream (ModelTurnAccumulator_new agent_name) with
      | Err e => (Err (EKModel (ModelError_display e)), w)
      | Ok acc => (match finish acc with Ok turn => Ok turn | Err message => Err (EKOther message) end, w)
      end
  end.

(** The interceptors [execute_tool_call] reads off a run context. *)
Definition context_interceptors (ctx : RunContext (W:=W)) : Interceptors (W:=W) :=
  mkInterceptors (rc_permissions ctx) [] [] [] (rc_hooks ctx) (rc_redact_output ctx) (rc_extra_secrets ctx).

Definition invoke_tool_inner (def : DurableAgentDef) (ctx : RunContext (W:=W)) (call : ToolCallRequest)
    (w : W) : ToolCallOutcome * W :=
  let '(outcome, _, w) := execute_tool_call env (df_tools def) (context_interceptors ctx) call w in
  (outcome, w).

(** The registry of a worker, its factory of user contexts (an error is what it
    displays) and its posture. *)
Record TypedRuntime := mkTypedRuntime {
  tr_registry : gmap string DurableAgentDef;
  tr_ctx_factory : option Value → result unit string;
  tr_posture : WorkerPosture;
}.

Definition resolve (rt : TypedRuntime) (agent_name : string) : result DurableAgentDef string :=
  match tr_registry rt !! agent_name with
  | Some def => Ok def
  | None => Err ("no agent named '" +:+ agent_name +:+ "' is registered on this worker")
  end.

Definition run_context (rt : TypedRuntime) (seed : option Value) : result (RunContext (W:=W)) string :=
  match tr_ctx_factory rt seed with
  | Ok _ => Ok (posture_apply (tr_posture rt) (RunContext_new []))
  | Err e => Err ("ctx seed rejected: " +:+ e)
  end.

(** The three activities for the agent and the seed of a workflow. *)
Definition agent_activities (rt : TypedRuntime) (agent_name : string) (seed : option Value)
  : Activities W :=
  mkActivities
    (λ w,
      match resolve rt agent_name, run_context rt seed with
      | Ok def, Ok ctx => (Ok (df_instructions def ctx w), w)
      | Err e, _ | _, Err e => (Err e, w)
      end)
    (λ request w,
      match resolve rt agent_name with
      | Ok def =>
          let '(res, w) := call_model_inner (df_model def) (df_name def) request w in
          (match res with Ok turn => Ok turn | Err kind => Err (ek_to_string kind) end, w)
      | Err e => (Err e, w)
      end)
    (λ call w,
      match resolve rt agent_name, run_context rt seed with
      | Ok def, Ok ctx => let '(outcome, w) := invoke_tool_inner def ctx call w in (Ok outcome, w)
      | Err e, _ | _, Err e => (Err e, w)
      end).
End Worker.

(** ** The runner *)

Section DurableRunner.
Context `{J : SerdeJson} `{G : Globset} `{R : !RustDebug} {W : Type}.
Variable now : nat → Z.

Definition outcome_to_run_result (outcome : DurableRunOutcome) : result RunResult RunError :=
  match do_status outcome with
  | StatusCompleted out =>
      Ok (mkRunResult (String.concat "" (omap text_of (fo_content out))) (do_events outcome) (do_usage outcome))
  | StatusAgentFailed kind => Err (REAgent (into_agent_error kind))
  | StatusCancelled => Err (run_error Cancelled)
  | StatusTimedOut => Err (run_error TimedOut)
  end.

(** [TemporalRunner::run_inner], on what the workflow returned or the message of
    the failure to run it; durations are in milliseconds.  The events, the result
    and the batch appended to the session. *)
Definition run_inner (workflow : WorkflowInput → result DurableRunOutcome string)
    (ctx_seed : option Value) (snapshot : result (list Item) SessionError) (agent_name : string)
    (input : list Item) (config : RunConfig)
  : result (list AgentEvent * result RunResult RunError * list SessionEvent) RunError :=
  match load_and_record now snapshot agent_name input with
  | Err e => Err e
  | Ok (merged, recorder) =>
      let workflow_input :=
        mkWorkflowInput agent_name merged
          (mkDriverConfig (max_turns config) (Pos.to_nat <$> parallel_tool_call_limit config))
          (timeout config) ctx_seed in
      match workflow workflow_input with
      | Ok outcome =>
          Ok (do_events outcome, outcome_to_run_result outcome,
              (drain_recorder now (observe_all now recorder (do_events outcome))).1)
      | Err msg => Ok ([], Err (REOther msg), (drain_recorder now recorder).1)
      end
  end.

Definition synthetic_terminal_event (res : result RunResult RunError) : option AgentEvent :=
  match res with
  | Ok _ => None
  | Err (REAgent err) => Some (RunFailed (AgentError_display err))
  | Err RECancelled => Some (interrupt_event Cancelled)
  | Err RETimeout => Some (interrupt_event TimedOut)
  | Err other => Some (RunFailed (RunError_display other))
  end.

Definition append_synthetic_terminal (events : list AgentEvent) (event : option AgentEvent)
  : list AgentEvent :=
  match event with
  | Some event =>
      match last events with
      | Some ev => if is_terminal ev then events else events ++ [event]
      | None => events ++ [event]
      end
  | None => events
  end.

(** [into_streaming]: the stream and the failure slot. *)
Definition into_streaming (events : list AgentEvent) (res : result RunResult RunError)
  : list AgentEvent * option AgentError :=
  (append_synthetic_terminal events (synthetic_terminal_event res),
   match res with Err (REAgent err) => Some err | _ => None end).
End DurableRunner.

(** ** Correctness *)

(** *** The step machine follows the protocol of the loop's state machine *)

Section Protocol.
Context `{J : SerdeJson} `{D : !LoopDebug} `{R : !RustDebug} `{EC : !ErrorCodec} {W : Type}.
Variables (dplan : DurablePlan) (config : DriverConfig) (seed : list Item) (name : string).
Hypothesis max_turns_u32 : (0 ≤ dc_max_turns config ≤ u32_max)%Z.

Definition plan_of : AgentPlan :=
  mkAgentPlan (dp_tool_defs dplan) (dp_model_settings dplan) (dc_max_turns config) (dp_output dplan) [].

(** After [n] transitions: what the machine holds, and the next input. *)
Inductive machine_at : nat → DurableDriver → Prop :=
| machine_start ms u :
    machine_at 0 (mkDurableDriver name dplan config [] seed (CallingModel 0 TokenUsage_default)
      (Some (Start ms)) [RunStarted name] u Driving)
| machine_step tr s input u :
    reaches plan_of seed tr s → answers (ds_action s) input = true →
    (∀ v, usage_of_state (ds_state s) = Some v → u = v) →
    machine_at (S (length tr)) (mkDurableDriver name dplan config [] (ds_conversation s ++ incoming_items input)
      (ds_state s) (Some input) (RunStarted name :: ds_log s) u Driving).

(** After the next transition, before the activity's answer. *)
Definition awaiting (tr : list TransitionInput) (s : DriverState) (d : DurableDriver) : Prop :=
  ∃ u, d = mkDurableDriver name dplan config [] (ds_conversation s) (ds_state s) None
             (RunStarted name :: ds_log s) u Driving
    ∧ ∀ v, usage_of_state (ds_state s) = Some v → u = v.

Lemma state_usage_spec s : state_usage s = usage_of_state s.
Proof. by destruct s. Qed.

Definition finished (s : DriverState) (outcome : DurableRunOutcome) : Prop :=
  do_events outcome = RunStarted name :: ds_log s
  ∧ match ds_state s with
    | Done out => do_status outcome = StatusCompleted out ∧ do_usage outcome = fo_usage out
    | Failed e => do_status outcome = StatusAgentFailed (from_agent_error e)
    | _ => False
    end.

Lemma advance_awaiting n d :
  machine_at n d →
  ∃ tr s input, reaches plan_of seed tr s ∧ length tr = n ∧ dd_pending_input d = Some input
    ∧ dd_phase d = Driving
    ∧ let o := transition (dd_loop_state d) input (transition_ctx d) in
      ds_state s = next_state o ∧ ds_action s = next_action o
      ∧ awaiting tr s (advance d o (next_state o)).
Proof.
  intros [ms u|tr s input u Hr Ha Hu].
  - exists [], (drive_start plan_of seed), (Start ms). split; [constructor|].
    split; [done|]. split; [done|]. split; [done|]. intros o. split; [done|]. split; [done|].
    eexists. split; [reflexivity|]. intros v Hv. rewrite state_usage_spec.
    change (usage_of_state (next_state o) = Some v) in Hv. by rewrite Hv.
  - exists (tr ++ [input]), (drive_step plan_of s input), input.
    split; [by constructor|]. split; [rewrite length_app; simpl; lia|].
    split; [done|]. split; [done|]. intros o. split; [done|]. split; [done|].
    eexists. split; [reflexivity|]. intros v Hv. rewrite state_usage_spec.
    change (usage_of_state (next_state o) = Some v) in Hv. by rewrite Hv.
Qed.

Lemma reaches_ends tr s :
  reaches plan_of seed tr s → ds_action s = Terminate → ends_as (ds_state s) (ds_log s).
Proof.
  intros Hr. destruct Hr as [|tr s i Hr Ha]; intros Hq; [by apply transition_ends|].
  apply ends_as_app; [|by apply transition_ends].
  pose proof (reaches_events plan_of seed tr s Hr) as Hn. by destruct (ds_action s).
Qed.

(** What the machine asks for is what the state machine of the loop asks for. *)
Lemma next_effect_spec n d :
  machine_at n d →
  ∃ tr s effect d', reaches plan_of seed tr s ∧ length tr = n ∧ next_effect d = Some (effect, d')
    ∧ match ds_action s with
      | CallModel request => effect = EffCallModel request ∧ awaiting tr s d'
      | ExecuteTools calls => effect = EffExecuteTools calls ∧ awaiting tr s d'
      | Terminate => ∃ outcome, effect = EffFinished outcome ∧ finished s outcome
      | Handoff => False
      end.
Proof using max_turns_u32.
  intros (tr & s & input & Hr & Hn & Hi & Hp & Hs & Ha & Haw)%advance_awaiting.
  pose proof (reaches_well_driven plan_of seed max_turns_u32 tr s Hr) as Hw.
  unfold next_effect. rewrite Hp, Hi. simpl. set (o := transition _ _ _) in *. rewrite <- Hs, <- Ha in *.
  destruct (ds_action s) as [request|calls| |] eqn:Es.
  - exists tr, s. eexists _, _. split; [done|]. split; [done|]. split; [reflexivity|]. by rewrite Es.
  - exists tr, s. eexists _, _. split; [done|]. split; [done|]. split; [reflexivity|]. by rewrite Es.
  - exists tr, s. eexists _, _. split; [done|]. split; [done|]. split; [reflexivity|]. rewrite Es.
    eexists. split; [reflexivity|]. destruct Haw as (u & Hd & Hu).
    pose proof (f_equal dd_events Hd) as He. pose proof (f_equal dd_usage Hd) as Hq. simpl in He, Hq.
    unfold finished. simpl. split; [exact He|].
    destruct (ds_state s) eqn:Et; simpl in Hw; try done. split; [done|]. rewrite Hq. by apply Hu.
  - exfalso. destruct (ds_state s); simpl in Hw; try done. by destruct Hw as [(h & Hh%elem_of_nil & _) _].
Qed.

Lemma apply_model_at tr s d request turn :
  reaches plan_of seed tr s → awaiting tr s d → ds_action s = CallModel request →
  machine_at (S (length tr)) (apply_model d turn).
Proof.
  intros Hr (u & -> & Hu) Ha.
  apply (machine_step tr s (ModelResponse (mt_items turn) (mt_usage turn) (mt_finish_reason turn)));
    [done|by rewrite Ha|done].
Qed.

Lemma apply_tools_at tr s d calls outcomes :
  reaches plan_of seed tr s → awaiting tr s d → ds_action s = ExecuteTools calls →
  machine_at (S (length tr)) (apply_tools d outcomes).
Proof.
  intros Hr (u & -> & Hu) Ha. apply (machine_step tr s (ToolResults outcomes)); [done|by rewrite Ha|done].
Qed.

Lemma machine_at_bounded n d :
  machine_at n d → (n < Z.to_nat (2 * dc_max_turns config + 3))%nat.
Proof using max_turns_u32.
  intros [ms u|tr s input u Hr Ha _]; [lia|].
  pose proof (reaches_bounded plan_of seed max_turns_u32 tr s Hr) as (Hf & Hb & _).
  pose proof (reaches_well_driven plan_of seed max_turns_u32 tr s Hr) as Hw.
  simpl (plan_max_turns plan_of) in *. assert (0 < fuel_of plan_of (ds_state s))%Z; [|lia].
  destruct (ds_state s), (ds_action s); simpl in Hw; try done; simpl; try done; simpl in Hw; lia.
Qed.
End Protocol.

(** *** The text of a completed run *)

Section FinalText.
Context `{J : SerdeJson} `{D : !LoopDebug}.

Lemma last_message items :
  last (omap message_text (message_outputs items))
  = (λ c, String.concat "" (omap text_of c))
      <$> rfind_map (λ i, match i with AssistantMessage content _ => Some content | _ => None end) items.
Proof.
  unfold message_outputs, rfind_map. induction items as [|i items IH] using rev_ind; [done|].
  rewrite List.filter_app, fmap_app, omap_app, rev_app_distr. simpl.
  destruct i; simpl; rewrite ?app_nil_r; try exact IH. by rewrite last_snoc.
Qed.

(** The text of the output is what was said last, or nothing was said in the
    last turn. *)
Lemma done_text s i ctx out pre :
  next_state (transition s i ctx) = Done out →
  final_text_from "" (pre ++ events (transition s i ctx)) = as_text out ∨ as_text out = "".
Proof.
  assert (∀ items u, final_text_from "" (pre ++ message_outputs items ++ [RunCompleted u])
      = as_text (mkFinalOutput (last_assistant_content items) u)
      ∨ as_text (mkFinalOutput (last_assistant_content items) u) = "") as Hgo.
  { intros items u. unfold final_text_from, as_text, last_assistant_content. simpl.
    rewrite (assoc_L (++)), omap_app. cbn [omap list_omap message_text]. rewrite app_nil_r, omap_app, last_app, last_message.
    destruct (rfind_map _ items); simpl; auto. }
  unfold transition, invalid_transition, on_start, on_tool_calls, on_final_message, on_tool_results,
    on_finalizing, on_repairing, max_turns_reached, not_implemented, missing_output, completed.
  destruct s, i; repeat case_match; simpl; intros [= <-]; apply Hgo.
Qed.

Lemma reaches_text plan seed tr s out :
  reaches plan seed tr s → ds_state s = Done out →
  final_text_from "" (ds_log s) = as_text out ∨ as_text out = "".
Proof. intros [|tr0 s0 i Hr Ha] Hd; [by apply (done_text _ _ _ _ [])|by apply done_text]. Qed.
End FinalText.

(** *** Whole runs *)

(** How a run that was not interrupted ends. *)
Definition outcome_ok `{J : SerdeJson} (plan : DurablePlan) (o : DurableRunOutcome) : Prop :=
  ∃ l ev, do_events o = l ++ [ev] ∧ no_terminal l
    ∧ match do_status o with
      | StatusCompleted out =>
          ev = RunCompleted (fo_usage out) ∧ do_usage o = fo_usage out
          ∧ (final_text_from "" l = as_text out ∨ as_text out = "")
          ∧ ∀ ot, dp_output plan = Some ot → validate_terminal ot (fo_content out) = Ok tt
      | StatusAgentFailed _ => ∃ msg, ev = RunFailed msg
      | _ => False
      end.

(** How an interrupted one ends: in the middle. *)
Definition interrupted_ok `{J : SerdeJson} (kind : RunInterrupt) (o : DurableRunOutcome) : Prop :=
  do_status o = match kind with Cancelled => StatusCancelled | TimedOut => StatusTimedOut end
  ∧ no_terminal (do_events o).

Section Runs.
Context `{J : SerdeJson} `{D : !LoopDebug} `{R : !RustDebug} `{EC : !ErrorCodec} {W : Type}.
Variables (acts : Activities W) (order : W → list nat) (limit : option nat).
Variables (dplan : DurablePlan) (config : DriverConfig) (seed : list Item) (name : string).
Hypothesis max_turns_u32 : (0 ≤ dc_max_turns config ≤ u32_max)%Z.

Abbreviation the_plan := (plan_of dplan config).
Abbreviation machine := (machine_at dplan config seed name).

Lemma finished_ok tr s o :
  reaches the_plan seed tr s → ds_action s = Terminate → finished name s o → outcome_ok dplan o.
Proof using max_turns_u32.
  intros Hr Ha [He Hs]. destruct (reaches_ends dplan config seed tr s Hr Ha) as (l & ev & Hl & Hq & Hev).
  pose proof (reaches_well_driven the_plan seed max_turns_u32 tr s Hr) as Hw. rewrite Ha in Hw.
  exists (RunStarted name :: l), ev. split; [by rewrite He, Hl|]. split; [by constructor|].
  destruct (ds_state s) eqn:Es; try done; simpl in Hev.
  - destruct Hs as [-> Hu]. split_and!; [done|done| |done].
    pose proof (reaches_text the_plan seed tr s _ Hr Es) as Ht. subst ev.
    rewrite Hl, final_text_terminal in Ht by done. exact Ht.
  - by rewrite Hs.
Qed.

Lemma failure_ok d kind fuel w :
  no_terminal (dd_events d) →
  ∃ o, run_effects acts order limit (S fuel) (apply_model_failure d kind) w = Some (o, w)
    ∧ outcome_ok dplan o.
Proof.
  intros Hq. eexists. split; [reflexivity|].
  eexists (dd_events d), _. split; [reflexivity|]. split; [done|]. simpl. eauto.
Qed.

(** One round: the effect and its answer. *)
Lemma perform_at tr s effect d w :
  reaches the_plan seed tr s → awaiting dplan config name tr s d →
  match ds_action s with
  | CallModel request => effect = EffCallModel request
  | ExecuteTools calls => effect = EffExecuteTools calls
  | _ => False
  end →
  let '(d', w') := perform acts order limit effect d w in
  no_terminal (dd_events d)
  ∧ ((machine (S (length tr)) d' ∧ dd_events d' = dd_events d) ∨ ∃ kind, d' = apply_model_failure d kind).
Proof.
  intros Hr Haw Hf. pose proof (reaches_events the_plan seed tr s Hr) as Hn.
  assert (ds_action s ≠ Terminate → no_terminal (dd_events d)) as Hq.
  { intros Ha. destruct Haw as (u & -> & _). constructor; [done|]. by destruct (ds_action s). }
  destruct (ds_action s) as [request|calls| |] eqn:Ea; try done; subst effect; simpl.
  - destruct (act_call_model acts request w) as [[turn|message] w'].
    + split; [by apply Hq|]. left. split; [|done]. by eapply apply_model_at.
    + split; [by apply Hq|]. right. by eexists.
  - destruct (execute_tool_activities acts order limit calls w) as [outcomes w'].
    split; [by apply Hq|]. left. split; [|done]. by eapply apply_tools_at.
Qed.

(** With the fuel of the bound a run ends. *)
Lemma run_effects_ok fuel n d w :
  machine n d → (Z.to_nat (2 * dc_max_turns config + 4) ≤ n + fuel)%nat →
  ∃ o w', run_effects acts order limit fuel d w = Some (o, w') ∧ outcome_ok dplan o.
Proof using max_turns_u32.
  revert n d w. induction fuel as [|fuel IH]; intros n d w Hm Hf.
  { apply (machine_at_bounded dplan config seed name max_turns_u32) in Hm. lia. }
  pose proof (machine_at_bounded dplan config seed name max_turns_u32 n d Hm) as Hb.
  destruct (next_effect_spec dplan config seed name max_turns_u32 n d Hm)
    as (tr & s & effect & d' & Hr & <- & Hne & Hs). simpl. rewrite Hne. simpl.
  assert (awaiting dplan config name tr s d' → match ds_action s with
    | CallModel request => effect = EffCallModel request
    | ExecuteTools calls => effect = EffExecuteTools calls
    | _ => False end →
    ∃ o w', (let '(d, w) := perform acts order limit effect d' w in run_effects acts order limit fuel d w)
      = Some (o, w') ∧ outcome_ok dplan o) as Hgo.
  { intros Haw He. pose proof (perform_at tr s effect d' w Hr Haw He) as Hp.
    destruct (perform _ _ _ _ _ _) as [d2 w2]. destruct Hp as [Hq [[Hm2 _]|[kind ->]]].
    - by apply (IH (S (length tr))); [|lia].
    - destruct fuel as [|fuel]; [lia|]. destruct (failure_ok d' kind fuel w2 Hq) as (o & -> & Ho). by exists o, w2. }
  destruct (ds_action s) as [request|calls| |] eqn:Ea; try done.
  - destruct Hs as [-> Haw]. by apply Hgo.
  - destruct Hs as [-> Haw]. by apply Hgo.
  - destruct Hs as (o & -> & Ho). exists o, w. split; [done|]. by eapply finished_ok.
Qed.

(** An interrupt catches the run in the middle, or too late. *)
Lemma run_interrupted_ok kind k n d w :
  machine n d →
  ∃ o w', run_interrupted acts order limit kind k d w = Some (o, w')
    ∧ (outcome_ok dplan o ∨ interrupted_ok kind o).
Proof using max_turns_u32.
  revert n d w. induction k as [|k IH]; intros n d w Hm;
    destruct (next_effect_spec dplan config seed name max_turns_u32 n d Hm)
      as (tr & s & effect & d' & Hr & <- & Hne & Hs); simpl; rewrite Hne; simpl.
  - destruct (ds_action s) as [request|calls| |] eqn:Ea; try done.
    1,2: destruct Hs as [-> Haw]; eexists _, w; (split; [reflexivity|]); right;
      pose proof (reaches_events the_plan seed tr s Hr) as Hn; rewrite Ea in Hn;
      destruct Haw as (u & -> & _); (split; [by destruct kind|]); by constructor.
    destruct Hs as (o & -> & Ho). exists o, w. split; [done|]. left. by eapply finished_ok.
  - assert (awaiting dplan config name tr s d' → match ds_action s with
      | CallModel request => effect = EffCallModel request
      | ExecuteTools calls => effect = EffExecuteTools calls
      | _ => False end →
      ∃ o w', (let '(d, w) := perform acts order limit effect d' w in
               run_interrupted acts order limit kind k d w) = Some (o, w')
        ∧ (outcome_ok dplan o ∨ interrupted_ok kind o)) as Hgo.
    { intros Haw He. pose proof (perform_at tr s effect d' w Hr Haw He) as Hp.
      destruct (perform _ _ _ _ _ _) as [d2 w2]. destruct Hp as [Hq [[Hm2 _]|[ek ->]]]; [by eapply IH|].
      destruct (failure_ok d' ek 0 w2 Hq) as (o & Ho & Hok). exists o, w2. simpl in Ho.
      split; [by destruct k|by left]. }
    destruct (ds_action s) as [request|calls| |] eqn:Ea; try done.
    + destruct Hs as [-> Haw]. by apply Hgo.
    + destruct Hs as [-> Haw]. by apply Hgo.
    + destruct Hs as (o & -> & Ho). exists o, w. split; [done|]. left. by eapply finished_ok.
Qed.
End Runs.

(** *** The log only grows *)

Section Growth.
Context `{J : SerdeJson} `{D : !LoopDebug} `{R : !RustDebug} `{EC : !ErrorCodec} {W : Type}.
Variables (acts : Activities W) (order : W → list nat) (limit : option nat).

(** A finished machine has cached its log. *)
Definition settled (d : DurableDriver) : Prop :=
  match dd_phase d with PhaseDone o => do_events o = dd_events d | _ => True end.

Lemma next_effect_grows d effect d' :
  settled d → next_effect d = Some (effect, d') →
  settled d' ∧ dd_events d `prefix_of` dd_events d'
  ∧ match effect with EffFinished o => do_events o = dd_events d' | _ => True end.
Proof.
  unfold next_effect. intros Hd. destruct (dd_phase d) as [| |o] eqn:Hp.
  - intros [= <- <-]. by split_and!.
  - destruct (dd_pending_input d) as [input|]; [|done]. simpl. set (t := transition _ _ _).
    destruct (next_action t); intros [= <- <-]; unfold settled; simpl; rewrite ?Hp;
      (split_and!; [done|by apply prefix_app_r|done]).
  - intros [= <- <-]. unfold settled in Hd. rewrite Hp in Hd. by split_and!; [unfold settled; rewrite Hp|..].
Qed.

Lemma perform_grows effect d w :
  settled d →
  let d' := (perform acts order limit effect d w).1 in settled d' ∧ dd_events d `prefix_of` dd_events d'.
Proof.
  intros Hd. unfold perform. destruct effect as [|request|calls|o].
  - destruct (act_render_instructions acts w) as [[text|message] w']; (split; [done|by apply prefix_app_r]).
  - destruct (act_call_model acts request w) as [[turn|message] w'];
      [by split|split; [done|by apply prefix_app_r]].
  - by destruct (execute_tool_activities acts order limit calls w) as [outcomes w'].
  - by split.
Qed.

Lemma run_effects_grows fuel d w o w' :
  settled d → run_effects acts order limit fuel d w = Some (o, w') → dd_events d `prefix_of` do_events o.
Proof.
  revert d w. induction fuel as [|fuel IH]; intros d w Hd; simpl; [done|].
  destruct (next_effect d) as [[effect d1]|] eqn:Hn; [|done]. simpl.
  destruct (next_effect_grows d effect d1 Hd Hn) as (Hd1 & Hp & He).
  pose proof (perform_grows effect d1 w Hd1) as Hg. destruct (perform _ _ _ _ _ _) as [d2 w2].
  destruct effect as [| | |o']; [..|intros [= <- <-]; by rewrite He].
  all: simpl in Hg; destruct Hg as [Hd2 Hp2]; intros Hr; specialize (IH d2 w2 Hd2 Hr).
  all: by etrans; [exact Hp|etrans; [exact Hp2|exact IH]].
Qed.

(** What an interrupted run has logged, the run would have logged anyway. *)
Lemma interrupted_prefix kind k fuel d w o w1 o' w' :
  settled d → run_interrupted acts order limit kind k d w = Some (o, w1) →
  run_effects acts order limit fuel d w = Some (o', w') → do_events o `prefix_of` do_events o'.
Proof.
  revert fuel d w. induction k as [|k IH]; intros [|fuel] d w Hd; simpl; try done;
    (destruct (next_effect d) as [[effect d1]|] eqn:Hn; [|done]); simpl;
    destruct (next_effect_grows d effect d1 Hd Hn) as (Hd1 & Hp & He);
    pose proof (perform_grows effect d1 w Hd1) as Hg; destruct (perform _ _ _ _ _ _) as [d2 w2];
    (destruct effect as [| | |o2]; [..|by intros [= <- <-] [= <- <-]]); simpl in Hg; destruct Hg as [Hd2 Hp2].
  1-3: intros [= <- <-] Hr; pose proof (run_effects_grows fuel d2 w2 o' w' Hd2 Hr) as Hq;
    (etrans; [|exact Hq]); unfold interrupt, settled in *;
    destruct (dd_phase d1); simpl; rewrite ?Hd1; exact Hp2.
  all: intros Hi Hr; by eapply IH.
Qed.
End Growth.

(** How a run of a known agent ends. *)
Lemma drive_workflow_ends `{J : SerdeJson} `{D : !LoopDebug} `{R : !RustDebug} `{EC : !ErrorCodec}
    {W : Type} plans plan (acts : Activities W) order cut input w :
  plans !! wi_agent_name input = Some plan → (0 ≤ dc_max_turns (wi_config input) ≤ u32_max)%Z →
  ∃ o w', drive_workflow plans acts order cut input w = Some (o, w')
    ∧ match cut with
      | None => outcome_ok plan o
      | Some (_, kind) => outcome_ok plan o ∨ interrupted_ok kind o
      end.
Proof.
  intros Hplan Hmax. unfold drive_workflow. rewrite Hplan.
  set (limit := dc_parallel_tool_call_limit _). set (config := wi_config input) in *.
  set (d0 := DurableDriver_new input plan). unfold durable_fuel.
  assert (∃ o w', run_effects acts order limit (durable_fuel config) d0 w = Some (o, w') ∧ outcome_ok plan o)
    as (o0 & w0 & Hrun & Hok).
  { unfold durable_fuel. destruct (Z.to_nat (2 * dc_max_turns config + 5)) as [|fuel] eqn:Hf; [lia|]. simpl.
    destruct (act_render_instructions acts w) as [[text|message] w1].
    - apply (run_effects_ok acts order limit plan config
        ((if is_empty text then [] else [System [Text text]]) ++ wi_conversation input)
        (wi_agent_name input) Hmax fuel 0); [apply machine_start|lia].
    - destruct fuel as [|fuel]; [lia|].
      destruct (failure_ok acts order limit plan d0 (extract_error_kind message) fuel w1 ltac:(constructor))
        as (o & Ho & Hok). by exists o, w1. }
  unfold durable_fuel in Hrun. destruct cut as [[k kind]|].
  - assert (∃ o w', run_interrupted acts order limit kind k d0 w = Some (o, w')
      ∧ (outcome_ok plan o ∨ interrupted_ok kind o)) as (o & w' & Hi & Hio).
    { destruct k as [|k]; simpl; [by eexists _, w; split; [reflexivity|right; split; [by destruct kind|constructor]]|].
      destruct (act_render_instructions acts w) as [[text|message] w1].
      - apply (run_interrupted_ok acts order limit plan config
          ((if is_empty text then [] else [System [Text text]]) ++ wi_conversation input)
          (wi_agent_name input) Hmax kind k 0). apply machine_start.
      - destruct (failure_ok acts order limit plan d0 (extract_error_kind message) 0 w1 ltac:(constructor))
          as (o & Ho & Hok'). exists o, w1. split; [by destruct k|by left]. }
    by exists o, w'.
  - by exists o0, w0.
Qed.

(** C25. A durable run ends, whatever its activities answer, in whatever order the
    activities of a turn run, and wherever it is interrupted.  One that is not
    interrupted logs exactly one terminal event, the last, which agrees with its
    status, and a completed status carries the usage reported and an output that
    passed validation; an interrupt leaves a log without terminal event that is
    a prefix of what the run would have logged. *)
Theorem durable_run_ends `{J : SerdeJson} `{D : !LoopDebug} `{R : !RustDebug} `{EC : !ErrorCodec}
    {W : Type} plans plan (acts : Activities W) order cut input w :
  plans !! wi_agent_name input = Some plan → (0 ≤ dc_max_turns (wi_config input) ≤ u32_max)%Z →
  ∃ o w', drive_workflow plans acts order cut input w = Some (o, w')
    ∧ match cut with
      | None => outcome_ok plan o
      | Some (_, kind) => outcome_ok plan o ∨ interrupted_ok kind o
      end
    ∧ ∀ o' w'', drive_workflow plans acts order None input w = Some (o', w'') →
        do_events o `prefix_of` do_events o'.
Proof.
  intros Hplan Hmax. destruct (drive_workflow_ends plans plan acts order cut input w Hplan Hmax) as (o & w' & Ho & Hok).
  exists o, w'. split; [done|]. split; [done|]. intros o' w''. revert Ho. unfold drive_workflow. rewrite Hplan.
  destruct cut as [[k kind]|]; [|by intros -> [= -> ->]]. by apply interrupted_prefix.
Qed.

(** *** Concurrent activities *)

Section Join.
Context {A W : Type}.
Implicit Types (started : list (W → A * W)).

Fixpoint run_each started (w : W) : list A * W :=
  match started with
  | [] => ([], w)
  | f :: started' => let '(a, w) := f w in let '(l, w) := run_each started' w in (a :: l, w)
  end.

Lemma join_in_order_go (pre : list (W → A * W)) (dn : list A) started w :
  length pre = length dn →
  fold_left (join_step (pre ++ started)) (seq (length pre) (length started))
    ((Some <$> dn) ++ replicate (length started) None, w)
  = (Some <$> (dn ++ (run_each started w).1), (run_each started w).2).
Proof.
  revert pre dn w. induction started as [|f started IH]; intros pre dn w Hl; [by rewrite !app_nil_r|].
  cbn [length seq fold_left replicate run_each]. unfold join_step at 2. cbn [fst snd].
  rewrite list_lookup_middle by done. rewrite list_lookup_middle by (by rewrite length_fmap).
  destruct (f w) as [a w1]. rewrite Hl, <- (length_fmap Some dn), <- (Nat.add_0_r (length (Some <$> dn))), insert_app_r. simpl.
  specialize (IH (pre ++ [f]) (dn ++ [a]) w1 ltac:(rewrite !length_app; simpl; lia)).
  rewrite length_app, Nat.add_1_r, <- !(assoc_L (++)), fmap_app, <- (assoc_L (++)) in IH. simpl in IH.
  rewrite Nat.add_0_r, length_fmap, <- Hl, IH. destruct (run_each started w1) as [l w2]. simpl.
  done.
Qed.

Lemma join_in_order started w : join_all started [] w = run_each started w.
Proof.
  unfold join_all. rewrite app_nil_l. pose proof (join_in_order_go [] [] started w eq_refl) as H. simpl in H.
  rewrite H. destruct (run_each started w) as [l w']. simpl. f_equal.
  clear H. induction l as [|a l IH]; [done|]. change (a :: omap id (Some <$> l) = a :: l). by rewrite IH.
Qed.

Lemma run_each_app s1 s2 w :
  run_each (s1 ++ s2) w
  = (let '(l1, w) := run_each s1 w in let '(l2, w) := run_each s2 w in (l1 ++ l2, w)).
Proof.
  revert w. induction s1 as [|f s1 IH]; intros w; simpl; [by destruct (run_each s2 w)|].
  destruct (f w) as [a w1]. rewrite IH. destruct (run_each s1 w1) as [l1 w2]. by destruct (run_each s2 w2).
Qed.

Lemma concat_chunks {B} fuel size (l : list B) :
  (0 < size)%nat → (length l ≤ fuel)%nat → concat (chunks fuel size l) = l.
Proof.
  intros Hs. revert l. induction fuel as [|fuel IH]; intros [|x l] Hl; simpl in *; [done|lia|done|].
  rewrite IH by (rewrite length_drop; simpl; lia). apply take_drop.
Qed.
End Join.

(** *** The stream of a durable run *)

Section Stream.
Context `{J : SerdeJson} `{R : !RustDebug}.

(** What collecting the stream gives, next to the result of the run itself. *)
Definition collects_as (streamed : result RunResult RunError) (res : result RunResult RunError) : Prop :=
  match res with
  | Ok r => ∃ r', streamed = Ok r' ∧ rr_events r' = rr_events r ∧ rr_usage r' = rr_usage r
      ∧ (final_output r' = final_output r ∨ final_output r = "")
  | Err (REAgent e) => streamed = Err (REAgent e)
  | Err RECancelled => streamed = Err (REOther (terminal_message Cancelled))
  | Err RETimeout => streamed = Err (REOther (terminal_message TimedOut))
  | Err e => streamed = Err (REOther (RunError_display e))
  end.

(** A stream that lacked a terminal event. *)
Lemma stream_appended evs res ev :
  no_terminal evs → synthetic_terminal_event res = Some ev →
  into_streaming evs res = (evs ++ [ev], match res with Err (REAgent err) => Some err | _ => None end)
  ∧ collects_as (collect (evs ++ [ev]) (into_streaming evs res).2) res
  ∧ one_final_terminal (evs ++ [ev]).
Proof.
  intros Hq Hev. unfold into_streaming, append_synthetic_terminal. rewrite Hev.
  assert (is_terminal ev = true) as Ht.
  { unfold synthetic_terminal_event in Hev. destruct res as [|[]]; by simplify_eq. }
  split; [|split; [|by exists evs, ev]].
  - destruct (last evs) as [x|] eqn:Hx; [|done]. apply last_Some_elem_of in Hx.
    unfold no_terminal in Hq. rewrite Forall_forall in Hq. by rewrite (Hq x Hx).
  - rewrite collect_run by done. destruct res as [r|[]]; by simplify_eq/=.
Qed.

Lemma stream_finished plan o :
  outcome_ok plan o →
  let '(evs, slot) := into_streaming (do_events o) (outcome_to_run_result o) in
  evs = do_events o ∧ one_final_terminal evs ∧ collects_as (collect evs slot) (outcome_to_run_result o).
Proof.
  intros (l & ev & He & Hq & Hs). unfold into_streaming, outcome_to_run_result.
  assert (is_terminal ev = true) as Ht.
  { destruct (do_status o); try done; [by destruct Hs as [-> _]|by destruct Hs as [msg ->]]. }
  assert (∀ e, append_synthetic_terminal (do_events o) e = do_events o) as Ha.
  { intros e. unfold append_synthetic_terminal. rewrite He, last_snoc, Ht. by destruct e. }
  rewrite Ha. destruct (do_status o) as [out|kind| |]; try done; simpl.
  - destruct Hs as (-> & Hu & Hx & _). split; [done|]. split; [by rewrite He; exists l, (RunCompleted (fo_usage out))|].
    rewrite He, collect_run by done. simpl. eexists. split_and!; [reflexivity|done|done|].
    simpl. by rewrite final_text_terminal.
  - destruct Hs as [msg ->]. split; [done|].
    split; [by rewrite He; exists l, (RunFailed msg)|]. by rewrite He, collect_run.
Qed.
End Stream.

(** The buffered stream of the durable runner is a run's stream: whatever the
    run was, it ends in exactly one terminal event, holds everything that was
    logged, and collecting it gives what running without a stream reports, an
    interrupt being reported by the text of its terminal event; the final text is
    the same unless the last turn said nothing. *)
Theorem durable_stream_sound `{J : SerdeJson} `{D : !LoopDebug} `{R : !RustDebug} `{EC : !ErrorCodec}
    {W : Type} plans (acts : Activities W) order cut input w o w' :
  (0 ≤ dc_max_turns (wi_config input) ≤ u32_max)%Z →
  drive_workflow plans acts order cut input w = Some (o, w') →
  let '(evs, slot) := into_streaming (do_events o) (outcome_to_run_result o) in
  one_final_terminal evs ∧ do_events o `prefix_of` evs
  ∧ collects_as (collect evs slot) (outcome_to_run_result o).
Proof.
  intros Hmax Hrun.
  assert ((∃ plan, outcome_ok plan o) ∨ no_terminal (do_events o) ∧ is_Some (synthetic_terminal_event (outcome_to_run_result o)))
    as [[plan Hok]|[Hq [ev Hev]]].
  - destruct (plans !! wi_agent_name input) as [plan|] eqn:Hp.
    + destruct (drive_workflow_ends plans plan acts order cut input w Hp Hmax) as (o1 & w1 & Ho1 & Hok).
      assert (o1 = o) as -> by congruence.
      destruct cut as [[k kind]|]; [destruct Hok as [Hok|[Hs Hq]]|]; [by left; exists plan| |by left; exists plan].
      right. split; [done|]. unfold outcome_to_run_result. rewrite Hs. destruct kind; by eexists.
    + right. unfold drive_workflow in Hrun. rewrite Hp in Hrun. injection Hrun as <- _.
      split; [constructor|]. by eexists.
  - pose proof (stream_finished plan o Hok) as H. destruct (into_streaming _ _) as [evs slot].
    destruct H as (-> & Ht & Hc). by split_and!.
  - pose proof (stream_appended (do_events o) (outcome_to_run_result o) ev Hq Hev) as (Hi & Hc & Ht).
    rewrite Hi in Hc |- *. split; [done|]. split; [by apply prefix_app_r|done].
Qed.

(** *** A worker with one agent and one tool *)

Module DurableDemo.
#[local] Existing Instance Toy.json.
#[local] Existing Instance Permission.Demo.globset.
#[local] Existing Instance ToolsDemo.debug.
#[local] Existing Instance DriverDemo.loop_debug.
Import DriverDemo.

(** A codec: payloads as numbers, numbers as bits. *)
Definition ek_sum (k : ErrorKindPayload) : Z + (list string * string) + (string + string + string) :=
  match k with
  | EKMaxTurnsExceeded n => inl (inl n)
  | EKInvalidStructuredOutput errs text => inl (inr (errs, text))
  | EKModel m => inr (inl (inl m))
  | EKHandoffUnsupported t => inr (inl (inr t))
  | EKOther m => inr (inr m)
  end.

Definition ek_of_sum (s : Z + (list string * string) + (string + string + string)) : ErrorKindPayload :=
  match s with
  | inl (inl n) => EKMaxTurnsExceeded n
  | inl (inr (errs, text)) => EKInvalidStructuredOutput errs text
  | inr (inl (inl m)) => EKModel m
  | inr (inl (inr t)) => EKHandoffUnsupported t
  | inr (inr m) => EKOther m
  end.

Fixpoint bits (p : positive) : string :=
  match p with
  | xH => ""
  | xO p => "0" +:+ bits p
  | xI p => "1" +:+ bits p
  end.

(** The characters differ in their lowest bit. *)
Fixpoint of_bits (s : string) : positive :=
  match s with
  | EmptyString => xH
  | String (Ascii.Ascii b _ _ _ _ _ _ _) s' => if b then xI (of_bits s') else xO (of_bits s')
  end.

Lemma of_bits_bits p : of_bits (bits p) = p.
Proof. induction p; simpl; by rewrite ?IHp. Qed.

#[export] Instance codec : ErrorCodec := {|
  ek_to_string k := bits (encode (ek_sum k));
  ek_from_str s := ek_of_sum <$> decode (of_bits s);
|}.

#[export] Instance codec_laws : ErrorCodecLaws.
Proof. split. intros k. simpl. rewrite of_bits_bits, decode_encode. by destruct k. Qed.

Definition echo : Tool (W:=script) := mkTool "echo" "" VNull ReadOnly (λ args w, (Ok args, w)).

Definition agent : LlmAgent (W:=script) :=
  mkLlmAgent "parrot" "" (λ _ _, "Repeat.") model [echo] [] None [] [] [] LoopState.Demo.settings config.

Definition call_echo : list (result ModelEvent ModelError) :=
  [Ok (METoolCallDelta "c1" (Some "echo") "null"); Ok (METoolCallDelta "c2" (Some "no") "null");
   Ok (MEUsage 5 5 None None)].

Definition posture : WorkerPosture (W:=script) := WorkerPosture_default.
Definition factory : option Toy.value → result unit string := λ _, Ok tt.
Definition registry : gmap string (DurableAgentDef (W:=script)) :=
  match register ∅ agent with Ok registry => registry | Err _ => ∅ end.
Definition runtime : TypedRuntime (W:=script) := mkTypedRuntime registry factory posture.
Definition input : list Item := [UserMessage [Text "hello"]].

Definition winput : WorkflowInput :=
  mkWorkflowInput "parrot" input (mkDriverConfig 4 (Some 1%nat)) None None.

Definition durable (cut : option (nat * RunInterrupt)) (w : script) : option (DurableRunOutcome * script) :=
  drive_workflow (registry_plans registry) (agent_activities [] runtime "parrot" None) (λ _, []) cut winput w.

Definition status_of (r : option (DurableRunOutcome * script)) : option RunStatusPayload :=
  (λ p, do_status p.1) <$> r.

Definition events_of (r : option (DurableRunOutcome * script)) : list AgentEvent :=
  from_option (λ p, do_events p.1) [] r.
End DurableDemo.

Section Witnesses.
#[local] Existing Instance Toy.json.
#[local] Existing Instance Permission.Demo.globset.
#[local] Existing Instance ToolsDemo.debug.
#[local] Existing Instance DriverDemo.loop_debug.
Import DriverDemo DurableDemo.

(** Timed out while the model is called again, the tools having answered. *)
Lemma durable_run_ends_witness :
  let w := [call_echo; say "hello" 2] in
  length (events_of (durable None w)) = 9%nat
  ∧ status_of (durable (Some (3%nat, TimedOut)) w) = Some StatusTimedOut
  ∧ events_of (durable (Some (3%nat, TimedOut)) w) `prefix_of` events_of (durable None w).
Proof.
  intros w. split; [vm_compute; reflexivity|]. split; [vm_compute; reflexivity|].
  destruct (durable_run_ends (registry_plans registry)
      (mkDurablePlan (tool_defs agent) (la_model_settings agent) (la_output_type agent))
      (agent_activities [] runtime "parrot" None) (λ _, []) (Some (3%nat, TimedOut)) winput w)
    as (o & w' & Ho & _ & Hpre); [reflexivity|vm_compute; split; discriminate|].
  unfold events_of at 1. unfold durable at 1. rewrite Ho.
  destruct (durable None w) as [[o' w'']|] eqn:E; [|vm_compute in E; discriminate E].
  exact (Hpre o' w'' E).
Defined.

(** The model is unavailable, and the run ends in a terminal event of its own;
    a timeout is given one. *)
Lemma durable_stream_sound_witness :
  let streamed cut w :=
    match durable cut w with
    | Some (o, _) => into_streaming (do_events o) (outcome_to_run_result o)
    | None => ([], None)
    end in
  last (streamed None [call_echo]).1 = Some (RunFailed "model provider unavailable")
  ∧ last (streamed (Some (1%nat, TimedOut)) [call_echo]).1 = Some (RunFailed "run timed out")
  ∧ one_final_terminal (streamed (Some (1%nat, TimedOut)) [call_echo]).1.
Proof.
  intros streamed. split; [vm_compute; reflexivity|]. split; [vm_compute; reflexivity|].
  unfold streamed. destruct (durable (Some (1%nat, TimedOut)) [call_echo]) as [[o w']|] eqn:E;
    [|vm_compute in E; discriminate E].
  pose proof (durable_stream_sound (registry_plans registry) (agent_activities [] runtime "parrot" None)
    (λ _, []) (Some (1%nat, TimedOut)) winput [call_echo] o w' ltac:(vm_compute; split; discriminate) E) as H.
  destruct (into_streaming _ _) as [evs slot]. exact (proj1 H).
Defined.
End Witnesses.
