(* ===== verification/DurableAgrees.v ===== *)
(** The durable runner does what the loop does.

    An agent that a worker accepts has no hooks, guardrails or handoffs.  For
    such an agent the run of its workflow, with the worker's activities, is
    simulated step by step by [LlmAgent::run] in the context the worker builds:
    the same model calls and tool calls, the same log but for the forwarded
    deltas and the denials of the tool layer, and the same outcome. *)

From S2P Require Import Prelude Json Items PathMatch CommandMatch LoopState Permission.
From S2P Require Import Redaction Tools ModelTurn Driver Workflow Session Runner AgentTool Durable.

(** The log of a run without what only its live consumer sees. *)
Definition durable_log `{J : SerdeJson} (evs : list AgentEvent) : list AgentEvent :=
  filter (λ ev, is_loop_event ev = true) evs.

(** The status a failure slot stands for. *)
Definition status_agrees `{J : SerdeJson} `{R : !RustDebug} (slot : option AgentError) (status : RunStatusPayload) : Prop :=
  match slot with
  | None => ∃ out, status = StatusCompleted out
  | Some e => status = StatusAgentFailed (from_agent_error e)
  end.

Lemma posture_apply_new `{J : SerdeJson} `{G : Globset} {W : Type} (p : WorkerPosture (W:=W)) :
  posture_apply p (RunContext_new [])
  = mkRunContext (wp_permissions p) [] None 0 (wp_redact_output p) (wp_extra_secrets p).
Proof.
  destruct p as [[mode policy deny allow handler guards defaults] redact secrets].
  unfold posture_apply. simpl. by destruct policy, handler, defaults, redact, mode.
Qed.

Definition kept `{J : SerdeJson} (ev : AgentEvent) : Prop := is_loop_event ev = true.

Lemma durable_log_id `{J : SerdeJson} evs : Forall kept evs → durable_log evs = evs.
Proof. unfold durable_log. induction 1 as [|ev evs Hev _ IH]; [done|]. by rewrite filter_cons_True, IH. Qed.

(** Every event of the state machine is kept. *)
Lemma transition_loop_events `{J : SerdeJson} `{D : !LoopDebug} s i ctx :
  durable_log (events (transition s i ctx)) = events (transition s i ctx).
Proof.
  apply durable_log_id.
  assert (∀ items, Forall kept (message_outputs items)) as H1 by (intros; by apply Forall_fmap, Forall_true).
  assert (∀ os, Forall kept (tool_output_event <$> os)) as H2 by (intros; by apply Forall_fmap, Forall_true).
  assert (∀ items, Forall kept (tool_call_events items)) as H3.
  { intros items. apply Forall_forall. intros ev ([] & _ & Hev)%list_elem_of_omap; by simplify_eq/=. }
  assert (∀ items, Forall kept (handoff_events ctx items)) as H4.
  { intros items. apply Forall_forall. intros ev ([] & _ & Hev)%list_elem_of_omap; simplify_eq/=; try done.
    by destruct (is_handoff_name _ _); simplify_eq. }
  unfold transition, invalid_transition, on_start, on_tool_calls, on_final_message, on_tool_results,
    on_finalizing, on_repairing, max_turns_reached, not_implemented, missing_output, completed.
  destruct s, i; repeat case_match; simpl; try apply Forall_app_2; eauto; by repeat constructor.
Qed.

Lemma transition_no_handoff `{J : SerdeJson} `{D : !LoopDebug} s i ctx :
  ctx_handoffs ctx = [] → next_action (transition s i ctx) ≠ Handoff.
Proof.
  intros Hh. unfold transition, invalid_transition, on_start, on_tool_calls, on_final_message,
    on_tool_results, on_finalizing, on_repairing, max_turns_reached, not_implemented,
    missing_output, completed.
  assert (∀ items, handoff_target ctx items = None) as Hn.
  { intros items. destruct (handoff_target ctx items) as [name|] eqn:E; [|done].
    apply handoff_target_known in E as (h & Hin & _). rewrite Hh in Hin. by apply elem_of_nil in Hin. }
  destruct s, i; repeat case_match; simplify_eq/=; try done. by rewrite Hn in *.
Qed.

Section Agree.
Context `{J : SerdeJson} `{G : Globset} `{D : !LoopDebug} `{R : !RustDebug} `{EC : !ErrorCodec}
  `{ECL : !ErrorCodecLaws} {W : Type}.
Variables (env : list (string * string)) (a : LlmAgent (W:=W)) (rt : TypedRuntime (W:=W)).
Variables (seed : option Value) (config : RunConfig) (limit : option nat).

Definition plain_agent : Prop :=
  la_hooks a = [] ∧ la_handoffs a = [] ∧ la_input_guardrails a = [] ∧ la_output_guardrails a = [].

Definition def_of : DurableAgentDef :=
  mkDurableAgentDef (la_name a) (la_instructions a) (la_model a) (la_tools a)
    (mkDurablePlan (tool_defs a) (la_model_settings a) (la_output_type a)).

(** The context of the worker, and the one the same run has in process. *)
Definition worker_ctx : RunContext (W:=W) := posture_apply (tr_posture rt) (RunContext_new []).
Definition loop_ctx : RunContext (W:=W) := with_run_config worker_ctx config.

Hypothesis plain : plain_agent.
Hypothesis registered : tr_registry rt !! la_name a = Some def_of.
Hypothesis seed_accepted : tr_ctx_factory rt seed = Ok tt.

#[local] Abbreviation acts := (agent_activities env rt (la_name a) seed).
#[local] Abbreviation ic := (interceptors a loop_ctx).
#[local] Abbreviation in_order := (λ _ : W, []).

Lemma plain_interceptors : ic = context_interceptors worker_ctx.
Proof using plain.
  destruct plain as (Hh & _ & Hi & Ho). unfold interceptors, context_interceptors, loop_ctx, worker_ctx.
  rewrite posture_apply_new, Hh, Hi, Ho. done.
Qed.

Lemma plain_fire ev (w : W) : fire ic ev w = (mkResolvedHook None None [], w).
Proof using plain.
  apply fire_no_hooks; rewrite plain_interceptors; [done|].
  unfold context_interceptors, worker_ctx. by rewrite posture_apply_new.
Qed.

Lemma plain_emit evs inj (w : W) : emit a loop_ctx evs inj w = (evs, inj, None, w).
Proof using plain.
  revert inj w. induction evs as [|ev evs IH]; intros inj w; simpl; [done|].
  destruct ev; rewrite ?plain_fire; simpl; rewrite ?app_nil_r, IH; [done..].
Qed.

(** *** The activities of the worker *)

Lemma render_agrees w : act_render_instructions acts w = (Ok (la_instructions a worker_ctx w), w).
Proof using registered seed_accepted.
  simpl. unfold resolve, run_context. by rewrite registered, seed_accepted.
Qed.

Lemma start_tool_agrees call w :
  start_tool acts call w
  = (let '(outcome, _, w') := execute_tool_call env (la_tools a) ic call w in (outcome, w')).
Proof using plain registered seed_accepted.
  unfold start_tool. simpl. unfold resolve, run_context, invoke_tool_inner.
  rewrite registered, seed_accepted, plain_interceptors. simpl.
  by destruct (execute_tool_call _ _ _ _ _) as [[outcome denial] w'].
Qed.

Lemma run_each_tools calls w :
  run_each (start_tool acts <$> calls) w
  = (let '(outcomes, _, w') := calls_in_order env (la_tools a) ic calls w in (outcomes, w')).
Proof using plain registered seed_accepted.
  revert w. induction calls as [|call calls IH]; intros w; simpl; [done|].
  rewrite start_tool_agrees. destruct (execute_tool_call _ _ _ _ _) as [[outcome denial] w1].
  rewrite IH. by destruct (calls_in_order _ _ _ _ _) as [[outcomes denials] w2].
Qed.

Lemma fold_chunks cs acc w :
  fold_left (λ x chunk,
      let '(outcomes, w) := x in
      let '(chunk_outcomes, w) := join_all (start_tool acts <$> chunk) (in_order w) w in
      (outcomes ++ chunk_outcomes, w)) cs (acc, w)
  = (let '(l, w) := run_each (start_tool acts <$> concat cs) w in (acc ++ l, w)).
Proof.
  revert acc w. induction cs as [|c cs IH]; intros acc w; simpl; [by rewrite app_nil_r|].
  rewrite join_in_order, fmap_app, run_each_app. destruct (run_each (start_tool acts <$> c) w) as [l1 w1].
  rewrite IH. destruct (run_each _ _) as [l2 w2]. by rewrite (assoc_L (++)).
Qed.

Lemma execute_tools_agrees calls w :
  execute_tool_activities acts in_order limit calls w
  = (let '(outcomes, _, w') := calls_in_order env (la_tools a) ic calls w in (outcomes, w')).
Proof using plain registered seed_accepted.
  rewrite <- run_each_tools. unfold execute_tool_activities. rewrite fold_chunks, concat_chunks; [|..].
  - by destruct (run_each _ _).
  - unfold chunk_size. destruct limit as [[|n]|]; lia.
  - done.
Qed.

Lemma observe_stream_drain stream acc : observe_stream stream acc = (drain stream acc).2.
Proof.
  revert acc. induction stream as [|[ev|e] stream IH]; intros acc; simpl; [done| |done].
  rewrite IH. by destruct (drain stream (observe acc ev)).
Qed.

Lemma act_call_model_agrees request w :
  act_call_model acts request w
  = (let '(res, w) := la_model a request w in
     (match res with
      | Err e => Err (ek_to_string (EKModel (ModelError_display e)))
      | Ok stream =>
          match (drain stream (ModelTurnAccumulator_new (la_name a))).2 with
          | Err e => Err (ek_to_string (EKModel (ModelError_display e)))
          | Ok acc =>
              match finish acc with Ok turn => Ok turn | Err message => Err (ek_to_string (EKOther message)) end
          end
      end, w)).
Proof using registered.
  simpl. unfold resolve. rewrite registered. simpl. unfold call_model_inner.
  destruct (la_model a request w) as [[stream|e] w1]; [|done]. rewrite observe_stream_drain.
  destruct (drain _ _).2 as [acc|e]; [|done]. by destruct (finish acc).
Qed.

(** *** The simulation *)

(** The loop and the machine are about to make the same transition. *)
Record simulates (l : Loop (W:=W)) (d : DurableDriver) : Prop := {
  sim_phase : dd_phase d = Driving;
  sim_state : dd_loop_state d = lp_state l;
  sim_input : dd_pending_input d = Some (lp_input l);
  sim_conversation : dd_conversation d = lp_conversation l;
  sim_injections : lp_injections l = [];
  sim_slot : (lp_run l).1 = None;
  sim_plan : dd_plan d = df_plan def_of;
  sim_turns : dc_max_turns (dd_config d) = max_turns config;
}.

Definition flow_agrees (d : DurableDriver) (w : W) (f : Flow (W:=W)) : Prop :=
  ∃ effect d1 d', next_effect d = Some (effect, d1)
  ∧ match f with
    | Continue evs l' =>
        (∀ o, effect ≠ EffFinished o)
        ∧ perform acts in_order limit effect d1 w = (d', (lp_run l').2) ∧ simulates l' d'
        ∧ dd_events d' = dd_events d ++ durable_log evs
    | Stop evs st =>
        ∃ o, perform acts in_order limit effect d1 w = (d', st.2) ∧ dd_phase d' = PhaseDone o
        ∧ (∀ o', effect = EffFinished o' → o' = o)
        ∧ do_events o = dd_events d ++ durable_log evs ∧ status_agrees st.1 (do_status o)
    end.

Lemma extract_printed kind : extract_error_kind (ek_to_string kind) = kind.
Proof using ECL. unfold extract_error_kind. by rewrite ek_round_trip. Qed.

Lemma push_no_injections request : push_injections request [] = request.
Proof. unfold push_injections. simpl. rewrite app_nil_r. by destruct request. Qed.

(** A model failure, on both sides. *)
Lemma failure_agrees d d1 effect evs w err kind :
  next_effect d = Some (effect, d1) → (∀ o, effect ≠ EffFinished o) →
  perform acts in_order limit effect d1 w.1 = (apply_model_failure d1 kind, w.2) →
  dd_events d1 = dd_events d ++ durable_log evs → kind = from_agent_error err →
  flow_agrees d w.1
    (Stop (evs ++ [RunFailed (AgentError_display (into_agent_error kind))]) (Some err, w.2)).
Proof.
  intros Hn Hf Hp He ->. eexists effect, d1, _. split; [done|]. eexists. split; [exact Hp|].
  split; [reflexivity|]. split; [intros o' Ho; by destruct (Hf o')|]. split; [|done].
  unfold durable_log in *. simpl. by rewrite He, filter_app, <- (assoc_L (++)).
Qed.

Lemma plain_output_guardrails text (w : W) : run_output_guardrails ic text w = (None, w).
Proof using plain. unfold run_output_guardrails. by rewrite plain_interceptors. Qed.

Lemma sim_ctx l d :
  simulates l d → transition_ctx d = ctx_of (plan a loop_ctx) (lp_conversation l).
Proof using plain.
  intros Hs. destruct plain as (_ & Hh & _). unfold transition_ctx, ctx_of, plan, handoff_defs.
  by rewrite (sim_plan l d Hs), (sim_turns l d Hs), (sim_conversation l d Hs), Hh.
Qed.

(** A transition that goes on: the machine after it. *)
Lemma sim_continue l d o input items inj w d1 :
  simulates l d → d1 = advance d o (next_state o) → inj = [] →
  simulates
    (mkLoop (next_state o) input ((lp_conversation l ++ conversation_appends o) ++ items) inj (None, w))
    (with_input d1 items input).
Proof.
  intros [Hp Hs Hi Hc Hj Hf Hpl Ht] -> ->. split; simpl; try done. by rewrite Hc.
Qed.

(** The three arms of the loop's body. *)
Section Arms.
Variables (l : Loop (W:=W)) (d : DurableDriver) (o : TransitionOutcome) (w : W).
Hypothesis sim : simulates l d.
Hypothesis quiet : durable_log (events o) = events o.

Lemma call_model_agrees request :
  next_effect d = Some (EffCallModel request, advance d o (next_state o)) →
  flow_agrees d w
    (call_model a (events o) request (next_state o) (lp_conversation l ++ conversation_appends o) [] (None, w)).
Proof using registered ECL sim quiet.
  intros Hne. unfold call_model. rewrite push_no_injections. simpl.
  pose proof (act_call_model_agrees request w) as Hact.
  destruct (la_model a request w) as [[stream|e] w1].
  - pose proof (drain_no_loop stream (ModelTurnAccumulator_new (la_name a))) as Hd.
    destruct (drain stream _) as [deltas res]. cbn [fst snd] in Hd, Hact.
    assert (durable_log (events o ++ deltas) = events o) as Hlog.
    { unfold durable_log in *. by rewrite filter_app, quiet, Hd, app_nil_r. }
    destruct res as [acc|e]; [destruct (finish acc) as [turn|e]|].
    + eexists _, _, _. split; [exact Hne|]. split; [done|]. cbn [perform]. rewrite Hact.
      split; [reflexivity|]. split; [by eapply (sim_continue l d o)|]. simpl. by rewrite Hlog.
    + apply (failure_agrees d _ _ (events o ++ deltas) (w, w1) (AEOther e) (EKOther e) Hne); try done.
      * cbn [perform fst]. by rewrite Hact, extract_printed.
      * simpl. by rewrite Hlog.
    + apply (failure_agrees d _ _ (events o ++ deltas) (w, w1) (AEModel e) (EKModel (ModelError_display e)) Hne);
        try done.
      * cbn [perform fst]. by rewrite Hact, extract_printed.
      * simpl. by rewrite Hlog.
  - apply (failure_agrees d _ _ (events o) (w, w1) (AEModel e) (EKModel (ModelError_display e)) Hne); try done.
    + cbn [perform fst]. by rewrite Hact, extract_printed.
    + simpl. by rewrite quiet.
Qed.

Lemma tools_agrees calls :
  next_effect d = Some (EffExecuteTools calls, advance d o (next_state o)) →
  flow_agrees d w
    (execute_tools env a loop_ctx in_order (events o) calls (next_state o)
       (lp_conversation l ++ conversation_appends o) [] (None, w)).
Proof using plain registered seed_accepted sim quiet.
  intros Hne. unfold execute_tools. simpl snd.
  pose proof (execute_tools_agrees calls w) as Hact.
  pose proof (calls_in_order_denials env (la_tools a) ic calls w) as Hd.
  assert (i_agent_hooks ic = [] ∧ i_run_hooks ic = []) as [Ha Hr].
  { rewrite plain_interceptors. unfold context_interceptors, worker_ctx. by rewrite posture_apply_new. }
  rewrite (run_tools_in_order env (la_tools a) ic _ Ha Hr).
  destruct (calls_in_order _ _ _ _ _) as [[outcomes denials] w1]. simpl in Hd.
  eexists _, _, _. split; [exact Hne|]. split; [done|]. cbn [perform]. rewrite Hact.
  split; [reflexivity|]. split; [by eapply (sim_continue l d o)|]. simpl.
  unfold durable_log in *. by rewrite filter_app, quiet, (denials_no_loop denials Hd), app_nil_r.
Qed.

Lemma terminate_agrees status :
  ends_as (next_state o) (events o) →
  status = match next_state o with
           | Done out => StatusCompleted out
           | Failed err => StatusAgentFailed (from_agent_error err)
           | other => StatusAgentFailed (EKOther ("unexpected terminal state: " +:+ debug_state other))
           end →
  next_effect d = Some (durable_finish (advance d o (dd_loop_state d)) status) →
  flow_agrees d w (terminate a loop_ctx (events o) (next_state o) (None, w)).
Proof using plain quiet.
  intros (l0 & ev & _ & _ & Hev) -> Hne. unfold terminate. rewrite plain_fire.
  destruct (next_state o); try done; simpl in Hne |- *.
  all: eexists _, _, _; split; [exact Hne|]; eexists; split; [reflexivity|].
  all: split; [reflexivity|]; split; [by intros o' [= <-]|]; simpl; rewrite quiet; split; [done|eauto].
Qed.
End Arms.

Lemma loop_body_agrees l d :
  simulates l d → flow_agrees d (lp_run l).2 (loop_body env a loop_ctx in_order l).
Proof using plain registered seed_accepted ECL.
  intros Hsim. pose proof (sim_ctx l d Hsim) as Hctx. pose proof Hsim as [Hp Hs Hi Hc Hj Hf Hpl Ht].
  unfold loop_body. set (o := transition (lp_state l) (lp_input l) (ctx_of (plan a loop_ctx) (lp_conversation l))).
  assert (∀ (x : LoopState) (w : W), match x with
      | Done out => run_output_guardrails ic (as_text out) w | _ => (None, w) end = (None, w)) as Hg.
  { intros [] w; try done. apply plain_output_guardrails. }
  destruct (lp_run l) as [slot w] eqn:Hrun. simpl in Hf. subst slot. simpl snd. rewrite Hg, plain_emit, Hj.
  pose proof (transition_loop_events (lp_state l) (lp_input l) (ctx_of (plan a loop_ctx) (lp_conversation l)))
    as Hlog. fold o in Hlog.
  assert (next_action o ≠ Handoff) as Hno.
  { apply transition_no_handoff. unfold ctx_of, plan, handoff_defs. simpl.
    by destruct plain as (_ & -> & _). }
  assert (next_effect d = Some match next_action o with
    | CallModel request => (EffCallModel request, advance d o (next_state o))
    | ExecuteTools calls => (EffExecuteTools calls, advance d o (next_state o))
    | Terminate =>
        durable_finish (advance d o (dd_loop_state d))
          match next_state o with
          | Done out => StatusCompleted out
          | Failed err => StatusAgentFailed (from_agent_error err)
          | other => StatusAgentFailed (EKOther ("unexpected terminal state: " +:+ debug_state other))
          end
    | Handoff =>
        durable_finish (advance d o (dd_loop_state d)) (StatusAgentFailed (EKHandoffUnsupported
          match next_state o with ApplyingHandoff target _ _ => target | _ => "<unknown>" end))
    end) as Hne.
  { unfold next_effect. by rewrite Hp, Hi, Hctx, Hs. }
  destruct (next_action o) as [request|calls| |] eqn:Ea; [..|done].
  - by apply (call_model_agrees l d o w).
  - by apply (tools_agrees l d o w).
  - eapply (terminate_agrees d o w); [done| |reflexivity|done]. by apply transition_ends.
Qed.

Lemma drive_agrees fuel fuel' l d evs st :
  simulates l d → drive env a loop_ctx in_order fuel l = Some (evs, st) → (S fuel ≤ fuel')%nat →
  ∃ o, run_effects acts in_order limit fuel' d (lp_run l).2 = Some (o, st.2)
    ∧ do_events o = dd_events d ++ durable_log evs ∧ status_agrees st.1 (do_status o).
Proof using plain registered seed_accepted ECL.
  revert fuel' l d evs. induction fuel as [|fuel IH]; intros fuel' l d evs Hsim Hd Hf; [done|].
  destruct fuel' as [|fuel']; [lia|]. destruct (loop_body_agrees l d Hsim) as (effect & d1 & d' & Hn & Hb).
  simpl in Hd |- *. rewrite Hn. simpl. destruct (loop_body env a loop_ctx in_order l) as [evs1 l'|evs1 st1].
  - destruct (drive env a loop_ctx in_order fuel l') as [[evs2 st2]|] eqn:Hd2; simplify_eq/=.
    destruct Hb as (Hnf & Hp & Hsim' & He).
    destruct (IH fuel' l' d' evs2 Hsim' Hd2 ltac:(lia)) as (o & Ho & Hev & Hst).
    exists o. split; [rewrite Hp; destruct effect as [| | |o']; try exact Ho; by destruct (Hnf o')|].
    split; [|done]. unfold durable_log in *. by rewrite Hev, He, filter_app, (assoc_L (++)).
  - injection Hd as <- <-. destruct Hb as (o & Hp & Hph & Hfin & He & Hst). exists o. split; [|done].
    destruct fuel' as [|fuel']; [lia|]. rewrite Hp. simpl. unfold next_effect. rewrite Hph. simpl.
    destruct effect as [| | |o']; try done. rewrite (Hfin o' eq_refl). simpl in Hp. congruence.
Qed.

Lemma plain_prologue input w :
  prologue a loop_ctx input (None, w)
  = Continue [] (mkLoop (CallingModel 0 TokenUsage_default) (Start input)
      (seed_conversation a loop_ctx input w) [] (None, w)).
Proof using plain.
  assert (handoff_defs a = []) as Hh by (unfold handoff_defs; by destruct plain as (_ & -> & _)).
  unfold prologue. rewrite Hh. simpl. rewrite plain_fire. simpl. assert (∀ text w, run_input_guardrails ic text w = (None, w)) as ->; [|done].
  intros text w0. unfold run_input_guardrails. by rewrite plain_interceptors.
Qed.
End Agree.

Lemma register_plain `{J : SerdeJson} `{G : Globset} {W : Type} registry (a : LlmAgent (W:=W)) registry' :
  register registry a = Ok registry' → plain_agent a ∧ registry' = <[la_name a := def_of a]> registry.
Proof.
  unfold register, plain_agent. repeat (case_bool_decide; [done|]). intros [= <-].
  repeat match goal with H : length _ = 0%nat |- _ => apply nil_length_inv in H end.
  by split_and!.
Qed.


Section Witnesses.
#[local] Existing Instance Toy.json.
#[local] Existing Instance Permission.Demo.globset.
#[local] Existing Instance ToolsDemo.debug.
#[local] Existing Instance DriverDemo.loop_debug.
Import DriverDemo DurableDemo.

End Witnesses.
