(* ===== verification/EventLog.v ===== *)
(** The bounded event log of the HTTP runtime: runtime-axum/src/event_log.rs.

    The log under its mutex is the record [EventLogInner]; its operations are
    functions on it.  A subscriber is a small state machine whose awaits are
    explicit, and tokio's [Notify] appears through its documented behaviour:
    a waiter that has been [enable]d is woken by every later
    [notify_waiters], one that has not is missed.  Sequence numbers ([u64])
    are natural numbers: wrapping would need 2^64 appends. *)

From Stdlib Require Import Sorted.
From S2P Require Import Prelude.

Section EventLog.
Context {Ev : Type} (is_terminal : Ev → bool).

Record EventLogInner := mkLog {
  log_events : list Ev;
  first_seq : nat;
  terminal : bool;
}.

Definition empty_log : EventLogInner := mkLog [] 0 false.

(** [None]: the constructor panics on a zero capacity. *)
Definition EventLog_new (max_events : nat) : option EventLogInner :=
  if (0 <? max_events)%nat then Some empty_log else None.

(** The eviction loop: pop the head while the ring is over capacity. *)
Fixpoint evict (max_events : nat) (evs : list Ev) (seq : nat) : list Ev * nat :=
  match evs with
  | [] => ([], seq)
  | e :: evs' =>
      if (max_events <? length evs)%nat then evict max_events evs' (S seq) else (evs, seq)
  end.

Definition append (max_events : nat) (l : EventLogInner) (ev : Ev) : EventLogInner :=
  let '(evs, seq) := evict max_events (log_events l ++ [ev]) (first_seq l) in
  mkLog evs seq (if is_terminal ev then true else terminal l).

Definition mark_terminal (l : EventLogInner) : EventLogInner :=
  mkLog (log_events l) (first_seq l) true.

Record ReadSlice := mkSlice {
  sl_first_seq : nat;
  sl_events : list Ev;
  next_cursor : nat;
  sl_terminal : bool;
}.

Definition read_from (l : EventLogInner) (cursor : nat) : ReadSlice :=
  let effective_cursor := Nat.max cursor (first_seq l) in
  let skip := (effective_cursor - first_seq l)%nat in
  let events := drop skip (log_events l) in
  mkSlice (first_seq l) events (effective_cursor + length events) (terminal l).

(** *** Subscribers

    [Idle]: between polls, with the batch still to drain.  [Registered]: the
    wakeup future is enabled, the read has not happened yet.  [Waiting]: the
    read came back empty and the future is awaited.  The boolean records that
    a [notify_waiters] hit the enabled future. *)

Inductive SubState : Type :=
| Idle (cursor : nat) (pending : list Ev) (done : bool)
| Registered (cursor : nat) (notified : bool)
| Waiting (cursor : nat) (notified : bool)
| Ended.

Definition notify (s : SubState) : SubState :=
  match s with
  | Registered c _ => Registered c true
  | Waiting c _ => Waiting c true
  | _ => s
  end.

(** One step of the subscriber: the new state and the event it yields, if any;
    [None] when it cannot move (it waits, or has ended). *)
Definition sub_step (l : EventLogInner) (s : SubState) : option (SubState * option Ev) :=
  match s with
  | Idle _ _ true => Some (Ended, None)
  | Idle c (ev :: pending) false => Some (Idle c pending (is_terminal ev), Some ev)
  | Idle c [] false => Some (Registered c false, None)
  | Registered c n =>
      let slice := read_from l c in
      match sl_events slice with
      | ev :: pending =>
          Some (Idle (next_cursor slice) pending (is_terminal ev), Some ev)
      | [] => if sl_terminal slice then Some (Ended, None) else Some (Waiting c n, None)
      end
  | Waiting c true => Some (Idle c [] false, None)
  | Waiting c false => None
  | Ended => None
  end.

Definition subscribe (from : nat) : SubState := Idle from [] false.

(** *** The log and a subscriber together

    [history] is every event ever appended, the specification of the log;
    [out] what the subscriber has yielded; [signals] the [notify_waiters] calls
    that are still to come, since a writer signals only after it has released
    the lock. *)

Record Sys := mkSys {
  s_log : EventLogInner;
  s_history : list Ev;
  s_marked : bool;
  s_sub : SubState;
  s_out : list Ev;
  s_signals : nat;
}.

Inductive step (max_events : nat) : Sys → Sys → Prop :=
| step_append l h m s out k ev :
    step max_events (mkSys l h m s out k)
      (mkSys (append max_events l ev) (h ++ [ev]) m s out (S k))
| step_mark l h m s out k :
    step max_events (mkSys l h m s out k) (mkSys (mark_terminal l) h true s out (S k))
| step_signal l h m s out k :
    step max_events (mkSys l h m s out (S k)) (mkSys l h m (notify s) out k)
| step_sub l h m s out k s' o :
    sub_step l s = Some (s', o) →
    step max_events (mkSys l h m s out k)
      (mkSys l h m s' (out ++ match o with Some ev => [ev] | None => [] end) k).

(** A subscriber may join a log that already has a history, and writers that
    have not signalled yet. *)
Inductive initial (max_events : nat) (from : nat) : Sys → Prop :=
| initial_intro h k :
    initial max_events from
      (mkSys (fold_left (append max_events) h empty_log) h false (subscribe from) [] k).

Definition reachable (max_events from : nat) (s : Sys) : Prop :=
  ∃ s0, initial max_events from s0 ∧ rtc (step max_events) s0 s.

(** ** Correctness *)

(** The log refines its history: it retains the last [max_events] events, and
    [first_seq] counts the evicted ones. *)
Definition log_of (max_events : nat) (h : list Ev) (marked : bool) (l : EventLogInner) : Prop :=
  first_seq l = (length h - max_events)%nat
  ∧ log_events l = drop (length h - max_events) h
  ∧ terminal l = (existsb is_terminal h || marked).

Lemma evict_spec n evs seq :
  evict n evs seq = (drop (length evs - n) evs, (seq + (length evs - n))%nat).
Proof.
  revert seq. induction evs as [|e evs IH]; intros seq; simpl.
  - f_equal. lia.
  - change (match n with 0%nat => false | S m' => _ end) with (n <? S (length evs))%nat.
    destruct (Nat.ltb_spec n (S (length evs))) as [Hlt|Hge]; simpl.
    + rewrite IH. destruct n as [|n]; [f_equal; [by rewrite Nat.sub_0_r|lia]|].
      replace (S (length evs) - S n)%nat with (S (length evs - S n)) by lia.
      simpl. f_equal; lia.
    + replace (S (length evs) - n)%nat with 0%nat by lia. f_equal. lia.
Qed.

Lemma log_of_new n : log_of n [] false empty_log.
Proof. by split_and!. Qed.

Lemma log_of_append n h m l ev : log_of n h m l → log_of n (h ++ [ev]) m (append n l ev).
Proof.
  intros (Hf & He & Ht). unfold append. rewrite evict_spec. unfold log_of. simpl.
  rewrite Hf, He, Ht, !length_app, length_drop. simpl. split_and!.
  - lia.
  - destruct (decide (length h < n)%nat) as [Hlt|Hge].
    + replace (length h - n)%nat with 0%nat by lia. rewrite Nat.sub_0_r, drop_0. done.
    + rewrite <- drop_app_le, drop_drop by lia. f_equal. lia.
  - rewrite existsb_app. simpl. destruct (is_terminal ev), (existsb is_terminal h); done.
Qed.

Lemma log_of_mark n h m l : log_of n h m l → log_of n h true (mark_terminal l).
Proof.
  intros (Hf & He & Ht). split_and!; [done..|]. simpl. by rewrite orb_true_r.
Qed.

Lemma log_of_fold n h : log_of n h false (fold_left (append n) h empty_log).
Proof.
  induction h as [|ev h IH] using rev_ind; [apply log_of_new|].
  rewrite fold_left_app. by apply log_of_append.
Qed.

(** Reading from a cursor gives the retained events from that point on. *)
Lemma read_from_spec n h m l c :
  log_of n h m l →
  sl_events (read_from l c) = drop (Nat.max c (length h - n)) h
  ∧ next_cursor (read_from l c) = Nat.max c (Nat.max (length h) (length h - n)).
Proof.
  intros (Hf & He & Ht). unfold read_from. simpl. rewrite Hf, He, drop_drop.
  assert (drop (length h - n + (Nat.max c (length h - n) - (length h - n))) h
    = drop (Nat.max c (length h - n)) h) as -> by (f_equal; lia).
  split; [done|]. rewrite length_drop. lia.
Qed.

(** *** What a subscriber has delivered *)

(** [out] with sequence numbers attached. *)
Definition delivered_as (h : list Ev) (from upto : nat) (seqs : list nat) (out : list Ev)
  : Prop :=
  Forall2 (λ k ev, h !! k = Some ev) seqs out
  ∧ StronglySorted lt seqs
  ∧ Forall (λ k, (from ≤ k < upto)%nat) seqs.

Definition sub_cursor (s : SubState) : option nat :=
  match s with
  | Idle c _ _ | Registered c _ | Waiting c _ => Some c
  | Ended => None
  end.

Definition sub_pending (s : SubState) : list Ev :=
  match s with Idle _ p _ => p | _ => [] end.

Lemma delivered_snoc h from upto seqs out ev upto' :
  delivered_as h from upto seqs out → h !! upto = Some ev → (from ≤ upto)%nat →
  (upto < upto')%nat → delivered_as h from upto' (seqs ++ [upto]) (out ++ [ev]).
Proof.
  intros (H1 & H2 & H3) Hev Hf Hu. split_and!.
  - apply Forall2_app; [done|]. by repeat constructor.
  - clear -H2 H3. induction H2 as [|k ks Hs IH Hlt]; simpl; [by repeat constructor|].
    apply Forall_cons in H3 as [Hk H3]. constructor; [by apply IH|].
    apply Forall_app. split; [done|]. repeat constructor. lia.
  - apply Forall_app. split; [|by repeat constructor].
    eapply Forall_weaken; [exact H3|]. simpl. lia.
Qed.

Lemma delivered_weaken h h' from upto upto' seqs out :
  delivered_as h from upto seqs out → (upto ≤ upto')%nat →
  delivered_as (h ++ h') from upto' seqs out.
Proof.
  intros (H1 & H2 & H3) Hu. split_and!; [|done|].
  - eapply Forall2_impl; [exact H1|]. simpl. intros k ev Hk. by apply lookup_app_l_Some.
  - eapply Forall_weaken; [exact H3|]. simpl. lia.
Qed.

Definition nonterminal (out : list Ev) : Prop := Forall (λ ev, is_terminal ev = false) out.

Definition ends_terminal (out : list Ev) : Prop :=
  ∃ o ev, out = o ++ [ev] ∧ is_terminal ev = true ∧ nonterminal o.

Definition out_ok (s : SubState) (out : list Ev) : Prop :=
  match s with
  | Idle _ _ true => ends_terminal out
  | Ended => nonterminal out ∨ ends_terminal out
  | _ => nonterminal out
  end.

(** The frontier: the sequence number after the last delivered one. *)
Definition frontier_ok (h : list Ev) (s : SubState) (f : nat) : Prop :=
  match s with
  | Idle c p _ => (c = f + length p)%nat ∧ ∀ i ev, p !! i = Some ev → h !! (f + i)%nat = Some ev
  | Registered c _ | Waiting c _ => c = f
  | Ended => True
  end.

Definition wakeup_ok (h : list Ev) (l : EventLogInner) (s : SubState) (k : nat) : Prop :=
  match s with
  | Waiting c false => k = 0%nat → terminal l = false ∧ (length h ≤ c)%nat
  | Ended => terminal l = true
  | _ => True
  end.

Record Inv (n from : nat) (y : Sys) : Prop := {
  inv_log : log_of n (s_history y) (s_marked y) (s_log y);
  inv_sub : ∃ f seqs,
    frontier_ok (s_history y) (s_sub y) f ∧ (from ≤ f)%nat
    ∧ delivered_as (s_history y) from f seqs (s_out y)
    ∧ (∀ k, (from ≤ k < f)%nat → k ∈ seqs ∨ (k < first_seq (s_log y))%nat);
  inv_out : out_ok (s_sub y) (s_out y);
  inv_in_log : ∀ ev, ev ∈ s_out y → ev ∈ s_history y;
  inv_wakeup : wakeup_ok (s_history y) (s_log y) (s_sub y) (s_signals y);
}.

Lemma frontier_weaken h h' s f : frontier_ok h s f → frontier_ok (h ++ h') s f.
Proof.
  destruct s as [c p d|c b|c b|]; simpl; try done. intros [Hc Hp]. split; [done|].
  intros i ev Hi. by apply lookup_app_l_Some, Hp.
Qed.

Lemma Inv_append n from l h m s out k ev :
  Inv n from (mkSys l h m s out k) →
  Inv n from (mkSys (append n l ev) (h ++ [ev]) m s out (S k)).
Proof.
  intros [Hl (f & seqs & Hf & Hle & Hd & Hg) Ho Hi Hw]; simpl in *.
  pose proof (log_of_append n h m l ev Hl) as Hl'. split; simpl; [done| |done| |].
  - exists f, seqs. split_and!; [by apply frontier_weaken|done|by eapply delivered_weaken|].
    intros q Hq. destruct (Hg q Hq) as [?|Hev]; [by left|right].
    destruct Hl as (Hfs & _), Hl' as (Hfs' & _).
    rewrite Hfs in Hev. rewrite Hfs', length_app. simpl. lia.
  - intros e He. apply elem_of_app. left. by apply Hi.
  - destruct s as [c p d|c b|c []|]; simpl in *; try done.
    destruct Hl' as (_ & _ & ->), Hl as (_ & _ & Ht). rewrite existsb_app, Ht in *.
    simpl. by destruct (existsb is_terminal h), m, (is_terminal ev).
Qed.

Lemma Inv_mark n from l h m s out k :
  Inv n from (mkSys l h m s out k) →
  Inv n from (mkSys (mark_terminal l) h true s out (S k)).
Proof.
  intros [Hl (f & seqs & Hf & Hle & Hd & Hg) Ho Hi Hw]; simpl in *.
  split; simpl; [by eapply log_of_mark| |done|done|].
  - by exists f, seqs.
  - by destruct s as [c p d|c b|c []|].
Qed.

Lemma Inv_signal n from l h m s out k :
  Inv n from (mkSys l h m s out (S k)) → Inv n from (mkSys l h m (notify s) out k).
Proof.
  intros [Hl (f & seqs & Hf & Hle & Hd & Hg) Ho Hi Hw]; simpl in *.
  split; simpl; [done| | |done|].
  - exists f, seqs. split_and!; try done. by destruct s.
  - by destruct s as [c p []| | |].
  - by destruct s as [c p d|c b|c []|].
Qed.

(** Yielding the event at the frontier. *)
Lemma out_yield (out : list Ev) ev :
  nonterminal out →
  (if is_terminal ev then ends_terminal (out ++ [ev]) else nonterminal (out ++ [ev])).
Proof.
  intros Ho. destruct (is_terminal ev) eqn:E; [by exists out, ev|].
  apply Forall_app. by repeat constructor.
Qed.

Lemma Inv_sub n from l h m s out k s' o :
  (0 < n)%nat → sub_step l s = Some (s', o) → Inv n from (mkSys l h m s out k) →
  Inv n from (mkSys l h m s' (out ++ match o with Some ev => [ev] | None => [] end) k).
Proof.
  intros Hn Hs [Hl (f & seqs & Hf & Hle & Hd & Hg) Ho Hi Hw]; simpl in *.
  destruct s as [c [|ev p] []|c b|c []|]; simpl in Hs; simplify_eq; simpl in *;
    rewrite ?app_nil_r.
  - split; simpl; try done; [by exists f, seqs|by right|].
    destruct Ho as (o & ev & -> & Hev & _). destruct Hl as (_ & _ & ->).
    apply orb_true_iff. left. apply existsb_Exists. exists ev. split; [|done].
    apply Hi, elem_of_app. right. apply list_elem_of_here.
  - destruct Hf as [-> Hp]. split; simpl; try done. exists f, seqs.
    split_and!; [by rewrite Nat.add_0_r|done..].
  - split; simpl; try done; [by exists f, seqs|by right|].
    destruct Ho as (o & e & -> & Hev & _). destruct Hl as (_ & _ & ->).
    apply orb_true_iff. left. apply existsb_Exists. exists e. split; [|done].
    apply Hi, elem_of_app. right. apply list_elem_of_here.
  - destruct Hf as [-> Hp]. pose proof (Hp 0%nat ev eq_refl) as Hev.
    rewrite Nat.add_0_r in Hev. split; simpl; [done| | | |done].
    + exists (S f), (seqs ++ [f]). split; [|split; [lia|split]].
      * split; [simpl; lia|]. intros i e Hie. replace (S f + i)%nat with (f + S i)%nat by lia. by apply Hp.
      * eapply delivered_snoc; [done..|lia].
      * intros j Hj. destruct (decide (j = f)) as [->|]; [left; set_solver|].
        destruct (Hg j ltac:(lia)); [left; set_solver|by right].
    + pose proof (out_yield out ev Ho) as Hy. by destruct (is_terminal ev).
    + intros e [He|He]%elem_of_app; [by apply Hi|].
      apply list_elem_of_singleton in He as ->. by eapply list_elem_of_lookup_2.
  - subst f. pose proof (read_from_spec n h m l c Hl) as [He Hc].
    unfold read_from in *. simpl in *.
    destruct (drop (Nat.max c (first_seq l) - first_seq l) (log_events l)) as [|ev p] eqn:E.
    + destruct (terminal l) eqn:Ht; simplify_eq; rewrite app_nil_r; split; simpl; try done;
        try (by exists c, seqs); try (by left).
      destruct b; [done|]. intros _. split; [done|]. symmetry in He.
      apply (f_equal length) in He. rewrite length_drop in He. simpl in He. lia.
    + simplify_eq/=. set (q := Nat.max c (length h - n)) in *.
      assert (∀ i, (ev :: p) !! i = h !! (q + i)%nat) as Hlk.
      { intros i. by rewrite He, lookup_drop. }
      assert (h !! q = Some ev) as Hev.
      { specialize (Hlk 0%nat). by rewrite Nat.add_0_r in Hlk. }
      pose proof (lookup_lt_Some _ _ _ Hev) as Hq.
      assert (length (ev :: p) = length h - q)%nat as Hlen.
      { by rewrite He, length_drop. }
      simpl in Hlen. destruct Hl as (Hfs & Hle' & Ht'). split; simpl; [by split_and!| | | |done].
      * exists (S q), (seqs ++ [q]). split; [|split; [lia|split]].
        -- split; [lia|]. intros i e Hie. replace (S q + i)%nat with (q + S i)%nat by lia. by rewrite <- Hlk.
        -- destruct Hd as (D1 & D2 & D3).
           eapply (delivered_snoc h from q); [|done|lia..].
           split_and!; [done..|]. eapply Forall_weaken; [exact D3|]. simpl. lia.
        -- intros j Hj. destruct (decide (j = q)) as [->|]; [left; set_solver|].
           destruct (decide (j < c)%nat) as [Hjc|Hjc]; [|right; lia].
           destruct (Hg j ltac:(lia)); [left; set_solver|by right].
      * pose proof (out_yield out ev Ho) as Hy. by destruct (is_terminal ev).
      * intros e [Hin|Hin]%elem_of_app; [by apply Hi|].
        apply list_elem_of_singleton in Hin as ->. by eapply list_elem_of_lookup_2.
  - split; simpl; try done. exists c, seqs. subst f.
    split_and!; [by rewrite Nat.add_0_r|done..].
Qed.

Lemma Inv_initial n from y : initial n from y → Inv n from y.
Proof.
  intros [h k]. split; simpl; [apply log_of_fold| |constructor| |done].
  - exists from, []. split; [split; [simpl; lia|done]|]. split; [done|]. split; [|lia].
    split_and!; constructor.
  - intros ev []%elem_of_nil.
Qed.

Lemma Inv_step n from y y' : (0 < n)%nat → step n y y' → Inv n from y → Inv n from y'.
Proof.
  intros Hn [l h m s out k ev|l h m s out k|l h m s out k|l h m s out k s' o Hs] HI;
    [by apply Inv_append|by eapply Inv_mark|by eapply Inv_signal|by eapply Inv_sub].
Qed.

Lemma Inv_reachable n from y : (0 < n)%nat → reachable n from y → Inv n from y.
Proof.
  intros Hn (y0 & H0 & Hr). apply Inv_initial in H0.
  induction Hr as [|y0 y1 y2 Hs _ IH]; [done|]. eauto using Inv_step.
Qed.

(** *** Draining a finished log *)

Definition unread (l : EventLogInner) (c : nat) : nat := length (sl_events (read_from l c)).

Definition drain_measure (l : EventLogInner) (s : SubState) : nat :=
  match s with
  | Idle _ p true => S (length p)
  | Idle c p false => length p + 2 * unread l c + 3
  | Registered c _ => 2 * unread l c + 2
  | Waiting c true => 2 * unread l c + 4
  | Waiting c false => 2 * unread l c + 5
  | Ended => 0
  end.

Lemma unread_after_read l c : unread l (next_cursor (read_from l c)) = 0%nat.
Proof.
  unfold unread, read_from. simpl. rewrite !length_drop. lia.
Qed.

Lemma sub_step_measure l s s' o :
  terminal l = true → sub_step l s = Some (s', o) → (drain_measure l s' < drain_measure l s)%nat.
Proof.
  intros Ht. destruct s as [c [|ev p] []|c b|c []|]; simpl; intros Hs; simplify_eq; simpl;
    try lia.
  - destruct (is_terminal ev); simpl; lia.
  - destruct (drop (Nat.max c (first_seq l) - first_seq l) (log_events l)) as [|ev p] eqn:E.
    + rewrite Ht in Hs. simplify_eq. simpl. lia.
    + injection Hs as <- <-. pose proof (unread_after_read l c) as Hz.
      assert (unread l c = S (length p)) as Hu by (unfold unread, read_from; simpl; by rewrite E).
      unfold read_from in Hz. simpl in Hz. rewrite E in Hz. simpl in Hz.
      destruct (is_terminal ev); simpl; rewrite ?Hz, ?Hu; lia.
Qed.

Lemma drain_finished n from y :
  (0 < n)%nat → Inv n from y → terminal (s_log y) = true →
  ∃ y', rtc (step n) y y' ∧ s_sub y' = Ended ∧ s_history y' = s_history y.
Proof.
  intros Hn. remember (drain_measure (s_log y) (s_sub y)) as k eqn:Hk.
  revert y Hk. induction (lt_wf k) as [k _ IH]. intros [l h m s out sig] Hk HI Ht. simpl in *.
  destruct (sub_step l s) as [[s' o]|] eqn:Hs.
  - pose proof (sub_step_measure _ _ _ _ Ht Hs) as Hlt.
    destruct (IH (drain_measure l s') ltac:(lia)
      (mkSys l h m s' (out ++ match o with Some ev => [ev] | None => [] end) sig) eq_refl)
      as (y' & Hr & He & Hh); [by eapply Inv_sub|done|].
    exists y'. split_and!; [|done|done]. eapply rtc_l; [by apply step_sub|done].
  - destruct s as [c [|ev p] []|c b|c []|]; simpl in Hs; simplify_eq.
    + repeat case_match; simplify_eq.
    + destruct sig as [|sig].
      { destruct HI as [_ _ _ _ Hw]. simpl in Hw. destruct (Hw eq_refl). congruence. }
      destruct (IH (drain_measure l (Waiting c true)) ltac:(simpl; lia)
        (mkSys l h m (Waiting c true) out sig) eq_refl) as (y' & Hr & He & Hh);
        [by apply Inv_signal in HI|done|].
      exists y'. split_and!; [|done|done].
      eapply rtc_l; [exact (step_signal n l h m (Waiting c false) out sig)|done].
    + by eexists.
Qed.
End EventLog.

(** C19. The ring refines the full history of appends: after any appends it
    retains exactly the last [max_events] events, a read from a cursor returns
    the retained events from that point on together with the cursor to resume
    from, and the terminal flag is set exactly when a terminal event was
    appended. *)
Theorem event_log_refines {Ev} (is_terminal : Ev → bool) max_events l0 h cursor :
  EventLog_new max_events = Some l0 →
  let l := fold_left (append is_terminal max_events) h l0 in
  log_events l = drop (length h - max_events) h
  ∧ first_seq l = (length h - max_events)%nat
  ∧ terminal l = existsb is_terminal h
  ∧ sl_events (read_from l cursor) = drop (Nat.max cursor (length h - max_events)) h
  ∧ next_cursor (read_from l cursor) = Nat.max cursor (length h).
Proof.
  intros Hnew l. unfold EventLog_new in Hnew. case_match; simplify_eq.
  pose proof (log_of_fold is_terminal max_events h) as Hl.
  pose proof (read_from_spec _ _ _ _ _ cursor Hl) as [Hr Hc].
  destruct Hl as (Hf & He & Ht). rewrite orb_false_r in Ht.
  split_and!; [done..|]. fold l in Hc. rewrite Hc. lia.
Qed.

(** Under every interleaving with appends, a subscriber yields events of
    the history in strictly increasing sequence order from its start cursor,
    without duplicates; it skips an event only when the ring had evicted it,
    and a terminal event is the last one it yields. *)
Theorem subscriber_delivers {Ev} (is_terminal : Ev → bool) max_events from y :
  (0 < max_events)%nat →
  reachable is_terminal max_events from y →
  ∃ upto seqs,
    delivered_as (s_history y) from upto seqs (s_out y)
    ∧ (∀ k, (from ≤ k < upto)%nat → k ∈ seqs ∨ (k < first_seq (s_log y))%nat)
    ∧ (nonterminal is_terminal (s_out y) ∨ ends_terminal is_terminal (s_out y)).
Proof.
  intros Hn Hr. destruct (Inv_reachable _ _ _ _ Hn Hr) as [_ (f & seqs & _ & _ & Hd & Hg) Ho _ _].
  exists f, seqs. split_and!; [done..|]. destruct (s_sub y) as [? ? []| | |]; simpl in Ho; auto.
Qed.

(** C20. No wakeup is lost: a subscriber that sleeps unnotified, while no
    writer has still to signal, has nothing left to read and the run is not
    over. *)
Theorem no_lost_wakeup {Ev} (is_terminal : Ev → bool) max_events from y c :
  (0 < max_events)%nat →
  reachable is_terminal max_events from y →
  s_sub y = Waiting c false →
  s_signals y = 0%nat →
  sl_events (read_from (s_log y) c) = [] ∧ terminal (s_log y) = false.
Proof.
  intros Hn Hr Hs Hk. destruct (Inv_reachable _ _ _ _ Hn Hr) as [Hl _ _ _ Hw].
  rewrite Hs in Hw. destruct (Hw Hk) as [Ht Hc]. split; [|done].
  destruct (read_from_spec _ _ _ _ _ c Hl) as [-> _]. apply drop_ge. lia.
Qed.

(** Every subscriber of a finished log terminates: from any reachable
    state in which the log is terminal it can run to its end, and no infinite
    run of subscriber steps exists, each one decreasing [drain_measure]. *)
Theorem subscriber_terminates {Ev} (is_terminal : Ev → bool) max_events from y :
  (0 < max_events)%nat →
  reachable is_terminal max_events from y →
  terminal (s_log y) = true →
  (∃ y', rtc (step is_terminal max_events) y y' ∧ s_sub y' = Ended
     ∧ s_history y' = s_history y)
  ∧ ∀ s' o, sub_step is_terminal (s_log y) (s_sub y) = Some (s', o) →
      (drain_measure (s_log y) s' < drain_measure (s_log y) (s_sub y))%nat.
Proof.
  intros Hn Hr Ht. split; [|intros; by eapply sub_step_measure].
  eapply drain_finished; [done| |done]. by apply Inv_reachable.
Qed.

(** *** A concrete run: three events in a ring of two, a late subscriber *)

Definition ev_terminal (n : nat) : bool := (n =? 9)%nat.

Definition demo_start : Sys :=
  mkSys (fold_left (append ev_terminal 2) [1; 2; 3]%nat empty_log) [1; 2; 3]%nat false
    (subscribe 0) [] 0.

Definition demo_waiting : Sys :=
  mkSys (mkLog [2; 3]%nat 1 false) [1; 2; 3]%nat false (Waiting 3 false) [2; 3]%nat 0.

Definition demo_final : Sys :=
  mkSys (mkLog [3; 9]%nat 2 true) [1; 2; 3; 9]%nat false (Waiting 3 false) [2; 3]%nat 1.

Lemma demo_waiting_reachable : reachable ev_terminal 2 0 demo_waiting.
Proof.
  exists demo_start. split; [apply (initial_intro ev_terminal 2 0 [1; 2; 3]%nat 0)|].
  do 5 (eapply rtc_l; [apply step_sub; vm_compute; reflexivity|]). apply rtc_refl.
Qed.

Lemma demo_final_reachable : reachable ev_terminal 2 0 demo_final.
Proof.
  destruct demo_waiting_reachable as (y0 & H0 & Hr). exists y0. split; [done|].
  eapply rtc_r; [exact Hr|].
  exact (step_append ev_terminal 2 (mkLog [2; 3]%nat 1 false) [1; 2; 3]%nat false
    (Waiting 3 false) [2; 3]%nat 0 9%nat).
Qed.

Lemma event_log_refines_witness :
  sl_events (read_from (fold_left (append ev_terminal 2) [1; 2; 3]%nat empty_log) 0) = [2; 3]%nat.
Proof.
  destruct (event_log_refines ev_terminal 2 empty_log [1; 2; 3]%nat 0 eq_refl)
    as (_ & _ & _ & Hr & _).
  exact Hr.
Defined.

Lemma subscriber_delivers_witness :
  s_out demo_final = [2; 3]%nat ∧ ∃ upto seqs,
    delivered_as (s_history demo_final) 0 upto seqs (s_out demo_final).
Proof.
  split; [reflexivity|].
  destruct (subscriber_delivers ev_terminal 2 0 demo_final ltac:(lia) demo_final_reachable)
    as (upto & seqs & Hd & _).
  exists upto, seqs. exact Hd.
Defined.

Lemma no_lost_wakeup_witness :
  sl_events (read_from (s_log demo_waiting) 3) = [] ∧ terminal (s_log demo_waiting) = false.
Proof.
  exact (no_lost_wakeup ev_terminal 2 0 demo_waiting 3 ltac:(lia) demo_waiting_reachable eq_refl
    eq_refl).
Defined.

Lemma subscriber_terminates_witness :
  ∃ y', rtc (step ev_terminal 2) demo_final y' ∧ s_sub y' = Ended.
Proof.
  destruct (subscriber_terminates ev_terminal 2 0 demo_final ltac:(lia) demo_final_reachable
    eq_refl) as [(y' & Hr & He & _) _].
  exists y'. split; [exact Hr|exact He].
Defined.
