(* ===== verification/Registry.v ===== *)
(** The run registry of the HTTP runtime: runtime-axum/src/registry.rs.

    [RegistryInner] is the state under the registry's lock; every operation
    holds that lock for its whole body, so an operation is one function on it.
    Run ids are an arbitrary countable type, and [Uuid::new_v4] an argument of
    [create].  An [Instant] is an integer, [checked_add] fails past
    [instant_max].  The iteration order of the [HashMap] is the parameter
    [iter]: the theorems hold for every order. *)

From S2P Require Import Prelude Items EventLog.

(** runtime-axum/src/error.rs, the errors of the server. *)
Record AuthRejection := mkAuthRejection { rej_status : Z; rej_message : string }.

Inductive ServerError :=
| UnknownAgent (name : string)
| BadRequest (msg : string)
| Unauthorized (rej : AuthRejection)
| RunStart (msg : string)
| Unavailable (msg : string)
| Internal (msg : string).

Section Registry.
Context `{J : Json.SerdeJson} `{Countable Id}.

(** What the registry keeps of a run.  The cancellation token is its flag. *)
Record RunHandle := mkHandle {
  agent_name : string;
  principal : option string;
  handle_log : @EventLogInner AgentEvent;
  cancelled : bool;
  start_error : option string;
  terminal_at : option Z;
  created_at : Z;
}.

Record RegistryInner := mkRegistry {
  runs : gmap Id RunHandle;
  completion_order : list Id;
  live : nat;
}.

Record RunRegistry := mkConfig {
  ttl : Z;
  max_runs : nat;
  max_events_per_run : nat;
  max_in_flight : nat;
  max_run_duration : Z;
}.

Context (cfg : RunRegistry) (instant_max : Z) (iter : gmap Id RunHandle → list (Id * RunHandle)).

Definition RunRegistry_new : RegistryInner := mkRegistry ∅ [] 0.

Definition PUBLIC_RUN_FAILED_TO_START : string := "run failed to start".
Definition PUBLIC_RUN_NO_TERMINAL : string := "run ended before producing a terminal event".

Definition synthetic_terminal_frame (h : RunHandle) (saw_terminal : bool) : option AgentEvent :=
  if saw_terminal then None
  else Some (RunFailed
    match start_error h with
    | Some _ => PUBLIC_RUN_FAILED_TO_START
    | None => PUBLIC_RUN_NO_TERMINAL
    end).

(** [None]: [EventLog::new] panics. *)
Definition create (r : RegistryInner) (id : Id) (now : Z) (name : string) (who : option string)
  : option (RegistryInner * result (Id * RunHandle) ServerError) :=
  if (max_in_flight cfg <=? live r)%nat then
    Some (r, Err (Unavailable "in-flight run limit reached"))
  else
    log ← EventLog_new (max_events_per_run cfg);
    let h := mkHandle name who log false None None now in
    Some (mkRegistry (<[id:=h]> (runs r)) (completion_order r) (S (live r)), Ok (id, h)).

Definition get (r : RegistryInner) (id : Id) : option RunHandle := runs r !! id.

Definition set_terminal (t : Z) (h : RunHandle) : RunHandle :=
  mkHandle (agent_name h) (principal h) (handle_log h) (cancelled h) (start_error h) (Some t)
    (created_at h).

Definition set_cancelled (h : RunHandle) : RunHandle :=
  mkHandle (agent_name h) (principal h) (handle_log h) true (start_error h) (terminal_at h)
    (created_at h).

(** Stamp a handle that is not terminal yet, queue it and release its slot. *)
Definition stamp (now : Z) (r : RegistryInner) (id : Id) (h : RunHandle) : RegistryInner :=
  match terminal_at h with
  | None =>
      mkRegistry (<[id:=set_terminal now h]> (runs r)) (completion_order r ++ [id])
        (live r - 1)
  | Some _ => mkRegistry (<[id:=h]> (runs r)) (completion_order r) (live r)
  end.

Definition note_terminal (r : RegistryInner) (id : Id) (now : Z) : RegistryInner :=
  match runs r !! id with
  | None => r
  | Some h => stamp now r id h
  end.

(** *** Sweeping *)

Definition checked_add (t d : Z) : option Z :=
  if (t + d <=? instant_max)%Z then Some (t + d)%Z else None.

Definition elapsed (t d now : Z) : bool :=
  match checked_add t d with Some deadline => (deadline <=? now)%Z | None => false end.

Definition running (h : RunHandle) : bool :=
  match terminal_at h with None => true | Some _ => false end.

Definition is_overdue (now : Z) (h : RunHandle) : bool :=
  running h && elapsed (created_at h) (max_run_duration cfg) now.

Definition is_expired (now : Z) (h : RunHandle) : bool :=
  match terminal_at h with
  | Some t => elapsed t (ttl cfg) now
  | None => false
  end.

(** Pass 0. *)
Definition overdue_ids (now : Z) (m : gmap Id RunHandle) : list Id :=
  (filter (λ p, is_overdue now p.2) (iter m)).*1.

Definition reclaim (now : Z) (r : RegistryInner) (id : Id) : RegistryInner :=
  match runs r !! id with
  | None => r
  | Some h => stamp now r id (set_cancelled h)
  end.

Definition pass0 (now : Z) (r : RegistryInner) : RegistryInner :=
  fold_left (reclaim now) (overdue_ids now (runs r)) r.

(** Pass 1. *)
Definition pass1 (now : Z) (r : RegistryInner) : RegistryInner :=
  let evicted : gset Id := dom (filter (λ p, is_expired now p.2) (runs r)) in
  mkRegistry (filter (λ p, ¬ is_expired now p.2) (runs r))
    (filter (λ id, id ∉ evicted) (completion_order r)) (live r).

(** Pass 2: both loops, by recursion on the queue they pop. *)
Definition terminal_count (m : gmap Id RunHandle) : nat :=
  size (filter (λ p, ¬ running p.2) m).

Fixpoint cap_loop (count : nat) (m : gmap Id RunHandle) (q : list Id)
  : gmap Id RunHandle * list Id :=
  if (max_runs cfg <? count)%nat then
    match q with
    | [] => (m, [])
    | id :: q' =>
        match m !! id with
        | Some _ => cap_loop (count - 1) (delete id m) q'
        | None => cap_loop count m q'
        end
    end
  else (m, q).

Definition pass2 (r : RegistryInner) : RegistryInner :=
  let '(m, q) := cap_loop (terminal_count (runs r)) (runs r) (completion_order r) in
  mkRegistry m q (live r).

Definition sweep (r : RegistryInner) (now : Z) : RegistryInner := pass2 (pass1 now (pass0 now r)).

(** ** The invariant *)

Definition running_count (m : gmap Id RunHandle) : nat := size (filter (λ p, running p.2) m).

(** The queue holds exactly the terminal runs. *)
Definition queue_ok (m : gmap Id RunHandle) (q : list Id) : Prop :=
  NoDup q ∧ ∀ id, id ∈ q ↔ ∃ h, m !! id = Some h ∧ running h = false.

Record registry_ok (r : RegistryInner) : Prop := {
  ok_queue : queue_ok (runs r) (completion_order r);
  ok_live : live r = running_count (runs r);
}.

(** Every way the server changes the registry.  The log, the cancellation flag
    and the start error of a run are behind locks of their own. *)
Inductive registry_step : RegistryInner → RegistryInner → Prop :=
| step_create r r' id now name who res :
    runs r !! id = None →
    create r id now name who = Some (r', res) → registry_step r r'
| step_note r id now : registry_step r (note_terminal r id now)
| step_sweep r now : registry_step r (sweep r now)
| step_handle r id h l c e :
    runs r !! id = Some h →
    registry_step r
      (mkRegistry (<[id:=mkHandle (agent_name h) (principal h) l c e (terminal_at h)
                          (created_at h)]> (runs r)) (completion_order r) (live r)).

Definition registry_reachable (r : RegistryInner) : Prop := rtc registry_step RunRegistry_new r.

(** ** Lemmas *)


Lemma running_count_insert m id h h' :
  m !! id = Some h → running h' = running h →
  running_count (<[id:=h']> m) = running_count m.
Proof.
  intros Hm Hr. unfold running_count. destruct (running h) eqn:E.
  - rewrite map_filter_insert_True by by apply Is_true_iff.
    rewrite map_size_insert_Some; [done|]. exists h. apply map_lookup_filter_Some.
    split; [done|]. by apply Is_true_iff.
  - rewrite map_filter_insert_not'; [done|by apply not_Is_true_iff|].
    intros y Hy. simplify_eq. by apply not_Is_true_iff.
Qed.

Lemma running_count_stop m id h h' :
  m !! id = Some h → running h = true → running h' = false →
  running_count (<[id:=h']> m) = (running_count m - 1)%nat.
Proof.
  intros Hm Hr Hr'. unfold running_count.
  rewrite map_filter_insert_False, map_filter_delete by by apply not_Is_true_iff.
  rewrite map_size_delete_Some; [lia|]. exists h. apply map_lookup_filter_Some.
  split; [done|]. by apply Is_true_iff.
Qed.

Lemma running_count_start m id h :
  m !! id = None → running h = true → running_count (<[id:=h]> m) = S (running_count m).
Proof.
  intros Hm Hr. unfold running_count.
  rewrite map_filter_insert_True by by apply Is_true_iff.
  apply map_size_insert_None. apply map_lookup_filter_None. by left.
Qed.

(** Replacing a terminal entry by a terminal one, or a running one by a running
    one, keeps the queue correct. *)
Lemma queue_ok_insert m q id h h' :
  m !! id = Some h → running h' = running h → queue_ok m q → queue_ok (<[id:=h']> m) q.
Proof.
  intros Hm Hr [Hn Hq]. split; [done|]. intros i. rewrite Hq.
  destruct (decide (i = id)) as [->|Hne].
  - rewrite lookup_insert_eq. split; intros (? & ? & ?); simplify_eq; eexists; split;
      [done|congruence|done|congruence].
  - by rewrite lookup_insert_ne.
Qed.

Lemma queue_ok_start m q id h :
  m !! id = None → running h = true → queue_ok m q → queue_ok (<[id:=h]> m) q.
Proof.
  intros Hm Hr [Hn Hq]. split; [done|]. intros i. rewrite Hq.
  destruct (decide (i = id)) as [->|Hne].
  - rewrite lookup_insert_eq. split; intros (? & ? & ?); congruence.
  - by rewrite lookup_insert_ne.
Qed.

Lemma queue_ok_stop m q id h h' :
  m !! id = Some h → running h = true → running h' = false → queue_ok m q →
  queue_ok (<[id:=h']> m) (q ++ [id]).
Proof.
  intros Hm Hr Hr' [Hn Hq].
  assert (id ∉ q) as Hid by (intros (? & ? & ?)%Hq; congruence).
  split.
  - apply NoDup_app. split; [done|]. split; [set_solver|apply NoDup_singleton].
  - intros i. rewrite elem_of_app, list_elem_of_singleton, Hq.
    destruct (decide (i = id)) as [->|Hne].
    + rewrite lookup_insert_eq. split; [by eauto|by right].
    + rewrite lookup_insert_ne by done. naive_solver.
Qed.

Lemma running_set_cancelled h : running (set_cancelled h) = running h.
Proof. done. Qed.

(** Stamping an entry, possibly cancelled on the way. *)
Lemma stamp_ok now r id h h' :
  runs r !! id = Some h → running h' = running h →
  registry_ok r → registry_ok (stamp now r id h').
Proof.
  intros Hm Hr [Hq Hl]. unfold stamp. destruct (terminal_at h') eqn:Ht.
  - split; simpl; [by eapply queue_ok_insert|]. by erewrite running_count_insert.
  - assert (running h = true) as Hrun by (rewrite <- Hr; unfold running; by rewrite Ht).
    split; simpl; [by eapply queue_ok_stop|]. by erewrite running_count_stop, Hl.
Qed.

Lemma note_terminal_ok r id now : registry_ok r → registry_ok (note_terminal r id now).
Proof.
  intros Hr. unfold note_terminal. destruct (runs r !! id) eqn:E; [|done].
  by eapply stamp_ok.
Qed.

Lemma reclaim_ok now r id : registry_ok r → registry_ok (reclaim now r id).
Proof.
  intros Hr. unfold reclaim. destruct (runs r !! id) eqn:E; [|done].
  by eapply stamp_ok.
Qed.

Lemma pass0_ok now r : registry_ok r → registry_ok (pass0 now r).
Proof.
  unfold pass0. generalize (overdue_ids now (runs r)). intros ids. revert r.
  induction ids as [|id ids IH]; intros r Hr; simpl; [done|]. by apply IH, reclaim_ok.
Qed.

Lemma reclaim_running now r id h :
  runs r !! id = Some h → running h = true →
  reclaim now r id =
    mkRegistry (<[id:=set_terminal now (set_cancelled h)]> (runs r)) (completion_order r ++ [id])
      (live r - 1).
Proof.
  intros Hm Hr. unfold reclaim, stamp. rewrite Hm. unfold running in Hr. simpl.
  by destruct (terminal_at h).
Qed.

(** Reclaiming distinct running ids stamps and cancels exactly those. *)
Lemma reclaim_all now ids r :
  NoDup ids → (∀ id, id ∈ ids → ∃ h, runs r !! id = Some h ∧ running h = true) →
  let r' := fold_left (reclaim now) ids r in
  completion_order r' = completion_order r ++ ids
  ∧ ∀ i, runs r' !! i =
      if decide (i ∈ ids) then (λ h, set_terminal now (set_cancelled h)) <$> runs r !! i
      else runs r !! i.
Proof.
  revert r. induction ids as [|id ids IH]; intros r Hn Hids; simpl.
  - by rewrite app_nil_r.
  - apply NoDup_cons in Hn as [Hid Hn].
    destruct (Hids id ltac:(set_solver)) as (h & Hm & Hr).
    rewrite (reclaim_running _ _ _ _ Hm Hr).
    destruct (IH (mkRegistry (<[id:=set_terminal now (set_cancelled h)]> (runs r))
      (completion_order r ++ [id]) (live r - 1))) as [Hq Hl]; [done| |].
    { intros i Hi. simpl. rewrite lookup_insert_ne by (by intros ->). apply Hids. set_solver. }
    simpl in *. rewrite Hq, <- app_assoc. split; [done|]. intros i. rewrite Hl.
    destruct (decide (i = id)) as [->|Hne].
    + rewrite (decide_False (P:=id ∈ ids)) by done.
      rewrite decide_True, lookup_insert_eq, Hm by set_solver. done.
    + rewrite lookup_insert_ne by done.
      destruct (decide (i ∈ ids)); [rewrite decide_True by set_solver|rewrite decide_False by set_solver];
        done.
Qed.

Lemma pass1_ok now r : registry_ok r → registry_ok (pass1 now r).
Proof.
  intros [[Hn Hq] Hl]. split; simpl.
  - split; [by apply NoDup_filter|]. intros id. rewrite list_elem_of_filter, Hq.
    rewrite not_elem_of_dom, map_lookup_filter_None.
    setoid_rewrite map_lookup_filter_Some. split.
    + intros [[Hnone|Hne] (h & Hm & Hr)]; [congruence|]. exists h. by auto.
    + intros (h & [Hm Hne] & Hr). split; [|by eauto]. right. intros h' Hm'. by simplify_eq.
  - rewrite Hl. unfold running_count. f_equal. rewrite map_filter_filter.
    apply map_filter_ext. intros id h Hm. simpl. unfold is_expired, running.
    destruct (terminal_at h); simpl; naive_solver.
Qed.

(** The queue counts the terminal runs. *)
Lemma queue_length m q : queue_ok m q → terminal_count m = length q.
Proof.
  intros [Hn Hq]. unfold terminal_count. rewrite <- size_dom.
  rewrite <- (size_list_to_set (C:=gset Id) q Hn). f_equal. apply leibniz_equiv. intros id.
  rewrite elem_of_dom, elem_of_list_to_set, Hq. unfold is_Some.
  setoid_rewrite map_lookup_filter_Some. simpl. by setoid_rewrite not_Is_true_iff.
Qed.

(** The cap loop drops the oldest queue entries beyond the cap. *)
Lemma cap_loop_spec m q :
  NoDup q → (∀ id, id ∈ q → is_Some (m !! id)) →
  cap_loop (length q) m q =
    (foldl (flip delete) m (take (length q - max_runs cfg) q), drop (length q - max_runs cfg) q).
Proof.
  revert m. induction q as [|id q IH]; intros m Hn Hq.
  - simpl. by destruct (max_runs cfg).
  - apply NoDup_cons in Hn as [Hid Hn]. cbn [cap_loop length].
    destruct (Nat.ltb_spec (max_runs cfg) (S (length q))) as [Hlt|Hge].
    + destruct (Hq id ltac:(set_solver)) as [h ->]. rewrite Nat.sub_succ, Nat.sub_0_r.
      rewrite IH; [|done|].
      * replace (S (length q) - max_runs cfg)%nat with (S (length q - max_runs cfg)) by lia.
        done.
      * intros i Hi. rewrite lookup_delete_ne by (by intros ->). apply Hq. set_solver.
    + by replace (S (length q) - max_runs cfg)%nat with 0%nat by lia.
Qed.

Lemma delete_all_lookup (m : gmap Id RunHandle) ids i :
  foldl (flip delete) m ids !! i = if decide (i ∈ ids) then None else m !! i.
Proof.
  revert m. induction ids as [|id ids IH]; intros m; simpl; [done|]. rewrite IH. unfold flip.
  destruct (decide (i ∈ ids)); [by rewrite decide_True by set_solver|].
  destruct (decide (i = id)) as [->|Hne].
  - by rewrite decide_True, lookup_delete_eq by set_solver.
  - by rewrite decide_False, lookup_delete_ne by set_solver.
Qed.

(** Pass 2 on a correct state. *)
Lemma pass2_spec r :
  registry_ok r →
  let k := (length (completion_order r) - max_runs cfg)%nat in
  completion_order (pass2 r) = drop k (completion_order r)
  ∧ live (pass2 r) = live r
  ∧ ∀ i, runs (pass2 r) !! i =
      if decide (i ∈ take k (completion_order r)) then None else runs r !! i.
Proof.
  intros [Hq Hl]. unfold pass2. rewrite (queue_length _ _ Hq).
  rewrite cap_loop_spec; [|by destruct Hq|].
  - simpl. split_and!; [done..|]. intros i. apply delete_all_lookup.
  - intros id Hid. apply Hq in Hid as (h & ? & _). eauto.
Qed.

Lemma running_count_ext m m' :
  (∀ i h, running h = true → m !! i = Some h ↔ m' !! i = Some h) →
  running_count m = running_count m'.
Proof.
  intros Hext. unfold running_count. f_equal. apply map_filter_strong_ext. simpl.
  intros i h. rewrite Is_true_iff. naive_solver.
Qed.

Lemma pass2_ok r : registry_ok r → registry_ok (pass2 r).
Proof.
  intros Hr. destruct (pass2_spec r Hr) as (Hq' & Hl' & Hm'). destruct Hr as [[Hn Hq] Hl].
  rewrite <- (take_drop (length (completion_order r) - max_runs cfg) (completion_order r)) in Hn, Hq.
  apply NoDup_app in Hn as (Hn1 & Hdis & Hn2). split.
  - rewrite Hq'. split; [done|]. intros i. rewrite Hm'. case_decide as Hi.
    + split; [by intros ?%(Hdis i Hi)|naive_solver].
    + rewrite <- Hq, elem_of_app. naive_solver.
  - rewrite Hl', Hl. apply running_count_ext. intros i h Hh. rewrite Hm'.
    case_decide as Hi; [|done]. split; [|done]. intros Hm.
    assert (i ∈ take (length (completion_order r) - max_runs cfg) (completion_order r)
      ++ drop (length (completion_order r) - max_runs cfg) (completion_order r)) as Hin
      by (apply elem_of_app; by left).
    apply Hq in Hin as (h' & ? & ?). congruence.
Qed.

Lemma sweep_ok r now : registry_ok r → registry_ok (sweep r now).
Proof. intros Hr. by apply pass2_ok, pass1_ok, pass0_ok. Qed.

Lemma create_ok r r' id now name who res :
  runs r !! id = None → create r id now name who = Some (r', res) →
  registry_ok r → registry_ok r'.
Proof.
  unfold create. intros Hid Hc [Hq Hl].
  destruct (Nat.leb_spec (max_in_flight cfg) (live r)); [by simplify_eq|].
  destruct (EventLog_new _); simplify_eq/=.
  split; simpl; [by apply queue_ok_start|]. by rewrite running_count_start, Hl.
Qed.

Lemma live_stamp now r id h : (live (stamp now r id h) ≤ live r)%nat.
Proof. unfold stamp. destruct (terminal_at h); simpl; lia. Qed.

Lemma live_sweep r now : registry_ok r → (live (sweep r now) ≤ live r)%nat.
Proof.
  intros Hr. unfold sweep.
  destruct (pass2_spec (pass1 now (pass0 now r))) as (_ & -> & _);
    [by apply pass1_ok, pass0_ok|].
  simpl. unfold pass0. generalize (overdue_ids now (runs r)). clear Hr. intros ids. revert r.
  induction ids as [|id ids IH]; intros r; simpl; [lia|]. rewrite IH.
  unfold reclaim. destruct (runs r !! id); [apply live_stamp|lia].
Qed.

Lemma reachable_ok r :
  registry_reachable r → registry_ok r ∧ (live r ≤ max_in_flight cfg)%nat.
Proof.
  assert (registry_ok RunRegistry_new) as H0.
  { split; [|done]. split; [constructor|]. intros id. simpl. set_solver. }
  unfold registry_reachable. revert r. apply rtc_ind_r; [split; [done|simpl; lia]|].
  intros r r' _ Hs [IH Hcap].
  destruct Hs as [r r' id now name who res Hid Hc|r id now|r now|r id h l c e Hm].
  - split; [by eapply create_ok|]. unfold create in Hc.
    destruct (Nat.leb_spec (max_in_flight cfg) (live r)); [by simplify_eq|].
    destruct (EventLog_new _); simplify_eq/=. lia.
  - split; [by apply note_terminal_ok|]. unfold note_terminal.
    destruct (runs r !! id); [|done]. by rewrite live_stamp.
  - split; [by apply sweep_ok|]. by rewrite live_sweep.
  - destruct IH as [Hq Hl]. split; [|done]. split; simpl; [by eapply queue_ok_insert|].
    by erewrite running_count_insert.
Qed.

(** *** What a sweep does *)

Hypothesis iter_perm : ∀ m, iter m ≡ₚ map_to_list m.

Lemma elem_of_overdue now m i :
  i ∈ overdue_ids now m ↔ ∃ h, m !! i = Some h ∧ is_overdue now h = true.
Proof.
  unfold overdue_ids. rewrite list_elem_of_fmap. setoid_rewrite list_elem_of_filter.
  setoid_rewrite iter_perm. split.
  - intros ([j h] & -> & Ho & Hm%elem_of_map_to_list). apply Is_true_iff in Ho. eauto.
  - intros (h & Hm & Ho). exists (i, h). split_and!; [done|by apply Is_true_iff|].
    by apply elem_of_map_to_list.
Qed.

Lemma NoDup_overdue now m : NoDup (overdue_ids now m).
Proof.
  unfold overdue_ids.
  assert (filter (λ p : Id * RunHandle, is_overdue now p.2) (iter m)
    ≡ₚ filter (λ p, is_overdue now p.2) (map_to_list m)) as -> by (by rewrite iter_perm).
  eapply sublist_NoDup; [apply (NoDup_fst_map_to_list m)|].
  apply fmap_sublist. induction (map_to_list m) as [|p ps IH]; [done|].
  rewrite filter_cons. destruct (decide _); by constructor.
Qed.

(** Pass 0 stamps and cancels exactly the overdue runs. *)
Lemma pass0_spec now r :
  completion_order (pass0 now r) = completion_order r ++ overdue_ids now (runs r)
  ∧ ∀ i, runs (pass0 now r) !! i =
      (λ h, if is_overdue now h then set_terminal now (set_cancelled h) else h) <$> runs r !! i.
Proof.
  unfold pass0. destruct (reclaim_all now (overdue_ids now (runs r)) r) as [Hq Hm].
  - apply NoDup_overdue.
  - intros i (h & Hi & Ho)%elem_of_overdue. exists h. split; [done|].
    unfold is_overdue in Ho. by apply andb_true_iff in Ho as [? _].
  - split; [done|]. intros i. rewrite Hm. case_decide as Hi.
    + apply elem_of_overdue in Hi as (h & -> & Ho). simpl. by rewrite Ho.
    + destruct (runs r !! i) as [h|] eqn:E; simpl; [|done].
      destruct (is_overdue now h) eqn:Ho; [|done]. destruct Hi. apply elem_of_overdue. eauto.
Qed.

Lemma is_overdue_running now h : running h = false → is_overdue now h = false.
Proof. unfold is_overdue. by intros ->. Qed.

Definition aged (now : Z) (h : RunHandle) : RunHandle :=
  if is_overdue now h then set_terminal now (set_cancelled h) else h.

Lemma aged_running now h : running (aged now h) = true → aged now h = h ∧ is_overdue now h = false.
Proof. unfold aged. by destruct (is_overdue now h). Qed.

(** The queue after the expired runs are gone, before the cap. *)
Definition unexpired_queue (now : Z) (r : RegistryInner) : list Id :=
  completion_order (pass1 now (pass0 now r)).

Definition surplus (now : Z) (r : RegistryInner) : nat :=
  (length (unexpired_queue now r) - max_runs cfg)%nat.

Lemma sweep_lookup now r i :
  registry_ok r →
  runs (sweep r now) !! i =
    if decide (i ∈ take (surplus now r) (unexpired_queue now r)) then None
    else h ← aged now <$> runs r !! i; if is_expired now h then None else Some h.
Proof.
  intros Hr. unfold sweep. destruct (pass2_spec (pass1 now (pass0 now r))) as (_ & _ & ->);
    [by apply pass1_ok, pass0_ok|].
  fold (unexpired_queue now r) (surplus now r). case_decide; [done|].
  simpl. destruct (pass0_spec now r) as [_ Hm]. specialize (Hm i).
  fold (aged now) in Hm. destruct (runs r !! i) as [h|] eqn:E; simpl in *.
  - destruct (is_expired now (aged now h)) eqn:Hx.
    + apply map_lookup_filter_None. right. intros h' Hh'. rewrite Hm in Hh'. simplify_eq/=.
      change (¬ ¬ Is_true (is_expired now (aged now h))). rewrite Hx. simpl. auto.
    + apply map_lookup_filter_Some. split; [done|]. simpl. by apply not_Is_true_iff.
  - apply map_lookup_filter_None. by left.
Qed.

Lemma sweep_queue now r :
  registry_ok r →
  completion_order (sweep r now) = drop (surplus now r) (unexpired_queue now r).
Proof.
  intros Hr. by destruct (pass2_spec _ (pass1_ok now _ (pass0_ok now r Hr))) as (? & _).
Qed.

(** The queue of unexpired terminal runs keeps the order of completion. *)
Lemma unexpired_spec now r id :
  registry_ok r →
  id ∈ unexpired_queue now r ↔
    ∃ h, aged now <$> runs r !! id = Some h ∧ running h = false ∧ is_expired now h = false.
Proof.
  intros Hr. destruct (pass1_ok now _ (pass0_ok now r Hr)) as [[_ Hq] _].
  unfold unexpired_queue. rewrite Hq. destruct (pass0_spec now r) as [_ Hm]. specialize (Hm id).
  fold (aged now) in Hm. cbn [pass1 runs]. setoid_rewrite map_lookup_filter_Some.
  setoid_rewrite Hm. setoid_rewrite not_Is_true_iff. simpl. split; intros (h & ?); exists h; tauto.
Qed.

(** The cap never evicts a running run. *)
Lemma surplus_terminal now r i h :
  registry_ok r → i ∈ take (surplus now r) (unexpired_queue now r) →
  runs (pass1 now (pass0 now r)) !! i = Some h → running h = false.
Proof.
  intros Hr Hi Hm. destruct (pass1_ok now _ (pass0_ok now r Hr)) as [[_ Hq] _].
  apply subseteq_take, Hq in Hi as (h' & Hm' & ?). congruence.
Qed.

Lemma sweep_keeps_running now r i h :
  registry_ok r → runs r !! i = Some h → running h = true → is_overdue now h = false →
  runs (sweep r now) !! i = Some h.
Proof.
  intros Hr Hm Hh Ho. rewrite sweep_lookup by done.
  assert (aged now h = h) as Ha by (unfold aged; by rewrite Ho).
  assert (is_expired now h = false) as Hx.
  { unfold is_expired. unfold running in Hh. by destruct (terminal_at h). }
  rewrite Hm. simpl. rewrite Ha, Hx. case_decide as Hi; [|done].
  destruct (pass0_spec now r) as [_ Hm0]. specialize (Hm0 i). rewrite Hm in Hm0. simpl in Hm0.
  rewrite Ho in Hm0. enough (running h = false) by congruence.
  eapply surplus_terminal; [done..|]. apply map_lookup_filter_Some. split; [done|].
  by apply not_Is_true_iff.
Qed.
End Registry.

(** C21. In every reachable state of the registry the completion queue holds
    exactly the terminal runs, once each, and the counter behind the admission
    check is the number of running runs, which never exceeds
    [max_in_flight]. *)
Theorem registry_invariant `{J : Json.SerdeJson} `{Countable Id} cfg instant_max iter
    (r : @RegistryInner J Id _ _) :
  registry_reachable cfg instant_max iter r →
  NoDup (completion_order r)
  ∧ (∀ id, id ∈ completion_order r ↔ ∃ h, runs r !! id = Some h ∧ running h = false)
  ∧ live r = running_count (runs r)
  ∧ (running_count (runs r) ≤ max_in_flight cfg)%nat.
Proof.
  intros Hr. destruct (reachable_ok _ _ _ _ Hr) as [[[Hn Hq] Hl] Hc].
  split_and!; [done..|]. by rewrite <- Hl.
Qed.

(** A run is admitted exactly when fewer than [max_in_flight] runs are
    running; admission registers a fresh running handle under the new id and
    changes nothing else, refusal changes nothing. *)
Theorem create_admission `{J : Json.SerdeJson} `{Countable Id} cfg instant_max iter
    (r : @RegistryInner J Id _ _) id now name who :
  registry_reachable cfg instant_max iter r → runs r !! id = None →
  (0 < max_events_per_run cfg)%nat →
  if (running_count (runs r) <? max_in_flight cfg)%nat then
    ∃ r' h, create cfg r id now name who = Some (r', Ok (id, h))
      ∧ runs r' = <[id:=h]> (runs r) ∧ running h = true ∧ cancelled h = false
      ∧ created_at h = now ∧ log_events (handle_log h) = []
      ∧ completion_order r' = completion_order r
      ∧ running_count (runs r') = S (running_count (runs r))
  else create cfg r id now name who = Some (r, Err (Unavailable "in-flight run limit reached")).
Proof.
  intros Hr Hid Hev. destruct (reachable_ok _ _ _ _ Hr) as [[Hq Hl] _].
  unfold create. rewrite Hl. unfold EventLog_new.
  destruct (Nat.ltb_spec (running_count (runs r)) (max_in_flight cfg)),
    (Nat.leb_spec (max_in_flight cfg) (running_count (runs r))); try lia; [|done].
  destruct (Nat.ltb_spec 0 (max_events_per_run cfg)); [|lia]. simpl.
  eexists _, _. split; [done|]. simpl. split_and!; try done. by apply running_count_start.
Qed.

(** A run that is still registered changes its terminal stamp at most once:
    whatever the server does, a terminal run keeps its first stamp until it is
    evicted, and a running run stays registered; only a sweep evicts. *)
Theorem run_lifecycle `{J : Json.SerdeJson} `{Countable Id} cfg instant_max iter
    (r r' : @RegistryInner J Id _ _) id h :
  (∀ m, iter m ≡ₚ map_to_list m) →
  registry_reachable cfg instant_max iter r → registry_step cfg instant_max iter r r' →
  runs r !! id = Some h →
  match runs r' !! id with
  | Some h' => created_at h' = created_at h
      ∧ (running h = false → terminal_at h' = terminal_at h)
  | None => ∃ now, r' = sweep cfg instant_max iter r now
      ∧ (running h = true → is_overdue cfg instant_max now h = true)
  end.
Proof.
  intros Hi Hr Hs Hm. destruct (reachable_ok _ _ _ _ Hr) as [Hok _].
  destruct Hs as [r r' i now name who res Hid Hc|r i now|r now|r i g l c e Hg].
  - unfold create in Hc. case_match; [by simplify_eq; rewrite Hm|].
    destruct (EventLog_new _); simplify_eq/=. rewrite lookup_insert_ne by congruence. by rewrite Hm.
  - unfold note_terminal, stamp, running. destruct (runs r !! i) as [g|] eqn:E; [|by rewrite Hm].
    destruct (decide (i = id)) as [->|Hne].
    + simplify_eq. destruct (terminal_at h) eqn:Ht; simpl; rewrite lookup_insert_eq; by split; [|congruence].
    + destruct (terminal_at g); simpl; rewrite lookup_insert_ne by done; by rewrite Hm.
  - destruct (runs (sweep cfg instant_max iter r now) !! id) as [h'|] eqn:E.
    + rewrite sweep_lookup, Hm in E by done. case_decide; [done|]. simpl in E.
      case_match; simplify_eq. unfold aged, is_overdue.
      destruct (running h) eqn:Hh; [|done]. simpl. split; [by case_match|done].
    + exists now. split; [done|]. intros Hh.
      destruct (is_overdue cfg instant_max now h) eqn:Ho; [done|].
      by erewrite sweep_keeps_running in E.
  - simpl. destruct (decide (i = id)) as [->|Hne].
    + rewrite lookup_insert_eq. simplify_eq. done.
    + rewrite lookup_insert_ne by done. by rewrite Hm.
Qed.

(** After a sweep no running run is overdue, no retained run has outlived
    its TTL, at most [max_runs] terminal runs are retained, and the runs that
    were running and not overdue are untouched. *)
Theorem sweep_reclaims `{J : Json.SerdeJson} `{Countable Id} cfg instant_max iter
    (r : @RegistryInner J Id _ _) now :
  (∀ m, iter m ≡ₚ map_to_list m) →
  registry_reachable cfg instant_max iter r →
  let r' := sweep cfg instant_max iter r now in
  (∀ id h, runs r' !! id = Some h →
     if running h then runs r !! id = Some h ∧ is_overdue cfg instant_max now h = false
     else is_expired cfg instant_max now h = false)
  ∧ (∀ id h, runs r !! id = Some h → running h = true →
       is_overdue cfg instant_max now h = false → runs r' !! id = Some h)
  ∧ (terminal_count (runs r') ≤ max_runs cfg)%nat.
Proof.
  intros Hi Hr r'. destruct (reachable_ok _ _ _ _ Hr) as [Hok _]. split_and!.
  - intros id h Hm. unfold r' in Hm. rewrite sweep_lookup in Hm by done.
    case_decide; [done|]. destruct (runs r !! id) as [g|]; simpl in Hm; [|done].
    destruct (is_expired _ _ _ (aged _ _ _ g)) eqn:Hx; simplify_eq.
    destruct (running (aged cfg instant_max now g)) eqn:Hrun; [|done].
    apply aged_running in Hrun as [-> ?]. done.
  - intros id h. by apply sweep_keeps_running.
  - pose proof (sweep_ok cfg instant_max iter r now Hok) as [Hq _].
    fold r' in Hq. rewrite (queue_length _ _ Hq). unfold r'. rewrite sweep_queue by done.
    rewrite length_drop. unfold surplus. lia.
Qed.

(** The count cap evicts first in, first out: of the terminal runs that a
    sweep finds unexpired, in completion order, exactly the oldest ones beyond
    [max_runs] are dropped. *)
Theorem sweep_fifo `{J : Json.SerdeJson} `{Countable Id} cfg instant_max iter
    (r : @RegistryInner J Id _ _) now :
  (∀ m, iter m ≡ₚ map_to_list m) →
  registry_reachable cfg instant_max iter r →
  ∃ q,
    q `sublist_of` completion_order r ++ overdue_ids cfg instant_max iter now (runs r)
    ∧ (∀ id, id ∈ q ↔ ∃ h, aged cfg instant_max now <$> runs r !! id = Some h
         ∧ running h = false ∧ is_expired cfg instant_max now h = false)
    ∧ completion_order (sweep cfg instant_max iter r now) = drop (length q - max_runs cfg) q.
Proof.
  intros Hi Hr. destruct (reachable_ok _ _ _ _ Hr) as [Hok _].
  exists (unexpired_queue cfg instant_max iter now r). split_and!.
  - unfold unexpired_queue. simpl. destruct (pass0_spec cfg instant_max iter Hi now r) as [-> _].
    apply sublist_filter.
  - intros id. by apply unexpired_spec.
  - by rewrite sweep_queue.
Qed.

(** The in-flight cap cannot wedge: once every running run is past its
    maximum duration, one sweep frees every slot and the next run is
    admitted. *)
Theorem sweep_unwedges `{J : Json.SerdeJson} `{Countable Id} cfg instant_max iter
    (r : @RegistryInner J Id _ _) now id name who :
  (∀ m, iter m ≡ₚ map_to_list m) →
  registry_reachable cfg instant_max iter r →
  (∀ i h, runs r !! i = Some h → running h = true → is_overdue cfg instant_max now h = true) →
  (0 < max_in_flight cfg)%nat → (0 < max_events_per_run cfg)%nat →
  let r' := sweep cfg instant_max iter r now in
  live r' = 0%nat ∧ ∃ r'' h, create cfg r' id now name who = Some (r'', Ok (id, h)).
Proof.
  intros Hi Hr Ho Hf He r'. destruct (reachable_ok _ _ _ _ Hr) as [Hok _].
  assert (live r' = 0%nat) as Hl.
  { pose proof (sweep_ok cfg instant_max iter r now Hok) as [_ Hl]. fold r' in Hl. rewrite Hl.
    apply map_size_empty_iff, map_empty. intros i. apply map_lookup_filter_None. right.
    intros h Hm Hrun%Is_true_iff. simpl in Hrun.
    unfold r' in Hm. rewrite sweep_lookup in Hm by done. case_decide; [done|].
    destruct (runs r !! i) as [g|] eqn:E; simpl in Hm; [|done].
    case_match; simplify_eq. destruct (aged_running _ _ _ _ Hrun) as [Hg Hn].
    rewrite Hg in Hrun. by rewrite (Ho _ _ E Hrun) in Hn. }
  split; [done|]. unfold create. rewrite Hl. unfold EventLog_new.
  destruct (Nat.leb_spec (max_in_flight cfg) 0); [lia|].
  destruct (Nat.ltb_spec 0 (max_events_per_run cfg)); [|lia]. eauto.
Qed.

(** *** A concrete registry: two slots, one retained run *)

Module RegistryDemo.
#[local] Existing Instance Json.Toy.json.

Definition cfg : RunRegistry := mkConfig 100 1 2 2 50.

Definition new_run (r : @RegistryInner _ nat _ _) id now : RegistryInner :=
  match create cfg r id now "agent" None with Some (r', _) => r' | None => r end.

Definition r2 : RegistryInner := new_run (new_run RunRegistry_new 1%nat 0) 2%nat 10.
Definition r3 : RegistryInner := note_terminal r2 1%nat 20.
Definition r4 : RegistryInner := sweep cfg 1000000 map_to_list r3 60.

Lemma new_run_step r id now :
  runs r !! id = None → create cfg r id now "agent" None ≠ None →
  registry_step cfg 1000000 map_to_list r (new_run r id now).
Proof.
  intros Hid Hc. destruct (create cfg r id now "agent" None) as [[r' res]|] eqn:E; [|done].
  unfold new_run. rewrite E. by eapply step_create.
Qed.

Lemma r2_reachable : registry_reachable cfg 1000000 map_to_list r2.
Proof.
  eapply rtc_l; [by apply (new_run_step RunRegistry_new 1%nat 0); vm_compute|].
  eapply rtc_l; [by apply (new_run_step (new_run RunRegistry_new 1%nat 0) 2%nat 10); vm_compute|].
  apply rtc_refl.
Qed.

Lemma r3_reachable : registry_reachable cfg 1000000 map_to_list r3.
Proof. eapply rtc_r; [exact r2_reachable|apply step_note]. Qed.
End RegistryDemo.

#[local] Existing Instance Json.Toy.json.

Lemma registry_invariant_witness :
  completion_order RegistryDemo.r3 = [1]%nat ∧ live RegistryDemo.r3 = 1%nat
  ∧ NoDup (completion_order RegistryDemo.r3).
Proof.
  split; [vm_compute; reflexivity|]. split; [vm_compute; reflexivity|].
  exact (proj1 (registry_invariant RegistryDemo.cfg 1000000 map_to_list RegistryDemo.r3
    RegistryDemo.r3_reachable)).
Defined.

(** Two runs hold the two slots: a third is refused. *)
Lemma create_admission_witness :
  create RegistryDemo.cfg RegistryDemo.r2 3%nat 20 "agent" None
  = Some (RegistryDemo.r2, Err (Unavailable "in-flight run limit reached")).
Proof.
  exact (create_admission RegistryDemo.cfg 1000000 map_to_list RegistryDemo.r2 3%nat 20 "agent"
    None RegistryDemo.r2_reachable eq_refl ltac:(simpl; lia)).
Defined.

(** Noting the end of run 1 a second time, at 30, keeps the stamp 20. *)
Lemma run_lifecycle_witness :
  let h := mkHandle "agent" None empty_log false None (Some 20%Z) 0 in
  runs RegistryDemo.r3 !! 1%nat = Some h
  ∧ match runs (note_terminal RegistryDemo.r3 1%nat 30) !! 1%nat with
    | Some h' => terminal_at h' = Some 20%Z
    | None => False
    end.
Proof.
  intros h. assert (runs RegistryDemo.r3 !! 1%nat = Some h) as Hh by (vm_compute; reflexivity).
  split; [exact Hh|].
  pose proof (run_lifecycle RegistryDemo.cfg 1000000 map_to_list RegistryDemo.r3
    (note_terminal RegistryDemo.r3 1%nat 30) 1%nat h (λ m, reflexivity _)
    RegistryDemo.r3_reachable (step_note _ _ _ _ _ _) Hh) as Hl.
  destruct (runs (note_terminal RegistryDemo.r3 1%nat 30) !! 1%nat) eqn:E; [|discriminate E].
  exact (proj2 Hl eq_refl).
Defined.

(** At 60 the second run, created at 10, is overdue. *)
Lemma sweep_reclaims_witness :
  completion_order RegistryDemo.r4 = [2]%nat
  ∧ (terminal_count (runs RegistryDemo.r4) ≤ 1)%nat.
Proof.
  split; [vm_compute; reflexivity|].
  exact (proj2 (proj2 (sweep_reclaims RegistryDemo.cfg 1000000 map_to_list RegistryDemo.r3 60
    (λ m, reflexivity _) RegistryDemo.r3_reachable))).
Defined.

Lemma sweep_fifo_witness :
  ∃ q, q `sublist_of` [1; 2]%nat
    ∧ completion_order RegistryDemo.r4 = drop (length q - 1) q.
Proof.
  destruct (sweep_fifo RegistryDemo.cfg 1000000 map_to_list RegistryDemo.r3 60
    (λ m, reflexivity _) RegistryDemo.r3_reachable) as (q & Hs & _ & Hq).
  exists q. split; [exact Hs|exact Hq].
Defined.

Lemma sweep_unwedges_witness :
  live (sweep RegistryDemo.cfg 1000000 map_to_list RegistryDemo.r3 60) = 0%nat.
Proof.
  refine (proj1 (sweep_unwedges RegistryDemo.cfg 1000000 map_to_list RegistryDemo.r3 60 7%nat
    "agent" None (λ m, reflexivity _) RegistryDemo.r3_reachable _ _ _)); [|simpl; lia..].
  intros i h Hm Hr. assert (i = 1%nat ∨ i = 2%nat) as [->| ->].
  { apply elem_of_dom_2 in Hm. revert Hm.
    change (dom (runs RegistryDemo.r3)) with (dom (runs RegistryDemo.r3)).
    assert (dom (runs RegistryDemo.r3) = {[1; 2]}%nat) as -> by (vm_compute; reflexivity).
    set_solver. }
  - vm_compute in Hm. injection Hm as <-. discriminate Hr.
  - vm_compute in Hm. injection Hm as <-. reflexivity.
Defined.
