(* ===== verification/RunHttp.v ===== *)
(** The HTTP surface of a run: error responses (runtime-axum/src/error.rs), the
    one-shot response and the run request (dto.rs), and the SSE stream
    (handlers/runs.rs).

    The transports read a run through the subscriber of [EventLog]; the frames
    of an SSE response are computed from the events that subscriber yields. *)

From S2P Require Import Prelude Json Items EventLog Registry.

(** ** Error responses *)

Record Response := mkResponse {
  resp_status : Z;
  resp_error : string;
  resp_retry_after : option string;
}.

Definition PUBLIC_INTERNAL_ERROR : string := "internal error".
Definition PUBLIC_UNAVAILABLE : string := "service unavailable".

Section Errors.
(** [StatusCode]'s [Display], of the http crate. *)
Context (show_status : Z → string).

Definition AuthRejection_display (rej : AuthRejection) : string :=
  rej_message rej +:+ " (" +:+ show_status (rej_status rej) +:+ ")".

Definition ServerError_display (e : ServerError) : string :=
  match e with
  | UnknownAgent m => "unknown agent: " +:+ m
  | BadRequest m => "bad request: " +:+ m
  | Unauthorized rej => "unauthorized: " +:+ AuthRejection_display rej
  | RunStart m => "run start failed: " +:+ m
  | Unavailable m => "service unavailable: " +:+ m
  | Internal m => "internal error: " +:+ m
  end.

Definition error_status (e : ServerError) : Z :=
  match e with
  | UnknownAgent _ => 404
  | BadRequest _ => 400
  | Unauthorized rej =>
      if (rej_status rej =? 401)%Z || (rej_status rej =? 403)%Z then rej_status rej else 401
  | RunStart _ => 500
  | Unavailable _ => 503
  | Internal _ => 500
  end.

Definition public_body (e : ServerError) : option string :=
  match e with
  | RunStart _ | Internal _ => Some PUBLIC_INTERNAL_ERROR
  | Unavailable _ => Some PUBLIC_UNAVAILABLE
  | _ => None
  end.

Definition into_response (e : ServerError) : Response :=
  let status := error_status e in
  mkResponse status
    match public_body e with Some p => p | None => ServerError_display e end
    (if (status =? 503)%Z then Some "1" else None).
End Errors.

(** An error response always carries one of the statuses 400, 401, 403,
    404, 500 and 503; a server error (5xx) shows a body that depends on the
    status alone, so no internal detail reaches the client, and exactly 503
    invites a retry. *)
Theorem server_error_redacted show_status e :
  let r := into_response show_status e in
  resp_status r ∈ [400; 401; 403; 404; 500; 503]%Z
  ∧ (∀ show_status' e', 500 ≤ resp_status r →
       resp_status (into_response show_status' e') = resp_status r →
       into_response show_status' e' = r)%Z
  ∧ (resp_retry_after r ≠ None ↔ resp_status r = 503%Z).
Proof.
  intros r. unfold r. split_and!.
  - rewrite !elem_of_cons. destruct e as [| |rej| | |]; simpl; auto 10.
    destruct (Z.eqb_spec (rej_status rej) 401), (Z.eqb_spec (rej_status rej) 403); simpl; auto 10.
  - intros f e' H5 He. destruct e as [| |[s m]| | |], e' as [| |[s' m']| | |]; simpl in *;
      try lia; try done; repeat case_match; simplify_eq/=; lia.
  - simpl. destruct (Z.eqb_spec (error_status e) 503); naive_solver.
Qed.

(** ** The SSE stream *)

Section Sse.
Context `{J : SerdeJson} `{Countable Id}.

(** The unfold state, less the event stream and the drop guard. *)
Record SseState := mkSse { saw_terminal : bool; sse_done : bool }.

(** One poll: [next] is what the event stream yields. *)
Definition sse_next (h : RunHandle) (st : SseState) (next : option AgentEvent)
  : option (AgentEvent * SseState) :=
  if sse_done st then None
  else match next with
       | Some ev => Some (ev, mkSse (saw_terminal st || is_terminal ev) (sse_done st))
       | None =>
           synthetic ← synthetic_terminal_frame h (saw_terminal st);
           Some (synthetic, mkSse (saw_terminal st) true)
       end.

(** The frames of the response when the event stream yields [evs] and ends. *)
Fixpoint sse_frames (h : RunHandle) (st : SseState) (evs : list AgentEvent) : list AgentEvent :=
  match evs with
  | [] => match sse_next h st None with Some (frame, _) => [frame] | None => [] end
  | ev :: evs' =>
      match sse_next h st (Some ev) with
      | Some (frame, st') => frame :: sse_frames h st' evs'
      | None => []
      end
  end.

Definition sse_response (h : RunHandle) (evs : list AgentEvent) : list AgentEvent :=
  sse_frames h (mkSse false false) evs.

Lemma sse_frames_spec h b evs :
  sse_frames h (mkSse b false) evs =
    evs ++ match synthetic_terminal_frame h (b || existsb is_terminal evs) with
           | Some frame => [frame]
           | None => []
           end.
Proof.
  revert b. induction evs as [|ev evs IH]; intros b; simpl.
  - rewrite orb_false_r. unfold sse_next. simpl.
    by destruct (synthetic_terminal_frame h b).
  - by rewrite IH, <- orb_assoc.
Qed.
End Sse.

(** A client of the SSE endpoint that reads to the end of its stream sees
    exactly one terminal frame, the last one: the run's own, or else one of the
    two public failure frames. *)
Theorem sse_one_terminal `{J : SerdeJson} max_events y (h : RunHandle) :
  (0 < max_events)%nat →
  reachable is_terminal max_events 0 y → s_sub y = Ended →
  ∃ o frame,
    sse_response h (s_out y) = o ++ [frame]
    ∧ Forall (λ ev, is_terminal ev = false) o ∧ is_terminal frame = true
    ∧ (s_out y = o ++ [frame] ∨ s_out y = o
         ∧ frame ∈ [RunFailed PUBLIC_RUN_FAILED_TO_START; RunFailed PUBLIC_RUN_NO_TERMINAL]).
Proof.
  intros Hn Hr Hs. destruct (Inv_reachable _ _ _ _ Hn Hr) as [_ _ Ho _ _].
  rewrite Hs in Ho. unfold sse_response. rewrite sse_frames_spec. simpl.
  destruct Ho as [Ho|(o & ev & Heq & Hev & Ho)].
  - assert (existsb is_terminal (s_out y) = false) as -> by by apply existsb_Forall.
    eexists _, _. split; [done|]. split_and!; [done|done|]. right. split; [done|].
    destruct (start_error h); set_solver.
  - assert (existsb is_terminal (s_out y) = true) as ->.
    { rewrite Heq, existsb_app. simpl. by rewrite Hev, orb_true_r. }
    rewrite app_nil_r. exists o, ev. by split_and!; [|..|left].
Qed.

(** ** Requests and the one-shot response *)

Section Dto.
Context `{J : SerdeJson}.

Inductive RunRequest :=
| Input (text : string)
| Messages (items : list Item).

(** From the two optional fields of the request body. *)
Definition RunRequest_deserialize (input : option string) (messages : option (list Item))
  : result RunRequest string :=
  match input, messages with
  | Some i, None => Ok (Input i)
  | None, Some m => Ok (Messages m)
  | Some _, Some _ => Err "provide exactly one of `input` or `messages`, not both"
  | None, None => Err "provide exactly one of `input` or `messages`"
  end.

Definition into_agent_input (r : RunRequest) : list Item :=
  match r with
  | Input text => AgentInput_from_user_text text
  | Messages items => items
  end.

Inductive RunStatus := Completed | RunStatusFailed.

Record RunResponse := mkRunResponse {
  rr_status : RunStatus;
  rr_output : option string;
  rr_error : option string;
  rr_usage : option TokenUsage;
  rr_events : list AgentEvent;
}.

Definition push_text (acc : string) (part : ContentPart) : string :=
  match part with Text t => acc +:+ t | _ => acc end.

Definition message_text (content : list ContentPart) : string := fold_left push_text content "".

Definition scan_event (r : RunResponse) (event : AgentEvent) : RunResponse :=
  match event with
  | MessageOutput (AssistantMessage content _) =>
      let text := message_text content in
      if is_empty text then r
      else mkRunResponse (rr_status r) (Some text) (rr_error r) (rr_usage r) (rr_events r)
  | RunCompleted u =>
      mkRunResponse Completed (rr_output r) (rr_error r) (Some u) (rr_events r)
  | RunFailed e =>
      mkRunResponse RunStatusFailed (rr_output r) (Some e) (rr_usage r) (rr_events r)
  | _ => r
  end.

Definition from_events (events : list AgentEvent) : RunResponse :=
  fold_left scan_event events (mkRunResponse RunStatusFailed None None None events).

(** The text an event would show as the output of the run. *)
Definition output_of (event : AgentEvent) : option string :=
  match event with
  | MessageOutput (AssistantMessage content _) =>
      let text := message_text content in if is_empty text then None else Some text
  | _ => None
  end.

Lemma scan_nonterminal evs r :
  Forall (λ ev, is_terminal ev = false) evs →
  fold_left scan_event evs r =
    mkRunResponse (rr_status r)
      (match rfind_map output_of evs with Some t => Some t | None => rr_output r end)
      (rr_error r) (rr_usage r) (rr_events r).
Proof.
  unfold rfind_map. induction evs as [|ev evs IH] using rev_ind; intros Hev.
  - by destruct r.
  - apply Forall_app in Hev as [Hevs Hev]. apply Forall_cons in Hev as [Hev _].
    rewrite fold_left_app, IH, rev_app_distr by done. simpl.
    destruct ev as [| | | | |[]| | | | | | | | | | |]; simpl in *; try done.
    by destruct (is_empty (message_text content)).
Qed.
End Dto.

(** The one-shot response of a run reports the run's own terminal event: it
    is completed, with the reported usage and no error, exactly when the run
    completed; otherwise it is failed with the reported error, or without one
    when the run ended without a terminal event.  Its output is the last
    non-empty assistant text. *)
Theorem response_of_run `{J : SerdeJson} max_events y :
  (0 < max_events)%nat →
  reachable is_terminal max_events 0 y → s_sub y = Ended →
  let r := from_events (s_out y) in
  rr_events r = s_out y
  ∧ rr_output r = rfind_map output_of (s_out y)
  ∧ match rr_status r with
    | Completed => ∃ o u, s_out y = o ++ [RunCompleted u]
        ∧ rr_usage r = Some u ∧ rr_error r = None
    | RunStatusFailed => rr_usage r = None
        ∧ match rr_error r with
          | Some e => ∃ o, s_out y = o ++ [RunFailed e]
          | None => existsb is_terminal (s_out y) = false
          end
    end.
Proof.
  intros Hn Hr Hs r. destruct (Inv_reachable _ _ _ _ Hn Hr) as [_ _ Ho _ _].
  rewrite Hs in Ho. unfold r, from_events.
  destruct Ho as [Ho|(o & ev & Heq & Hev & Ho)].
  - rewrite scan_nonterminal by done. simpl. split; [done|].
    split; [by destruct (rfind_map output_of (s_out y))|]. split; [done|by apply existsb_Forall].
  - rewrite Heq, fold_left_app, (scan_nonterminal o) by done. unfold rfind_map.
    rewrite rev_app_distr. simpl.
    destruct ev; try done; simpl; (split; [done|]); (split; [by destruct (find_map _ _)|]);
      eauto 10.
Qed.

(** *** Witnesses *)

Module RunHttpDemo.
#[local] Existing Instance Toy.json.

Definition history : list AgentEvent :=
  [RunStarted "a"; MessageOutput (AssistantMessage [Text "hi"] None); RunCompleted (mkTokenUsage 1 2 0 0 3)].

Definition ended : Sys :=
  mkSys (fold_left (append is_terminal 8) history empty_log) history false Ended history 0.

Lemma ended_reachable : reachable is_terminal 8 0 ended.
Proof.
  eexists. split; [exact (initial_intro is_terminal 8 0 history 0)|].
  do 5 (eapply rtc_l; [apply step_sub; vm_compute; reflexivity|]). apply rtc_refl.
Qed.

Definition handle : RunHandle := mkHandle "a" None empty_log false None None 0.
End RunHttpDemo.

#[local] Existing Instance Toy.json.

Lemma sse_one_terminal_witness :
  sse_response RunHttpDemo.handle RunHttpDemo.history = RunHttpDemo.history
  ∧ ∃ o frame, sse_response RunHttpDemo.handle RunHttpDemo.history = o ++ [frame]
      ∧ is_terminal frame = true.
Proof.
  split; [vm_compute; reflexivity|].
  destruct (sse_one_terminal 8 RunHttpDemo.ended RunHttpDemo.handle ltac:(lia)
    RunHttpDemo.ended_reachable eq_refl) as (o & frame & Heq & _ & Ht & _).
  exists o, frame. split; [exact Heq|exact Ht].
Defined.

Lemma response_of_run_witness :
  rr_output (from_events RunHttpDemo.history) = Some "hi"
  ∧ rr_events (from_events RunHttpDemo.history) = RunHttpDemo.history.
Proof.
  split; [vm_compute; reflexivity|].
  exact (proj1 (response_of_run 8 RunHttpDemo.ended ltac:(lia) RunHttpDemo.ended_reachable eq_refl)).
Defined.
