(* ===== verification/HttpSession.v ===== *)
(** Sessions of the HTTP runtime: runtime-axum/src/session.rs.

    [SessionKey::storage_key], the in-memory provider and the per-session run
    locks.  Sessions and locks are shared objects; the model names them by the
    identity of their [Arc].  The provider takes its read lock and its write
    lock separately, so a request is two steps that others may run between. *)

From Stdlib Require Import Ascii.
From S2P Require Import Prelude.

Record SessionKey := mkSessionKey { key_principal : option string; key_id : option string }.

Definition storage_key (k : SessionKey) : option string :=
  id ← key_id k;
  Some match key_principal k with
       | None => "a:" +:+ id
       | Some principal =>
           "p" +:+ show_Z (Z.of_nat (String.length principal)) +:+ ":" +:+ principal +:+ ":" +:+ id
       end.

(** The decimal rendering of a length has no colon. *)
Lemma pretty_N_char_no_colon x : Ascii.eqb (pretty_N_char x) ":"%char = false.
Proof. by unfold pretty_N_char; repeat case_match. Qed.

Lemma pretty_N_go_no_colon x s :
  contains_char s ":"%char = false → contains_char (pretty_N_go x s) ":"%char = false.
Proof.
  revert s. induction (N.lt_wf_0 x) as [x _ IH]. intros s Hs.
  destruct (decide (0 < x)%N) as [Hx|Hx].
  - rewrite pretty_N_go_step by done. apply IH; [by apply N.div_lt|].
    cbn [contains_char]. by rewrite pretty_N_char_no_colon.
  - assert (x = 0%N) as -> by lia. by rewrite pretty_N_go_0.
Qed.

Lemma show_no_colon n : contains_char (show_Z (Z.of_nat n)) ":"%char = false.
Proof.
  unfold show_Z, pretty, pretty_Z. destruct (Z.of_nat n) eqn:E; [done| |lia].
  change (contains_char (pretty_N (N.pos p)) ":"%char = false). unfold pretty_N.
  case_decide; [done|]. by apply pretty_N_go_no_colon.
Qed.

Lemma app_colon_inj a b r s :
  contains_char a ":"%char = false → contains_char b ":"%char = false →
  a +:+ String ":" r = b +:+ String ":" s → a = b ∧ r = s.
Proof.
  revert b. induction a as [|x a IH]; intros [|y b]; simpl; intros Ha Hb Heq;
    injection Heq; try (by intros; simplify_eq).
  intros Heq' ->. apply orb_false_iff in Ha as [_ Ha], Hb as [_ Hb].
  by destruct (IH b Ha Hb Heq') as [-> ->].
Qed.

Lemma string_app_inj_length (a b r s : string) :
  String.length a = String.length b → a +:+ r = b +:+ s → a = b ∧ r = s.
Proof.
  revert b. induction a as [|x a IH]; intros [|y b]; simpl; intros Hl Heq; try done.
  injection Heq as -> Heq. injection Hl as Hl. by destruct (IH b Hl Heq) as [-> ->].
Qed.

(** ** The in-memory provider *)

(** The compound key the maps are keyed on. *)
Definition OwnedKey : Type := option string * string.

Definition owned (k : SessionKey) : option OwnedKey := pair (key_principal k) <$> key_id k.

Record InMemoryInner := mkInner { sess_map : gmap OwnedKey nat; sess_order : list OwnedKey }.

(** [None]: the constructor panics. *)
Definition InMemorySessionProvider_new (max_sessions : nat) : option InMemoryInner :=
  if (0 <? max_sessions)%nat then Some (mkInner ∅ []) else None.

(** The section under the read lock. *)
Definition session_fast (st : InMemoryInner) (k : OwnedKey) : option nat := sess_map st !! k.

(** The section under the write lock; [fresh] is the identity of the session it
    allocates when the key is not tracked. *)
Definition session_slow (max_sessions : nat) (st : InMemoryInner) (k : OwnedKey) (fresh : nat)
  : InMemoryInner * nat :=
  match sess_map st !! k with
  | Some s => (st, s)
  | None =>
      let m := <[k:=fresh]> (sess_map st) in
      let order := sess_order st ++ [k] in
      if (max_sessions <? size m)%nat then
        match order with
        | oldest :: order' => (mkInner (delete oldest m) order', fresh)
        | [] => (mkInner m order, fresh)
        end
      else (mkInner m order, fresh)
  end.

(** The provider with the requests it has answered, and the next identity to
    allocate. *)
Record Provider := mkProvider {
  pr_inner : InMemoryInner;
  pr_next : nat;
  pr_answers : list (SessionKey * nat);
}.

(** One request of a key, in its two critical sections.  A request enters the
    slow section after a miss in the fast one; between the two anything may
    have happened, so the slow section is a step of its own. *)
Inductive provider_step (max_sessions : nat) : Provider → Provider → Prop :=
| ps_anonymous st n ans k :
    key_id k = None →
    provider_step max_sessions (mkProvider st n ans) (mkProvider st (S n) (ans ++ [(k, n)]))
| ps_fast st n ans k o s :
    owned k = Some o → session_fast st o = Some s →
    provider_step max_sessions (mkProvider st n ans) (mkProvider st n (ans ++ [(k, s)]))
| ps_slow st n ans k o st' s :
    owned k = Some o → session_slow max_sessions st o n = (st', s) →
    provider_step max_sessions (mkProvider st n ans) (mkProvider st' (S n) (ans ++ [(k, s)])).

Definition provider_reachable (max_sessions : nat) (p : Provider) : Prop :=
  ∃ st, InMemorySessionProvider_new max_sessions = Some st
    ∧ rtc (provider_step max_sessions) (mkProvider st 0 []) p.

(** ** The per-session run locks *)

(** An outstanding reference to a lock: the key it was handed out for, the lock,
    and whether its owner has acquired it. *)
Record Holder := mkHolder { ho_key : option OwnedKey; ho_lock : nat; ho_running : bool }.

(** [lk_holders] are the outstanding references, by an identity of their own;
    [lk_next] names the next reference and the next lock. *)
Record Locks := mkLocks {
  lk_map : gmap OwnedKey nat;
  lk_holders : gmap nat Holder;
  lk_next : nat;
}.

Definition SessionLocks_new : Locks := mkLocks ∅ ∅ 0.

(** [Arc::strong_count] of a lock in the map: the map's own reference and the
    outstanding ones. *)
Definition strong_count (hs : gmap nat Holder) (l : nat) : nat :=
  S (size (filter (λ p, ho_lock p.2 = l) hs)).

(** [lock_for], handing out the reference [lk_next]. *)
Definition lock_for (st : Locks) (k : SessionKey) : Locks :=
  let next := lk_next st in
  match owned k with
  | None => mkLocks (lk_map st) (<[next:=mkHolder None next false]> (lk_holders st)) (S next)
  | Some o =>
      let kept := filter (λ p, 1 < strong_count (lk_holders st) p.2)%nat (lk_map st) in
      let '(m, l) := match kept !! o with
                     | Some l => (kept, l)
                     | None => (<[o:=next]> kept, next)
                     end in
      mkLocks m (<[next:=mkHolder (Some o) l false]> (lk_holders st)) (S next)
  end.

(** Requests take a lock, acquire it when no one else holds it (the contract of
    the mutex), and drop it when their run is over or abandoned. *)
Inductive lock_step : Locks → Locks → Prop :=
| ls_lock_for st k : lock_step st (lock_for st k)
| ls_acquire m hs n i k l :
    hs !! i = Some (mkHolder k l false) →
    (∀ j h, hs !! j = Some h → ho_lock h = l → ho_running h = false) →
    lock_step (mkLocks m hs n) (mkLocks m (<[i:=mkHolder k l true]> hs) n)
| ls_drop m hs n i : lock_step (mkLocks m hs n) (mkLocks m (delete i hs) n).

Definition locks_reachable (st : Locks) : Prop := rtc lock_step SessionLocks_new st.

(** ** Correctness of the provider *)

Record provider_ok (max_sessions : nat) (p : Provider) : Prop := {
  pok_order : NoDup (sess_order (pr_inner p));
  pok_dom : ∀ o, o ∈ sess_order (pr_inner p) ↔ is_Some (sess_map (pr_inner p) !! o);
  pok_size : (length (sess_order (pr_inner p)) ≤ max_sessions)%nat;
  pok_fresh : ∀ k s, (k, s) ∈ pr_answers p → (s < pr_next p)%nat;
  pok_map : ∀ o s, sess_map (pr_inner p) !! o = Some s →
    (s < pr_next p)%nat ∧ ∀ k, (k, s) ∈ pr_answers p → owned k = Some o;
  pok_inj : ∀ o o' s, sess_map (pr_inner p) !! o = Some s →
    sess_map (pr_inner p) !! o' = Some s → o = o';
  pok_answers : ∀ i j k k' s, pr_answers p !! i = Some (k, s) →
    pr_answers p !! j = Some (k', s) → i = j ∨ owned k = owned k' ∧ is_Some (owned k);
}.

Lemma size_order (m : gmap OwnedKey nat) (q : list OwnedKey) :
  NoDup q → (∀ o, o ∈ q ↔ is_Some (m !! o)) → size m = length q.
Proof.
  intros Hn Hq. rewrite <- size_dom, <- (size_list_to_set (C:=gset OwnedKey) q Hn). f_equal.
  apply leibniz_equiv. intros o. by rewrite elem_of_dom, elem_of_list_to_set, Hq.
Qed.

(** The answers after one more: a fresh session, or one tracked for the key. *)
Lemma answers_snoc (ans : list (SessionKey * nat)) k s :
  (∀ i j k1 k2 s', ans !! i = Some (k1, s') → ans !! j = Some (k2, s') →
     i = j ∨ owned k1 = owned k2 ∧ is_Some (owned k1)) →
  (∀ k', (k', s) ∈ ans → owned k' = owned k ∧ is_Some (owned k)) →
  ∀ i j k1 k2 s', (ans ++ [(k, s)]) !! i = Some (k1, s') →
    (ans ++ [(k, s)]) !! j = Some (k2, s') → i = j ∨ owned k1 = owned k2 ∧ is_Some (owned k1).
Proof.
  intros Ha Hs i j k1 k2 s' Hi Hj.
  apply lookup_snoc_Some in Hi as [[Hi1 Hi]|[-> Hi]], Hj as [[Hj1 Hj]|[-> Hj]]; simplify_eq.
  - by eapply Ha.
  - right. apply list_elem_of_lookup_2, Hs in Hi as [-> ?]. done.
  - right. apply list_elem_of_lookup_2, Hs in Hj as [-> ?]. done.
  - by left.
Qed.

Lemma elem_of_snoc_answers (ans : list (SessionKey * nat)) k s k' s' :
  (k', s') ∈ ans ++ [(k, s)] ↔ (k', s') ∈ ans ∨ k' = k ∧ s' = s.
Proof. rewrite elem_of_app, list_elem_of_singleton. naive_solver. Qed.
(** Storing a fresh session, with room or by evicting the oldest key. *)
Lemma session_slow_new n p o :
  (0 < n)%nat → provider_ok n p → sess_map (pr_inner p) !! o = None →
  ∃ m q,
    session_slow n (pr_inner p) o (pr_next p) = (mkInner m q, pr_next p)
    ∧ NoDup q ∧ (∀ o', o' ∈ q ↔ is_Some (m !! o')) ∧ (length q ≤ n)%nat
    ∧ m !! o = Some (pr_next p)
    ∧ ∀ o' s, m !! o' = Some s → o' = o ∧ s = pr_next p ∨ sess_map (pr_inner p) !! o' = Some s.
Proof.
  intros Hn [Hnd Hdom Hsize _ _ _ _] Ho. unfold session_slow. rewrite Ho.
  destruct p as [[m q] next ans]. simpl in *.
  assert (o ∉ q) as Hoq by (rewrite Hdom, Ho; intros []; done).
  rewrite map_size_insert_None, (size_order m q) by done.
  destruct (Nat.ltb_spec n (S (length q))) as [Hlt|Hge].
  - destruct q as [|x q]; [simpl in Hlt; lia|]. apply NoDup_cons in Hnd as [Hx Hq].
    assert (o ≠ x) as Hox by (intros ->; apply Hoq, list_elem_of_here).
    exists (delete x (<[o:=next]> m)), (q ++ [o]). split; [done|].
    split; [apply NoDup_app; split_and!; [done|set_solver|apply NoDup_singleton]|].
    split; [|split; [rewrite length_app; simpl in *; lia|split]].
    + intros o'. rewrite elem_of_app, list_elem_of_singleton.
      destruct (decide (o' = x)) as [->|Hx'].
      { rewrite lookup_delete_eq. split; [|by intros []]. intros [?| ->]; done. }
      rewrite lookup_delete_ne by done. destruct (decide (o' = o)) as [->|].
      { rewrite lookup_insert_eq. split; [by eauto|by right]. }
      rewrite lookup_insert_ne by done. rewrite <- Hdom. set_solver.
    + by rewrite lookup_delete_ne, lookup_insert_eq.
    + intros o' s [_ Hs]%lookup_delete_Some. apply lookup_insert_Some in Hs. naive_solver.
  - exists (<[o:=next]> m), (q ++ [o]). split; [done|].
    split; [apply NoDup_app; split_and!; [done|set_solver|apply NoDup_singleton]|].
    split; [|split; [rewrite length_app; simpl; lia|split; [apply lookup_insert_eq|]]].
    + intros o'. rewrite elem_of_app, list_elem_of_singleton, Hdom.
      destruct (decide (o' = o)) as [->|].
      { rewrite lookup_insert_eq. split; [by eauto|by right]. }
      rewrite lookup_insert_ne by done. naive_solver.
    + intros o' s Hs%lookup_insert_Some. naive_solver.
Qed.

Lemma provider_ok_hit n st next ans k o s :
  owned k = Some o → sess_map st !! o = Some s →
  provider_ok n (mkProvider st next ans) → provider_ok n (mkProvider st next (ans ++ [(k, s)])).
Proof.
  intros Hk Ho [Hnd Hdom Hsize Hf Hm Hi Ha]. simpl in *. destruct (Hm _ _ Ho) as [Hlt Hks].
  split; simpl; try done.
  - intros k' s' [?|[-> ->]]%elem_of_snoc_answers; [by eapply Hf|done].
  - intros o' s' Ho'. split; [by eapply Hm|]. intros k' [Hin|[-> ->]]%elem_of_snoc_answers.
    + by eapply Hm.
    + by rewrite (Hi _ _ _ Ho' Ho).
  - apply answers_snoc; [done|]. intros k' Hin. rewrite (Hks _ Hin), Hk. eauto.
Qed.

Lemma provider_ok_next n st next ans :
  provider_ok n (mkProvider st next ans) → provider_ok n (mkProvider st (S next) ans).
Proof.
  intros [Hnd Hdom Hsize Hf Hm Hi Ha]. simpl in *. split; simpl; try done.
  - intros k s Hin. specialize (Hf _ _ Hin). lia.
  - intros o s Ho. destruct (Hm _ _ Ho). split; [lia|done].
Qed.

Lemma provider_ok_step n p p' :
  (0 < n)%nat → provider_step n p p' → provider_ok n p → provider_ok n p'.
Proof.
  intros Hn [st next ans k Hk|st next ans k o s Hk Ho|st next ans k o st' s Hk Hs] Hok.
  - destruct Hok as [Hnd Hdom Hsize Hf Hm Hi Ha]. simpl in *. split; simpl; try done.
    + intros k' s [Hin|[-> ->]]%elem_of_snoc_answers; [specialize (Hf _ _ Hin); lia|lia].
    + intros o s Ho. destruct (Hm _ _ Ho) as [Hlt Hks]. split; [lia|].
      intros k' [Hin|[-> ->]]%elem_of_snoc_answers; [by apply Hks|lia].
    + apply answers_snoc; [done|]. intros k' Hin%Hf. lia.
  - by eapply provider_ok_hit.
  - destruct (sess_map st !! o) as [s0|] eqn:E.
    + unfold session_slow in Hs. rewrite E in Hs. simplify_eq.
      by eapply provider_ok_next, provider_ok_hit.
    + destruct (session_slow_new n _ o Hn Hok E) as (m & q & Hss & Hnd' & Hdom' & Hsize' & Hmo & Hmk).
      simpl in *. rewrite Hss in Hs. simplify_eq.
      destruct Hok as [Hnd Hdom Hsize Hf Hm Hi Ha]. simpl in *. split; simpl; try done.
      * intros k' s' [Hin|[-> ->]]%elem_of_snoc_answers; [specialize (Hf _ _ Hin); lia|lia].
      * intros o' s' Ho'. destruct (Hmk _ _ Ho') as [[-> ->]|Hold].
        -- split; [lia|]. intros k' [Hin|[-> _]]%elem_of_snoc_answers; [|done].
           specialize (Hf _ _ Hin). lia.
        -- destruct (Hm _ _ Hold) as [Hlt Hks]. split; [lia|].
           intros k' [Hin|[-> ->]]%elem_of_snoc_answers; [by apply Hks|lia].
      * intros o1 o2 s' H1 H2.
        destruct (Hmk _ _ H1) as [[-> ->]|O1], (Hmk _ _ H2) as [[-> Hs2]|O2]; try done;
          [apply Hm in O2 as [? _]; lia|apply Hm in O1 as [? _]; lia|by eapply Hi].
      * apply answers_snoc; [done|]. intros k' Hin%Hf. lia.
Qed.

Lemma provider_reachable_ok n p :
  provider_reachable n p → provider_ok n p.
Proof.
  intros (st & Hnew & Hr). unfold InMemorySessionProvider_new in Hnew.
  destruct (Nat.ltb_spec 0 n) as [Hn|]; simplify_eq.
  remember (mkProvider (mkInner ∅ []) 0 []) as p0 eqn:Hp0.
  assert (provider_ok n p0) as H0.
  { subst p0. split; simpl; [constructor| |lia|..]; try set_solver.
    intros o. rewrite lookup_empty. split; [by intros ?%elem_of_nil|by intros []]. }
  clear Hp0. induction Hr; eauto using provider_ok_step.
Qed.
(** ** Correctness of the locks *)

Record locks_ok (st : Locks) : Prop := {
  lok_ref : ∀ i h, lk_holders st !! i = Some h → (i < lk_next st)%nat ∧ (ho_lock h < lk_next st)%nat;
  lok_lt : ∀ o l, lk_map st !! o = Some l → (l < lk_next st)%nat;
  lok_map : ∀ i h o, lk_holders st !! i = Some h → ho_key h = Some o →
    lk_map st !! o = Some (ho_lock h);
  lok_inj : ∀ o o' l, lk_map st !! o = Some l → lk_map st !! o' = Some l → o = o';
  lok_key : ∀ o l i h, lk_map st !! o = Some l → lk_holders st !! i = Some h → ho_lock h = l →
    ho_key h = Some o;
  lok_anon : ∀ i j h h', lk_holders st !! i = Some h → lk_holders st !! j = Some h' →
    ho_lock h = ho_lock h' → i = j ∨ is_Some (ho_key h);
  lok_run : ∀ i j h h', lk_holders st !! i = Some h → lk_holders st !! j = Some h' →
    ho_lock h = ho_lock h' → ho_running h = true → ho_running h' = true → i = j;
}.

Lemma strong_count_held hs i h :
  hs !! i = Some h → (1 < strong_count hs (ho_lock h))%nat.
Proof.
  intros Hi. unfold strong_count. apply -> Nat.succ_lt_mono.
  apply Nat.neq_0_lt_0. rewrite map_size_non_empty_iff. intros He.
  by apply (map_filter_empty_not_lookup _ _ i h He).
Qed.

Lemma strong_count_holder hs l :
  (1 < strong_count hs l)%nat → ∃ i h, hs !! i = Some h ∧ ho_lock h = l.
Proof.
  unfold strong_count. intros Hc%Nat.succ_lt_mono%Nat.neq_0_lt_0.
  apply map_size_non_empty_iff, map_choose in Hc as (i & h & [Hi Hh]%map_lookup_filter_Some).
  by exists i, h.
Qed.

(** A new reference, to a lock of the map or to a fresh one. *)
Lemma locks_ok_insert m hs n k l :
  locks_ok (mkLocks m hs n) →
  match k with
  | Some o => m !! o = Some l
  | None => l = n
  end →
  locks_ok (mkLocks m (<[n:=mkHolder k l false]> hs) (S n)).
Proof.
  intros [Href Hlt Hmap Hinj Hkey Hanon Hrun] Hl. simpl in *.
  assert (l ≤ n)%nat as Hln by (destruct k as [o|]; [apply Hlt in Hl; lia|lia]).
  assert (∀ i h, hs !! i = Some h → ho_lock h = l → ∃ o, k = Some o ∧ ho_key h = Some o) as Hshare.
  { intros i h Hi Heq. destruct k as [o|]; [by eauto|]. apply Href in Hi. lia. }
  split; simpl.
  - intros i h [[<- <-]|[Hne Hi]]%lookup_insert_Some; simpl; [lia|]. apply Href in Hi. lia.
  - intros o l' Ho. apply Hlt in Ho. lia.
  - intros i h o [[<- <-]|[Hne Hi]]%lookup_insert_Some; simpl; [by intros ->|by eapply Hmap].
  - done.
  - intros o l' i h Ho [[<- <-]|[Hne Hi]]%lookup_insert_Some; simpl; [|by eapply Hkey].
    intros <-. destruct k as [o'|]; [by rewrite (Hinj _ _ _ Ho Hl)|].
    apply Hlt in Ho. lia.
  - intros i j h h' [[<- <-]|[Hne Hi]]%lookup_insert_Some
      [[<- <-]|[Hne' Hj]]%lookup_insert_Some; simpl; [by left|..]; intros Heq.
    + destruct (Hshare _ _ Hj (eq_sym Heq)) as (o & -> & _). right. by eexists.
    + destruct (Hshare _ _ Hi Heq) as (o & _ & ->). right. by eexists.
    + by eapply Hanon.
  - intros i j h h' [[<- <-]|[Hne Hi]]%lookup_insert_Some
      [[<- <-]|[Hne' Hj]]%lookup_insert_Some; simpl; try done. by eapply Hrun.
Qed.
(** Pruning drops only locks that no one references. *)
Lemma locks_ok_prune m hs n :
  locks_ok (mkLocks m hs n) →
  locks_ok (mkLocks (filter (λ p, 1 < strong_count hs p.2)%nat m) hs n).
Proof.
  intros [Href Hlt Hmap Hinj Hkey Hanon Hrun]. simpl in *. split; simpl; try done.
  - intros o l [Ho _]%map_lookup_filter_Some. by eapply Hlt.
  - intros i h o Hi Hk. apply map_lookup_filter_Some. split; [by eapply Hmap|].
    by eapply strong_count_held.
  - intros o o' l [Ho _]%map_lookup_filter_Some [Ho' _]%map_lookup_filter_Some. by eapply Hinj.
  - intros o l i h [Ho _]%map_lookup_filter_Some. by eapply Hkey.
Qed.

Lemma locks_ok_fresh m hs n o :
  m !! o = None → locks_ok (mkLocks m hs n) →
  ∀ h, h = mkHolder (Some o) n false →
  locks_ok (mkLocks (<[o:=n]> m) (<[n:=h]> hs) (S n)).
Proof.
  intros Ho [Href Hlt Hmap Hinj Hkey Hanon Hrun] h ->. simpl in *.
  assert (∀ i h, hs !! i = Some h → ho_lock h ≠ n) as Hne by (intros i h Hi; apply Href in Hi; lia).
  split; simpl.
  - intros i h [[<- <-]|[_ Hi]]%lookup_insert_Some; simpl; [lia|]. apply Href in Hi. lia.
  - intros o' l [[<- <-]|[_ Ho']]%lookup_insert_Some; [lia|]. apply Hlt in Ho'. lia.
  - intros i h o' [[<- <-]|[_ Hi]]%lookup_insert_Some; simpl.
    + intros [= <-]. apply lookup_insert_eq.
    + intros Hk. rewrite lookup_insert_ne; [by eapply Hmap|]. intros ->.
      by rewrite (Hmap _ _ _ Hi Hk) in Ho.
  - intros o1 o2 l [[<- <-]|[_ H1]]%lookup_insert_Some [[<- H2]|[_ H2]]%lookup_insert_Some;
      try done; [apply Hlt in H2; lia|apply Hlt in H1; lia|by eapply Hinj].
  - intros o' l i h [[<- <-]|[_ Ho']]%lookup_insert_Some [[<- <-]|[_ Hi]]%lookup_insert_Some; simpl.
    + done.
    + intros Heq. by destruct (Hne _ _ Hi).
    + intros <-. apply Hlt in Ho'. lia.
    + by eapply Hkey.
  - intros i j h h' [[<- <-]|[_ Hi]]%lookup_insert_Some [[<- <-]|[_ Hj]]%lookup_insert_Some;
      simpl; intros Heq; [by left|by right; eexists|by destruct (Hne _ _ Hi)|by eapply Hanon].
  - intros i j h h' [[<- <-]|[_ Hi]]%lookup_insert_Some [[<- <-]|[_ Hj]]%lookup_insert_Some;
      simpl; try done. by eapply Hrun.
Qed.

Lemma locks_ok_step st st' : lock_step st st' → locks_ok st → locks_ok st'.
Proof.
  intros [[m hs n] k|m hs n i k l Hi Hfree|m hs n i] Hok.
  - unfold lock_for. simpl. destruct (owned k) as [o|].
    + apply locks_ok_prune in Hok. destruct (filter _ m !! o) as [l|] eqn:E.
      * by apply locks_ok_insert.
      * by eapply locks_ok_fresh.
    + by apply locks_ok_insert.
  - destruct Hok as [Href Hlt Hmap Hinj Hkey Hanon Hrun]. simpl in *.
    split; simpl; try done.
    + intros j h [[<- <-]|[_ Hj]]%lookup_insert_Some; [by apply Href in Hi|by eapply Href].
    + intros j h o [[<- <-]|[_ Hj]]%lookup_insert_Some; [by apply (Hmap _ _ _ Hi)|by eapply Hmap].
    + intros o l' j h Ho [[<- <-]|[_ Hj]]%lookup_insert_Some; [by apply (Hkey _ _ _ _ Ho Hi)|by eapply Hkey].
    + intros j1 j2 h1 h2 [[<- <-]|[_ H1]]%lookup_insert_Some [[<- <-]|[_ H2]]%lookup_insert_Some;
        simpl; intros Heq; [by left|by apply (Hanon _ _ _ _ Hi H2)|by apply (Hanon _ _ _ _ H1 Hi)|
        by eapply Hanon].
    + intros j1 j2 h1 h2 [[<- <-]|[_ H1]]%lookup_insert_Some [[<- <-]|[_ H2]]%lookup_insert_Some;
        simpl; intros Heq R1 R2; [done| | |by eapply Hrun].
      * by rewrite (Hfree _ _ H2) in R2.
      * by rewrite (Hfree _ _ H1) in R1.
  - destruct Hok as [Href Hlt Hmap Hinj Hkey Hanon Hrun]. simpl in *.
    split; simpl; try done.
    + intros j h [_ Hj]%lookup_delete_Some. by eapply Href.
    + intros j h o [_ Hj]%lookup_delete_Some. by eapply Hmap.
    + intros o l j h Ho [_ Hj]%lookup_delete_Some. by eapply Hkey.
    + intros j1 j2 h1 h2 [_ H1]%lookup_delete_Some [_ H2]%lookup_delete_Some. by eapply Hanon.
    + intros j1 j2 h1 h2 [_ H1]%lookup_delete_Some [_ H2]%lookup_delete_Some. by eapply Hrun.
Qed.

Lemma locks_reachable_ok st : locks_reachable st → locks_ok st.
Proof.
  unfold locks_reachable. intros Hr. remember SessionLocks_new as st0 eqn:E.
  assert (locks_ok st0) as H0 by (subst; by split).
  clear E. induction Hr; eauto using locks_ok_step.
Qed.
(** Storage keys are collision free: two requests with the same storage key
    come from the same principal (or both from none) and name the same
    session; a request without a session id has no storage key at all. *)
Theorem storage_key_injective k1 k2 :
  storage_key k1 = storage_key k2 →
  match storage_key k1 with
  | Some _ => k1 = k2
  | None => key_id k1 = None ∧ key_id k2 = None
  end.
Proof.
  destruct k1 as [p1 [i1|]], k2 as [p2 [i2|]]; unfold storage_key; simpl; try done.
  intros Heq. destruct p1 as [p1|], p2 as [p2|]; try discriminate Heq; injection Heq as Heq.
  - destruct (app_colon_inj _ _ _ _ (show_no_colon _) (show_no_colon _) Heq) as [Hn Hr].
    apply (inj _), Nat2Z.inj in Hn.
    destruct (string_app_inj_length _ _ _ _ Hn Hr) as [-> Hid]. by injection Hid as ->.
  - by subst.
Qed.

(** A session object never serves two keys: under every interleaving of
    requests, two answers with the same session were for the same principal and
    the same session id, and an anonymous request gets a session no one else
    ever gets; at most [max_sessions] sessions are tracked. *)
Theorem session_isolation max_sessions p i j k k' s :
  provider_reachable max_sessions p →
  pr_answers p !! i = Some (k, s) → pr_answers p !! j = Some (k', s) → i ≠ j →
  k = k' ∧ is_Some (key_id k) ∧ (size (sess_map (pr_inner p)) ≤ max_sessions)%nat.
Proof.
  intros Hr Hi Hj Hne. apply provider_reachable_ok in Hr.
  destruct Hr as [Hnd Hdom Hsize _ _ _ Ha]. rewrite (size_order _ _ Hnd Hdom).
  destruct (Ha _ _ _ _ _ Hi Hj) as [?|[Ho [o Hs]]]; [done|].
  destruct k as [p1 [i1|]], k' as [p2 [i2|]]; simplify_eq/=; split_and!; by eauto.
Qed.

(** A tracked key keeps its session: until its key is evicted, every request
    gets the session stored for it, on either path. *)
Theorem session_stable max_sessions p p' o s :
  provider_reachable max_sessions p →
  sess_map (pr_inner p) !! o = Some s →
  provider_step max_sessions p p' →
  match sess_map (pr_inner p') !! o with
  | Some s' => s' = s
  | None => head (sess_order (pr_inner p)) = Some o
      ∧ size (sess_map (pr_inner p)) = max_sessions
  end.
Proof.
  intros Hr Hs Hst. apply provider_reachable_ok in Hr. destruct Hr as [Hnd Hdom Hsize _ _ _ _].
  destruct Hst as [st next ans k Hk|st next ans k o' s' Hk Ho|st next ans k o' st' s' Hk Hss];
    simpl in *; [by rewrite Hs|by rewrite Hs|].
  unfold session_slow in Hss. destruct (sess_map st !! o') as [s0|] eqn:E;
    simplify_eq; [by rewrite Hs|].
  assert (o ≠ o') as Hne by congruence.
  rewrite map_size_insert_None, (size_order _ _ Hnd Hdom) in * by done.
  destruct (Nat.ltb_spec max_sessions (S (length (sess_order st)))).
  - destruct (sess_order st) as [|x q] eqn:Eq; simplify_eq/=.
    + by assert (o ∈ @nil OwnedKey) as ?%elem_of_nil by (apply Hdom; eauto).
    + destruct (decide (o = x)) as [->|Hox].
      * rewrite lookup_delete_eq. split; [done|]. lia.
      * by rewrite lookup_delete_ne, lookup_insert_ne, Hs.
  - simplify_eq/=. by rewrite lookup_insert_ne, Hs.
Qed.

(** Runs of one session are serialised, and sessions do not block each
    other: under every interleaving two outstanding references are to the same
    lock exactly when they were taken for the same named key, whatever the map
    pruned in between, so at most one of them is running. *)
Theorem session_runs_exclusive st i j h h' :
  locks_reachable st →
  lk_holders st !! i = Some h → lk_holders st !! j = Some h' → i ≠ j →
  (ho_lock h = ho_lock h' ↔ ho_key h = ho_key h' ∧ is_Some (ho_key h))
  ∧ (ho_key h = ho_key h' → is_Some (ho_key h) → ¬ (ho_running h = true ∧ ho_running h' = true)).
Proof.
  intros Hr Hi Hj Hne. apply locks_reachable_ok in Hr.
  destruct Hr as [Href Hlt Hmap Hinj Hkey Hanon Hrun].
  assert (ho_key h = ho_key h' → is_Some (ho_key h) → ho_lock h = ho_lock h') as Hsame.
  { intros Heq [o Ho]. pose proof (Hmap _ _ _ Hi Ho) as H1. rewrite Heq in Ho.
    pose proof (Hmap _ _ _ Hj Ho). congruence. }
  split.
  - split; [|intros []; auto]. intros Heq. destruct (Hanon _ _ _ _ Hi Hj Heq) as [?|[o Ho]]; [done|].
    split; [|by eauto]. pose proof (Hmap _ _ _ Hi Ho) as Hm.
    by rewrite Ho, (Hkey _ _ _ _ Hm Hj (eq_sym Heq)).
  - intros Heq Hs [R1 R2]. by apply Hne, (Hrun _ _ _ _ Hi Hj (Hsame Heq Hs)).
Qed.

(** The lock map stays bounded by the runs in flight: right after a request
    has taken its lock every entry of the map is referenced by a holder of that
    key. *)
Theorem locks_bounded st k o l :
  locks_reachable st → is_Some (key_id k) →
  lk_map (lock_for st k) !! o = Some l →
  ∃ i h, lk_holders (lock_for st k) !! i = Some h ∧ ho_key h = Some o ∧ ho_lock h = l.
Proof.
  intros Hr [d Hd] Ho. pose proof (locks_reachable_ok _ Hr) as Hok.
  assert (locks_ok (lock_for st k)) as Hok' by (eapply locks_ok_step; [constructor|done]).
  assert (∀ l, (1 < strong_count (lk_holders st) l)%nat → ∃ i h,
    i ≠ lk_next st ∧ lk_holders st !! i = Some h ∧ ho_lock h = l) as Hheld.
  { intros l' (i & h & Hi & Hl)%strong_count_holder. exists i, h. split_and!; [|done..].
    intros ->. apply (lok_ref _ Hok) in Hi. lia. }
  assert (∃ i h, lk_holders (lock_for st k) !! i = Some h ∧ ho_lock h = l) as (i & h & Hi & Hl).
  { unfold lock_for, owned in *. rewrite Hd in *. simpl in *.
    destruct (filter _ (lk_map st) !! _) as [l0|] eqn:E; simpl in *.
    - apply map_lookup_filter_Some in Ho as [_ (i & h & Hn & Hi & Hl)%Hheld].
      exists i, h. by rewrite lookup_insert_ne.
    - apply lookup_insert_Some in Ho as [[<- <-]|[Hne Ho]].
      + eexists _, _. by rewrite lookup_insert_eq.
      + apply map_lookup_filter_Some in Ho as [_ (i & h & Hn & Hi & Hl)%Hheld].
        exists i, h. by rewrite lookup_insert_ne. }
  exists i, h. split_and!; [done| |done]. by eapply (lok_key _ Hok').
Qed.

(** *** Witnesses: two principals and the id "s1" *)

Module SessionDemo.
Definition alice : SessionKey := mkSessionKey (Some "alice") (Some "s1").
Definition bob : SessionKey := mkSessionKey (Some "bob") (Some "s1").

(** Alice twice, then Bob, with room for one session. *)
Definition after : Provider :=
  mkProvider (mkInner {[ (Some "bob", "s1") := 1%nat ]} [(Some "bob", "s1")]) 2
    [(alice, 0); (alice, 0); (bob, 1)]%nat.

Definition before : Provider :=
  mkProvider (mkInner {[ (Some "alice", "s1") := 0%nat ]} [(Some "alice", "s1")]) 1
    [(alice, 0); (alice, 0)]%nat.

Lemma before_reachable : provider_reachable 1 before.
Proof.
  eexists. split; [reflexivity|].
  eapply rtc_l; [by apply (ps_slow 1 _ _ _ alice (Some "alice", "s1"))|].
  eapply rtc_l; [by apply (ps_fast 1 _ _ _ alice (Some "alice", "s1") 0%nat)|].
  apply rtc_refl.
Qed.

Lemma before_after : provider_step 1 before after.
Proof.
  exact (ps_slow 1 (pr_inner before) 1 (pr_answers before) bob (Some "bob", "s1")
    (pr_inner after) 1 eq_refl eq_refl).
Qed.

(** Two requests of Alice and one of Bob hold their locks. *)
Definition held : Locks := lock_for (lock_for (lock_for SessionLocks_new alice) alice) bob.

Lemma held_reachable : locks_reachable held.
Proof. do 3 (eapply rtc_l; [apply ls_lock_for|]). apply rtc_refl. Qed.
End SessionDemo.

Lemma storage_key_injective_witness :
  storage_key (mkSessionKey (Some "a:b") (Some "c")) = Some "p3:a:b:c"
  ∧ mkSessionKey (Some "a:b") (Some "c") = mkSessionKey (Some "a:b") (Some "c").
Proof.
  split; [reflexivity|].
  exact (storage_key_injective (mkSessionKey (Some "a:b") (Some "c"))
    (mkSessionKey (Some "a:b") (Some "c")) eq_refl).
Defined.

Lemma session_isolation_witness :
  pr_answers SessionDemo.before !! 0%nat = Some (SessionDemo.alice, 0%nat)
  ∧ (size (sess_map (pr_inner SessionDemo.before)) ≤ 1)%nat.
Proof.
  split; [reflexivity|].
  exact (proj2 (proj2 (session_isolation 1 SessionDemo.before 0 1 SessionDemo.alice
    SessionDemo.alice 0 SessionDemo.before_reachable eq_refl eq_refl ltac:(lia)))).
Defined.

(** Bob's request evicts Alice's session, the oldest of one. *)
Lemma session_stable_witness :
  head (sess_order (pr_inner SessionDemo.before)) = Some (Some "alice", "s1").
Proof.
  exact (proj1 (session_stable 1 SessionDemo.before SessionDemo.after (Some "alice", "s1") 0
    SessionDemo.before_reachable eq_refl SessionDemo.before_after)).
Defined.

Lemma session_runs_exclusive_witness :
  lk_holders SessionDemo.held !! 1%nat = Some (mkHolder (Some (Some "alice", "s1")) 0 false)
  ∧ ¬ (0 = 2)%nat.
Proof.
  split; [reflexivity|]. intros Hl.
  pose proof (session_runs_exclusive SessionDemo.held 0 2 _ _ SessionDemo.held_reachable eq_refl
    eq_refl ltac:(lia)) as [[He _] _].
  destruct (He Hl) as [Hk _]. discriminate Hk.
Defined.

Lemma locks_bounded_witness :
  ∃ i h, lk_holders SessionDemo.held !! i = Some h ∧ ho_key h = Some (Some "alice", "s1")
    ∧ ho_lock h = 0%nat.
Proof.
  refine (locks_bounded (lock_for (lock_for SessionLocks_new SessionDemo.alice) SessionDemo.alice)
    SessionDemo.bob (Some "alice", "s1") 0 _ (ex_intro _ "s1" eq_refl) eq_refl).
  do 2 (eapply rtc_l; [apply ls_lock_for|]). apply rtc_refl.
Defined.
