(* ===== verification/Retry.v ===== *)
(** Retry of transient model errors: runtime-tokio/src/retry.rs.

    A [RetryPolicy] is pure data and [RetryingModel] a model around a model, so
    that its [invoke] has the type the driver expects of one.  Durations are
    nanoseconds; [f64] is the binary64 of [SpecFloat].  The loop has fuel
    [max_attempts], which is proved enough. *)

From Stdlib Require Import SpecFloat.
From S2P Require Import Prelude Json Items PathMatch CommandMatch LoopState Permission.
From S2P Require Import Redaction Tools ModelTurn Driver.

(** ** Durations and floats *)

Definition f64 : Type := spec_float.
Definition f64_of_Z (n : Z) : f64 := binary_normalize 53 1024 n 0 false.
Definition f64_add : f64 → f64 → f64 := SFadd 53 1024.
Definition f64_mul : f64 → f64 → f64 := SFmul 53 1024.
Definition f64_div : f64 → f64 → f64 := SFdiv 53 1024.

Definition f64_is_finite (x : f64) : bool :=
  match x with S754_zero _ | S754_finite _ _ _ => true | _ => false end.

(** [f64::min] and [f64::max] ignore a NaN operand. *)
Definition f64_min (x y : f64) : f64 :=
  match x, y with
  | S754_nan, _ => y
  | _, S754_nan => x
  | _, _ => if SFltb y x then y else x
  end.

Definition f64_max (x y : f64) : f64 :=
  match x, y with
  | S754_nan, _ => y
  | _, S754_nan => x
  | _, _ => if SFltb x y then y else x
  end.

Definition nanos_per_sec : Z := 1000000000.
Definition nanos_per_milli : Z := 1000000.

(** [Duration::MAX]. *)
Definition Duration_max : Z := (u64_max * nanos_per_sec + 999999999)%Z.

Definition Duration_from_millis (ms : Z) : Z := (ms * nanos_per_milli)%Z.

Definition as_secs_f64 (d : Z) : f64 :=
  f64_add (f64_of_Z (d / nanos_per_sec))
    (f64_div (f64_of_Z (d mod nanos_per_sec)) (f64_of_Z nanos_per_sec)).

(** The quotient rounded to nearest, ties to even. *)
Definition div_round_even (n d : Z) : Z :=
  let q := (n / d)%Z in
  match Z.compare (2 * (n mod d)) d with
  | Lt => q
  | Gt => q + 1
  | Eq => if Z.even q then q else q + 1
  end%Z.

(** [Duration::try_from_secs_f64]; [None] is its error. *)
Definition try_from_secs_f64 (x : f64) : option Z :=
  match x with
  | S754_zero _ => Some 0%Z
  | S754_finite false m e =>
      let d := div_round_even (Zpos m * nanos_per_sec * 2 ^ Z.max e 0) (2 ^ Z.max (- e) 0) in
      if (d <=? Duration_max)%Z then Some d else None
  | _ => None
  end%Z.

(** ** The policy *)

Record RetryPolicy := mkRetryPolicy {
  rp_max_attempts : Z;
  rp_base_delay : Z;
  rp_multiplier : f64;
  rp_max_delay : Z;
  rp_jitter : bool;
}.

Definition RetryPolicy_default : RetryPolicy :=
  mkRetryPolicy 3 (Duration_from_millis 500) (f64_of_Z 2) (30 * nanos_per_sec) true.

(** The builder. *)
Definition set_max_attempts (p : RetryPolicy) (n : Z) : RetryPolicy :=
  mkRetryPolicy (Z.max n 1) (rp_base_delay p) (rp_multiplier p) (rp_max_delay p) (rp_jitter p).
Definition set_base_delay (p : RetryPolicy) (d : Z) : RetryPolicy :=
  mkRetryPolicy (rp_max_attempts p) d (rp_multiplier p) (rp_max_delay p) (rp_jitter p).
Definition set_multiplier (p : RetryPolicy) (m : f64) : RetryPolicy :=
  mkRetryPolicy (rp_max_attempts p) (rp_base_delay p) m (rp_max_delay p) (rp_jitter p).
Definition set_max_delay (p : RetryPolicy) (d : Z) : RetryPolicy :=
  mkRetryPolicy (rp_max_attempts p) (rp_base_delay p) (rp_multiplier p) d (rp_jitter p).
Definition set_jitter (p : RetryPolicy) (on : bool) : RetryPolicy :=
  mkRetryPolicy (rp_max_attempts p) (rp_base_delay p) (rp_multiplier p) (rp_max_delay p) on.

Definition is_retryable (err : ModelError) : bool :=
  match err with RateLimited _ | Unavailable | Transport _ => true | _ => false end.

Definition u32_saturating_sub (a b : Z) : Z := Z.max (a - b) 0.

(** [as i32] *)
Definition i32_of_u32 (n : Z) : Z := if (n <? 2 ^ 31)%Z then n else (n - 2 ^ 32)%Z.

Section Retry.
(** [f64::powi], whose precision the language leaves open. *)
Variable powi : f64 → Z → f64.

(** The backoff before jitter. *)
Definition ceiling (p : RetryPolicy) (attempt : Z) : f64 :=
  let grown :=
    f64_mul (as_secs_f64 (rp_base_delay p)) (powi (rp_multiplier p) (i32_of_u32 attempt)) in
  let cap := as_secs_f64 (rp_max_delay p) in
  if f64_is_finite grown then f64_min grown cap else cap.

Definition next_delay (p : RetryPolicy) (attempt : Z) (err : ModelError) (jitter_fraction : f64)
  : option Z :=
  if negb (is_retryable err) || (u32_saturating_sub (rp_max_attempts p) 1 <=? attempt)%Z then None
  else
    let secs :=
      if rp_jitter p then f64_mul (ceiling p attempt) jitter_fraction else ceiling p attempt in
    let delay := default (rp_max_delay p) (try_from_secs_f64 (f64_max secs (S754_zero false))) in
    Some match err with
         | RateLimited (Some ms) => Z.max delay (Duration_from_millis ms)
         | _ => delay
         end.

(** ** The retrying model *)

Context `{J : SerdeJson} {W : Type}.

(** The wrapped model; the race between cancellation and the next item of its
    stream, or a sleep ([true]: cancellation won); and the random numbers. *)
Variables (inner : ModelInvoke (W:=W)) (policy : RetryPolicy).
Variables (cancel_next : W → bool * W) (cancel_sleep : Z → W → bool * W).
Variable fastrand : W → f64 * W.

Abbreviation StreamItem := (result ModelEvent ModelError).

(** One round of the loop: return after yielding, or [continue]. *)
Inductive Round : Type :=
| Return (yielded : list StreamItem) (w : W)
| Again (w : W).

(** [backoff], negated. *)
Definition after_error (attempt : Z) (e : ModelError) (w : W) : Round :=
  let '(jitter_fraction, w) := fastrand w in
  match next_delay policy attempt e jitter_fraction with
  | Some d => let '(cancelled, w) := cancel_sleep d w in if cancelled then Return [] w else Again w
  | None => Return [Err e] w
  end.

(** Forward the rest of the stream until it ends or cancellation fires. *)
Fixpoint forward_rest (stream : list StreamItem) (w : W) : list StreamItem * W :=
  let '(cancelled, w) := cancel_next w in
  if cancelled then ([], w)
  else match stream with
       | [] => ([], w)
       | item :: stream' => let '(out, w) := forward_rest stream' w in (item :: out, w)
       end.

Definition round (attempt : Z) (request : ModelRequest) (w : W) : Round :=
  let '(res, w) := inner request w in
  match res with
  | Err e => after_error attempt e w
  | Ok stream =>
      let '(cancelled, w) := cancel_next w in
      if cancelled then Return [] w
      else match stream with
           | [] => Return [] w
           | Ok ev :: rest => let '(out, w) := forward_rest rest w in Return (Ok ev :: out) w
           | Err e :: _ => after_error attempt e w
           end
  end.

Fixpoint attempts (fuel : nat) (attempt : Z) (request : ModelRequest) (w : W)
  : option (list StreamItem * W) :=
  match fuel with
  | O => None
  | S fuel' =>
      match round attempt request w with
      | Return out w => Some (out, w)
      | Again w => attempts fuel' (attempt + 1) request w
      end
  end.

Definition retry_fuel : nat := Z.to_nat (Z.max (rp_max_attempts policy) 1).

(** [RetryingModel::invoke]: never an error itself. *)
Definition RetryingModel_invoke : ModelInvoke :=
  λ request w,
    match attempts retry_fuel 0 request w with
    | Some (out, w) => (Ok out, w)
    | None => (Ok [], w)
    end.

(** ** Correctness *)

(** What one invocation of the wrapped model has to offer: its stream, or the
    error it fails with before any event. *)
Definition offer (request : ModelRequest) (w : W) : list StreamItem :=
  match (inner request w).1 with
  | Err e => [Err e]
  | Ok (Err e :: _) => [Err e]
  | Ok stream => stream
  end.

Definition failure_of (items : list StreamItem) : option ModelError :=
  match items with Err e :: _ => Some e | _ => None end.

(** A rate limit that names a wait gets at least that wait. *)
Definition respects_retry_after (e : ModelError) (d : Z) : Prop :=
  match e with RateLimited (Some ms) => (Duration_from_millis ms ≤ d)%Z | _ => True end.

(** [n] invocations failed before any event with a transient error and were
    each followed by the wait of the policy. *)
Inductive retried (request : ModelRequest) (w : W) : nat → W → Prop :=
| retried_none : retried request w 0 w
| retried_more n wn w' e d jitter_fraction :
    retried request w n wn →
    failure_of (offer request wn) = Some e → is_retryable e = true →
    next_delay policy (Z.of_nat n) e jitter_fraction = Some d → respects_retry_after e d →
    round (Z.of_nat n) request wn = Again w' →
    retried request w (S n) w'.

Lemma next_delay_Some attempt e j d :
  next_delay policy attempt e j = Some d →
  is_retryable e = true ∧ (attempt < u32_saturating_sub (rp_max_attempts policy) 1)%Z
  ∧ respects_retry_after e d.
Proof.
  unfold next_delay. destruct (is_retryable e) eqn:He; [|done].
  destruct (Z.leb_spec (u32_saturating_sub (rp_max_attempts policy) 1) attempt); [done|].
  intros [= <-]. split_and!; [done..|]. destruct e as [|[ms|]| | | |]; simpl; try done. lia.
Qed.

Lemma next_delay_None attempt e j :
  next_delay policy attempt e j = None →
  is_retryable e = true → (u32_saturating_sub (rp_max_attempts policy) 1 ≤ attempt)%Z.
Proof.
  unfold next_delay. destruct (is_retryable e); [|done]. simpl.
  by destruct (Z.leb_spec (u32_saturating_sub (rp_max_attempts policy) 1) attempt).
Qed.

Lemma forward_rest_prefix stream w : (forward_rest stream w).1 `prefix_of` stream.
Proof.
  revert w. induction stream as [|item stream IH]; intros w; simpl.
  - by destruct (cancel_next w) as [[] ?].
  - destruct (cancel_next w) as [[] w1]; [apply prefix_nil|].
    specialize (IH w1). destruct (forward_rest stream w1). by apply prefix_cons.
Qed.

(** Without cancellation nothing is cut off. *)
Definition never_cancelled : Prop :=
  (∀ w, (cancel_next w).1 = false) ∧ (∀ d w, (cancel_sleep d w).1 = false).

Lemma forward_rest_all stream w : never_cancelled → (forward_rest stream w).1 = stream.
Proof.
  intros [Hc _]. revert w. induction stream as [|item stream IH]; intros w; simpl;
    pose proof (Hc w) as Hw; destruct (cancel_next w) as [c w1]; simpl in Hw; subst c.
  { done. }
  specialize (IH w1). destruct (forward_rest stream w1). simpl in *. by rewrite IH.
Qed.

(** An error either gives up and is delivered, is cut off by cancellation, or
    leads to another round. *)
Lemma after_error_spec attempt e w :
  match after_error attempt e w with
  | Return out _ =>
      (out = [] ∧ ¬ never_cancelled)
      ∨ (out = [Err e]
         ∧ (is_retryable e = true → (u32_saturating_sub (rp_max_attempts policy) 1 ≤ attempt)%Z))
  | Again _ => ∃ d j, next_delay policy attempt e j = Some d
  end.
Proof.
  unfold after_error. destruct (fastrand w) as [j w1].
  destruct (next_delay policy attempt e j) as [d|] eqn:Hd.
  - destruct (cancel_sleep d w1) as [[] w2] eqn:Hc; [|eauto]. left. split; [done|].
    intros [_ H]. specialize (H d w1). rewrite Hc in H. done.
  - right. split; [done|]. by eapply next_delay_None.
Qed.

(** What a round may return of what the model offers. *)
Definition delivered (attempt : Z) (items out : list StreamItem) : Prop :=
  out `prefix_of` items
  ∧ (never_cancelled → out = items)
  ∧ ∀ e, failure_of out = Some e → is_retryable e = true →
      (u32_saturating_sub (rp_max_attempts policy) 1 ≤ attempt)%Z.

Lemma round_spec attempt request w :
  match round attempt request w with
  | Return out _ => delivered attempt (offer request w) out
  | Again _ => ∃ e d j, failure_of (offer request w) = Some e
      ∧ next_delay policy attempt e j = Some d
  end.
Proof.
  assert (∀ e w1, match after_error attempt e w1 with
    | Return out _ => delivered attempt [Err e] out
    | Again _ => ∃ e' d j, failure_of [Err e] = Some e' ∧ next_delay policy attempt e' j = Some d
    end) as Herr.
  { intros e w1. pose proof (after_error_spec attempt e w1) as He.
    destruct (after_error attempt e w1); [|naive_solver].
    destruct He as [[-> ?]|[-> ?]]; (split_and!; [by eexists|done|naive_solver]). }
  unfold round, offer. destruct (inner request w) as [[stream|e] w1]; simpl; [|apply Herr].
  destruct (cancel_next w1) as [[] w2] eqn:Hc.
  - split_and!; [apply prefix_nil| |done]. intros [H _]. specialize (H w1). by rewrite Hc in H.
  - destruct stream as [|[ev|e] rest]; [by split_and!| |apply Herr].
    pose proof (forward_rest_prefix rest w2). pose proof (forward_rest_all rest w2) as Hall.
    destruct (forward_rest rest w2) as [out w3]. split_and!; [by apply prefix_cons| |done].
    intros Hn. by rewrite <- (Hall Hn).
Qed.

Lemma attempts_spec request w fuel n wn :
  retried request w n wn →
  (Z.to_nat (Z.max (rp_max_attempts policy) 1) ≤ fuel + n)%nat → (0 < fuel)%nat →
  ∃ m wm out w', attempts fuel (Z.of_nat n) request wn = Some (out, w')
    ∧ retried request w m wm ∧ (m <= n ∨ m < Z.to_nat (Z.max (rp_max_attempts policy) 1))%nat
    ∧ delivered (Z.of_nat m) (offer request wm) out.
Proof.
  revert n wn. induction fuel as [|fuel IH]; intros n wn Hr Hf Hpos; [lia|]. simpl.
  pose proof (round_spec (Z.of_nat n) request wn) as Hround.
  destruct (round (Z.of_nat n) request wn) as [out w1|w1] eqn:Hrd.
  - exists n, wn, out, w1. auto.
  - destruct Hround as (e & d & j & He & Hd).
    destruct (next_delay_Some _ _ _ _ Hd) as (Hre & Hlt & Hra). unfold u32_saturating_sub in Hlt.
    replace (Z.of_nat n + 1)%Z with (Z.of_nat (S n)) by lia.
    destruct (IH (S n) w1) as (m & wm & out & w' & Ha & Hm & Hb & Hdel); [by econstructor|lia..|].
    exists m, wm, out, w'. split_and!; [done..| |done]. lia.
Qed.
End Retry.


(** Two rate limits and then a stream, under the default policy without jitter:
    the clock is the world. *)
Module RetryDemo.
#[local] Existing Instance Toy.json.

Definition powi (x : f64) (n : Z) : f64 := Z.iter n (f64_mul x) (f64_of_Z 1).

Definition flaky : ModelInvoke (W:=Z) :=
  λ _ now,
    if (now <? 1000000000)%Z then (Ok [Err (RateLimited (Some 700%Z)); Ok (METokenDelta "x")], now)
    else if (now <? 2000000000)%Z then (Err Unavailable, now)
    else (Ok [Ok (METokenDelta "a"); Err Unavailable], now).

Definition run (policy : RetryPolicy) : result (list (result ModelEvent ModelError)) ModelError * Z :=
  RetryingModel_invoke powi flaky policy (λ now, (false, now)) (λ d now, (false, now + d)%Z)
    (λ now, (S754_zero false, now)) (mkModelRequest [] [] (mkModelSettings None None None None None None))
    500000000%Z.

Example retries : run (set_jitter RetryPolicy_default false)
  = (Ok [Ok (METokenDelta "a"); Err Unavailable], 2200000000%Z).
Proof. vm_compute. reflexivity. Qed.

Example gives_up : run (set_max_attempts (set_jitter RetryPolicy_default false) 2)
  = (Ok [Err Unavailable], 1200000000%Z).
Proof. vm_compute. reflexivity. Qed.
End RetryDemo.
