(* ===== verification/LiteLlm.v ===== *)
(** The LiteLLM provider: classification of failed responses (error.rs, and
    [error_from_body] of model.rs), the translation of streamed chunks into
    model events ([ChatTranslator] of stream.rs over the types of sse.rs), and
    the streaming loop of [LiteLlmModel::invoke] (model.rs), all of
    paigasus-helikon-providers-litellm/src.

    The [warned_*] fields of [ChatTranslator] only gate log lines and are left
    out.  The field [alarms] is not in the source: it counts the [debug_assert!]s
    that fail and the [tracing::error!]s that fire, so that a theorem can say
    that there are none.  Deserializing a chunk is the parameter [parse_chunk].

    The theorems: no sequence of chunks makes the translator name a call twice,
    follow [Finish] with anything or trip an assertion; and for a backend that
    indexes its tool calls each call is decoded as if it were streamed alone,
    whatever the interleaving, so that a turn is accumulated from exactly the
    fragments sent. *)

From stdpp Require Import sorting.
From S2P Require Import Prelude Json Items Redaction ModelTurn.

(** ** Failed responses *)

Definition normalise_type (raw : option string) : option string :=
  match raw with
  | Some t =>
      if negb (is_empty t) && negb (String.eqb t "None") && negb (String.eqb t "null")
      then Some t else None
  | None => None
  end.

Definition is_context_overflow (message : string) (is_parsed_error_message : bool) : bool :=
  if contains_str message "ContextWindowExceededError" then true
  else if negb is_parsed_error_message then false
  else
    let lc := string_lower message in
    contains_str lc "context_window_exceeded" || contains_str lc "context_length_exceeded"
    || (contains_str lc "maximum context length" || contains_str lc "context window").

Definition is_budget_exhaustion (err_type : option string) (message : string) : bool :=
  if contains_str (string_lower (default "" err_type)) "budget" then true
  else
    let lc := string_lower message in
    contains_str lc "budgetexceeded" || contains_str lc "budget has been exceeded".

(** [matches!(status, 500 | 502 | 503 | 504)] and the like. *)
Definition one_of (status : Z) (l : list Z) : bool := existsb (Z.eqb status) l.

Definition classify (status : Z) (code err_type : option string) (message : string)
    (is_parsed_error_message : bool) (retry_after_ms : option Z) : ModelError :=
  let err_type := normalise_type err_type in
  if is_context_overflow message is_parsed_error_message then ContextLengthExceeded
  else if one_of status [429%Z] && is_budget_exhaustion err_type message then Refused message
  else if one_of status [429%Z] then RateLimited retry_after_ms
  else if one_of status [500; 502; 503; 504]%Z then Unavailable
  else if one_of status [401; 403]%Z then Refused message
  else match err_type with
       | Some "content_policy_violation" | Some "no_db_connection" => Refused message
       | _ =>
           ModelOther ("litellm http " +:+ show_Z status +:+
             match code with Some c => " (code " +:+ c +:+ ")" | None => "" end +:+
             ": " +:+ message)
       end.

(** The argument is the header's value, when it is present and printable. *)
Definition parse_retry_after_ms (retry_after : option string) : option Z :=
  match retry_after with
  | None => None
  | Some v =>
      match parse_uint u64_max (trim v) with
      | Some s => Some (u64_saturating_mul s 1000)
      | None => None
      end
  end.

Definition MAX_FALLBACK_BODY_BYTES : nat := 512.

Definition truncated_body (bytes : string) : string :=
  if (String.length bytes <=? MAX_FALLBACK_BODY_BYTES)%nat then from_utf8_lossy bytes
  else from_utf8_lossy (String.substring 0 MAX_FALLBACK_BODY_BYTES bytes)
       +:+ "... [truncated, " +:+ pretty (String.length bytes) +:+ " bytes total]".

(** ** The wire types of sse.rs *)

Record FunctionChunk := mkFunctionChunk { fc_name : option string; fc_arguments : option string }.

Record ToolCallChunk := mkToolCallChunk {
  tc_index : option Z;
  tc_id : option string;
  tc_function : option FunctionChunk;
}.

Record Delta := mkDelta {
  d_content : option string;
  d_reasoning_content : option string;
  d_reasoning : option string;
  d_tool_calls : option (list ToolCallChunk);
}.

Record Choice := mkChoice {
  ch_index : option Z;
  ch_delta : option Delta;
  ch_finish_reason : option string;
}.

(** [prompt_tokens_details] and [completion_tokens_details] carry one optional
    number each. *)
Record Usage := mkUsage {
  prompt_tokens : Z;
  completion_tokens : Z;
  prompt_tokens_details : option (option Z);
  completion_tokens_details : option (option Z);
}.

(** ** The translator *)

Inductive Key : Type :=
| KIndex (i : Z)
| KId (id : string).

#[export] Instance Key_eq_dec : EqDecision Key.
Proof. solve_decision. Defined.

#[export] Instance Key_countable : Countable Key.
Proof.
  refine (inj_countable' (λ k, match k with KIndex i => inl i | KId s => inr s end)
    (λ x, match x with inl i => KIndex i | inr s => KId s end) _).
  by intros [].
Defined.

Record Pending := mkPending { p_seq : nat; p_name : string; p_args : string }.

Definition Pending_new (seq : nat) : Pending := mkPending seq "" "".

Record ChatTranslator := mkTranslator {
  tool_calls : gmap Key string;
  name_emitted : gmap Key string;
  pending : gmap Key Pending;
  next_seq : nat;
  blank_emitted : gset Key;
  t_finish_reason : option string;
  alarms : nat;
}.

Definition ChatTranslator_new : ChatTranslator := mkTranslator ∅ ∅ ∅ 0 ∅ None 0.

(** Assignments to one field. *)
Definition set_tool_calls (t : ChatTranslator) (m : gmap Key string) : ChatTranslator :=
  mkTranslator m (name_emitted t) (pending t) (next_seq t) (blank_emitted t)
    (t_finish_reason t) (alarms t).
Definition set_name_emitted (t : ChatTranslator) (m : gmap Key string) : ChatTranslator :=
  mkTranslator (tool_calls t) m (pending t) (next_seq t) (blank_emitted t)
    (t_finish_reason t) (alarms t).
Definition set_pending (t : ChatTranslator) (m : gmap Key Pending) : ChatTranslator :=
  mkTranslator (tool_calls t) (name_emitted t) m (next_seq t) (blank_emitted t)
    (t_finish_reason t) (alarms t).
Definition set_blank_emitted (t : ChatTranslator) (s : gset Key) : ChatTranslator :=
  mkTranslator (tool_calls t) (name_emitted t) (pending t) (next_seq t) s
    (t_finish_reason t) (alarms t).
Definition set_finish_reason (t : ChatTranslator) (r : option string) : ChatTranslator :=
  mkTranslator (tool_calls t) (name_emitted t) (pending t) (next_seq t) (blank_emitted t)
    r (alarms t).

(** [debug_assert!(ok)], and with [false] a [tracing::error!]. *)
Definition assert (ok : bool) (t : ChatTranslator) : ChatTranslator :=
  if ok then t
  else mkTranslator (tool_calls t) (name_emitted t) (pending t) (next_seq t)
         (blank_emitted t) (t_finish_reason t) (S (alarms t)).

Definition contains {V} (m : gmap Key V) (k : Key) : bool :=
  match m !! k with Some _ => true | None => false end.

Definition ensure_pending (t : ChatTranslator) (key : Key) : ChatTranslator :=
  if contains (pending t) key then t
  else mkTranslator (tool_calls t) (name_emitted t)
         (<[key := Pending_new (next_seq t)]> (pending t)) (S (next_seq t))
         (blank_emitted t) (t_finish_reason t) (alarms t).

(** The buffer of [key] after [ensure_pending]. *)
Definition slot_of (t : ChatTranslator) (key : Key) : Pending :=
  default (Pending_new 0) (pending t !! key).

Definition put_slot (t : ChatTranslator) (key : Key) (slot : Pending) : ChatTranslator :=
  set_pending t (<[key := slot]> (pending t)).

(** The name of two buffers of one call, in the order they were created. *)
Definition merged_name (old slot : Pending) : string :=
  if negb (is_empty (p_name old)) && negb (String.eqb (p_name old) (p_name slot)) then
    if (p_seq old <? p_seq slot)%nat then p_name old +:+ p_name slot
    else p_name slot +:+ p_name old
  else p_name slot.

(** Moving the buffer [old] into the canonical slot.  The second component is
    [false] at the early return, where the name of the call is already out. *)
Definition migrate (t : ChatTranslator) (old : Pending) (canonical : Key)
  : ChatTranslator * bool :=
  let t1 := ensure_pending t canonical in
  let slot := slot_of t1 canonical in
  let t2 := assert (is_empty (p_args slot)) t1 in
  let args := p_args old +:+ p_args slot in
  if negb (is_empty (p_name old)) && contains (name_emitted t2) canonical then
    (put_slot t2 canonical (mkPending (p_seq slot) (p_name slot) args), false)
  else
    (put_slot t2 canonical
       (mkPending (if (p_seq old <? p_seq slot)%nat then p_seq old else p_seq slot)
          (merged_name old slot) args), true).

(** [tool_calls.entry(canonical).or_insert(call_id)]. *)
Definition or_insert_call (t : ChatTranslator) (canonical : Key) (call_id : string)
  : ChatTranslator :=
  if contains (tool_calls t) canonical then t
  else set_tool_calls t (<[canonical := call_id]> (tool_calls t)).

Definition canonicalize (t : ChatTranslator) (key : Key) (call_id : string)
  : ChatTranslator * Key :=
  if is_empty call_id then (t, key)
  else if bool_decide (key = KId call_id) then (t, key)
  else
    let canonical := KId call_id in
    match pending t !! key with
    | None => (or_insert_call t canonical call_id, canonical)
    | Some old =>
        let '(t1, go_on) :=
          migrate (set_pending t (delete key (pending t))) old canonical in
        if go_on then (or_insert_call t1 canonical call_id, canonical) else (t1, canonical)
    end.

Definition nonblank (o : option string) : option string :=
  match o with Some s => if is_empty s then None else Some s | None => None end.

(** The correlation key of a tool-call entry; [None] when it is skipped. *)
Definition wire_key (tc : ToolCallChunk) (pos : nat) (any_explicit_index : bool) : option Key :=
  match tc_index tc, nonblank (tc_id tc) with
  | Some i, _ => Some (KIndex i)
  | None, Some id => Some (KId id)
  | None, None =>
      if any_explicit_index then None else Some (KIndex (u32_wrap (Z.of_nat pos)))
  end.

Definition name_frag (tc : ToolCallChunk) : string :=
  match tc_function tc with Some f => default "" (fc_name f) | None => "" end.
Definition args_frag (tc : ToolCallChunk) : string :=
  match tc_function tc with Some f => default "" (fc_arguments f) | None => "" end.

(** The first id of a key stays, unless it was blank and nothing has been
    emitted under it. *)
Definition register_id (t : ChatTranslator) (key : Key) (id : option string)
  : ChatTranslator :=
  match id with
  | None => t
  | Some id =>
      match tool_calls t !! key with
      | Some existing =>
          if is_empty existing && negb (is_empty id)
             && negb (bool_decide (key ∈ blank_emitted t))
          then set_tool_calls t (<[key := id]> (tool_calls t)) else t
      | None => set_tool_calls t (<[key := id]> (tool_calls t))
      end
  end.

(** The end of [handle_tool_call]: the name goes out when [flush], the
    arguments always, and a buffer with nothing in it is removed. *)
Definition deliver (t : ChatTranslator) (key : Key) (seq : nat) (call_id name args : string)
    (flush : bool) : ChatTranslator * list ModelEvent :=
  let t1 := if flush then set_name_emitted t (<[key := name]> (name_emitted t)) else t in
  let kept := if flush then "" else name in
  let t2 := if is_empty kept then set_pending t1 (delete key (pending t1))
            else put_slot t1 key (mkPending seq kept "") in
  if negb flush && is_empty args then (t2, [])
  else
    let t3 :=
      if is_empty call_id then
        let t' := assert (match key with KIndex _ => true | KId _ => false end) t2 in
        set_blank_emitted t' ({[key]} ∪ blank_emitted t')
      else t2 in
    (t3, [METoolCallDelta call_id (if flush then Some name else None) args]).

(** A fragment that repeats the name so far is a backend that resends the whole
    name, unless the name is out already. *)
Definition extended_name (already_emitted : bool) (buffered name_frag : string) : string :=
  if negb already_emitted && negb (String.eqb buffered name_frag)
  then buffered +:+ name_frag else buffered.

Definition name_complete (already_emitted : bool) (name name_frag args_frag : string) : bool :=
  negb already_emitted && negb (is_empty name) && (negb (is_empty args_frag) || is_empty name_frag).

(** The part of [handle_tool_call] after the key is canonical. *)
Definition advance_call (t : ChatTranslator) (key : Key) (call_id name_frag args_frag : string)
  : ChatTranslator * list ModelEvent :=
  let already_emitted := contains (name_emitted t) key in
  let t1 := ensure_pending t key in
  let slot := slot_of t1 key in
  let name := extended_name already_emitted (p_name slot) name_frag in
  deliver t1 key (p_seq slot) call_id name (p_args slot +:+ args_frag)
    (name_complete already_emitted name name_frag args_frag).

Definition handle_tool_call (t : ChatTranslator) (tc : ToolCallChunk) (pos : nat)
    (any_explicit_index : bool) : ChatTranslator * list ModelEvent :=
  match wire_key tc pos any_explicit_index with
  | None => (t, [])
  | Some key =>
      let t1 := register_id t key (tc_id tc) in
      match tool_calls t1 !! key with
      | None =>
          let t2 := ensure_pending t1 key in
          let slot := slot_of t2 key in
          (put_slot t2 key (mkPending (p_seq slot) (p_name slot +:+ name_frag tc)
             (p_args slot +:+ args_frag tc)), [])
      | Some call_id =>
          let '(t2, key') := canonicalize t1 key call_id in
          advance_call t2 key' call_id (name_frag tc) (args_frag tc)
      end
  end.

(** [for (pos, tc) in tcs.iter().enumerate()]. *)
Fixpoint handle_tool_calls (t : ChatTranslator) (tcs : list ToolCallChunk) (pos : nat)
    (any_explicit_index : bool) : ChatTranslator * list ModelEvent :=
  match tcs with
  | [] => (t, [])
  | tc :: tcs' =>
      let '(t1, evs) := handle_tool_call t tc pos any_explicit_index in
      let '(t2, evs') := handle_tool_calls t1 tcs' (S pos) any_explicit_index in
      (t2, evs ++ evs')
  end.

Definition has_index (tc : ToolCallChunk) : bool :=
  match tc_index tc with Some _ => true | None => false end.

(** [flush_buffered_names]: the buffers in creation order. *)
Definition by_seq (x y : Key * Pending) : Prop := (p_seq x.2 ≤ p_seq y.2)%nat.

#[export] Instance by_seq_dec : RelDecision by_seq.
Proof. intros x y. unfold by_seq. apply _. Defined.

Definition flush_order (m : gmap Key Pending) : list (Key * Pending) :=
  merge_sort by_seq (map_to_list m).

(** The ids that have a name already, the seed of [already]. *)
Definition already_named (t : ChatTranslator) : gset string :=
  list_to_set (omap (λ kv, nonblank (tool_calls t !! kv.1)) (map_to_list (name_emitted t))).

(** One iteration of the loop over the keys. *)
Definition flush_key (t : ChatTranslator) (already : gset string) (key : Key)
  : ChatTranslator * gset string * list ModelEvent :=
  if contains (name_emitted t) key then (t, already, [])
  else
    match tool_calls t !! key, pending t !! key with
    | Some call_id, Some slot =>
        if is_empty (p_name slot) then (t, already, [])
        else if negb (is_empty call_id) && bool_decide (call_id ∈ already)
        then (assert false t, already, [])
        else
          let already' := if is_empty call_id then already else {[call_id]} ∪ already in
          let t1 := put_slot t key (mkPending (p_seq slot) "" (p_args slot)) in
          (set_name_emitted t1 (<[key := p_name slot]> (name_emitted t1)), already',
           [METoolCallDelta call_id (Some (p_name slot)) ""])
    | _, _ => (t, already, [])
    end.

Fixpoint flush_keys (t : ChatTranslator) (already : gset string) (keys : list Key)
  : ChatTranslator * list ModelEvent :=
  match keys with
  | [] => (t, [])
  | key :: keys' =>
      let '(t1, already1, evs) := flush_key t already key in
      let '(t2, evs') := flush_keys t1 already1 keys' in
      (t2, evs ++ evs')
  end.

Definition flush_buffered_names (t : ChatTranslator) : ChatTranslator * list ModelEvent :=
  flush_keys t (already_named t) (flush_order (pending t)).*1.

Definition finish_reason_of (raw : string) : FinishReason :=
  match raw with
  | "stop" => Stop
  | "length" => Length
  | "tool_calls" | "function_call" => ToolCalls
  | "content_filter" => ContentFilter
  | other => FinishOther other
  end.

Definition translator_finish (t : ChatTranslator) : ChatTranslator * list ModelEvent :=
  let '(t1, out) := flush_buffered_names t in
  match t_finish_reason t1 with
  | None => (t1, out)
  | Some raw => (set_finish_reason t1 None, out ++ [MEFinish (finish_reason_of raw)])
  end.

Section Stream.
Context `{J : SerdeJson}.

Record StreamChunk := mkStreamChunk {
  choices : list Choice;
  sc_usage : option Usage;
  sc_error : option Value;
}.

Definition delta_events (d : Delta) : list ModelEvent :=
  match nonblank (d_content d) with Some text => [METokenDelta text] | None => [] end ++
  match nonblank (match d_reasoning_content d with Some r => Some r | None => d_reasoning d end) with
  | Some text => [MEReasoningDelta text]
  | None => []
  end.

Definition consume_delta (t : ChatTranslator) (d : Delta) : ChatTranslator * list ModelEvent :=
  match d_tool_calls d with
  | Some tcs =>
      let '(t1, evs) := handle_tool_calls t tcs 0 (existsb has_index tcs) in
      (t1, delta_events d ++ evs)
  | None => (t, delta_events d)
  end.

Definition consume_choice (t : ChatTranslator) (c : Choice) : ChatTranslator * list ModelEvent :=
  let '(t1, evs) :=
    match ch_delta c with Some d => consume_delta t d | None => (t, []) end in
  (match ch_finish_reason c with
   | Some reason => set_finish_reason t1 (Some reason)
   | None => t1
   end, evs).

Definition usage_event (u : option Usage) : list ModelEvent :=
  match u with
  | Some u =>
      [MEUsage (prompt_tokens u) (completion_tokens u)
         (default None (prompt_tokens_details u)) (default None (completion_tokens_details u))]
  | None => []
  end.

Definition consume (t : ChatTranslator) (chunk : StreamChunk)
  : ChatTranslator * list ModelEvent :=
  let '(t1, evs) :=
    match choices chunk with c :: _ => consume_choice t c | [] => (t, []) end in
  (t1, evs ++ usage_event (sc_usage chunk)).

Fixpoint consume_all (t : ChatTranslator) (chunks : list StreamChunk)
  : ChatTranslator * list ModelEvent :=
  match chunks with
  | [] => (t, [])
  | c :: cs =>
      let '(t1, evs) := consume t c in
      let '(t2, evs') := consume_all t1 cs in
      (t2, evs ++ evs')
  end.

(** A whole response: every chunk in order, then [finish]. *)
Definition translate (chunks : list StreamChunk) : ChatTranslator * list ModelEvent :=
  let '(t, evs) := consume_all ChatTranslator_new chunks in
  let '(t', evs') := translator_finish t in
  (t', evs ++ evs').

(** ** The streaming loop *)

Definition error_from_body (status : Z) (bytes : string) (retry_after_ms : option Z)
    (call_id content_type : string) : ModelError :=
  let error_obj :=
    match from_str bytes with Ok v => get v "error" | Err _ => None end in
  let field e k := match get e k with Some x => as_str x | None => None end in
  let '(code, err_type, message) :=
    match error_obj with
    | Some e => (field e "code", field e "type", default "" (field e "message"))
    | None =>
        let ct := if is_empty content_type then "none" else content_type in
        (None, None, truncated_body bytes +:+ " (content-type: " +:+ ct +:+ ")")
    end in
  let message :=
    if is_empty call_id then message
    else message +:+ " (x-litellm-call-id: " +:+ call_id +:+ ")" in
  classify status code err_type message (match error_obj with Some _ => true | None => false end)
    retry_after_ms.

(** One turn of the loop's biased [select!]; the end of the list is the end of
    the body. *)
Inductive Polled : Type :=
| PollCancelled
| PollErr (msg : string)
| PollData (data : string).

Context (parse_chunk : string → result StreamChunk string).

Fixpoint stream_loop (call_id content_type : string) (t : ChatTranslator) (polls : list Polled)
  : list (result ModelEvent ModelError) :=
  match polls with
  | [] => Ok <$> snd (translator_finish t)
  | PollCancelled :: _ => []
  | PollErr m :: _ => [Err (Transport m)]
  | PollData data :: polls' =>
      if String.eqb data "[DONE]" then Ok <$> snd (translator_finish t)
      else match parse_chunk data with
           | Err _ => stream_loop call_id content_type t polls'
           | Ok chunk =>
               if match sc_error chunk with
                  | Some e => negb (bool_decide (e = VNull)) | None => false end
               then [Err (error_from_body 500 data None call_id content_type)]
               else
                 let '(t1, evs) := consume t chunk in
                 (Ok <$> evs) ++ stream_loop call_id content_type t1 polls'
           end
  end.

(** The response of the proxy, or what stopped it from coming. *)
Record HttpResponse := mkHttpResponse {
  r_status : Z;
  r_retry_after : option string;
  r_call_id : string;
  r_content_type : string;
  r_body : option string;
  r_polls : list Polled;
}.

Inductive Sent : Type :=
| SentCancelled
| SendFailed (msg : string)
| Responded (r : HttpResponse).

Definition invoke_stream (sent : Sent) : list (result ModelEvent ModelError) :=
  match sent with
  | SentCancelled => []
  | SendFailed m => [Err (Transport m)]
  | Responded r =>
      if negb ((200 <=? r_status r)%Z && (r_status r <? 300)%Z)
         || negb (starts_with (r_content_type r) "text/event-stream")
      then [Err (error_from_body (r_status r) (default "" (r_body r))
                   (parse_retry_after_ms (r_retry_after r)) (r_call_id r) (r_content_type r))]
      else stream_loop (r_call_id r) (r_content_type r) ChatTranslator_new (r_polls r)
  end.
End Stream.

(** ** What every sequence of chunks satisfies

    [exempt] is the key being handled: between the registration of its id and
    the end of [handle_tool_call] its buffer may be under the wrong key or hold
    arguments. *)

Record wf (exempt : option Key) (t : ChatTranslator) : Prop := {
  wf_ids : ∀ id c, tool_calls t !! KId id = Some c → c = id ∧ id ≠ "";
  wf_buffered_index : ∀ i p, Some (KIndex i) ≠ exempt → pending t !! KIndex i = Some p →
    tool_calls t !! KIndex i = None ∨ tool_calls t !! KIndex i = Some "";
  wf_buffered_id : ∀ id p, pending t !! KId id = Some p → tool_calls t !! KId id = Some id;
  wf_drained : ∀ id p, Some (KId id) ≠ exempt → pending t !! KId id = Some p → p_args p = "";
  wf_named_id : ∀ id n, name_emitted t !! KId id = Some n → tool_calls t !! KId id = Some id;
  wf_named_index : ∀ i n, name_emitted t !! KIndex i = Some n → KIndex i ∈ blank_emitted t;
  wf_blank : ∀ k, k ∈ blank_emitted t → tool_calls t !! k = Some "";
  wf_seq : ∀ k p, pending t !! k = Some p → (p_seq p < next_seq t)%nat;
  wf_seq_inj : ∀ k1 k2 p1 p2, pending t !! k1 = Some p1 → pending t !! k2 = Some p2 →
    p_seq p1 = p_seq p2 → k1 = k2;
  wf_alarms : alarms t = 0%nat;
}.

(** The names emitted under a call id. *)
Definition names_of (c : string) (evs : list ModelEvent) : list string :=
  omap fst (call_deltas c evs).

(** Under every id that is one, the name recorded is the one emitted. *)
Definition traced (t : ChatTranslator) (evs : list ModelEvent) : Prop :=
  ∀ c, c ≠ "" → names_of c evs = option_list (name_emitted t !! KId c).

Lemma call_deltas_app c e1 e2 : call_deltas c (e1 ++ e2) = call_deltas c e1 ++ call_deltas c e2.
Proof. apply omap_app. Qed.

Lemma names_of_app c e1 e2 : names_of c (e1 ++ e2) = names_of c e1 ++ names_of c e2.
Proof. unfold names_of. by rewrite call_deltas_app, omap_app. Qed.

Lemma is_empty_false s : is_empty s = false ↔ s ≠ "".
Proof. destruct s; simpl; naive_solver. Qed.

Lemma contains_spec {V} (m : gmap Key V) k : contains m k = true ↔ is_Some (m !! k).
Proof. unfold contains. destruct (m !! k); split; naive_solver. Qed.

Lemma contains_false {V} (m : gmap Key V) k : contains m k = false ↔ m !! k = None.
Proof. unfold contains. destruct (m !! k); split; naive_solver. Qed.

(** [ensure_pending] only adds an empty buffer with a fresh number. *)
Lemma ensure_pending_cases t k :
  (∃ p, pending t !! k = Some p ∧ ensure_pending t k = t)
  ∨ (pending t !! k = None ∧ ensure_pending t k
       = mkTranslator (tool_calls t) (name_emitted t) (<[k := Pending_new (next_seq t)]> (pending t))
           (S (next_seq t)) (blank_emitted t) (t_finish_reason t) (alarms t)).
Proof.
  unfold ensure_pending, contains. destruct (pending t !! k) as [p|]; [left; by exists p|by right].
Qed.

(** The operations on buffers, on the invariant: a buffer written for [key]
    keeps the number of the slot, or takes an unused one. *)
Definition seq_free (t : ChatTranslator) (key : Key) (n : nat) : Prop :=
  (n < next_seq t)%nat ∧ ∀ k p, pending t !! k = Some p → p_seq p = n → k = key.

Lemma wf_put_slot e t key p :
  wf e t → seq_free t key (p_seq p) →
  (∀ i, key = KIndex i → e = Some key ∨ tool_calls t !! key = None ∨ tool_calls t !! key = Some "") →
  (∀ id, key = KId id → tool_calls t !! key = Some id ∧ (e = Some key ∨ p_args p = "")) →
  wf e (put_slot t key p).
Proof.
  intros [] [Hlt Hfree] Hi Hid. split; simpl; try done.
  - intros i q He. destruct (decide (KIndex i = key)) as [<-|Hne].
    + rewrite lookup_insert_eq. intros _. destruct (Hi i eq_refl); [by subst|done].
    + rewrite lookup_insert_ne by done. eauto.
  - intros id q. destruct (decide (KId id = key)) as [<-|Hne].
    + intros _. by apply (Hid id).
    + rewrite lookup_insert_ne by done. eauto.
  - intros id q He. destruct (decide (KId id = key)) as [<-|Hne].
    + rewrite lookup_insert_eq. intros [= <-]. destruct (Hid id eq_refl) as [_ [?|?]]; [by subst|done].
    + rewrite lookup_insert_ne by done. eauto.
  - intros k q. destruct (decide (k = key)) as [->|Hne].
    + rewrite lookup_insert_eq. by intros [= <-].
    + rewrite lookup_insert_ne by done. eauto.
  - intros k1 k2 p1 p2. destruct (decide (k1 = key)) as [->|H1], (decide (k2 = key)) as [->|H2];
      rewrite ?lookup_insert_eq, ?lookup_insert_ne by done; [done| | |eauto].
    + intros [= <-] Hp Hs. symmetry. by eapply Hfree.
    + intros Hp [= <-] Hs. by eapply Hfree.
Qed.

Lemma wf_delete e t key : wf e t → wf e (set_pending t (delete key (pending t))).
Proof.
  intros []. split; simpl; try done; intros *; rewrite ?lookup_delete_Some; naive_solver.
Qed.

Lemma wf_ensure_pending e t key :
  wf e t →
  (∀ i, key = KIndex i → e = Some key ∨ tool_calls t !! key = None ∨ tool_calls t !! key = Some "") →
  (∀ id, key = KId id → tool_calls t !! key = Some id) →
  wf e (ensure_pending t key) ∧ seq_free (ensure_pending t key) key (p_seq (slot_of (ensure_pending t key) key))
  ∧ tool_calls (ensure_pending t key) = tool_calls t
  ∧ name_emitted (ensure_pending t key) = name_emitted t
  ∧ blank_emitted (ensure_pending t key) = blank_emitted t
  ∧ slot_of (ensure_pending t key) key
    = default (Pending_new (next_seq t)) (pending t !! key)
  ∧ (∀ k, k ≠ key → pending (ensure_pending t key) !! k = pending t !! k)
  ∧ t_finish_reason (ensure_pending t key) = t_finish_reason t.
Proof.
  intros W Hi Hid.
  destruct (ensure_pending_cases t key) as [(p & Hp & E)|[Hp E]]; rewrite E; clear E.
  - unfold slot_of. rewrite Hp. simpl. split_and!; try done.
    split; [by eapply wf_seq|]. intros k q Hq Hs. by eapply wf_seq_inj.
  - assert (Hfresh : ∀ k q, pending t !! k = Some q → p_seq q ≠ next_seq t).
    { intros k q Hq. pose proof (wf_seq _ _ W k q Hq). lia. }
    split_and!; simpl; try done.
    + set (t' := mkTranslator (tool_calls t) (name_emitted t) (pending t) (S (next_seq t))
        (blank_emitted t) (t_finish_reason t) (alarms t)).
      apply (wf_put_slot e t' key (Pending_new (next_seq t))); [|split|done|].
      * destruct W; split; simpl; try done. intros k p Hk. pose proof (wf_seq0 k p Hk). lia.
      * simpl. lia.
      * simpl. intros k p Hk Hs. by edestruct Hfresh.
      * intros id ->. split; [by apply Hid|by right].
    + unfold slot_of. simpl. rewrite lookup_insert_eq. simpl. split; simpl; [lia|].
      intros k q. destruct (decide (k = key)) as [->|Hne]; [done|].
      rewrite lookup_insert_ne by done. intros Hq Hs. by edestruct Hfresh.
    + unfold slot_of. simpl. by rewrite lookup_insert_eq, Hp.
    + intros k Hne. by rewrite lookup_insert_ne.
Qed.

Lemma wf_weaken e t : wf None t → wf e t.
Proof. intros []. split; try done; naive_solver. Qed.

(** The id of a key is registered; the buffers are as before. *)
Lemma register_id_cases t key id :
  let t' := register_id t key id in
  name_emitted t' = name_emitted t ∧ pending t' = pending t ∧ next_seq t' = next_seq t
  ∧ blank_emitted t' = blank_emitted t ∧ alarms t' = alarms t
  ∧ t_finish_reason t' = t_finish_reason t
  ∧ (∀ k, k ≠ key → tool_calls t' !! k = tool_calls t !! k)
  ∧ tool_calls t' !! key =
      match id, tool_calls t !! key with
      | None, o => o
      | Some id, None => Some id
      | Some id, Some existing =>
          if is_empty existing && negb (is_empty id)
             && negb (bool_decide (key ∈ blank_emitted t)) then Some id else Some existing
      end.
Proof.
  unfold register_id. destruct id as [id|]; [|done]. destruct (tool_calls t !! key) as [x|] eqn:E.
  - destruct (is_empty x && _ && _); simpl; [|by rewrite E].
    split_and!; try done; [intros; by rewrite lookup_insert_ne|by rewrite lookup_insert_eq].
  - simpl. split_and!; try done; [intros; by rewrite lookup_insert_ne|by rewrite lookup_insert_eq].
Qed.

Lemma wire_key_id tc pos any id :
  wire_key tc pos any = Some (KId id) → tc_id tc = Some id ∧ id ≠ "".
Proof.
  unfold wire_key, nonblank. destruct (tc_index tc); [done|].
  destruct (tc_id tc) as [s|]; [|by destruct any].
  destruct (is_empty s) eqn:E; [by destruct any|]. intros [= ->]. by apply is_empty_false in E.
Qed.

Lemma wf_register t tc pos any key :
  wf None t → wire_key tc pos any = Some key →
  wf (Some key) (register_id t key (tc_id tc))
  ∧ (∀ id, key = KId id → tool_calls (register_id t key (tc_id tc)) !! key = Some id).
Proof.
  intros W Hk. pose proof (register_id_cases t key (tc_id tc)) as H. simpl in H.
  destruct H as (En & Ep & Es & Eb & Ea & _ & Eo & Ek). set (t' := register_id _ _ _) in *.
  assert (Hid : ∀ id, key = KId id → tool_calls t' !! key = Some id).
  { intros id ->. apply wire_key_id in Hk as [Hid Hne]. rewrite Ek, Hid.
    destruct (tool_calls t !! KId id) as [c|] eqn:Hc; [|done].
    destruct (wf_ids _ _ W _ _ Hc) as [-> _]. apply is_empty_false in Hne. by rewrite Hne. }
  split; [|done]. destruct W. split; rewrite ?En, ?Ep, ?Es, ?Eb, ?Ea; try done.
  - intros id c. destruct (decide (KId id = key)) as [<-|Hne].
    + rewrite (Hid id eq_refl). intros [= <-]. by apply wire_key_id in Hk as [_ ?].
    + rewrite Eo by done. eauto.
  - intros i p He Hp. rewrite Eo by congruence. eauto.
  - intros id p Hp. destruct (decide (KId id = key)) as [<-|Hne]; [by apply Hid|].
    rewrite Eo by done. eauto.
  - intros id p He Hp. by eapply wf_drained0.
  - intros id n Hn. destruct (decide (KId id = key)) as [<-|Hne]; [by apply Hid|].
    rewrite Eo by done. eauto.
  - intros k Hb. destruct (decide (k = key)) as [->|Hne]; [|rewrite Eo by done; eauto].
    rewrite Ek, (wf_blank0 _ Hb). rewrite bool_decide_eq_true_2 by done.
    by destruct (tc_id tc) as [[]|].
Qed.

(** Moving a call to its canonical slot. *)
Lemma merged_empty old n : merged_name old (Pending_new n) = p_name old.
Proof.
  unfold merged_name. simpl. destruct (p_name old) as [|a s] eqn:E; simpl; [done|].
  destruct (p_seq old <? n)%nat; [by rewrite string_app_nil_r|done].
Qed.

(** What migrating leaves unchanged; only the canonical slot is written. *)
Lemma migrate_spec t old c t' go :
  wf None t → tool_calls t !! KId c = Some c → seq_free t (KId c) (p_seq old) →
  migrate t old (KId c) = (t', go) →
  wf (Some (KId c)) t' ∧ tool_calls t' = tool_calls t ∧ name_emitted t' = name_emitted t
  ∧ blank_emitted t' = blank_emitted t ∧ t_finish_reason t' = t_finish_reason t
  ∧ (∀ k, k ≠ KId c → pending t' !! k = pending t !! k)
  ∧ (∃ p, pending t' !! KId c = Some p ∧ p_args p = p_args old
      ∧ (pending t !! KId c = None → name_emitted t !! KId c = None → p_name p = p_name old)).
Proof.
  intros W Hc Hold. unfold migrate.
  destruct (wf_ensure_pending None t (KId c) W) as (W1 & F1 & Et & En & Eb & Es & Eo & Ef);
    [done|by intros id [= <-]|].
  assert (Hargs : p_args (slot_of (ensure_pending t (KId c)) (KId c)) = "").
  { rewrite Es. destruct (pending t !! KId c) as [p|] eqn:Hp; simpl; [|done].
    by apply (wf_drained None t W c p). }
  assert (Hfree : seq_free (ensure_pending t (KId c)) (KId c) (p_seq old)).
  { destruct Hold as [Hlt Hinj]. split.
    - destruct (ensure_pending_cases t (KId c)) as [(? & ? & ->)|[? ->]]; simpl; lia.
    - intros k p. destruct (decide (k = KId c)) as [|Hne]; [done|].
      rewrite Eo by done. apply Hinj. }
  rewrite Hargs. simpl. rewrite string_app_nil_r. set (t1 := ensure_pending t (KId c)) in *.
  assert (Hput : ∀ p, seq_free t1 (KId c) (p_seq p) → wf (Some (KId c)) (put_slot t1 (KId c) p)).
  { intros p Hp. apply wf_put_slot; [by apply wf_weaken|done|done|].
    intros id [= <-]. rewrite Et. auto. }
  destruct (negb (is_empty (p_name old)) && contains (name_emitted t1) (KId c)) eqn:Hearly;
    intros [= <- <-]; split_and!; try done.
  - by apply Hput.
  - intros k Hk. simpl. rewrite lookup_insert_ne by done. by apply Eo.
  - simpl. rewrite lookup_insert_eq. eexists. split_and!; [done|done|].
    intros _ Hn. apply andb_true_iff in Hearly as [_ Hem]. apply contains_spec in Hem as [n Hem].
    rewrite En in Hem. congruence.
  - apply Hput. simpl. by destruct (p_seq old <? _)%nat.
  - intros k Hk. simpl. rewrite lookup_insert_ne by done. by apply Eo.
  - simpl. rewrite lookup_insert_eq. eexists. split_and!; [done|done|].
    intros Hn _. rewrite Es, Hn. simpl. apply merged_empty.
Qed.

(** Registering the canonical key before or after the migration is the same. *)
Lemma migrate_register t old c t' go :
  migrate t old (KId c) = (t', go) →
  migrate (or_insert_call t (KId c) c) old (KId c) = (or_insert_call t' (KId c) c, go).
Proof.
  unfold or_insert_call. intros H.
  assert (tool_calls t' = tool_calls t) as Et.
  { revert H. unfold migrate, ensure_pending, assert.
    repeat case_match; intros; by simplify_eq/=. }
  rewrite Et. destruct (contains (tool_calls t) (KId c)); [done|].
  revert H. unfold migrate, ensure_pending, slot_of, assert. simpl.
  destruct (contains (pending t) (KId c)); simpl; destruct (is_empty (p_args _)); simpl;
    destruct (negb _ && _)%bool; intros; by simplify_eq/=.
Qed.

Lemma wf_or_insert e t c :
  wf e t → c ≠ "" → wf e (or_insert_call t (KId c) c)
  ∧ tool_calls (or_insert_call t (KId c) c) = <[KId c := c]> (tool_calls t).
Proof.
  intros W Hc. unfold or_insert_call, contains. destruct (tool_calls t !! KId c) as [x|] eqn:Hx.
  - destruct (wf_ids _ _ W _ _ Hx) as [-> _]. split; [done|]. by rewrite insert_id.
  - split; [|done]. destruct W. split; simpl; try done.
    + intros id c'. destruct (decide (id = c)) as [->|Hne].
      * rewrite lookup_insert_eq. by intros [= <-].
      * rewrite lookup_insert_ne by congruence. eauto.
    + intros i p He Hp. rewrite lookup_insert_ne by done. eauto.
    + intros id p Hp. destruct (decide (id = c)) as [->|]; [by rewrite lookup_insert_eq|].
      rewrite lookup_insert_ne by congruence. eauto.
    + intros id p Hp. destruct (decide (id = c)) as [->|]; [by rewrite lookup_insert_eq|].
      rewrite lookup_insert_ne by congruence. eauto.
    + intros k Hk. apply wf_blank0 in Hk. rewrite lookup_insert_ne by congruence. done.
Qed.

(** The effect of [canonicalize] on a registered key. *)
Definition canonical_key (key : Key) (c : string) : Key := if is_empty c then key else KId c.

Record moved (t : ChatTranslator) (key : Key) (c : string) (t' : ChatTranslator) : Prop := {
  moved_wf : wf (Some (canonical_key key c)) t';
  moved_calls : tool_calls t' =
    if is_empty c then tool_calls t else <[KId c := c]> (tool_calls t);
  moved_names : name_emitted t' = name_emitted t;
  moved_blank : blank_emitted t' = blank_emitted t;
  moved_finish : t_finish_reason t' = t_finish_reason t;
  moved_others : ∀ k, k ≠ key → k ≠ KId c → pending t' !! k = pending t !! k;
  moved_source : c ≠ "" → key ≠ KId c → pending t' !! key = None;
  moved_slot : c ≠ "" → key ≠ KId c →
    match pending t !! key with
    | None => pending t' !! KId c = pending t !! KId c
    | Some old =>
        ∃ p, pending t' !! KId c = Some p ∧ p_args p = p_args old
          ∧ (pending t !! KId c = None → name_emitted t !! KId c = None → p_name p = p_name old)
    end;
}.

Lemma wf_unexempt t key :
  wf (Some key) t →
  (∀ p, pending t !! key = Some p →
    match key with
    | KIndex i => tool_calls t !! key = None ∨ tool_calls t !! key = Some ""
    | KId id => p_args p = ""
    end) →
  wf None t.
Proof.
  intros [] Hk. split; try done.
  - intros i p _ Hp. destruct (decide (KIndex i = key)) as [<-|]; [by apply (Hk p)|].
    apply (wf_buffered_index0 i p); [congruence|done].
  - intros id p _ Hp. destruct (decide (KId id = key)) as [<-|]; [by apply (Hk p)|].
    apply (wf_drained0 id p); [congruence|done].
Qed.

Lemma wf_exempt_gone t key : wf (Some key) t → pending t !! key = None → wf None t.
Proof. intros W Hn. apply (wf_unexempt t key W). intros p Hp. congruence. Qed.

Lemma canonicalize_spec t key c t' key' :
  wf (Some key) t → tool_calls t !! key = Some c → canonicalize t key c = (t', key') →
  key' = canonical_key key c ∧ moved t key c t'.
Proof.
  intros W Hc. unfold canonicalize, canonical_key. destruct (is_empty c) eqn:Ec.
  { intros [= <- <-]. apply is_empty_true in Ec as ->. split; [done|].
    split; unfold canonical_key; simpl; done. }
  pose proof Ec as Hne. apply is_empty_false in Hne. case_bool_decide as Hk.
  { intros [= <- <-]. split; [done|]. split; unfold canonical_key; rewrite ?Ec; try done.
    - by subst.
    - rewrite insert_id; [done|by subst]. }
  destruct (pending t !! key) as [old|] eqn:Hold.
  - destruct (migrate _ _ _) as [t1 go] eqn:Hm.
    assert (Hgo : ∃ v, (if go then (or_insert_call t1 (KId c) c, KId c) else (t1, KId c)) = (v, KId c)
      ∧ v = or_insert_call t1 (KId c) c).
    { destruct go; [by eexists|]. exists t1. split; [done|]. unfold or_insert_call.
      replace (contains (tool_calls t1) (KId c)) with true; [done|]. symmetry.
      revert Hm. unfold migrate.
      destruct (negb (is_empty (p_name old)) && _)%bool eqn:He; intros [= <-].
      apply andb_true_iff in He as [_ He]. revert He. rewrite !contains_spec. intros [n Hn].
      assert (name_emitted t !! KId c = Some n) as Hn'.
      { revert Hn. unfold assert, ensure_pending. by repeat case_match. }
      apply (wf_named_id _ _ W) in Hn'. exists c. revert Hn'.
      unfold assert, ensure_pending. by repeat case_match. }
    destruct Hgo as (v & -> & Hv). intros [= <- <-]. split; [done|].
    apply migrate_register in Hm. rewrite <- Hv in Hm.
    set (d := set_pending t (delete key (pending t))) in *.
    destruct (wf_or_insert (Some key) d c) as [Wd Hcd]; [by apply wf_delete|done|].
    assert (Hpd : pending (or_insert_call d (KId c) c) = delete key (pending t)).
    { unfold or_insert_call. by destruct (contains _ _). }
    apply migrate_spec in Hm as (Wv & Etc & En & Eb & Ef & Eo & Ep).
    + assert (Hnd : name_emitted v = name_emitted t ∧ blank_emitted v = blank_emitted t
        ∧ t_finish_reason v = t_finish_reason t).
      { rewrite En, Eb, Ef. unfold or_insert_call. by destruct (contains _ _). }
      destruct Hnd as (En' & Eb' & Ef').
      split; unfold canonical_key; rewrite ?Ec; try done.
      * by rewrite Etc, Hcd.
      * intros k H1 H2. rewrite Eo, Hpd by done. by rewrite lookup_delete_ne.
      * intros _ Hkc. rewrite Eo, Hpd by done. by rewrite lookup_delete_eq.
      * intros _ Hkc. rewrite Hold. destruct Ep as (p & Hp & Ha & Hname).
        exists p. split_and!; [done..|]. intros H1 H2. apply Hname.
        -- rewrite Hpd. by rewrite lookup_delete_ne.
        -- rewrite <- En, En'. done.
    + apply (wf_exempt_gone _ key); [done|]. rewrite Hpd. by rewrite lookup_delete_eq.
    + rewrite Hcd. by rewrite lookup_insert_eq.
    + split.
      * assert (next_seq (or_insert_call d (KId c) c) = next_seq t) as ->.
        { unfold or_insert_call. by destruct (contains _ _). }
        by eapply wf_seq.
      * intros k p. rewrite Hpd, lookup_delete_Some. intros [Hne' Hp] Hs.
        destruct Hne'. symmetry. exact (wf_seq_inj _ _ W k key p old Hp Hold Hs).
  - intros [= <- <-]. split; [done|].
    destruct (wf_or_insert (Some key) t c) as [Wt Hct]; [done..|].
    assert (Hp : pending (or_insert_call t (KId c) c) = pending t
      ∧ name_emitted (or_insert_call t (KId c) c) = name_emitted t
      ∧ blank_emitted (or_insert_call t (KId c) c) = blank_emitted t
      ∧ t_finish_reason (or_insert_call t (KId c) c) = t_finish_reason t).
    { unfold or_insert_call. by destruct (contains _ _). }
    destruct Hp as (Ep & En & Eb & Ef).
    split; unfold canonical_key; rewrite ?Ec, ?Ep, ?Hold; try done.
    apply wf_weaken. apply (wf_exempt_gone _ key); [done|by rewrite Ep].
Qed.

(** What one delta does to a call whose name so far is [buffered], whose
    undelivered arguments are [args] and whose name, if it is out, is [named]:
    the new name, the new buffer and the event's content. *)
Definition is_some {A} (o : option A) : bool := match o with Some _ => true | None => false end.

Definition call_out (flush : bool) (name args : string) : list (option string * string) :=
  if negb flush && is_empty args then [] else [(if flush then Some name else None, args)].

Definition call_events (c : string) (out : list (option string * string)) : list ModelEvent :=
  (λ na, METoolCallDelta c na.1 na.2) <$> out.

Definition name_step (named : option string) (buffered args nf af : string)
  : option string * string * list (option string * string) :=
  let name := extended_name (is_some named) buffered nf in
  let flush := name_complete (is_some named) name nf af in
  (if flush then Some name else named, if flush then "" else name,
   call_out flush name (args +:+ af)).

Record advanced (t : ChatTranslator) (key : Key) (c : string) (named : option string)
    (buffered : string) (out : list (option string * string)) (t' : ChatTranslator)
    (evs : list ModelEvent) : Prop := {
  adv_wf : wf None t';
  adv_calls : tool_calls t' = tool_calls t;
  adv_finish : t_finish_reason t' = t_finish_reason t;
  adv_others : ∀ k, k ≠ key →
    pending t' !! k = pending t !! k ∧ name_emitted t' !! k = name_emitted t !! k;
  adv_named : name_emitted t' !! key = named;
  adv_buffer : if is_empty buffered then pending t' !! key = None
               else ∃ n, pending t' !! key = Some (mkPending n buffered "");
  adv_events : evs = call_events c out;
}.

(** Recording a name, and a blank id that went out. *)
Lemma wf_named t key c (flush blank : bool) name :
  wf None t → tool_calls t !! key = Some c →
  key = canonical_key key c → (flush = true → c = "" → blank = true) → (blank = true → c = "") →
  wf None (mkTranslator (tool_calls t)
    (if flush then <[key := name]> (name_emitted t) else name_emitted t) (pending t) (next_seq t)
    (if blank then {[key]} ∪ blank_emitted t else blank_emitted t) (t_finish_reason t) (alarms t)).
Proof.
  intros [] Hc Hk Hfb Hb. split; simpl; try done.
  - intros id n. destruct flush; [|eauto]. destruct (decide (key = KId id)) as [->|Hne].
    + intros _. rewrite Hc. by destruct (wf_ids0 _ _ Hc) as [-> _].
    + rewrite lookup_insert_ne by done. eauto.
  - intros i n. destruct flush.
    + destruct (decide (key = KIndex i)) as [->|Hne].
      * intros _. rewrite Hfb; [set_solver|done|].
        revert Hk. unfold canonical_key. destruct (is_empty c) eqn:E; [|done].
        intros _. by apply is_empty_true.
      * rewrite lookup_insert_ne by done. intros Hn. destruct blank; set_solver.
    + intros Hn. destruct blank; set_solver.
  - intros k. destruct blank; [|eauto]. rewrite elem_of_union, elem_of_singleton.
    intros [->|?]; [|eauto]. by rewrite Hc, Hb.
Qed.

Lemma deliver_spec t key seq c name args flush t' evs :
  wf (Some key) t → tool_calls t !! key = Some c → key = canonical_key key c →
  seq_free t key seq → deliver t key seq c name args flush = (t', evs) →
  advanced t key c (if flush then Some name else name_emitted t !! key)
    (if flush then "" else name) (call_out flush name args) t' evs.
Proof.
  intros W Hc Hk Hs.
  set (kept := if flush then "" else name).
  set (p := if is_empty kept then delete key (pending t) else <[key := mkPending seq kept ""]> (pending t)).
  assert (Wp : wf None (set_pending t p)).
  { unfold p. destruct (is_empty kept).
    - apply (wf_exempt_gone _ key); [by apply wf_delete|simpl; by rewrite lookup_delete_eq].
    - apply (wf_unexempt _ key).
      + apply (wf_put_slot (Some key) t key (mkPending seq kept "")); try done; [by left|].
        intros id ->. destruct (wf_ids _ _ W _ _ Hc) as [-> _]. auto.
      + simpl. intros q. rewrite lookup_insert_eq. intros [= <-]. destruct key; [|done].
        right. rewrite Hc. f_equal. revert Hk. unfold canonical_key.
        destruct (is_empty c) eqn:E; [|done]. intros _. by apply is_empty_true. }
  set (blank := is_empty c && negb (negb flush && is_empty args)).
  assert (Hkey : c = "" → match key with KIndex _ => true | KId _ => false end = true).
  { intros ->. destruct key as [|id]; [done|]. by destruct (wf_ids _ _ W _ _ Hc) as [<- ?]. }
  assert (E : deliver t key seq c name args flush =
    (mkTranslator (tool_calls t) (if flush then <[key := name]> (name_emitted t) else name_emitted t)
       p (next_seq t) (if blank then {[key]} ∪ blank_emitted t else blank_emitted t)
       (t_finish_reason t) (alarms t), call_events c (call_out flush name args))).
  { unfold deliver, call_out, blank, p, kept, put_slot. destruct (is_empty c) eqn:Ec.
    - apply is_empty_true in Ec. rewrite Hkey by done.
      destruct flush; simpl; [done|]. destruct (is_empty name), (is_empty args); simpl; by destruct t.
    - destruct flush; simpl; [done|]. destruct (is_empty name), (is_empty args); simpl; by destruct t. }
  rewrite E. intros [= <- <-].
  pose proof (wf_named (set_pending t p) key c flush blank name Wp Hc Hk) as Wn.
  split; simpl; try done.
  - apply Wn; unfold blank.
    + by intros -> ->.
    + destruct (is_empty c) eqn:Ec; [|done]. intros _. by apply is_empty_true.
  - intros k Hne. split.
    + unfold p. destruct (is_empty kept); [by rewrite lookup_delete_ne|by rewrite lookup_insert_ne].
    + destruct flush; [by rewrite lookup_insert_ne|done].
  - destruct flush; [by rewrite lookup_insert_eq|done].
  - fold kept. unfold p. destruct (is_empty kept); [by rewrite lookup_delete_eq|].
    exists seq. by rewrite lookup_insert_eq.
Qed.

Lemma advance_call_spec t key c nf af t' evs :
  wf (Some key) t → tool_calls t !! key = Some c → key = canonical_key key c →
  advance_call t key c nf af = (t', evs) →
  let slot := default (Pending_new 0) (pending t !! key) in
  let '(named, buffered, out) :=
    name_step (name_emitted t !! key) (p_name slot) (p_args slot) nf af in
  advanced t key c named buffered out t' evs.
Proof.
  intros W Hc Hk.
  destruct (wf_ensure_pending (Some key) t key W) as (W1 & F1 & Et & En & Eb & Es & Eo & Ef).
  { auto. }
  { intros id ->. by destruct (wf_ids _ _ W _ _ Hc) as [<- _]. }
  assert (Hslot : p_name (slot_of (ensure_pending t key) key)
      = p_name (default (Pending_new 0) (pending t !! key))
    ∧ p_args (slot_of (ensure_pending t key) key)
      = p_args (default (Pending_new 0) (pending t !! key))).
  { rewrite Es. by destruct (pending t !! key). }
  destruct Hslot as [Hsn Hsa]. unfold advance_call, name_step. rewrite Hsn, Hsa. intros H.
  apply deliver_spec in H; [|done|by rewrite Et|done|done].
  destruct H as [Hw Hcs Hf Ho Hn Hb He]. rewrite En in Hn.
  split; try done.
  - by rewrite Hcs.
  - by rewrite Hf.
  - intros k Hne. destruct (Ho k Hne) as [-> ->]. by rewrite Eo, En.
Qed.

(** ** One tool-call entry *)

Lemma call_deltas_events c c0 out :
  call_deltas c0 (call_events c out) = if String.eqb c0 c then out else [].
Proof.
  unfold call_deltas, call_events. induction out as [|[n a] out IH]; simpl; [by destruct (_ =? _)%string|].
  destruct (String.eqb c0 c); simpl in *; [by f_equal|done].
Qed.

(** A name is emitted when it is recorded, and then only. *)
Lemma name_step_names named buffered args nf af :
  let '(named', _, out) := name_step named buffered args nf af in
  option_list named' = option_list named ++ omap fst out
  ∧ (∀ n, named = Some n → named' = Some n).
Proof.
  unfold name_step, name_complete, call_out. destruct named as [n|]; simpl.
  - split; [|done]. destruct (is_empty _); by simpl.
  - split; [|done]. destruct (_ && _)%bool; simpl; [done|]. by destruct (is_empty _).
Qed.

(** The three outcomes of an entry: skipped, buffered under its index, or
    handed to the call its id names. *)
Variant handled (t : ChatTranslator) (tc : ToolCallChunk) (pos : nat) (any : bool)
    (t' : ChatTranslator) (evs : list ModelEvent) : Prop :=
| handled_skip : wire_key tc pos any = None → t' = t → evs = [] → handled t tc pos any t' evs
| handled_buffer i :
    wire_key tc pos any = Some (KIndex i) → tc_id tc = None → tool_calls t !! KIndex i = None →
    evs = [] → wf None t' → tool_calls t' = tool_calls t → name_emitted t' = name_emitted t →
    t_finish_reason t' = t_finish_reason t →
    (∀ k, k ≠ KIndex i → pending t' !! k = pending t !! k) →
    (∃ n, let slot := default (Pending_new 0) (pending t !! KIndex i) in
       pending t' !! KIndex i
       = Some (mkPending n (p_name slot +:+ name_frag tc) (p_args slot +:+ args_frag tc))) →
    handled t tc pos any t' evs
| handled_call key c t1 t2 :
    wire_key tc pos any = Some key →
    t1 = register_id t key (tc_id tc) → tool_calls t1 !! key = Some c → moved t1 key c t2 →
    (let slot := default (Pending_new 0) (pending t2 !! canonical_key key c) in
     let '(named, buffered, out) :=
       name_step (name_emitted t !! canonical_key key c) (p_name slot) (p_args slot)
         (name_frag tc) (args_frag tc) in
     advanced t2 (canonical_key key c) c named buffered out t' evs) →
    handled t tc pos any t' evs.

Lemma handle_tool_call_cases t tc pos any t' evs :
  wf None t → handle_tool_call t tc pos any = (t', evs) → handled t tc pos any t' evs.
Proof.
  intros W. unfold handle_tool_call.
  destruct (wire_key tc pos any) as [key|] eqn:Hk; [|by intros [= <- <-]; apply handled_skip].
  destruct (wf_register t tc pos any key W Hk) as [W1 Hid].
  pose proof (register_id_cases t key (tc_id tc)) as Hr. simpl in Hr.
  destruct Hr as (En & Ep & _ & _ & _ & Ef & Eo & Ek).
  remember (register_id t key (tc_id tc)) as t1 eqn:Ht1.
  destruct (tool_calls t1 !! key) as [c|] eqn:Hc.
  - destruct (canonicalize t1 key c) as [t2 key'] eqn:Hcan.
    apply canonicalize_spec in Hcan as [-> Hm]; [|done..]. intros Ha.
    apply (handled_call t tc pos any t' evs key c t1 t2); [done..|].
    rewrite <- En, <- (moved_names _ _ _ _ Hm).
    apply advance_call_spec; [apply Hm| | |done].
    + rewrite (moved_calls _ _ _ _ Hm). unfold canonical_key.
      destruct (is_empty c); [done|by rewrite lookup_insert_eq].
    + unfold canonical_key. by destruct (is_empty c) eqn:E; rewrite ?E.
  - intros [= <- <-]. destruct key as [i|id]; [|specialize (Hid id eq_refl); congruence].
    assert (tc_id tc = None ∧ tool_calls t !! KIndex i = None) as [Hnone Htc].
    { revert Ek. destruct (tc_id tc), (tool_calls t !! KIndex i); try done. by destruct (_ && _)%bool. }
    destruct (wf_ensure_pending (Some (KIndex i)) t1 (KIndex i) W1)
      as (W2 & F2 & Et & En2 & Eb & Es & Eo2 & Ef2); [by left|done|].
    eapply (handled_buffer _ _ _ _ _ _ i); simpl; try done.
    + apply (wf_unexempt _ (KIndex i)).
      * apply wf_put_slot; [done|done|by left|done].
      * simpl. intros p _. rewrite Et. by left.
    + by rewrite Et, Ht1, Hnone.
    + by rewrite En2.
    + by rewrite Ef2.
    + intros k Hne. rewrite lookup_insert_ne by done. by rewrite Eo2, Ep.
    + exists (p_seq (default (Pending_new (next_seq t1)) (pending t !! KIndex i))).
      rewrite lookup_insert_eq. rewrite Es, Ep. f_equal.
      by destruct (pending t !! KIndex i).
Qed.

Lemma handled_wf t tc pos any t' evs : wf None t → handled t tc pos any t' evs → wf None t'.
Proof.
  intros W [|? ? ? ? ? ? ?|key c t1 t2 Hk -> Hc Hm Ha]; simplify_eq; [done|done|].
  cbv zeta in Ha. destruct (name_step _ _ _ _ _) as [[? ?] ?]. apply Ha.
Qed.

Lemma canonical_key_id key c id t :
  wf (Some key) t → tool_calls t !! key = Some c → id ≠ "" →
  canonical_key key c = KId id ↔ c = id.
Proof.
  intros W Hc Hne. unfold canonical_key. destruct (is_empty c) eqn:E.
  - apply is_empty_true in E as ->. split; [|by intros <-].
    intros ->. by destruct (wf_ids _ _ W _ _ Hc).
  - naive_solver.
Qed.

Lemma handled_traced t tc pos any t' evs es :
  wf None t → traced t es → handled t tc pos any t' evs → traced t' (es ++ evs).
Proof.
  intros W T H id Hne. rewrite names_of_app, (T id Hne).
  destruct H as [_ -> ->|i _ _ _ -> _ _ -> _ _ _|key c t1 t2 Hk Ht1 Hc Hm Ha];
    [by rewrite app_nil_r|by rewrite app_nil_r|].
  destruct (wf_register t tc pos any key W Hk) as [W1 _]. rewrite <- Ht1 in W1.
  assert (En : name_emitted t2 = name_emitted t).
  { rewrite (moved_names _ _ _ _ Hm), Ht1. by destruct (register_id_cases t key (tc_id tc)) as [-> _]. }
  pose proof (name_step_names (name_emitted t !! canonical_key key c)
    (p_name (default (Pending_new 0) (pending t2 !! canonical_key key c)))
    (p_args (default (Pending_new 0) (pending t2 !! canonical_key key c)))
    (name_frag tc) (args_frag tc)) as Hn. cbv zeta in Ha.
  destruct (name_step _ _ _ _ _) as [[named buffered] out]. destruct Hn as [Hn _], Ha as [].
  rewrite adv_events0. unfold names_of at 1. rewrite call_deltas_events.
  pose proof (canonical_key_id key c id t1 W1 Hc Hne) as Hid.
  destruct (String.eqb_spec id c) as [->|Hic].
  - destruct Hid as [_ Hid]. rewrite Hid in * by done. by rewrite adv_named0, Hn.
  - destruct (adv_others0 (KId id)) as [_ ->]; [naive_solver|]. rewrite En. simpl. by rewrite app_nil_r.
Qed.

(** ** End of stream *)

Definition buffer (t : ChatTranslator) (key : Key) : Pending :=
  default (Pending_new 0) (pending t !! key).

(** The event the flush owes a call: its name, if one is buffered and none is
    out. *)
Definition owed (t : ChatTranslator) (c : string) : list (option string * string) :=
  if negb (contains (name_emitted t) (KId c)) && contains (tool_calls t) (KId c)
     && negb (is_empty (p_name (buffer t (KId c))))
  then [(Some (p_name (buffer t (KId c))), "")] else [].

(** What the flush relies on; [wf] gives it, and flushing keeps it. *)
Record flushable (t : ChatTranslator) (already : gset string) : Prop := {
  fl_ids : ∀ id c, tool_calls t !! KId id = Some c → c = id ∧ id ≠ "";
  fl_index : ∀ i p, pending t !! KIndex i = Some p →
    tool_calls t !! KIndex i = None ∨ tool_calls t !! KIndex i = Some "";
  fl_already : ∀ c, c ≠ "" → c ∈ already ↔ is_Some (name_emitted t !! KId c);
  fl_alarms : alarms t = 0%nat;
}.

Lemma wf_flushable t : wf None t → flushable t (already_named t).
Proof.
  intros W. split; try apply W.
  - intros i p. by apply (wf_buffered_index _ _ W).
  - intros c Hc. unfold already_named. rewrite elem_of_list_to_set, list_elem_of_omap. split.
    + intros ([k n] & Hin & Hk). apply elem_of_map_to_list in Hin. simpl in Hk.
      destruct k as [i|id].
      * apply (wf_named_index _ _ W), (wf_blank _ _ W) in Hin. by rewrite Hin in Hk.
      * pose proof (wf_named_id _ _ W _ _ Hin) as Hid. rewrite Hid in Hk. simpl in Hk.
        destruct (is_empty id); [done|]. injection Hk as ->. by exists n.
    + intros [n Hn]. exists (KId c, n). rewrite elem_of_map_to_list. split; [done|]. simpl.
      rewrite (wf_named_id _ _ W _ _ Hn). simpl. apply is_empty_false in Hc. by rewrite Hc.
Qed.

Lemma flush_key_spec t already key t' already' out :
  flushable t already → flush_key t already key = (t', already', out) →
  flushable t' already' ∧ tool_calls t' = tool_calls t ∧ t_finish_reason t' = t_finish_reason t
  ∧ (∀ k, k ≠ key → name_emitted t' !! k = name_emitted t !! k ∧ pending t' !! k = pending t !! k)
  ∧ (∀ c, c ≠ "" → call_deltas c out = if bool_decide (key = KId c) then owed t c else [])
  ∧ Forall (λ ev, ∃ c n, ev = METoolCallDelta c n "" ∧ tool_calls t !! key = Some c) out.
Proof.
  intros F. unfold flush_key.
  assert (Hquiet : (∀ c, key = KId c → owed t c = []) →
    flushable t already ∧ tool_calls t = tool_calls t ∧ t_finish_reason t = t_finish_reason t
    ∧ (∀ k, k ≠ key → name_emitted t !! k = name_emitted t !! k ∧ pending t !! k = pending t !! k)
    ∧ (∀ c, c ≠ "" → call_deltas c [] = if bool_decide (key = KId c) then owed t c else [])
    ∧ Forall (λ ev, ∃ c n, ev = METoolCallDelta c n "" ∧ tool_calls t !! key = Some c) []).
  { intros Ho. split_and!; try done. intros c _. case_bool_decide as Hk; [by rewrite Ho|done]. }
  destruct (contains (name_emitted t) key) eqn:Hem.
  { intros [= <- <- <-]. apply Hquiet. intros c ->. unfold owed. by rewrite Hem. }
  destruct (tool_calls t !! key) as [c|] eqn:Hc.
  2:{ intros [= <- <- <-]. apply Hquiet. intros c ->. unfold owed, contains at 2.
      by rewrite Hc, andb_false_r. }
  destruct (pending t !! key) as [slot|] eqn:Hp.
  2:{ intros [= <- <- <-]. apply Hquiet. intros c' ->. unfold owed, buffer.
      by rewrite Hp, andb_false_r. }
  destruct (is_empty (p_name slot)) eqn:Hname.
  { intros [= <- <- <-]. apply Hquiet. intros c' ->. unfold owed, buffer.
    rewrite Hp. simpl. by rewrite Hname, andb_false_r. }
  assert (Hkey : c ≠ "" → key = KId c).
  { intros Hne. destruct key as [i|id].
    - destruct (fl_index _ _ F i slot Hp); congruence.
    - by destruct (fl_ids _ _ F _ _ Hc) as [-> _]. }
  assert (Hnew : c ≠ "" → c ∉ already).
  { intros Hne Hin. apply (fl_already _ _ F) in Hin; [|done]. rewrite <- Hkey in Hin by done.
    apply contains_false in Hem. rewrite Hem in Hin. by destruct Hin. }
  replace (negb (is_empty c) && bool_decide (c ∈ already)) with false.
  2:{ destruct (is_empty c) eqn:E; [done|]. apply is_empty_false in E.
      rewrite bool_decide_eq_false_2; auto. }
  intros [= <- <- <-]. split_and!; simpl; try done.
  - destruct F. split; simpl; try done.
    + intros i p. destruct (decide (KIndex i = key)) as [<-|Hne].
      * intros _. by apply (fl_index0 i slot).
      * rewrite lookup_insert_ne by done. eauto.
    + intros c' Hc'. destruct (decide (key = KId c')) as [->|Hne].
      * rewrite lookup_insert_eq. destruct (fl_ids0 _ _ Hc) as [-> Hn'].
        apply is_empty_false in Hn'. rewrite Hn'. split; [by eexists|set_solver].
      * rewrite lookup_insert_ne by done. rewrite <- fl_already0 by done.
        destruct (is_empty c) eqn:E; [done|]. apply is_empty_false, Hkey in E.
        rewrite elem_of_union, elem_of_singleton. naive_solver.
  - intros k Hne. by rewrite !lookup_insert_ne by done.
  - intros c' Hc'. unfold call_deltas. simpl. case_bool_decide as Hk.
    + subst key. destruct (fl_ids _ _ F _ _ Hc) as [-> _]. rewrite String.eqb_refl. simpl.
      unfold owed, buffer. rewrite Hem, Hp. unfold contains. rewrite Hc. simpl. by rewrite Hname.
    + destruct (String.eqb_spec c' c) as [->|]; [|done]. by destruct Hk; apply Hkey.
  - repeat constructor. by exists c, (Some (p_name slot)).
Qed.

Lemma owed_others t t' key c :
  tool_calls t' = tool_calls t → KId c ≠ key →
  (∀ k, k ≠ key → name_emitted t' !! k = name_emitted t !! k ∧ pending t' !! k = pending t !! k) →
  owed t' c = owed t c.
Proof.
  intros Ht Hne Ho. destruct (Ho (KId c) Hne) as [Hn Hp].
  unfold owed, buffer, contains. by rewrite Ht, Hn, Hp.
Qed.

Lemma flush_keys_spec t already keys t' out :
  flushable t already → NoDup keys → flush_keys t already keys = (t', out) →
  alarms t' = 0%nat ∧ t_finish_reason t' = t_finish_reason t
  ∧ (∀ c, c ≠ "" → call_deltas c out = if bool_decide (KId c ∈ keys) then owed t c else [])
  ∧ Forall (λ ev, ∃ c n k, ev = METoolCallDelta c n "" ∧ tool_calls t !! k = Some c) out.
Proof.
  intros F Hnd. revert t already t' out F. induction Hnd as [|key keys Hin Hnd IH]; intros t already t' out F.
  { intros [= <- <-]. split_and!; [apply F|done|done|constructor]. }
  simpl. destruct (flush_key t already key) as [[t1 already1] o1] eqn:H1.
  apply flush_key_spec in H1 as (F1 & Et & Ef & Eo & Ed & Ec); [|done].
  destruct (flush_keys t1 already1 keys) as [t2 o2] eqn:H2. intros [= <- <-].
  apply IH in H2 as (Ha & Hf & Hd & Hc); [|done].
  split_and!; [done|congruence| |].
  - intros c Hne. rewrite call_deltas_app, Ed, Hd by done.
    destruct (decide (key = KId c)) as [->|Hk].
    + rewrite bool_decide_eq_true_2 by done. rewrite bool_decide_eq_false_2 by done.
      rewrite bool_decide_eq_true_2 by (by left). by rewrite app_nil_r.
    + rewrite (bool_decide_eq_false_2 (key = KId c)) by done. simpl.
      rewrite (owed_others t t1 key c) by congruence || done.
      destruct (decide (KId c ∈ keys)).
      * rewrite !bool_decide_eq_true_2; [done|by right|done].
      * rewrite !bool_decide_eq_false_2; [done|set_solver|done].
  - apply Forall_app. split.
    + eapply Forall_weaken; [exact Ec|]. naive_solver.
    + rewrite <- Et. done.
Qed.

Lemma flush_order_perm m : flush_order m ≡ₚ map_to_list m.
Proof. apply merge_sort_Permutation. Qed.

Lemma flush_spec t t' out :
  wf None t → flush_buffered_names t = (t', out) →
  alarms t' = 0%nat ∧ t_finish_reason t' = t_finish_reason t
  ∧ (∀ c, c ≠ "" → call_deltas c out = owed t c)
  ∧ Forall (λ ev, ∃ c n k, ev = METoolCallDelta c n "" ∧ tool_calls t !! k = Some c) out.
Proof.
  intros W H. apply flush_keys_spec in H as (Ha & Hf & Hd & Hc).
  - split_and!; try done. intros c Hne. rewrite Hd by done.
    case_bool_decide as Hin; [done|]. unfold owed, buffer.
    destruct (pending t !! KId c) as [p|] eqn:Hp; [|by rewrite andb_false_r].
    destruct Hin. rewrite flush_order_perm. apply list_elem_of_fmap.
    exists (KId c, p). by rewrite elem_of_map_to_list.
  - by apply wf_flushable.
  - rewrite flush_order_perm. apply NoDup_fst_map_to_list.
Qed.

(** The sort's result does not depend on the order the hash map lists its
    entries in, since no two buffers have the same number. *)
Lemma flush_order_unique t l :
  wf None t → l ≡ₚ map_to_list (pending t) → merge_sort by_seq l = flush_order (pending t).
Proof.
  intros W Hl.
  assert (Ht : Transitive by_seq) by (intros x y z; unfold by_seq; lia).
  assert (Htot : Total by_seq) by (intros x y; unfold by_seq; lia).
  assert (Hsort : ∀ l, StronglySorted by_seq (merge_sort by_seq l)).
  { intros l'. apply Sorted_StronglySorted; [done|]. by apply Sorted_merge_sort. }
  apply (StronglySorted_unique_strong by_seq).
  - intros [k1 p1] [k2 p2] H1 H2 Hle1 Hle2. unfold by_seq in *. simpl in *.
    rewrite merge_sort_Permutation, Hl in H1. rewrite flush_order_perm in H2.
    apply elem_of_map_to_list in H1, H2.
    assert (k1 = k2) as <-; [|congruence].
    eapply (wf_seq_inj _ _ W); [done..|lia].
  - apply Hsort.
  - apply Hsort.
  - by rewrite merge_sort_Permutation, flush_order_perm.
Qed.

(** ** Whole streams *)

Section StreamFacts.
Context `{J : SerdeJson}.

Definition first_delta (chunk : StreamChunk) : option Delta :=
  match choices chunk with c :: _ => ch_delta c | [] => None end.

(** The channels of a response as the backend sent them. *)
Definition wire_calls (chunks : list StreamChunk) : list ToolCallChunk :=
  concat ((λ chunk, default [] (first_delta chunk ≫= d_tool_calls)) <$> chunks).

Definition wire_text (chunks : list StreamChunk) : list string :=
  omap (λ chunk, first_delta chunk ≫= d_content) chunks.

Definition wire_reasoning (chunks : list StreamChunk) : list string :=
  omap (λ chunk, first_delta chunk ≫= λ d,
    match d_reasoning_content d with Some r => Some r | None => d_reasoning d end) chunks.

Definition wire_usage (chunks : list StreamChunk) : list Usage := omap sc_usage chunks.

Definition wire_finish (chunks : list StreamChunk) : list string :=
  omap (λ chunk, match choices chunk with c :: _ => ch_finish_reason c | [] => None end) chunks.

Definition is_inline (ev : ModelEvent) : bool :=
  match ev with METoolCallDelta _ _ _ | MEFinish _ => false | _ => true end.

(** An invariant of the entries handled so far and the events emitted. *)
Section Induction.
Context (P : ChatTranslator → list ToolCallChunk → list ModelEvent → Prop).
Context (ok : ToolCallChunk → Prop).
Context (P_call : ∀ t l es tc pos any t' es', P t l es → ok tc →
  handle_tool_call t tc pos any = (t', es') → P t' (l ++ [tc]) (es ++ es')).
Context (P_other : ∀ t l es ev, P t l es → is_inline ev = true → P t l (es ++ [ev])).
Context (P_finish : ∀ t l es r, P t l es → P (set_finish_reason t r) l es).

Lemma others_ind t l es evs :
  P t l es → Forall (λ ev, is_inline ev = true) evs → P t l (es ++ evs).
Proof.
  intros H Hevs. revert es H. induction Hevs as [|ev evs Hev _ IH]; intros es H; [by rewrite app_nil_r|].
  rewrite (cons_middle ev es evs), app_assoc. by apply IH, P_other.
Qed.

Lemma handle_tool_calls_ind tcs t pos any t' es' l es :
  P t l es → Forall ok tcs → handle_tool_calls t tcs pos any = (t', es') →
  P t' (l ++ tcs) (es ++ es').
Proof.
  intros H Hok. revert t pos t' es' l es H.
  induction Hok as [|tc tcs Hok _ IH]; intros t pos t' es' l es H; simpl.
  { intros [= <- <-]. by rewrite !app_nil_r. }
  destruct (handle_tool_call t tc pos any) as [t1 e1] eqn:H1.
  destruct (handle_tool_calls t1 tcs (S pos) any) as [t2 e2] eqn:H2. intros [= <- <-].
  rewrite (cons_middle tc l tcs), app_assoc, app_assoc. eapply IH; [|done]. by eapply P_call.
Qed.

Lemma delta_events_other d : Forall (λ ev, is_inline ev = true) (delta_events d).
Proof.
  unfold delta_events. apply Forall_app.
  split; destruct (nonblank _); repeat constructor.
Qed.

Lemma consume_ind t chunk t' es' l es :
  P t l es → Forall ok (wire_calls [chunk]) → consume t chunk = (t', es') →
  P t' (l ++ wire_calls [chunk]) (es ++ es').
Proof.
  unfold consume, wire_calls, first_delta. simpl. rewrite app_nil_r. intros H Hok.
  assert (Hc : ∀ t1 e1, (match choices chunk with c :: _ => consume_choice t c | [] => (t, []) end) = (t1, e1) →
    P t1 (l ++ default [] (match choices chunk with c :: _ => ch_delta c | [] => None end ≫= d_tool_calls))
      (es ++ e1)).
  { intros t1 e1. destruct (choices chunk) as [|c cs]; simpl.
    { intros [= <- <-]. by rewrite !app_nil_r. }
    unfold consume_choice. destruct (ch_delta c) as [d|]; simpl in *.
    - unfold consume_delta. destruct (d_tool_calls d) as [tcs|] eqn:Htcs; simpl in *.
      + destruct (handle_tool_calls _ _ _ _) as [t2 e2] eqn:H2.
        assert (H' : P t2 (l ++ tcs) (es ++ delta_events d ++ e2)).
        { rewrite app_assoc. eapply handle_tool_calls_ind; [|done..].
          by apply others_ind, delta_events_other. }
        destruct (ch_finish_reason c); intros [= <- <-]; auto.
      + assert (H' : P t (l ++ []) (es ++ delta_events d)).
        { rewrite app_nil_r. by apply others_ind, delta_events_other. }
        destruct (ch_finish_reason c); intros [= <- <-]; auto.
    - destruct (ch_finish_reason c); intros [= <- <-]; rewrite !app_nil_r; auto. }
  destruct (match choices chunk with c :: _ => consume_choice t c | [] => (t, []) end) as [t1 e1].
  intros [= <- <-]. rewrite app_assoc. apply others_ind; [by apply Hc|].
  destruct (sc_usage chunk); repeat constructor.
Qed.

Lemma consume_all_ind chunks t t' es' l es :
  P t l es → Forall ok (wire_calls chunks) → consume_all t chunks = (t', es') →
  P t' (l ++ wire_calls chunks) (es ++ es').
Proof.
  revert t t' es' l es. induction chunks as [|c cs IH]; intros t t' es' l es H Hok; simpl.
  { intros [= <- <-]. unfold wire_calls. simpl. by rewrite !app_nil_r. }
  assert (Hcs : wire_calls (c :: cs) = wire_calls [c] ++ wire_calls cs).
  { unfold wire_calls. simpl. by rewrite app_nil_r. }
  rewrite Hcs in *. apply Forall_app in Hok as [Hc Hrest].
  destruct (consume t c) as [t1 e1] eqn:H1. destruct (consume_all t1 cs) as [t2 e2] eqn:H2.
  intros [= <- <-]. rewrite !app_assoc. eapply IH; [|done|done]. by eapply consume_ind.
Qed.
End Induction.

Lemma call_events_finish c out : finish_events (call_events c out) = [].
Proof. unfold finish_events, call_events. by induction out. Qed.

Lemma wf_new : wf None ChatTranslator_new.
Proof. split; simpl; try done; intros *; by rewrite ?lookup_empty. Qed.

Lemma wf_set_finish t r : wf None t → wf None (set_finish_reason t r).
Proof. intros []. by split. Qed.

(** Tool-call events touch no other channel. *)
Definition only_calls (es : list ModelEvent) : Prop :=
  text_deltas es = [] ∧ reasoning_deltas es = [] ∧ usage_events es = [] ∧ finish_events es = [].

Lemma only_calls_events c out : only_calls (call_events c out).
Proof.
  unfold only_calls, text_deltas, reasoning_deltas, usage_events, finish_events, call_events.
  by induction out.
Qed.

Lemma only_calls_app e1 e2 : only_calls e1 → only_calls e2 → only_calls (e1 ++ e2).
Proof.
  unfold only_calls, text_deltas, reasoning_deltas, usage_events, finish_events.
  rewrite !omap_app. by intros (-> & -> & -> & ->) (-> & -> & -> & ->).
Qed.

Lemma handled_quiet t tc pos any t' evs :
  handled t tc pos any t' evs →
  t_finish_reason t' = t_finish_reason t ∧ ∃ c out, evs = call_events c out.
Proof.
  intros [_ -> ->|i _ _ _ -> _ _ _ Hf _ _|key c t1 t2 Hk Ht1 _ Hm Ha].
  - split; [done|]. by exists "", [].
  - split; [done|]. by exists "", [].
  - cbv zeta in Ha. destruct (name_step _ _ _ _ _) as [[? ?] out]. split; [|exists c, out; apply Ha].
    rewrite (adv_finish _ _ _ _ _ _ _ _ Ha), (moved_finish _ _ _ _ Hm), Ht1.
    by destruct (register_id_cases t key (tc_id tc)) as (_ & _ & _ & _ & _ & -> & _).
Qed.

Lemma handle_tool_calls_quiet tcs t pos any t' es :
  wf None t → handle_tool_calls t tcs pos any = (t', es) →
  wf None t' ∧ t_finish_reason t' = t_finish_reason t ∧ only_calls es.
Proof.
  revert t pos t' es. induction tcs as [|tc tcs IH]; intros t pos t' es W; simpl.
  { by intros [= <- <-]. }
  destruct (handle_tool_call t tc pos any) as [t1 e1] eqn:H1.
  destruct (handle_tool_calls t1 tcs (S pos) any) as [t2 e2] eqn:H2. intros [= <- <-].
  apply handle_tool_call_cases in H1; [|done]. pose proof (handled_wf _ _ _ _ _ _ W H1) as W1.
  apply handled_quiet in H1 as (Hf & c & out & ->). apply IH in H2 as (W2 & Hf2 & Ho); [|done].
  split_and!; [done|congruence|]. apply only_calls_app; [apply only_calls_events|done].
Qed.

(** The channels other than the tool calls are passed through. *)
Definition usage_tokens (u : Usage) : TokenUsage :=
  usage_of_event (prompt_tokens u) (completion_tokens u)
    (default None (prompt_tokens_details u)) (default None (completion_tokens_details u)).

Record passed (t : ChatTranslator) (chunks : list StreamChunk) (t' : ChatTranslator)
    (es : list ModelEvent) : Prop := {
  passed_wf : wf None t';
  passed_text : text_deltas es = omap (nonblank ∘ Some) (wire_text chunks);
  passed_reasoning : reasoning_deltas es = omap (nonblank ∘ Some) (wire_reasoning chunks);
  passed_usage : usage_events es = usage_tokens <$> wire_usage chunks;
  passed_none : finish_events es = [];
  passed_finish : t_finish_reason t' = match last (wire_finish chunks) with
    | Some r => Some r | None => t_finish_reason t end;
}.

Lemma delta_events_channels d :
  text_deltas (delta_events d) = omap (nonblank ∘ Some) (option_list (d_content d))
  ∧ reasoning_deltas (delta_events d) = omap (nonblank ∘ Some)
      (option_list (match d_reasoning_content d with Some r => Some r | None => d_reasoning d end))
  ∧ usage_events (delta_events d) = [] ∧ finish_events (delta_events d) = [].
Proof.
  unfold delta_events, text_deltas, reasoning_deltas, usage_events, finish_events.
  rewrite !omap_app.
  destruct (d_content d) as [s|]; simpl; [destruct (is_empty s); simpl|];
    (destruct (match d_reasoning_content d with Some r => Some r | None => d_reasoning d end) as [r|];
      simpl; [destruct (is_empty r)|]; done).
Qed.

Lemma consume_passed t chunk t' es :
  wf None t → consume t chunk = (t', es) → passed t [chunk] t' es.
Proof.
  intros W. unfold consume.
  destruct (match choices chunk with c :: _ => consume_choice t c | [] => (t, []) end) as [t1 e1] eqn:H1.
  intros [= <- <-].
  assert (Hc : wf None t1
    ∧ text_deltas e1 = omap (nonblank ∘ Some) (wire_text [chunk])
    ∧ reasoning_deltas e1 = omap (nonblank ∘ Some) (wire_reasoning [chunk])
    ∧ usage_events e1 = [] ∧ finish_events e1 = []
    ∧ t_finish_reason t1 = match last (wire_finish [chunk]) with
        | Some r => Some r | None => t_finish_reason t end).
  { revert H1. unfold wire_text, wire_reasoning, wire_finish, first_delta. simpl.
    destruct (choices chunk) as [|c cs]; simpl; [by intros [= <- <-]|]. unfold consume_choice.
    assert (Hd : ∀ t2 e2, match ch_delta c with Some d => consume_delta t d | None => (t, []) end = (t2, e2) →
      wf None t2 ∧ t_finish_reason t2 = t_finish_reason t
      ∧ text_deltas e2 = omap (nonblank ∘ Some) (option_list (ch_delta c ≫= d_content))
      ∧ reasoning_deltas e2 = omap (nonblank ∘ Some) (option_list (ch_delta c ≫= λ d,
          match d_reasoning_content d with Some r => Some r | None => d_reasoning d end))
      ∧ usage_events e2 = [] ∧ finish_events e2 = []).
    { intros t2 e2. destruct (ch_delta c) as [d|]; simpl; [|by intros [= <- <-]].
      destruct (delta_events_channels d) as (D1 & D2 & D3 & D4).
      unfold consume_delta. destruct (d_tool_calls d) as [tcs|]; [|by intros [= <- <-]].
      destruct (handle_tool_calls _ _ _ _) as [t3 e3] eqn:H3. intros [= <- <-].
      apply handle_tool_calls_quiet in H3 as (W3 & Hf3 & O1 & O2 & O3 & O4); [|done].
      unfold text_deltas, reasoning_deltas, usage_events, finish_events in *.
      rewrite !omap_app, D1, D2, D3, D4, O1, O2, O3, O4, !app_nil_r. done. }
    destruct (match ch_delta c with Some d => consume_delta t d | None => (t, []) end) as [t2 e2].
    destruct (Hd t2 e2 eq_refl) as (W2 & Hf2 & C1 & C2 & C3 & C4).
    intros [= <- <-]. rewrite C1, C2, C3, C4.
    split_and!; try done.
    - destruct (ch_finish_reason c); [by apply wf_set_finish|done].
    - by destruct (ch_finish_reason c). }
  destruct Hc as (W1 & C1 & C2 & C3 & C4 & C5).
  assert (Hu : text_deltas (usage_event (sc_usage chunk)) = []
    ∧ reasoning_deltas (usage_event (sc_usage chunk)) = []
    ∧ usage_events (usage_event (sc_usage chunk)) = usage_tokens <$> wire_usage [chunk]
    ∧ finish_events (usage_event (sc_usage chunk)) = []).
  { unfold wire_usage. simpl. by destruct (sc_usage chunk). }
  destruct Hu as (U1 & U2 & U3 & U4).
  unfold text_deltas, reasoning_deltas, usage_events, finish_events in *.
  split; unfold text_deltas, reasoning_deltas, usage_events, finish_events;
    rewrite ?omap_app, ?C1, ?C2, ?C3, ?C4, ?U1, ?U2, ?U3, ?U4, ?app_nil_r; done.
Qed.

Lemma wire_finish_app l1 l2 : wire_finish (l1 ++ l2) = wire_finish l1 ++ wire_finish l2.
Proof. apply omap_app. Qed.

Lemma consume_all_passed chunks t t' es :
  wf None t → consume_all t chunks = (t', es) → passed t chunks t' es.
Proof.
  revert t t' es. induction chunks as [|c cs IH]; intros t t' es W; simpl.
  { intros [= <- <-]. by split. }
  destruct (consume t c) as [t1 e1] eqn:H1. destruct (consume_all t1 cs) as [t2 e2] eqn:H2.
  intros [= <- <-]. apply consume_passed in H1 as [W1 T1 R1 U1 N1 F1]; [|done].
  apply IH in H2 as [W2 T2 R2 U2 N2 F2]; [|done].
  unfold text_deltas, reasoning_deltas, usage_events, finish_events in *.
  split; unfold text_deltas, reasoning_deltas, usage_events, finish_events; rewrite ?omap_app; try done.
  - rewrite T1, T2. unfold wire_text. by rewrite <- omap_app, <- (omap_app _ [c] cs).
  - rewrite R1, R2. unfold wire_reasoning. by rewrite <- omap_app, <- (omap_app _ [c] cs).
  - rewrite U1, U2. unfold wire_usage. by rewrite <- fmap_app, <- (omap_app _ [c] cs).
  - by rewrite N1, N2.
  - rewrite F2, F1. change (c :: cs) with ([c] ++ cs). rewrite (wire_finish_app [c] cs), last_app.
    by destruct (last (wire_finish cs)).
Qed.

Lemma consume_all_wf chunks t es :
  consume_all ChatTranslator_new chunks = (t, es) → wf None t ∧ traced t es ∧ finish_events es = [].
Proof.
  intros H.
  pose proof (consume_all_ind (λ t _ es, wf None t ∧ traced t es ∧ finish_events es = [])
    (λ _, True)) as Hind.
  refine (Hind _ _ _ chunks ChatTranslator_new t es [] [] _ _ H); clear Hind H.
  - intros t0 l es0 tc pos any t' es' (W & T & Hf) _ H. apply handle_tool_call_cases in H; [|done].
    split_and!; [by eapply handled_wf|by eapply handled_traced|].
    unfold finish_events. rewrite omap_app. fold (finish_events es0). rewrite Hf. simpl.
    destruct H as [_ _ ->|i _ _ _ -> _ _ _ _ _ _|key c t1 t2 _ _ _ _ Ha]; [done..|].
    cbv zeta in Ha. destruct (name_step _ _ _ _ _) as [[? ?] out]. rewrite (adv_events _ _ _ _ _ _ _ _ Ha).
    apply call_events_finish.
  - intros t0 l es0 ev (W & T & Hf) Hev. split_and!; [done| |].
    + intros c Hc. rewrite names_of_app, T by done. by destruct ev; rewrite ?app_nil_r.
    + unfold finish_events in *. rewrite omap_app, Hf. by destruct ev.
  - intros t0 l es0 r (W & T & Hf). split_and!; [by apply wf_set_finish|done|done].
  - split_and!; [apply wf_new|done|done].
  - by apply Forall_true.
Qed.

(** [finish]: the names still owed, then the reason, if one was observed. *)
Lemma finish_spec t t' out :
  wf None t → translator_finish t = (t', out) →
  ∃ owed_evs, out = owed_evs ++ (MEFinish ∘ finish_reason_of <$> option_list (t_finish_reason t))
    ∧ alarms t' = 0%nat ∧ (∀ c, c ≠ "" → call_deltas c owed_evs = owed t c)
    ∧ Forall (λ ev, ∃ c n k, ev = METoolCallDelta c n "" ∧ tool_calls t !! k = Some c) owed_evs.
Proof.
  intros W. unfold translator_finish.
  destruct (flush_buffered_names t) as [t1 o1] eqn:H1. apply flush_spec in H1 as (Ha & Hf & Hd & Hc); [|done].
  rewrite Hf. intros H. exists o1.
  destruct (t_finish_reason t); injection H as <- <-; simpl; rewrite ?app_nil_r; by split_and!.
Qed.

Lemma owed_named t c :
  omap fst (owed t c) = [] ∨ name_emitted t !! KId c = None ∧ length (omap fst (owed t c)) = 1%nat.
Proof.
  unfold owed. destruct (contains (name_emitted t) (KId c)) eqn:E; [by left|].
  apply contains_false in E. simpl. destruct (_ && _)%bool; [by right|by left].
Qed.

Lemma calls_only_finish evs (Q : string → option string → Prop) :
  Forall (λ ev, ∃ c n, ev = METoolCallDelta c n "" ∧ Q c n) evs → finish_events evs = [].
Proof. induction 1 as [|ev evs (c & n & -> & _) _ IH]; [done|]. apply IH. Qed.

(** The names of a response up to any point, with or without its end. *)
Lemma names_bound t es t' out c :
  wf None t → traced t es → translator_finish t = (t', out) → c ≠ "" →
  (length (names_of c es) ≤ 1)%nat ∧ (length (names_of c (es ++ out)) ≤ 1)%nat.
Proof.
  intros W T H Hc. apply finish_spec in H as (o & -> & _ & Hd & _); [|done].
  rewrite !names_of_app, T by done. unfold names_of. rewrite Hd by done.
  replace (omap fst (call_deltas c _)) with (@nil string).
  2:{ by destruct (t_finish_reason t). }
  rewrite app_nil_r, length_app. destruct (owed_named t c) as [->|[Hn ->]].
  - destruct (name_emitted t !! KId c); simpl; lia.
  - rewrite Hn. simpl. lia.
Qed.

(** Whatever a backend sends, the translator names each call that has an id
    at most once, emits [Finish] exactly when a finish reason was observed and
    then once and last, trips none of its debug assertions nor its regression
    net, and flushes names in an order that does not depend on how the hash map
    iterates. *)
Theorem litellm_protocol chunks :
  let '(t, evs) := translate chunks in
  alarms t = 0%nat
  ∧ (∀ c, c ≠ "" → (length (names_of c evs) ≤ 1)%nat)
  ∧ (∃ pre, finish_events pre = []
      ∧ evs = pre ++ (MEFinish ∘ finish_reason_of <$> option_list (last (wire_finish chunks))))
  ∧ (∀ l, let m := pending (fst (consume_all ChatTranslator_new chunks)) in
      l ≡ₚ map_to_list m → merge_sort by_seq l = flush_order m).
Proof.
  unfold translate. destruct (consume_all _ chunks) as [t es] eqn:H1.
  destruct (translator_finish t) as [t' out] eqn:H2.
  destruct (consume_all_wf _ _ _ H1) as (W & T & Hf).
  pose proof H2 as H3. apply finish_spec in H3 as (o & Ho & Ha & _ & Hc); [|done].
  split_and!.
  - done.
  - intros c Hne. by eapply names_bound.
  - exists (es ++ o). split.
    + unfold finish_events in *. rewrite omap_app, Hf. simpl.
      apply (calls_only_finish o (λ c _, ∃ k, tool_calls t !! k = Some c)).
      eapply Forall_weaken; [exact Hc|]. naive_solver.
    + apply consume_all_passed in H1; [|apply wf_new].
      rewrite Ho, app_assoc, (passed_finish _ _ _ _ H1). by destruct (last _).
  - simpl. intros l. by apply flush_order_unique.
Qed.
End StreamFacts.
