(* ===== verification/LiteLlmTurn.v ===== *)
(** What the LiteLLM translator delivers: the calls of a conforming backend are
    decoded one by one, whatever their interleaving, so the accumulated turn
    ([ModelTurn]) is what was sent; every stream ends soundly; and the failures
    that the retry policy ([Retry]) repeats are the transient ones. *)

From S2P Require Import Prelude Json Items Retry Redaction ModelTurn LiteLlm.

(** ** One call alone

    The specification of a call: it waits for its id, then runs.  A conforming
    backend sends every entry of a call with the call's index and no id but the
    call's; then a call is decoded as this machine decodes its own fragments,
    whatever comes in between. *)

Inductive call_state : Type :=
| Waiting (name args : string)
| Running (named : option string) (buffered : string).

Definition call_step (st : call_state) (tc : ToolCallChunk)
  : call_state * list (option string * string) :=
  match st with
  | Waiting name args =>
      if is_some (tc_id tc) then
        let '(named, buffered, out) :=
          name_step None name args (name_frag tc) (args_frag tc) in
        (Running named buffered, out)
      else (Waiting (name +:+ name_frag tc) (args +:+ args_frag tc), [])
  | Running named buffered =>
      let '(named', buffered', out) :=
        name_step named buffered "" (name_frag tc) (args_frag tc) in
      (Running named' buffered', out)
  end.

Fixpoint call_run (st : call_state) (frs : list ToolCallChunk)
  : call_state * list (option string * string) :=
  match frs with
  | [] => (st, [])
  | tc :: frs' =>
      let '(st1, out1) := call_step st tc in
      let '(st2, out2) := call_run st1 frs' in
      (st2, out1 ++ out2)
  end.

(** What the end of the stream adds. *)
Definition call_end (st : call_state) : list (option string * string) :=
  match st with
  | Running None buffered => if is_empty buffered then [] else [(Some buffered, "")]
  | _ => []
  end.

Lemma call_run_snoc st frs tc :
  call_run st (frs ++ [tc])
  = (fst (call_step (fst (call_run st frs)) tc),
     snd (call_run st frs) ++ snd (call_step (fst (call_run st frs)) tc)).
Proof.
  revert st. induction frs as [|fr frs IH]; intros st; simpl.
  - destruct (call_step st tc). by rewrite app_nil_r.
  - destruct (call_step st fr) as [st1 o1]. rewrite IH. destruct (call_run st1 frs) as [st2 o2].
    simpl. by rewrite app_assoc.
Qed.

(** The translator's state for the call with index [i] and id [c]. *)
Definition tracks (t : ChatTranslator) (i : Z) (c : string) (st : call_state) : Prop :=
  match st with
  | Waiting name args =>
      tool_calls t !! KIndex i = None ∧ tool_calls t !! KId c = None
      ∧ p_name (buffer t (KIndex i)) = name ∧ p_args (buffer t (KIndex i)) = args
  | Running named buffered =>
      tool_calls t !! KIndex i = Some c ∧ tool_calls t !! KId c = Some c
      ∧ pending t !! KIndex i = None ∧ name_emitted t !! KId c = named
      ∧ p_name (buffer t (KId c)) = buffered
  end.

(** Unregistered calls have no state. *)
Lemma wf_unknown t c :
  wf None t → tool_calls t !! KId c = None →
  pending t !! KId c = None ∧ name_emitted t !! KId c = None.
Proof.
  intros W Hc. split.
  - destruct (pending t !! KId c) as [p|] eqn:Hp; [|done].
    apply (wf_buffered_id _ _ W) in Hp. congruence.
  - destruct (name_emitted t !! KId c) as [n|] eqn:Hn; [|done].
    apply (wf_named_id _ _ W) in Hn. congruence.
Qed.

Lemma buffer_moved t i c t2 :
  wf None t → tool_calls t !! KId c = None →
  match pending t !! KIndex i with
  | None => pending t2 !! KId c = pending t !! KId c
  | Some old => ∃ p, pending t2 !! KId c = Some p ∧ p_args p = p_args old
      ∧ (pending t !! KId c = None → name_emitted t !! KId c = None → p_name p = p_name old)
  end →
  p_name (buffer t2 (KId c)) = p_name (buffer t (KIndex i))
  ∧ p_args (buffer t2 (KId c)) = p_args (buffer t (KIndex i)).
Proof.
  intros W Hc. destruct (wf_unknown t c W Hc) as [Hp Hn]. unfold buffer.
  destruct (pending t !! KIndex i) as [old|]; simpl.
  - intros (p & -> & Ha & Hname). simpl. auto.
  - intros ->. by rewrite Hp.
Qed.

(** The call's own entry. *)
Lemma tracks_own t tc pos any t' evs i c st :
  wf None t → handled t tc pos any t' evs → tracks t i c st →
  tc_index tc = Some i → c ≠ "" → (tc_id tc = None ∨ tc_id tc = Some c) →
  tracks t' i c (fst (call_step st tc)) ∧ evs = call_events c (snd (call_step st tc)).
Proof.
  intros W H T Hi Hne Hid. assert (Hk : wire_key tc pos any = Some (KIndex i)).
  { unfold wire_key. by rewrite Hi. }
  destruct H as [Hk' _ _|j Hk' Hnone Htc -> W' Et En Ef Eo Ep|key c' t1 t2 Hk' Ht1 Hc' Hm Ha];
    [congruence| |]; rewrite Hk in Hk'; injection Hk' as <-.
  - destruct st as [n a|nm b]; [|by destruct T as [T _]; congruence].
    destruct T as (T1 & T2 & <- & <-). simpl. rewrite Hnone. simpl. split; [|done].
    destruct Ep as [s Ep]. rewrite Et. unfold buffer. rewrite Ep. by simpl.
  - pose proof (register_id_cases t (KIndex i) (tc_id tc)) as Hr. simpl in Hr. rewrite <- Ht1 in Hr.
    destruct Hr as (Rn & Rp & _ & _ & _ & _ & Ro & Rk).
    assert (c' = c) as ->.
    { rewrite Rk in Hc'. destruct st as [n a|nm b]; destruct T as [T _]; rewrite T in Hc'.
      - destruct Hid as [Hid|Hid]; rewrite Hid in Hc'; congruence.
      - apply is_empty_false in Hne. rewrite Hne in Hc'. simpl in Hc'.
        destruct Hid as [Hid|Hid]; rewrite Hid in Hc'; congruence. }
    assert (Hcan : canonical_key (KIndex i) c = KId c).
    { unfold canonical_key. apply is_empty_false in Hne. by rewrite Hne. }
    rewrite Hcan in Ha. cbv zeta in Ha. fold (buffer t2 (KId c)) in Ha.
    pose proof (moved_slot _ _ _ _ Hm Hne ltac:(done)) as Hslot. rewrite Rp, Rn in Hslot.
    pose proof (moved_calls _ _ _ _ Hm) as Hcalls. apply is_empty_false in Hne as Hne'.
    rewrite Hne' in Hcalls.
    pose proof (moved_source _ _ _ _ Hm Hne ltac:(done)) as Hsrc.
    assert (Hst : call_step st tc =
      let '(named, buffered, out) := name_step (name_emitted t !! KId c) (p_name (buffer t2 (KId c)))
         (p_args (buffer t2 (KId c))) (name_frag tc) (args_frag tc) in (Running named buffered, out)).
    { destruct st as [n a|nm b].
      - destruct T as (T1 & T2 & <- & <-). destruct (wf_unknown t c W T2) as [_ ->].
        apply buffer_moved in Hslot as [-> ->]; [|done..].
        unfold call_step. destruct Hid as [Hid|Hid]; rewrite Hid; [|done].
        rewrite Hid in Rk. congruence.
      - destruct T as (T1 & T2 & T3 & <- & <-). rewrite T3 in Hslot.
        unfold buffer. rewrite Hslot. unfold call_step.
        replace (p_args (default (Pending_new 0) (pending t !! KId c))) with ""; [done|].
        destruct (pending t !! KId c) as [p|] eqn:Hp; [|done]. symmetry.
        by apply (wf_drained _ _ W c p). }
    rewrite Hst. destruct (name_step _ _ _ _ _) as [[named buffered] out]. simpl.
    destruct Ha as [Aw Ac Af Ao An Ab Ae]. split; [|done].
    rewrite Ac, Hcalls. destruct (Ao (KIndex i)) as [-> _]; [done|].
    split_and!; try done.
    + rewrite lookup_insert_ne by done. done.
    + by rewrite lookup_insert_eq.
    + unfold buffer. destruct buffered as [|ch s]; simpl in Ab; [by rewrite Ab|].
      by destruct Ab as [s' ->].
Qed.

(** Another call's entry. *)
Lemma tracks_other t tc pos any t' evs i c j c' st :
  wf None t → handled t tc pos any t' evs → tracks t i c st →
  tc_index tc = Some j → j ≠ i → c ≠ c' → c' ≠ "" →
  (tc_id tc = None ∨ tc_id tc = Some c') →
  (tool_calls t !! KIndex j = None ∨ tool_calls t !! KIndex j = Some c') →
  tracks t' i c st ∧ call_deltas c evs = [].
Proof.
  intros W H T Hj Hij Hcc Hne Hid Hreg. assert (Hk : wire_key tc pos any = Some (KIndex j)).
  { unfold wire_key. by rewrite Hj. }
  assert (Htr : (∀ k, k = KIndex i ∨ k = KId c → tool_calls t' !! k = tool_calls t !! k
      ∧ pending t' !! k = pending t !! k ∧ name_emitted t' !! k = name_emitted t !! k) →
      tracks t' i c st).
  { intros Hs. destruct (Hs (KIndex i)) as (E1 & E2 & E3); [by left|].
    destruct (Hs (KId c)) as (F1 & F2 & F3); [by right|].
    unfold tracks, buffer in *. by rewrite E1, E2, F1, F2, F3. }
  destruct H as [Hk' _ _|j' Hk' Hnone Htc -> W' Et En Ef Eo Ep|key c'' t1 t2 Hk' Ht1 Hc' Hm Ha];
    [congruence| |]; rewrite Hk in Hk'; injection Hk' as <-.
  - split; [|done]. apply Htr. intros k Hk'. rewrite Et, En, Eo; [done|naive_solver].
  - pose proof (register_id_cases t (KIndex j) (tc_id tc)) as Hr. simpl in Hr. rewrite <- Ht1 in Hr.
    destruct Hr as (Rn & Rp & _ & _ & _ & _ & Ro & Rk).
    assert (c'' = c') as ->.
    { rewrite Rk in Hc'. apply is_empty_false in Hne.
      destruct Hreg as [Hreg|Hreg], Hid as [Hid|Hid]; rewrite Hreg, Hid, ?Hne in Hc'; simpl in Hc';
        congruence. }
    assert (Hcan : canonical_key (KIndex j) c' = KId c').
    { unfold canonical_key. apply is_empty_false in Hne. by rewrite Hne. }
    rewrite Hcan in Ha. cbv zeta in Ha. destruct (name_step _ _ _ _ _) as [[named buffered] out].
    destruct Ha as [Aw Ac Af Ao An Ab ->]. split.
    + apply Htr. intros k Hk'. destruct (Ao k) as [-> ->]; [naive_solver|].
      rewrite Ac, (moved_calls _ _ _ _ Hm), (moved_names _ _ _ _ Hm), Rn.
      rewrite (moved_others _ _ _ _ Hm) by naive_solver. rewrite Rp.
      apply is_empty_false in Hne. rewrite Hne. rewrite lookup_insert_ne by naive_solver.
      rewrite Ro by naive_solver. done.
    + rewrite call_deltas_events. destruct (String.eqb_spec c c'); congruence.
Qed.

Lemma tracks_owed t i c st : tracks t i c st → owed t c = call_end st.
Proof.
  destruct st as [n a|nm b]; simpl; unfold owed, contains, buffer.
  - intros (_ & -> & _). by rewrite andb_false_r.
  - intros (_ & -> & _ & -> & <-). by destruct nm, (is_empty _).
Qed.

Definition fragments (i : Z) (l : list ToolCallChunk) : list ToolCallChunk :=
  filter (λ tc, tc_index tc = Some i) l.

(** A backend that indexes every entry, with one id per index. *)
Section Conforming.
Context `{J : SerdeJson} (indexes : list Z) (id_of : Z → string).

Definition entry_ok (tc : ToolCallChunk) : Prop :=
  ∃ i, i ∈ indexes ∧ tc_index tc = Some i ∧ (tc_id tc = None ∨ tc_id tc = Some (id_of i)).

Record conforming (chunks : list StreamChunk) : Prop := {
  conf_entries : Forall entry_ok (wire_calls chunks);
  conf_ids : ∀ i, i ∈ indexes → id_of i ≠ "";
  conf_inj : ∀ i j, i ∈ indexes → j ∈ indexes → id_of i = id_of j → i = j;
}.

(** No id but those of the backend is ever registered. *)
Definition confined (t : ChatTranslator) : Prop :=
  ∀ k c, tool_calls t !! k = Some c → ∃ i, i ∈ indexes ∧ c = id_of i.

Record decoding (t : ChatTranslator) (l : list ToolCallChunk) (es : list ModelEvent) : Prop := {
  dec_wf : wf None t;
  dec_calls : ∀ i, i ∈ indexes →
    tracks t i (id_of i) (fst (call_run (Waiting "" "") (fragments i l)))
    ∧ call_deltas (id_of i) es = snd (call_run (Waiting "" "") (fragments i l));
  dec_confined : confined t;
  dec_events : ∀ c, call_deltas c es ≠ [] → ∃ i, i ∈ indexes ∧ c = id_of i;
}.

Lemma handled_confined t tc pos any t' evs i :
  confined t → handled t tc pos any t' evs → i ∈ indexes →
  (tc_id tc = None ∨ tc_id tc = Some (id_of i)) →
  confined t' ∧ ∀ c, call_deltas c evs ≠ [] → ∃ i, i ∈ indexes ∧ c = id_of i.
Proof.
  intros C H Hi Hid.
  destruct H as [_ -> ->|j _ _ _ -> _ Et _ _ _ _|key c t1 t2 Hk Ht1 Hc Hm Ha]; [done| |].
  - split; [|done]. intros k c. rewrite Et. apply C.
  - pose proof (register_id_cases t key (tc_id tc)) as Hr. simpl in Hr. rewrite <- Ht1 in Hr.
    destruct Hr as (_ & _ & _ & _ & _ & _ & Ro & Rk).
    assert (C1 : confined t1).
    { intros k c'. destruct (decide (k = key)) as [->|Hne]; [|rewrite Ro by done; apply C].
      rewrite Rk. destruct Hid as [-> | ->]; [apply C|].
      destruct (tool_calls t !! key) as [x|] eqn:Hx; [|intros [= <-]; eauto].
      destruct (_ && _)%bool; intros [= <-]; eauto. }
    cbv zeta in Ha. destruct (name_step _ _ _ _ _) as [[named buffered] out].
    destruct Ha as [_ Ac _ _ _ _ ->]. split.
    + intros k c'. rewrite Ac, (moved_calls _ _ _ _ Hm). destruct (is_empty c); [apply C1|].
      destruct (decide (k = KId c)) as [->|Hne].
      * rewrite lookup_insert_eq. intros [= <-]. by eapply C1.
      * rewrite lookup_insert_ne by done. apply C1.
    + intros c'. rewrite call_deltas_events. destruct (String.eqb_spec c' c) as [->|]; [|done].
      intros _. by eapply C1.
Qed.

Lemma decoding_step chunks t l es tc pos any t' es' :
  conforming chunks → decoding t l es → entry_ok tc →
  handle_tool_call t tc pos any = (t', es') → decoding t' (l ++ [tc]) (es ++ es').
Proof.
  intros K [W D C E] (i & Hi & Hix & Hid) H. apply handle_tool_call_cases in H; [|done].
  destruct (handled_confined t tc pos any t' es' i C H Hi Hid) as [C' E'].
  split; [by eapply handled_wf| |done|].
  - intros j Hj. destruct (D j Hj) as [T Ed]. unfold fragments in *. rewrite filter_app, call_deltas_app.
    destruct (decide (i = j)) as [<-|Hne].
    + rewrite (filter_cons_True _ tc) by done. rewrite filter_nil, call_run_snoc. simpl.
      eapply tracks_own in H as [T' ->]; [|done..|by apply (conf_ids _ K)|done].
      split; [done|]. by rewrite Ed, call_deltas_events, String.eqb_refl.
    + rewrite (filter_cons_False _ tc) by congruence. rewrite filter_nil, app_nil_r.
      destruct (tracks_other t tc pos any t' es' j (id_of j) i (id_of i)
        (fst (call_run (Waiting "" "") (filter (λ tc, tc_index tc = Some j) l)))) as [T' E2];
        try done.
      * intros Heq. by apply Hne, (conf_inj _ K).
      * by apply (conf_ids _ K).
      * destruct (D i Hi) as [Ti _].
        destruct (fst (call_run _ (filter (λ tc, tc_index tc = Some i) l))); destruct Ti; auto.
      * split; [done|]. by rewrite E2, app_nil_r.
  - intros c. rewrite call_deltas_app. intros Hc.
    destruct (call_deltas c es) eqn:Hes; [by apply E'|]. apply E. congruence.
Qed.

Lemma decode_all chunks t es :
  conforming chunks → consume_all ChatTranslator_new chunks = (t, es) →
  decoding t (wire_calls chunks) es.
Proof.
  intros K H.
  refine (consume_all_ind decoding entry_ok _ _ _ chunks ChatTranslator_new t es [] [] _
    (conf_entries _ K) H).
  - intros. by eapply decoding_step.
  - intros t0 l es0 ev [W D C E] Hev.
    assert (Hd : ∀ c, call_deltas c (es0 ++ [ev]) = call_deltas c es0).
    { intros c. rewrite call_deltas_app. destruct ev; by rewrite ?app_nil_r. }
    split; [done| |done|].
    + intros i Hi. rewrite Hd. by apply D.
    + intros c. rewrite Hd. apply E.
  - intros t0 l es0 r [W D C E]. by split; [apply wf_set_finish| | |].
  - split; [apply wf_new| | |done].
    + intros i _. simpl. unfold buffer. by rewrite !lookup_empty.
    + intros k c. simpl. by rewrite lookup_empty.
Qed.

(** Each call as if streamed alone, and no call that was not streamed. *)
Lemma translate_calls chunks :
  conforming chunks →
  (∀ i, i ∈ indexes → call_deltas (id_of i) (snd (translate chunks)) =
     let '(st, out) := call_run (Waiting "" "") (fragments i (wire_calls chunks)) in
     out ++ call_end st)
  ∧ (∀ c, call_deltas c (snd (translate chunks)) ≠ [] → ∃ i, i ∈ indexes ∧ c = id_of i).
Proof.
  intros K. unfold translate. destruct (consume_all _ chunks) as [t es] eqn:H1.
  destruct (translator_finish t) as [t' out] eqn:H2.
  apply decode_all in H1 as [W D C E]; [|done].
  apply finish_spec in H2 as (o & -> & _ & Ho & Hc); [|done]. simpl.
  assert (Hfin : ∀ c, call_deltas c (MEFinish ∘ finish_reason_of <$> option_list (t_finish_reason t)) = []).
  { intros c. by destruct (t_finish_reason t). }
  split.
  - intros i Hi. destruct (D i Hi) as [T Ed].
    rewrite !call_deltas_app, Hfin, app_nil_r, Ho, Ed by by apply (conf_ids _ K).
    rewrite (tracks_owed _ _ _ _ T). by destruct (call_run _ _).
  - intros c. rewrite !call_deltas_app, Hfin, app_nil_r. intros Hne.
    destruct (call_deltas c es) eqn:Hes; [|apply E; congruence]. simpl in Hne.
    clear Ho. induction Hc as [|ev o (c' & n & k & -> & Hk) _ IH]; [done|].
    revert Hne. unfold call_deltas. simpl. destruct (String.eqb_spec c c') as [->|]; [|exact IH].
    intros _. by eapply C.
Qed.
End Conforming.

(** ** What a call's machine delivers *)

Lemma concat_all_app l1 l2 : concat_all (l1 ++ l2) = concat_all l1 +:+ concat_all l2.
Proof. induction l1 as [|s l1 IH]; simpl; [done|]. by rewrite IH, string_app_assoc. Qed.

Lemma call_out_args flush name args : concat_all (snd <$> call_out flush name args) = args.
Proof.
  unfold call_out. destruct flush; simpl; [by rewrite string_app_nil_r|].
  destruct (is_empty args) eqn:E; simpl; [by apply is_empty_true in E|by rewrite string_app_nil_r].
Qed.

(** The arguments arrive whole, in order. *)
Lemma call_run_args frs :
  let '(st, out) := call_run (Waiting "" "") frs in
  match st with
  | Waiting _ args => out = [] ∧ args = concat_all (args_frag <$> frs)
  | Running _ _ => concat_all (snd <$> out) = concat_all (args_frag <$> frs)
  end.
Proof.
  induction frs as [|tc frs IH] using rev_ind; [done|]. rewrite call_run_snoc.
  destruct (call_run _ frs) as [st out]. rewrite fmap_app, concat_all_app. simpl fst. simpl snd.
  simpl (concat_all (args_frag <$> [tc])). rewrite string_app_nil_r. unfold call_step.
  destruct st as [n a|nm b].
  - destruct IH as [-> ->]. destruct (is_some (tc_id tc)); [|done].
    unfold name_step. simpl. apply call_out_args.
  - unfold name_step. simpl. by rewrite fmap_app, concat_all_app, IH, call_out_args.
Qed.

Lemma call_step_running st tc :
  is_some (tc_id tc) = true → ∃ nm b, fst (call_step st tc) = Running nm b.
Proof.
  intros Hid. unfold call_step. destruct st as [n a|nm b]; rewrite ?Hid;
    simpl; eauto.
Qed.

(** Once a fragment carried the id, the call runs. *)
Lemma call_run_running st frs :
  (∃ nm b, st = Running nm b) ∨ existsb (λ tc, is_some (tc_id tc)) frs = true →
  ∃ nm b, fst (call_run st frs) = Running nm b.
Proof.
  revert st. induction frs as [|tc frs IH]; intros st H; simpl in *; [naive_solver|].
  destruct (call_step st tc) as [st1 o1] eqn:H1. specialize (IH st1).
  destruct (call_run st1 frs) as [st2 o2]. simpl in *. apply IH.
  destruct H as [(nm & b & ->)|H].
  - left. unfold call_step in H1. destruct (name_step _ _ _ _ _) as [[nm' b'] o].
    injection H1 as <- <-. eauto.
  - apply orb_true_iff in H as [H|H]; [|by right]. left.
    destruct (call_step_running st tc H) as (nm & b & E). rewrite H1 in E. simpl in E. eauto.
Qed.

(** Names come before arguments, and no fragment repeats the name so far: every
    fragmentation the wire format allows, short of a name that doubles itself. *)
Definition nameless (tc : ToolCallChunk) : bool := is_empty (name_frag tc).

Fixpoint names_first (so_far : string) (frs : list ToolCallChunk) : bool :=
  match frs with
  | [] => true
  | tc :: frs' =>
      if nameless tc then forallb nameless frs'
      else negb (String.eqb so_far (name_frag tc))
           && (forallb nameless frs'
               || is_empty (args_frag tc) && names_first (so_far +:+ name_frag tc) frs')
  end.

(** The name is [n]; [ns] are the names emitted. *)
Definition settled (n : string) (st : call_state) (ns : list string) : Prop :=
  match st with
  | Waiting m _ => m = n ∧ ns = []
  | Running None b => b = n ∧ ns = []
  | Running (Some m) b => m = n ∧ b = "" ∧ n ≠ "" ∧ ns = [n]
  end.

Lemma name_step_settled n a nf af :
  (nf = "" ∨ String.eqb n nf = false) →
  let '(named, buffered, out) := name_step None n a nf af in
  settled (n +:+ nf) (Running named buffered) (omap fst out)
  ∧ (nf ≠ "" → af = "" → named = None).
Proof.
  intros Hnf. unfold name_step, name_complete, extended_name. simpl.
  assert (Hout : omap fst (call_out false (n +:+ nf) (a +:+ af)) = []).
  { unfold call_out. simpl. by destruct (is_empty (a +:+ af)). }
  assert ((if negb (String.eqb n nf) then n +:+ nf else n) = n +:+ nf) as ->.
  { destruct Hnf as [-> | ->]; [|done]. rewrite string_app_nil_r. by destruct (_ =? _)%string. }
  destruct (negb (is_empty (n +:+ nf))) eqn:Hn; simpl.
  - destruct (negb (is_empty af) || is_empty nf) eqn:Hf; simpl.
    + split.
      * split_and!; try done. apply negb_true_iff, is_empty_false in Hn. done.
      * intros H1 ->. apply is_empty_false in H1. by rewrite H1 in Hf.
    + by split.
  - by split.
Qed.

Lemma call_step_settled n st ns tc :
  settled n st ns → (name_frag tc = "" ∨ ns = [] ∧ String.eqb n (name_frag tc) = false) →
  settled (n +:+ name_frag tc) (fst (call_step st tc)) (ns ++ omap fst (snd (call_step st tc)))
  ∧ (ns = [] → name_frag tc ≠ "" → args_frag tc = "" →
     ns ++ omap fst (snd (call_step st tc)) = []).
Proof.
  intros S H. unfold call_step. destruct st as [m a|[m|] b].
  - destruct S as [-> ->].
    destruct (is_some (tc_id tc)); [|by simpl].
    pose proof (name_step_settled n a (name_frag tc) (args_frag tc)) as Hs.
    destruct (name_step _ _ _ _ _) as [[nm b] out]. destruct Hs as [Hs He]; [naive_solver|].
    simpl. split; [done|]. intros _ H1 H2. specialize (He H1 H2). subst nm. by destruct Hs.
  - destruct S as (-> & -> & Hn & ->). destruct H as [Hnf|[? _]]; [|done].
    rewrite Hnf, string_app_nil_r. unfold name_step, name_complete, extended_name. simpl.
    unfold call_out. simpl. split; [|done]. by destruct (is_empty _).
  - destruct S as [-> ->].
    pose proof (name_step_settled n "" (name_frag tc) (args_frag tc)) as Hs.
    destruct (name_step _ _ _ _ _) as [[nm b] out]. destruct Hs as [Hs He]; [naive_solver|].
    simpl. split; [done|]. intros _ H1 H2. specialize (He H1 H2). subst nm. by destruct Hs.
Qed.

Lemma call_run_tail frs n st ns :
  settled n st ns → forallb nameless frs = true →
  settled n (fst (call_run st frs)) (ns ++ omap fst (snd (call_run st frs))).
Proof.
  revert st ns. induction frs as [|tc frs IH]; intros st ns S H; simpl in *; [by rewrite app_nil_r|].
  apply andb_true_iff in H as [Htc H]. apply is_empty_true in Htc.
  destruct (call_step_settled n st ns tc S (or_introl Htc)) as [S1 _].
  rewrite Htc, string_app_nil_r in S1. destruct (call_step st tc) as [st1 o1]. simpl in S1.
  specialize (IH st1 _ S1 H). destruct (call_run st1 frs) as [st2 o2]. simpl in *.
  by rewrite omap_app, app_assoc.
Qed.

Lemma nameless_concat frs : forallb nameless frs = true → concat_all (name_frag <$> frs) = "".
Proof.
  induction frs as [|x frs IH]; intros H; [done|]. apply andb_true_iff in H as [Hx H].
  apply is_empty_true in Hx. rewrite fmap_cons. simpl. by rewrite Hx, IH.
Qed.

Lemma call_run_names frs n st :
  settled n st [] → names_first n frs = true →
  settled (n +:+ concat_all (name_frag <$> frs)) (fst (call_run st frs))
    (omap fst (snd (call_run st frs))).
Proof.
  revert n st. induction frs as [|tc frs IH]; intros n st S H; [by simpl; rewrite string_app_nil_r|].
  simpl in H. unfold nameless at 1 in H. destruct (is_empty (name_frag tc)) eqn:Htc.
  - apply is_empty_true in Htc.
    assert (Hall : forallb nameless (tc :: frs) = true).
    { simpl. unfold nameless at 1. by rewrite Htc. }
    rewrite (nameless_concat _ Hall), string_app_nil_r.
    by apply (call_run_tail (tc :: frs) n st []).
  - apply andb_true_iff in H as [Hne H]. apply negb_true_iff in Hne. apply is_empty_false in Htc.
    destruct (call_step_settled n st [] tc S) as [S1 Q1]; [by right|].
    rewrite fmap_cons. cbn [call_run concat_all foldr]. rewrite <- string_app_assoc.
    destruct (call_step st tc) as [st1 o1]. cbn [fst snd app] in *.
    apply orb_true_iff in H as [H|H].
    + pose proof (nameless_concat _ H) as Hall. unfold concat_all in Hall.
      rewrite Hall, string_app_nil_r. apply (call_run_tail frs) in S1; [|done].
      destruct (call_run st1 frs). simpl in *. by rewrite omap_app.
    + apply andb_true_iff in H as [Ha H]. apply is_empty_true in Ha.
      rewrite Q1 in S1 by done. specialize (IH _ _ S1 H).
      destruct (call_run st1 frs) as [st2 o2]. simpl in *. by rewrite omap_app, Q1.
Qed.

Lemma call_run_total frs :
  existsb (λ tc, is_some (tc_id tc)) frs = true → names_first "" frs = true →
  concat_all (name_frag <$> frs) ≠ "" →
  call_spec (let '(st, out) := call_run (Waiting "" "") frs in out ++ call_end st)
  = Some (mkToolCallAccum (Some (concat_all (name_frag <$> frs))) (concat_all (args_frag <$> frs))).
Proof.
  intros Hid Hnf Hne.
  pose proof (call_run_args frs) as Ha.
  pose proof (call_run_names frs "" (Waiting "" "") (conj eq_refl eq_refl) Hnf) as Hn.
  destruct (call_run_running (Waiting "" "") frs (or_intror Hid)) as (nm & b & Hr).
  destruct (call_run (Waiting "" "") frs) as [st out]. simpl in *. subst st.
  set (name := concat_all (name_frag <$> frs)) in *.
  assert (Hspec : ∀ l, omap fst l = [name] → concat_all (snd <$> l) = concat_all (args_frag <$> frs) →
    call_spec l = Some (mkToolCallAccum (Some name) (concat_all (args_frag <$> frs)))).
  { intros l H1 H2. unfold call_spec. destruct l as [|x l]; [done|]. rewrite H2. do 2 f_equal.
    clear H2 Ha Hn. revert x H1. unfold first_name. 
    induction l as [|y l IH]; intros x; simpl; destruct (fst x) as [m|]; try (by intros [= ->]); try done.
    intros H. by apply (IH y). }
  apply Hspec.
  - rewrite omap_app. destruct nm as [m|]; simpl in *.
    + destruct Hn as (-> & -> & _ & ->). done.
    + destruct Hn as [-> ->]. apply is_empty_false in Hne. by rewrite Hne.
  - rewrite fmap_app, concat_all_app, Ha. destruct nm as [m|]; simpl; [by rewrite string_app_nil_r|].
    destruct (is_empty b); simpl; by rewrite string_app_nil_r.
Qed.

Lemma nonblank_concat l : concat_all (omap (nonblank ∘ Some) l) = concat_all l.
Proof.
  induction l as [|[|a s] l IH]; [done|exact IH|].
  change (String a s +:+ concat_all (omap (nonblank ∘ Some) l) = String a s +:+ concat_all l).
  by rewrite IH.
Qed.

Section Turns.
Context `{J : SerdeJson}.

Lemma call_only_channels evs (Q : string → option string → Prop) :
  Forall (λ ev, ∃ c n, ev = METoolCallDelta c n "" ∧ Q c n) evs → only_calls evs.
Proof. induction 1 as [|ev evs (c & n & -> & _) _ IH]; [done|]. apply IH. Qed.

Lemma finish_only_calls t t' out :
  wf None t → translator_finish t = (t', out) →
  ∃ o, out = o ++ (MEFinish ∘ finish_reason_of <$> option_list (t_finish_reason t)) ∧ only_calls o.
Proof.
  intros W H. apply finish_spec in H as (o & -> & _ & _ & Hc); [|done].
  exists o. split; [done|]. apply (call_only_channels o (λ c _, ∃ k, tool_calls t !! k = Some c)).
  eapply Forall_weaken; [exact Hc|]. naive_solver.
Qed.

Lemma translate_channels chunks :
  text_deltas (snd (translate chunks)) = omap (nonblank ∘ Some) (wire_text chunks)
  ∧ reasoning_deltas (snd (translate chunks)) = omap (nonblank ∘ Some) (wire_reasoning chunks)
  ∧ usage_events (snd (translate chunks)) = usage_tokens <$> wire_usage chunks
  ∧ last (finish_events (snd (translate chunks))) = finish_reason_of <$> last (wire_finish chunks).
Proof.
  unfold translate. destruct (consume_all _ chunks) as [t es] eqn:H1.
  destruct (translator_finish t) as [t' out] eqn:H2.
  apply consume_all_passed in H1 as [W T R U N F]; [|apply wf_new].
  apply finish_only_calls in H2 as (o & -> & O1 & O2 & O3 & O4); [|done].
  rewrite F. simpl. unfold text_deltas, reasoning_deltas, usage_events, finish_events in *.
  rewrite !omap_app, T, R, U, N, O1, O2, O3, O4.
  destruct (last (wire_finish chunks)); simpl; by rewrite !app_nil_r.
Qed.

(** The items of a stream, after [before] has been emitted: events, then at most
    one error; no call named twice; [Finish] only at the end of a stream without
    an error. *)
Definition sound_stream (before : list ModelEvent) (items : list (result ModelEvent ModelError))
  : Prop :=
  ∃ evs errs, items = (Ok <$> evs) ++ (Err <$> errs)
  ∧ (length errs ≤ 1)%nat
  ∧ (∀ c, c ≠ "" → (length (names_of c (before ++ evs)) ≤ 1)%nat)
  ∧ (finish_events evs = []
     ∨ errs = [] ∧ ∃ pre r, evs = pre ++ [MEFinish r] ∧ finish_events pre = []).

Lemma sound_stop es (errs : list ModelError) :
  (length errs ≤ 1)%nat → (∀ c, c ≠ "" → (length (names_of c es) ≤ 1)%nat) →
  sound_stream es (Err <$> errs).
Proof. intros He Hn. exists [], errs. rewrite app_nil_r. split_and!; [done..|by left]. Qed.

Lemma traced_bound t es c : traced t es → c ≠ "" → (length (names_of c es) ≤ 1)%nat.
Proof. intros T Hc. rewrite T by done. destruct (name_emitted t !! KId c); simpl; lia. Qed.

Lemma stream_end_sound t es :
  wf None t → traced t es → sound_stream es (Ok <$> snd (translator_finish t)).
Proof.
  intros W T. destruct (translator_finish t) as [t' out] eqn:H. exists out, [].
  split_and!; [by rewrite app_nil_r|simpl; lia| |].
  - intros c Hc. by eapply names_bound.
  - apply finish_only_calls in H as (o & -> & _ & _ & _ & Ho); [|done].
    destruct (t_finish_reason t) as [r|]; [right|left; simpl; by rewrite app_nil_r].
    split; [done|]. by exists o, (finish_reason_of r).
Qed.

Lemma consume_traced t chunk t' es' es :
  consume t chunk = (t', es') → wf None t → traced t es →
  wf None t' ∧ traced t' (es ++ es') ∧ finish_events es' = [].
Proof.
  intros H W T. pose proof (consume_passed t chunk t' es' W H) as Hp.
  split_and!; [apply Hp| |apply Hp].
  assert (wf None t' ∧ traced t' (es ++ es')) as [_ ?]; [|done].
  refine (consume_ind (λ t _ es, wf None t ∧ traced t es) (λ _, True) _ _ _
    t chunk t' es' [] es _ _ H); [| | |done|by apply Forall_true].
  - intros t0 l es0 tc pos any t1 e1 [W0 T0] _ H1. apply handle_tool_call_cases in H1; [|done].
    split; [by eapply handled_wf|by eapply handled_traced].
  - intros t0 l es0 ev [W0 T0] Hev. split; [done|].
    intros c Hc. rewrite names_of_app, T0 by done. by destruct ev; rewrite ?app_nil_r.
  - intros t0 l es0 r [W0 T0]. split; [by apply wf_set_finish|done].
Qed.

(** The loop from a state in which [es] has been emitted. *)
Lemma stream_loop_sound parse_chunk call_id content_type polls t es :
  wf None t → traced t es →
  sound_stream es (stream_loop parse_chunk call_id content_type t polls).
Proof.
  revert t es. induction polls as [|p polls IH]; intros t es W T.
  - by apply stream_end_sound.
  - pose proof (λ c, traced_bound t es c T) as Hb.
    destruct p as [|m|data]; simpl; 
      [by apply (sound_stop es []); [simpl; lia|]|by apply (sound_stop es [Transport m])|].
    destruct (String.eqb data "[DONE]"); [by apply stream_end_sound|].
    destruct (parse_chunk data) as [chunk|]; [|by apply IH].
    destruct (match sc_error chunk with Some e => _ | None => _ end).
    { by apply (sound_stop es [_]). }
    destruct (consume t chunk) as [t1 e1] eqn:H1.
    destruct (consume_traced t chunk t1 e1 es H1 W T) as (W1 & T1 & F1).
    destruct (IH t1 (es ++ e1) W1 T1) as (evs & errs & -> & Hl & Hn & Hf).
    exists (e1 ++ evs), errs. split_and!; [by rewrite fmap_app, app_assoc|done| |].
    + intros c Hc. rewrite app_assoc. by apply Hn.
    + unfold finish_events in *. rewrite omap_app, F1.
      destruct Hf as [Hf|[-> (pre & r & -> & Hp)]]; [by left|right]. split; [done|].
      exists (e1 ++ pre), r. by rewrite app_assoc, omap_app, F1, Hp.
Qed.

(** The chunks of a body that ends cleanly, without cancellation, transport
    error or error frame; payloads that do not parse are skipped. *)
Fixpoint received (parse_chunk : string → result StreamChunk string) (polls : list Polled)
  : option (list StreamChunk) :=
  match polls with
  | [] => Some []
  | PollData data :: polls' =>
      if String.eqb data "[DONE]" then Some []
      else match parse_chunk data with
           | Err _ => received parse_chunk polls'
           | Ok chunk =>
               if match sc_error chunk with
                  | Some e => negb (bool_decide (e = VNull)) | None => false end
               then None else cons chunk <$> received parse_chunk polls'
           end
  | _ :: _ => None
  end.

Lemma stream_loop_received parse_chunk call_id content_type polls chunks t :
  received parse_chunk polls = Some chunks →
  stream_loop parse_chunk call_id content_type t polls
  = Ok <$> (let '(t1, es) := consume_all t chunks in es ++ snd (translator_finish t1)).
Proof.
  revert chunks t. induction polls as [|[|m|data] polls IH]; intros chunks t; simpl; [|done..|].
  { by intros [= <-]. }
  destruct (String.eqb data "[DONE]"); [by intros [= <-]|].
  destruct (parse_chunk data) as [chunk|]; [|apply IH].
  destruct (match sc_error chunk with Some e => _ | None => _ end); [done|].
  intros (cs & Hcs & ->)%fmap_Some. simpl. destruct (consume t chunk) as [t1 e1].
  rewrite (IH _ t1 Hcs). destruct (consume_all t1 cs) as [t2 e2]. by rewrite <- fmap_app, app_assoc.
Qed.

Definition sse_ok (r : HttpResponse) : bool :=
  (200 <=? r_status r)%Z && (r_status r <? 300)%Z && starts_with (r_content_type r) "text/event-stream".

Lemma invoke_stream_received parse_chunk r chunks :
  sse_ok r = true → received parse_chunk (r_polls r) = Some chunks →
  invoke_stream parse_chunk (Responded r) = Ok <$> snd (translate chunks).
Proof.
  unfold sse_ok. rewrite andb_true_iff. intros [Hs Hc] Hr. simpl. rewrite Hs, Hc. simpl.
  rewrite (stream_loop_received _ _ _ _ _ _ Hr). unfold translate.
  destruct (consume_all _ chunks) as [t es]. by destruct (translator_finish t).
Qed.

(** C6. For a backend that indexes its tool calls and gives each index one id, a
    response that ends cleanly yields events only, and the turn accumulated from
    them is exactly what was sent: the text and reasoning deltas concatenated,
    the last usage and finish reason, and for every call its name and argument
    fragments concatenated, however the calls interleave, wherever in a call its
    id comes and however the name is cut, with no call that was not sent. *)
Theorem litellm_turn_exact parse_chunk r indexes id_of chunks agent :
  sse_ok r = true → received parse_chunk (r_polls r) = Some chunks →
  conforming indexes id_of chunks →
  (∀ i, i ∈ indexes → let frs := fragments i (wire_calls chunks) in
     existsb (λ tc, is_some (tc_id tc)) frs = true ∧ names_first "" frs = true
     ∧ concat_all (name_frag <$> frs) ≠ "") →
  ∃ evs, invoke_stream parse_chunk (Responded r) = Ok <$> evs ∧
  let acc := observe_all agent evs in
  text acc = concat_all (wire_text chunks)
  ∧ reasoning acc = concat_all (wire_reasoning chunks)
  ∧ latest_usage acc = usage_tokens <$> last (wire_usage chunks)
  ∧ finish_reason acc = default Stop (finish_reason_of <$> last (wire_finish chunks))
  ∧ (∀ c a, btree_get c (tool_accum acc) = Some a ↔
      ∃ i, i ∈ indexes ∧ c = id_of i ∧
        let frs := fragments i (wire_calls chunks) in
        a = mkToolCallAccum (Some (concat_all (name_frag <$> frs)))
              (concat_all (args_frag <$> frs))).
Proof.
  intros Hok Hrec K Hfr. exists (snd (translate chunks)). split; [by apply invoke_stream_received|].
  pose proof (observe_all_spec agent (snd (translate chunks))) as [_ Ht Hr _ Hc Hu Hf].
  destruct (translate_calls indexes id_of chunks K) as [Hcalls Honly].
  pose proof (translate_channels chunks) as (C1 & C2 & C3 & C4).
  simpl. split_and!.
  - by rewrite Ht, C1, nonblank_concat.
  - by rewrite Hr, C2, nonblank_concat.
  - by rewrite Hu, C3, fmap_last.
  - by rewrite Hf, C4.
  - intros c a. rewrite Hc. split.
    + intros Hs. destruct (Honly c) as (i & Hi & ->); [by destruct (call_deltas c _)|].
      exists i. split_and!; [done..|]. destruct (Hfr i Hi) as (H1 & H2 & H3).
      rewrite Hcalls, call_run_total in Hs by done. by injection Hs.
    + intros (i & Hi & -> & ->). destruct (Hfr i Hi) as (H1 & H2 & H3).
      rewrite Hcalls by done. by apply call_run_total.
Qed.

(** Whatever the proxy answers, the stream is model events followed by at
    most one error, which is then the last item; [Finish] appears at most once,
    as the last item of a stream without an error; and no call that has an id is
    named twice, even in a stream cut short. *)
Theorem litellm_stream_sound parse_chunk sent :
  sound_stream [] (invoke_stream parse_chunk sent).
Proof.
  assert (Hb : ∀ c, c ≠ "" → (length (names_of c []) ≤ 1)%nat) by (simpl; lia).
  destruct sent as [|m|r]; simpl; 
    [by apply (sound_stop [] []); [simpl; lia|]|by apply (sound_stop [] [_])|].
  destruct (_ || _)%bool; [by apply (sound_stop [] [_])|].
  by apply (stream_loop_sound parse_chunk _ _ _ ChatTranslator_new []); [apply wf_new|].
Qed.
End Turns.

(** ** A response with two interleaved calls *)

Module LiteLlmDemo.
#[local] Existing Instance Toy.json.

Definition fn (name args : string) : option FunctionChunk :=
  Some (mkFunctionChunk (if is_empty name then None else Some name)
          (if is_empty args then None else Some args)).

Definition chunk_of (d : Delta) (finish : option string) : StreamChunk :=
  mkStreamChunk [mkChoice (Some 0%Z) (Some d) finish] None None.

Definition calls (tcs : list ToolCallChunk) : StreamChunk :=
  chunk_of (mkDelta None None None (Some tcs)) None.

(** The second call's id comes after its name and its first arguments. *)
Definition parse (data : string) : result StreamChunk string :=
  match data with
  | "text" => Ok (chunk_of (mkDelta (Some "look") (Some "hm") None None) None)
  | "open" => Ok (calls [mkToolCallChunk (Some 0%Z) (Some "call_a") (fn "read_" "");
                         mkToolCallChunk (Some 1%Z) None (fn "list" "")])
  | "more" => Ok (calls [mkToolCallChunk (Some 1%Z) None (fn "" "{x");
                         mkToolCallChunk (Some 0%Z) None (fn "file" "{1")])
  | "id" => Ok (calls [mkToolCallChunk (Some 1%Z) (Some "call_b") (fn "" "}")])
  | "rest" => Ok (calls [mkToolCallChunk (Some 0%Z) (Some "call_a") (fn "" "}")])
  | "end" => Ok (chunk_of (mkDelta None None None None) (Some "tool_calls"))
  | "usage" => Ok (mkStreamChunk [] (Some (mkUsage 7 3 None (Some (Some 2%Z)))) None)
  | _ => Err "expected value"
  end.

Definition response : HttpResponse :=
  mkHttpResponse 200 None "id-1" "text/event-stream; charset=utf-8" None
    (PollData <$> ["text"; "open"; "junk"; "more"; "id"; "rest"; "end"; "usage"; "[DONE]"; "open"]).

Definition id_of (i : Z) : string := if Z.eqb i 0 then "call_a" else "call_b".

Definition sent : list StreamChunk := default [] (received parse (r_polls response)).

Example decoded :
  tool_accum (observe_all "agent" (snd (translate sent)))
  = [("call_a", mkToolCallAccum (Some "read_file") "{1}");
     ("call_b", mkToolCallAccum (Some "list") "{x}")].
Proof. vm_compute. reflexivity. Qed.

Lemma litellm_turn_exact_witness :
  ∃ evs, invoke_stream parse (Responded response) = Ok <$> evs
  ∧ text (observe_all "agent" evs) = "look"
  ∧ btree_get "call_b" (tool_accum (observe_all "agent" evs))
    = Some (mkToolCallAccum (Some "list") "{x}").
Proof.
  destruct (litellm_turn_exact parse response [0; 1]%Z id_of sent "agent") as (evs & E & Ht & _ & _ & _ & Hc).
  - reflexivity.
  - vm_compute. reflexivity.
  - split.
    + repeat (apply Forall_cons; split);
        first [ apply Forall_nil; exact I
              | eexists; split; [|split; [reflexivity|vm_compute; auto]];
                vm_compute; repeat constructor ].
    + intros i Hi. unfold id_of. destruct (Z.eqb i 0); discriminate.
    + intros i j Hi Hj. repeat (apply elem_of_cons in Hi as [->|Hi]); repeat (apply elem_of_cons in Hj as [->|Hj]);
        try (by apply elem_of_nil in Hi); try (by apply elem_of_nil in Hj); vm_compute; congruence.
  - intros i Hi. repeat (apply elem_of_cons in Hi as [->|Hi]); [| |by apply elem_of_nil in Hi];
      (split; [vm_compute; reflexivity|split; [vm_compute; reflexivity|vm_compute; discriminate]]).
  - exists evs. split; [exact E|]. split; [rewrite Ht; vm_compute; reflexivity|].
    apply Hc. exists 1%Z. split; [right; left|]. split; [reflexivity|]. vm_compute. reflexivity.
Defined.
End LiteLlmDemo.

(** ** Which failures are retried *)

Lemma one_of_spec z l : one_of z l = true ↔ z ∈ l.
Proof.
  unfold one_of. rewrite existsb_Exists. split; [|intros H; exists z; by rewrite Z.eqb_refl].
  by intros (x & Hx & ->%Z.eqb_eq).
Qed.

(** A failed response is retried exactly when it is a rate limit that is not
    an exhausted budget, or an unavailable server, and its message is not a
    context overflow; prose is searched for an overflow only in a parsed error
    message; and [Retry-After] survives exactly in the rate limits. *)
Theorem classify_retryable status code err_type message parsed retry_after :
  (is_retryable (classify status code err_type message parsed retry_after) = true ↔
    is_context_overflow message parsed = false
    ∧ (status = 429%Z ∧ is_budget_exhaustion (normalise_type err_type) message = false
       ∨ status ∈ [500; 502; 503; 504]%Z))
  ∧ (∀ ms, classify status code err_type message parsed retry_after = RateLimited ms →
      ms = retry_after ∧ status = 429%Z)
  ∧ (is_context_overflow message false = true →
      classify status code err_type message parsed retry_after = ContextLengthExceeded).
Proof.
  unfold classify. destruct (is_context_overflow message parsed) eqn:Ho.
  { split_and!; [|done|done]. split; [done|]. by intros [? _]. }
  assert (H429 : ∀ b, one_of status [429%Z] && b = true ↔ status = 429%Z ∧ b = true).
  { intros b. rewrite andb_true_iff, one_of_spec, list_elem_of_singleton. done. }
  split_and!.
  - destruct (one_of status [429%Z] && _) eqn:Hb.
    { apply H429 in Hb as [-> Hb]. simpl. rewrite Hb. split; [done|].
      intros [_ [[_ ?]|Hin]]; [done|]. by apply one_of_spec in Hin. }
    destruct (one_of status [429%Z]) eqn:H4.
    { apply one_of_spec, list_elem_of_singleton in H4 as ->. simpl in *. rewrite Hb. naive_solver. }
    assert (status ≠ 429%Z) by (intros ->; by vm_compute in H4).
    destruct (one_of status [500; 502; 503; 504]%Z) eqn:H5.
    { apply one_of_spec in H5. simpl. naive_solver. }
    assert (status ∉ [500; 502; 503; 504]%Z) by (intros Hin; apply one_of_spec in Hin; congruence).
    transitivity False; [|naive_solver]. split; [|done].
    destruct (one_of status _); [done|]. by repeat case_match.
  - intros ms. destruct (one_of status [429%Z] && _) eqn:Hb; [done|].
    destruct (one_of status [429%Z]) eqn:H4.
    { intros [= <-]. by apply one_of_spec, list_elem_of_singleton in H4. }
    by repeat case_match.
  - intros Hc. unfold is_context_overflow in *. by destruct (contains_str message _).
Qed.
