(* ===== verification/Net.v ===== *)
(** The network policy of the tools (paigasus-helikon-tools/src/net): the
    classifier of refused addresses, host lists, the guarded resolver and the
    SSRF check (policy.rs), and the egress proxy of the micro-VM tier
    (proxy.rs).

    An address is its number, as in the predicates of [std::net]; octets and
    segments are its bit fields.  The system resolver and TCP are parameters
    that thread the world, so a name may resolve differently each time it is
    looked up.  The [url] crate is the class [UrlLib]. *)

From S2P Require Import Prelude Json Items.

(** ** Addresses *)

Inductive IpAddr : Type :=
| V4 (bits : Z)
| V6 (bits : Z).

#[export] Instance IpAddr_eq_dec : EqDecision IpAddr.
Proof. solve_decision. Defined.

(** [Ipv4Addr::octets] and [Ipv6Addr::segments]. *)
Definition octet (ip : Z) (i : Z) : Z := Z.land (Z.shiftr ip (24 - 8 * i)) 255.
Definition segment (ip : Z) (i : Z) : Z := Z.land (Z.shiftr ip (112 - 16 * i)) 65535.

(** The predicates of [std::net::Ipv4Addr] the classifier calls. *)
Definition is_loopback (ip : Z) : bool := Z.eqb (octet ip 0) 127.
Definition is_private (ip : Z) : bool :=
  Z.eqb (octet ip 0) 10
  || (Z.eqb (octet ip 0) 172 && ((16 <=? octet ip 1)%Z && (octet ip 1 <=? 31)%Z))
  || (Z.eqb (octet ip 0) 192 && Z.eqb (octet ip 1) 168).
Definition is_link_local (ip : Z) : bool := Z.eqb (octet ip 0) 169 && Z.eqb (octet ip 1) 254.
Definition is_unspecified (ip : Z) : bool := Z.eqb ip 0.
Definition is_broadcast (ip : Z) : bool := Z.eqb ip 4294967295.
Definition is_documentation (ip : Z) : bool :=
  (Z.eqb (octet ip 0) 192 && Z.eqb (octet ip 1) 0 && Z.eqb (octet ip 2) 2)
  || (Z.eqb (octet ip 0) 198 && Z.eqb (octet ip 1) 51 && Z.eqb (octet ip 2) 100)
  || (Z.eqb (octet ip 0) 203 && Z.eqb (octet ip 1) 0 && Z.eqb (octet ip 2) 113).
Definition is_multicast (ip : Z) : bool :=
  (224 <=? octet ip 0)%Z && (octet ip 0 <=? 239)%Z.

Definition is_cgnat (ip : Z) : bool :=
  Z.eqb (octet ip 0) 100 && ((64 <=? octet ip 1)%Z && (octet ip 1 <=? 127)%Z).
Definition is_benchmarking_v4 (ip : Z) : bool :=
  Z.eqb (octet ip 0) 198 && ((18 <=? octet ip 1)%Z && (octet ip 1 <=? 19)%Z).
Definition is_reserved_future_v4 (ip : Z) : bool := (240 <=? octet ip 0)%Z.

Definition v4_blocked (ip : Z) : bool :=
  is_loopback ip || is_private ip || is_link_local ip || is_unspecified ip || is_broadcast ip
  || is_documentation ip || is_multicast ip || is_cgnat ip || is_benchmarking_v4 ip
  || is_reserved_future_v4 ip.

(** The predicates on IPv6 addresses, those of [std] first. *)
Definition is_loopback_v6 (ip : Z) : bool := Z.eqb ip 1.
Definition is_unspecified_v6 (ip : Z) : bool := Z.eqb ip 0.
Definition is_multicast_v6 (ip : Z) : bool := Z.eqb (Z.land (segment ip 0) 65280) 65280.
Definition is_v6_documentation (ip : Z) : bool :=
  Z.eqb (segment ip 0) 8193 && Z.eqb (segment ip 1) 3512.
Definition is_ula (ip : Z) : bool := Z.eqb (Z.land (segment ip 0) 65024) 64512.
Definition is_v6_link_local (ip : Z) : bool := Z.eqb (Z.land (segment ip 0) 65472) 65152.

(** [to_ipv4_mapped], [to_ipv4]: the last two segments of [::ffff:a.b.c.d], and
    of [::a.b.c.d] too. *)
Definition zero_segments (ip : Z) : bool :=
  Z.eqb (segment ip 0) 0 && Z.eqb (segment ip 1) 0 && Z.eqb (segment ip 2) 0
  && Z.eqb (segment ip 3) 0 && Z.eqb (segment ip 4) 0.
Definition embedded (ip : Z) : Z := Z.lor (Z.shiftl (segment ip 6) 16) (segment ip 7).
Definition to_ipv4_mapped (ip : Z) : option Z :=
  if zero_segments ip && Z.eqb (segment ip 5) 65535 then Some (embedded ip) else None.
Definition to_ipv4 (ip : Z) : option Z :=
  if zero_segments ip && (Z.eqb (segment ip 5) 0 || Z.eqb (segment ip 5) 65535)
  then Some (embedded ip) else None.

Definition v6_blocked (ip : Z) : bool :=
  if is_loopback_v6 ip || is_unspecified_v6 ip || is_multicast_v6 ip || is_ula ip
     || is_v6_link_local ip || is_v6_documentation ip
  then true
  else match (match to_ipv4_mapped ip with Some v4 => Some v4 | None => to_ipv4 ip end) with
       | Some v4 => v4_blocked v4
       | None => false
       end.

Definition ip_blocked (ip : IpAddr) : bool :=
  match ip with V4 v4 => v4_blocked v4 | V6 v6 => v6_blocked v6 end.

(** ** Host lists *)

(** [trim_end_matches('.')] *)
Fixpoint strip_front (c : Ascii.ascii) (s : string) : string :=
  match s with
  | String a s' => if Ascii.eqb a c then strip_front c s' else s
  | EmptyString => EmptyString
  end.

Definition trim_end_matches (c : Ascii.ascii) (s : string) : string :=
  string_rev (strip_front c (string_rev s)).
Definition trim_start_matches (c : Ascii.ascii) (s : string) : string := strip_front c s.

Definition dot : Ascii.ascii := chr 46.

Definition canonical_host (host : string) : string := string_lower (trim_end_matches dot host).

Definition host_matches (host entry : string) : bool :=
  let e := canonical_host entry in
  String.eqb host e || ends_with host ("." +:+ e).

Definition host_allowed (host : string) (allow : option (list string)) (deny : list string)
  : bool :=
  let host := canonical_host host in
  if existsb (host_matches host) deny then false
  else match allow with
       | Some list => existsb (host_matches host) list
       | None => true
       end.

Record EgressPolicy := mkEgressPolicy {
  allow : option (list string);
  deny : list string;
  allow_private_ips : bool;
}.

Definition deny_all : EgressPolicy := mkEgressPolicy (Some []) [] false.
Definition allow_all : EgressPolicy := mkEgressPolicy None [] false.
Definition allow_domains (p : EgressPolicy) (domains : list string) : EgressPolicy :=
  mkEgressPolicy (Some (default [] (allow p) ++ domains)) (deny p) (allow_private_ips p).
Definition deny_domains (p : EgressPolicy) (domains : list string) : EgressPolicy :=
  mkEgressPolicy (allow p) (deny p ++ domains) (allow_private_ips p).
Definition set_allow_private_ips (p : EgressPolicy) (b : bool) : EgressPolicy :=
  mkEgressPolicy (allow p) (deny p) b.

Definition is_host_allowed (p : EgressPolicy) (host : string) : bool :=
  host_allowed host (allow p) (deny p).
Definition is_ip_allowed (p : EgressPolicy) (ip : IpAddr) : bool :=
  allow_private_ips p || negb (ip_blocked ip).

(** ** Resolution *)

Inductive UrlHost : Type :=
| Domain (name : string)
| Ipv4Host (ip : Z)
| Ipv6Host (ip : Z).

(** The [url] crate. *)
Class UrlLib := {
  Url : Type;
  url_parse : string → result Url string;
  url_join : Url → string → result Url string;
  url_scheme : Url → string;
  url_host : Url → option UrlHost;
  url_host_str : Url → option string;
  url_as_str : Url → string;
}.

Section Resolve.
Context {W : Type} (lookup_host : string → W → result (list IpAddr) string * W).

(** [GuardedResolver::resolve] *)
Definition guarded_resolve (allow_private : bool) (host : string) (w : W)
  : result (list IpAddr) string * W :=
  match lookup_host host w with
  | (Err e, w) => (Err e, w)
  | (Ok resolved, w) =>
      let addrs := if allow_private then resolved else List.filter (λ a, negb (ip_blocked a)) resolved in
      match addrs with
      | [] => (Err ("no allowed addresses resolved for `" +:+ host +:+
                    "` (blocked by SSRF guard)"), w)
      | _ => (Ok addrs, w)
      end
  end.

Definition ssrf_denied (host : string) : ToolError :=
  ToolDenied ("host `" +:+ host +:+
    "` resolves to a blocked (private/loopback/link-local) address").

(** The loop over the addresses of a name: the first blocked one refuses. *)
Definition check_addrs (host : string) (addrs : list IpAddr) : result unit ToolError :=
  if existsb ip_blocked addrs then Err (ssrf_denied host)
  else match addrs with
       | [] => Err (ToolOther ("no addresses resolved for `" +:+ host +:+ "`"))
       | _ => Ok tt
       end.

(** [show_ip] is the [Display] of an address. *)
Context `{U : UrlLib} (show_ip : IpAddr → string).

Definition ssrf_check (url : Url) (allow_private : bool) (w : W) : result unit ToolError * W :=
  if allow_private then (Ok tt, w)
  else match url_host url with
       | Some (Ipv4Host ip) =>
           (if ip_blocked (V4 ip) then Err (ssrf_denied (show_ip (V4 ip))) else Ok tt, w)
       | Some (Ipv6Host ip) =>
           (if ip_blocked (V6 ip) then Err (ssrf_denied (show_ip (V6 ip))) else Ok tt, w)
       | Some (Domain host) =>
           match lookup_host host w with
           | (Err e, w) =>
               (Err (ToolOther ("DNS resolution failed for `" +:+ host +:+ "`: " +:+ e)), w)
           | (Ok addrs, w) => (check_addrs host addrs, w)
           end
       | None => (Err (ToolDenied "URL has no host"), w)
       end.
End Resolve.

(** ** The egress proxy *)

(** [str::rsplit_once], [str::split_whitespace]. *)
Definition rsplit_once (c : Ascii.ascii) (s : string) : option (string * string) :=
  match rev (split_on c s) with
  | last :: ((_ :: _) as front) => Some (String.concat (String c "") (rev front), last)
  | _ => None
  end.

Fixpoint split_whitespace_go (fuel : nat) (word s : string) : list string :=
  let flush rest := if is_empty word then rest else word :: rest in
  match fuel with
  | O => flush []
  | S fuel' =>
      match find_map (λ e, strip_prefix e s) whitespace_encodings with
      | Some s' => flush (split_whitespace_go fuel' "" s')
      | None =>
          match s with
          | EmptyString => flush []
          | String c s' => split_whitespace_go fuel' (snoc word c) s'
          end
      end
  end.

Definition split_whitespace (s : string) : list string :=
  split_whitespace_go (S (String.length s)) "" s.

(** [text.lines().next()] *)
Definition first_line (text : string) : option string :=
  if is_empty text then None
  else match split_on newline text with
       | line :: _ => Some (default line (strip_suffix (String (chr 13) "") line))
       | [] => None
       end.

Definition open_bracket : Ascii.ascii := chr 91.
Definition close_bracket : Ascii.ascii := chr 93.

Definition strip_brackets (host : string) : string :=
  trim_end_matches close_bracket (trim_start_matches open_bracket host).

Definition split_host_port (s : string) : option (string * Z) :=
  match rsplit_once (chr 58) s with
  | None => None
  | Some (host, port) =>
      match parse_uint 65535 port with
      | None => None
      | Some port =>
          let host := strip_brackets host in
          if is_empty host then None else Some (host, port)
      end
  end.

Definition absolute_uri_host (target : string) : option string :=
  match (match strip_prefix "http://" target with
         | Some rest => Some rest | None => strip_prefix "https://" target end) with
  | None => None
  | Some rest =>
      let authority := match split_on slash rest with a :: _ => a | [] => rest end in
      let host := match rsplit_once (chr 58) authority with Some (h, _) => h | None => authority end in
      let host := strip_brackets host in
      if is_empty host then None else Some host
  end.

(** The status lines the proxy writes. *)
Inductive ProxyReply : Type :=
| Established
| BadRequest
| Forbidden
| NotImplemented
| BadGateway.

(** What a connection amounts to: the reply, the upstream connections attempted
    and the address that is tunnelled to. *)
Record Proxied := mkProxied {
  px_reply : option ProxyReply;
  px_attempts : list (IpAddr * Z);
  px_tunnel : option (IpAddr * Z);
}.

Definition reply_only (r : option ProxyReply) : Proxied := mkProxied r [] None.

(** One timed read of the client's socket. *)
Inductive Read : Type :=
| ReadByte (b : Ascii.ascii)
| ReadEof
| ReadFailed
| ReadTimeout.

Definition MAX_HEAD : nat := 16 * 1024.

Definition crlf2 : string := utf8 [13; 10; 13; 10]%nat.

(** The head, or how the connection ended before it was read; [head] is what
    has been read, the latest byte first.  The input that ends without [ReadEof]
    is a client that stays silent, so the read times out. *)
Fixpoint read_head (head : list Ascii.ascii) (reads : list Read) : result string Proxied :=
  if starts_with (string_of_list head) (string_rev crlf2) then Ok (string_of_list (rev head))
  else if (MAX_HEAD <=? length head)%nat then Err (reply_only (Some BadRequest))
  else match reads with
       | ReadByte b :: reads' => read_head (b :: head) reads'
       | ReadEof :: _ | ReadFailed :: _ => Err (reply_only None)
       | ReadTimeout :: _ | [] => Err (reply_only (Some BadRequest))
       end.

Section Proxy.
Context {W : Type} (lookup_host : string → W → result (list IpAddr) string * W).
Context (tcp_connect : IpAddr → Z → W → bool * W).

(** The loop over the vetted addresses: attempts, and the one that connects. *)
Fixpoint connect_first (port : Z) (addrs : list IpAddr) (w : W)
  : list (IpAddr * Z) * option (IpAddr * Z) * W :=
  match addrs with
  | [] => ([], None, w)
  | addr :: addrs' =>
      match tcp_connect addr port w with
      | (true, w) => ([(addr, port)], Some (addr, port), w)
      | (false, w) =>
          let '(tried, up, w) := connect_first port addrs' w in ((addr, port) :: tried, up, w)
      end
  end.

(** A resolution that times out is one that fails. *)
Definition handle_connect (target : string) (policy : EgressPolicy) (w : W) : Proxied * W :=
  match split_host_port target with
  | None => (reply_only (Some BadRequest), w)
  | Some (host, port) =>
      if negb (is_host_allowed policy host) then (reply_only (Some Forbidden), w)
      else match lookup_host host w with
           | (Err _, w) => (reply_only (Some Forbidden), w)
           | (Ok resolved, w) =>
               match List.filter (is_ip_allowed policy) resolved with
               | [] => (reply_only (Some Forbidden), w)
               | addrs =>
                   match connect_first port addrs w with
                   | (tried, None, w) => (mkProxied (Some BadGateway) tried None, w)
                   | (tried, Some up, w) => (mkProxied (Some Established) tried (Some up), w)
                   end
               end
           end
  end.

Definition handle (reads : list Read) (policy : EgressPolicy) (w : W) : Proxied * W :=
  match read_head [] reads with
  | Err p => (p, w)
  | Ok head =>
      match first_line (from_utf8_lossy head) with
      | None => (reply_only (Some BadRequest), w)
      | Some request_line =>
          let parts := split_whitespace request_line in
          let method := default "" (nth_error parts 0) in
          let target := default "" (nth_error parts 1) in
          if String.eqb (string_lower method) "connect" then handle_connect target policy w
          else match absolute_uri_host target with
               | Some host =>
                   (reply_only (Some (if is_host_allowed policy host then NotImplemented
                                      else Forbidden)), w)
               | None => (reply_only (Some BadRequest), w)
               end
      end
  end.
End Proxy.

(** ** Which addresses are refused *)

Lemma octet_spec ip :
  octet ip 0 = ((ip / 16777216) mod 256)%Z ∧ octet ip 1 = ((ip / 65536) mod 256)%Z
  ∧ octet ip 2 = ((ip / 256) mod 256)%Z.
Proof.
  unfold octet. change 255%Z with (Z.ones 8). rewrite !Z.land_ones by lia.
  rewrite !Z.shiftr_div_pow2 by lia. split_and!; reflexivity.
Qed.

Lemma segment_spec ip :
  (segment ip 0 = (ip / 2 ^ 112) mod 65536 ∧ segment ip 1 = (ip / 2 ^ 96) mod 65536
  ∧ segment ip 2 = (ip / 2 ^ 80) mod 65536 ∧ segment ip 3 = (ip / 2 ^ 64) mod 65536
  ∧ segment ip 4 = (ip / 2 ^ 48) mod 65536 ∧ segment ip 5 = (ip / 2 ^ 32) mod 65536
  ∧ segment ip 6 = (ip / 65536) mod 65536 ∧ segment ip 7 = ip mod 65536)%Z.
Proof.
  unfold segment. change 65535%Z with (Z.ones 16). rewrite !Z.land_ones by lia.
  rewrite !Z.shiftr_div_pow2 by lia. change (2 ^ 16)%Z with 65536%Z.
  repeat match goal with
  | |- context [(2 ^ (112 - 16 * ?i))%Z] =>
      let e := eval cbv in (112 - 16 * i)%Z in change (112 - 16 * i)%Z with e
  end.
  change (2 ^ 16)%Z with 65536%Z. rewrite Z.pow_0_r, Z.div_1_r. split_and!; reflexivity.
Qed.

(** Masking the high bits of a field. *)
Lemma land_high x n k :
  (0 ≤ n)%Z → (0 ≤ k)%Z → (0 ≤ x < 2 ^ (n + k))%Z →
  Z.land x (Z.shiftl (Z.ones n) k) = (x / 2 ^ k * 2 ^ k)%Z.
Proof.
  intros Hn Hk Hx. rewrite <- Z.shiftl_mul_pow2, <- Z.shiftr_div_pow2 by done.
  apply Z.bits_inj'. intros i Hi. rewrite Z.land_spec.
  destruct (decide (i < k)%Z) as [Hlt|Hge].
  - rewrite !Z.shiftl_spec_low by done. apply andb_false_r.
  - rewrite !Z.shiftl_spec by done. rewrite Z.shiftr_spec by lia.
    replace (i - k + k)%Z with i by lia. destruct (decide (i < n + k)%Z).
    + rewrite Z.ones_spec_low by lia. apply andb_true_r.
    + rewrite Z.ones_spec_high by lia. rewrite andb_false_r. symmetry.
      rewrite <- (Z.mod_small x (2 ^ (n + k))) by done. apply Z.mod_pow2_bits_high. lia.
Qed.

(** A CIDR block: a base address and the length of its prefix. *)
Definition quad (a b c d : Z) : Z := (((a * 256 + b) * 256 + c) * 256 + d)%Z.

Definition in_block (width ip : Z) (block : Z * Z) : bool :=
  Z.eqb (ip / 2 ^ (width - block.2)) (block.1 / 2 ^ (width - block.2)).

Definition V4_BLOCKS : list (Z * Z) :=
  [(quad 0 0 0 0, 32); (quad 10 0 0 0, 8); (quad 100 64 0 0, 10); (quad 127 0 0 0, 8);
   (quad 169 254 0 0, 16); (quad 172 16 0 0, 12); (quad 192 0 2 0, 24); (quad 192 168 0 0, 16);
   (quad 198 18 0 0, 15); (quad 198 51 100 0, 24); (quad 203 0 113 0, 24); (quad 224 0 0 0, 4);
   (quad 240 0 0 0, 4)]%Z.

(** [fe80::/10], [fc00::/7], [ff00::/8], [2001:db8::/32], [::1] and [::]. *)
Definition V6_BLOCKS : list (Z * Z) :=
  [(0, 128); (1, 128); (64512 * 2 ^ 112, 7); (65152 * 2 ^ 112, 10); (65280 * 2 ^ 112, 8);
   (8193 * 2 ^ 112 + 3512 * 2 ^ 96, 32)]%Z.

(** The blocks whose last four bytes are an IPv4 address, [::ffff:0:0/96] and
    [::/96]. *)
Definition V4_IN_V6 : list (Z * Z) := [(65535 * 2 ^ 32, 96); (0, 96)]%Z.

Definition blocked_spec (ip : IpAddr) : bool :=
  match ip with
  | V4 v4 => existsb (in_block 32 v4) V4_BLOCKS
  | V6 v6 => existsb (in_block 128 v6) V6_BLOCKS
             || existsb (in_block 128 v6) V4_IN_V6 && existsb (in_block 32 (v6 mod 2 ^ 32)) V4_BLOCKS
  end.

Definition ip_in_range (ip : IpAddr) : Prop :=
  match ip with V4 v4 => (0 ≤ v4 < 2 ^ 32)%Z | V6 v6 => (0 ≤ v6 < 2 ^ 128)%Z end.

(** The quotients of an address in terms of its octets. *)
Record octets (ip a b c d : Z) : Prop := {
  oct_ip : ip = quad a b c d;
  oct_range : (0 ≤ a < 256 ∧ 0 ≤ b < 256 ∧ 0 ≤ c < 256 ∧ 0 ≤ d < 256)%Z;
}.

Lemma octets_of ip : (0 ≤ ip < 2 ^ 32)%Z → ∃ d, octets ip (octet ip 0) (octet ip 1) (octet ip 2) d.
Proof.
  intros Hip. destruct (octet_spec ip) as (-> & -> & ->). exists (ip mod 256)%Z.
  pose proof (Z.div_mod ip 256 ltac:(lia)) as E1.
  pose proof (Z.div_mod (ip / 256) 256 ltac:(lia)) as E2.
  pose proof (Z.div_mod (ip / 65536) 256 ltac:(lia)) as E3.
  rewrite (Z.div_div ip 256 256) in E2 by lia. change (256 * 256)%Z with 65536%Z in E2.
  rewrite (Z.div_div ip 65536 256) in E3 by lia. change (65536 * 256)%Z with 16777216%Z in E3.
  assert (H : (ip / 16777216 < 256)%Z) by (apply Z.div_lt_upper_bound; lia).
  pose proof (Z.div_pos ip 16777216 ltac:(lia) ltac:(lia)).
  rewrite (Z.mod_small (ip / 16777216)) by lia.
  split; [unfold quad; lia|].
  pose proof (Z.mod_pos_bound ip 256). pose proof (Z.mod_pos_bound (ip / 256) 256).
  pose proof (Z.mod_pos_bound (ip / 65536) 256). lia.
Qed.

Lemma octets_div ip a b c d k q r :
  octets ip a b c d → ip = (2 ^ k * q + r)%Z → (0 ≤ r < 2 ^ k)%Z → (ip / 2 ^ k = q)%Z.
Proof. intros _ E Hr. symmetry. by apply (Z.div_unique_pos _ _ _ r). Qed.

Lemma octets_quotients ip a b c d :
  octets ip a b c d →
  (ip / 2 ^ 28 = a / 16 ∧ ip / 2 ^ 24 = a ∧ ip / 2 ^ 22 = a * 4 + b / 64
   ∧ ip / 2 ^ 20 = a * 16 + b / 16 ∧ ip / 2 ^ 17 = a * 128 + b / 2
   ∧ ip / 2 ^ 16 = a * 256 + b ∧ ip / 2 ^ 8 = (a * 256 + b) * 256 + c ∧ ip / 2 ^ 0 = ip)%Z.
Proof.
  intros O. pose proof (oct_range _ _ _ _ _ O). pose proof (oct_ip _ _ _ _ _ O) as E. unfold quad in E.
  assert (Hdm : ∀ x k, (0 < k → 0 ≤ x → x = k * (x / k) + x mod k ∧ 0 ≤ x mod k < k)%Z).
  { intros x k Hk Hx. split; [by apply Z.div_mod; lia|by apply Z.mod_pos_bound]. }
  destruct (Hdm a 16%Z ltac:(lia) ltac:(lia)). destruct (Hdm b 64%Z ltac:(lia) ltac:(lia)).
  destruct (Hdm b 16%Z ltac:(lia) ltac:(lia)). destruct (Hdm b 2%Z ltac:(lia) ltac:(lia)).
  split_and!.
  - apply (octets_div ip a b c d 28 _ (a mod 16 * 2 ^ 24 + b * 2 ^ 16 + c * 2 ^ 8 + d)); [done|lia|lia].
  - apply (octets_div ip a b c d 24 _ (b * 2 ^ 16 + c * 2 ^ 8 + d)); [done|lia|lia].
  - apply (octets_div ip a b c d 22 _ (b mod 64 * 2 ^ 16 + c * 2 ^ 8 + d)); [done|lia|lia].
  - apply (octets_div ip a b c d 20 _ (b mod 16 * 2 ^ 16 + c * 2 ^ 8 + d)); [done|lia|lia].
  - apply (octets_div ip a b c d 17 _ (b mod 2 * 2 ^ 16 + c * 2 ^ 8 + d)); [done|lia|lia].
  - apply (octets_div ip a b c d 16 _ (c * 2 ^ 8 + d)); [done|lia|lia].
  - apply (octets_div ip a b c d 8 _ d); [done|lia|lia].
  - by rewrite Z.pow_0_r, Z.div_1_r.
Qed.

Lemma digit_pair x y p q :
  (0 ≤ y < 256 → 0 ≤ q < 256 → (x = p ∧ y = q) ↔ x * 256 + y = p * 256 + q)%Z.
Proof. lia. Qed.

Lemma v4_blocked_spec ip :
  (0 ≤ ip < 2 ^ 32)%Z → v4_blocked ip = existsb (in_block 32 ip) V4_BLOCKS.
Proof.
  intros Hip. destruct (octets_of ip Hip) as [d O].
  destruct (octets_quotients _ _ _ _ _ O) as (Q28 & Q24 & Q22 & Q20 & Q17 & Q16 & Q8 & Q0).
  pose proof (oct_range _ _ _ _ _ O) as R. pose proof (oct_ip _ _ _ _ _ O) as E. unfold quad in E.
  unfold v4_blocked, is_loopback, is_private, is_link_local, is_unspecified, is_broadcast,
    is_documentation, is_multicast, is_cgnat, is_benchmarking_v4, is_reserved_future_v4.
  set (a := octet ip 0) in *. set (b := octet ip 1) in *. set (c := octet ip 2) in *.
  unfold V4_BLOCKS, in_block. cbn [existsb fst snd].
  repeat match goal with
  | |- context [(32 - ?i)%Z] => let e := eval cbv in (32 - i)%Z in change (32 - i)%Z with e
  end.
  rewrite Q28, Q24, Q22, Q20, Q17, Q16, Q8, Q0.
  repeat match goal with
  | |- context [(quad ?w ?x ?y ?z / 2 ^ ?k)%Z] =>
      let e := eval vm_compute in (quad w x y z / 2 ^ k)%Z in change (quad w x y z / 2 ^ k)%Z with e
  end.
  apply eq_true_iff_eq. rewrite !orb_true_iff, !andb_true_iff, !Z.eqb_eq, !Z.leb_le.
  assert (Hdm : ∀ x k, (0 < k → 0 ≤ x → x = k * (x / k) + x mod k ∧ 0 ≤ x mod k < k)%Z).
  { intros x k Hk Hx. split; [by apply Z.div_mod; lia|by apply Z.mod_pos_bound]. }
  destruct (Hdm a 16%Z ltac:(lia) ltac:(lia)). destruct (Hdm b 64%Z ltac:(lia) ltac:(lia)).
  destruct (Hdm b 16%Z ltac:(lia) ltac:(lia)). destruct (Hdm b 2%Z ltac:(lia) ltac:(lia)).
  clear Q28 Q24 Q22 Q20 Q17 Q16 Q8 Q0 Hdm.
  clearbody a b c. clear O Hip.
  generalize dependent (a / 16)%Z. generalize dependent (b / 64)%Z.
  generalize dependent (b / 16)%Z. generalize dependent (b / 2)%Z.
  generalize dependent (a mod 16)%Z. generalize dependent (b mod 64)%Z.
  generalize dependent (b mod 16)%Z. generalize dependent (b mod 2)%Z.
  intros r2 Hr2 r16 Hr16 r64 Hr64 ra Hra b2 Hb2 b16 Hb16 b64 Hb64 a16 Ha16.
  pose proof (digit_pair a b) as Hab. pose proof (digit_pair (a * 256 + b) c) as Habc.
  assert (E1 : (16 <= b <= 31 ∧ a = 172 ↔ a * 16 + b16 = 2753)%Z) by 
    (clear -R Hra Ha16 Hr2 Hb2 Hr16 Hb16 Hr64 Hb64; split; lia).
  assert (E2 : (a = 192 ∧ b = 168 ↔ a * 256 + b = 49320)%Z) by (apply (Hab 192 168)%Z; lia).
  assert (E3 : (a = 169 ∧ b = 254 ↔ a * 256 + b = 43518)%Z) by (apply (Hab 169 254)%Z; lia).
  assert (E4 : ((a = 192 ∧ b = 0) ∧ c = 2 ↔ (a * 256 + b) * 256 + c = 12582914)%Z).
  { rewrite (Hab 192 0)%Z by lia. apply (Habc 49152 2)%Z; lia. }
  assert (E5 : ((a = 198 ∧ b = 51) ∧ c = 100 ↔ (a * 256 + b) * 256 + c = 12989284)%Z).
  { rewrite (Hab 198 51)%Z by lia. apply (Habc 50739 100)%Z; lia. }
  assert (E6 : ((a = 203 ∧ b = 0) ∧ c = 113 ↔ (a * 256 + b) * 256 + c = 13303921)%Z).
  { rewrite (Hab 203 0)%Z by lia. apply (Habc 51968 113)%Z; lia. }
  clear Hab Habc.
  assert (E7 : (224 <= a <= 239 ↔ a16 = 14)%Z) by 
    (clear -R Hra Ha16 Hr2 Hb2 Hr16 Hb16 Hr64 Hb64; split; lia).
  assert (E8 : (a = 100 ∧ 64 <= b <= 127 ↔ a * 4 + b64 = 401)%Z) by 
    (clear -R Hra Ha16 Hr2 Hb2 Hr16 Hb16 Hr64 Hb64; split; lia).
  assert (E9 : (a = 198 ∧ 18 <= b <= 19 ↔ a * 128 + b2 = 25353)%Z) by 
    (clear -R Hra Ha16 Hr2 Hb2 Hr16 Hb16 Hr64 Hb64; split; lia).
  assert (E10 : (240 <= a ↔ a16 = 15)%Z) by 
    (clear -R Hra Ha16 Hr2 Hb2 Hr16 Hb16 Hr64 Hb64; split; lia).
  assert (E11 : ip = 4294967295%Z → a16 = 15%Z) by (clear -E R Ha16 Hra; lia).
  rewrite (and_comm (a = 172%Z)), E1, E2, E3, E4, E5, E6, E7, E8, E9, E10. clear -E11.
  assert (Hf : false = true ↔ False) by done. rewrite Hf. tauto.
Qed.

(** Consecutive segments. *)
Lemma div_chain ip k :
  (0 ≤ k)%Z → (ip / 2 ^ k = ip / 2 ^ (k + 16) * 65536 + (ip / 2 ^ k) mod 65536)%Z.
Proof.
  intros Hk. rewrite Z.pow_add_r by lia. rewrite <- Z.div_div by lia.
  change (2 ^ 16)%Z with 65536%Z. pose proof (Z.div_mod (ip / 2 ^ k) 65536). lia.
Qed.

Lemma segment_bound ip i : (0 ≤ segment ip i < 65536)%Z.
Proof.
  unfold segment. change 65535%Z with (Z.ones 16). rewrite Z.land_ones by lia.
  change (2 ^ 16)%Z with 65536%Z. apply Z.mod_pos_bound. lia.
Qed.

Lemma segment_0 ip : (0 ≤ ip < 2 ^ 128)%Z → (segment ip 0 = ip / 2 ^ 112)%Z.
Proof.
  intros Hip. destruct (segment_spec ip) as [-> _]. apply Z.mod_small. split.
  - apply Z.div_pos; lia.
  - apply Z.div_lt_upper_bound; lia.
Qed.

(** The prefix test of a masked first segment. *)
Lemma prefix_spec ip n k v :
  (0 ≤ ip < 2 ^ 128)%Z → (0 ≤ n)%Z → (0 ≤ k)%Z → (n + k = 16)%Z →
  Z.eqb (Z.land (segment ip 0) (Z.shiftl (Z.ones n) k)) (v * 2 ^ k)
  = Z.eqb (ip / 2 ^ (112 + k)) v.
Proof.
  intros Hip Hn Hk Hnk. rewrite land_high; [|done..|].
  - rewrite (segment_0 ip Hip), Z.div_div by lia. rewrite <- Z.pow_add_r by lia.
    pose proof (Z.pow_pos_nonneg 2 k). apply eq_true_iff_eq. rewrite !Z.eqb_eq. nia.
  - rewrite Hnk. apply segment_bound.
Qed.

Lemma documentation_spec ip :
  (0 ≤ ip < 2 ^ 128)%Z →
  is_v6_documentation ip = Z.eqb (ip / 2 ^ 96) (8193 * 65536 + 3512).
Proof.
  intros Hip. unfold is_v6_documentation. pose proof (div_chain ip 96 ltac:(lia)) as E.
  rewrite (segment_0 ip Hip). destruct (segment_spec ip) as (_ & S1 & _).
  rewrite <- S1 in E. change (96 + 16)%Z with 112%Z in E. pose proof (segment_bound ip 1).
  apply eq_true_iff_eq. rewrite andb_true_iff, !Z.eqb_eq. clear -E H. lia.
Qed.

Lemma zero_segments_spec ip :
  (0 ≤ ip < 2 ^ 128)%Z → zero_segments ip = Z.eqb (ip / 2 ^ 48) 0.
Proof.
  intros Hip. unfold zero_segments. destruct (segment_spec ip) as (_ & S1 & S2 & S3 & S4 & _).
  pose proof (div_chain ip 96 ltac:(lia)) as E1. pose proof (div_chain ip 80 ltac:(lia)) as E2.
  pose proof (div_chain ip 64 ltac:(lia)) as E3. pose proof (div_chain ip 48 ltac:(lia)) as E4.
  rewrite <- S1 in E1. rewrite <- S2 in E2. rewrite <- S3 in E3. rewrite <- S4 in E4.
  change (96 + 16)%Z with 112%Z in E1. change (80 + 16)%Z with 96%Z in E2.
  change (64 + 16)%Z with 80%Z in E3. change (48 + 16)%Z with 64%Z in E4.
  rewrite (segment_0 ip Hip).
  pose proof (segment_bound ip 1). pose proof (segment_bound ip 2).
  pose proof (segment_bound ip 3). pose proof (segment_bound ip 4).
  assert (Hz : (0 ≤ ip / 2 ^ 112)%Z) by (apply Z.div_pos; lia).
  clear S1 S2 S3 S4.
  set (x0 := (ip / 2 ^ 112)%Z) in *. set (x1 := (ip / 2 ^ 96)%Z) in *.
  set (x2 := (ip / 2 ^ 80)%Z) in *. set (x3 := (ip / 2 ^ 64)%Z) in *.
  set (x4 := (ip / 2 ^ 48)%Z) in *.
  clearbody x0 x1 x2 x3 x4.
  apply eq_true_iff_eq. rewrite !andb_true_iff, !Z.eqb_eq. lia.
Qed.

Lemma lor_shift a b k : (0 ≤ k)%Z → (0 ≤ b < 2 ^ k)%Z → Z.lor (Z.shiftl a k) b = (a * 2 ^ k + b)%Z.
Proof.
  intros Hk Hb. assert (Hl : Z.land (Z.shiftl a k) b = 0%Z).
  { apply Z.bits_inj'. intros i Hi. rewrite Z.land_spec, Z.bits_0.
    destruct (decide (i < k)%Z); [by rewrite Z.shiftl_spec_low|].
    rewrite <- (Z.mod_small b (2 ^ k)), Z.mod_pow2_bits_high by lia. apply andb_false_r. }
  rewrite <- Z.lxor_lor, <- Z.add_nocarry_lxor, Z.shiftl_mul_pow2 by done. done.
Qed.

Lemma embedded_spec ip : (0 ≤ ip)%Z → embedded ip = (ip mod 2 ^ 32)%Z.
Proof.
  intros Hip. unfold embedded. destruct (segment_spec ip) as (_ & _ & _ & _ & _ & _ & S6 & S7).
  rewrite lor_shift; [|lia|apply segment_bound]. rewrite S6, S7.
  pose proof (Z.rem_mul_r ip 65536 65536 ltac:(lia) ltac:(lia)) as E.
  change (2 ^ 32)%Z with (65536 * 65536)%Z. change (2 ^ 16)%Z with 65536%Z. lia.
Qed.

Lemma to_ipv4_spec ip :
  (0 ≤ ip < 2 ^ 128)%Z →
  (match to_ipv4_mapped ip with Some v4 => Some v4 | None => to_ipv4 ip end)
  = if existsb (in_block 128 ip) V4_IN_V6 then Some (ip mod 2 ^ 32)%Z else None.
Proof.
  intros Hip. unfold to_ipv4_mapped, to_ipv4. rewrite (zero_segments_spec ip Hip), embedded_spec by lia.
  pose proof (div_chain ip 32 ltac:(lia)) as E.
  destruct (segment_spec ip) as (_ & _ & _ & _ & _ & S5 & _). rewrite <- S5 in E.
  change (32 + 16)%Z with 48%Z in E. pose proof (segment_bound ip 5).
  unfold V4_IN_V6, in_block. cbn [existsb fst snd].
  change (128 - 96)%Z with 32%Z.
  replace (65535 * 2 ^ 32 / 2 ^ 32)%Z with 65535%Z by (symmetry; apply Z.div_mul; lia).
  change (0 / 2 ^ 32)%Z with 0%Z.
  assert (H0 : (0 ≤ ip / 2 ^ 48)%Z) by (apply Z.div_pos; lia).
  set (x := (ip / 2 ^ 32)%Z) in *. set (y := (ip / 2 ^ 48)%Z) in *. set (s := segment ip 5) in *.
  clearbody x y s. clear -E H H0.
  destruct (Z.eqb_spec y 0), (Z.eqb_spec s 65535), (Z.eqb_spec s 0), (Z.eqb_spec x 65535),
    (Z.eqb_spec x 0); simpl; try done; lia.
Qed.

Lemma v6_blocks_spec ip :
  (0 ≤ ip < 2 ^ 128)%Z →
  is_loopback_v6 ip || is_unspecified_v6 ip || is_multicast_v6 ip || is_ula ip
    || is_v6_link_local ip || is_v6_documentation ip
  = existsb (in_block 128 ip) V6_BLOCKS.
Proof.
  intros Hip. rewrite (documentation_spec ip Hip).
  assert (is_multicast_v6 ip = Z.eqb (ip / 2 ^ (112 + 8)) 255) as ->
    by (apply (prefix_spec ip 8 8 255 Hip); lia).
  assert (is_ula ip = Z.eqb (ip / 2 ^ (112 + 9)) 126) as ->
    by (apply (prefix_spec ip 7 9 126 Hip); lia).
  assert (is_v6_link_local ip = Z.eqb (ip / 2 ^ (112 + 6)) 1018) as ->
    by (apply (prefix_spec ip 10 6 1018 Hip); lia).
  unfold is_loopback_v6, is_unspecified_v6, V6_BLOCKS, in_block. cbn [existsb fst snd].
  change (128 - 128)%Z with 0%Z. change (128 - 7)%Z with (112 + 9)%Z.
  change (128 - 10)%Z with (112 + 6)%Z. change (128 - 8)%Z with (112 + 8)%Z.
  change (128 - 32)%Z with 96%Z. rewrite Z.pow_0_r, !Z.div_1_r.
  assert (64512 * 2 ^ 112 / 2 ^ (112 + 9) = 126)%Z as -> by (vm_compute; reflexivity).
  assert (65152 * 2 ^ 112 / 2 ^ (112 + 6) = 1018)%Z as -> by (vm_compute; reflexivity).
  assert (65280 * 2 ^ 112 / 2 ^ (112 + 8) = 255)%Z as -> by (vm_compute; reflexivity).
  assert ((8193 * 2 ^ 112 + 3512 * 2 ^ 96) / 2 ^ 96 = 8193 * 65536 + 3512)%Z as ->
    by (vm_compute; reflexivity).
  destruct (Z.eqb ip 0), (Z.eqb ip 1); simpl; rewrite ?orb_true_r, ?orb_false_r; try done.
  destruct (Z.eqb (ip / 2 ^ (112 + 8)) 255); simpl; rewrite ?orb_true_r, ?orb_false_r; try done.
  by rewrite !orb_assoc.
Qed.

Lemma ip_blocked_spec ip : ip_in_range ip → ip_blocked ip = blocked_spec ip.
Proof.
  destruct ip as [v4|v6]; intros Hip; [by apply v4_blocked_spec|].
  unfold ip_blocked, v6_blocked, blocked_spec. unfold ip_in_range in Hip. rewrite (v6_blocks_spec v6 Hip), (to_ipv4_spec v6 Hip).
  destruct (existsb (in_block 128 v6) V6_BLOCKS); [done|].
  destruct (existsb (in_block 128 v6) V4_IN_V6); [|done]. cbn [orb andb].
  apply v4_blocked_spec, Z.mod_pos_bound. lia.
Qed.

(** ** Host lists by labels *)

(** The labels of a host, lower-cased, trailing dots aside. *)
Definition labels (host : string) : list string := split_on dot (canonical_host host).

Lemma ends_with_spec s p : ends_with s p = true ↔ ∃ r, s = r +:+ p.
Proof.
  unfold ends_with. rewrite starts_with_spec. split.
  - intros [r Hr]. exists (string_rev r). apply (f_equal string_rev) in Hr.
    by rewrite string_rev_app, !string_rev_involutive in Hr.
  - intros [r ->]. exists (string_rev r). apply string_rev_app.
Qed.

Lemma concat_split c s : String.concat (String c "") (split_on c s) = s.
Proof.
  induction s as [|a s IH]; [done|]. simpl. pose proof (split_on_ne c s) as Hne.
  destruct (Ascii.eqb_spec a c) as [->|].
  - destruct (split_on c s) as [|w ws]; [done|]. simpl in *. by rewrite IH.
  - destruct (split_on c s) as [|w ws]; [done|]. transitivity (String a (String.concat (String c "") (w :: ws))).
    + by destruct ws.
    + by rewrite IH.
Qed.

Lemma concat_app c l1 l2 :
  l1 ≠ [] → l2 ≠ [] →
  String.concat (String c "") (l1 ++ l2)
  = String.concat (String c "") l1 +:+ String c (String.concat (String c "") l2).
Proof.
  intros H1 H2. induction l1 as [|x l1 IH]; [done|]. destruct l1 as [|y l1].
  - destruct l2; [done|]. by simpl.
  - simpl in *. rewrite IH by done. by rewrite !string_app_assoc.
Qed.

Lemma split_on_split c s t : split_on c (s +:+ String c t) = split_on c s ++ split_on c t.
Proof.
  induction s as [|a s IH]; simpl; [by rewrite Ascii.eqb_refl|].
  destruct (Ascii.eqb a c); [by rewrite IH|]. rewrite IH.
  pose proof (split_on_ne c s). by destruct (split_on c s).
Qed.

(** An entry matches the host itself and its sub-domains, label by label. *)
Lemma host_matches_spec host entry :
  host_matches (canonical_host host) entry = true ↔ labels entry `suffix_of` labels host.
Proof.
  unfold host_matches, labels. rewrite orb_true_iff, String.eqb_eq, ends_with_spec.
  set (h := canonical_host host). set (e := canonical_host entry). split.
  - intros [->|[r ->]]; [by exists []|]. exists (split_on dot r).
    replace (r +:+ "." +:+ e) with (r +:+ String dot e) by done. by rewrite split_on_split.
  - intros [l Hl]. apply (f_equal (String.concat (String dot ""))) in Hl.
    rewrite concat_split in Hl. destruct l as [|w l]; [left; by rewrite Hl, app_nil_l, concat_split|].
    right. exists (String.concat (String dot "") (w :: l)).
    rewrite Hl, concat_app, concat_split; [done|done|apply split_on_ne].
Qed.

Lemma existsb_matches host entries :
  existsb (host_matches (canonical_host host)) entries = true
  ↔ ∃ e, e ∈ entries ∧ labels e `suffix_of` labels host.
Proof. rewrite existsb_Exists. setoid_rewrite host_matches_spec. done. Qed.

Lemma host_allowed_spec host allow deny :
  host_allowed host allow deny = true ↔
    (∀ e, e ∈ deny → ¬ labels e `suffix_of` labels host)
    ∧ (∀ l, allow = Some l → ∃ e, e ∈ l ∧ labels e `suffix_of` labels host).
Proof.
  unfold host_allowed. destruct (existsb _ deny) eqn:Hd.
  - split; [done|]. apply existsb_matches in Hd as (e & He & Hs). intros [H _]. by destruct (H e He).
  - assert (Hn : ∀ e, e ∈ deny → ¬ labels e `suffix_of` labels host).
    { intros e He Hs. assert (existsb (host_matches (canonical_host host)) deny = true); [|congruence].
      apply existsb_matches. eauto. }
    destruct allow as [l|].
    + rewrite existsb_matches. split; [|naive_solver]. intros H. split; [done|]. by intros ? [= <-].
    + by split.
Qed.

(** ** The properties *)



Section Guards.
Context {W : Type} (lookup_host : string → W → result (list IpAddr) string * W).

Lemma guarded_resolve_ok allow_private host w addrs w' :
  guarded_resolve lookup_host allow_private host w = (Ok addrs, w') →
  allow_private = true ∨ Forall (λ a, ip_blocked a = false) addrs.
Proof.
  unfold guarded_resolve. destruct (lookup_host host w) as [[resolved|e] w1]; [|done].
  destruct allow_private; [by left|]. right.
  assert (Hf : Forall (λ a, ip_blocked a = false) (List.filter (λ a, negb (ip_blocked a)) resolved)).
  { apply Forall_forall. intros a Ha. apply list_elem_of_In, filter_In in Ha as [_ Ha].
    by apply negb_true_iff. }
  destruct (List.filter _ resolved); [done|]. by injection H as <- <-.
Qed.

Context (tcp_connect : IpAddr → Z → W → bool * W).

Lemma connect_first_spec port addrs w tried up w' :
  connect_first tcp_connect port addrs w = (tried, up, w') →
  (∀ a, a ∈ tried → a.1 ∈ addrs ∧ a.2 = port) ∧ (∀ a, up = Some a → a ∈ tried).
Proof.
  revert w tried up w'. induction addrs as [|addr addrs IH]; intros w tried up w'; simpl.
  { intros [= <- <- <-]. split; [intros a Ha; by apply elem_of_nil in Ha|done]. }
  destruct (tcp_connect addr port w) as [[] w1].
  - intros [= <- <- <-]. split; [|intros a [= <-]; by apply list_elem_of_singleton].
    intros a Ha. apply list_elem_of_singleton in Ha as ->. split; [by left|done].
  - destruct (connect_first tcp_connect port addrs w1) as [[tried1 up1] w2] eqn:H.
    apply IH in H as [H1 H2]. intros [= <- <- <-]. split.
    + intros a [->|Ha]%elem_of_cons; [split; [by left|done]|].
      destruct (H1 a Ha). split; [by right|done].
    + intros a Ha. right. auto.
Qed.

(** What makes a connection of the proxy legitimate. *)
Record proxied_ok (policy : EgressPolicy) (p : Proxied) : Prop := {
  pok_addresses : Forall (λ a, is_ip_allowed policy a.1 = true) (px_attempts p);
  pok_host : px_attempts p ≠ [] → ∃ target host port,
    split_host_port target = Some (host, port) ∧ is_host_allowed policy host = true
    ∧ Forall (λ a, a.2 = port) (px_attempts p);
  pok_tunnel : ∀ up, px_tunnel p = Some up → up ∈ px_attempts p;
  pok_reply : px_reply p = Some Established ↔ is_Some (px_tunnel p);
}.

Lemma reply_only_ok policy r : r ≠ Some Established → proxied_ok policy (reply_only r).
Proof. intros Hr. split; simpl; [constructor|done|done|]. split; [done|]. by intros []. Qed.

Lemma read_head_err head reads p :
  read_head head reads = Err p → ∃ r, p = reply_only r ∧ r ≠ Some Established.
Proof.
  revert head. induction reads as [|r reads IH]; intros head; cbn [read_head];
    (destruct (starts_with (string_of_list head) _); [done|]);
    (destruct (MAX_HEAD <=? length head)%nat; [intros [= <-]; eauto|]).
  - intros [= <-]. eauto.
  - destruct r; [apply IH|intros [= <-]; by eauto..].
Qed.

Lemma handle_connect_ok target policy w :
  proxied_ok policy (fst (handle_connect lookup_host tcp_connect target policy w)).
Proof.
  unfold handle_connect. destruct (split_host_port target) as [[host port]|] eqn:Ht; [|by apply reply_only_ok].
  destruct (is_host_allowed policy host) eqn:Hh; cbn [negb]; [|by apply reply_only_ok].
  destruct (lookup_host host w) as [[resolved|e] w1]; [|by apply reply_only_ok].
  assert (Hf : Forall (λ a, is_ip_allowed policy a = true) (List.filter (is_ip_allowed policy) resolved)).
  { apply Forall_forall. intros a Ha. by apply list_elem_of_In, filter_In in Ha as [_ Ha]. }
  destruct (List.filter (is_ip_allowed policy) resolved) as [|a0 addrs]; [by apply reply_only_ok|].
  set (l := a0 :: addrs) in *. clearbody l.
  destruct (connect_first tcp_connect port l w1) as [[tried up] w2] eqn:Hc.
  apply connect_first_spec in Hc as [H1 H2]. rewrite Forall_forall in Hf.
  assert (Ha : Forall (λ a, is_ip_allowed policy a.1 = true) tried).
  { apply Forall_forall. intros a Ha. by apply Hf, H1. }
  assert (Hp : Forall (λ a : IpAddr * Z, a.2 = port) tried).
  { apply Forall_forall. intros a Ha'. by apply H1. }
  destruct up as [up|]; simpl; split; simpl; try done; try (by intros _; exists target, host, port);
    try (split; [by intros|by intros []]).
Qed.

End Guards.

(** A host passes the lists exactly when no denied entry is the host or one
    of its parent domains, label by label, and, when an allow-list is set, some
    allowed entry is: an empty allow-list allows nothing, a name that merely
    ends in an entry's characters is not matched, and case and trailing dots do
    not matter. *)
Theorem host_allowed_labels host allow deny :
  host_allowed host allow deny = true ↔
    (∀ e, e ∈ deny → ¬ labels e `suffix_of` labels host)
    ∧ (∀ l, allow = Some l → ∃ e, e ∈ l ∧ labels e `suffix_of` labels host).
Proof. apply host_allowed_spec. Qed.
