(* ===== verification/WebFetch.v ===== *)
(** The WebFetch tool (paigasus-helikon-tools/src/web/fetch.rs) over the network
    policy ([Net]) and the run-scoped store ([SessionState] of core/src/state.rs,
    the class [Scratch] of [Workflow]).

    [reqwest] and the HTML conversion are parameters.  Of [reqwest] the model
    uses what its documentation promises: a client built without redirects does
    not follow them, asks its resolver for the addresses of a domain and
    connects to one of those, and connects to a numeric host directly.  Every
    request is recorded with the addresses it may connect to. *)

From S2P Require Import Prelude Json Items PathMatch CommandMatch LoopState Permission.
From S2P Require Import Redaction Tools ModelTurn Driver Workflow Net.

(** ** The use counter *)

(** [SessionState::increment_u64_if_below]: one critical section. *)
Definition increment_u64_if_below `{J : SerdeJson} `{!JsonU64} (m : gmap string Value)
    (key : string) (max : Z) : bool * gmap string Value :=
  let current := default 0%Z (m !! key ≫= as_u64) in
  if (current <? max)%Z then (true, <[key := from_u64 (current + 1)]> m) else (false, m).

Definition USES_KEY : string := "paigasus_helikon_tools::web_fetch::uses".

(** ** The tool *)

Definition DEFAULT_TIMEOUT : Z := 30.
Definition DEFAULT_MAX_BODY : nat := 5 * 1024 * 1024.
Definition MAX_REDIRECTS : nat := 5.

Record WebFetchToolBuilder := mkWebFetchToolBuilder {
  wb_timeout : Z;
  wb_max_body_bytes : nat;
  wb_allow_domains : option (list string);
  wb_deny_domains : list string;
  wb_allow_private_ips : bool;
  wb_user_agent : string;
  wb_max_uses : option Z;
}.

Definition wb_set_max_body_bytes (b : WebFetchToolBuilder) (n : nat) : WebFetchToolBuilder :=
  mkWebFetchToolBuilder (wb_timeout b) n (wb_allow_domains b) (wb_deny_domains b)
    (wb_allow_private_ips b) (wb_user_agent b) (wb_max_uses b).
(** An empty list lifts the restriction. *)
Definition wb_set_allow_domains (b : WebFetchToolBuilder) (hosts : list string)
  : WebFetchToolBuilder :=
  mkWebFetchToolBuilder (wb_timeout b) (wb_max_body_bytes b)
    (match hosts with [] => None | _ => Some hosts end) (wb_deny_domains b)
    (wb_allow_private_ips b) (wb_user_agent b) (wb_max_uses b).
Definition wb_set_deny_domains (b : WebFetchToolBuilder) (hosts : list string)
  : WebFetchToolBuilder :=
  mkWebFetchToolBuilder (wb_timeout b) (wb_max_body_bytes b) (wb_allow_domains b) hosts
    (wb_allow_private_ips b) (wb_user_agent b) (wb_max_uses b).
Definition wb_set_allow_private_ips (b : WebFetchToolBuilder) (allow : bool)
  : WebFetchToolBuilder :=
  mkWebFetchToolBuilder (wb_timeout b) (wb_max_body_bytes b) (wb_allow_domains b)
    (wb_deny_domains b) allow (wb_user_agent b) (wb_max_uses b).
Definition wb_set_max_uses (b : WebFetchToolBuilder) (n : Z) : WebFetchToolBuilder :=
  mkWebFetchToolBuilder (wb_timeout b) (wb_max_body_bytes b) (wb_allow_domains b)
    (wb_deny_domains b) (wb_allow_private_ips b) (wb_user_agent b) (Some n).

(** What [build_client] configures. *)
Record Client := mkClient { follow_redirects : bool; dns_guard : option bool }.

Definition build_client (follow_redirects : bool) (dns_guard : option bool) : Client :=
  mkClient follow_redirects dns_guard.

Record WebFetchTool := mkWebFetchTool {
  client : Client;
  max_body_bytes : nat;
  wf_allow_domains : option (list string);
  wf_deny_domains : list string;
  wf_allow_private_ips : bool;
  max_uses : option Z;
}.

Definition web_fetch_build (b : WebFetchToolBuilder) : WebFetchTool :=
  mkWebFetchTool (build_client false (Some (wb_allow_private_ips b))) (wb_max_body_bytes b)
    (wb_allow_domains b) (wb_deny_domains b) (wb_allow_private_ips b) (wb_max_uses b).

Definition web_fetch_builder (user_agent : string) : WebFetchToolBuilder :=
  mkWebFetchToolBuilder DEFAULT_TIMEOUT DEFAULT_MAX_BODY None [] false user_agent None.

(** A response: the headers when they are present and printable, and the chunks
    of the body as they arrive. *)
Record Response := mkResponse {
  rs_status : Z;
  rs_location : option string;
  rs_content_type : option string;
  rs_chunks : list (result string string);
}.

Definition is_redirection (status : Z) : bool := (300 <=? status)%Z && (status <? 400)%Z.

(** The loop over [resp.chunk()]: the body, and whether it was cut. *)
Fixpoint read_body (max : nat) (body : string) (chunks : list (result string string))
  : result (string * bool) ToolError :=
  match chunks with
  | [] => Ok (body, false)
  | Err e :: _ => Err (ToolOther ("body read failed: " +:+ e))
  | Ok chunk :: chunks' =>
      if (max <? String.length body + String.length chunk)%nat
      then Ok (body +:+ String.substring 0 (max - String.length body) chunk, true)
      else read_body max (body +:+ chunk) chunks'
  end.

Definition is_textual (lower : string) : bool :=
  is_empty lower || starts_with lower "text/" || contains_str lower "application/json"
  || contains_str lower "application/xml" || contains_str lower "+json" || contains_str lower "+xml".

Section WebFetch.
Context `{J : SerdeJson} `{!JsonU64} `{U : UrlLib} {W : Type} `{Sc : !Scratch W}.
Context (lookup_host : string → W → result (list IpAddr) string * W).
Context (show_ip : IpAddr → string).
(** One HTTP exchange over a connection to one of the given addresses. *)
Context (http_get : Url → list IpAddr → W → result Response string * W).
Context (html_to_markdown : string → string → result string string).
(** [serde_json::from_value] of the arguments: the URL. *)
Context (parse_args : Value → result string string).

(** A request on the wire, with the addresses it may connect to. *)
Definition Request : Type := Url * list IpAddr.

(** [client.get(url).send()] *)
Definition send (c : Client) (url : Url) (w : W) : result Response string * list Request * W :=
  let go addrs w := let '(r, w) := http_get url addrs w in (r, [(url, addrs)], w) in
  match url_host url with
  | Some (Ipv4Host ip) => go [V4 ip] w
  | Some (Ipv6Host ip) => go [V6 ip] w
  | Some (Domain host) =>
      match (match dns_guard c with
             | Some allow_private => guarded_resolve lookup_host allow_private host w
             | None => lookup_host host w
             end) with
      | (Err e, w) => (Err e, [], w)
      | (Ok addrs, w) => go addrs w
      end
  | None => (Err "builder error", [], w)
  end.

Definition vet (self : WebFetchTool) (url : Url) (w : W) : result unit ToolError * W :=
  if negb (existsb (String.eqb (url_scheme url)) ["http"; "https"]) then
    (Err (ToolDenied "only http/https URLs are supported"), w)
  else match url_host_str url with
       | None => (Err (ToolDenied "URL has no host"), w)
       | Some host =>
           if negb (host_allowed host (wf_allow_domains self) (wf_deny_domains self)) then
             (Err (ToolDenied ("host `" +:+ host +:+
                "` is blocked by the domain allow/deny list")), w)
           else ssrf_check lookup_host show_ip url (wf_allow_private_ips self) w
       end.

(** [finish]: the body, capped, and its content by content type. *)
Definition finish_response (self : WebFetchTool) (resp : Response) (final_url : Url)
  : result Value ToolError :=
  let content_type := default "" (rs_content_type resp) in
  match read_body (max_body_bytes self) "" (rs_chunks resp) with
  | Err e => Err e
  | Ok (body, truncated) =>
      let lower := string_lower content_type in
      match (if contains_str lower "text/html" || contains_str lower "application/xhtml" then
               match html_to_markdown (from_utf8_lossy body) (url_as_str final_url) with
               | Ok md => Ok (md, "markdown")
               | Err e => Err (ToolOther e)
               end
             else if is_textual lower then Ok (from_utf8_lossy body, "text")
             else Err (ToolDenied ("unsupported non-text content type: " +:+ content_type))) with
      | Err e => Err e
      | Ok (content, format) =>
          Ok (VObject [("url", VString (url_as_str final_url)); ("status", from_u64 (rs_status resp));
                ("content_type", VString content_type); ("content", VString content);
                ("format", VString format); ("truncated", VBool truncated)])
      end
  end.

(** The redirect loop; [hops] is the length of its range. *)
Fixpoint fetch_loop (self : WebFetchTool) (hops : nat) (current : Url) (w : W)
  : result Value ToolError * list Request * W :=
  match hops with
  | O => (Err (ToolDenied ("too many redirects (> " +:+ pretty MAX_REDIRECTS +:+ ")")), [], w)
  | S hops' =>
      match vet self current w with
      | (Err e, w) => (Err e, [], w)
      | (Ok _, w) =>
          match send (client self) current w with
          | (Err e, sent, w) => (Err (ToolOther ("request failed: " +:+ e)), sent, w)
          | (Ok resp, sent, w) =>
              if is_redirection (rs_status resp) then
                match rs_location resp with
                | None => (Err (ToolOther "redirect without Location"), sent, w)
                | Some location =>
                    match url_join current location with
                    | Err e => (Err (ToolDenied ("invalid redirect target: " +:+ e)), sent, w)
                    | Ok next =>
                        let '(r, sent', w) := fetch_loop self hops' next w in (r, sent ++ sent', w)
                    end
                end
              else (finish_response self resp current, sent, w)
          end
      end
  end.

(** The use is spent before anything else is done. *)
Definition spend_use (self : WebFetchTool) (w : W) : bool * W :=
  match max_uses self with
  | None => (true, w)
  | Some max =>
      match increment_u64_if_below (state_of w) USES_KEY max with
      | (true, m) => (true, put_state m w)
      | (false, _) => (false, w)
      end
  end.

Definition web_fetch_invoke (self : WebFetchTool) (args : Value) (w : W)
  : result Value ToolError * list Request * W :=
  match parse_args args with
  | Err e => (Err (InvalidArgs [e]), [], w)
  | Ok url =>
      match spend_use self w with
      | (false, w) =>
          (Err (ToolDenied ("WebFetch use limit reached (" +:+ show_Z (default 0%Z (max_uses self)) +:+
             " fetches per run)")), [], w)
      | (true, w) =>
          match url_parse url with
          | Err e => (Err (ToolDenied ("invalid URL: " +:+ e)), [], w)
          | Ok current => fetch_loop self (S MAX_REDIRECTS) current w
          end
      end
  end.
End WebFetch.

(** ** The body *)

Lemma substring_length n s :
  (n ≤ String.length s)%nat → String.length (String.substring 0 n s) = n.
Proof.
  revert s. induction n as [|n IH]; intros [|c s]; simpl; try done; try lia.
  intros H. rewrite IH; lia.
Qed.

Lemma substring_split n s :
  (n ≤ String.length s)%nat →
  ∃ rest, s = String.substring 0 n s +:+ rest ∧ String.length rest = (String.length s - n)%nat.
Proof.
  revert s. induction n as [|n IH]; intros [|c s]; simpl; try lia; intros H.
  - by exists "".
  - by exists (String c s).
  - destruct (IH s ltac:(lia)) as (rest & E & Hr). exists rest. split; [by rewrite <- E|done].
Qed.

(** What is kept of a body: the chunks up to the cap, whole unless it was cut. *)
Record capped (max : nat) (before : string) (chunks : list (result string string))
    (body : string) (truncated : bool) : Prop := {
  cap_length : (String.length body ≤ max)%nat;
  cap_prefix : ∃ oks rest tail, chunks = (Ok <$> oks) ++ tail
    ∧ before +:+ concat_all oks = body +:+ rest
    ∧ (truncated = false → tail = [] ∧ rest = "")
    ∧ (truncated = true → String.length body = max ∧ rest ≠ "");
}.

Lemma read_body_capped max before chunks body truncated :
  (String.length before ≤ max)%nat →
  read_body max before chunks = Ok (body, truncated) →
  capped max before chunks body truncated.
Proof.
  revert before. induction chunks as [|[chunk|e] chunks IH]; intros before Hb; simpl; [| |intros H; discriminate H].
  - intros [= <- <-]. split; [done|]. exists [], "", []. split_and!; try done.
  - destruct (max <? String.length before + String.length chunk)%nat eqn:Hm.
    + apply Nat.ltb_lt in Hm. intros [= <- <-].
      destruct (substring_split (max - String.length before) chunk ltac:(lia)) as (rest & E & Hr).
      assert (Hl : String.length (before +:+ String.substring 0 (max - String.length before) chunk) = max).
      { rewrite string_length_app, substring_length by lia. lia. }
      split; [lia|]. exists [chunk], rest, chunks. split_and!; [done| |done|].
      * unfold concat_all. simpl. by rewrite string_app_nil_r, string_app_assoc, <- E.
      * intros _. split; [done|]. intros ->. simpl in Hr. lia.
    + apply Nat.ltb_ge in Hm. intros H. apply IH in H; [|by rewrite string_length_app; lia].
      destruct H as [Hl (oks & rest & tail & -> & E & Hf & Ht)]. split; [done|].
      exists (chunk :: oks), rest, tail. split_and!; [done| |done|done].
      unfold concat_all in *. simpl. by rewrite <- string_app_assoc.
Qed.

(** ** The use counter *)

Section Uses.
Context `{J : SerdeJson} `{!JsonU64} `{!JsonU64Laws}.

(** What the agents and tools of a run do to the store, in the order of the
    lock: spend a use, or write another key. *)
Inductive StoreOp : Type :=
| SpendUse
| StorePut (key : string) (v : Value).

Fixpoint run_ops (max : Z) (ops : list StoreOp) (m : gmap string Value)
  : list bool * gmap string Value :=
  match ops with
  | [] => ([], m)
  | SpendUse :: ops' =>
      let '(ok, m1) := increment_u64_if_below m USES_KEY max in
      let '(oks, m2) := run_ops max ops' m1 in (ok :: oks, m2)
  | StorePut key v :: ops' => run_ops max ops' (<[key := v]> m)
  end.

Definition uses_of (m : gmap string Value) : Z := default 0%Z (m !! USES_KEY ≫= as_u64).

Definition is_spend (op : StoreOp) : bool := match op with SpendUse => true | _ => false end.

Lemma run_ops_count max ops m :
  (0 ≤ max ≤ u64_max)%Z →
  Forall (λ op, ∀ v, op ≠ StorePut USES_KEY v) ops →
  let oks := fst (run_ops max ops m) in
  length oks = length (List.filter is_spend ops)
  ∧ Z.of_nat (length (List.filter id oks))
    = Z.min (Z.of_nat (length oks)) (Z.max 0 (max - uses_of m)).
Proof.
  intros Hmax Hops. revert m. induction Hops as [|op ops Hop _ IH]; intros m; simpl; [lia|].
  destruct op as [|key v]; simpl.
  - unfold increment_u64_if_below. fold (uses_of m).
    assert (Hu : (0 ≤ uses_of m)%Z).
    { unfold uses_of. destruct (m !! USES_KEY ≫= as_u64) as [n|] eqn:E; simpl; [|lia].
      apply bind_Some in E as (v & _ & E). by apply as_u64_range in E as [? _]. }
    destruct (uses_of m <? max)%Z eqn:Hlt; simpl.
    + apply Z.ltb_lt in Hlt. specialize (IH (<[USES_KEY:=from_u64 (uses_of m + 1)]> m)).
      assert (Hn : uses_of (<[USES_KEY:=from_u64 (uses_of m + 1)]> m) = (uses_of m + 1)%Z).
      { unfold uses_of at 1. rewrite lookup_insert_eq. simpl. rewrite as_u64_from by lia. done. }
      rewrite Hn in IH. destruct (run_ops max ops _) as [oks m2]. simpl in *. lia.
    + apply Z.ltb_ge in Hlt. specialize (IH m). destruct (run_ops max ops m) as [oks m2].
      simpl in *. lia.
  - specialize (IH (<[key:=v]> m)).
    assert (Hn : uses_of (<[key:=v]> m) = uses_of m).
    { unfold uses_of. rewrite lookup_insert_ne; [done|]. intros ->. by apply (Hop v). }
    by rewrite Hn in IH.
Qed.
End Uses.

(** ** The guard *)

Section Guarded.
Context `{J : SerdeJson} `{!JsonU64} `{U : UrlLib} {W : Type} `{Sc : !Scratch W}.
Context (lookup_host : string → W → result (list IpAddr) string * W).
Context (show_ip : IpAddr → string).
Context (http_get : Url → list IpAddr → W → result Response string * W).
Context (html_to_markdown : string → string → result string string).
Context (parse_args : Value → result string string).

(** A request the configuration of the tool permits. *)
Record request_ok (b : WebFetchToolBuilder) (r : Request) : Prop := {
  rq_scheme : url_scheme r.1 = "http" ∨ url_scheme r.1 = "https";
  rq_host : ∃ host, url_host_str r.1 = Some host
    ∧ host_allowed host (wb_allow_domains b) (wb_deny_domains b) = true;
  rq_addresses : wb_allow_private_ips b = true ∨ Forall (λ a, ip_blocked a = false) r.2;
}.

Lemma vet_sent b url w w1 res sent w2 :
  vet lookup_host show_ip (web_fetch_build b) url w = (Ok tt, w1) →
  send lookup_host http_get (client (web_fetch_build b)) url w1 = (res, sent, w2) →
  (length sent ≤ 1)%nat ∧ Forall (request_ok b) sent.
Proof.
  unfold vet, send.
  destruct (existsb (String.eqb (url_scheme url)) ["http"; "https"]) eqn:Hs; [|done].
  cbn [negb wf_allow_domains wf_deny_domains wf_allow_private_ips client dns_guard web_fetch_build
    build_client].
  destruct (url_host_str url) as [host|] eqn:Hh; [|done].
  destruct (host_allowed host _ _) eqn:Ha; cbn [negb]; [|done]. intros Hv.
  assert (Hscheme : url_scheme url = "http" ∨ url_scheme url = "https").
  { simpl in Hs. apply orb_true_iff in Hs as [Hs|Hs]; [left|right].
    - by apply String.eqb_eq in Hs.
    - rewrite orb_false_r in Hs. by apply String.eqb_eq in Hs. }
  assert (Hok : ∀ addrs, wb_allow_private_ips b = true ∨ Forall (λ a, ip_blocked a = false) addrs →
    (length [(url, addrs)] ≤ 1)%nat ∧ Forall (request_ok b) [(url, addrs)]).
  { intros addrs Haddrs. split; [simpl; lia|]. constructor; [|constructor].
    split; simpl; [done|by exists host|done]. }
  unfold ssrf_check in Hv.
  destruct (url_host url) as [[name|ip|ip]|].
  - destruct (guarded_resolve lookup_host (wb_allow_private_ips b) name w1) as [[addrs|e] w3] eqn:Hr.
    + destruct (http_get url addrs w3) as [r w4]. intros [= <- <- <-].
      apply guarded_resolve_ok in Hr. by apply Hok.
    + intros [= <- <- <-]. split; [simpl; lia|constructor].
  - destruct (http_get url [V4 ip] w1) as [r w4]. intros [= <- <- <-]. apply Hok.
    destruct (wb_allow_private_ips b); [by left|right].
    destruct (ip_blocked (V4 ip)) eqn:Hb; [done|]. by repeat constructor.
  - destruct (http_get url [V6 ip] w1) as [r w4]. intros [= <- <- <-]. apply Hok.
    destruct (wb_allow_private_ips b); [by left|right].
    destruct (ip_blocked (V6 ip)) eqn:Hb; [done|]. by repeat constructor.
  - intros [= <- <- <-]. split; [simpl; lia|constructor].
Qed.

Lemma fetch_loop_guarded b hops url w :
  let '(_, sent, _) := fetch_loop lookup_host show_ip http_get html_to_markdown
    (web_fetch_build b) hops url w in
  (length sent ≤ hops)%nat ∧ Forall (request_ok b) sent.
Proof.
  revert url w. induction hops as [|hops IH]; intros url w; simpl; [split; [lia|constructor]|].
  destruct (vet lookup_host show_ip (web_fetch_build b) url w) as [[[]|e] w1] eqn:Hv;
    [|split; [simpl; lia|constructor]].
  change (build_client false (Some (wb_allow_private_ips b))) with (client (web_fetch_build b)).
  destruct (send lookup_host http_get (client (web_fetch_build b)) url w1) as [[res sent] w2] eqn:Hsend.
  destruct (vet_sent _ _ _ _ _ _ _ Hv Hsend) as [Hl Hf].
  destruct res as [resp|e]; [|split; [lia|done]].
  destruct (is_redirection (rs_status resp)); [|split; [lia|done]].
  destruct (rs_location resp) as [loc|]; [|split; [lia|done]].
  destruct (url_join url loc) as [next|e]; [|split; [lia|done]].
  specialize (IH next w2). destruct (fetch_loop _ _ _ _ _ _ next w2) as [[r sent'] w3].
  destruct IH as [Hl' Hf']. rewrite length_app. split; [lia|]. by apply Forall_app.
Qed.


Context `{!JsonU64Laws}.

(** The cap on uses is exact: of the calls of a run, in whatever order they
    reach the store and whatever else is written to it, exactly as many are
    admitted as the cap leaves room for, and a call that is not admitted is
    denied before it makes any request. *)
Theorem web_fetch_uses_exact max ops m :
  (0 ≤ max ≤ u64_max)%Z → Forall (λ op, ∀ v, op ≠ StorePut USES_KEY v) ops →
  (let oks := fst (run_ops max ops m) in
   length oks = length (List.filter is_spend ops)
   ∧ Z.of_nat (length (List.filter id oks))
     = Z.min (Z.of_nat (length oks)) (Z.max 0 (max - uses_of m)))
  ∧ (∀ b args url w, wb_max_uses b = Some max → parse_args args = Ok url →
      fst (increment_u64_if_below (state_of w) USES_KEY max) = false →
      ∃ reason, web_fetch_invoke lookup_host show_ip http_get html_to_markdown parse_args
        (web_fetch_build b) args w = (Err (ToolDenied reason), [], w)).
Proof.
  intros Hmax Hops. split; [by apply run_ops_count|].
  intros b args url w Hb Hp Hinc. unfold web_fetch_invoke, spend_use. rewrite Hp. simpl. rewrite Hb.
  destruct (increment_u64_if_below (state_of w) USES_KEY max) as [[] m']; [done|]. by eexists.
Qed.
End Guarded.

(** The content a call returns comes from a body within the cap. *)
Lemma finish_response_capped `{J : SerdeJson} `{!SerdeJsonLaws} `{!JsonU64} `{U : UrlLib}
    html_to_markdown self resp url out :
  finish_response html_to_markdown self resp url = Ok out →
  ∃ body truncated, capped (max_body_bytes self) "" (rs_chunks resp) body truncated
  ∧ get out "truncated" = Some (VBool truncated).
Proof.
  unfold finish_response. destruct (read_body _ _ _) as [[body truncated]|e] eqn:Hb; [|done].
  apply read_body_capped in Hb; [|simpl; lia].
  intros Hout. exists body, truncated. split; [done|]. revert Hout.
  match goal with |- context [match ?x with Ok _ => _ | Err _ => _ end] =>
    destruct x as [[content format]|e] end; [|done]. intros [= <-].
  by rewrite get_VObject.
Qed.

(** ** A server that redirects to the metadata service *)

Module WebFetchDemo.
#[local] Existing Instances Toy.json Toy.json_u64 Toy.json_u64_laws.

(** URLs are a scheme and a host; the path of a redirect is a URL. *)
Definition parse_url (s : string) : result (string * UrlHost) string :=
  match s with
  | "http://example.com" => Ok ("http", Domain "example.com")
  | "http://[::ffff:169.254.169.254]" => Ok ("http", Ipv6Host (65535 * 2 ^ 32 + quad 169 254 169 254))
  | "file:///etc/passwd" => Ok ("file", Domain "")
  | _ => Err "relative URL without a base"
  end.

#[local] Instance toy_url : UrlLib := {|
  Url := string * UrlHost;
  url_parse := parse_url;
  url_join _ := parse_url;
  url_scheme := fst;
  url_host u := Some u.2;
  url_host_str u := Some match u.2 with Domain d => d | _ => "[::ffff:169.254.169.254]" end;
  url_as_str u := u.1;
|}.

(** The world is the store; the first look-up of a name is public, the next one
    is private. *)
Definition World : Type := gmap string Toy.value * nat.

#[local] Instance toy_scratch : Scratch World := {|
  state_of w := w.1;
  put_state m w := (m, w.2);
  escalated _ := false;
  put_escalated _ w := w;
|}.

Definition rebinding (host : string) (w : World) : result (list IpAddr) string * World :=
  (Ok [V4 (if (w.2 =? 0)%nat then quad 8 8 8 8 else quad 10 0 0 1)], (w.1, S w.2)).

Definition steady (host : string) (w : World) : result (list IpAddr) string * World :=
  (Ok [V4 (quad 8 8 8 8)], w).

Definition redirecting (u : string * UrlHost) (addrs : list IpAddr) (w : World)
  : result Response string * World :=
  (Ok (mkResponse 302 (Some "http://[::ffff:169.254.169.254]") None []), w).

Definition fetch lookup b (args : string) (w : World) :=
  web_fetch_invoke lookup (λ _, "[::ffff:a9fe:a9fe]") redirecting (λ s _, Ok s)
    (λ v, match as_str v with Some s => Ok s | None => Err "missing field" end)
    (web_fetch_build b) (VString args) w.

Definition limited : WebFetchToolBuilder := wb_set_max_uses (web_fetch_builder "demo") 1.

(** The redirect is refused after one request to a public address; a rebinding
    name does not get past the resolver; the second call is denied. *)
Example redirect_refused :
  fst (fetch steady limited "http://example.com" (∅, 0%nat))
  = (Err (ToolDenied ("host `[::ffff:a9fe:a9fe]` resolves to a blocked " +:+
       "(private/loopback/link-local) address")),
     [(("http", Domain "example.com"), [V4 (quad 8 8 8 8)])]).
Proof. vm_compute. reflexivity. Qed.

Example rebinding_refused :
  snd (fst (fetch rebinding limited "http://example.com" (∅, 0%nat))) = [].
Proof. vm_compute. reflexivity. Qed.

Lemma web_fetch_uses_exact_witness :
  length (List.filter id (fst (run_ops 1 [SpendUse; StorePut "k" VNull; SpendUse; SpendUse] ∅)))
  = 1%nat.
Proof.
  destruct (web_fetch_uses_exact (U:=toy_url) steady (λ _, "") redirecting (λ s _, Ok s) (λ _, Err "")
    1 [SpendUse; StorePut "k" VNull; SpendUse; SpendUse] ∅) as [[_ H] _].
  - unfold u64_max. lia.
  - repeat constructor; intros v; discriminate.
  - vm_compute in H |- *. lia.
Defined.
End WebFetchDemo.
