(* ===== verification/AgUi.v ===== *)
(** The AG-UI protocol adapter of the AgentCore shim
    (paigasus-helikon-runtime-agentcore/src/agui): the wire frames and the
    request body (types.rs), the event mapper with its bracketing state machine
    (map.rs), the SSE stream of a run (sse.rs) and the WebSocket connection that
    interleaves requests with the events of the run in flight (ws.rs).

    A frame is the inductive [Frame], one constructor per function of
    [types::event], and [frame_json] is the JSON object that function builds.
    The mapper's methods push frames and change the state, so a method is an
    [Act]: from a state to the frames it pushes and the next state.

    [agui_stream_contract] relates the mapper to an AG-UI client: a client that accepts
    only balanced, never overlapping spans follows every stream, and its state
    is a function of the mapper's. *)

From S2P Require Import Prelude Json Items.

(** ** Frames *)

Section Frames.
Context `{J : SerdeJson}.

Inductive Frame : Type :=
| FRunStarted (thread_id run_id : string)
| FRunFinished (thread_id run_id : string)
| FRunError (code message : string)
| FStepStarted (name : string)
| FStepFinished (name : string)
| FTextStart (message_id : string)
| FTextContent (message_id delta : string)
| FTextEnd (message_id : string)
| FThinkingStart (message_id : string)
| FThinkingContent (message_id delta : string)
| FThinkingEnd (message_id : string)
| FToolCallStart (call_id name parent : string)
| FToolCallArgs (call_id delta : string)
| FToolCallEnd (call_id : string)
| FToolCallResult (call_id content : string)
| FCustom (name : string) (value : Value).

(** A [json!] object whose fields are strings. *)
Definition tagged (ty : string) (fields : list (string * string)) : Value :=
  VObject (("type", VString ty) :: (prod_map id VString <$> fields)).

Definition frame_json (f : Frame) : Value :=
  match f with
  | FRunStarted t r => tagged "RUN_STARTED" [("threadId", t); ("runId", r)]
  | FRunFinished t r => tagged "RUN_FINISHED" [("threadId", t); ("runId", r)]
  | FRunError c m => tagged "RUN_ERROR" [("code", c); ("message", m)]
  | FStepStarted n => tagged "STEP_STARTED" [("stepName", n)]
  | FStepFinished n => tagged "STEP_FINISHED" [("stepName", n)]
  | FTextStart i => tagged "TEXT_MESSAGE_START" [("messageId", i); ("role", "assistant")]
  | FTextContent i d => tagged "TEXT_MESSAGE_CONTENT" [("messageId", i); ("delta", d)]
  | FTextEnd i => tagged "TEXT_MESSAGE_END" [("messageId", i)]
  | FThinkingStart i => tagged "THINKING_TEXT_MESSAGE_START" [("messageId", i)]
  | FThinkingContent i d => tagged "THINKING_TEXT_MESSAGE_CONTENT" [("messageId", i); ("delta", d)]
  | FThinkingEnd i => tagged "THINKING_TEXT_MESSAGE_END" [("messageId", i)]
  | FToolCallStart c n p =>
      tagged "TOOL_CALL_START" ([("toolCallId", c); ("toolCallName", n)] ++
        if is_empty p then [] else [("parentMessageId", p)])
  | FToolCallArgs c d => tagged "TOOL_CALL_ARGS" [("toolCallId", c); ("delta", d)]
  | FToolCallEnd c => tagged "TOOL_CALL_END" [("toolCallId", c)]
  | FToolCallResult c x => tagged "TOOL_CALL_RESULT" [("toolCallId", c); ("content", x)]
  | FCustom n v => VObject [("type", VString "CUSTOM"); ("name", VString n); ("value", v)]
  end.

(** ** The request *)

Record AgUiMessage := mkAgUiMessage {
  am_id : option string;
  am_role : string;
  am_content : option string;
}.

Record RunAgentInput := mkRunAgentInput {
  rai_thread_id : option string;
  rai_run_id : option string;
  rai_messages : list AgUiMessage;
}.

Definition message_item (m : AgUiMessage) : option Item :=
  match am_content m with
  | None => None
  | Some text =>
      let content := [Text text] in
      if String.eqb (am_role m) "user" then Some (UserMessage content)
      else if String.eqb (am_role m) "assistant" then Some (AssistantMessage content None)
      else if String.eqb (am_role m) "system" || String.eqb (am_role m) "developer"
      then Some (System content)
      else None
  end.

Definition into_agent_input (self : RunAgentInput) : list Item :=
  omap message_item (rai_messages self).

(** ** The mapper *)

Inductive OpenText : Type := NoText | OpenMessage | OpenThinking.
Inductive TextKind : Type := KMessage | KThinking.

#[export] Instance OpenText_eq_dec : EqDecision OpenText.
Proof. solve_decision. Defined.

Record EventMapper := mkEventMapper {
  thread_id : string;
  run_id : string;
  open_text : OpenText;
  current_message : string;
  next_message : Z;
  streamed_text : bool;
  open_call : option string;
  call_names : gmap string string;
  buffered_calls : list (string * string);
  completed_calls : gset string;
  step_open : bool;
}.

Definition EventMapper_new (thread_id run_id : string) : EventMapper :=
  mkEventMapper thread_id run_id NoText "" 0 false None ∅ [] ∅ false.

Definition with_text (o : OpenText) (current : string) (next : Z) (m : EventMapper) : EventMapper :=
  mkEventMapper (thread_id m) (run_id m) o current next (streamed_text m) (open_call m)
    (call_names m) (buffered_calls m) (completed_calls m) (step_open m).
Definition with_streamed (b : bool) (m : EventMapper) : EventMapper :=
  mkEventMapper (thread_id m) (run_id m) (open_text m) (current_message m) (next_message m) b
    (open_call m) (call_names m) (buffered_calls m) (completed_calls m) (step_open m).
Definition with_calls (o : option string) (names : gmap string string)
    (buffered : list (string * string)) (completed : gset string) (m : EventMapper) : EventMapper :=
  mkEventMapper (thread_id m) (run_id m) (open_text m) (current_message m) (next_message m)
    (streamed_text m) o names buffered completed (step_open m).
Definition with_step (b : bool) (m : EventMapper) : EventMapper :=
  mkEventMapper (thread_id m) (run_id m) (open_text m) (current_message m) (next_message m)
    (streamed_text m) (open_call m) (call_names m) (buffered_calls m) (completed_calls m) b.

(** A method: the frames it pushes, in order, and the state it leaves. *)
Definition Act : Type := EventMapper → list Frame * EventMapper.

Definition skip : Act := λ m, ([], m).
Definition emit (f : EventMapper → Frame) : Act := λ m, ([f m], m).
Definition modify (g : EventMapper → EventMapper) : Act := λ m, ([], g m).
Definition andThen (a b : Act) : Act := λ m,
  let '(out1, m1) := a m in let '(out2, m2) := b m1 in (out1 ++ out2, m2).
Definition reading {A} (q : EventMapper → A) (k : A → Act) : Act := λ m, k (q m) m.
Definition when (b : bool) (a : Act) : Act := if b then a else skip.
End Frames.

Declare Scope agui_scope.
Delimit Scope agui_scope with agui.
Notation "a '>>>' b" := (andThen a b) (at level 62, right associativity) : agui_scope.
Notation "x '<-?' q '>>>' k" := (reading q (λ x, k))
  (at level 62, q at next level, right associativity) : agui_scope.
Open Scope agui_scope.

Section Mapper.
Context `{J : SerdeJson}.
(** [serde_json::to_value] of an event, null when it fails. *)
Context (to_value : AgentEvent → Value).

Definition msg_id (n : Z) : string := "msg-" +:+ show_Z n.

Definition close_text : Act :=
  o <-? open_text>>>
  match o with
  | OpenMessage => emit (λ m, FTextEnd (current_message m))
  | OpenThinking => emit (λ m, FThinkingEnd (current_message m))
  | NoText => skip
  end>>>
  modify (λ m, with_text NoText (current_message m) (next_message m) m).

(** [new_message_id], for [k]. *)
Definition new_message_id (k : string → Act) : Act :=
  n <-? next_message>>>
  modify (λ m, with_text (open_text m) (current_message m) (u32_add n 1) m)>>>
  k (msg_id n).

Definition target (kind : TextKind) : OpenText :=
  match kind with KMessage => OpenMessage | KThinking => OpenThinking end.

Definition open_text_block (kind : TextKind) : Act :=
  o <-? open_text>>>
  if decide (o = target kind) then skip
  else
    close_text>>>
    new_message_id (λ id,
      modify (λ m, with_text (open_text m) id (next_message m) m)>>>
      match kind with
      | KMessage => emit (λ _, FTextStart id)
      | KThinking => emit (λ _, FThinkingStart id)
      end>>>
      modify (λ m, with_text (target kind) (current_message m) (next_message m) m)).

Definition set_open_call (o : option string) (m : EventMapper) : EventMapper :=
  with_calls o (call_names m) (buffered_calls m) (completed_calls m) m.
Definition mark_completed (id : string) (m : EventMapper) : EventMapper :=
  with_calls (open_call m) (call_names m) (buffered_calls m) ({[id]} ∪ completed_calls m) m.

Definition close_call : Act :=
  o <-? open_call>>>
  match o with
  | Some id => modify (set_open_call None)>>> emit (λ _, FToolCallEnd id)>>> modify (mark_completed id)
  | None => skip
  end.

Definition name_of (m : EventMapper) (call_id : string) : string :=
  default "unknown" (call_names m !! call_id).

(** [buffered_calls.iter().position(..)] with [remove], and [iter_mut().find(..)]
    with [push_str]. *)
Fixpoint take_entry (call_id : string) (l : list (string * string))
  : option (string * list (string * string)) :=
  match l with
  | [] => None
  | (id, args) :: l' =>
      if String.eqb id call_id then Some (args, l')
      else match take_entry call_id l' with
           | Some (a, l'') => Some (a, (id, args) :: l'')
           | None => None
           end
  end.

Fixpoint push_entry (call_id delta : string) (l : list (string * string))
  : list (string * string) :=
  match l with
  | [] => [(call_id, delta)]
  | (id, args) :: l' =>
      if String.eqb id call_id then (id, args +:+ delta) :: l'
      else (id, args) :: push_entry call_id delta l'
  end.

Definition take_buffered (call_id : string) (k : option string → Act) : Act :=
  l <-? buffered_calls>>>
  match take_entry call_id l with
  | Some (args, l') =>
      modify (λ m, with_calls (open_call m) (call_names m) l' (completed_calls m) m)>>> k (Some args)
  | None => k None
  end.

Definition close_step : Act :=
  b <-? step_open>>>
  when b (emit (λ _, FStepFinished "turn")>>> modify (with_step false)).

(** A complete span for one call. *)
Definition flush_call (name : EventMapper → string) (call_id args : string) : Act :=
  emit (λ m, FToolCallStart call_id (name m) (current_message m))>>>
  emit (λ _, FToolCallArgs call_id args)>>>
  emit (λ _, FToolCallEnd call_id)>>>
  modify (mark_completed call_id).

Fixpoint flush_all (l : list (string * string)) : Act :=
  match l with
  | [] => skip
  | (id, args) :: l' => flush_call (λ m, name_of m id) id args>>> flush_all l'
  end.

Definition close_all : Act :=
  close_text>>> close_call>>>
  l <-? buffered_calls>>>
  modify (λ m, with_calls (open_call m) (call_names m) [] (completed_calls m) m)>>>
  flush_all l>>> close_step.

Definition custom (name : string) (ev : AgentEvent) : Act := emit (λ _, FCustom name (to_value ev)).

(** [text_of]: the text blocks, concatenated. *)
Definition text_of (content : list ContentPart) : string :=
  String.concat "" (omap (λ c, match c with Text text => Some text | _ => None end) content).

Definition record_name (call_id : string) (name : option string) (m : EventMapper) : EventMapper :=
  match name with
  | Some name =>
      with_calls (open_call m)
        (match call_names m !! call_id with
         | Some _ => call_names m | None => <[call_id := name]> (call_names m) end)
        (buffered_calls m) (completed_calls m) m
  | None => m
  end.

(** The arm of [ToolCallDelta]. *)
Definition on_tool_delta (call_id : string) (name : option string) (args_delta : string) : Act :=
  close_text>>>
  modify (record_name call_id name)>>>
  o <-? open_call>>>
  match o with
  | Some id =>
      if String.eqb id call_id then emit (λ _, FToolCallArgs call_id args_delta)
      else modify (λ m, with_calls (open_call m) (call_names m)
             (push_entry call_id args_delta (buffered_calls m)) (completed_calls m) m)
  | None =>
      take_buffered call_id (λ buffered,
        emit (λ m, FToolCallStart call_id (name_of m call_id) (current_message m))>>>
        match buffered with Some b => emit (λ _, FToolCallArgs call_id b) | None => skip end>>>
        emit (λ _, FToolCallArgs call_id args_delta)>>>
        modify (set_open_call (Some call_id)))
  end.

(** The arm of [ToolCallItem]. *)
Definition on_tool_item (call_id name : string) (args : Value) : Act :=
  close_text>>>
  o <-? open_call>>>
  if decide (o = Some call_id) then close_call
  else take_buffered call_id (λ buffered,
    match buffered with
    | Some b => close_call>>> flush_call (λ _, name) call_id b
    | None =>
        done <-? completed_calls>>>
        if decide (call_id ∈ done) then skip
        else close_call>>> flush_call (λ _, name) call_id (to_string args)
    end).

(** The arm of [MessageOutput]. *)
Definition on_message (item : Item) : Act :=
  close_call>>>
  s <-? streamed_text>>>
  close_text>>>
  when (negb s)
    (let content := match item with AssistantMessage content _ => text_of content | _ => "" end in
     when (negb (is_empty content))
       (new_message_id (λ id,
          emit (λ _, FTextStart id)>>> emit (λ _, FTextContent id content)>>>
          emit (λ _, FTextEnd id))))>>>
  modify (with_streamed false).

Definition push (ev : AgentEvent) : Act :=
  match ev with
  | RunStarted _ => emit (λ m, FRunStarted (thread_id m) (run_id m))
  | TurnStarted _ =>
      close_text>>> close_call>>> close_step>>> modify (with_streamed false)>>> modify (with_step true)>>>
      emit (λ _, FStepStarted "turn")
  | TokenDelta text =>
      close_call>>> open_text_block KMessage>>>
      when (negb (is_empty text))
        (modify (with_streamed true)>>> emit (λ m, FTextContent (current_message m) text))
  | ReasoningDelta text =>
      close_call>>> open_text_block KThinking>>>
      when (negb (is_empty text)) (emit (λ m, FThinkingContent (current_message m) text))
  | ToolCallDelta call_id name args_delta => on_tool_delta call_id name args_delta
  | ToolCallItem (ToolCall call_id name args) => on_tool_item call_id name args
  | ToolCallItem _ => close_text>>> custom "helikon.unknown" ev
  | ToolOutputItem (ToolResult call_id content) =>
      close_call>>> close_text>>> emit (λ _, FToolCallResult call_id (text_of content))
  | ToolOutputItem _ => close_call>>> close_text>>> custom "helikon.unknown" ev
  | MessageOutput item => on_message item
  | HandoffItem _ _ => custom "helikon.handoff" ev
  | AgentUpdated _ => custom "helikon.agent_updated" ev
  | GuardrailTriggered _ _ => custom "helikon.guardrail" ev
  | ApprovalRequested _ _ _ => custom "helikon.approval" ev
  | PermissionDenied _ _ => custom "helikon.permission_denied" ev
  | RepairStarted _ => custom "helikon.repair" ev
  | StructuredOutputFailed _ _ => custom "helikon.structured_output_failed" ev
  | RunCompleted _ =>
      close_all>>> modify (with_streamed false)>>> emit (λ m, FRunFinished (thread_id m) (run_id m))
  | RunFailed error =>
      close_all>>> modify (with_streamed false)>>> emit (λ _, FRunError "AGENT_ERROR" error)
  end.

Definition finish : Act := close_all.

(** [push] over the events of a stream. *)
Fixpoint push_all (evs : list AgentEvent) : Act :=
  match evs with
  | [] => skip
  | ev :: evs' => push ev>>> push_all evs'
  end.

(** ** The SSE stream *)

Definition is_run_started (ev : AgentEvent) : bool :=
  match ev with RunStarted _ => true | _ => false end.

Record FrameGen := mkFrameGen {
  fg_rx : list AgentEvent;
  fg_mapper : EventMapper;
  fg_pending : list Frame;
  fg_finished : bool;
}.

(** [rx] holds the events the driver will have sent when it closes the channel. *)
Fixpoint next_frame_go (rx : list AgentEvent) (mapper : EventMapper) (pending : list Frame)
  : option (Frame * FrameGen) :=
  match pending with
  | f :: pending' => Some (f, mkFrameGen rx mapper pending' false)
  | [] =>
      match rx with
      | ev :: rx' =>
          if is_run_started ev then next_frame_go rx' mapper []
          else let '(out, mapper) := push ev mapper in next_frame_go rx' mapper out
      | [] =>
          let '(out, mapper) := finish mapper in
          match out with
          | f :: out' => Some (f, mkFrameGen [] mapper out' true)
          | [] => None
          end
      end
  end.

Definition next_frame (g : FrameGen) : option (Frame * FrameGen) :=
  if fg_finished g then
    match fg_pending g with
    | f :: pending => Some (f, mkFrameGen (fg_rx g) (fg_mapper g) pending true)
    | [] => None
    end
  else next_frame_go (fg_rx g) (fg_mapper g) (fg_pending g).

(** [stream::unfold], for at most [fuel] frames. *)
Fixpoint unfold_frames (fuel : nat) (g : FrameGen) : list Frame :=
  match fuel with
  | O => []
  | S fuel' => match next_frame g with
               | None => []
               | Some (f, g') => f :: unfold_frames fuel' g'
               end
  end.

Definition sse_start (thread_id run_id : string) (rx : list AgentEvent) : FrameGen :=
  mkFrameGen rx (EventMapper_new thread_id run_id) [FRunStarted thread_id run_id] false.

(** ** The request handler *)

Definition SESSION_HEADER : string := "x-amzn-bedrock-agentcore-runtime-session-id".
Definition MIN_SESSION_ID_LEN : nat := 33.
Definition MAX_SESSION_ID_LEN : nat := 256.

Definition validate_session_id (v : string) : result string string :=
  let len := String.length v in
  if (MIN_SESSION_ID_LEN <=? len)%nat && (len <=? MAX_SESSION_ID_LEN)%nat then Ok v
  else Err (SESSION_HEADER +:+ " must be between " +:+ pretty MIN_SESSION_ID_LEN +:+ " and " +:+
            pretty MAX_SESSION_ID_LEN +:+ " characters, got " +:+ pretty len).

(** The value of the header: absent, not printable, or a string. *)
Definition extract_session_id (header : option (option string)) : result (option string) string :=
  match header with
  | None => Ok None
  | Some None => Err (SESSION_HEADER +:+ " header value is not valid UTF-8")
  | Some (Some s) => match validate_session_id s with Ok v => Ok (Some v) | Err e => Err e end
  end.

(** The header wins over the body, the body over a fresh id. *)
Definition resolve_id (header body : option string) (uuid : string) : string :=
  match header with
  | Some id => id
  | None => default uuid body
  end.

(** The events the driver forwards: those of the run, or its failure to start. *)
Definition driver_events (r : result (list AgentEvent) string) : list AgentEvent :=
  match r with Ok evs => evs | Err e => [RunFailed e] end.

Inductive AgUiResponse : Type :=
| AgUiError (status : Z) (frame : Frame)
| AgUiStream (g : FrameGen).

Definition error_stream (status : Z) (code message : string) : AgUiResponse :=
  AgUiError status (FRunError code message).

(** [body] is the body as read and decoded; [built] the session and the context;
    [run] what the runner does on the input; the two UUIDs are those drawn when an
    id is missing. *)
Definition invocations (header : option (option string))
    (body : result (result RunAgentInput string) string) (built : result unit string)
    (uuid1 uuid2 : string) (run : list Item → result (list AgentEvent) string) : AgUiResponse :=
  match extract_session_id header with
  | Err e => error_stream 400 "VALIDATION_ERROR" ("bad request: " +:+ e)
  | Ok header_session =>
      match body with
      | Err e => error_stream 400 "VALIDATION_ERROR" ("failed to read request body: " +:+ e)
      | Ok (Err e) => error_stream 400 "VALIDATION_ERROR" ("invalid RunAgentInput body: " +:+ e)
      | Ok (Ok input) =>
          let thread := resolve_id header_session (rai_thread_id input) uuid1 in
          let run_id := default uuid2 (rai_run_id input) in
          match built with
          | Err e => error_stream 500 "INTERNAL_ERROR" e
          | Ok _ => AgUiStream (sse_start thread run_id (driver_events (run (into_agent_input input))))
          end
      end
  end.

(** ** The WebSocket connection *)

Inductive Inbound : Type :=
| InText (body : result RunAgentInput string) (built : result unit string) (uuid1 uuid2 : string)
| InBinary
| InClose
| InPing
| InEnd.

(** What the [select!] of the connection wakes up to: a message, with the events
    the run in flight still delivers once it is cancelled; an event of that run;
    the end of its channel. *)
Inductive WsInput : Type :=
| WsMessage (msg : Inbound) (tail : list AgentEvent)
| WsEvent (ev : AgentEvent)
| WsRunClosed.

Definition send_mapped (ev : AgentEvent) : Act := if is_run_started ev then skip else push ev.

Fixpoint send_tail (tail : list AgentEvent) : Act :=
  match tail with
  | [] => finish
  | ev :: tail' => send_mapped ev >>> send_tail tail'
  end.

(** [finish_run] of the run in flight, if any. *)
Definition finish_run (flight : option EventMapper) (tail : list AgentEvent) : list Frame :=
  match flight with Some m => (send_tail tail m).1 | None => [] end.

(** The frames one turn of the loop sends and the run in flight after it; [None]
    when the connection is over. *)
Definition ws_step (session_id : option string) (flight : option EventMapper) (inp : WsInput)
  : list Frame * option (option EventMapper) :=
  match inp with
  | WsMessage InPing _ => ([], Some flight)
  | WsMessage InBinary tail | WsMessage InClose tail | WsMessage InEnd tail =>
      (finish_run flight tail, None)
  | WsMessage (InText body built uuid1 uuid2) tail =>
      let flushed := finish_run flight tail in
      match body with
      | Err e =>
          (flushed ++ [FRunError "VALIDATION_ERROR" ("invalid RunAgentInput body: " +:+ e)], Some None)
      | Ok input =>
          match built with
          | Err e => (flushed ++ [FRunError "INTERNAL_ERROR" e], Some None)
          | Ok _ =>
              let thread := resolve_id session_id (rai_thread_id input) uuid1 in
              let run_id := default uuid2 (rai_run_id input) in
              (flushed ++ [FRunStarted thread run_id], Some (Some (EventMapper_new thread run_id)))
          end
      end
  | WsEvent ev =>
      match flight with
      | Some m => let '(out, m) := send_mapped ev m in (out, Some (Some m))
      | None => ([], Some None)
      end
  | WsRunClosed =>
      match flight with
      | Some m => ((finish m).1, Some None)
      | None => ([], Some None)
      end
  end.

(** The frames of a connection, and where it stands after them. *)
Fixpoint ws_run (session_id : option string) (flight : option EventMapper) (inps : list WsInput)
  : list Frame * option (option EventMapper) :=
  match inps with
  | [] => ([], Some flight)
  | inp :: inps' =>
      match ws_step session_id flight inp with
      | (out, None) => (out, None)
      | (out, Some flight) =>
          let '(out', rest) := ws_run session_id flight inps' in (out ++ out', rest)
      end
  end.
End Mapper.

(** ** A client *)

(** What a client has on screen: the one open span, and whether a step is
    open. *)
Inductive Span : Type :=
| SMessage (id : string)
| SThinking (id : string)
| SCall (id : string).

#[export] Instance Span_eq_dec : EqDecision Span.
Proof. solve_decision. Defined.

Record UiState := mkUiState { ui_span : option Span; ui_step : bool }.

Definition ui_idle : UiState := mkUiState None false.

#[export] Instance UiState_eq_dec : EqDecision UiState.
Proof. solve_decision. Defined.

Section Client.
Context `{J : SerdeJson}.

(** A strict client: it refuses a start inside a span, content or an end that is
    not of the open span, empty text, a step inside a step, and the start or the
    end of a run while anything is open. *)
Definition ui_accept (c : UiState) (f : Frame) : option UiState :=
  let open s := if decide (ui_span c = None) then Some (mkUiState (Some s) (ui_step c)) else None in
  let inside s := if decide (ui_span c = Some s) then Some c else None in
  let close s :=
    if decide (ui_span c = Some s) then Some (mkUiState None (ui_step c)) else None in
  let quiet := if decide (ui_span c = None) then Some c else None in
  let idle := if decide (c = ui_idle) then Some c else None in
  match f with
  | FRunStarted _ _ | FRunFinished _ _ | FRunError _ _ => idle
  | FStepStarted _ => if decide (c = ui_idle) then Some (mkUiState None true) else None
  | FStepFinished _ => if decide (c = mkUiState None true) then Some ui_idle else None
  | FTextStart id => open (SMessage id)
  | FTextContent id d => if is_empty d then None else inside (SMessage id)
  | FTextEnd id => close (SMessage id)
  | FThinkingStart id => open (SThinking id)
  | FThinkingContent id d => if is_empty d then None else inside (SThinking id)
  | FThinkingEnd id => close (SThinking id)
  | FToolCallStart id _ _ => open (SCall id)
  | FToolCallArgs id _ => inside (SCall id)
  | FToolCallEnd id => close (SCall id)
  | FToolCallResult _ _ => quiet
  | FCustom _ _ => Some c
  end.

Fixpoint ui_run (c : UiState) (fs : list Frame) : option UiState :=
  match fs with
  | [] => Some c
  | f :: fs' => match ui_accept c f with Some c' => ui_run c' fs' | None => None end
  end.

Lemma ui_run_app c fs1 fs2 :
  ui_run c (fs1 ++ fs2) = ui_run c fs1 ≫= λ c', ui_run c' fs2.
Proof. revert c. induction fs1 as [|f fs1 IH]; intros c; simpl; [done|]. by destruct (ui_accept c f). Qed.

(** The client state a mapper state stands for. *)
Definition ui_of (m : EventMapper) : UiState :=
  mkUiState
    (match open_text m with
     | OpenMessage => Some (SMessage (current_message m))
     | OpenThinking => Some (SThinking (current_message m))
     | NoText => SCall <$> open_call m
     end) (step_open m).

Definition exclusive (m : EventMapper) : Prop := open_text m = NoText ∨ open_call m = None.

(** From a state with [P] the client follows the frames of [a] into a state with
    [Q]. *)
Definition follows (P Q : EventMapper → Prop) (a : Act) : Prop :=
  ∀ m, exclusive m → P m →
    exclusive (a m).2 ∧ Q (a m).2 ∧ ui_run (ui_of m) (a m).1 = Some (ui_of (a m).2).

Definition any (m : EventMapper) : Prop := True.
Definition no_text (m : EventMapper) : Prop := open_text m = NoText.
Definition no_call (m : EventMapper) : Prop := open_call m = None.
Definition in_text (o : OpenText) (m : EventMapper) : Prop := open_text m = o ∧ open_call m = None.
Definition idle (m : EventMapper) : Prop := open_text m = NoText ∧ open_call m = None.
Definition closed (m : EventMapper) : Prop := idle m ∧ step_open m = false.

Lemma follows_seq P Q R a b : follows P Q a → follows Q R b → follows P R (a >>> b).
Proof.
  intros Ha Hb m Hm HP. destruct (Ha m Hm HP) as (Hm1 & HQ & Hr1).
  unfold andThen. destruct (a m) as [out1 m1]. simpl in *.
  destruct (Hb m1 Hm1 HQ) as (Hm2 & HR & Hr2). destruct (b m1) as [out2 m2]. simpl in *.
  by rewrite ui_run_app, Hr1.
Qed.

Lemma follows_reading {A} (q : EventMapper → A) P Q k :
  (∀ x, follows (λ m, P m ∧ q m = x) Q (k x)) → follows P Q (reading q k).
Proof. intros H m Hm HP. by apply (H (q m)). Qed.

Lemma follows_weaken P P' Q Q' a :
  follows P Q a → (∀ m, P' m → P m) → (∀ m, Q m → Q' m) → follows P' Q' a.
Proof. intros H HP HQ m Hm HP'. destruct (H m Hm (HP m HP')) as (? & ? & ?). auto. Qed.

Lemma follows_skip P : follows P P skip.
Proof. by intros m Hm HP. Qed.

(** Decides a method without loops by running it on every shape of a state. *)
Ltac ui_run_cases :=
  repeat match goal with
  | H : _ ∧ _ |- _ => destruct H
  | H : _ ∨ _ |- _ => destruct H
  | _ => progress (simplify_eq/=)
  | _ => rewrite decide_True by done
  | _ => rewrite decide_False by done
  | |- context [String.eqb ?a ?a] => rewrite String.eqb_refl
  | H : ?b = _ |- context [if ?b then _ else _] => rewrite H
  | |- context [match ?x with _ => _ end] => is_var x; destruct x
  end.
Ltac ui_cases :=
  intros m Hm HP; destruct m;
  unfold closed, exclusive, any, no_text, no_call, in_text, idle, ui_of in *; simpl in *;
  unfold andThen, reading, emit, modify, when, skip; simpl; ui_run_cases;
  repeat (split; auto).

Lemma close_text_follows : follows any no_text close_text.
Proof. unfold close_text. ui_cases. Qed.

Lemma close_text_idle : follows no_call idle close_text.
Proof. unfold close_text. ui_cases. Qed.

Lemma close_call_follows : follows any no_call close_call.
Proof. unfold close_call. ui_cases. Qed.

Lemma close_call_idle : follows no_text idle close_call.
Proof. unfold close_call. ui_cases. Qed.

Lemma open_text_block_follows kind : follows no_call (in_text (target kind)) (open_text_block kind).
Proof. unfold open_text_block, close_text, new_message_id. ui_cases. Qed.

Lemma flush_call_follows name id args : follows idle idle (flush_call name id args).
Proof. unfold flush_call. ui_cases. Qed.

Lemma flush_all_follows l : follows idle idle (flush_all l).
Proof.
  induction l as [|[id args] l IH]; simpl; [apply follows_skip|].
  eapply follows_seq; [apply flush_call_follows|done].
Qed.

Lemma close_step_follows : follows idle closed close_step.
Proof. unfold close_step. ui_cases. Qed.

Lemma close_all_follows : follows any closed close_all.
Proof.
  unfold close_all. eapply follows_seq; [apply close_text_follows|].
  eapply follows_seq; [apply close_call_idle|]. apply follows_reading. intros l.
  eapply follows_seq; [instantiate (1 := idle); ui_cases|].
  eapply follows_seq; [apply flush_all_follows|apply close_step_follows].
Qed.

Lemma take_buffered_follows P Q id k :
  (∀ m l, P m → P (with_calls (open_call m) (call_names m) l (completed_calls m) m)) →
  (∀ o, follows P Q (k o)) → follows P Q (take_buffered id k).
Proof.
  intros HP Hk. unfold take_buffered. apply follows_reading. intros l m Hm [H Hl].
  destruct (take_entry id l) as [[args l']|]; [|by apply Hk].
  pose proof (Hk (Some args) (with_calls (open_call m) (call_names m) l' (completed_calls m) m)
    Hm (HP m l' H)) as Hgo.
  unfold andThen, modify. simpl.
  by destruct (k (Some args) _) as [out m'].
Qed.

Context (to_value : AgentEvent → Value).

Lemma custom_follows name ev : follows any any (custom to_value name ev).
Proof. unfold custom. ui_cases. Qed.

Lemma on_tool_delta_follows id name d : follows any any (on_tool_delta id name d).
Proof.
  unfold on_tool_delta. eapply follows_seq; [apply close_text_follows|].
  eapply follows_seq;
    [instantiate (1 := no_text); intros m Hm HP; by destruct name, m|].
  apply follows_reading. intros [id'|].
  - destruct (String.eqb_spec id' id) as [->|Hne]; ui_cases.
  - eapply (follows_weaken idle); [|by intros m []|by intros m HQ; exact HQ].
    apply take_buffered_follows; [by intros m l []|]. intros [b|]; ui_cases.
Qed.

Lemma on_tool_item_follows id name args : follows any any (on_tool_item id name args).
Proof.
  assert (∀ b, follows no_text any (close_call >>> flush_call (λ _, name) id b)) as Hflush.
  { intros b. eapply follows_seq; [apply close_call_idle|].
    by eapply follows_weaken; [apply flush_call_follows| |]. }
  unfold on_tool_item. eapply follows_seq; [apply close_text_follows|].
  apply follows_reading. intros o. apply (follows_weaken no_text _ any any); [|by intros m []|done].
  destruct (decide (o = Some id)).
  - by eapply follows_weaken; [apply close_call_idle| |].
  - apply take_buffered_follows; [done|]. intros [b|]; [apply Hflush|].
    apply follows_reading. intros dn. apply (follows_weaken no_text _ any any); [|by intros m []|done].
    destruct (decide (id ∈ dn)); [|apply Hflush].
    by eapply follows_weaken; [apply follows_skip| |].
Qed.

Lemma on_message_follows item : follows any any (on_message item).
Proof.
  unfold on_message. eapply follows_seq; [apply close_call_follows|].
  apply follows_reading. intros s.
  eapply follows_seq; [eapply (follows_weaken no_call); [apply close_text_idle|by intros m []|done]|].
  apply (follows_seq _ idle any); [|ui_cases].
  destruct (negb s); simpl; [|apply follows_skip].
  set (content := match item with AssistantMessage c _ => text_of c | _ => "" end).
  destruct (is_empty content) eqn:He; simpl; [apply follows_skip|].
  unfold new_message_id. ui_cases.
Qed.

(** A run starts while nothing is open; every other event may come at any time. *)
Lemma push_follows ev :
  is_run_started ev = false →
  follows any (if is_terminal ev then closed else any) (push to_value ev).
Proof.
  intros Hev. destruct ev; try done; simpl; try apply custom_follows.
  - eapply follows_seq; [apply close_text_follows|]. eapply follows_seq; [apply close_call_idle|].
    eapply follows_seq; [apply close_step_follows|]. ui_cases.
  - eapply follows_seq; [apply close_call_follows|].
    eapply follows_seq; [apply (open_text_block_follows KMessage)|].
    destruct (is_empty text) eqn:He; simpl; [by eapply follows_weaken; [apply follows_skip| |]|].
    ui_cases.
  - eapply follows_seq; [apply close_call_follows|].
    eapply follows_seq; [apply (open_text_block_follows KThinking)|].
    destruct (is_empty text) eqn:He; simpl; [by eapply follows_weaken; [apply follows_skip| |]|].
    ui_cases.
  - apply on_tool_delta_follows.
  - apply on_message_follows.
  - destruct item; try (eapply follows_seq; [apply close_text_follows|];
      eapply follows_weaken; [apply custom_follows| |]; done).
    apply on_tool_item_follows.
  - destruct item; eapply follows_seq; try apply close_call_follows;
      eapply follows_seq; try apply close_text_idle;
      try (by eapply follows_weaken; [apply custom_follows| |]). ui_cases.
  - eapply follows_seq; [apply close_all_follows|]. ui_cases.
  - eapply follows_seq; [apply close_all_follows|]. ui_cases.
Qed.

Lemma push_all_follows evs :
  Forall (λ ev, is_run_started ev = false) evs → follows any any (push_all to_value evs).
Proof.
  induction 1 as [|ev evs Hev _ IH]; simpl; [apply follows_skip|].
  eapply follows_seq; [|apply IH]. eapply follows_weaken; [by apply push_follows|done|done].
Qed.
End Client.

(** ** What the frames carry *)

Section Carried.
Context `{J : SerdeJson}.

Definition is_final (f : Frame) : bool :=
  match f with FRunFinished _ _ | FRunError _ _ => true | _ => false end.
Definition is_start (f : Frame) : bool :=
  match f with FRunStarted _ _ => true | _ => false end.

(** The ids of the messages that start, in order. *)
Definition message_ids (fs : list Frame) : list string :=
  omap (λ f, match f with FTextStart id | FThinkingStart id => Some id | _ => None end) fs.

(** The argument text a client has assembled for a call, and the spans it has
    seen for it. *)
Fixpoint call_args (id : string) (fs : list Frame) : string :=
  match fs with
  | [] => ""
  | FToolCallArgs id' d :: fs' => if String.eqb id' id then d +:+ call_args id fs' else call_args id fs'
  | _ :: fs' => call_args id fs'
  end.

Definition call_spans (id : string) (fs : list Frame) : nat :=
  length (List.filter (λ f, match f with
    | FToolCallStart id' _ _ => String.eqb id' id | _ => false end) fs).

Lemma call_args_app id fs1 fs2 : call_args id (fs1 ++ fs2) = call_args id fs1 +:+ call_args id fs2.
Proof.
  induction fs1 as [|f fs1 IH]; simpl; [done|]. destruct f; try done.
  destruct (String.eqb call_id id); [|done]. by rewrite IH, string_app_assoc.
Qed.

Lemma call_spans_app id fs1 fs2 : call_spans id (fs1 ++ fs2) = (call_spans id fs1 + call_spans id fs2)%nat.
Proof. unfold call_spans. by rewrite List.filter_app, length_app. Qed.

Lemma message_ids_app fs1 fs2 : message_ids (fs1 ++ fs2) = message_ids fs1 ++ message_ids fs2.
Proof. unfold message_ids. by rewrite omap_app. Qed.

(** The text the events carry for a call: every delta, and the arguments of its
    item when the call was not mentioned before. *)
Fixpoint sent_args (id : string) (seen : bool) (evs : list AgentEvent) : string :=
  match evs with
  | [] => ""
  | ToolCallDelta id' _ d :: evs' =>
      if String.eqb id' id then d +:+ sent_args id true evs' else sent_args id seen evs'
  | ToolCallItem (ToolCall id' _ args) :: evs' =>
      if String.eqb id' id then (if seen then "" else to_string args) +:+ sent_args id true evs'
      else sent_args id seen evs'
  | _ :: evs' => sent_args id seen evs'
  end.

Definition mentions (id : string) (ev : AgentEvent) : bool :=
  match ev with
  | ToolCallDelta id' _ _ => String.eqb id' id
  | ToolCallItem (ToolCall id' _ _) => String.eqb id' id
  | _ => false
  end.

(** The events that may take the span from a call. *)
Definition closes_calls (ev : AgentEvent) : bool :=
  match ev with
  | TurnStarted _ | TokenDelta _ | ReasoningDelta _ | MessageOutput _ | ToolOutputItem _
  | RunCompleted _ | RunFailed _ => true
  | ToolCallItem (ToolCall _ _ _) => true
  | _ => false
  end.

(** No delta of the call arrives after one of those, once the call is under
    way. *)
Inductive Phase : Type := Unseen | Streaming | Done.

Fixpoint contiguous (id : string) (p : Phase) (evs : list AgentEvent) : bool :=
  match evs with
  | [] => true
  | ev :: evs' =>
      match p with
      | Unseen => contiguous id (if negb (mentions id ev) then Unseen
                                 else if closes_calls ev then Done else Streaming) evs'
      | Streaming => contiguous id (if closes_calls ev then Done else Streaming) evs'
      | Done => (closes_calls ev || negb (mentions id ev)) && contiguous id Done evs'
      end
  end.
End Carried.

Section Calls.
Context `{J : SerdeJson}.

(** What the mapper knows of one call. *)
Definition entry (id : string) (l : list (string * string)) : option string := fst <$> take_entry id l.
Definition kept (id : string) (m : EventMapper) : string := default "" (entry id (buffered_calls m)).
Definition waiting (id : string) (m : EventMapper) : bool := bool_decide (id ∈ (buffered_calls m).*1).
Definition is_open (id : string) (m : EventMapper) : bool := bool_decide (open_call m = Some id).
Definition active (id : string) (m : EventMapper) : bool := is_open id m || waiting id m.
Definition seen (id : string) (m : EventMapper) : bool :=
  active id m || bool_decide (id ∈ completed_calls m).

(** A call is buffered at most once, and not while it is open. *)
Record calls_ok (m : EventMapper) : Prop := {
  ok_keys : NoDup (buffered_calls m).*1;
  ok_open : ∀ id, open_call m = Some id → id ∉ (buffered_calls m).*1;
}.

Lemma entry_cons id k a l :
  entry id ((k, a) :: l) = if String.eqb k id then Some a else entry id l.
Proof.
  unfold entry. simpl. destruct (String.eqb k id); [done|]. by destruct (take_entry id l) as [[? ?]|].
Qed.

Lemma entry_None id l : id ∉ l.*1 → entry id l = None.
Proof.
  induction l as [|[k a] l IH]; [done|]. rewrite entry_cons, fmap_cons, not_elem_of_cons. intros [Hk Hl].
  destruct (String.eqb_spec k id); [by simplify_eq/=|auto].
Qed.

Lemma take_entry_None id l : take_entry id l = None → id ∉ l.*1.
Proof.
  induction l as [|[k a] l IH]; simpl; [intros _; apply not_elem_of_nil|].
  destruct (String.eqb_spec k id); [done|].
  destruct (take_entry id l) as [[? ?]|]; [done|]. intros _. rewrite not_elem_of_cons. auto.
Qed.

Lemma take_entry_Some id l args l' :
  NoDup l.*1 → take_entry id l = Some (args, l') →
  id ∈ l.*1 ∧ (id ∉ l'.*1) ∧ NoDup l'.*1 ∧
  (∀ k, k ≠ id → entry k l' = entry k l ∧ (k ∈ l'.*1 ↔ k ∈ l.*1)).
Proof.
  revert l'. induction l as [|[k0 a0] l IH]; intros l'; [done|].
  rewrite fmap_cons, NoDup_cons. simpl. intros [Hk0 Hn]. destruct (String.eqb_spec k0 id) as [->|Hne].
  - intros [= <- <-]. split_and!; [set_solver|done|done|]. intros k Hk. rewrite entry_cons.
    destruct (String.eqb_spec id k); [congruence|]. set_solver.
  - destruct (take_entry id l) as [[a l2]|]; [|done]. intros [= <- <-].
    destruct (IH l2 Hn eq_refl) as (? & ? & ? & Hother). rewrite fmap_cons. simpl.
    assert (k0 ∉ l2.*1) by (rewrite (proj2 (Hother k0 Hne)); done).
    split_and!; [set_solver|set_solver|by constructor|]. intros k Hk.
    destruct (Hother k Hk) as [He Hm]. rewrite !entry_cons, He. set_solver.
Qed.

Lemma push_entry_spec id d l :
  NoDup l.*1 →
  NoDup (push_entry id d l).*1
  ∧ entry id (push_entry id d l) = Some (default "" (entry id l) +:+ d)
  ∧ (∀ k, k ∈ (push_entry id d l).*1 ↔ k = id ∨ k ∈ l.*1)
  ∧ (∀ k, k ≠ id → entry k (push_entry id d l) = entry k l).
Proof.
  induction l as [|[k0 a0] l IH]; intros Hn; simpl.
  - rewrite entry_cons, String.eqb_refl. split_and!; [apply NoDup_singleton|done|set_solver|].
    intros k Hk. rewrite entry_cons. by destruct (String.eqb_spec id k).
  - rewrite fmap_cons, NoDup_cons in Hn. destruct Hn as [Hk0 Hn]. simpl in Hk0.
    rewrite (entry_cons id). destruct (String.eqb_spec k0 id) as [->|Hne]; rewrite fmap_cons; simpl.
    + rewrite entry_cons, String.eqb_refl. split_and!; [by constructor|done|set_solver|].
      intros k Hk. rewrite !entry_cons. by destruct (String.eqb_spec id k).
    + destruct (IH Hn) as (IH1 & IH2 & IH3 & IH4). rewrite entry_cons.
      destruct (String.eqb_spec k0 id); [done|]. split_and!; [|done| |].
      * constructor; [|done]. rewrite IH3. by intros [->|?].
      * intros k. rewrite !elem_of_cons, IH3. naive_solver.
      * intros k Hk. rewrite !entry_cons. by rewrite IH4.
Qed.

(** The effect of a method on a call: the text and the spans of the frames, with
    what is still kept back, add [txt] and [n] to what was kept before. *)
Record effect (id : string) (txt : string) (n : nat) (now : bool)
    (m : EventMapper) (r : list Frame * EventMapper) : Prop := {
  ef_ok : calls_ok r.2;
  ef_args : call_args id r.1 +:+ kept id r.2 = kept id m +:+ txt;
  ef_spans : (call_spans id r.1 + Nat.b2n (waiting id r.2) = Nat.b2n (waiting id m) + n)%nat;
  ef_seen : seen id r.2 = seen id m || now;
}.

Lemma effect_seq id t1 t2 n1 n2 b1 b2 a b m :
  effect id t1 n1 b1 m (a m) → effect id t2 n2 b2 (a m).2 (b (a m).2) →
  effect id (t1 +:+ t2) (n1 + n2) (b1 || b2) m ((a >>> b) m).
Proof.
  unfold andThen. destruct (a m) as [o1 m1]. simpl. destruct (b m1) as [o2 m2].
  intros [H1 H2 H3 H4] [H5 H6 H7 H8]. simpl in *. split; simpl; [done| | |].
  - by rewrite call_args_app, string_app_assoc, H6, <-string_app_assoc, H2, string_app_assoc.
  - rewrite call_spans_app. lia.
  - rewrite H8, H4. by destruct (seen id m), b1, b2.
Qed.

Lemma effect_quiet id m m' out :
  calls_ok m → open_call m' = open_call m → buffered_calls m' = buffered_calls m →
  completed_calls m' = completed_calls m → call_args id out = "" → call_spans id out = 0%nat →
  effect id "" 0 false m (out, m').
Proof.
  intros [H1 H2] Ho Hb Hc Ha Hs. split; simpl.
  - split; rewrite Hb; [done|]. intros k. rewrite Ho. apply H2.
  - unfold kept. by rewrite Ha, Hb, string_app_nil_r.
  - unfold waiting. rewrite Hs, Hb. lia.
  - unfold seen, active, is_open, waiting. by rewrite Ho, Hb, Hc, orb_false_r.
Qed.

Definition quiet (a : Act) : Prop := ∀ id m,
  open_call (a m).2 = open_call m ∧ buffered_calls (a m).2 = buffered_calls m
  ∧ completed_calls (a m).2 = completed_calls m
  ∧ call_args id (a m).1 = "" ∧ call_spans id (a m).1 = 0%nat.

Lemma quiet_effect id a m : quiet a → calls_ok m → effect id "" 0 false m (a m).
Proof.
  intros H Hm. destruct (H id m) as (? & ? & ? & ? & ?). destruct (a m). by apply effect_quiet.
Qed.

Lemma quiet_seq a b : quiet a → quiet b → quiet (a >>> b).
Proof.
  intros Ha Hb id m. specialize (Ha id m). unfold andThen. destruct (a m) as [o1 m1].
  specialize (Hb id m1). destruct (b m1) as [o2 m2]. simpl in *.
  destruct Hb as (-> & -> & -> & Hb1 & Hb2), Ha as (-> & -> & -> & Ha1 & Ha2).
  by rewrite call_args_app, call_spans_app, Ha1, Ha2, Hb1, Hb2.
Qed.

Ltac quiet_cases :=
  let i := fresh in let s := fresh in intros i s; destruct s;
  unfold andThen, reading, emit, modify, when, skip; simpl;
  repeat case_match; simplify_eq/=; done.

Lemma close_text_quiet : quiet close_text.
Proof. unfold close_text. quiet_cases. Qed.

Lemma open_text_block_quiet kind : quiet (open_text_block kind).
Proof. unfold open_text_block, close_text, new_message_id. quiet_cases. Qed.

Lemma close_step_quiet : quiet close_step.
Proof. unfold close_step. quiet_cases. Qed.

(** Closing moves the open call to the completed ones. *)
Lemma close_call_effect id m :
  calls_ok m →
  effect id "" 0 false m (close_call m) ∧ open_call (close_call m).2 = None
  ∧ buffered_calls (close_call m).2 = buffered_calls m
  ∧ completed_calls m ⊆ completed_calls (close_call m).2
  ∧ (∀ k, open_call m = Some k → k ∈ completed_calls (close_call m).2).
Proof.
  intros Hm. pose proof Hm as [H1 H2]. unfold close_call, reading. destruct (open_call m) as [k|] eqn:Ho; simpl.
  - split_and!; [|done|done|set_solver|intros; set_solver]. split; simpl; [by split| | |].
    + unfold kept. simpl. by rewrite string_app_nil_r.
    + unfold waiting. simpl. unfold call_spans. simpl. lia.
    + unfold seen, active, is_open, waiting. simpl. rewrite Ho, orb_false_r.
      rewrite (bool_decide_ext (id ∈ {[k]} ∪ completed_calls m)
        (Some k = Some id ∨ id ∈ completed_calls m)) by set_solver.
      rewrite bool_decide_or. simpl. by repeat case_bool_decide.
  - split_and!; [|done|done|done|done]. apply effect_quiet; try done.
Qed.

Lemma flush_call_effect (name : EventMapper → string) k args id m :
  (flush_call name k args m).2 = mark_completed k m
  ∧ call_args id (flush_call name k args m).1 = (if String.eqb k id then args else "")
  ∧ call_spans id (flush_call name k args m).1 = Nat.b2n (String.eqb k id).
Proof.
  unfold flush_call, andThen, emit, modify, call_spans. simpl.
  destruct (String.eqb k id); simpl; by rewrite ?string_app_nil_r.
Qed.

Lemma flush_all_effect l id m :
  NoDup l.*1 →
  open_call (flush_all l m).2 = open_call m ∧ buffered_calls (flush_all l m).2 = buffered_calls m
  ∧ completed_calls (flush_all l m).2 = list_to_set l.*1 ∪ completed_calls m
  ∧ call_args id (flush_all l m).1 = default "" (entry id l)
  ∧ call_spans id (flush_all l m).1 = Nat.b2n (bool_decide (id ∈ l.*1)).
Proof.
  revert m. induction l as [|[k a] l IH]; intros m Hn; simpl.
  - split_and!; [done|done|set_solver|done|done].
  - apply NoDup_cons in Hn as [Hk Hn]. simpl in Hk.
    destruct (flush_call_effect (λ m, name_of m k) k a id m) as (H1 & H2 & H3).
    specialize (IH (mark_completed k m) Hn) as (IH1 & IH2 & IH3 & IH4 & IH5).
    unfold andThen. destruct (flush_call _ k a m) as [o1 m1]. simpl in *. subst m1.
    destruct (flush_all l (mark_completed k m)) as [o2 m2]. simpl in *.
    rewrite call_args_app, call_spans_app, H2, H3, IH4, IH5, entry_cons.
    split_and!; [done|done| | |].
    + rewrite IH3. simpl. set_solver.
    + destruct (String.eqb_spec k id) as [->|]; [|done]. by rewrite (entry_None id), string_app_nil_r.
    + destruct (String.eqb_spec k id) as [->|].
      * rewrite bool_decide_false by done. by rewrite bool_decide_true by set_solver.
      * simpl. f_equal. apply bool_decide_ext. set_solver.
Qed.

(** At the end nothing is open and nothing is kept back. *)
Lemma close_all_effect id m :
  calls_ok m →
  effect id "" 0 false m (close_all m) ∧ open_call (close_all m).2 = None
  ∧ buffered_calls (close_all m).2 = [].
Proof.
  intros Hm. pose proof (quiet_effect id _ m close_text_quiet Hm) as Htext.
  unfold close_all. set (m1 := (close_text m).2) in *.
  destruct (close_call_effect id m1) as (Hcall & Ho & Hb & _); [by apply Htext|].
  set (m2 := (close_call m1).2) in *.
  set (rest := reading _ _). enough (effect id "" 0 false m2 (rest m2)
    ∧ open_call (rest m2).2 = None ∧ buffered_calls (rest m2).2 = []) as (Hr & Hr1 & Hr2).
  { pose proof (effect_seq id "" "" 0 0 false false close_call rest m1 Hcall Hr) as H2.
    pose proof (effect_seq id "" "" 0 0 false false close_text (close_call >>> rest) m Htext H2) as H3.
    split; [exact H3|]. unfold andThen. fold m1. destruct (close_text m) as [o1 m1'] eqn:E1.
    subst m1. simpl in *. subst m2. destruct (close_call m1') as [o2 m2']. simpl in *.
    by destruct (rest m2'). }
  assert (calls_ok m2) as Hok by apply Hcall.
  subst rest. unfold reading. set (l := buffered_calls m2) in *.
  set (m3 := with_calls (open_call m2) (call_names m2) [] (completed_calls m2) m2).
  destruct (flush_all_effect l id m3) as (F1 & F2 & F3 & F4 & F5); [apply Hok|].
  pose proof (close_step_quiet id (flush_all l m3).2) as (S1 & S2 & S3 & S4 & S5).
  unfold andThen, modify. fold m3. destruct (flush_all l m3) as [o4 m4]. simpl in *.
  destruct (close_step m4) as [o5 m5]. simpl in *.
  rewrite S1, S2, F1, F2, Ho. split; [|done]. split; simpl.
  - split; [rewrite S2, F2; constructor|]. intros k. by rewrite S1, F1, Ho.
  - rewrite call_args_app, F4, S4. unfold kept. rewrite S2, F2. simpl. by rewrite !string_app_nil_r.
  - rewrite call_spans_app, F5, S5. unfold waiting. rewrite S2, F2. fold l. simpl. lia.
  - unfold seen, active, is_open, waiting. rewrite S1, S2, S3, F1, F2, F3, Ho. fold l. simpl.
    rewrite orb_false_r. rewrite (bool_decide_ext (id ∈ list_to_set l.*1 ∪ completed_calls m2)
      (id ∈ l.*1 ∨ id ∈ completed_calls m2)) by set_solver.
    by rewrite bool_decide_or.
Qed.

(** The text an event carries for a call, and whether it begins a span. *)
Definition carries (id : string) (seen : bool) (ev : AgentEvent) : string :=
  match ev with
  | ToolCallDelta id' _ d => if String.eqb id' id then d else ""
  | ToolCallItem (ToolCall id' _ args) =>
      if String.eqb id' id then if seen then "" else to_string args else ""
  | _ => ""
  end.

Definition begins (id : string) (m : EventMapper) (ev : AgentEvent) : nat :=
  Nat.b2n (mentions id ev &&
    negb (match ev with ToolCallDelta _ _ _ => active id m | _ => seen id m end)).

(** A quiet method in front changes nothing for a call. *)
Lemma quiet_view id a m :
  quiet a → seen id (a m).2 = seen id m ∧ active id (a m).2 = active id m.
Proof.
  intros H. destruct (H id m) as (Ho & Hb & Hc & _).
  unfold seen, active, is_open, waiting. by rewrite Ho, Hb, Hc.
Qed.

Lemma quiet_before id txt n now a b m :
  quiet a → calls_ok m → (calls_ok (a m).2 → effect id txt n now (a m).2 (b (a m).2)) →
  effect id txt n now m ((a >>> b) m).
Proof.
  intros Ha Hm Hb. pose proof (quiet_effect id a m Ha Hm) as He.
  pose proof (effect_seq id "" txt 0 n false now a b m He (Hb (ef_ok _ _ _ _ _ _ He))) as Hs. exact Hs.
Qed.

Lemma record_name_quiet k name : quiet (modify (record_name k name)).
Proof. unfold record_name. intros id m. by destruct name, m. Qed.

Definition delta_core (k d : string) : Act :=
  o <-? open_call >>>
  match o with
  | Some id =>
      if String.eqb id k then emit (λ _, FToolCallArgs k d)
      else modify (λ m, with_calls (open_call m) (call_names m)
             (push_entry k d (buffered_calls m)) (completed_calls m) m)
  | None =>
      take_buffered k (λ buffered,
        emit (λ m, FToolCallStart k (name_of m k) (current_message m)) >>>
        match buffered with Some b => emit (λ _, FToolCallArgs k b) | None => skip end >>>
        emit (λ _, FToolCallArgs k d) >>>
        modify (set_open_call (Some k)))
  end.

(** The views of a call, with the fields of the state they read exposed. *)
Ltac view := unfold kept, seen, active, is_open, waiting; simpl.

Lemma delta_continues k d id m :
  calls_ok m → open_call m = Some k →
  effect id (if String.eqb k id then d else "") 0 (String.eqb k id) m (delta_core k d m).
Proof.
  intros [H1 H2] Ho. unfold delta_core, reading, emit. rewrite Ho, String.eqb_refl. split; simpl.
  - by split.
  - destruct (String.eqb_spec k id) as [->|]; view; rewrite ?string_app_nil_r; [|done].
    rewrite (entry_None id) by auto. simpl. by rewrite string_app_nil_r.
  - unfold call_spans. simpl. lia.
  - view. rewrite Ho. destruct (String.eqb_spec k id) as [->|]; [|by rewrite orb_false_r].
    by rewrite bool_decide_true by done.
Qed.

Lemma delta_waits k d o id m :
  calls_ok m → open_call m = Some o → o ≠ k →
  effect id (if String.eqb k id then d else "")
    (Nat.b2n (String.eqb k id && negb (active id m))) (String.eqb k id) m (delta_core k d m).
Proof.
  intros [H1 H2] Ho Hne. unfold delta_core, reading, modify. rewrite Ho.
  rewrite (proj2 (String.eqb_neq o k)) by done.
  destruct (push_entry_spec k d (buffered_calls m) H1) as (P1 & P2 & P3 & P4).
  split; simpl.
  - split; simpl; [done|]. intros k'. rewrite Ho, P3. intros [= <-] [?|?]; [done|]. by eapply H2.
  - view. destruct (String.eqb_spec k id) as [->|]; [by rewrite P2|].
    by rewrite P4, string_app_nil_r.
  - view. rewrite (bool_decide_ext _ _ (P3 id)). rewrite Ho, bool_decide_or.
    destruct (String.eqb_spec k id) as [->|Hk].
    + rewrite (bool_decide_true (id = id)) by done. rewrite (bool_decide_false (Some o = Some id)) by congruence.
      simpl. by destruct (bool_decide (id ∈ (buffered_calls m).*1)).
    + rewrite (bool_decide_false (id = k)) by congruence. simpl. lia.
  - view. rewrite Ho, (bool_decide_ext _ _ (P3 id)), bool_decide_or.
    destruct (String.eqb_spec k id) as [->|Hk].
    + rewrite (bool_decide_true (id = id)) by done. simpl. by rewrite !orb_true_r.
    + rewrite (bool_decide_false (id = k)) by congruence. by rewrite orb_false_r.
Qed.

Lemma delta_opens k d id m :
  calls_ok m → open_call m = None →
  effect id (if String.eqb k id then d else "")
    (Nat.b2n (String.eqb k id && negb (active id m))) (String.eqb k id) m (delta_core k d m).
Proof.
  intros [H1 H2] Ho. unfold delta_core, reading, take_buffered, reading, andThen, emit, modify, skip.
  rewrite Ho. destruct (take_entry k (buffered_calls m)) as [[b l']|] eqn:Ht; simpl.
  - destruct (take_entry_Some _ _ _ _ H1 Ht) as (T1 & T2 & T3 & T4).
    assert (entry k (buffered_calls m) = Some b) as Hb by (unfold entry; by rewrite Ht).
    split; simpl.
    + split; simpl; [done|]. intros k'. by intros [= <-].
    + view. destruct (String.eqb_spec k id) as [->|Hk]; simpl.
      * rewrite Hb, (entry_None id l') by done. simpl. by rewrite !string_app_nil_r.
      * rewrite (proj1 (T4 id (not_eq_sym Hk))). by rewrite string_app_nil_r.
    + view. unfold call_spans. simpl. rewrite Ho. destruct (String.eqb_spec k id) as [->|Hk]; simpl.
      * rewrite (bool_decide_false (id ∈ l'.*1)), (bool_decide_true (id ∈ (buffered_calls m).*1)) by done.
        done.
      * rewrite (bool_decide_ext _ _ (proj2 (T4 id (not_eq_sym Hk)))). lia.
    + view. rewrite Ho. destruct (String.eqb_spec k id) as [->|Hk]; simpl.
      * rewrite (bool_decide_true (Some id = Some id)) by done. by rewrite orb_true_r.
      * rewrite (bool_decide_ext _ _ (proj2 (T4 id (not_eq_sym Hk)))).
        rewrite (bool_decide_false (Some k = Some id)) by congruence. by rewrite orb_false_r.
  - pose proof (take_entry_None _ _ Ht) as Hk. split; simpl.
    + split; simpl; [done|]. intros k'. by intros [= <-].
    + view. destruct (String.eqb_spec k id) as [->|]; simpl; [|by rewrite string_app_nil_r].
      rewrite (entry_None id) by done. simpl. by rewrite !string_app_nil_r.
    + view. unfold call_spans. simpl. rewrite Ho. destruct (String.eqb_spec k id) as [->|]; simpl; [|lia].
      rewrite (bool_decide_false (id ∈ _)) by done. done.
    + view. rewrite Ho. destruct (String.eqb_spec k id) as [->|]; simpl.
      * rewrite (bool_decide_true (Some id = Some id)) by done. by rewrite orb_true_r.
      * rewrite (bool_decide_false (Some k = Some id)) by congruence. by rewrite orb_false_r.
Qed.

Lemma on_tool_delta_effect id k name d m :
  calls_ok m →
  effect id (if String.eqb k id then d else "")
    (Nat.b2n (String.eqb k id && negb (active id m))) (String.eqb k id) m (on_tool_delta k name d m).
Proof.
  intros Hm. unfold on_tool_delta. fold (delta_core k d).
  rewrite <-(proj2 (quiet_view id _ m close_text_quiet)).
  apply quiet_before; [apply close_text_quiet|done|]. intros Hm1.
  rewrite <-(proj2 (quiet_view id _ _ (record_name_quiet k name))).
  apply quiet_before; [apply record_name_quiet|done|]. intros Hm2.
  set (m2 := (modify _ _).2) in *. destruct (open_call m2) as [o|] eqn:Ho.
  - destruct (String.eqb_spec o k) as [->|Hne]; [|by eapply delta_waits].
    replace (Nat.b2n _) with 0%nat; [by apply delta_continues|].
    destruct (String.eqb_spec k id) as [->|]; [|done]. unfold active, is_open.
    rewrite Ho, bool_decide_true by done. done.
  - by apply delta_opens.
Qed.

Lemma mark_completed_effect id k m :
  calls_ok m →
  kept id (mark_completed k m) = kept id m ∧ waiting id (mark_completed k m) = waiting id m
  ∧ seen id (mark_completed k m) = seen id m || String.eqb k id.
Proof.
  intros _. split_and!; [done|done|]. view.
  rewrite (bool_decide_ext (id ∈ {[k]} ∪ completed_calls m) (id ∈ completed_calls m ∨ k = id))
    by set_solver.
  rewrite bool_decide_or. rewrite orb_assoc. f_equal.
  destruct (String.eqb_spec k id) as [->|]; [by rewrite bool_decide_true|by rewrite bool_decide_false].
Qed.

(** A complete span of a call that is not kept back, after the open call has been
    closed. *)
Lemma flush_effect (name : EventMapper → string) k a id m :
  calls_ok m → k ∉ (buffered_calls m).*1 →
  effect id (if String.eqb k id then a else "") (Nat.b2n (String.eqb k id)) (String.eqb k id) m
    ((close_call >>> flush_call name k a) m).
Proof.
  intros Hm Hk. destruct (close_call_effect id m Hm) as (Hc & _ & Hb & _).
  apply (effect_seq id "" _ 0 _ false _ close_call (flush_call name k a) m Hc).
  set (m1 := (close_call m).2) in *. pose proof (ef_ok _ _ _ _ _ _ Hc) as Hok. fold m1 in Hok.
  destruct (flush_call_effect name k a id m1) as (H1 & H2 & H3).
  destruct (mark_completed_effect id k m1 Hok) as (M1 & M2 & M3).
  destruct (flush_call name k a m1) as [out m2]. cbn [fst snd] in H1, H2, H3. subst m2. split; cbn [fst snd].
  - destruct Hok. by split.
  - rewrite H2, M1. destruct (String.eqb_spec k id) as [->|]; [|by rewrite string_app_nil_r].
    unfold kept. rewrite Hb, entry_None by done. simpl. by rewrite string_app_nil_r.
  - rewrite H3, M2. destruct (String.eqb k id); simpl; lia.
  - done.
Qed.

Lemma effect_seen id t n m r :
  effect id t n false m r → seen id m = true → effect id t n true m r.
Proof. intros [H1 H2 H3 H4] Hs. split; try done. by rewrite H4, Hs. Qed.

(** A method that does nothing for a call that has been seen, or that is not the
    one it is about. *)
Lemma effect_known id k (x : string) m r :
  effect id "" 0 false m r → (k = id → seen id m = true) →
  effect id (if String.eqb k id then if seen id m then "" else x else "")
    (Nat.b2n (String.eqb k id && negb (seen id m))) (String.eqb k id) m r.
Proof.
  intros He Hs. destruct (String.eqb_spec k id) as [->|]; [|done].
  rewrite Hs by done. apply effect_seen; [done|by apply Hs].
Qed.

Definition item_core (k name : string) (args : Value) : Act :=
  o <-? open_call >>>
  if decide (o = Some k) then close_call
  else take_buffered k (λ buffered,
    match buffered with
    | Some b => close_call >>> flush_call (λ _, name) k b
    | None =>
        done <-? completed_calls >>>
        if decide (k ∈ done) then skip
        else close_call >>> flush_call (λ _, name) k (to_string args)
    end).

Lemma item_core_effect k name args id m :
  calls_ok m →
  effect id (if String.eqb k id then if seen id m then "" else to_string args else "")
    (Nat.b2n (String.eqb k id && negb (seen id m))) (String.eqb k id) m (item_core k name args m).
Proof.
  intros Hm. pose proof Hm as [H1 H2]. unfold item_core, reading.
  destruct (decide (open_call m = Some k)) as [Ho|Ho].
  { apply effect_known; [by apply close_call_effect|]. intros ->.
    unfold seen, active, is_open. by rewrite bool_decide_true. }
  unfold take_buffered, reading. destruct (take_entry k (buffered_calls m)) as [[b l']|] eqn:Ht.
  - destruct (take_entry_Some _ _ _ _ H1 Ht) as (T1 & T2 & T3 & T4).
    assert (entry k (buffered_calls m) = Some b) as Hb by (unfold entry; by rewrite Ht).
    set (m' := with_calls (open_call m) (call_names m) l' (completed_calls m) m).
    assert (calls_ok m') as Hm'.
    { split; [done|]. intros k' Hk'. destruct (decide (k' = k)) as [->|Hne]; [done|].
      change (k' ∉ l'.*1). rewrite (proj2 (T4 k' Hne)). by apply H2. }
    destruct (flush_effect (λ _, name) k b id m' Hm' T2) as [F1 F2 F3 F4].
    unfold andThen at 1. unfold modify. fold m'.
    destruct ((close_call >>> flush_call _ k b) m') as [out m2]. cbn [fst snd] in F1, F2, F3, F4.
    split; [done| | |]; cbn [fst snd app].
    + rewrite F2. unfold kept. destruct (String.eqb_spec k id) as [->|Hk].
      * unfold m', seen, active, waiting. simpl. rewrite Hb, (entry_None id l') by done.
        rewrite (bool_decide_true (id ∈ (buffered_calls m).*1)) by done.
        rewrite orb_true_r. simpl. by rewrite string_app_nil_r.
      * unfold m'. simpl. by rewrite (proj1 (T4 id (not_eq_sym Hk))).
    + rewrite F3. unfold m', seen, active, waiting. simpl. destruct (String.eqb_spec k id) as [->|Hk]; simpl.
      * rewrite (bool_decide_true (id ∈ (buffered_calls m).*1)), (bool_decide_false (id ∈ l'.*1)) by done.
        by rewrite orb_true_r.
      * by rewrite (bool_decide_ext _ _ (proj2 (T4 id (not_eq_sym Hk)))).
    + rewrite F4. unfold m', seen, active, is_open, waiting. simpl.
      destruct (String.eqb_spec k id) as [->|Hk]; [by rewrite !orb_true_r|].
      by rewrite (bool_decide_ext _ _ (proj2 (T4 id (not_eq_sym Hk)))).
  - apply take_entry_None in Ht. destruct (decide (k ∈ completed_calls m)) as [Hd|Hd].
    + apply effect_known; [by apply effect_quiet|]. intros ->.
      unfold seen. rewrite (bool_decide_true (id ∈ completed_calls m)) by done. apply orb_true_r.
    + pose proof (flush_effect (λ _, name) k (to_string args) id m Hm Ht) as F.
      destruct (String.eqb_spec k id) as [->|]; [|done].
      assert (seen id m = false) as Hs.
      { unfold seen, active, is_open, waiting. by rewrite !bool_decide_false. }
      by rewrite Hs.
Qed.

Lemma on_tool_item_effect id k name args m :
  calls_ok m →
  effect id (if String.eqb k id then if seen id m then "" else to_string args else "")
    (Nat.b2n (String.eqb k id && negb (seen id m))) (String.eqb k id) m (on_tool_item k name args m).
Proof.
  intros Hm. unfold on_tool_item. fold (item_core k name args).
  rewrite <-(proj1 (quiet_view id _ m close_text_quiet)).
  apply quiet_before; [apply close_text_quiet|done|]. intros Hm1. by apply item_core_effect.
Qed.

Lemma delta_core_active k d id m :
  calls_ok m → active id (delta_core k d m).2 = active id m || String.eqb k id.
Proof.
  intros [H1 H2]. unfold delta_core, reading, take_buffered, reading, andThen, emit, modify, skip, active,
    is_open, waiting. destruct (open_call m) as [o|] eqn:Ho.
  - destruct (String.eqb_spec o k) as [->|Hne]; simpl; rewrite Ho.
    + destruct (String.eqb_spec k id) as [->|]; [by rewrite bool_decide_true|by rewrite orb_false_r].
    + destruct (push_entry_spec k d (buffered_calls m) H1) as (_ & _ & P3 & _).
      rewrite (bool_decide_ext _ _ (P3 id)), bool_decide_or.
      destruct (String.eqb_spec k id) as [->|]; [|by rewrite (bool_decide_false (id = k)), orb_false_r].
      by rewrite (bool_decide_true (id = id)), !orb_true_r.
  - assert (∀ ks : list string, (k ≠ id → bool_decide (id ∈ ks) = bool_decide (id ∈ (buffered_calls m).*1)) →
      bool_decide (Some k = Some id) || bool_decide (id ∈ ks)
      = bool_decide (id ∈ (buffered_calls m).*1) || String.eqb k id) as Hk.
    { intros ks Hks. destruct (String.eqb_spec k id) as [->|Hne].
      - by rewrite bool_decide_true, orb_true_r.
      - rewrite Hks, (bool_decide_false (Some k = Some id)) by congruence. by rewrite orb_false_r. }
    destruct (take_entry k (buffered_calls m)) as [[b l']|] eqn:Ht; simpl; [|by apply Hk].
    destruct (take_entry_Some _ _ _ _ H1 Ht) as (_ & _ & _ & T4). apply Hk. intros Hne.
    apply bool_decide_ext, T4. congruence.
Qed.

Context (to_value : AgentEvent → Value).

Lemma custom_quiet name ev : quiet (custom to_value name ev).
Proof. unfold custom. quiet_cases. Qed.

Lemma on_message_quiet_rest item :
  quiet (s <-? streamed_text >>> close_text >>>
    when (negb s)
      (let content := match item with AssistantMessage content _ => text_of content | _ => "" end in
       when (negb (is_empty content))
         (new_message_id (λ id,
            emit (λ _, FTextStart id) >>> emit (λ _, FTextContent id content) >>>
            emit (λ _, FTextEnd id)))) >>>
    modify (with_streamed false)).
Proof.
  unfold new_message_id, close_text. cbv zeta.
  set (content := match item with AssistantMessage c _ => text_of c | _ => "" end). quiet_cases.
Qed.

(** Methods that close the open call and are quiet otherwise. *)
Lemma closing_effect id b m :
  quiet b → calls_ok m → effect id "" 0 false m ((close_call >>> b) m).
Proof.
  intros Hb Hm. destruct (close_call_effect id m Hm) as (Hc & _).
  pose proof (quiet_effect id b _ Hb (ef_ok _ _ _ _ _ _ Hc)) as He.
  exact (effect_seq id "" "" 0 0 false false _ _ m Hc He).
Qed.

Lemma ending_effect id b m :
  quiet b → calls_ok m → effect id "" 0 false m ((close_all >>> b) m).
Proof.
  intros Hb Hm. destruct (close_all_effect id m Hm) as (Hc & _).
  pose proof (quiet_effect id b _ Hb (ef_ok _ _ _ _ _ _ Hc)) as He.
  exact (effect_seq id "" "" 0 0 false false _ _ m Hc He).
Qed.

Lemma push_effect id ev m :
  calls_ok m →
  effect id (carries id (seen id m) ev) (begins id m ev) (mentions id ev) m (push to_value ev m).
Proof.
  intros Hm. unfold begins. destruct ev; simpl;
    try (by apply quiet_effect; [apply custom_quiet|]); try (by apply quiet_effect; [quiet_cases|]).
  - apply quiet_before; [apply close_text_quiet|done|]. intros Hm1.
    apply closing_effect; [|done]. repeat apply quiet_seq; try apply close_step_quiet; quiet_cases.
  - apply closing_effect; [|done]. apply quiet_seq; [apply open_text_block_quiet|].
    destruct (is_empty text); quiet_cases.
  - apply closing_effect; [|done]. apply quiet_seq; [apply open_text_block_quiet|].
    destruct (is_empty text); quiet_cases.
  - by apply on_tool_delta_effect.
  - apply closing_effect; [apply on_message_quiet_rest|done].
  - destruct item; try (apply quiet_before; [apply close_text_quiet|done|]; intros Hm1;
      by apply quiet_effect; [apply custom_quiet|]).
    by apply on_tool_item_effect.
  - destruct item; (apply closing_effect; [|done]); apply quiet_seq; try apply close_text_quiet;
      try apply custom_quiet. quiet_cases.
  - apply ending_effect; [|done]. quiet_cases.
  - apply ending_effect; [|done]. quiet_cases.
Qed.

Lemma push_active id ev m :
  calls_ok m → closes_calls ev = false → active id m || mentions id ev = true →
  active id (push to_value ev m).2 = true.
Proof.
  intros Hm Hev Ha. destruct ev; try done; simpl in *; try (by rewrite orb_false_r in Ha).
  - unfold on_tool_delta. fold (delta_core call_id args_delta).
    pose proof (quiet_seq _ _ close_text_quiet (record_name_quiet call_id name)) as Hq.
    pose proof (quiet_view id _ m Hq) as [_ Hv]. pose proof (quiet_effect id _ m Hq Hm) as [Hok _ _ _].
    pose proof (delta_core_active call_id args_delta id _ Hok) as Hd. rewrite Hv, Ha in Hd.
    rewrite <-Hd. unfold andThen. destruct (close_text m) as [o1 m1].
    destruct (modify _ m1) as [o2 m2]. simpl. by destruct (delta_core _ _ m2).
  - destruct item; try done; simpl in *; rewrite orb_false_r in Ha;
      rewrite (proj2 (quiet_view id _ m (quiet_seq _ _ close_text_quiet (custom_quiet _ _)))); exact Ha.
Qed.

(** The spans a run of events begins for a call. *)
Fixpoint begun (id : string) (m : EventMapper) (evs : list AgentEvent) : nat :=
  match evs with
  | [] => 0
  | ev :: evs' => begins id m ev + begun id (push to_value ev m).2 evs'
  end.

Lemma sent_args_cons id s ev evs :
  sent_args id s (ev :: evs) = carries id s ev +:+ sent_args id (s || mentions id ev) evs.
Proof.
  destruct ev; simpl; rewrite ?orb_false_r; try done.
  - destruct (String.eqb call_id id); by rewrite ?orb_true_r, ?orb_false_r.
  - destruct item; simpl; rewrite ?orb_false_r; try done.
    destruct (String.eqb call_id id); by rewrite ?orb_true_r, ?orb_false_r.
Qed.

Lemma push_all_effect id evs m :
  calls_ok m →
  effect id (sent_args id (seen id m) evs) (begun id m evs) (existsb (mentions id) evs) m
    (push_all to_value evs m).
Proof.
  revert m. induction evs as [|ev evs IH]; intros m Hm; [by apply effect_quiet|].
  pose proof (push_effect id ev m Hm) as He.
  change (push_all to_value (ev :: evs)) with (push to_value ev >>> push_all to_value evs).
  rewrite sent_args_cons. apply effect_seq; [done|].
  rewrite <-(ef_seen _ _ _ _ _ _ He). apply IH, He.
Qed.

Definition phase_ok (p : Phase) (id : string) (m : EventMapper) : Prop :=
  match p with
  | Unseen => seen id m = false
  | Streaming => active id m = true
  | Done => seen id m = true
  end.

Lemma begun_contiguous id evs : ∀ p m,
  calls_ok m → phase_ok p id m → contiguous id p evs = true →
  begun id m evs = match p with Unseen => Nat.b2n (existsb (mentions id) evs) | _ => 0%nat end.
Proof.
  induction evs as [|ev evs IH]; intros p m Hm Hp Hc; [by destruct p|].
  pose proof (push_effect id ev m Hm) as [Hok _ _ Hs].
  assert (active id m = true → seen id m = true) as Has by (unfold seen; by intros ->).
  assert (closes_calls ev = true → mentions id ev = true →
    begins id m ev = Nat.b2n (negb (seen id m))) as Hitem.
  { unfold begins. intros Hcl ->. by destruct ev; simpl in *. }
  pose proof (push_active id ev m Hm) as Hact. simpl. unfold begins in *.
  destruct p; simpl in Hp, Hc.
  - assert (active id m = false) as Hna.
    { destruct (active id m); [|done]. rewrite Has in Hp by done. done. }
    destruct (mentions id ev) eqn:Hme; simpl in *.
    + rewrite (IH (if closes_calls ev then Done else Streaming)); [|done| |done].
      * destruct ev; simpl in *; try done; [by rewrite Hna|]. destruct item; simpl in *; by rewrite ?Hp.
      * destruct (closes_calls ev) eqn:Hcl; simpl; [by rewrite Hs, orb_true_r|].
        apply Hact; [done|]. by rewrite orb_true_r.
    + apply (IH Unseen); [done| |done]. simpl. by rewrite Hs, Hp.
  - rewrite (IH (if closes_calls ev then Done else Streaming)); [|done| |done].
    + replace (negb _) with false by (destruct ev; by rewrite ?Hp, ?Has).
      rewrite andb_false_r. by destruct (closes_calls ev).
    + destruct (closes_calls ev) eqn:Hcl; simpl; [by rewrite Hs, Has|].
      apply Hact; [done|]. by rewrite Hp.
  - apply andb_true_iff in Hc as [Hc1 Hc2]. rewrite (IH Done); [|done|simpl; by rewrite Hs, Hp|done].
    destruct (mentions id ev) eqn:Hme; [|done]. simpl in Hc1. rewrite orb_false_r in Hc1.
    simpl in *. rewrite Hitem by done. by rewrite Hp.
Qed.

Lemma begun_pos id evs m :
  calls_ok m → seen id m = false → existsb (mentions id) evs = true → (0 < begun id m evs)%nat.
Proof.
  revert m. induction evs as [|ev evs IH]; intros m Hm Hs He; [done|].
  pose proof (push_effect id ev m Hm) as [Hok _ _ Hsn]. simpl in *. unfold begins.
  destruct (mentions id ev) eqn:Hme; simpl in *; [|apply IH; [done|by rewrite Hsn, Hs|done]].
  replace (match ev with ToolCallDelta _ _ _ => _ | _ => _ end) with false; [simpl; lia|].
  destruct ev; try done. unfold seen in Hs. by destruct (active id m).
Qed.
End Calls.

(** ** The ends of a run and the ids of its messages *)

Section Ends.
Context `{J : SerdeJson}.
Context (to_value : AgentEvent → Value).

Definition inner (f : Frame) : Prop := is_final f = false ∧ is_start f = false.
Definition plain (a : Act) : Prop := ∀ m, Forall inner (a m).1.

Lemma plain_seq a b : plain a → plain b → plain (a >>> b).
Proof.
  intros Ha Hb m. unfold andThen. specialize (Ha m). destruct (a m) as [o1 m1].
  specialize (Hb m1). destruct (b m1) as [o2 m2]. by apply Forall_app.
Qed.

Lemma plain_reading {A} (q : EventMapper → A) k : (∀ x, plain (k x)) → plain (reading q k).
Proof. intros H m. apply H. Qed.

Lemma emit_is_plain f : (∀ m, inner (f m)) → plain (emit f).
Proof. intros H m. by repeat constructor; apply H. Qed.

Lemma plain_modify g : plain (modify g).
Proof. intros m. constructor. Qed.

Lemma plain_skip : plain skip.
Proof. intros m. constructor. Qed.

Lemma take_buffered_plain k f : (∀ o, plain (f o)) → plain (take_buffered k f).
Proof.
  intros H. apply plain_reading. intros l. destruct (take_entry k l) as [[a l']|]; [|done].
  by apply plain_seq; [apply plain_modify|].
Qed.

Ltac plain :=
  repeat match goal with
  | |- plain (take_buffered _ _) => apply take_buffered_plain; intros ?
  | |- plain (_ >>> _) => apply plain_seq
  | |- plain (modify _) => apply plain_modify
  | |- plain skip => apply plain_skip
  | |- plain (emit _) => apply emit_is_plain; intros ?; split; reflexivity
  | |- plain (reading _ _) => apply plain_reading; intros ?
  | |- plain (match ?x with _ => _ end) => destruct x
  end.

Lemma flush_all_plain l : plain (flush_all l).
Proof. induction l as [|[id a] l IH]; simpl; unfold flush_call; plain. done. Qed.

Lemma close_all_plain : plain close_all.
Proof.
  unfold close_all, close_text, close_call, close_step, when. plain.
  all: try apply flush_all_plain.
Qed.

Lemma push_plain ev :
  is_run_started ev = false → is_terminal ev = false → plain (push to_value ev).
Proof.
  intros Hs Ht. destruct ev; try done; simpl.
  all: try destruct item; unfold on_tool_delta, on_tool_item, on_message, custom, open_text_block,
    new_message_id, flush_call, close_call, close_step, close_text, when; cbv zeta.
  all: plain.
Qed.

Lemma push_terminal ev m :
  is_terminal ev = true →
  ∃ f, (push to_value ev m).1 = (close_all m).1 ++ [f] ∧ is_final f = true ∧ is_start f = false.
Proof.
  intros Ht. destruct ev; try done; simpl; unfold andThen, modify, emit;
    destruct (close_all m) as [out m1]; simpl; eexists; split_and!; reflexivity.
Qed.

Lemma inner_filter l : Forall inner l → List.filter is_final l = [] ∧ List.filter is_start l = [].
Proof.
  induction 1 as [|f l [H1 H2] _ [IH1 IH2]]; simpl; [done|]. by rewrite H1, H2, IH1, IH2.
Qed.

(** A stream has a final frame for each terminal event, the last at its end, and
    no start. *)
Lemma push_ends ev m :
  is_run_started ev = false →
  length (List.filter is_final (push to_value ev m).1) = Nat.b2n (is_terminal ev)
  ∧ List.filter is_start (push to_value ev m).1 = [].
Proof.
  intros Hs. destruct (is_terminal ev) eqn:Ht.
  - destruct (push_terminal ev m Ht) as (f & -> & Hf & Hf').
    destruct (inner_filter _ (close_all_plain m)) as [H1 H2].
    rewrite !List.filter_app, H1, H2. simpl. by rewrite Hf, Hf'.
  - by destruct (inner_filter _ (push_plain ev Hs Ht m)) as [-> ->].
Qed.

Lemma push_all_ends evs m :
  Forall (λ ev, is_run_started ev = false) evs →
  length (List.filter is_final (push_all to_value evs m).1) = length (List.filter is_terminal evs)
  ∧ List.filter is_start (push_all to_value evs m).1 = [].
Proof.
  intros H. revert m. induction H as [|ev evs Hev _ IH]; intros m; [done|].
  destruct (push_ends ev m Hev) as [E1 E2]. simpl. unfold andThen.
  destruct (push to_value ev m) as [o1 m1]. specialize (IH m1) as [IH1 IH2].
  destruct (push_all to_value evs m1) as [o2 m2]. simpl in *.
  rewrite !List.filter_app, length_app, E1, E2, IH1, IH2. by destruct (is_terminal ev).
Qed.

(** [a] starts at most [n] messages, with the next ids in order. *)
Definition ids_from (next : Z) (k : nat) : list string :=
  (λ i, msg_id (u32_wrap (next + Z.of_nat i))) <$> seq 0 k.

Definition numbered (n : nat) (a : Act) : Prop := ∀ m, (0 ≤ next_message m < 4294967296)%Z →
  ∃ k, (k ≤ n)%nat ∧ message_ids (a m).1 = ids_from (next_message m) k
  ∧ next_message (a m).2 = u32_wrap (next_message m + Z.of_nat k).

Lemma ids_from_app next k1 k2 :
  ids_from next (k1 + k2) = ids_from next k1 ++ ids_from (u32_wrap (next + Z.of_nat k1)) k2.
Proof.
  unfold ids_from. rewrite seq_app, fmap_app. f_equal.
  replace (seq (0 + k1) k2) with (Nat.add k1 <$> seq 0 k2) by (rewrite fmap_add_seq; f_equal; lia).
  rewrite <-list_fmap_compose. apply list_fmap_ext.
  intros i x _. unfold compose. f_equal. unfold u32_wrap.
  rewrite Zplus_mod_idemp_l. f_equal. lia.
Qed.

Lemma numbered_seq n1 n2 a b : numbered n1 a → numbered n2 b → numbered (n1 + n2) (a >>> b).
Proof.
  intros Ha Hb m Hm. destruct (Ha m Hm) as (k1 & L1 & I1 & X1). unfold andThen.
  destruct (a m) as [o1 m1]. simpl in *.
  destruct (Hb m1) as (k2 & L2 & I2 & X2); [rewrite X1; unfold u32_wrap; apply Z.mod_pos_bound; lia|].
  destruct (b m1) as [o2 m2]. simpl in *. exists (k1 + k2)%nat. split_and!; [lia| |].
  - by rewrite message_ids_app, I1, I2, ids_from_app, X1.
  - rewrite X2, X1. unfold u32_wrap. rewrite Zplus_mod_idemp_l. f_equal. lia.
Qed.

Lemma u32_wrap_id z : (0 ≤ z < 4294967296)%Z → u32_wrap z = z.
Proof. apply Z.mod_small. Qed.

(** A method that starts no message. *)
Definition silent (a : Act) : Prop := ∀ m,
  message_ids (a m).1 = [] ∧ next_message (a m).2 = next_message m.

Lemma silent_numbered a : silent a → numbered 0 a.
Proof.
  intros H m Hm. destruct (H m) as [H1 H2]. exists 0%nat. split_and!; [done|done|].
  by rewrite H2, Z.add_0_r, u32_wrap_id.
Qed.

Lemma numbered_le n n' a : (n ≤ n')%nat → numbered n a → numbered n' a.
Proof. intros Hn H m Hm. destruct (H m Hm) as (k & Hk & ?). exists k. split; [lia|done]. Qed.

Lemma silent_seq a b : silent a → silent b → silent (a >>> b).
Proof.
  intros Ha Hb m. unfold andThen. specialize (Ha m). destruct (a m) as [o1 m1].
  specialize (Hb m1). destruct (b m1) as [o2 m2]. simpl in *.
  destruct Ha as [H1 H2], Hb as [H3 H4]. by rewrite message_ids_app, H1, H3, H4, H2.
Qed.

Lemma silent_reading {A} (q : EventMapper → A) k : (∀ x, silent (k x)) → silent (reading q k).
Proof. intros H m. apply H. Qed.

Lemma numbered_reading {A} n (q : EventMapper → A) k :
  (∀ x, numbered n (k x)) → numbered n (reading q k).
Proof. intros H m. apply H. Qed.

Lemma silent_buffered k f : (∀ o, silent (f o)) → silent (take_buffered k f).
Proof.
  intros H. apply silent_reading. intros l. destruct (take_entry k l) as [[a l']|]; [|done].
  apply silent_seq; [|done]. by intros m.
Qed.

Ltac silent :=
  repeat match goal with
  | |- silent (take_buffered _ _) => apply silent_buffered; intros ?
  | |- silent (_ >>> _) => apply silent_seq
  | |- silent (reading _ _) => apply silent_reading; intros ?
  | |- silent (match ?x with _ => _ end) => destruct x
  | |- silent (modify (record_name _ ?n)) => let m := fresh in intros m; by destruct n
  | |- silent _ => done
  end.

Lemma flush_all_silent l : silent (flush_all l).
Proof. induction l as [|[id a] l IH]; simpl; unfold flush_call; silent; done. Qed.

Lemma close_all_silent : silent close_all.
Proof.
  unfold close_all, close_text, close_call, close_step, when. silent; try apply flush_all_silent; done.
Qed.

(** [new_message_id] with frames that start that message. *)
Lemma new_message_numbered k :
  (∀ n m, message_ids (k (msg_id n) m).1 = [msg_id n] ∧ next_message (k (msg_id n) m).2 = next_message m) →
  numbered 1 (new_message_id k).
Proof.
  intros H m Hm. unfold new_message_id, reading, andThen, modify.
  destruct (H (next_message m) (with_text (open_text m) (current_message m) (u32_add (next_message m) 1) m))
    as [H1 H2]. destruct (k _ _) as [o m']. simpl in *. exists 1%nat. split_and!; [done| |by rewrite H2].
  rewrite H1. unfold ids_from. simpl. by rewrite Z.add_0_r, u32_wrap_id.
Qed.

Lemma open_text_block_numbered kind : numbered 1 (open_text_block kind).
Proof.
  intros m Hm. unfold open_text_block, reading. destruct (decide (open_text m = target kind)).
  - apply (numbered_le 0); [lia|apply silent_numbered; silent|done].
  - refine (numbered_seq 0 1 _ _ _ _ m Hm).
    + apply silent_numbered. unfold close_text. silent.
    + apply new_message_numbered. intros ? m'. destruct kind; by destruct m'.
Qed.

Lemma push_numbered ev : numbered 1 (push to_value ev).
Proof.
  assert (∀ a, silent a → numbered 1 a) as Hs.
  { intros a Ha. apply (numbered_le 0); [lia|by apply silent_numbered]. }
  assert (silent close_call) as Hcall by (unfold close_call; silent).
  assert (silent close_text) as Htext by (unfold close_text; silent).
  destruct ev; simpl.
  all: try (apply Hs; try destruct item; unfold on_tool_delta, on_tool_item, flush_call, close_step, when;
    silent; try apply close_all_silent; fail).
  - apply (numbered_seq 0 1); [by apply silent_numbered|].
    apply (numbered_seq 1 0); [apply open_text_block_numbered|]. apply silent_numbered.
    unfold when. silent.
  - apply (numbered_seq 0 1); [by apply silent_numbered|].
    apply (numbered_seq 1 0); [apply open_text_block_numbered|]. apply silent_numbered.
    unfold when. silent.
  - unfold on_message. apply (numbered_seq 0 1); [by apply silent_numbered|].
    apply numbered_reading. intros streamed.
    apply (numbered_seq 0 1); [by apply silent_numbered|].
    apply (numbered_seq 1 0); [|by apply silent_numbered].
    cbv zeta. unfold when. destruct (negb streamed); [|by apply Hs].
    destruct (negb _); [|by apply Hs]. apply new_message_numbered. intros ? m'. by destruct m'.
Qed.

Lemma push_all_numbered evs : numbered (length evs) (push_all to_value evs).
Proof.
  induction evs as [|ev evs IH]; [by apply silent_numbered|].
  apply (numbered_seq 1 (length evs)); [apply push_numbered|done].
Qed.
End Ends.

(** ** The streams *)

Section Streams.
Context `{J : SerdeJson}.
Context (to_value : AgentEvent → Value).

Definition forwarded (rx : list AgentEvent) : list AgentEvent :=
  List.filter (λ ev, negb (is_run_started ev)) rx.

Definition body_frames (m : EventMapper) (rx : list AgentEvent) : list Frame :=
  ((push_all to_value (forwarded rx) >>> finish) m).1.

(** What a stream will still deliver. *)
Definition remaining (g : FrameGen) : list Frame :=
  fg_pending g ++ (if fg_finished g then [] else body_frames (fg_mapper g) (fg_rx g)).

Lemma body_frames_cons m ev rx :
  body_frames m (ev :: rx) =
    if is_run_started ev then body_frames m rx
    else (push to_value ev m).1 ++ body_frames (push to_value ev m).2 rx.
Proof.
  unfold body_frames, forwarded. simpl. destruct (is_run_started ev); simpl; [done|].
  unfold andThen. destruct (push to_value ev m) as [o1 m1]. simpl.
  destruct (push_all to_value _ m1) as [o2 m2]. destruct (finish m2) as [o3 m3].
  by rewrite <-app_assoc.
Qed.

Lemma next_frame_go_spec rx m pending :
  match next_frame_go to_value rx m pending with
  | None => pending ++ body_frames m rx = []
  | Some (f, g) => pending ++ body_frames m rx = f :: remaining g
  end.
Proof.
  revert m pending. induction rx as [|ev rx IH]; intros m [|f pending]; try done; simpl.
  - unfold body_frames, andThen. simpl. destruct (finish m) as [[|f out] m']; [done|].
    unfold remaining. simpl. by rewrite app_nil_r.
  - rewrite body_frames_cons. destruct (is_run_started ev); [apply (IH m [])|].
    destruct (push to_value ev m) as [out m1]. apply IH.
Qed.

Lemma next_frame_spec g :
  match next_frame to_value g with
  | None => remaining g = []
  | Some (f, g') => remaining g = f :: remaining g'
  end.
Proof.
  unfold next_frame, remaining. destruct g as [rx m pending []]; simpl.
  - by destruct pending.
  - apply next_frame_go_spec.
Qed.

Lemma unfold_frames_take n g : unfold_frames to_value n g = take n (remaining g).
Proof.
  revert g. induction n as [|n IH]; intros g; [done|]. simpl.
  pose proof (next_frame_spec g) as H. destruct (next_frame to_value g) as [[f g']|].
  - by rewrite H, IH.
  - by rewrite H.
Qed.

Lemma forwarded_ok rx : Forall (λ ev, is_run_started ev = false) (forwarded rx).
Proof.
  apply Forall_forall. intros ev [_ Hev]%list_elem_of_In%filter_In.
  by destruct (is_run_started ev).
Qed.

Lemma new_exclusive t r : exclusive (EventMapper_new t r).
Proof. by left. Qed.

Lemma new_calls_ok t r : calls_ok (EventMapper_new t r).
Proof. split; [constructor|done]. Qed.

Lemma closed_idle m : closed m → ui_of m = ui_idle.
Proof. intros [[Ht Hc] Hs]. unfold ui_of. by rewrite Ht, Hc, Hs. Qed.

Lemma body_followed m rx :
  exclusive m → ui_run (ui_of m) (body_frames m rx) = Some ui_idle.
Proof.
  intros Hm.
  destruct (follows_seq any any closed _ _ (push_all_follows to_value _ (forwarded_ok rx))
    close_all_follows m Hm I) as (_ & Hc & Hr).
  unfold body_frames, finish. by rewrite Hr, closed_idle.
Qed.

Lemma finish_closed m : closed m → buffered_calls m = [] → (finish m).1 = [].
Proof.
  intros [[Ht Hc] Hs] Hb. unfold finish, close_all, close_text, close_call, close_step, andThen,
    reading, modify, emit, skip, when. destruct m. simpl in *. by subst.
Qed.

(** After a terminal event there is nothing left to close. *)
Lemma terminal_closes ev m :
  is_terminal ev = true → exclusive m → calls_ok m → (finish (push to_value ev m).2).1 = [].
Proof.
  intros Ht Hm Hok. assert (is_run_started ev = false) as Hs by by destruct ev.
  pose proof (push_follows to_value ev Hs m Hm I) as (_ & Hc & _). rewrite Ht in Hc.
  apply finish_closed; [done|].
  destruct (close_all_effect "" m Hok) as (_ & _ & Hb).
  destruct ev; try done; simpl; unfold andThen; destruct (close_all m) as [o m1]; simpl in *;
    by destruct m1.
Qed.

Lemma body_last m rx ev :
  exclusive m → calls_ok m → is_terminal ev = true →
  ∃ fs f, body_frames m (rx ++ [ev]) = fs ++ [f] ∧ is_final f = true.
Proof.
  intros Hm Hok Ht. revert m Hm Hok. induction rx as [|e rx IH]; intros m Hm Hok.
  - simpl. rewrite body_frames_cons. replace (is_run_started ev) with false by by destruct ev.
    destruct (push_terminal to_value ev m Ht) as (f & Hp & Hf & _).
    pose proof (terminal_closes ev m Ht Hm Hok) as Hfin.
    exists (close_all m).1, f. split; [|done]. rewrite Hp. unfold body_frames, andThen. simpl.
    destruct (finish (push to_value ev m).2) as [o m']. simpl in *. by rewrite Hfin, app_nil_r.
  - simpl. rewrite body_frames_cons. destruct (is_run_started e) eqn:He; [by apply IH|].
    pose proof (push_follows to_value e He m Hm I) as (Hm' & _).
    destruct (IH (push to_value e m).2) as (fs & f & -> & Hf); [done|apply (push_effect to_value "" e m Hok)|].
    exists ((push to_value e m).1 ++ fs), f. by rewrite app_assoc.
Qed.

Lemma forwarded_cons ev rx :
  forwarded (ev :: rx) = if is_run_started ev then forwarded rx else ev :: forwarded rx.
Proof. unfold forwarded. simpl. by destruct (is_run_started ev). Qed.

Lemma forwarded_sent id s rx : sent_args id s (forwarded rx) = sent_args id s rx.
Proof.
  revert s. induction rx as [|ev rx IH]; intros s; [done|].
  rewrite forwarded_cons, (sent_args_cons id s ev rx), <-IH.
  destruct (is_run_started ev) eqn:He; [|apply sent_args_cons].
  destruct ev; try done. simpl. by rewrite orb_false_r.
Qed.

Lemma forwarded_contiguous id p rx : contiguous id p (forwarded rx) = contiguous id p rx.
Proof.
  revert p. induction rx as [|ev rx IH]; intros p; [done|].
  rewrite forwarded_cons. destruct (is_run_started ev) eqn:He.
  - destruct ev; try done. destruct p; simpl; apply IH.
  - destruct p; simpl; by rewrite IH.
Qed.

Lemma forwarded_exists {f : AgentEvent → bool} rx :
  (∀ ev, is_run_started ev = true → f ev = false) →
  existsb f (forwarded rx) = existsb f rx
  ∧ length (List.filter f (forwarded rx)) = length (List.filter f rx).
Proof.
  intros Hf. induction rx as [|ev rx [IH1 IH2]]; [done|]. rewrite forwarded_cons.
  destruct (is_run_started ev) eqn:He; simpl; [by rewrite (Hf ev He), IH1, IH2|].
  rewrite IH1. by destruct (f ev); simpl; rewrite IH2.
Qed.

(** A stream without its start: the frames of the events and what is left to
    close. *)
Lemma body_split m rx :
  body_frames m rx =
    (push_all to_value (forwarded rx) m).1 ++ (finish (push_all to_value (forwarded rx) m).2).1.
Proof.
  unfold body_frames, andThen. destruct (push_all _ _ m) as [o m1]. simpl. by destruct (finish m1).
Qed.

Lemma msg_id_inj a b : msg_id a = msg_id b → a = b.
Proof. unfold msg_id, show_Z. intros H. by simplify_eq. Qed.

Lemma ids_from_NoDup next k :
  (0 ≤ next < 4294967296)%Z → (k ≤ Z.to_nat 4294967296)%nat → NoDup (ids_from next k).
Proof.
  intros Hn Hk. unfold ids_from. rewrite (list_fmap_compose (λ i, u32_wrap (next + Z.of_nat i)) msg_id).
  apply NoDup_fmap_2; [intros a b; apply msg_id_inj|].
  apply NoDup_fmap_2_strong; [|apply NoDup_seq].
  intros i j Hi%elem_of_seq Hj%elem_of_seq Hw. unfold u32_wrap in Hw.
  apply Z.cong_iff_0 in Hw. apply Z.mod_divide in Hw as [q Hq]; [|done].
  assert (q = 0)%Z by nia. lia.
Qed.

(** C36. The SSE stream of a run is one finite sequence of frames that an AG-UI
    client accepts from its idle state back to it: no span opens inside another,
    every span that opens is closed, content frames belong to the open span.  It
    starts with the one [RUN_STARTED] frame, carries one closing frame per
    terminal event (a run whose events end with one ends with that frame, even
    when it fails with spans open), and numbers its messages consecutively and
    never twice. *)
Theorem agui_stream_contract thread run rx :
  ∃ frames,
    (∀ n, unfold_frames to_value n (sse_start thread run rx) = take n frames)
    ∧ ui_run ui_idle frames = Some ui_idle
    ∧ List.filter is_start frames = [FRunStarted thread run]
    ∧ head frames = Some (FRunStarted thread run)
    ∧ length (List.filter is_final frames) = length (List.filter is_terminal rx)
    ∧ (∀ evs ev, rx = evs ++ [ev] → is_terminal ev = true →
        ∃ fs f, frames = fs ++ [f] ∧ is_final f = true)
    ∧ (∃ k, (k ≤ length rx)%nat ∧ message_ids frames = ids_from 0 k)
    ∧ (length rx ≤ Z.to_nat 4294967296 → NoDup (message_ids frames))%nat.
Proof.
  exists (remaining (sse_start thread run rx)). set (m := EventMapper_new thread run).
  split; [intros n; apply unfold_frames_take|]. unfold remaining, sse_start. simpl. fold m.
  pose proof (push_all_ends to_value (forwarded rx) m (forwarded_ok rx)) as [Hfin Hst].
  destruct (inner_filter _ (close_all_plain (push_all to_value (forwarded rx) m).2)) as [Hfin' Hst'].
  destruct (push_all_numbered to_value (forwarded rx) m) as (k & Hk & Hids & _); [done|].
  destruct (close_all_silent (push_all to_value (forwarded rx) m).2) as [Hids' _].
  assert (length (forwarded rx) ≤ length rx)%nat as Hlen by apply List.filter_length_le.
  assert (message_ids (body_frames m rx) = ids_from 0 k) as Hall.
  { rewrite body_split, message_ids_app, Hids. unfold finish. by rewrite Hids', app_nil_r. }
  split_and!.
  - exact (body_followed m rx (new_exclusive thread run)).
  - rewrite body_split, List.filter_app, Hst. unfold finish. by rewrite Hst'.
  - done.
  - rewrite body_split, List.filter_app, length_app, Hfin. unfold finish. rewrite Hfin'.
    rewrite Nat.add_0_r. apply (forwarded_exists (f := is_terminal)). by intros [].
  - intros evs ev -> Ht. destruct (body_last m evs ev) as (fs & f & -> & Hf);
      [apply new_exclusive|apply new_calls_ok|done|].
    by exists (FRunStarted thread run :: fs), f.
  - exists k. split; [lia|done].
  - intros Hn. rewrite Hall. apply ids_from_NoDup; [done|lia].
Qed.

(** C37. However the deltas of several tool calls interleave with each other and
    with text, the client assembles for each call exactly the argument text the
    events carry for it: nothing is lost, repeated or mixed with another call's.
    A call that is mentioned has a span, and exactly one when its deltas do not
    resume after an event that closes the calls. *)
Theorem agui_calls_exact id thread run rx :
  let frames := remaining (sse_start thread run rx) in
  call_args id frames = sent_args id false rx
  ∧ (existsb (mentions id) rx = true → 0 < call_spans id frames)%nat
  ∧ (contiguous id Unseen rx = true →
      call_spans id frames = Nat.b2n (existsb (mentions id) rx)).
Proof.
  set (m := EventMapper_new thread run). cbv zeta.
  change (call_args id (remaining (sse_start thread run rx))) with (call_args id (body_frames m rx)).
  change (call_spans id (remaining (sse_start thread run rx))) with (call_spans id (body_frames m rx)).
  pose proof (new_calls_ok thread run) as Hm. fold m in Hm.
  destruct (forwarded_exists (f := mentions id) rx) as [Hex _]; [by intros []|].
  pose proof (push_all_effect to_value id (forwarded rx) m Hm) as Hp.
  destruct (close_all_effect id _ (ef_ok _ _ _ _ _ _ Hp)) as ([Hok Ha Hn _] & _ & Hb).
  destruct Hp as [_ Hpa Hpn _].
  rewrite body_split. unfold finish. rewrite call_args_app, call_spans_app.
  set (r := push_all to_value (forwarded rx) m) in *.
  assert (kept id (close_all r.2).2 = "" ∧ waiting id (close_all r.2).2 = false) as [Hk Hw].
  { unfold kept, waiting. rewrite Hb. done. }
  rewrite Hk in Ha. rewrite Hw in Hn. rewrite !string_app_nil_r in Ha. rewrite Ha, Hpa.
  change (waiting id m) with false in Hpn. change (kept id m) with "". simpl in Hn, Hpn.
  assert (seen id m = false) as Hs by done. rewrite Hs, forwarded_sent in *. split; [done|].
  rewrite <-Hex. split.
  - intros He. pose proof (begun_pos to_value id (forwarded rx) m Hm Hs He). lia.
  - rewrite <-forwarded_contiguous. intros Hc.
    pose proof (begun_contiguous to_value id (forwarded rx) Unseen m Hm Hs Hc). simpl in *. lia.
Qed.

(** What the client of a connection has on screen between two turns of its loop. *)
Definition ui_flight (flight : option EventMapper) : UiState :=
  match flight with Some m => ui_of m | None => ui_idle end.

Definition flight_ok (flight : option EventMapper) : Prop :=
  match flight with Some m => exclusive m | None => True end.

Lemma send_mapped_follows ev : follows any any (send_mapped to_value ev).
Proof.
  unfold send_mapped. destruct (is_run_started ev) eqn:He; [apply follows_skip|].
  by eapply follows_weaken; [apply push_follows| |].
Qed.

Lemma send_tail_follows tail : follows any closed (send_tail to_value tail).
Proof.
  induction tail as [|ev tail IH]; simpl; [apply close_all_follows|].
  eapply follows_seq; [apply send_mapped_follows|done].
Qed.

Lemma finish_run_followed flight tail :
  flight_ok flight → ui_run (ui_flight flight) (finish_run to_value flight tail) = Some ui_idle.
Proof.
  intros Hf. destruct flight as [m|]; [|done]. simpl.
  destruct (send_tail_follows tail m Hf I) as (_ & Hc & Hr). by rewrite Hr, closed_idle.
Qed.

Lemma ws_step_followed sid flight inp :
  flight_ok flight →
  let '(out, next) := ws_step to_value sid flight inp in
  flight_ok (default None next) ∧ ui_run (ui_flight flight) out = Some (ui_flight (default None next)).
Proof.
  intros Hf. destruct inp as [msg tail|ev|]; simpl.
  - pose proof (finish_run_followed flight tail Hf) as Hr.
    destruct msg as [[input|e] [|e'] u1 u2| | | |]; simpl; try (by rewrite ?ui_run_app, Hr); [|done].
    split; [by apply new_exclusive|]. by rewrite ui_run_app, Hr.
  - destruct flight as [m|]; [|done].
    destruct (send_mapped_follows ev m Hf I) as (Hm & _ & Hr).
    by destruct (send_mapped to_value ev m).
  - destruct flight as [m|]; [|done].
    destruct (close_all_follows m Hf I) as (_ & Hc & Hr). simpl. unfold finish.
    by rewrite Hr, closed_idle.
Qed.

(** On a WebSocket connection, whatever requests arrive while a run is in
    flight and however runs end, are cancelled or lag behind, the frames sent
    leave the client with exactly the spans of the run in flight open, so that no
    frame of one run lands in a span of another. *)
Theorem agui_ws_balanced sid flight inps :
  flight_ok flight →
  let '(out, next) := ws_run to_value sid flight inps in
  ui_run (ui_flight flight) out = Some (ui_flight (default None next)).
Proof.
  revert flight. induction inps as [|inp inps IH]; intros flight Hf; simpl; [done|].
  pose proof (ws_step_followed sid flight inp Hf) as Hs.
  destruct (ws_step to_value sid flight inp) as [out [flight'|]]; simpl in Hs; [|tauto].
  destruct Hs as [Hf' Hr]. specialize (IH flight' Hf').
  destruct (ws_run to_value sid flight' inps) as [out' rest]. by rewrite ui_run_app, Hr.
Qed.
End Streams.

(** ** Concrete runs *)

Module AgUiDemo.
#[local] Existing Instance Toy.json.

Definition null : AgentEvent → Toy.value := λ _, Toy.TNull.

Definition frames (evs : list AgentEvent) : list Frame :=
  remaining null (sse_start "t" "r" evs).

(** Deltas of two calls interleave: each call is one span, its arguments in
    order. *)
Definition interleaved : list AgentEvent :=
  [RunStarted "a"; TurnStarted 1; TokenDelta "hi"; ToolCallDelta "c1" (Some "ls") "{";
   ToolCallDelta "c2" (Some "cat") "["; ToolCallDelta "c1" None "}"; ToolCallDelta "c2" None "]";
   ToolCallItem (ToolCall "c1" "ls" (VString "{}")); ToolCallItem (ToolCall "c2" "cat" (VString "[]"));
   ToolOutputItem (ToolResult "c1" [Text "ok"]); RunCompleted TokenUsage_default].

Example interleaved_frames :
  frames interleaved =
    [FRunStarted "t" "r"; FStepStarted "turn"; FTextStart "msg-0"; FTextContent "msg-0" "hi";
     FTextEnd "msg-0"; FToolCallStart "c1" "ls" "msg-0"; FToolCallArgs "c1" "{";
     FToolCallArgs "c1" "}"; FToolCallEnd "c1"; FToolCallStart "c2" "cat" "msg-0";
     FToolCallArgs "c2" "[]"; FToolCallEnd "c2"; FToolCallResult "c1" "ok"; FStepFinished "turn";
     FRunFinished "t" "r"].
Proof. vm_compute. reflexivity. Qed.

(** A call whose span another event has closed opens a second one when a later
    delta revisits it. *)
Definition revisited : list AgentEvent :=
  [ToolCallDelta "c1" (Some "ls") "{"; TokenDelta "hm"; ToolCallDelta "c1" None "}";
   RunCompleted TokenUsage_default].

Example revisited_two_spans :
  contiguous "c1" Unseen revisited = false ∧ call_spans "c1" (frames revisited) = 2%nat
  ∧ call_args "c1" (frames revisited) = "{}".
Proof. vm_compute. auto. Qed.

(** A message that interrupts a run closes what it had open before the next run
    starts. *)
Definition hello : Inbound := InText (Ok (mkRunAgentInput None None [])) (Ok tt) "u1" "u2".

Example interrupted_run :
  ws_run null None None [WsMessage hello []; WsEvent (TokenDelta "he"); WsMessage hello []]
  = ([FRunStarted "u1" "u2"; FTextStart "msg-0"; FTextContent "msg-0" "he"; FTextEnd "msg-0";
      FRunStarted "u1" "u2"], Some (Some (EventMapper_new "u1" "u2"))).
Proof. vm_compute. reflexivity. Qed.

Lemma agui_ws_balanced_witness :
  flight_ok None ∧
  let '(out, next) := ws_run null None None
    [WsMessage hello []; WsEvent (TokenDelta "he"); WsMessage InClose [RunFailed "cancelled"]] in
  ui_run (ui_flight None) out = Some (ui_flight (default None next)).
Proof. split; [done|]. by apply (agui_ws_balanced null None None). Defined.

Lemma agui_calls_exact_witness :
  existsb (mentions "c2") interleaved = true ∧ contiguous "c2" Unseen interleaved = true
  ∧ call_spans "c2" (frames interleaved) = 1%nat.
Proof.
  split; [reflexivity|]. split; [reflexivity|].
  apply (agui_calls_exact null "c2" "t" "r" interleaved). reflexivity.
Defined.
End AgUiDemo.
