(* ===== verification/FrameBudget.v ===== *)
(** The frame budget of the AgentCore WebSocket endpoints
    (paigasus-helikon-runtime-agentcore/src/frame.rs): oversize events are split
    on a string field or wrapped in [helikon.chunk] envelopes, and writes are
    paced by a trailing window.

    The sizes are those of serialized JSON, so the bounds rest on the size laws
    of [JsonTextLaws].  The pacer runs on explicit clock readings in
    nanoseconds. *)

From S2P Require Import Prelude Json.

Definition MAX_FRAME_BYTES : nat := 60 * 1000.
Definition FRAME_RATE_CAP : nat := 200.
Definition SPLIT_HEADROOM_BYTES : nat := 16.

Inductive SplitStrategy : Type :=
| Content (field : string)
| Envelope.

Record FrameBudget := mkFrameBudget {
  fb_split : SplitStrategy;
  fb_recent : list Z;
  chunk_group : Z;
}.

Definition new_with_splitter (split : SplitStrategy) : FrameBudget := mkFrameBudget split [] 0.
Definition FrameBudget_new : FrameBudget := new_with_splitter Envelope.

(** ** Characters

    [str::chars]: the UTF-8 sequences of a string.  [need] continuation bytes
    are missing from the character whose first bytes are [acc]. *)
Definition continuation_bytes (c : Ascii.ascii) : nat :=
  match lead_byte (Ascii.nat_of_ascii c) with Some (n, _, _) => n | None => 0 end.

Definition is_continuation (c : Ascii.ascii) : bool := (128 <=? Ascii.nat_of_ascii c)%nat.
#[global] Arguments is_continuation : simpl never.

Fixpoint chars_go (need : nat) (acc s : string) : list string :=
  let flush rest := if is_empty acc then rest else acc :: rest in
  match s with
  | EmptyString => flush []
  | String c s' =>
      match need with
      | S need' =>
          if is_continuation c then chars_go need' (snoc acc c) s'
          else flush (chars_go (continuation_bytes c) (String c "") s')
      | O => flush (chars_go (continuation_bytes c) (String c "") s')
      end
  end.

Definition chars (s : string) : list string := chars_go 0 "" s.

(** ** Splitting *)

(** The loop that fills a piece with [budget] characters: [n] are in [piece]. *)
Fixpoint pieces_go (budget n : nat) (piece : string) (cs : list string) : list string :=
  match cs with
  | [] => if is_empty piece then [] else [piece]
  | c :: cs' =>
      let piece := piece +:+ c in
      if (budget <=? S n)%nat then piece :: pieces_go budget 0 "" cs'
      else pieces_go budget (S n) piece cs'
  end.

Definition pieces (budget : nat) (text : string) : list string := pieces_go budget 0 "" (chars text).

Section Split.
Context `{J : SerdeJson} `{!JsonU64} `{!JsonIndex}.

Definition ENVELOPE_BUDGET : nat := Nat.max ((MAX_FRAME_BYTES - 160) / 6) 1.

(** One [helikon.chunk] envelope. *)
Definition chunk_frame (id : string) (last seq : nat) (data : string) : Value :=
  VObject [("type", VString "helikon.chunk"); ("id", VString id); ("seq", from_u64 (Z.of_nat seq));
           ("final", VBool (seq =? last)%nat); ("data", VString data)].

Definition split_envelope (b : FrameBudget) (whole : string) : list string * FrameBudget :=
  let group := u64_add (chunk_group b) 1 in
  let id := "c" +:+ show_Z group in
  let ps := pieces ENVELOPE_BUDGET whole in
  let last := length ps - 1 in
  (imap (λ seq data, to_string (chunk_frame id last seq data)) ps,
   mkFrameBudget (fb_split b) (fb_recent b) group).

Definition split_content (b : FrameBudget) (frame : Value) (field : string)
  : list string * FrameBudget :=
  match (match get frame field ≫= as_str with
         | Some s => if is_empty s then None else Some s
         | None => None
         end) with
  | None => split_envelope b (to_string frame)
  | Some text =>
      let overhead := String.length (to_string (set_index frame field (VString ""))) in
      if (MAX_FRAME_BYTES <=? overhead + SPLIT_HEADROOM_BYTES)%nat
      then split_envelope b (to_string frame)
      else
        let budget := Nat.max ((MAX_FRAME_BYTES - (overhead + SPLIT_HEADROOM_BYTES)) / 6) 1 in
        ((λ chunk, to_string (set_index frame field (VString chunk))) <$> pieces budget text, b)
  end.

Definition split (b : FrameBudget) (frame : Value) : list string * FrameBudget :=
  let whole := to_string frame in
  if (String.length whole <=? MAX_FRAME_BYTES)%nat then ([whole], b)
  else match fb_split b with
       | Content field => split_content b frame field
       | Envelope => split_envelope b whole
       end.

Definition frames (b : FrameBudget) (frame : Value) : list string * FrameBudget := split b frame.
End Split.

(** ** Pacing *)

Definition WINDOW : Z := 1000000000.

(** The readings that have left the window. *)
Fixpoint expire (now : Z) (recent : list Z) : list Z :=
  match recent with
  | front :: recent' => if (WINDOW <=? now - front)%Z then expire now recent' else recent
  | [] => []
  end.

(** [now] is the clock's reading; a sleep overshoots by the next [lag].  The
    result is the window and the reading at which the frame was admitted;
    [None] when [lags] runs out. *)
Fixpoint tick (recent : list Z) (now : Z) (lags : list Z) : option (list Z * Z) :=
  let recent := expire now recent in
  if (length recent <? FRAME_RATE_CAP)%nat then Some (recent ++ [now], now)
  else match lags, recent with
       | lag :: lags', front :: _ => tick recent (now + (WINDOW - (now - front)) + lag) lags'
       | _, _ => None
       end.

(** The admissions of a sequence of writes: each is [gap] after the one before,
    and waits as [tick] says. *)
Fixpoint pace (recent : list Z) (now : Z) (writes : list (Z * Z)) : option (list Z) :=
  match writes with
  | [] => Some []
  | (gap, lag) :: writes' =>
      match tick recent (now + gap) [lag] with
      | None => None
      | Some (recent, at_) => cons at_ <$> pace recent at_ writes'
      end
  end.

(** ** Characters and pieces *)

Lemma escape_size_le c : escape_size c ≤ 6.
Proof. unfold escape_size. destruct (existsb _ _); [lia|]. destruct (_ <? _); lia. Qed.

Lemma escape_size_high c : 128 ≤ Ascii.nat_of_ascii c → escape_size c = 1.
Proof. destruct c as [[] [] [] [] [] [] [] []]; (reflexivity || (vm_compute; intros; lia)). Qed.

Lemma escaped_size_app s t : escaped_size (s +:+ t) = escaped_size s + escaped_size t.
Proof. induction s as [|c s IH]; simpl; [done|]. rewrite IH. lia. Qed.

Lemma continuation_size c : escape_size c + continuation_bytes c ≤ 6.
Proof. destruct c as [[] [] [] [] [] [] [] []]; vm_compute; lia. Qed.

Definition small (c : string) : Prop := c ≠ "" ∧ escaped_size c ≤ 6.

Lemma append_char s c : snoc s c = s +:+ String c "".
Proof. done. Qed.

Lemma snoc_nonempty s c : snoc s c ≠ "".
Proof. by destruct s. Qed.

Lemma concat_cons (x : string) l : String.concat "" (x :: l) = x +:+ String.concat "" l.
Proof. destruct l; simpl; [by rewrite string_app_nil_r|done]. Qed.

Lemma chars_go_spec need acc s :
  (acc = "" ∧ need = 0) ∨ (acc ≠ "" ∧ escaped_size acc + need ≤ 6) →
  String.concat "" (chars_go need acc s) = acc +:+ s ∧ Forall small (chars_go need acc s).
Proof.
  assert (∀ a rest, a = "" ∨ (a ≠ "" ∧ escaped_size a ≤ 6) → ∀ t, String.concat "" rest = t →
    Forall small rest →
    String.concat "" (if is_empty a then rest else a :: rest) = a +:+ t
    ∧ Forall small (if is_empty a then rest else a :: rest)) as Hflush.
  { intros a rest Ha t Ht Hr. destruct Ha as [->|[Hne Hsz]]; [done|].
    destruct a as [|c a]; [done|]. cbn [is_empty]. rewrite concat_cons, Ht. by split; [|constructor]. }
  revert need acc. induction s as [|c s IH]; intros need acc H; simpl.
  - apply Hflush; [naive_solver lia|done|constructor].
  - assert (String.concat "" (chars_go (continuation_bytes c) (String c "") s) = String c s
      ∧ Forall small (chars_go (continuation_bytes c) (String c "") s)) as [Hs1 Hs2].
    { apply (IH _ (String c "")). right. split; [done|]. simpl. pose proof (continuation_size c). lia. }
    destruct need as [|need]; [apply Hflush; try done; naive_solver lia|].
    destruct (is_continuation c) eqn:Hc; [|apply Hflush; try done; naive_solver lia].
    apply Nat.leb_le in Hc. destruct H as [[_ ?]|[Hne Hsz]]; [done|].
    destruct (IH need (snoc acc c)) as [H1 H2].
    { right. split; [apply snoc_nonempty|]. rewrite append_char, escaped_size_app. simpl.
      rewrite escape_size_high by done. lia. }
    rewrite H1. split; [|done]. by rewrite append_char, string_app_assoc.
Qed.

Lemma chars_spec s : String.concat "" (chars s) = s ∧ Forall small (chars s).
Proof. unfold chars. by apply chars_go_spec; left. Qed.

(** The pieces are the text again, each is at most [budget] characters. *)
Definition piece_ok (budget : nat) (p : string) : Prop := p ≠ "" ∧ escaped_size p ≤ 6 * budget.

Lemma app_nonempty (a b : string) : b ≠ "" → a +:+ b ≠ "".
Proof. by destruct a. Qed.

Lemma pieces_go_spec budget n piece cs :
  n < budget → escaped_size piece ≤ 6 * n → Forall small cs →
  String.concat "" (pieces_go budget n piece cs) = piece +:+ String.concat "" cs
  ∧ Forall (piece_ok budget) (pieces_go budget n piece cs).
Proof.
  intros Hn Hp Hcs. revert n piece Hn Hp.
  induction Hcs as [|c cs [Hc1 Hc2] _ IH]; intros n piece Hn Hp; simpl pieces_go.
  - destruct piece as [|a p]; simpl; [by split; [|constructor]|].
    split; [by rewrite string_app_nil_r|]. constructor; [|constructor]. split; [done|]. simpl in *. lia.
  - assert (escaped_size (piece +:+ c) ≤ 6 * S n) as Hpc by (rewrite escaped_size_app; lia).
    rewrite concat_cons. destruct (Nat.leb_spec budget (S n)).
    + destruct (IH 0 "") as [H1 H2]; [lia|simpl; lia|].
      rewrite concat_cons, H1, string_app_assoc. split; [done|]. constructor; [|done].
      split; [by apply app_nonempty|lia].
    + destruct (IH (S n) (piece +:+ c)) as [H1 H2]; [lia|done|].
      by rewrite H1, string_app_assoc.
Qed.

Lemma pieces_spec budget text :
  0 < budget →
  String.concat "" (pieces budget text) = text ∧ Forall (piece_ok budget) (pieces budget text).
Proof.
  intros Hb. destruct (chars_spec text) as [H1 H2].
  destruct (pieces_go_spec budget 0 "" (chars text)) as [H3 H4]; [done|simpl; lia|done|].
  unfold pieces. by rewrite H3, H1.
Qed.

Lemma pieces_count budget text :
  0 < budget → length (pieces budget text) ≤ String.length text
  ∧ (text ≠ "" → pieces budget text ≠ []).
Proof.
  intros Hb. destruct (pieces_spec budget text Hb) as [H1 H2]. split;
    [|intros Ht Hp; rewrite Hp in H1; by subst].
  rewrite <-H1 at 2. clear H1. induction H2 as [|p ps [Hp _] _ IH]; [simpl; lia|].
  rewrite concat_cons, string_length_app. destruct p; [done|]. simpl. lia.
Qed.

Lemma digit_escape x : escape_size (pretty_N_char x) = 1.
Proof. unfold pretty_N_char. by repeat case_match. Qed.

Lemma pretty_N_go_escaped k n s :
  (n < 10 ^ N.of_nat k)%N → escaped_size (pretty_N_go n s) ≤ k + escaped_size s.
Proof.
  revert n s. induction k as [|k IH]; intros n s Hn.
  - replace n with 0%N by (simpl in Hn; lia). by rewrite pretty_N_go_0.
  - destruct (decide (0 < n)%N) as [H|H]; [|by replace n with 0%N by lia; rewrite pretty_N_go_0; lia].
    rewrite pretty_N_go_step by done. etrans; [apply IH|simpl; rewrite digit_escape; lia].
    apply N.Div0.div_lt_upper_bound. by rewrite <-N.pow_succ_r', <-Nat2N.inj_succ.
Qed.

Lemma show_Z_escaped n : (0 ≤ n ≤ u64_max)%Z → escaped_size (show_Z n) ≤ 20.
Proof.
  intros Hn. unfold show_Z, pretty, pretty_Z. destruct n as [|p|p]; [vm_compute; lia| |lia].
  unfold pretty, pretty_positive, pretty, pretty_N. case_decide; [vm_compute; lia|].
  etrans; [apply (pretty_N_go_escaped 20)|simpl; lia].
  unfold u64_max in Hn. replace (10 ^ N.of_nat 20)%N with 100000000000000000000%N by done. lia.
Qed.

(** ** The frames *)

#[local] Opaque MAX_FRAME_BYTES.

Lemma MAX_FRAME_BYTES_eq : MAX_FRAME_BYTES = 60 * 1000.
Proof. reflexivity. Qed.

Section FramesOk.
Context `{J : SerdeJson} `{!SerdeJsonLaws} `{!JsonU64} `{!JsonU64Laws} `{!JsonIndex} `{!JsonTextLaws}.

Definition entry_size (kv : string * Value) : nat :=
  3 + escaped_size kv.1 + String.length (to_string kv.2).

Lemma object_text_size v kvs :
  as_object v = Some kvs →
  String.length (to_string v) = 2 + list_sum (entry_size <$> kvs) + pred (length kvs).
Proof.
  intros Hv. rewrite (text_object v kvs Hv). unfold object_size. rewrite length_fmap.
  by rewrite <-list_fmap_compose.
Qed.

Lemma built_text_size kvs :
  NoDup kvs.*1 →
  String.length (to_string (VObject kvs)) = 2 + list_sum (entry_size <$> kvs) + pred (length kvs).
Proof.
  intros Hn. destruct (as_object_VObject kvs Hn) as (kvs' & E & Hp).
  rewrite (object_text_size _ _ E), Hp. do 2 f_equal.
Qed.

Lemma replace_key_absent k (x : Value) kvs : k ∉ kvs.*1 → replace_key k x kvs = kvs.
Proof.
  unfold replace_key. induction kvs as [|[j y] kvs IH]; [done|].
  rewrite !fmap_cons, not_elem_of_cons. simpl. intros [Hj Hk].
  rewrite (proj2 (String.eqb_neq j k)) by congruence. by rewrite IH.
Qed.

(** Two replacements of one entry differ by the difference of the values. *)
Lemma replace_key_size k (x y : Value) kvs :
  NoDup kvs.*1 → k ∈ kvs.*1 →
  list_sum (entry_size <$> replace_key k x kvs) + String.length (to_string y)
  = list_sum (entry_size <$> replace_key k y kvs) + String.length (to_string x).
Proof.
  induction kvs as [|[j z] kvs IH]; rewrite ?fmap_cons; [by intros _ ?%elem_of_nil|].
  intros [Hj Hn]%NoDup_cons Hk. simpl in Hj.
  assert (∀ v, list_sum (entry_size <$> replace_key k v ((j, z) :: kvs))
    = entry_size (if String.eqb j k then (j, v) else (j, z))
      + list_sum (entry_size <$> replace_key k v kvs)) as E by done.
  rewrite !E. destruct (String.eqb_spec j k) as [->|Hne].
  - rewrite !replace_key_absent by done. unfold entry_size. simpl. lia.
  - assert (k ∈ kvs.*1) as Hk' by (apply elem_of_cons in Hk as [Hk|]; [by simpl in Hk|done]).
    specialize (IH Hn Hk'). lia.
Qed.

Lemma length_replace_key {A} k (x : A) kvs : length (replace_key k x kvs) = length kvs.
Proof. apply length_fmap. Qed.

(** The text of a frame with a string in one field: the text with that field
    empty, and the escaped string. *)
Lemma set_string_size frame field v s :
  get frame field = Some v →
  String.length (to_string (set_index frame field (VString s)))
  = String.length (to_string (set_index frame field (VString ""))) + escaped_size s.
Proof.
  intros Hv. destruct (get_as_object frame field v Hv) as (kvs & Hkvs & Hin).
  assert (field ∈ kvs.*1) as Hk by (apply list_elem_of_fmap; by exists (field, v)).
  pose proof (as_object_keys frame kvs Hkvs) as Hn.
  rewrite !(object_text_size _ _ (as_object_set_index frame field _ kvs Hkvs Hk)), !length_replace_key.
  pose proof (replace_key_size field (VString s) (VString "") kvs Hn Hk) as Hr.
  rewrite !text_string in Hr. simpl in Hr. lia.
Qed.

Lemma pieces_budget frame field v budget text :
  get frame field = Some v → 0 < budget →
  String.length (to_string (set_index frame field (VString ""))) + 6 * budget ≤ MAX_FRAME_BYTES →
  Forall (λ t, String.length t ≤ MAX_FRAME_BYTES)
    ((λ chunk, to_string (set_index frame field (VString chunk))) <$> pieces budget text).
Proof.
  intros Hv Hb Hle. apply Forall_fmap. destruct (pieces_spec budget text Hb) as [_ Hp].
  eapply Forall_weaken; [exact Hp|]. intros p [_ Hsz]. unfold compose.
  rewrite (set_string_size frame field v) by done. lia.
Qed.

(** An envelope takes at most 104 bytes around its data. *)
Lemma chunk_frame_size id last seq data :
  escaped_size id ≤ 21 → (Z.of_nat seq ≤ u64_max)%Z →
  String.length (to_string (chunk_frame id last seq data)) ≤ 104 + escaped_size data.
Proof.
  intros Hid Hseq. unfold chunk_frame. rewrite built_text_size.
  - unfold entry_size. simpl. rewrite !text_string.
    pose proof (text_u64 (Z.of_nat seq)) as Hu. pose proof (text_bool (seq =? last)%nat) as Hf.
    simpl. lia.
  - change (NoDup ["type"; "id"; "seq"; "final"; "data"]). by apply (bool_decide_unpack _).
Qed.

(** What [split_envelope] makes of a text. *)
Definition enveloped (b b' : FrameBudget) (out : list string) (whole : string) : Prop :=
  ∃ chunks, String.concat "" chunks = whole
  ∧ out = imap (λ seq data, to_string (chunk_frame ("c" +:+ show_Z (chunk_group b'))
            (length chunks - 1) seq data)) chunks
  ∧ chunk_group b' = u64_add (chunk_group b) 1.

(** What [split_content] makes of a frame with text in a field. *)
Definition in_place (b b' : FrameBudget) (out : list string) (frame : Value) : Prop :=
  ∃ field v text chunks, fb_split b = Content field
  ∧ get frame field = Some v ∧ as_str v = Some text ∧ String.concat "" chunks = text
  ∧ out = (λ chunk, to_string (set_index frame field (VString chunk))) <$> chunks
  ∧ b' = b.

Definition within (out : list string) : Prop :=
  out ≠ [] ∧ Forall (λ t, String.length t ≤ MAX_FRAME_BYTES) out.

Lemma split_envelope_ok b whole :
  whole ≠ "" → (Z.of_nat (String.length whole) ≤ u64_max)%Z →
  let '(out, b') := split_envelope b whole in within out ∧ enveloped b b' out whole.
Proof.
  intros Hne Hlen. unfold split_envelope. set (ps := pieces ENVELOPE_BUDGET whole).
  assert (0 < ENVELOPE_BUDGET) as Hb by (unfold ENVELOPE_BUDGET; lia).
  destruct (pieces_spec ENVELOPE_BUDGET whole Hb) as [Hc Hp].
  destruct (pieces_count ENVELOPE_BUDGET whole Hb) as [Hcnt Hnn]. fold ps in Hc, Hp, Hcnt, Hnn.
  specialize (Hnn Hne). split; [split|].
  - by destruct ps.
  - apply Forall_lookup_2. intros i t Ht. rewrite list_lookup_imap in Ht.
    destruct (ps !! i) as [data|] eqn:Hi; [|done]. injection Ht as <-.
    pose proof (lookup_lt_Some _ _ _ Hi) as Hlt. rewrite Forall_lookup in Hp.
    destruct (Hp i data Hi) as [_ Hsz].
    etrans; [apply chunk_frame_size; [|lia]|].
    + simpl. change (escape_size _) with 1. apply le_n_S, show_Z_escaped.
      pose proof (Z.mod_pos_bound (chunk_group b + 1) 18446744073709551616). unfold u64_add, u64_wrap, u64_max. lia.
    + unfold ENVELOPE_BUDGET in *. rewrite MAX_FRAME_BYTES_eq in *.
      pose proof (Nat.Div0.mul_div_le (60 * 1000 - 160) 6). lia.
  - by exists ps.
Qed.

Lemma split_content_ok b frame field :
  fb_split b = Content field → to_string frame ≠ "" →
  (Z.of_nat (String.length (to_string frame)) ≤ u64_max)%Z →
  let '(out, b') := split_content b frame field in
  within out ∧ (in_place b b' out frame ∨ enveloped b b' out (to_string frame)).
Proof.
  intros Hb Hne Hlen. unfold split_content.
  pose proof (split_envelope_ok b (to_string frame) Hne Hlen) as He.
  assert (let '(out, b') := split_envelope b (to_string frame) in
    within out ∧ (in_place b b' out frame ∨ enveloped b b' out (to_string frame))) as Henv.
  { destruct (split_envelope b (to_string frame)). tauto. }
  destruct (get frame field) as [v|] eqn:Hv; cbn [mbind option_bind]; [|done].
  destruct (as_str v) as [text|] eqn:Ht; [|done]. destruct (is_empty text) eqn:Hte; [done|].
  destruct (Nat.leb_spec MAX_FRAME_BYTES
    (String.length (to_string (set_index frame field (VString ""))) + SPLIT_HEADROOM_BYTES)) as [|Hroom];
    [done|].
  set (overhead := String.length (to_string (set_index frame field (VString "")))) in *.
  set (budget := Nat.max ((MAX_FRAME_BYTES - (overhead + SPLIT_HEADROOM_BYTES)) / 6) 1).
  assert (0 < budget) as Hbud by (unfold budget; lia).
  split; [split|left].
  - intros Hout%fmap_nil_inv. revert Hout. apply pieces_count; [done|]. by intros ->.
  - apply (pieces_budget frame field v); [done|done|]. fold overhead. unfold budget, SPLIT_HEADROOM_BYTES in *.
    pose proof (Nat.Div0.mul_div_le (MAX_FRAME_BYTES - (overhead + 16)) 6). lia.
  - exists field, v, text, (pieces budget text). split_and!; try done. by apply pieces_spec.
Qed.

(** C38. Every frame written to a WebSocket fits in the cap of the endpoint, however
    large the event is: an event that fits is written as it is; a larger one is
    split on its text field, the pieces concatenating to the field, or wrapped in
    numbered envelopes that concatenate to the serialized event; nothing is
    dropped and at least one frame is written. *)
Theorem frames_bounded b frame :
  to_string frame ≠ "" → (Z.of_nat (String.length (to_string frame)) ≤ u64_max)%Z →
  let '(out, b') := frames b frame in
  within out ∧ fb_recent b' = fb_recent b ∧ fb_split b' = fb_split b
  ∧ ((out = [to_string frame] ∧ b' = b) ∨ in_place b b' out frame
     ∨ enveloped b b' out (to_string frame)).
Proof.
  intros Hne Hlen. unfold frames, split.
  destruct (Nat.leb_spec (String.length (to_string frame)) MAX_FRAME_BYTES) as [Hle|_].
  { split_and!; try done; [|by left]. split; [done|]. by constructor. }
  destruct (fb_split b) as [field|] eqn:Hs.
  - pose proof (split_content_ok b frame field Hs Hne Hlen) as Hok.
    assert (fb_recent (split_content b frame field).2 = fb_recent b
      ∧ fb_split (split_content b frame field).2 = fb_split b) as [Hr1 Hr2].
    { unfold split_content. by repeat case_match. }
    destruct (split_content b frame field) as [out b']. simpl in *. rewrite Hr2. tauto.
  - pose proof (split_envelope_ok b (to_string frame) Hne Hlen) as Hok.
    destruct (split_envelope b (to_string frame)) as [out b'] eqn:E. split; [tauto|].
    unfold split_envelope in E. injection E as _ <-. simpl. rewrite Hs. tauto.
Qed.
End FramesOk.

(** ** The rate *)

(** The admissions inside the window that ends at [t]. *)
Definition in_window (t : Z) (admitted : list Z) : list Z :=
  List.filter (λ a, (t - WINDOW <? a)%Z && (a <=? t)%Z) admitted.

(** The window holds the latest admissions; the ones before have left it. *)
Record paced (now : Z) (admitted recent : list Z) : Prop := {
  pc_split : ∃ gone, admitted = gone ++ recent ∧ Forall (λ a, (a + WINDOW ≤ now)%Z) gone;
  pc_past : Forall (λ a, (a ≤ now)%Z) admitted;
  pc_cap : length recent ≤ FRAME_RATE_CAP;
  pc_rate : ∀ t, length (in_window t admitted) ≤ FRAME_RATE_CAP;
}.

Lemma expire_spec now recent :
  ∃ gone, recent = gone ++ expire now recent ∧ Forall (λ a, (a + WINDOW ≤ now)%Z) gone
  ∧ match expire now recent with front :: _ => (now - front < WINDOW)%Z | [] => True end.
Proof.
  induction recent as [|front recent (gone & IH1 & IH2 & IH3)]; simpl; [by exists []|].
  destruct (Z.leb_spec WINDOW (now - front)) as [H|H].
  - exists (front :: gone). rewrite IH1 at 1. split_and!; [done| |done]. constructor; [lia|done].
  - exists []. split_and!; [done|constructor|lia].
Qed.

Lemma in_window_app t l1 l2 : in_window t (l1 ++ l2) = in_window t l1 ++ in_window t l2.
Proof. apply List.filter_app. Qed.

Lemma in_window_gone now t l :
  Forall (λ a, (a + WINDOW ≤ now)%Z) l → (now ≤ t)%Z → in_window t l = [].
Proof.
  intros Hl Ht. induction Hl as [|a l Ha _ IH]; [done|]. simpl.
  destruct (Z.ltb_spec (t - WINDOW) a); [lia|]. done.
Qed.

(** A later clock reading keeps the invariant. *)
Lemma paced_later now now' admitted recent :
  paced now admitted recent → (now ≤ now')%Z → paced now' admitted (expire now' recent).
Proof.
  intros [(gone & -> & Hg) Hp Hc Hr] Hle.
  destruct (expire_spec now' recent) as (gone' & Hs & Hg' & _). split.
  - exists (gone ++ gone'). rewrite <-app_assoc, <-Hs. split; [done|]. apply Forall_app. split; [|done].
    eapply Forall_weaken; [exact Hg|]. simpl. lia.
  - eapply Forall_weaken; [exact Hp|]. simpl. lia.
  - rewrite Hs, length_app in Hc. lia.
  - done.
Qed.

Lemma paced_admit now admitted recent :
  paced now admitted recent → length recent < FRAME_RATE_CAP →
  paced now (admitted ++ [now]) (recent ++ [now]).
Proof.
  intros [(gone & -> & Hg) Hp Hc Hr] Hlt. split.
  - exists gone. by rewrite app_assoc.
  - apply Forall_app. split; [done|]. by repeat constructor.
  - rewrite length_app. simpl. lia.
  - intros t. rewrite in_window_app, length_app. destruct (Z.leb_spec now t) as [Ht|Ht].
    + rewrite in_window_app, (in_window_gone now t gone Hg Ht). simpl.
      assert (∀ l, length (in_window t l) ≤ length l) as Hlen by (intros; apply List.filter_length_le).
      pose proof (Hlen recent). pose proof (Hlen [now]) as H1. simpl in *. lia.
    + replace (length (in_window t [now])) with 0; [rewrite Nat.add_0_r; apply Hr|].
      simpl. destruct (Z.leb_spec now t); [lia|]. by rewrite andb_false_r.
Qed.

(** One sleep is enough: [tick] admits the frame at once or after the oldest
    admission has left the window. *)
Lemma tick_admits now0 now lag admitted recent :
  paced now0 admitted recent → (now0 ≤ now)%Z → (0 ≤ lag)%Z →
  ∃ recent' at_, tick recent now [lag] = Some (recent', at_)
  ∧ (now ≤ at_)%Z ∧ paced at_ (admitted ++ [at_]) recent'
  ∧ (length (expire now recent) < FRAME_RATE_CAP → at_ = now).
Proof.
  intros Hp Hle Hlag. pose proof (paced_later now0 now admitted recent Hp Hle) as Hp1.
  destruct (expire_spec now recent) as (_ & _ & _ & Hfront). simpl.
  destruct (Nat.ltb_spec (length (expire now recent)) FRAME_RATE_CAP) as [Hlt|Hge].
  { eexists _, _. split; [reflexivity|]. split_and!; [lia|by apply paced_admit|done]. }
  destruct (expire now recent) as [|front rest] eqn:He; [simpl in Hge; unfold FRAME_RATE_CAP in Hge; lia|].
  set (now' := (now + (WINDOW - (now - front)) + lag)%Z).
  assert (expire now' (front :: rest) = expire now' rest) as Hex.
  { simpl. destruct (Z.leb_spec WINDOW (now' - front)); [done|]. unfold now' in *. lia. }
  assert (now ≤ now')%Z as Hnow by (unfold now'; lia).
  pose proof (paced_later now now' admitted (front :: rest) Hp1 Hnow) as Hp2.
  rewrite Hex in Hp2. destruct (expire_spec now' rest) as (gone & Hr & _).
  assert (length (expire now' rest) < FRAME_RATE_CAP) as Hlt.
  { pose proof (pc_cap _ _ _ Hp1) as Hc. simpl in Hc. rewrite Hr, length_app in Hc. lia. }
  fold now'. rewrite Hex. destruct (Nat.ltb_spec (length (expire now' rest)) FRAME_RATE_CAP); [|lia].
  eexists _, _. split; [reflexivity|]. split_and!; [done|by apply paced_admit|lia].
Qed.

(** Whatever the times between the writes and however late the timer wakes, the
    pacer admits every write, and no window of one second, wherever it ends,
    holds more admissions than the cap. *)
Theorem pace_rate_capped writes :
  Forall (λ w, 0 ≤ w.1 ∧ 0 ≤ w.2)%Z writes →
  ∃ admitted, pace [] 0 writes = Some admitted ∧ length admitted = length writes
  ∧ ∀ t, length (in_window t admitted) ≤ FRAME_RATE_CAP.
Proof.
  intros Hw.
  enough (∀ now admitted recent, paced now admitted recent → ∃ more,
    pace recent now writes = Some more ∧ length more = length writes
    ∧ ∀ t, length (in_window t (admitted ++ more)) ≤ FRAME_RATE_CAP) as H.
  { apply (H 0%Z [] []). split; [by exists []|constructor|simpl; lia|simpl; lia]. }
  induction Hw as [|[gap lag] writes [Hg Hl] _ IH]; intros now admitted recent Hp; simpl in *.
  - exists []. split_and!; [done|done|]. intros t. rewrite app_nil_r. by apply Hp.
  - destruct (tick_admits now (now + gap) lag admitted recent Hp) as (recent' & at_ & Ht & _ & Hp' & _);
      [lia|done|].
    destruct (IH at_ _ recent' Hp') as (more & Hm & Hlen & Hrate).
    exists (at_ :: more). simpl in Ht. rewrite Ht, Hm. split_and!; [done|simpl; lia|].
    intros t. specialize (Hrate t). by rewrite <-app_assoc in Hrate.
Qed.

(** ** Concrete runs *)

Module FrameDemo.
#[local] Existing Instances Toy.json Toy.json_laws Toy.json_u64 Toy.json_u64_laws Toy.json_index
  Toy.json_text_laws.

Definition delta_frame : Value :=
  VObject [("type", VString "TEXT_MESSAGE_CONTENT"); ("messageId", VString "m0");
           ("delta", VString (utf8 [104; 195; 169; 10; 108])%nat)].

(** A piece never ends inside a character. *)
Example pieces_utf8 :
  pieces 2 (utf8 [104; 195; 169; 10; 108]%nat) = [utf8 [104; 195; 169]; utf8 [10; 108]]%nat.
Proof. vm_compute. reflexivity. Qed.

(** A newline takes two bytes on the wire. *)
Example escaped_text :
  String.length (to_string delta_frame) = 65%nat
  ∧ escaped_size (utf8 [104; 195; 169; 10; 108]%nat) = 6%nat.
Proof. vm_compute. auto. Qed.

(** The 201st of a burst waits for the first to leave the window. *)
Example burst :
  last <$> pace [] 0 (replicate 201 (0, 5)%Z) = Some (Some 1000000005%Z)
  ∧ last <$> pace [] 0 (replicate 200 (0, 5)%Z) = Some (Some 0%Z).
Proof. vm_compute. auto. Qed.

Lemma frames_bounded_witness :
  within (frames (new_with_splitter (Content "delta")) delta_frame).1
  ∧ frames (new_with_splitter (Content "delta")) delta_frame
    = ([to_string delta_frame], new_with_splitter (Content "delta")).
Proof.
  split; [|vm_compute; reflexivity].
  apply (frames_bounded (new_with_splitter (Content "delta")) delta_frame); vm_compute; discriminate.
Defined.

Lemma pace_rate_capped_witness :
  ∃ admitted, pace [] 0 (replicate 201 (0, 5)%Z) = Some admitted
  ∧ length admitted = length (replicate 201 (0, 5)%Z)
  ∧ ∀ t, length (in_window t admitted) ≤ FRAME_RATE_CAP.
Proof. apply (pace_rate_capped (replicate 201 (0, 5)%Z)). apply Forall_replicate. simpl. lia. Defined.
End FrameDemo.
