(* ===== verification/A2a.v ===== *)
(** The A2A protocol adapter of the AgentCore shim
    (paigasus-helikon-runtime-agentcore/src/a2a): tasks and their states
    (types.rs), the in-memory task store and its subscribers (store.rs), the
    registry of cancellation tokens (cancel.rs) and the JSON-RPC methods with the
    driver of a run (rpc.rs).

    A method is a [Prog]: a tree of the operations it performs on the store and
    the registry, each of them one critical section of the source.  Methods run
    concurrently, so [pool_step] interleaves the operations of a pool of methods
    in every way.  Serialization, the identity of tokens and the events of a run
    are parameters. *)

From S2P Require Import Prelude Json Items.

(** ** Tasks *)

Inductive TaskState : Type :=
| Submitted | Working | InputRequired | Completed | Canceled | Failed.

#[export] Instance TaskState_eq_dec : EqDecision TaskState.
Proof. solve_decision. Defined.

Definition NON_TERMINAL : list TaskState := [Submitted; Working; InputRequired].

Definition is_terminal (s : TaskState) : bool :=
  match s with Completed | Canceled | Failed => true | _ => false end.

Inductive Part : Type := PartText (text : string) | PartOther.

Record Artifact := mkArtifact { artifact_id : string; artifact_name : string; parts : list Part }.

Record Task := mkTask {
  task_id : string;
  context_id : string;
  state : TaskState;
  timestamp : string;
  artifacts : list Artifact;
}.

(** The streaming events, as [status_update] and [artifact_update] shape them. *)
Inductive Payload : Type :=
| StatusUpdate (task ctx : string) (s : TaskState) (now : string) (final : bool)
| ArtifactUpdate (task ctx text : string) (last_chunk : bool).

Record TaskEvent := mkTaskEvent { seq : nat; payload : Payload }.

Inductive AgentCoreError : Type := BadRequest (m : string) | Internal (m : string) | NotFound (m : string).

Definition AgentCoreError_display (e : AgentCoreError) : string :=
  match e with
  | BadRequest m => "bad request: " +:+ m
  | Internal m => "internal error: " +:+ m
  | NotFound m => "not found: " +:+ m
  end.

(** ** The in-memory store *)

Definition MAX_EVENTS_PER_TASK : nat := 512.

Record TaskRec := mkTaskRec {
  tr_task : Task;
  tr_events : list TaskEvent;
  tr_first_seq : nat;
  tr_next_seq : nat;
}.

Record Inner := mkInner {
  tasks : gmap string TaskRec;
  order : list string;
  max_tasks : nat;
}.

Definition InMemoryTaskStore_new (max_tasks : nat) : Inner := mkInner ∅ [] (Nat.max max_tasks 1).

(** The eviction loop of [create]. *)
Fixpoint evict_tasks (order : list string) (max : nat) (tasks : gmap string TaskRec)
  : gmap string TaskRec * list string :=
  match order with
  | id :: order' =>
      if (max <? length order)%nat then evict_tasks order' max (delete id tasks) else (tasks, order)
  | [] => (tasks, [])
  end.

Definition store_create (s : Inner) (task : Task) : Inner :=
  let '(ts, ord) := evict_tasks (order s ++ [task_id task]) (max_tasks s)
                      (<[task_id task := mkTaskRec task [] 0 0]> (tasks s)) in
  mkInner ts ord (max_tasks s).

Definition store_get (s : Inner) (id : string) : option Task := tr_task <$> tasks s !! id.

Definition put_rec (s : Inner) (id : string) (r : TaskRec) : Inner :=
  mkInner (<[id := r]> (tasks s)) (order s) (max_tasks s).

Definition not_found (id : string) : AgentCoreError := NotFound ("task " +:+ id).

Definition store_update_state (s : Inner) (now id : string) (expected next : TaskState)
  : result bool AgentCoreError * Inner :=
  match tasks s !! id with
  | None => (Err (not_found id), s)
  | Some r =>
      let t := tr_task r in
      if decide (state t = expected) then
        (Ok true, put_rec s id (mkTaskRec (mkTask (task_id t) (context_id t) next now (artifacts t))
                    (tr_events r) (tr_first_seq r) (tr_next_seq r)))
      else (Ok false, s)
  end.

Definition store_set_artifacts (s : Inner) (id : string) (arts : list Artifact)
  : result unit AgentCoreError * Inner :=
  match tasks s !! id with
  | None => (Err (not_found id), s)
  | Some r =>
      let t := tr_task r in
      (Ok tt, put_rec s id (mkTaskRec (mkTask (task_id t) (context_id t) (state t) (timestamp t) arts)
                 (tr_events r) (tr_first_seq r) (tr_next_seq r)))
  end.

(** The loop that drops the oldest events. *)
Fixpoint trim_events (events : list TaskEvent) (first : nat) : list TaskEvent * nat :=
  match events with
  | _ :: events' =>
      if (MAX_EVENTS_PER_TASK <? length events)%nat then trim_events events' (S first)
      else (events, first)
  | [] => ([], first)
  end.

Definition store_append_event (s : Inner) (id : string) (p : Payload)
  : result nat AgentCoreError * Inner :=
  match tasks s !! id with
  | None => (Err (not_found id), s)
  | Some r =>
      let n := tr_next_seq r in
      let '(events, first) := trim_events (tr_events r ++ [mkTaskEvent n p]) (tr_first_seq r) in
      (Ok n, put_rec s id (mkTaskRec (tr_task r) events first (S n)))
  end.

(** One read of a subscriber: the batch at or after the cursor (clamped to the
    oldest retained event) and whether the task is finished; [None] when it was
    evicted. *)
Definition subscriber_read (s : Inner) (id : string) (cursor : nat)
  : option (nat * list TaskEvent * bool) :=
  match tasks s !! id with
  | None => None
  | Some r =>
      let cursor := Nat.max cursor (tr_first_seq r) in
      Some (cursor, List.filter (λ e, cursor <=? seq e)%nat (tr_events r),
            is_terminal (state (tr_task r)))
  end.

(** What the poll does with it: yield the batch and go on after it, end, or wait
    for the wakeup it enabled before the read. *)
Inductive SubPoll : Type :=
| SubYield (batch : list TaskEvent) (next_cursor : nat)
| SubEnd
| SubWait (cursor : nat).

Definition sub_poll (s : Inner) (id : string) (cursor : nat) : SubPoll :=
  match subscriber_read s id cursor with
  | None => SubEnd
  | Some (cursor, batch, terminal) =>
      match last batch with
      | Some e => SubYield batch (S (seq e))
      | None => if terminal then SubEnd else SubWait cursor
      end
  end.

(** ** Operations and methods *)

(** The world the methods share: the store, the tokens registered for live runs
    and the tokens that have fired. *)
Record World := mkWorld {
  w_store : Inner;
  w_cancels : gmap string nat;
  w_fired : gset nat;
}.

Definition with_store (s : Inner) (w : World) : World := mkWorld s (w_cancels w) (w_fired w).

Inductive Op : Type :=
| OpCreate (task : Task)
| OpGet (id : string)
| OpUpdate (id : string) (expected next : TaskState)
| OpArtifacts (id : string) (arts : list Artifact)
| OpAppend (id : string) (p : Payload)
| OpRegister (id : string) (token : nat)
| OpCancel (id : string)
| OpRemove (id : string).

Definition answer (o : Op) : Type :=
  match o with
  | OpCreate _ => unit
  | OpGet _ => option Task
  | OpUpdate _ _ _ => result bool AgentCoreError
  | OpArtifacts _ _ => result unit AgentCoreError
  | OpAppend _ _ => result nat AgentCoreError
  | OpRegister _ _ => unit
  | OpCancel _ => bool
  | OpRemove _ => unit
  end.

Section Exec.
(** [now_rfc3339] *)
Context (now : World → string).

Definition exec (o : Op) (w : World) : answer o * World :=
  match o with
  | OpCreate t => (tt, with_store (store_create (w_store w) t) w)
  | OpGet id => (store_get (w_store w) id, w)
  | OpUpdate id e n =>
      let '(r, s) := store_update_state (w_store w) (now w) id e n in (r, with_store s w)
  | OpArtifacts id arts =>
      let '(r, s) := store_set_artifacts (w_store w) id arts in (r, with_store s w)
  | OpAppend id p => let '(r, s) := store_append_event (w_store w) id p in (r, with_store s w)
  | OpRegister id token => (tt, mkWorld (w_store w) (<[id := token]> (w_cancels w)) (w_fired w))
  | OpCancel id =>
      match w_cancels w !! id with
      | Some token =>
          (true, mkWorld (w_store w) (delete id (w_cancels w)) ({[token]} ∪ w_fired w))
      | None => (false, w)
      end
  | OpRemove id => (tt, mkWorld (w_store w) (delete id (w_cancels w)) (w_fired w))
  end.
End Exec.

Inductive Prog (A : Type) : Type :=
| Ret (a : A)
| Do (o : Op) (k : answer o → Prog A).
Arguments Ret {A} a.
Arguments Do {A} o k.

Fixpoint bind {A B} (p : Prog A) (f : A → Prog B) : Prog B :=
  match p with
  | Ret a => f a
  | Do o k => Do o (λ x, bind (k x) f)
  end.

Declare Scope prog_scope.
Delimit Scope prog_scope with prog.
Notation "'do' x '<-' o ';' k" := (Do o (λ x, k))
  (at level 10, x name, o at level 100, k at level 200) : prog_scope.
Notation "'run' x '<-' p ';' k" := (bind p (λ x, k))
  (at level 10, x pattern, p at level 100, k at level 200) : prog_scope.
Open Scope prog_scope.

(** ** The JSON-RPC methods *)

Definition PARSE_ERROR : Z := -32700.
Definition INVALID_REQUEST : Z := -32600.
Definition METHOD_NOT_FOUND : Z := -32601.
Definition INVALID_PARAMS : Z := -32602.
Definition INTERNAL_ERROR : Z := -32603.
Definition TASK_NOT_FOUND : Z := -32001.
Definition TASK_NOT_CANCELABLE : Z := -32002.
Definition PUSH_NOTIFICATION_NOT_SUPPORTED : Z := -32003.
Definition UNSUPPORTED_OPERATION : Z := -32004.
Definition CONTENT_TYPE_NOT_SUPPORTED : Z := -32005.

Section Rpc.
Context `{J : SerdeJson}.

Record A2aMessage := mkA2aMessage {
  msg_parts : list Part;
  msg_task_id : option string;
  msg_context_id : option string;
}.

Definition message_text (m : A2aMessage) : string :=
  String.concat "" (omap (λ p, match p with PartText t => Some t | PartOther => None end) (msg_parts m)).

Definition has_non_text_parts (m : A2aMessage) : bool :=
  existsb (λ p, match p with PartOther => true | _ => false end) (msg_parts m).

Record JsonRpcRequest := mkJsonRpcRequest {
  jsonrpc : string;
  rpc_id : option Value;
  method : string;
  params : option Value;
}.

(** A response: the result, an error with its code, or the SSE stream of a
    task's log from a sequence number. *)
Inductive RpcResponse : Type :=
| RpcOk (id : Value) (task : Task)
| RpcErr (id : Value) (code : Z) (message : string)
| RpcStream (id : Value) (task : string) (from : nat).

(** Serde's decoders of the two parameter shapes, and [Debug] of a state and of a
    string. *)
Context (decode_message : Value → result A2aMessage string) (decode_id : Value → result string string).
Context (debug_state : TaskState → string) (debug_str : string → string).

Definition parse_params {T} (decode : Value → result T string) (params : option Value)
  : result T string :=
  match params with
  | None => Err "missing params"
  | Some v => match decode v with Ok t => Ok t | Err e => Err ("invalid params: " +:+ e) end
  end.

(** What surrounds one request: the validated session header, the outcome of
    building the session and the context, the token of the run, the clock, three
    UUIDs and the events the runner streams for a text. *)
Record Env := mkEnv {
  env_session : option string;
  env_built : result unit string;
  env_token : nat;
  env_now : string;
  env_task_uuid : string;
  env_context_uuid : string;
  env_artifact_uuid : string;
  env_run : string → result (list AgentEvent) string;
}.

(** *** The driver *)

Definition assistant_text (item : Item) : string :=
  match item with
  | AssistantMessage content _ =>
      String.concat "" (omap (λ c, match c with Text t => Some t | _ => None end) content)
  | _ => ""
  end.

(** [append] drops a failure of the store. *)
Definition append_payload {A} (id : string) (p : Payload) (k : Prog A) : Prog A :=
  do _ <- OpAppend id p; k.

(** The loop over the events: the accumulated text and the outcome. *)
Fixpoint drive_events (task ctx : string) (evs : list AgentEvent) (accumulated : string)
    (streamed_text : bool) (outcome : TaskState) : Prog (string * TaskState) :=
  match evs with
  | [] => Ret (accumulated, outcome)
  | ev :: evs' =>
      match ev with
      | TokenDelta text =>
          if is_empty text then drive_events task ctx evs' accumulated streamed_text outcome
          else append_payload task (ArtifactUpdate task ctx text false)
                 (drive_events task ctx evs' (accumulated +:+ text) true outcome)
      | MessageOutput item =>
          let text := assistant_text item in
          if streamed_text || is_empty text
          then drive_events task ctx evs' accumulated streamed_text outcome
          else append_payload task (ArtifactUpdate task ctx text false)
                 (drive_events task ctx evs' (accumulated +:+ text) streamed_text outcome)
      | RunFailed _ => drive_events task ctx evs' accumulated streamed_text Failed
      | _ => drive_events task ctx evs' accumulated streamed_text outcome
      end
  end.

Definition driver_events (r : result (list AgentEvent) string) : list AgentEvent :=
  match r with Ok evs => evs | Err e => [RunFailed e] end.

(** The end of the driver, once the stream is over. *)
Definition drive_end (env : Env) (task ctx accumulated : string) (outcome : TaskState) : Prog unit :=
  let finish : Prog unit :=
    do _ <- OpUpdate task Working outcome;
    do t <- OpGet task;
    let final_state := match t with Some t => state t | None => outcome end in
    do _ <- OpAppend task (StatusUpdate task ctx final_state (env_now env) true);
    do _ <- OpRemove task;
    Ret tt in
  if is_empty accumulated then finish
  else do _ <- OpArtifacts task
         [mkArtifact (env_artifact_uuid env) "agent_response" [PartText accumulated]];
       finish.

Definition drive (env : Env) (task ctx text : string) : Prog unit :=
  do _ <- OpUpdate task Submitted Working;
  do _ <- OpAppend task (StatusUpdate task ctx Working (env_now env) false);
  run r <- drive_events task ctx (driver_events (env_run env text)) "" false Completed;
  drive_end env task ctx r.1 r.2.

(** [start_run]: the error, or the driver that is spawned. *)
Definition start_run (env : Env) (task ctx text : string) : Prog (result (Prog unit) string) :=
  match env_built env with
  | Err e => Ret (Err e)
  | Ok _ => do _ <- OpRegister task (env_token env); Ret (Ok (drive env task ctx text))
  end.

(** *** The methods *)

Definition resolve_task (env : Env) (inbound : option string) (ctx : string)
  : Prog (result string (Z * string)) :=
  match inbound with
  | None =>
      let id := env_task_uuid env in
      do _ <- OpCreate (mkTask id ctx Submitted (env_now env) []);
      Ret (Ok id)
  | Some existing =>
      do t <- OpGet existing;
      Ret match t with
          | Some t =>
              if is_terminal (state t) then
                Err (INVALID_PARAMS, "task " +:+ existing +:+ " is in terminal state " +:+
                     debug_state (state t) +:+ " and cannot accept more input")
              else Ok existing
          | None => Err (TASK_NOT_FOUND, "task not found: " +:+ existing)
          end
  end.

Definition NON_TEXT : string := "only text parts are supported; file and data parts are not accepted".

(** What [send] and [stream_message] share: the task and the driver to spawn, or
    the error. *)
Definition open_run (env : Env) (id : Value) (ps : option Value)
  : Prog (result (string * Prog unit) RpcResponse) :=
  match parse_params decode_message ps with
  | Err e => Ret (Err (RpcErr id INVALID_PARAMS e))
  | Ok m =>
      if has_non_text_parts m then Ret (Err (RpcErr id CONTENT_TYPE_NOT_SUPPORTED NON_TEXT))
      else
        let ctx := match env_session env with
                   | Some s => s | None => default (env_context_uuid env) (msg_context_id m) end in
        run r <- resolve_task env (msg_task_id m) ctx;
        match r with
        | Err (code, e) => Ret (Err (RpcErr id code e))
        | Ok task =>
            run h <- start_run env task ctx (message_text m);
            Ret match h with
                | Err e => Err (RpcErr id INTERNAL_ERROR e)
                | Ok driver => Ok (task, driver)
                end
        end
  end.

(** [message/send] awaits the driver. *)
Definition send (env : Env) (id : Value) (ps : option Value) : Prog RpcResponse :=
  run r <- open_run env id ps;
  match r with
  | Err resp => Ret resp
  | Ok (task, driver) =>
      run _ <- driver;
      do t <- OpGet task;
      Ret match t with
          | Some t => RpcOk id t
          | None => RpcErr id INTERNAL_ERROR "the task disappeared while it was running"
          end
  end.

(** [subscribe] looks the task up. *)
Definition sse_for_task (id : Value) (task : string) : Prog RpcResponse :=
  do t <- OpGet task;
  Ret match t with
      | Some _ => RpcStream id task 0
      | None => RpcErr id TASK_NOT_FOUND ("task not found: " +:+ task)
      end.

(** [message/stream] leaves the driver to run beside the stream: the response,
    and the driver that was spawned. *)
Definition stream_message (env : Env) (id : Value) (ps : option Value)
  : Prog (RpcResponse * option (Prog unit)) :=
  run r <- open_run env id ps;
  match r with
  | Err resp => Ret (resp, None)
  | Ok (task, driver) => run resp <- sse_for_task id task; Ret (resp, Some driver)
  end.

Definition resubscribe (id : Value) (ps : option Value) : Prog RpcResponse :=
  match parse_params decode_id ps with
  | Err e => Ret (RpcErr id INVALID_PARAMS e)
  | Ok task => sse_for_task id task
  end.

Definition tasks_get (id : Value) (ps : option Value) : Prog RpcResponse :=
  match parse_params decode_id ps with
  | Err e => Ret (RpcErr id INVALID_PARAMS e)
  | Ok task =>
      do t <- OpGet task;
      Ret match t with
          | Some t => RpcOk id t
          | None => RpcErr id TASK_NOT_FOUND ("task not found: " +:+ task)
          end
  end.

(** The walk over [NON_TERMINAL]: the last answer, or the first that is not a
    refusal. *)
Fixpoint cancel_from (task : string) (froms : list TaskState) (swapped : result bool AgentCoreError)
  : Prog (result bool AgentCoreError) :=
  match froms with
  | [] => Ret swapped
  | from :: froms' =>
      do r <- OpUpdate task from Canceled;
      match r with
      | Ok false => cancel_from task froms' (Ok false)
      | other => Ret other
      end
  end.

Definition tasks_cancel (id : Value) (ps : option Value) : Prog RpcResponse :=
  match parse_params decode_id ps with
  | Err e => Ret (RpcErr id INVALID_PARAMS e)
  | Ok task =>
      do t <- OpGet task;
      match t with
      | None => Ret (RpcErr id TASK_NOT_FOUND ("task not found: " +:+ task))
      | Some t =>
          if is_terminal (state t) then
            Ret (RpcErr id TASK_NOT_CANCELABLE
              ("task " +:+ task +:+ " is already in terminal state " +:+ debug_state (state t)))
          else
            do live <- OpCancel task;
            if negb live then
              Ret (RpcErr id TASK_NOT_CANCELABLE ("task " +:+ task +:+
                " has no live run in this container; " +:+
                "with a durable task store it may be running elsewhere"))
            else
              run swapped <- cancel_from task NON_TERMINAL (Ok false);
              match swapped with
              | Ok false => Ret (RpcErr id TASK_NOT_CANCELABLE
                  ("task " +:+ task +:+ " reached a terminal state before it could be cancelled"))
              | Ok true =>
                  do t <- OpGet task;
                  Ret match t with
                      | Some t => RpcOk id t
                      | None => RpcErr id INTERNAL_ERROR
                                  "the task disappeared while it was being cancelled"
                      end
              | Err e => Ret (RpcErr id INTERNAL_ERROR (AgentCoreError_display e))
              end
      end
  end.

(** [dispatch]: the session header, the body as read and the request as decoded;
    the second component is the driver [message/stream] spawns. *)
Definition dispatch (header : result (option string) AgentCoreError)
    (body : result (result JsonRpcRequest string) string) (env : option string → Env)
  : Prog (RpcResponse * option (Prog unit)) :=
  let plain p : Prog (RpcResponse * option (Prog unit)) := run r <- p; Ret (r, None) in
  match header with
  | Err e => Ret (RpcErr VNull INVALID_REQUEST (AgentCoreError_display e), None)
  | Ok session =>
      match body with
      | Err e => Ret (RpcErr VNull PARSE_ERROR ("failed to read request body: " +:+ e), None)
      | Ok (Err e) => Ret (RpcErr VNull PARSE_ERROR ("parse error: " +:+ e), None)
      | Ok (Ok req) =>
          let id := default VNull (rpc_id req) in
          let m := method req in
          let ps := params req in
          if negb (String.eqb (jsonrpc req) "2.0") then
            Ret (RpcErr id INVALID_REQUEST ("unsupported jsonrpc version " +:+ debug_str (jsonrpc req)
                   +:+ "; expected " +:+ debug_str "2.0"), None)
          else if String.eqb m "message/send" then plain (send (env session) id ps)
          else if String.eqb m "tasks/get" then plain (tasks_get id ps)
          else if String.eqb m "message/stream" then stream_message (env session) id ps
          else if String.eqb m "tasks/resubscribe" then plain (resubscribe id ps)
          else if String.eqb m "tasks/cancel" then plain (tasks_cancel id ps)
          else if starts_with m "tasks/pushNotificationConfig/" then
            Ret (RpcErr id PUSH_NOTIFICATION_NOT_SUPPORTED
                   "this agent does not support push notifications", None)
          else if existsb (String.eqb m)
                    ["agent/authenticatedExtendedCard"; "agent/getAuthenticatedExtendedCard"] then
            Ret (RpcErr id UNSUPPORTED_OPERATION
                   "this agent does not publish an authenticated extended card", None)
          else Ret (RpcErr id METHOD_NOT_FOUND ("method not found: " +:+ m), None)
      end
  end.
End Rpc.

(** ** Interleavings *)

Section Pool.
Context (now : World → string).
Context {A : Type}.

(** A pool of methods: one of them performs its next operation, or a request
    brings a new one. *)
Inductive pool_step (arrives : Prog A → Prop) : World * list (Prog A) → World * list (Prog A) → Prop :=
| pool_do w ps1 ps2 o k :
    pool_step arrives (w, ps1 ++ Do o k :: ps2)
      ((exec now o w).2, ps1 ++ k (exec now o w).1 :: ps2)
| pool_arrive w ps p : arrives p → pool_step arrives (w, ps) (w, ps ++ [p]).

(** One method alone: the operations it performs, its answer and the world it
    leaves. *)
Fixpoint run_alone (p : Prog A) (w : World) : list Op * A * World :=
  match p with
  | Ret a => ([], a, w)
  | Do o k => let '(ops, a, w') := run_alone (k (exec now o w).1) (exec now o w).2 in (o :: ops, a, w')
  end.
End Pool.

(** ** The store *)

Lemma evict_tasks_lookup ord max ts id :
  (evict_tasks ord max ts).1 !! id = ts !! id ∨ (evict_tasks ord max ts).1 !! id = None.
Proof.
  revert ts. induction ord as [|k ord IH]; intros ts; simpl; [by left|].
  destruct (max <? S (length ord))%nat; [|by left].
  destruct (IH (delete k ts)) as [->|]; [|by right].
  destruct (decide (k = id)) as [->|]; [right; apply lookup_delete_eq|left; by apply lookup_delete_ne].
Qed.

Lemma evict_tasks_order ord max ts :
  (length (evict_tasks ord max ts).2 ≤ max ∨ ord = [])%nat
  ∧ (length ord ≤ max → (evict_tasks ord max ts) = (ts, ord))%nat.
Proof.
  revert ts. induction ord as [|k ord IH]; intros ts; simpl; [by split; [right|]|].
  destruct (Nat.ltb_spec max (S (length ord))); [|split; [left; simpl; lia|done]].
  split; [|lia]. left. destruct (IH (delete k ts)) as [[?| ->] _]; [done|simpl; lia].
Qed.

(** The log of a task is a window of consecutive numbers, the next one after
    it, and bounded. *)
Record log_ok (r : TaskRec) : Prop := {
  lo_seqs : seq <$> tr_events r = List.seq (tr_first_seq r) (length (tr_events r));
  lo_next : tr_next_seq r = (tr_first_seq r + length (tr_events r))%nat;
  lo_bound : (length (tr_events r) ≤ MAX_EVENTS_PER_TASK)%nat;
}.

Lemma trim_events_spec events first :
  seq <$> events = List.seq first (length events) →
  let '(events', first') := trim_events events first in
  ∃ gone, events = gone ++ events' ∧ first' = (first + length gone)%nat
  ∧ seq <$> events' = List.seq first' (length events')
  ∧ (length events' ≤ MAX_EVENTS_PER_TASK)%nat
  ∧ (length events ≤ MAX_EVENTS_PER_TASK → gone = [])%nat.
Proof.
  revert first. induction events as [|e events IH]; intros first Hs; cbn [trim_events].
  { exists []. split_and!; try done; simpl; unfold MAX_EVENTS_PER_TASK; lia. }
  destruct (Nat.ltb_spec MAX_EVENTS_PER_TASK (length (e :: events))) as [Hlt|Hge].
  - injection Hs as He Hs. specialize (IH (S first) Hs).
    destruct (trim_events events (S first)) as [events' first'].
    destruct IH as (gone & -> & -> & Hs' & Hb & _). exists (e :: gone).
    split_and!; [done|simpl; lia|done|done|lia].
  - exists []. split_and!; [done|simpl; lia|done|lia|done].
Qed.

(** ** What a method may do to a task *)

Definition state_of (w : World) (id : string) : option TaskState :=
  (λ r, state (tr_task r)) <$> tasks (w_store w) !! id.

(** A task goes from submitted to working, and from a state that is not terminal
    to one that is. *)
Definition moves (s s' : TaskState) : Prop :=
  (s = Submitted ∧ s' = Working) ∨ (is_terminal s = false ∧ is_terminal s' = true).

Definition advance (s s' : TaskState) : Prop := s = s' ∨ moves s s'.

(** What the others may do to a task meanwhile: advance it or evict it. *)
Definition rely (id : string) (w w' : World) : Prop :=
  match state_of w id, state_of w' id with
  | Some s, Some s' => advance s s'
  | None, Some _ => False
  | _, None => True
  end.

#[export] Instance rely_preorder id : PreOrder (rely id).
Proof.
  split.
  - intros w. unfold rely. destruct (state_of w id); [by left|done].
  - intros w1 w2 w3. unfold rely.
    destruct (state_of w1 id) as [s1|], (state_of w2 id) as [s2|], (state_of w3 id) as [s3|]; try done.
    unfold advance, moves. intros [->|[[-> ->]|[H1 H2]]] [->|[[? ->]|[H3 H4]]]; simplify_eq/=; auto.
Qed.

(** An operation that keeps to it. *)
Definition op_ok (id : string) (o : Op) : Prop :=
  match o with
  | OpCreate t => task_id t ≠ id
  | OpUpdate _ e n => moves e n
  | _ => True
  end.

Fixpoint keeps {A} (id : string) (φ : A → Prop) (p : Prog A) : Prop :=
  match p with
  | Ret a => φ a
  | Do o k => op_ok id o ∧ ∀ x, keeps id φ (k x)
  end.

Lemma keeps_bind {A B} id (φ : A → Prop) (ψ : B → Prop) p f :
  keeps id φ p → (∀ a, φ a → keeps id ψ (f a)) → keeps id ψ (bind p f).
Proof. induction p as [a|o k IH]; simpl; [auto|]. intros [Ho Hk] Hf. split; [done|]. auto. Qed.

Lemma keeps_weaken {A} id (φ ψ : A → Prop) p : keeps id φ p → (∀ a, φ a → ψ a) → keeps id ψ p.
Proof. induction p as [a|o k IH]; simpl; [auto|]. intros [Ho Hk] H. split; [done|]. auto. Qed.

(** The state of a task after an update. *)
Lemma update_state_spec now id e n w :
  let '(r, w') := exec now (OpUpdate id e n) w in
  match state_of w id with
  | None => r = Err (not_found id) ∧ w' = w
  | Some s =>
      if decide (s = e) then r = Ok true ∧ state_of w' id = Some n else r = Ok false ∧ w' = w
  end.
Proof.
  simpl. unfold store_update_state, state_of. destruct w as [st c f]. simpl.
  destruct (tasks st !! id) as [r|]; simpl; [|done].
  destruct (decide (state (tr_task r) = e)); simpl; [|done].
  by rewrite lookup_insert_eq.
Qed.

Lemma exec_rely now id o w : op_ok id o → rely id w (exec now o w).2.
Proof.
  assert (∀ w', state_of w' id = state_of w id → rely id w w') as Hsame.
  { intros w' H. unfold rely. rewrite H. destruct (state_of w id); [by left|done]. }
  destruct o as [t| |id' e n|id' arts|id' p|id' tok|id'|id']; simpl; intros Hok.
  - unfold rely, state_of, store_create. simpl.
    pose proof (evict_tasks_lookup (order (w_store w) ++ [task_id t]) (max_tasks (w_store w))
      (<[task_id t := mkTaskRec t [] 0 0]> (tasks (w_store w))) id) as He.
    destruct (evict_tasks _ _ _) as [ts ord]. simpl in *.
    rewrite lookup_insert_ne in He by done. destruct He as [->| ->].
    + destruct (tasks (w_store w) !! id); simpl; [by left|done].
    + by destruct (tasks (w_store w) !! id).
  - by apply Hsame.
  - destruct (decide (id' = id)) as [->|Hne].
    + pose proof (update_state_spec now id e n w) as Hu. simpl in Hu.
      destruct (store_update_state _ _ _ _ _) as [r s']. unfold rely. simpl.
      destruct (state_of w id) as [s|] eqn:Hs.
      * destruct (decide (s = e)) as [->|]; destruct Hu as [_ Hu]; rewrite Hu; [|rewrite Hs; by left].
        by right.
      * destruct Hu as [_ Hu]. rewrite Hu, Hs. done.
    + unfold store_update_state. destruct (tasks (w_store w) !! id') as [r|]; simpl; [|by apply Hsame].
      destruct (decide _); simpl; [|by apply Hsame]. apply Hsame. unfold state_of. simpl.
      by rewrite lookup_insert_ne.
  - unfold store_set_artifacts. destruct (tasks (w_store w) !! id') as [r|] eqn:Hr; simpl; [|by apply Hsame].
    apply Hsame. unfold state_of. simpl. destruct (decide (id' = id)) as [->|]; [|by rewrite lookup_insert_ne].
    by rewrite lookup_insert_eq, Hr.
  - unfold store_append_event. destruct (tasks (w_store w) !! id') as [r|] eqn:Hr; simpl; [|by apply Hsame].
    destruct (trim_events _ _) as [evs first]. simpl.
    apply Hsame. unfold state_of. simpl. destruct (decide (id' = id)) as [->|]; [|by rewrite lookup_insert_ne].
    by rewrite lookup_insert_eq, Hr.
  - by apply Hsame.
  - destruct (w_cancels w !! id'); by apply Hsame.
  - by apply Hsame.
Qed.

(** ** Reasoning about one method among others *)

Section Wp.
Context (now : World → string) {A : Type} (id : string).

(** Whatever the others do between its operations, [p] answers with [Q]. *)
Fixpoint wp (p : Prog A) (Q : A → World → Prop) (w : World) : Prop :=
  match p with
  | Ret a => Q a w
  | Do o k => ∀ w1, rely id w w1 → wp (k (exec now o w1).1) Q (exec now o w1).2
  end.

Lemma lookup_other (ps1 ps2 : list (Prog A)) p p' j :
  j ≠ length ps1 → (ps1 ++ p :: ps2) !! j = (ps1 ++ p' :: ps2) !! j.
Proof.
  intros Hj. destruct (decide (j < length ps1)) as [Hlt|Hge].
  - by rewrite !lookup_app_l.
  - rewrite !lookup_app_r by lia. destruct (j - length ps1) eqn:E; [lia|done].
Qed.

Definition stable (Q : A → World → Prop) : Prop := ∀ a w w', rely id w w' → Q a w → Q a w'.

Lemma pool_keeps arrives x y :
  (∀ p, arrives p → keeps id (λ _ : A, True) p) →
  rtc (pool_step now arrives) x y → Forall (keeps id (λ _ : A, True)) x.2 →
  rely id x.1 y.1 ∧ Forall (keeps id (λ _ : A, True)) y.2.
Proof.
  intros Harr. induction 1 as [x|x y z Hstep _ IH]; intros Hk; [done|].
  assert (rely id x.1 y.1 ∧ Forall (keeps id (λ _ : A, True)) y.2) as [H1 H2].
  { destruct Hstep as [w ps1 ps2 o k|w ps p Hp]; simpl in *.
    - apply Forall_app in Hk as [Hk1 Hk2]. apply Forall_cons in Hk2 as [[Ho Hk] Hk2].
      split; [by apply exec_rely|]. apply Forall_app. split; [done|]. by constructor.
    - split; [done|]. apply Forall_app. split; [done|]. constructor; [by apply Harr|constructor]. }
  destruct (IH H2) as [H3 H4]. split; [by etrans|done].
Qed.

(** A method of a pool whose methods keep to [rely] answers as [wp] says. *)
Lemma wp_sound arrives w ps j p Q w' ps' a :
  (∀ p, arrives p → keeps id (λ _ : A, True) p) →
  Forall (keeps id (λ _ : A, True)) ps → stable Q → ps !! j = Some p → wp p Q w →
  rtc (pool_step now arrives) (w, ps) (w', ps') → ps' !! j = Some (Ret a) → Q a w'.
Proof.
  intros Harr Hk HQ Hj Hwp Hsteps Ha.
  enough (∃ p' w1, ps' !! j = Some p' ∧ rely id w1 w' ∧ wp p' Q w1) as (p' & w1 & Hp' & Hr & Hwp').
  { rewrite Ha in Hp'. injection Hp' as <-. by apply (HQ a w1 w'). }
  clear Ha a. remember (w, ps) as x eqn:Ex. remember (w', ps') as y eqn:Ey.
  revert w ps w' ps' p Ex Ey Hk Hj Hwp.
  assert (∀ x y, rtc (pool_step now arrives) x y → ∀ p w0, Forall (keeps id (λ _ : A, True)) x.2 →
    x.2 !! j = Some p → rely id w0 x.1 → wp p Q w0 →
    ∃ p' w1, y.2 !! j = Some p' ∧ rely id w1 y.1 ∧ wp p' Q w1) as Hgo.
  { clear -Harr. induction 1 as [x|x y z Hstep _ IH]; intros p w0 Hk Hj Hr Hwp; [by exists p, w0|].
    destruct Hstep as [w ps1 ps2 o k|w ps q Hq]; simpl in *.
    - apply Forall_app in Hk as [Hk1 Hk2]. apply Forall_cons in Hk2 as [[Ho Hk] Hk2].
      assert (Forall (keeps id (λ _ : A, True)) (ps1 ++ k (exec now o w).1 :: ps2)) as Hk'.
      { apply Forall_app. split; [done|]. by constructor. }
      destruct (decide (j = length ps1)) as [->|Hne].
      + rewrite list_lookup_middle in Hj by done. injection Hj as <-.
        apply (IH (k (exec now o w).1) (exec now o w).2); [done|by rewrite list_lookup_middle|done|].
        by apply Hwp.
      + apply (IH p w0); [done| | |done].
        * by rewrite (lookup_other ps1 ps2 _ (Do o k)).
        * etrans; [done|by apply exec_rely].
    - apply (IH p w0); [|by apply lookup_app_l_Some|done|done].
      apply Forall_app. split; [done|]. constructor; [by apply Harr|constructor]. }
  intros w ps w' ps' p -> -> Hk Hj Hwp.
  apply (Hgo (w, ps) (w', ps') Hsteps p w); done.
Qed.
End Wp.

Lemma wp_bind {A B} now id (p : Prog A) (f : A → Prog B) Q w :
  wp now id p (λ a w', wp now id (f a) Q w') w → wp now id (bind p f) Q w.
Proof. revert w. induction p as [a|o k IH]; simpl; intros w H; [done|]. intros w1 Hr. auto. Qed.

Lemma wp_mono {A} now id (p : Prog A) (Q Q' : A → World → Prop) w :
  wp now id p Q w → (∀ a w', Q a w' → Q' a w') → wp now id p Q' w.
Proof. revert w. induction p as [a|o k IH]; simpl; intros w H HQ; auto. Qed.

(** A task that is finished, or gone. *)
Definition ended (id : string) (w : World) : Prop :=
  match state_of w id with Some s => is_terminal s = true | None => True end.
Definition ended_in (id : string) (s : TaskState) (w : World) : Prop :=
  state_of w id = Some s ∨ state_of w id = None.
(** A task that is not [Submitted], nor one that asks for input. *)
Definition under_way (id : string) (w : World) : Prop :=
  match state_of w id with Some s => s = Working ∨ is_terminal s = true | None => True end.

Ltac task_states id :=
  unfold rely, ended, ended_in, under_way, advance, moves;
  repeat match goal with |- context [state_of ?w id] => destruct (state_of w id) as [[]|] end;
  naive_solver.

Lemma ended_stable id w w' : rely id w w' → ended id w → ended id w'.
Proof. task_states id. Qed.

Lemma ended_in_stable id s w w' : is_terminal s = true → rely id w w' → ended_in id s w → ended_in id s w'.
Proof. intros Hs. destruct s; try done; task_states id. Qed.

Lemma under_way_stable id w w' : rely id w w' → under_way id w → under_way id w'.
Proof. task_states id. Qed.

Lemma gone_stable id w w' : rely id w w' → state_of w id = None → state_of w' id = None.
Proof. unfold rely. intros H Hn. rewrite Hn in H. by destruct (state_of w' id). Qed.

Section Methods.
Context `{J : SerdeJson}.
Context (decode_message : Value → result A2aMessage string) (decode_id : Value → result string string).
Context (debug_state : TaskState → string).
Context (now : World → string).

(** *** The driver *)

Lemma drive_events_keeps id task ctx evs acc st outcome :
  is_terminal outcome = true →
  keeps id (λ r : string * TaskState, is_terminal r.2 = true) (drive_events task ctx evs acc st outcome).
Proof.
  revert acc st outcome. induction evs as [|ev evs IH]; intros acc st outcome Ho; [done|].
  destruct ev; simpl; auto.
  - destruct (is_empty text); simpl; auto.
  - destruct (st || is_empty (assistant_text item)); simpl; auto.
Qed.

Lemma drive_end_keeps id env task ctx acc outcome :
  is_terminal outcome = true → keeps id (λ _, True) (drive_end env task ctx acc outcome).
Proof.
  intros Ho. unfold drive_end.
  destruct (is_empty acc); simpl; unfold moves; repeat (split || intros ?); auto.
Qed.

Lemma drive_keeps id env task ctx text : keeps id (λ _, True) (drive env task ctx text).
Proof.
  unfold drive. split; [by left|]. intros _. split; [done|]. intros _.
  eapply keeps_bind; [by apply drive_events_keeps|]. intros r Hr. by apply drive_end_keeps.
Qed.

Lemma wp_drive_events id ctx evs acc st outcome w :
  under_way id w → is_terminal outcome = true →
  wp now id (drive_events id ctx evs acc st outcome)
    (λ r w', under_way id w' ∧ is_terminal r.2 = true) w.
Proof.
  revert acc st outcome w. induction evs as [|ev evs IH]; intros acc st outcome w Hw Ho; [done|].
  assert (∀ p acc st w1, rely id w w1 → wp now id (drive_events id ctx evs acc st outcome)
    (λ r w', under_way id w' ∧ is_terminal r.2 = true) (exec now (OpAppend id p) w1).2) as Happ.
  { intros p acc' st' w1 Hr. apply IH; [|done].
    eapply under_way_stable; [by apply exec_rely|]. by eapply under_way_stable. }
  destruct ev; simpl; try (by apply IH).
  - destruct (is_empty text); [by apply IH|]. intros w1 Hr. apply (Happ _ _ _ w1 Hr).
  - destruct (st || is_empty (assistant_text item)); [by apply IH|]. intros w1 Hr.
    apply (Happ _ _ _ w1 Hr).
Qed.

Lemma wp_drive_end id env ctx acc outcome w :
  under_way id w → is_terminal outcome = true →
  wp now id (drive_end env id ctx acc outcome) (λ _ w', ended id w') w.
Proof.
  intros Hw Ho. unfold drive_end.
  set (finish := Do (OpUpdate id Working outcome) _).
  assert (∀ w, under_way id w → wp now id finish (λ _ w', ended id w') w) as Hfin.
  { clear w Hw. intros w Hw w1 Hr. pose proof (update_state_spec now id Working outcome w1) as Hu.
    assert (ended id (exec now (OpUpdate id Working outcome) w1).2) as He.
    { pose proof (under_way_stable id w w1 Hr Hw) as Hw1. revert Hu.
      destruct (exec now (OpUpdate id Working outcome) w1) as [r w2]. unfold under_way in Hw1. unfold ended.
      destruct (state_of w1 id) as [s|] eqn:Hs; simpl; [|by intros [_ ->]; rewrite Hs].
      destruct (decide (s = Working)) as [->|]; [by intros [_ ->]|]. intros [_ ->]. rewrite Hs.
      by destruct Hw1. }
    intros w3 H3 w4 H4 w5 H5.
    assert (∀ o w w', op_ok id o → rely id (exec now o w).2 w' → ended id w → ended id w') as Hgo.
    { intros o w6 w7 Ho6 Hr6 He6. eapply ended_stable; [exact Hr6|].
      eapply ended_stable; [by apply exec_rely|done]. }
    apply (ended_stable id _ _ H3) in He.
    eapply (Hgo (OpRemove id) w5); [done|reflexivity|].
    eapply (Hgo (OpAppend id _) w4); [done|exact H5|].
    by eapply (Hgo (OpGet id) w3). }
  destruct (is_empty acc); [by apply Hfin|]. intros w1 Hr. apply Hfin.
  eapply under_way_stable; [by apply exec_rely|]. by eapply under_way_stable.
Qed.

Lemma wp_drive id env ctx text w :
  state_of w id ≠ Some InputRequired →
  wp now id (drive env id ctx text) (λ _ w', ended id w') w.
Proof.
  intros Hw w1 Hr. assert (under_way id (exec now (OpUpdate id Submitted Working) w1).2) as H1.
  { pose proof (update_state_spec now id Submitted Working w1) as Hu. revert Hu Hr Hw.
    destruct (exec now _ w1) as [r w2]. unfold under_way, rely, advance, moves. simpl.
    destruct (state_of w1 id) as [s|] eqn:Hs; [|by intros [_ ->]; rewrite Hs].
    destruct (decide (s = Submitted)) as [->|]; intros [_ Heq]; [rewrite Heq; by left|].
    rewrite Heq, Hs. destruct (state_of w id) as [s0|]; [|done].
    destruct s, s0; naive_solver. }
  intros w3 H3. apply wp_bind. eapply wp_mono.
  - apply wp_drive_events; [|done]. eapply under_way_stable; [by apply exec_rely|].
    by eapply under_way_stable.
  - intros r w4 [H4 H5]. by apply wp_drive_end.
Qed.

(** *** Cancellation *)

Lemma cancel_from_keeps id task froms swapped :
  Forall (λ s, is_terminal s = false) froms →
  keeps id (λ _, True) (cancel_from task froms swapped).
Proof.
  intros Hf. revert swapped. induction Hf as [|s froms Hs _ IH]; intros swapped; simpl; [done|].
  split; [by right|]. intros [[]|]; simpl; auto.
Qed.

Abbreviation cancel := (tasks_cancel decode_id debug_state).

Lemma tasks_cancel_keeps id rid ps : keeps id (λ _, True) (cancel rid ps).
Proof.
  unfold tasks_cancel. destruct (parse_params decode_id ps) as [task|e]; [|done].
  split; [done|]. intros [t|]; [|done]. destruct (is_terminal (state t)); [done|].
  split; [done|]. intros [|]; [|done]. cbn [negb].
  eapply keeps_bind; [apply cancel_from_keeps; repeat constructor|].
  intros [[]|] _; simpl; auto.
Qed.

Definition NO_LIVE_RUN (task : string) : string :=
  "task " +:+ task +:+ " has no live run in this container; " +:+
  "with a durable task store it may be running elsewhere".

(** What an answer of [tasks/cancel] means. *)
Definition cancel_post (task : string) (resp : RpcResponse) (w : World) : Prop :=
  match resp with
  | RpcOk _ t => state t = Canceled ∧ ended_in task Canceled w
  | RpcErr _ code m =>
      (code = TASK_NOT_CANCELABLE ∧ (ended task w ∨ m = NO_LIVE_RUN task))
      ∨ ((code = TASK_NOT_FOUND ∨ code = INTERNAL_ERROR) ∧ state_of w task = None)
  | RpcStream _ _ _ => False
  end.

Lemma cancel_post_stable task a w w' :
  rely task w w' → cancel_post task a w → cancel_post task a w'.
Proof.
  intros Hr. destruct a as [rid t|rid c m|]; simpl; [| |done].
  - intros [? H]. split; [done|]. by eapply ended_in_stable.
  - intros [[? [H|H]]|[? H]]; [left|left|right]; (split; [done|]); auto.
    + left. by eapply ended_stable.
    + by eapply gone_stable.
Qed.

(** Each refused swap rules a state out. *)
Definition past (id : string) (froms : list TaskState) (w : World) : Prop :=
  match state_of w id with Some s => s ∉ froms | None => True end.

Lemma past_stable id froms w w' :
  (froms = [] ∨ froms = [Submitted] ∨ froms = [Submitted; Working]) →
  rely id w w' → past id froms w → past id froms w'.
Proof.
  unfold rely, past, advance, moves. intros Hf Hr Hp.
  destruct (state_of w id) as [s|], (state_of w' id) as [s'|]; try done.
  destruct Hr as [->|[[-> ->]|[H1 H2]]]; [done| |].
  - destruct Hf as [->|[->| ->]]; set_solver.
  - destruct s'; try done; destruct Hf as [->|[->| ->]]; set_solver.
Qed.

Lemma wp_cancel_swap id from froms w Q :
  (froms = [] ∨ froms = [Submitted] ∨ froms = [Submitted; Working]) → past id froms w →
  (∀ w', ended_in id Canceled w' → Q (Ok true) w') →
  (∀ w', state_of w' id = None → Q (Err (not_found id)) w') →
  (∀ w', past id (froms ++ [from]) w' → Q (Ok false) w') →
  ∀ w1, rely id w w1 →
    Q (exec now (OpUpdate id from Canceled) w1).1 (exec now (OpUpdate id from Canceled) w1).2.
Proof.
  intros Hf Hp H1 H2 H3 w1 Hr. pose proof (past_stable id froms w w1 Hf Hr Hp) as Hp1.
  pose proof (update_state_spec now id from Canceled w1) as Hu. revert Hu.
  destruct (exec now _ w1) as [r w2]. cbn [fst snd]. unfold past in Hp1.
  destruct (state_of w1 id) as [s|] eqn:Hs; [|by intros [-> ->]; apply H2].
  destruct (decide (s = from)) as [->|Hne]; intros [-> Hw]; [by apply H1; left|].
  apply H3. unfold past. rewrite Hw, Hs. set_solver.
Qed.

(** What the walk over [NON_TERMINAL] ends with. *)
Definition swap_post (id : string) (r : result bool AgentCoreError) (w : World) : Prop :=
  match r with
  | Ok true => ended_in id Canceled w
  | Ok false => ended id w
  | Err _ => state_of w id = None
  end.

Lemma wp_cancel_step id from rest froms w :
  (froms = [] ∨ froms = [Submitted] ∨ froms = [Submitted; Working]) → past id froms w →
  (∀ w', past id (froms ++ [from]) w' → wp now id (cancel_from id rest (Ok false)) (swap_post id) w') →
  wp now id (cancel_from id (from :: rest) (Ok false)) (swap_post id) w.
Proof.
  intros Hf Hp Hrest w1 Hr.
  apply (wp_cancel_swap id from froms w (λ r w', wp now id
    match r with Ok false => cancel_from id rest (Ok false) | other => Ret other end
    (swap_post id) w')); done.
Qed.

Lemma wp_cancel_from id w : wp now id (cancel_from id NON_TERMINAL (Ok false)) (swap_post id) w.
Proof.
  apply (wp_cancel_step id Submitted _ []); [by left|unfold past; destruct (state_of w id); set_solver|].
  intros w2 H2. apply (wp_cancel_step id Working _ [Submitted]); [auto|done|].
  intros w3 H3. apply (wp_cancel_step id InputRequired _ [Submitted; Working]); [auto|done|].
  intros w4 H4. simpl. unfold past in H4. unfold ended. destruct (state_of w4 id) as [[]|]; set_solver.
Qed.

Lemma get_state w id : state_of w id = state <$> store_get (w_store w) id.
Proof. unfold state_of, store_get. by destruct (tasks (w_store w) !! id). Qed.

Lemma wp_tasks_cancel id rid v w :
  decode_id v = Ok id → wp now id (cancel rid (Some v)) (cancel_post id) w.
Proof.
  intros Hd. unfold tasks_cancel, parse_params. rewrite Hd. intros w1 _.
  change (exec now (OpGet id) w1) with (store_get (w_store w1) id, w1). cbn [fst snd].
  pose proof (get_state w1 id) as Hg. destruct (store_get (w_store w1) id) as [t|]; simpl in Hg.
  - destruct (is_terminal (state t)) eqn:Ht.
    + left. split; [done|]. left. unfold ended. by rewrite Hg.
    + intros w2 _. destruct (exec now (OpCancel id) w2) as [[|] w3]; cbn [fst snd negb].
      * apply wp_bind. eapply wp_mono; [apply wp_cancel_from|]. intros [[|]|e] w4 H4.
        -- intros w5 H5. change (exec now (OpGet id) w5) with (store_get (w_store w5) id, w5). cbn [fst snd].
           apply (ended_in_stable id Canceled _ _ eq_refl H5) in H4. unfold ended_in in H4.
           rewrite get_state in H4. pose proof (get_state w5 id) as Hg5.
           destruct (store_get (w_store w5) id) as [t5|]; simpl in *.
           ++ split; [naive_solver|]. by left; rewrite Hg5; naive_solver.
           ++ right. auto.
        -- left. auto.
        -- right. auto.
      * left. auto.
  - right. auto.
Qed.

(** *** All methods *)

Definition lift {A} (f : A → option RpcResponse) (p : Prog A) : Prog (option RpcResponse) :=
  bind p (λ a, Ret (f a)).

(** The methods of a server in which no fresh task id is [id]; drivers are those
    of the runs that were spawned. *)
Inductive served (id : string) : Prog (option RpcResponse) → Prop :=
| served_send env rid ps :
    env_task_uuid env ≠ id → served id (lift Some (send decode_message debug_state env rid ps))
| served_stream env rid ps :
    env_task_uuid env ≠ id →
    served id (lift (λ r, Some r.1) (stream_message decode_message debug_state env rid ps))
| served_resubscribe rid ps : served id (lift Some (resubscribe decode_id rid ps))
| served_get rid ps : served id (lift Some (tasks_get decode_id rid ps))
| served_cancel rid ps : served id (lift Some (cancel rid ps))
| served_drive env task ctx text : served id (lift (λ _, None) (drive env task ctx text)).

Lemma keeps_lift {A} id (f : A → option RpcResponse) p :
  keeps id (λ _, True) p → keeps id (λ _, True) (lift f p).
Proof. intros H. by eapply keeps_bind. Qed.

Lemma open_run_keeps id env rid ps :
  env_task_uuid env ≠ id →
  keeps id (λ r, match r with Ok (_, driver) => keeps id (λ _, True) driver | Err _ => True end)
    (open_run decode_message debug_state env rid ps).
Proof.
  intros Hid. unfold open_run. destruct (parse_params decode_message ps) as [m|]; [|done].
  destruct (has_non_text_parts m); [done|].
  eapply (keeps_bind _ (λ _, True)).
  - unfold resolve_task. destruct (msg_task_id m); simpl; [|done]. split; [done|].
    intros [t|]; simpl; [|done]. by destruct (is_terminal (state t)).
  - intros [task|[code e]] _; [|done]. unfold start_run. destruct (env_built env); [|done].
    split; [done|]. intros _. apply drive_keeps.
Qed.

Lemma served_keeps id p : served id p → keeps id (λ _, True) p.
Proof.
  intros [env rid ps Hid|env rid ps Hid|rid ps|rid ps|rid ps|env task ctx text]; apply keeps_lift.
  - unfold send. eapply keeps_bind; [by apply open_run_keeps|].
    intros [[task driver]|resp] H; [|done]. eapply keeps_bind; [exact H|].
    intros [] _. split; [done|]. by intros [t|].
  - unfold stream_message. eapply keeps_bind; [by apply open_run_keeps|].
    intros [[task driver]|resp] H; [|done]. split; [done|]. by intros [t|].
  - unfold resubscribe. destruct (parse_params decode_id ps); [|done]. split; [done|]. by intros [t|].
  - unfold tasks_get. destruct (parse_params decode_id ps); [|done]. split; [done|]. by intros [t|].
  - apply tasks_cancel_keeps.
  - apply drive_keeps.
Qed.

Lemma methods_keep id ps : Forall (served id) ps → Forall (keeps id (λ _, True)) ps.
Proof. intros H. eapply Forall_weaken; [exact H|]. apply served_keeps. Qed.

Lemma wp_lift {A} id (f : A → option RpcResponse) p (Q : A → World → Prop) w :
  wp now id p Q w → wp now id (lift f p) (λ r w', ∃ a, r = f a ∧ Q a w') w.
Proof. intros H. apply wp_bind. eapply wp_mono; [exact H|]. intros a w' Ha. by exists a. Qed.


(** C40. A driver that returns leaves its task in a terminal state (or evicted),
    whatever ran beside it, and no method changes that state afterwards. *)
Theorem drive_settles id env ctx text w ps j w' ps' w'' ps'' :
  Forall (served id) ps → ps !! j = Some (lift (λ _, None) (drive env id ctx text)) →
  state_of w id ≠ Some InputRequired →
  rtc (pool_step now (served id)) (w, ps) (w', ps') → ps' !! j = Some (Ret None) →
  rtc (pool_step now (served id)) (w', ps') (w'', ps'') →
  match state_of w' id with
  | Some s => is_terminal s = true ∧ ended_in id s w''
  | None => state_of w'' id = None
  end.
Proof.
  intros Hps Hj Hw Hsteps Hr Hmore.
  assert (∃ a : unit, None = (None : option RpcResponse) ∧ ended id w') as (_ & _ & He).
  { apply (wp_sound now id (served id) w ps j (lift (λ _, None) (drive env id ctx text))
      (λ r w, ∃ a : unit, r = None ∧ ended id w) w' ps' None); try done.
    - intros p. apply served_keeps.
    - by apply methods_keep.
    - intros r w1 w2 Hrel (a & -> & Ha). exists a. split; [done|]. by eapply ended_stable.
    - apply (wp_lift id (λ _, None) _ (λ _ w, ended id w)). by apply wp_drive. }
  pose proof (pool_keeps now id (served id) _ _ (λ p, served_keeps id p) Hsteps (methods_keep id ps Hps))
    as [_ Hk].
  pose proof (pool_keeps now id (served id) _ _ (λ p, served_keeps id p) Hmore Hk) as [Hrel _].
  simpl in Hrel. unfold ended in He. destruct (state_of w' id) as [s|] eqn:Hs.
  - split; [done|]. by apply (ended_in_stable id s w' w''); [|done|left].
  - by eapply gone_stable.
Qed.
End Methods.

(** ** A driver alone *)

Section Alone.
Context (now : World → string).

Lemma run_alone_bind {A B} (p : Prog A) (f : A → Prog B) w :
  run_alone now (bind p f) w =
    let '(ops1, a, w1) := run_alone now p w in
    let '(ops2, b, w2) := run_alone now (f a) w1 in (ops1 ++ ops2, b, w2).
Proof.
  revert w. induction p as [a|o k IH]; intros w; simpl.
  - by destruct (run_alone now (f a) w) as [[ops b] w2].
  - rewrite IH. destruct (run_alone now (k _) _) as [[ops1 a] w1].
    by destruct (run_alone now (f a) w1) as [[ops2 b] w2].
Qed.

(** The payloads a list of operations appends to a task, the text chunks of a
    stream of events and its outcome. *)
Definition appended (id : string) (ops : list Op) : list Payload :=
  omap (λ o, match o with
             | OpAppend id' p => if String.eqb id' id then Some p else None
             | _ => None
             end) ops.

Fixpoint chunks `{J : SerdeJson} (streamed : bool) (evs : list AgentEvent) : list string :=
  match evs with
  | [] => []
  | TokenDelta text :: evs' =>
      if is_empty text then chunks streamed evs' else text :: chunks true evs'
  | MessageOutput item :: evs' =>
      if streamed || is_empty (assistant_text item) then chunks streamed evs'
      else assistant_text item :: chunks streamed evs'
  | _ :: evs' => chunks streamed evs'
  end.

Definition outcome_of `{J : SerdeJson} (evs : list AgentEvent) : TaskState :=
  if existsb (λ ev, match ev with RunFailed _ => true | _ => false end) evs then Failed else Completed.

Lemma appended_cons id p ops : appended id (OpAppend id p :: ops) = p :: appended id ops.
Proof. unfold appended. cbn [omap list_omap]. by rewrite String.eqb_refl. Qed.

Lemma appended_app id ops1 ops2 : appended id (ops1 ++ ops2) = appended id ops1 ++ appended id ops2.
Proof. apply omap_app. Qed.

Lemma get_append id p w : store_get (w_store (exec now (OpAppend id p) w).2) id = store_get (w_store w) id.
Proof.
  unfold exec, store_append_event, store_get. destruct (tasks (w_store w) !! id) as [r|] eqn:Hr; simpl; [|by rewrite Hr].
  destruct (trim_events _ _) as [evs first]. simpl. by rewrite lookup_insert_eq.
Qed.

Lemma get_update id e n w t :
  store_get (w_store w) id = Some t →
  store_get (w_store (exec now (OpUpdate id e n) w).2) id
  = Some (if decide (state t = e) then mkTask (task_id t) (context_id t) n (now w) (artifacts t) else t).
Proof.
  unfold exec, store_update_state, store_get. destruct (tasks (w_store w) !! id) as [r|] eqn:Hr; [|done].
  intros [= <-]. destruct (decide (state (tr_task r) = e)); simpl; [by rewrite lookup_insert_eq|by rewrite Hr].
Qed.

Lemma get_artifacts id arts w t :
  store_get (w_store w) id = Some t →
  store_get (w_store (exec now (OpArtifacts id arts) w).2) id
  = Some (mkTask (task_id t) (context_id t) (state t) (timestamp t) arts).
Proof.
  unfold exec, store_set_artifacts, store_get. destruct (tasks (w_store w) !! id) as [r|]; [|done].
  intros [= <-]. simpl. by rewrite lookup_insert_eq.
Qed.

Context `{J : SerdeJson}.

Lemma drive_events_alone id ctx evs acc st outcome w :
  let '(ops, r, w') := run_alone now (drive_events id ctx evs acc st outcome) w in
  appended id ops = (λ t, ArtifactUpdate id ctx t false) <$> chunks st evs
  ∧ r = (acc +:+ String.concat "" (chunks st evs),
         if existsb (λ ev, match ev with RunFailed _ => true | _ => false end) evs then Failed else outcome)
  ∧ store_get (w_store w') id = store_get (w_store w) id.
Proof.
  revert acc st outcome w.
  assert (∀ (x : string) l, String.concat "" (x :: l) = x +:+ String.concat "" l) as Hcat.
  { intros x [|y l]; simpl; [by rewrite string_app_nil_r|done]. }
  induction evs as [|ev evs IH]; intros acc st outcome w.
  { simpl. by rewrite string_app_nil_r. }
  assert (∀ text st', let '(ops, r, w') := run_alone now (append_payload id (ArtifactUpdate id ctx text false)
      (drive_events id ctx evs (acc +:+ text) st' outcome)) w in
    appended id ops = (λ t, ArtifactUpdate id ctx t false) <$> text :: chunks st' evs
    ∧ r = (acc +:+ String.concat "" (text :: chunks st' evs),
           if existsb (λ ev, match ev with RunFailed _ => true | _ => false end) evs then Failed else outcome)
    ∧ store_get (w_store w') id = store_get (w_store w) id) as Happ.
  { intros text st'. unfold append_payload. cbn [run_alone].
    specialize (IH (acc +:+ text) st' outcome (exec now (OpAppend id (ArtifactUpdate id ctx text false)) w).2).
    destruct (run_alone now _ _) as [[ops r] w']. destruct IH as (H1 & H2 & H3).
    rewrite appended_cons, H1, H2, H3, get_append, Hcat, string_app_assoc. done. }
  destruct ev; simpl; try apply IH.
  - destruct (is_empty text); [apply IH|apply Happ].
  - destruct (st || is_empty (assistant_text item)); [apply IH|apply Happ].
  - specialize (IH acc st Failed w). destruct (run_alone now _ _) as [[ops r] w'].
    destruct IH as (H1 & H2 & H3). split_and!; [done| |done]. rewrite H2. by destruct (existsb _ evs).
Qed.

(** Undisturbed, the driver of a task logs the working status, one artifact
    update per chunk of text and one final status that agrees with the state the
    task is left in, failed when an event reports a failure; its artifact is the
    concatenation of the chunks, and a run without text leaves the artifacts. *)
Theorem drive_alone env id ctx text w t :
  store_get (w_store w) id = Some t → state t = Submitted ∨ state t = Working →
  let evs := driver_events (env_run env text) in
  let reply := String.concat "" (chunks false evs) in
  let '(ops, _, w') := run_alone now (drive env id ctx text) w in
  appended id ops =
    StatusUpdate id ctx Working (env_now env) false
    :: ((λ t, ArtifactUpdate id ctx t false) <$> chunks false evs)
    ++ [StatusUpdate id ctx (outcome_of evs) (env_now env) true]
  ∧ ∃ t', store_get (w_store w') id = Some t' ∧ state t' = outcome_of evs
    ∧ artifacts t' = if is_empty reply then artifacts t
                     else [mkArtifact (env_artifact_uuid env) "agent_response" [PartText reply]].
Proof.
  intros Ht Hs evs reply. unfold drive. cbn [run_alone].
  set (w1 := (exec now (OpUpdate id Submitted Working) w).2).
  set (w2 := (exec now (OpAppend id _) w1).2).
  assert (∃ t1, store_get (w_store w2) id = Some t1 ∧ state t1 = Working ∧ artifacts t1 = artifacts t)
    as (t1 & Ht1 & Hs1 & Ha1).
  { unfold w2. rewrite get_append. unfold w1. rewrite (get_update id Submitted Working w t Ht).
    eexists. split; [reflexivity|]. destruct (decide (state t = Submitted)); [done|naive_solver]. }
  rewrite run_alone_bind. fold evs.
  pose proof (drive_events_alone id ctx evs "" false Completed w2) as Hd.
  destruct (run_alone now (drive_events _ _ _ _ _ _) w2) as [[ops1 r] w3]. destruct Hd as (H1 & -> & H3).
  rewrite Ht1 in H3. cbn [fst snd]. change ("" +:+ String.concat "" (chunks false evs)) with reply.
  unfold drive_end.
  set (finish := Do (OpUpdate id Working _) _).
  assert (∀ w4 t4, store_get (w_store w4) id = Some t4 → state t4 = Working →
    let '(ops, _, w5) := run_alone now finish w4 in
    appended id ops = [StatusUpdate id ctx (outcome_of evs) (env_now env) true]
    ∧ ∃ t5, store_get (w_store w5) id = Some t5 ∧ state t5 = outcome_of evs ∧ artifacts t5 = artifacts t4)
    as Hfin.
  { intros w4 t4 Ht4 Hs4. unfold finish. cbn [run_alone snd].
    pose proof (get_update id Working (outcome_of evs) w4 t4 Ht4) as Hu. rewrite decide_True in Hu by done.
    unfold outcome_of in *. set (w5 := (exec now (OpUpdate id Working _) w4).2) in *.
    change (exec now (OpGet id) w5) with (store_get (w_store w5) id, w5). cbn [fst snd]. rewrite Hu.
    split; [apply (appended_cons id _ [OpRemove id])|]. eexists.
    split; [etrans; [apply (get_append id _ w5)|exact Hu]|]. by split. }
  destruct (is_empty reply).
  - specialize (Hfin w3 t1 H3 Hs1). destruct (run_alone now finish w3) as [[ops2 u] w5].
    destruct Hfin as (F1 & t5 & F2 & F3 & F4). split.
    + change (appended id (OpUpdate id Submitted Working :: ?l)) with (appended id l).
      by rewrite appended_cons, appended_app, H1, F1.
    + exists t5. split_and!; [done|done|congruence].
  - cbn [run_alone]. set (w4 := (exec now (OpArtifacts id _) w3).2).
    pose proof (get_artifacts id [mkArtifact (env_artifact_uuid env) "agent_response" [PartText reply]] w3 t1 H3) as Hart.
    fold w4 in Hart. specialize (Hfin w4 _ Hart Hs1).
    destruct (run_alone now finish w4) as [[ops2 u] w5]. destruct Hfin as (F1 & t5 & F2 & F3 & F4). split.
    + change (appended id (OpUpdate id Submitted Working :: ?l)) with (appended id l).
      rewrite appended_cons, appended_app, H1.
      change (appended id (OpArtifacts id ?a :: ops2)) with (appended id ops2). by rewrite F1.
    + exists t5. split_and!; done.
Qed.
End Alone.

(** ** The log of a task and its subscribers *)

(** An append keeps the log in order and returns the number of the new event. *)
Lemma append_log_ok s id p r :
  tasks s !! id = Some r → log_ok r →
  let '(res, s') := store_append_event s id p in
  res = Ok (tr_next_seq r) ∧ ∃ r', tasks s' !! id = Some r' ∧ log_ok r' ∧ tr_task r' = tr_task r
  ∧ tr_next_seq r' = S (tr_next_seq r)
  ∧ ∃ gone, tr_events r ++ [mkTaskEvent (tr_next_seq r) p] = gone ++ tr_events r'
    ∧ (length (tr_events r) < MAX_EVENTS_PER_TASK → gone = [])%nat.
Proof.
  intros Hr [L1 L2 L3]. unfold store_append_event. rewrite Hr.
  set (e := mkTaskEvent (tr_next_seq r) p).
  assert (seq <$> (tr_events r ++ [e]) = List.seq (tr_first_seq r) (length (tr_events r ++ [e]))) as Hs.
  { rewrite fmap_app, L1, length_app, seq_app. simpl. by rewrite L2. }
  pose proof (trim_events_spec _ _ Hs) as Ht. destruct (trim_events _ _) as [evs first].
  destruct Ht as (gone & H1 & H2 & H3 & H4 & H5). split; [done|].
  assert (length (tr_events r) + 1 = length gone + length evs)%nat as Hlen.
  { rewrite <-(length_app gone), <-H1, length_app. done. }
  eexists. split; [simpl; apply lookup_insert_eq|]. simpl. split_and!; [|done|done|].
  - split; simpl; [done|lia|done].
  - exists gone. split; [done|]. intros Hlt. apply H5. rewrite length_app. simpl. lia.
Qed.

Lemma create_log_ok s t :
  (0 < max_tasks s)%nat →
  match tasks (store_create s t) !! task_id t with Some r => log_ok r | None => True end.
Proof.
  intros _. unfold store_create.
  pose proof (evict_tasks_lookup (order s ++ [task_id t]) (max_tasks s)
    (<[task_id t := mkTaskRec t [] 0 0]> (tasks s)) (task_id t)) as He.
  destruct (evict_tasks _ _ _) as [ts ord]. simpl in *. rewrite lookup_insert_eq in He.
  destruct He as [->| ->]; [|done]. split; simpl; [done|done|unfold MAX_EVENTS_PER_TASK; lia].
Qed.

Lemma filter_seq_from c (l : list TaskEvent) first :
  (first ≤ c)%nat → seq <$> l = List.seq first (length l) →
  ∃ skipped, l = skipped ++ List.filter (λ e, c <=? seq e)%nat l
  ∧ length skipped = Nat.min (c - first) (length l).
Proof.
  revert first. induction l as [|e l IH]; intros first Hc Hs; [by exists []; rewrite Nat.min_0_r|].
  injection Hs as He Hs. simpl. destruct (Nat.leb_spec c (seq e)) as [Hle|Hgt].
  - exists []. replace (c - first)%nat with 0%nat by lia. split; [|done]. simpl. f_equal.
    change (seq <$> l = List.seq (S first) (length l)) in Hs.
    assert (Forall (λ e, c ≤ seq e)%nat l) as Hall.
    { apply Forall_forall. intros x Hx. assert (seq x ∈ seq <$> l) as Hin by (by apply list_elem_of_fmap_2).
      rewrite Hs in Hin. apply elem_of_seq in Hin. lia. }
    clear IH Hs. induction Hall as [|x l Hx _ IHl]; simpl; [done|].
    destruct (Nat.leb_spec c (seq x)); [by f_equal|lia].
  - destruct (IH (S first)) as (sk & H1 & H2); [lia|done|]. exists (e :: sk).
    split; [by rewrite H1 at 1|]. simpl. rewrite H2. lia.
Qed.

(** A poll of a subscriber delivers exactly the retained events from its
    cursor on (from the oldest one kept, when it lags behind the window), in
    order and without a gap, and moves the cursor past them; it waits only when
    it has read everything of a live task and ends only when it has read
    everything of a finished one. *)
Theorem sub_poll_exact s id cursor r :
  tasks s !! id = Some r → log_ok r → (cursor ≤ tr_next_seq r)%nat →
  let from := Nat.max cursor (tr_first_seq r) in
  match sub_poll s id cursor with
  | SubYield batch next =>
      next = tr_next_seq r ∧ seq <$> batch = List.seq from (next - from) ∧ batch ≠ []
      ∧ ∃ skipped, tr_events r = skipped ++ batch
  | SubWait c => c = tr_next_seq r ∧ from = c ∧ is_terminal (state (tr_task r)) = false
  | SubEnd => from = tr_next_seq r ∧ is_terminal (state (tr_task r)) = true
  end.
Proof.
  intros Hr [L1 L2 L3] Hc from. unfold sub_poll, subscriber_read. rewrite Hr. fold from.
  destruct (filter_seq_from from (tr_events r) (tr_first_seq r)) as (sk & H1 & H2); [lia|done|].
  set (batch := List.filter _ (tr_events r)) in *.
  assert (length sk + length batch = length (tr_events r))%nat as Hlen by (rewrite <-length_app; by rewrite <-H1).
  assert (seq <$> batch = List.seq from (tr_next_seq r - from)) as Hb.
  { rewrite H1 in L1. rewrite fmap_app, length_app, seq_app in L1.
    apply app_inj_1 in L1 as [_ L1]; [|by rewrite length_fmap, length_seq].
    rewrite L1. f_equal; lia. }
  destruct (last batch) as [e|] eqn:Hl.
  - apply last_Some in Hl as [batch' Hb']. rewrite Hb' in Hb.
    assert (tr_next_seq r - from = S (length batch'))%nat as Hn.
    { apply (f_equal length) in Hb. rewrite length_fmap, length_app, length_seq in Hb. simpl in Hb. lia. }
    rewrite Hn, seq_S, fmap_app in Hb. apply app_inj_2 in Hb as [Hb1 Hb2]; [|done]. injection Hb2 as He.
    assert (S (seq e) = tr_next_seq r) as Hse by lia.
    split_and!; [done| |by rewrite Hb'; destruct batch'|by exists sk].
    rewrite Hse, Hn, seq_S, Hb', fmap_app, Hb1. simpl. by rewrite He.
  - apply last_None in Hl. rewrite Hl in Hb. assert (tr_next_seq r - from = 0)%nat as H0.
    { apply (f_equal length) in Hb. rewrite length_seq in Hb. simpl in Hb. lia. }
    assert (from = tr_next_seq r) by lia.
    destruct (is_terminal (state (tr_task r))) eqn:Ht; split_and!; lia || done.
Qed.

(** ** Concrete runs *)

Lemma run_alone_steps {A} now arrives (p : Prog A) w :
  rtc (pool_step now arrives) (w, [p])
    ((run_alone now p w).2, [Ret (run_alone now p w).1.2]).
Proof.
  revert w. induction p as [a|o k IH]; intros w; simpl; [done|].
  eapply rtc_l; [apply (pool_do now arrives w [] [] o k)|]. simpl.
  pose proof (IH (exec now o w).1 (exec now o w).2) as H.
  by destruct (run_alone now (k _) _) as [[ops a] w'].
Qed.

Module A2aDemo.
#[local] Existing Instance Toy.json.

Definition clock : World → string := λ _, "noon".

Definition env (evs : list AgentEvent) : Env :=
  mkEnv None (Ok tt) 7 "noon" "t1" "c1" "a1" (λ _, Ok evs).

Definition task (s : TaskState) : Task := mkTask "t" "c" s "noon" [].

(** A task with a live run. *)
Definition start (s : TaskState) : World :=
  mkWorld (store_create (InMemoryTaskStore_new 8) (task s)) {["t" := 7%nat]} ∅.

Definition decode (v : Value) : result string string :=
  match as_str v with Some s => Ok s | None => Err "expected a string" end.

Definition cancel : Prog RpcResponse := tasks_cancel decode (λ _, "state") VNull (Some (VString "t")).

Definition reply : list AgentEvent :=
  [RunStarted "a"; TokenDelta "hel"; TokenDelta "lo"; MessageOutput (AssistantMessage [Text "hello"] None);
   RunCompleted TokenUsage_default].

Definition exec_all (ops : list Op) (w : World) : World := fold_left (λ w o, (exec clock o w).2) ops w.

Example cancelled :
  (run_alone clock cancel (start Working)).1.2
  = RpcOk VNull (mkTask "t" "c" Canceled "noon" [])
  ∧ w_fired (run_alone clock cancel (start Working)).2 = {[7%nat]}.
Proof. vm_compute. auto. Qed.

(** The state becomes terminal before the final frame is appended: a subscriber
    that polls in between ends its stream without it, both when the run
    completes and when it is cancelled. *)
Example final_frame_missed :
  let working := OpAppend "t" (StatusUpdate "t" "c" Working "noon" false) in
  let final s := OpAppend "t" (StatusUpdate "t" "c" s "noon" true) in
  let done := exec_all [working; OpUpdate "t" Working Completed] (start Working) in
  let stopped := exec_all [working; OpCancel "t"; OpUpdate "t" Working Canceled] (start Working) in
  sub_poll (w_store done) "t" 1 = SubEnd
  ∧ sub_poll (w_store (exec_all [final Completed] done)) "t" 1
    = SubYield [mkTaskEvent 1 (StatusUpdate "t" "c" Completed "noon" true)] 2
  ∧ sub_poll (w_store stopped) "t" 1 = SubEnd.
Proof. vm_compute. auto. Qed.

(** A second message to a working task registers its token under the same id;
    the end of the first run removes it, and the second run cannot be cancelled
    while it is live. *)
Example second_run_uncancellable :
  let w := exec_all [OpRegister "t" 8; OpRemove "t"] (start Working) in
  (run_alone clock cancel w).1.2 = RpcErr VNull TASK_NOT_CANCELABLE (NO_LIVE_RUN "t")
  ∧ state_of w "t" = Some Working.
Proof. vm_compute. auto. Qed.

(** Text that was streamed once keeps a later message that was not streamed out
    of the task. *)
Example later_message_dropped :
  chunks false [TokenDelta "a"; MessageOutput (AssistantMessage [Text "a"] None); TurnStarted 2;
                MessageOutput (AssistantMessage [Text "b"] None)] = ["a"].
Proof. vm_compute. reflexivity. Qed.

Definition refuse : Value → result A2aMessage string := λ _, Err "no message".

Abbreviation served_here := (served refuse decode (λ _, "state") "t").

Lemma alone_finishes p w :
  rtc (pool_step clock served_here) (w, [p])
    ((run_alone clock p w).2, [Ret (run_alone clock p w).1.2]).
Proof. apply run_alone_steps. Qed.


Definition driver : Prog (option RpcResponse) := lift (λ _, None) (drive (env reply) "t" "c" "hi").

Lemma drive_settles_witness :
  ∃ w', rtc (pool_step clock served_here) (start Submitted, [driver]) (w', [Ret None])
  ∧ ended_in "t" Completed w'.
Proof.
  pose proof (alone_finishes driver (start Submitted)) as Hrun.
  assert ((run_alone clock driver (start Submitted)).1.2 = None) as Ha by (by vm_compute).
  assert (state_of (run_alone clock driver (start Submitted)).2 "t" = Some Completed) as Hs
    by (by vm_compute).
  assert (state_of (start Submitted) "t" ≠ Some InputRequired) as H0 by (by vm_compute).
  rewrite Ha in Hrun. revert Hrun Hs. generalize (run_alone clock driver (start Submitted)).2.
  intros w' Hrun Hs. exists w'. split; [exact Hrun|].
  pose proof (drive_settles refuse decode (λ _, "state") clock "t" (env reply) "c" "hi" (start Submitted)
    [driver] 0 w' [Ret None] w' [Ret None]
    (Forall_cons_2 _ _ _ (served_drive _ _ _ _ _ _ _ _) (Forall_nil_2 _)) eq_refl H0 Hrun eq_refl
    (rtc_refl _ _)) as H.
  rewrite Hs in H. exact (proj2 H).
Defined.

Lemma drive_alone_witness :
  appended "t" (run_alone clock (drive (env reply) "t" "c" "hi") (start Submitted)).1.1 =
    [StatusUpdate "t" "c" Working "noon" false; ArtifactUpdate "t" "c" "hel" false;
     ArtifactUpdate "t" "c" "lo" false; StatusUpdate "t" "c" Completed "noon" true].
Proof.
  pose proof (drive_alone clock (env reply) "t" "c" "hi" (start Submitted) (task Submitted)
    eq_refl (or_introl eq_refl)) as H.
  destruct (run_alone clock _ _) as [[ops a] w']. exact (proj1 H).
Defined.

Definition record : TaskRec :=
  mkTaskRec (task Working)
    [mkTaskEvent 4 (ArtifactUpdate "t" "c" "a" false); mkTaskEvent 5 (ArtifactUpdate "t" "c" "b" false)] 4 6.

Lemma sub_poll_exact_witness :
  sub_poll (mkInner {["t" := record]} ["t"] 8) "t" 2 = SubYield (tr_events record) 6.
Proof.
  assert (log_ok record) as Hok by (split; vm_compute; [done|done|lia]).
  pose proof (sub_poll_exact (mkInner {["t" := record]} ["t"] 8) "t" 2 record eq_refl Hok) as H.
  vm_compute in H. vm_compute. destruct (H ltac:(lia)) as (_ & _ & _ & _). reflexivity.
Defined.
End A2aDemo.
