(* ===== verification/OpenAiChat.v ===== *)
(** The Chat Completions backend of the OpenAI provider
    (paigasus-helikon-providers-openai/src): the translation of streamed chunks
    into model events and the streaming loop (backend/chat.rs), and the
    classification of failures (error.rs).

    The types of async-openai are records of the fields the code reads.  As in
    [LiteLlm], the [warned_*] fields only gate log lines and are left out, and
    [alarms] counts the [debug_assert!]s that fail and the [tracing::error!]s
    that fire.

    The source says of its translator and LiteLLM's that the implementations
    differ and the behaviour does not: here a call's state is kept under the
    first wire index that resolves its id, there under the id itself.
    [chat_agrees] proves it, by a simulation between the two, and the guarantees
    of the one carry over to the other. *)

From stdpp Require Import sorting.
From S2P Require Import Prelude Json Items Redaction ModelTurn LiteLlm LiteLlmTurn.

(** ** Failures *)

(** [status] is the HTTP status with its text. *)
Inductive OpenAIError : Type :=
| ApiError (status : Z * string) (code type : option string) (message : string)
| Reqwest (e : string)
| JSONDeserialize (e : string)
| StreamError (e : string)
| InvalidArgument (s : string)
| FileSaveError (s : string)
| FileReadError (s : string).

Definition map_api_error_response (status : Z * string) (code type : option string)
    (message : string) : ModelError :=
  if decide (code = Some "context_length_exceeded") then ContextLengthExceeded
  else if decide (type = Some "content_filter") then Refused message
  else if one_of status.1 [401; 403]%Z then Refused message
  else if one_of status.1 [429%Z] then RateLimited None
  else if ((502 <=? status.1) && (status.1 <=? 504))%Z then Unavailable
  else ModelOther ("openai api error [" +:+ status.2 +:+ "]: " +:+ message).

Definition map_openai_error (e : OpenAIError) : ModelError :=
  match e with
  | ApiError status code type message => map_api_error_response status code type message
  | Reqwest e | StreamError e => Transport e
  | JSONDeserialize e => ModelOther ("malformed openai response: " +:+ e)
  | InvalidArgument s => ModelOther ("invalid argument: " +:+ s)
  | FileSaveError s => ModelOther ("file io (save): " +:+ s)
  | FileReadError s => ModelOther ("file io (read): " +:+ s)
  end.

(** ** The wire types *)

Inductive OaFinishReason : Type :=
| OaStop | OaLength | OaToolCalls | OaContentFilter | OaFunctionCall.

Record CallChunk := mkCallChunk {
  cc_index : Z;
  cc_id : option string;
  cc_function : option FunctionChunk;
}.

Record OaChoice := mkOaChoice {
  oc_content : option string;
  oc_tool_calls : option (list CallChunk);
  oc_finish_reason : option OaFinishReason;
}.

Record OaChunk := mkOaChunk { oa_choices : list OaChoice; oa_usage : option Usage }.

(** ** The translator *)

(** [PendingToolCall]: sequence number, name and arguments. *)
Abbreviation PendingToolCall := Pending.

Record ChatTranslator := mkChatTranslator {
  tool_calls : gmap Z string;
  canonical : gmap string Z;
  name_emitted : gmap Z string;
  blank_emitted : gset Z;
  pending : gmap Z PendingToolCall;
  next_seq : nat;
  finish_reason : option FinishReason;
  alarms : nat;
}.

Definition ChatTranslator_new : ChatTranslator := mkChatTranslator ∅ ∅ ∅ ∅ ∅ 0 None 0.

(** Assignments to one field. *)
Definition set_tool_calls (m : gmap Z string) (t : ChatTranslator) : ChatTranslator :=
  mkChatTranslator m (canonical t) (name_emitted t) (blank_emitted t) (pending t) (next_seq t)
    (finish_reason t) (alarms t).
Definition set_canonical (m : gmap string Z) (t : ChatTranslator) : ChatTranslator :=
  mkChatTranslator (tool_calls t) m (name_emitted t) (blank_emitted t) (pending t) (next_seq t)
    (finish_reason t) (alarms t).
Definition set_name_emitted (m : gmap Z string) (t : ChatTranslator) : ChatTranslator :=
  mkChatTranslator (tool_calls t) (canonical t) m (blank_emitted t) (pending t) (next_seq t)
    (finish_reason t) (alarms t).
Definition set_blank_emitted (s : gset Z) (t : ChatTranslator) : ChatTranslator :=
  mkChatTranslator (tool_calls t) (canonical t) (name_emitted t) s (pending t) (next_seq t)
    (finish_reason t) (alarms t).
Definition set_pending (m : gmap Z PendingToolCall) (t : ChatTranslator) : ChatTranslator :=
  mkChatTranslator (tool_calls t) (canonical t) (name_emitted t) (blank_emitted t) m (next_seq t)
    (finish_reason t) (alarms t).
Definition set_finish_reason (r : option FinishReason) (t : ChatTranslator) : ChatTranslator :=
  mkChatTranslator (tool_calls t) (canonical t) (name_emitted t) (blank_emitted t) (pending t)
    (next_seq t) r (alarms t).

(** [debug_assert!(ok)], and with [false] a [tracing::error!]. *)
Definition assert (ok : bool) (t : ChatTranslator) : ChatTranslator :=
  if ok then t
  else mkChatTranslator (tool_calls t) (canonical t) (name_emitted t) (blank_emitted t) (pending t)
         (next_seq t) (finish_reason t) (S (alarms t)).

Definition contains_index {V} (m : gmap Z V) (i : Z) : bool := is_some (m !! i).

Definition ensure_pending (index : Z) (t : ChatTranslator) : ChatTranslator :=
  if contains_index (pending t) index then t
  else mkChatTranslator (tool_calls t) (canonical t) (name_emitted t) (blank_emitted t)
         (<[index := Pending_new (next_seq t)]> (pending t)) (S (next_seq t)) (finish_reason t)
         (alarms t).

(** The buffer of [index] after [ensure_pending]. *)
Definition slot_of (t : ChatTranslator) (index : Z) : PendingToolCall :=
  default (Pending_new 0) (pending t !! index).

Definition put_slot (index : Z) (slot : PendingToolCall) (t : ChatTranslator) : ChatTranslator :=
  set_pending (<[index := slot]> (pending t)) t.

(** Moving the buffer [old] into the owner's. *)
Definition migrate (old : PendingToolCall) (owner : Z) (t : ChatTranslator) : ChatTranslator :=
  let t1 := ensure_pending owner t in
  let slot := slot_of t1 owner in
  let t2 := assert (is_empty (p_args slot)) t1 in
  let args := p_args old +:+ p_args slot in
  let seq := if (p_seq old <? p_seq slot)%nat then p_seq old else p_seq slot in
  let name := if negb (is_empty (p_name old)) && contains_index (name_emitted t2) owner
              then p_name slot else merged_name old slot in
  put_slot owner (mkPending seq name args) t2.

Definition canonicalize (t : ChatTranslator) (index : Z) (call_id : string) : ChatTranslator * Z :=
  if is_empty call_id then (t, index)
  else
    let owner := default index (canonical t !! call_id) in
    let t := set_canonical (<[call_id := owner]> (canonical t)) t in
    if (owner =? index)%Z then (t, index)
    else match pending t !! index with
         | None => (t, owner)
         | Some old => (migrate old owner (set_pending (delete index (pending t)) t), owner)
         end.

Definition name_frag (tc : CallChunk) : string :=
  match cc_function tc with Some f => default "" (fc_name f) | None => "" end.
Definition args_frag (tc : CallChunk) : string :=
  match cc_function tc with Some f => default "" (fc_arguments f) | None => "" end.

(** The first id of an index stays, unless it was blank and nothing has been
    emitted under it. *)
Definition register_id (index : Z) (id : option string) (t : ChatTranslator) : ChatTranslator :=
  match id with
  | None => t
  | Some id =>
      match tool_calls t !! index with
      | Some existing =>
          if is_empty existing && negb (is_empty id)
             && negb (bool_decide (index ∈ blank_emitted t))
          then set_tool_calls (<[index := id]> (tool_calls t)) t else t
      | None => set_tool_calls (<[index := id]> (tool_calls t)) t
      end
  end.

(** The part of [handle_tool_call_chunk] after the index is canonical. *)
Definition advance_call (t : ChatTranslator) (index : Z) (call_id name_frag args_frag : string)
  : ChatTranslator * list ModelEvent :=
  let already_emitted := contains_index (name_emitted t) index in
  let t1 := ensure_pending index t in
  let entry := slot_of t1 index in
  let name := extended_name already_emitted (p_name entry) name_frag in
  let args_out := p_args entry +:+ args_frag in
  let flush := name_complete already_emitted name name_frag args_frag in
  let t2 := if flush then set_name_emitted (<[index := name]> (name_emitted t1)) t1 else t1 in
  let kept := if flush then "" else name in
  let t3 := if is_empty kept then set_pending (delete index (pending t2)) t2
            else put_slot index (mkPending (p_seq entry) kept "") t2 in
  if negb flush && is_empty args_out then (t3, [])
  else
    (if is_empty call_id then set_blank_emitted ({[index]} ∪ blank_emitted t3) t3 else t3,
     [METoolCallDelta call_id (if flush then Some name else None) args_out]).

Definition handle_tool_call_chunk (t : ChatTranslator) (tc : CallChunk)
  : ChatTranslator * list ModelEvent :=
  let index := cc_index tc in
  let t1 := register_id index (cc_id tc) t in
  match tool_calls t1 !! index with
  | None =>
      let t2 := ensure_pending index t1 in
      let entry := slot_of t2 index in
      (put_slot index (mkPending (p_seq entry) (p_name entry +:+ name_frag tc)
         (p_args entry +:+ args_frag tc)) t2, [])
  | Some call_id =>
      let '(t2, index') := canonicalize t1 index call_id in
      advance_call t2 index' call_id (name_frag tc) (args_frag tc)
  end.

Fixpoint handle_chunks (t : ChatTranslator) (tcs : list CallChunk) : ChatTranslator * list ModelEvent :=
  match tcs with
  | [] => (t, [])
  | tc :: tcs' =>
      let '(t1, evs) := handle_tool_call_chunk t tc in
      let '(t2, evs') := handle_chunks t1 tcs' in
      (t2, evs ++ evs')
  end.

Definition map_finish (reason : OaFinishReason) : FinishReason :=
  match reason with
  | OaStop => Stop
  | OaLength => Length
  | OaToolCalls => ToolCalls
  | OaContentFilter => ContentFilter
  | OaFunctionCall => FinishOther "function_call"
  end.

Definition consume_choice (t : ChatTranslator) (c : OaChoice) : ChatTranslator * list ModelEvent :=
  let text := match oc_content c with
              | Some content => if is_empty content then [] else [METokenDelta content]
              | None => []
              end in
  let '(t1, evs) := handle_chunks t (default [] (oc_tool_calls c)) in
  (match oc_finish_reason c with
   | Some reason => set_finish_reason (Some (map_finish reason)) t1
   | None => t1
   end, text ++ evs).

Fixpoint consume_choices (t : ChatTranslator) (cs : list OaChoice) : ChatTranslator * list ModelEvent :=
  match cs with
  | [] => (t, [])
  | c :: cs' =>
      let '(t1, evs) := consume_choice t c in
      let '(t2, evs') := consume_choices t1 cs' in
      (t2, evs ++ evs')
  end.

Definition consume (t : ChatTranslator) (chunk : OaChunk) : ChatTranslator * list ModelEvent :=
  let '(t1, evs) := consume_choices t (oa_choices chunk) in
  (t1, evs ++ usage_event (oa_usage chunk)).

Fixpoint consume_all (t : ChatTranslator) (chunks : list OaChunk) : ChatTranslator * list ModelEvent :=
  match chunks with
  | [] => (t, [])
  | c :: cs =>
      let '(t1, evs) := consume t c in
      let '(t2, evs') := consume_all t1 cs in
      (t2, evs ++ evs')
  end.

(** *** The end of the stream *)

(** The seed of [already]: the ids whose names are out. *)
Definition already_named (t : ChatTranslator) : gset string :=
  list_to_set (omap (λ kv, nonblank (tool_calls t !! kv.1)) (map_to_list (name_emitted t))).

(** One iteration of the loop over the indexes. *)
Definition flush_index (t : ChatTranslator) (already : gset string) (index : Z)
  : ChatTranslator * gset string * list ModelEvent :=
  if contains_index (name_emitted t) index then (t, already, [])
  else
    match tool_calls t !! index, pending t !! index with
    | Some call_id, Some entry =>
        if is_empty (p_name entry) then (t, already, [])
        else if negb (is_empty call_id) && bool_decide (call_id ∈ already)
        then (assert false t, already, [])
        else
          let already' := if is_empty call_id then already else {[call_id]} ∪ already in
          let t1 := put_slot index (mkPending (p_seq entry) "" (p_args entry)) t in
          (set_name_emitted (<[index := p_name entry]> (name_emitted t1)) t1, already',
           [METoolCallDelta call_id (Some (p_name entry)) ""])
    | _, _ => (t, already, [])
    end.

Fixpoint flush_indices (t : ChatTranslator) (already : gset string) (indices : list Z)
  : ChatTranslator * list ModelEvent :=
  match indices with
  | [] => (t, [])
  | index :: indices' =>
      let '(t1, already1, evs) := flush_index t already index in
      let '(t2, evs') := flush_indices t1 already1 indices' in
      (t2, evs ++ evs')
  end.

(** The wire indexes with a buffer, in order. *)
Definition sorted_indices (m : gmap Z PendingToolCall) : list Z :=
  merge_sort Z.le (map_to_list m).*1.

Definition flush_buffered_names (t : ChatTranslator) : ChatTranslator * list ModelEvent :=
  flush_indices t (already_named t) (sorted_indices (pending t)).

Definition finish (t : ChatTranslator) : ChatTranslator * list ModelEvent :=
  let '(t1, out) := flush_buffered_names t in
  match finish_reason t1 with
  | None => (t1, out)
  | Some reason => (set_finish_reason None t1, out ++ [MEFinish reason])
  end.

(** ** The streaming loop *)

(** One turn of the loop's biased [select!]; the end of the list is the end of
    the upstream. *)
Inductive OaPolled : Type :=
| OaCancelled
| OaErr (e : OpenAIError)
| OaData (chunk : OaChunk).

Fixpoint stream_loop (t : ChatTranslator) (polls : list OaPolled)
  : list (result ModelEvent ModelError) :=
  match polls with
  | [] => Ok <$> snd (finish t)
  | OaCancelled :: _ => []
  | OaErr e :: _ => [Err (map_openai_error e)]
  | OaData chunk :: polls' =>
      let '(t1, evs) := consume t chunk in
      (Ok <$> evs) ++ stream_loop t1 polls'
  end.

(** The outcome of [create_stream], raced against cancellation. *)
Inductive Created : Type :=
| CreateCancelled
| CreateFailed (e : OpenAIError)
| CreatedStream (polls : list OaPolled).

Definition invoke (created : Created) : list (result ModelEvent ModelError) :=
  match created with
  | CreateCancelled => []
  | CreateFailed e => [Err (map_openai_error e)]
  | CreatedStream polls => stream_loop ChatTranslator_new polls
  end.

(** ** Agreement with the LiteLLM translator *)

(** A chunk as the LiteLLM proxy would send it. *)
Definition raw_finish (reason : OaFinishReason) : string :=
  match reason with
  | OaStop => "stop"
  | OaLength => "length"
  | OaToolCalls => "tool_calls"
  | OaContentFilter => "content_filter"
  | OaFunctionCall => "function_call"
  end.

Definition lite_call (tc : CallChunk) : ToolCallChunk :=
  mkToolCallChunk (Some (cc_index tc)) (cc_id tc) (cc_function tc).

Definition lite_choice (c : OaChoice) : Choice :=
  mkChoice None (Some (mkDelta (oc_content c) None None (map lite_call <$> oc_tool_calls c)))
    (raw_finish <$> oc_finish_reason c).

(** LiteLLM reads one choice per chunk. *)
Definition lite_chunks `{J : SerdeJson} (chunk : OaChunk) : list StreamChunk :=
  ((λ c, mkStreamChunk [lite_choice c] None None) <$> oa_choices chunk)
  ++ [mkStreamChunk [] (oa_usage chunk) None].

(** Where LiteLLM keeps the state that is kept under [index] here: under the
    index until an id is known, then under the id, for the index that owns it. *)
Definition at_home (o : ChatTranslator) (index : Z) (key : Key) : Prop :=
  match key with
  | KIndex i => i = index ∧ (tool_calls o !! index = None ∨ tool_calls o !! index = Some "")
  | KId c => canonical o !! c = Some index
  end.

(** Two buffers of one call; [f] renumbers, since LiteLLM draws numbers for
    buffers that have none here.  Once the name is out the number is not read. *)
Definition same_slot (f : nat → nat) (named : bool) (p q : option Pending) : Prop :=
  match p, q with
  | Some p, Some q => p_name p = p_name q ∧ p_args p = p_args q
                      ∧ (named = false → p_seq q = f (p_seq p))
  | None, None => True
  | _, _ => False
  end.

(** [exempt] is the index whose entry is being handled. *)
Record sim (exempt : option Z) (f : nat → nat) (o : ChatTranslator) (l : LiteLlm.ChatTranslator)
  : Prop := {
  s_calls : ∀ i, LiteLlm.tool_calls l !! KIndex i = tool_calls o !! i;
  s_owner : ∀ c i, canonical o !! c = Some i → c ≠ "" ∧ tool_calls o !! i = Some c;
  s_known : ∀ c, LiteLlm.tool_calls l !! KId c = (λ _, c) <$> canonical o !! c;
  s_slot : ∀ i k, at_home o i k →
    same_slot f (is_some (name_emitted o !! i)) (pending o !! i) (LiteLlm.pending l !! k);
  s_named : ∀ i k, at_home o i k → LiteLlm.name_emitted l !! k = name_emitted o !! i;
  s_alias : ∀ i c, tool_calls o !! i = Some c → c ≠ "" → canonical o !! c ≠ Some i →
    pending o !! i = None ∧ name_emitted o !! i = None ∧ is_Some (canonical o !! c);
  s_blank : ∀ i, i ∈ blank_emitted o ↔ KIndex i ∈ LiteLlm.blank_emitted l;
  s_gone : ∀ i n p, name_emitted o !! i = Some n → pending o !! i = Some p →
    exempt = Some i ∧ p_name p = "";
  s_bound : ∀ i p, pending o !! i = Some p → (p_seq p < next_seq o)%nat;
  s_renumber : ∀ a b, (a < b → b < next_seq o → f a < f b)%nat;
  s_below : ∀ a, (a < next_seq o → f a < LiteLlm.next_seq l)%nat;
  s_alarms : alarms o = 0%nat;
}.

Lemma sim_weaken f e o l : sim None f o l → sim e f o l.
Proof. intros []. split; try done. intros i n p Hn Hp. by destruct (s_gone0 i n p Hn Hp). Qed.

(** The correspondence of places is one to one. *)
Lemma home_key e f o l i k k' : sim e f o l → at_home o i k → at_home o i k' → k = k'.
Proof.
  intros S. destruct k as [x|c], k' as [x'|c']; simpl.
  - by intros [-> _] [-> _].
  - intros [-> Hi] Hc. destruct (s_owner _ _ _ _ S _ _ Hc) as [Hne Hi']. naive_solver.
  - intros Hc [-> Hi]. destruct (s_owner _ _ _ _ S _ _ Hc) as [Hne Hi']. naive_solver.
  - intros Hc Hc'. destruct (s_owner _ _ _ _ S _ _ Hc), (s_owner _ _ _ _ S _ _ Hc'). congruence.
Qed.

Lemma home_index o i j k : at_home o i k → at_home o j k → i = j.
Proof. destruct k as [x|c]; simpl; [|congruence]. by intros [-> _] [-> _]. Qed.

(** Writing a buffer at corresponding places, and removing one. *)
Lemma put_sim f o l j k p q :
  sim (Some j) f o l → at_home o j k → p_name p = p_name q → p_args p = p_args q →
  (name_emitted o !! j = None → p_seq q = f (p_seq p)) → (p_seq p < next_seq o)%nat →
  (is_Some (name_emitted o !! j) → p_name p = "") →
  sim (Some j) f (put_slot j p o) (LiteLlm.put_slot l k q).
Proof.
  intros S Hk Hn Ha Hs Hb Hg. pose proof S as []. split; simpl; try done.
  - intros i k' Hk'. change (at_home o i k') in Hk'. destruct (decide (i = j)) as [->|Hne].
    + rewrite <- (home_key _ _ _ _ _ _ _ S Hk Hk'), !lookup_insert_eq. split_and!; [done|done|].
      intros H. apply Hs. by destruct (name_emitted o !! j).
    + rewrite !lookup_insert_ne; [by apply s_slot0| |done].
      intros ->. by eapply Hne, home_index.
  - intros i c Hc Hne Hown. destruct (s_alias0 i c Hc Hne Hown) as (H1 & H2 & H3).
    rewrite lookup_insert_ne; [done|]. intros <-.
    destruct k as [x|c']; simpl in Hk; [naive_solver|]. destruct (s_owner0 _ _ Hk). congruence.
  - intros i n r Hi. destruct (decide (i = j)) as [->|Hne].
    + rewrite lookup_insert_eq. intros [= <-]. split; [done|]. by apply Hg.
    + rewrite lookup_insert_ne by done. by eapply s_gone0.
  - intros i r. destruct (decide (i = j)) as [->|Hne].
    + rewrite lookup_insert_eq. by intros [= <-].
    + rewrite lookup_insert_ne by done. apply s_bound0.
Qed.

Lemma delete_sim f o l j k :
  sim (Some j) f o l → at_home o j k →
  sim (Some j) f (set_pending (delete j (pending o)) o)
    (LiteLlm.set_pending l (delete k (LiteLlm.pending l))).
Proof.
  intros S Hk. pose proof S as []. split; simpl; try done.
  - intros i k' Hk'. change (at_home o i k') in Hk'. destruct (decide (i = j)) as [->|Hne].
    + by rewrite <- (home_key _ _ _ _ _ _ _ S Hk Hk'), !lookup_delete_eq.
    + rewrite !lookup_delete_ne; [by apply s_slot0| |done].
      intros ->. by eapply Hne, home_index.
  - intros i c Hc Hne Hown. destruct (s_alias0 i c Hc Hne Hown) as (H1 & H2 & H3).
    split; [|done]. by apply lookup_delete_None; right.
  - intros i n r Hi Hr. apply lookup_delete_Some in Hr as [_ Hr]. by eapply s_gone0.
  - intros i r Hr. apply lookup_delete_Some in Hr as [_ Hr]. by eapply s_bound0.
Qed.

Lemma sim_unexempt f o l j :
  sim (Some j) f o l → (name_emitted o !! j = None ∨ pending o !! j = None) → sim None f o l.
Proof.
  intros [] Hj. split; try done. intros i n p Hn Hp. destruct (s_gone0 i n p Hn Hp) as [[= ->] _].
  destruct Hj; congruence.
Qed.

Lemma emit_name_sim f o l j k name :
  sim (Some j) f o l → at_home o j k → pending o !! j = None →
  sim (Some j) f (set_name_emitted (<[j := name]> (name_emitted o)) o)
    (LiteLlm.set_name_emitted l (<[k := name]> (LiteLlm.name_emitted l))).
Proof.
  intros S Hk Hp. pose proof S as []. split; simpl; try done.
  - intros i k' Hk'. change (at_home o i k') in Hk'. destruct (decide (i = j)) as [->|Hne].
    + rewrite <- (home_key _ _ _ _ _ _ _ S Hk Hk'). pose proof (s_slot0 j k Hk) as Hs.
      rewrite Hp in *. by destruct (LiteLlm.pending l !! k).
    + rewrite lookup_insert_ne by done. by apply s_slot0.
  - intros i k' Hk'. change (at_home o i k') in Hk'. destruct (decide (i = j)) as [->|Hne].
    + by rewrite <- (home_key _ _ _ _ _ _ _ S Hk Hk'), !lookup_insert_eq.
    + rewrite !lookup_insert_ne; [by apply s_named0|done|].
      intros ->. by eapply Hne, home_index.
  - intros i c Hc Hne Hown. destruct (s_alias0 i c Hc Hne Hown) as (H1 & H2 & H3).
    rewrite lookup_insert_ne; [done|]. intros <-.
    destruct k as [x|c']; simpl in Hk; [naive_solver|]. destruct (s_owner0 _ _ Hk). congruence.
  - intros i n p. destruct (decide (i = j)) as [->|Hne]; [congruence|].
    rewrite lookup_insert_ne by done. apply s_gone0.
Qed.

Lemma blank_sim e f o l j :
  sim e f o l →
  sim e f (set_blank_emitted ({[j]} ∪ blank_emitted o) o)
    (LiteLlm.set_blank_emitted l ({[KIndex j]} ∪ LiteLlm.blank_emitted l)).
Proof. intros []. split; simpl; try done. intros i. rewrite !elem_of_union, !elem_of_singleton, s_blank0. naive_solver. Qed.

Lemma same_slot_ext f f' b p q n :
  (∀ r, p = Some r → (p_seq r < n)%nat) → (∀ a, (a < n)%nat → f' a = f a) →
  same_slot f b p q → same_slot f' b p q.
Proof.
  intros Hb Hf. destruct p as [p|], q as [q|]; simpl; try done.
  intros (? & ? & Hs). split_and!; [done|done|]. intros Hz. rewrite Hf; [auto|]. by apply Hb.
Qed.

Lemma ensure_sim f o l j k :
  sim (Some j) f o l → at_home o j k →
  ∃ f' p q, sim (Some j) f' (ensure_pending j o) (LiteLlm.ensure_pending l k)
  ∧ slot_of (ensure_pending j o) j = p ∧ LiteLlm.slot_of (LiteLlm.ensure_pending l k) k = q
  ∧ p_name p = p_name q ∧ p_args p = p_args q
  ∧ (name_emitted o !! j = None → p_seq q = f' (p_seq p)) ∧ (p_seq p < next_seq (ensure_pending j o))%nat
  ∧ p = default (Pending_new (next_seq o)) (pending o !! j)
  ∧ (∀ a, (a < next_seq o)%nat → f' a = f a).
Proof.
  intros S Hk. pose proof S as []. pose proof (s_slot0 j k Hk) as Hs.
  unfold ensure_pending, LiteLlm.ensure_pending, contains_index, contains.
  destruct (pending o !! j) as [p|] eqn:Hp, (LiteLlm.pending l !! k) as [q|] eqn:Hq; try done; simpl.
  - exists f, p, q. unfold slot_of, LiteLlm.slot_of. rewrite Hp, Hq. destruct Hs as (H1 & H2 & H3).
    split_and!; try done; [|by eapply s_bound0]. intros Hn. apply H3. by rewrite Hn.
  - set (f' := λ a, if (a =? next_seq o)%nat then LiteLlm.next_seq l else f a).
    assert (∀ a, (a < next_seq o)%nat → f' a = f a) as Hf.
    { intros a Ha. unfold f'. by destruct (Nat.eqb_spec a (next_seq o)); [lia|]. }
    assert (f' (next_seq o) = LiteLlm.next_seq l) as Hf1 by (unfold f'; by rewrite Nat.eqb_refl).
    exists f', (Pending_new (next_seq o)), (Pending_new (LiteLlm.next_seq l)).
    unfold slot_of, LiteLlm.slot_of. simpl. rewrite !lookup_insert_eq.
    split_and!; try done; [|lia]. split; simpl; try done.
    + intros i k' Hk'. change (at_home o i k') in Hk'. destruct (decide (i = j)) as [->|Hne].
      * by rewrite <- (home_key _ _ _ _ _ _ _ S Hk Hk'), !lookup_insert_eq.
      * rewrite !lookup_insert_ne; [|by intros ->; eapply Hne, home_index|done].
        eapply same_slot_ext; [|exact Hf|by apply s_slot0]. intros r. apply s_bound0.
    + intros i c Hc Hne Hown. destruct (s_alias0 i c Hc Hne Hown) as (H1 & H2 & H3).
      rewrite lookup_insert_ne; [done|]. intros <-.
      destruct k as [x|c']; simpl in Hk; [naive_solver|]. destruct (s_owner0 _ _ Hk). congruence.
    + intros i n r Hn. destruct (decide (i = j)) as [->|Hne].
      * rewrite lookup_insert_eq. by intros [= <-].
      * rewrite lookup_insert_ne by done. by eapply s_gone0.
    + intros i r. destruct (decide (i = j)) as [->|Hne].
      * rewrite lookup_insert_eq. intros [= <-]. simpl. lia.
      * rewrite lookup_insert_ne by done. intros Hr. apply s_bound0 in Hr. lia.
    + intros a b Hab Hb. destruct (decide (b = next_seq o)) as [->|].
      * rewrite Hf1, Hf by done. by apply s_below0.
      * rewrite !Hf by lia. apply s_renumber0; lia.
    + intros a Ha. destruct (decide (a = next_seq o)) as [->|]; [rewrite Hf1; lia|].
      rewrite Hf by lia. assert (f a < LiteLlm.next_seq l)%nat by (apply s_below0; lia). lia.
Qed.

Lemma contains_same {V} (m : gmap Key V) (m' : gmap Z V) k j :
  m !! k = m' !! j → contains m k = contains_index m' j.
Proof. unfold contains, contains_index, is_some. by intros ->. Qed.

(** The part of an entry after its place is known. *)
Lemma advance_sim f o l j k c nf af :
  sim (Some j) f o l → at_home o j k → (c = "" → k = KIndex j) →
  ∃ f', let '(o', evs) := advance_call o j c nf af in
    let '(l', evs') := LiteLlm.advance_call l k c nf af in evs = evs' ∧ sim None f' o' l'.
Proof.
  intros S Hk Hc. destruct (ensure_sim f o l j k S Hk) as (f' & p & q & S1 & Hp & Hq & Hn & Ha & Hs & Hb & Hd & _).
  exists f'. unfold advance_call, LiteLlm.advance_call, deliver. rewrite Hp, Hq, <- Hn, <- Ha.
  rewrite (contains_same _ (name_emitted o) k j) by (by rewrite (s_named _ _ _ _ S j k Hk)).
  set (named := contains_index (name_emitted o) j).
  set (name := extended_name named (p_name p) nf). set (args := p_args p +:+ af).
  set (o1 := ensure_pending j o) in *. set (l1 := LiteLlm.ensure_pending l k) in *.
  assert (at_home o1 j k) as Hk1.
  { unfold o1, ensure_pending. by destruct (contains_index (pending o) j). }
  assert (name_emitted o1 = name_emitted o) as En.
  { unfold o1, ensure_pending. by destruct (contains_index (pending o) j). }
  assert (∀ o2 l2, sim None f' o2 l2 →
    let r := if is_empty c then set_blank_emitted ({[j]} ∪ blank_emitted o2) o2 else o2 in
    let r' := if is_empty c then let t' := LiteLlm.assert (match k with KIndex _ => true | KId _ => false end) l2
                in LiteLlm.set_blank_emitted t' ({[k]} ∪ LiteLlm.blank_emitted t') else l2 in
    sim None f' r r') as Hblank.
  { intros o2 l2 S2. destruct (is_empty c) eqn:Ec; [|done]. apply is_empty_true in Ec.
    rewrite (Hc Ec). simpl. by apply blank_sim. }
  pose proof (delete_sim _ _ _ _ _ S1 Hk1) as Sdel.
  destruct (name_complete named name nf af) eqn:Hflush; cbn [negb andb].
  - split; [done|]. apply Hblank.
    apply (emit_name_sim f' _ _ j k name) in Sdel; [|done|simpl; by rewrite lookup_delete_eq].
    apply sim_unexempt in Sdel; [exact Sdel|]. right. simpl. by rewrite lookup_delete_eq.
  - assert (sim None f' (if is_empty name then set_pending (delete j (pending o1)) o1
                         else put_slot j (mkPending (p_seq p) name "") o1)
              (if is_empty name then LiteLlm.set_pending l1 (delete k (LiteLlm.pending l1))
               else LiteLlm.put_slot l1 k (mkPending (p_seq q) name ""))) as S2.
    { destruct (is_empty name) eqn:Hname.
      - apply sim_unexempt in Sdel; [exact Sdel|]. right. simpl. by rewrite lookup_delete_eq.
      - assert (name_emitted o !! j = None) as Hnone.
        { destruct (name_emitted o !! j) as [n|] eqn:E; [|done]. exfalso.
          assert (named = true) as Ht by (unfold named, contains_index; by rewrite E).
          revert Hname. unfold name, extended_name. rewrite Ht. simpl.
          destruct (pending o !! j) as [r|] eqn:Hr; simpl in Hd; rewrite Hd; [|done].
          by destruct (s_gone _ _ _ _ S j n r E Hr) as [_ ->]. }
        apply (sim_unexempt f' _ _ j); [|left; simpl; by rewrite En].
        apply (put_sim f' o1 l1 j k); try done; simpl; rewrite En, Hnone; [auto|by intros []]. }
    destruct (is_empty args) eqn:Hargs; [done|]. split; [done|]. apply Hblank, S2.
Qed.

(** *** The place of an entry *)

(** Registering an id: nothing changes, or the index gets it on both sides. *)
Lemma register_sim e f o l i id :
  sim e f o l →
  (register_id i id o = o ∧ LiteLlm.register_id l (KIndex i) id = l
   ∧ (tool_calls o !! i = None → id = None))
  ∨ ∃ c, register_id i id o = set_tool_calls (<[i := c]> (tool_calls o)) o
      ∧ LiteLlm.register_id l (KIndex i) id
        = LiteLlm.set_tool_calls l (<[KIndex i := c]> (LiteLlm.tool_calls l))
      ∧ (tool_calls o !! i = None ∨ tool_calls o !! i = Some "" ∧ c ≠ "" ∧ i ∉ blank_emitted o).
Proof.
  intros S. unfold register_id, LiteLlm.register_id. destruct id as [id|]; [|by left].
  rewrite (s_calls _ _ _ _ S). destruct (tool_calls o !! i) as [x|] eqn:Hx.
  - rewrite (bool_decide_ext _ _ (iff_sym (s_blank _ _ _ _ S i))).
    destruct (is_empty x && negb (is_empty id) && negb (bool_decide (i ∈ blank_emitted o))) eqn:Hb;
      [|by left].
    right. exists id. split_and!; [done|done|]. right.
    apply andb_true_iff in Hb as [[Hx' Hid]%andb_true_iff Hbl].
    apply is_empty_true in Hx' as ->. split_and!; [done| |].
    + intros ->. done.
    + intros Hin. by rewrite bool_decide_eq_true_2 in Hbl.
  - right. exists id. split_and!; [done|done|by left].
Qed.

(** An index whose id is not known has no name. *)
Lemma unresolved_unnamed e f o l i :
  sim e f o l → wf None l →
  (tool_calls o !! i = None ∨ tool_calls o !! i = Some "" ∧ i ∉ blank_emitted o) →
  name_emitted o !! i = None.
Proof.
  intros S W Hi.
  assert (at_home o i (KIndex i)) as Hk by (simpl; naive_solver).
  rewrite <- (s_named _ _ _ _ S i _ Hk).
  destruct (LiteLlm.name_emitted l !! KIndex i) as [n|] eqn:Hn; [|done].
  apply (wf_named_index _ _ W) in Hn. pose proof (wf_blank _ _ W _ Hn) as Hc.
  rewrite (s_calls _ _ _ _ S) in Hc. apply (s_blank _ _ _ _ S) in Hn. naive_solver.
Qed.

(** Registering a blank id. *)
Lemma register_blank_sim f o l i :
  sim None f o l → tool_calls o !! i = None →
  sim None f (set_tool_calls (<[i := ""]> (tool_calls o)) o)
    (LiteLlm.set_tool_calls l (<[KIndex i := ""]> (LiteLlm.tool_calls l))).
Proof.
  intros S Hi. pose proof S as [].
  assert (∀ j k, at_home (set_tool_calls (<[i := ""]> (tool_calls o)) o) j k → at_home o j k) as Hh.
  { intros j [x|c]; simpl; [|done]. intros [-> H]. split; [done|].
    destruct (decide (i = j)) as [->|]; [by left|]. by rewrite lookup_insert_ne in H. }
  split; simpl; try done.
  - intros j. destruct (decide (i = j)) as [->|]; [by rewrite !lookup_insert_eq|].
    rewrite !lookup_insert_ne by congruence. done.
  - intros c j Hc. destruct (s_owner0 c j Hc) as [H1 H2]. split; [done|].
    rewrite lookup_insert_ne; [done|congruence].
  - intros c. rewrite lookup_insert_ne by done. apply s_known0.
  - intros j k Hk. apply s_slot0. by apply Hh.
  - intros j k Hk. apply s_named0. by apply Hh.
  - intros j c. destruct (decide (i = j)) as [->|]; [rewrite lookup_insert_eq; congruence|].
    rewrite lookup_insert_ne by done. apply s_alias0.
Qed.

(** The first index that resolves an id becomes its owner; LiteLLM moves the
    buffer to the id. *)
Lemma own_sim f o l i c :
  sim None f o l → wf None l → c ≠ "" → canonical o !! c = None →
  (tool_calls o !! i = None ∨ tool_calls o !! i = Some "" ∧ c ≠ "" ∧ i ∉ blank_emitted o) →
  let o1 := set_tool_calls (<[i := c]> (tool_calls o)) o in
  let l1 := LiteLlm.set_tool_calls l (<[KIndex i := c]> (LiteLlm.tool_calls l)) in
  ∃ o2 l2, canonicalize o1 i c = (o2, i) ∧ LiteLlm.canonicalize l1 (KIndex i) c = (l2, KId c)
  ∧ canonical o2 !! c = Some i ∧ sim (Some i) f o2 l2.
Proof.
  intros S W Hc Hnew Hi o1 l1. pose proof S as [].
  assert (Hlc : LiteLlm.tool_calls l !! KId c = None) by (by rewrite s_known0, Hnew).
  destruct (wf_unknown l c W Hlc) as [Hlp Hln].
  assert (name_emitted o !! i = None) as Hni by (eapply unresolved_unnamed; naive_solver).
  assert (at_home o i (KIndex i)) as Hhome by (simpl; naive_solver).
  assert (LiteLlm.name_emitted l !! KIndex i = None) as Hnl by (by rewrite (s_named0 i _ Hhome)).
  pose proof (s_slot0 i _ Hhome) as Hs.
  exists (set_canonical (<[c := i]> (canonical o)) o1).
  set (l2 := (LiteLlm.canonicalize l1 (KIndex i) c).1).
  assert (Hcan : LiteLlm.canonicalize l1 (KIndex i) c = (l2, KId c)
    ∧ LiteLlm.tool_calls l2 = <[KId c := c]> (<[KIndex i := c]> (LiteLlm.tool_calls l))
    ∧ LiteLlm.name_emitted l2 = LiteLlm.name_emitted l
    ∧ LiteLlm.blank_emitted l2 = LiteLlm.blank_emitted l
    ∧ (LiteLlm.next_seq l ≤ LiteLlm.next_seq l2)%nat
    ∧ LiteLlm.pending l2 !! KId c = LiteLlm.pending l !! KIndex i
    ∧ (∀ k, k ≠ KId c → k ≠ KIndex i → LiteLlm.pending l2 !! k = LiteLlm.pending l !! k)).
  { unfold l2, LiteLlm.canonicalize. apply is_empty_false in Hc as Hce. rewrite Hce. simpl.
    destruct (LiteLlm.pending l !! KIndex i) as [q|] eqn:Hq.
    - unfold LiteLlm.migrate, LiteLlm.ensure_pending, LiteLlm.slot_of, contains. simpl.
      rewrite lookup_delete_ne, Hlp by done. simpl. rewrite lookup_insert_eq. simpl. rewrite Hln.
      rewrite andb_false_r. unfold or_insert_call, contains. simpl.
      rewrite lookup_insert_ne, Hlc by done. simpl. split_and!; try done; [lia| |].
      + rewrite !lookup_insert_eq. f_equal. rewrite merged_empty, string_app_nil_r.
        pose proof (wf_seq _ _ W _ _ Hq). destruct (Nat.ltb_spec (p_seq q) (LiteLlm.next_seq l)); [|lia].
        by destruct q.
      + intros k H1 H2. rewrite !lookup_insert_ne, lookup_delete_ne by done. done.
    - unfold or_insert_call, contains. simpl. rewrite lookup_insert_ne, Hlc by done. simpl.
      split_and!; done. }
  destruct Hcan as (-> & Ec & En & Eb & Enx & Ep & Eo). exists l2. split_and!; [|done|simpl; by rewrite lookup_insert_eq|].
  { unfold canonicalize. apply is_empty_false in Hc as Hce. rewrite Hce. simpl. rewrite Hnew. simpl.
    by rewrite Z.eqb_refl. }
  assert (Hh : ∀ j k, at_home (set_canonical (<[c := i]> (canonical o)) o1) j k →
    (j = i ∧ k = KId c) ∨ (j ≠ i ∧ k ≠ KId c ∧ k ≠ KIndex i ∧ at_home o j k)).
  { intros j [x|d]; simpl.
    - intros [-> H]. right. destruct (decide (j = i)) as [->|Hne].
      + rewrite lookup_insert_eq in H. naive_solver.
      + rewrite lookup_insert_ne in H by done. split_and!; congruence.
    - destruct (decide (d = c)) as [->|Hne].
      + rewrite lookup_insert_eq. intros [= <-]. by left.
      + rewrite lookup_insert_ne by done. intros Hd. right. destruct (s_owner0 _ _ Hd) as [H1 H2].
        split_and!; try congruence. intros ->. naive_solver. }
  split; simpl; rewrite ?Ec, ?En, ?Eb; try done.
  - intros j. rewrite lookup_insert_ne by done.
    destruct (decide (i = j)) as [->|]; [by rewrite !lookup_insert_eq|].
    rewrite !lookup_insert_ne by congruence. done.
  - intros d j. destruct (decide (d = c)) as [->|Hne].
    + rewrite lookup_insert_eq. intros [= <-]. by rewrite lookup_insert_eq.
    + rewrite lookup_insert_ne by done. intros Hd. destruct (s_owner0 _ _ Hd) as [H1 H2].
      split; [done|]. rewrite lookup_insert_ne; [done|]. intros ->. naive_solver.
  - intros d. destruct (decide (d = c)) as [->|Hne]; [by rewrite !lookup_insert_eq|].
    rewrite !lookup_insert_ne by congruence. apply s_known0.
  - intros j k Hk. destruct (Hh j k Hk) as [[-> ->]|(H1 & H2 & H3 & H4)].
    + by rewrite Ep.
    + rewrite Eo by done. by apply s_slot0.
  - intros j k Hk. destruct (Hh j k Hk) as [[-> ->]|(H1 & H2 & H3 & H4)]; [by rewrite Hln|].
    by apply s_named0.
  - intros j d. destruct (decide (j = i)) as [->|Hne].
    + rewrite lookup_insert_eq. intros [= <-] _. by rewrite lookup_insert_eq.
    + rewrite lookup_insert_ne by done. intros Hj Hd Hown.
      destruct (decide (d = c)) as [->|Hdc].
      * destruct (s_alias0 j c Hj Hd) as (_ & _ & [? ?]); congruence.
      * rewrite lookup_insert_ne in Hown by done. rewrite lookup_insert_ne by done. by apply s_alias0.
  - intros j n p Hn Hp. by destruct (s_gone0 j n p Hn Hp).
  - intros a Ha. specialize (s_below0 a Ha). lia.
Qed.

(** A later index that resolves the id is an alias of the owner: it keeps no
    buffer. *)
Lemma alias_sim f o l i j c :
  sim None f o l → wf None l → canonical o !! c = Some j →
  (tool_calls o !! i = None ∨ tool_calls o !! i = Some "" ∧ c ≠ "" ∧ i ∉ blank_emitted o) →
  i ≠ j ∧
  sim None f (set_pending (delete i (pending o)) (set_tool_calls (<[i := c]> (tool_calls o)) o))
    (LiteLlm.set_pending (LiteLlm.set_tool_calls l (<[KIndex i := c]> (LiteLlm.tool_calls l)))
       (delete (KIndex i) (LiteLlm.pending l))).
Proof.
  intros S W Hj Hi. pose proof S as []. destruct (s_owner0 _ _ Hj) as [Hc Hjc].
  assert (name_emitted o !! i = None) as Hni by (eapply unresolved_unnamed; naive_solver).
  assert (∀ d, canonical o !! d = Some i → False) as Hnot.
  { intros d Hd. destruct (s_owner0 _ _ Hd). naive_solver. }
  split; [intros ->; by eapply Hnot|].
  assert (Hh : ∀ x k, at_home (set_pending (delete i (pending o)) (set_tool_calls (<[i := c]> (tool_calls o)) o)) x k →
    x ≠ i ∧ k ≠ KIndex i ∧ at_home o x k).
  { intros x [y|d]; simpl.
    - intros [-> H]. destruct (decide (x = i)) as [->|Hne].
      + rewrite lookup_insert_eq in H. naive_solver.
      + rewrite lookup_insert_ne in H by done. split_and!; congruence.
    - intros Hd. split_and!; [|done|done]. intros ->. by eapply Hnot. }
  split; simpl; try done.
  - intros x. destruct (decide (i = x)) as [->|]; [by rewrite !lookup_insert_eq|].
    rewrite !lookup_insert_ne by congruence. done.
  - intros d x Hd. destruct (s_owner0 _ _ Hd) as [H1 H2]. split; [done|].
    rewrite lookup_insert_ne; [done|]. intros ->. by eapply Hnot.
  - intros d. rewrite lookup_insert_ne by done. apply s_known0.
  - intros x k Hk. destruct (Hh x k Hk) as (H1 & H2 & H3). rewrite !lookup_delete_ne by done.
    by apply s_slot0.
  - intros x k Hk. destruct (Hh x k Hk) as (H1 & H2 & H3). by apply s_named0.
  - intros x d. destruct (decide (x = i)) as [->|Hne].
    + rewrite lookup_insert_eq. intros [= <-] _ _. rewrite lookup_delete_eq. by rewrite Hj.
    + rewrite lookup_insert_ne, lookup_delete_ne by done. apply s_alias0.
  - intros x n p Hn Hp. apply lookup_delete_Some in Hp as [_ Hp]. by destruct (s_gone0 x n p Hn Hp).
  - intros x p Hp. apply lookup_delete_Some in Hp as [_ Hp]. by eapply s_bound0.
Qed.

(** Its buffer goes to the owner's, in both translators with the same result. *)
Lemma migrate_sim f o l j c p q :
  sim None f o l → canonical o !! c = Some j →
  (∀ r, LiteLlm.pending l !! KId c = Some r → p_args r = "") →
  p_name p = p_name q → p_args p = p_args q → p_seq q = f (p_seq p) → (p_seq p < next_seq o)%nat →
  ∃ f', let l2 := (LiteLlm.migrate l q (KId c)).1 in
    sim (Some j) f' (migrate p j o) l2 ∧ or_insert_call l2 (KId c) c = l2.
Proof.
  intros S Hj Hdrained Hn Ha Hs Hb. assert (at_home o j (KId c)) as Hk by done.
  destruct (ensure_sim f o l j (KId c) (sim_weaken f (Some j) o l S) Hk)
    as (f' & s & r & S1 & Hp & Hq & En & Ea & Es & Eb & Ed & Ef).
  assert (p_args s = "") as Hargs.
  { rewrite Ed. destruct (pending o !! j) as [x|] eqn:Hx; [|done]. simpl.
    pose proof (s_slot _ _ _ _ S j _ Hk) as Hslot. rewrite Hx in Hslot.
    destruct (LiteLlm.pending l !! KId c) as [y|]; [|done]. destruct Hslot as (_ & -> & _). by apply Hdrained. }
  assert (name_emitted (ensure_pending j o) = name_emitted o) as Eno.
  { unfold ensure_pending. by destruct (contains_index (pending o) j). }
  assert (contains (LiteLlm.name_emitted (LiteLlm.ensure_pending l (KId c))) (KId c)
    = contains_index (name_emitted o) j) as Hcont.
  { apply contains_same. rewrite <- Eno. apply (s_named _ _ _ _ S1 j).
    unfold ensure_pending. by destruct (contains_index (pending o) j). }
  assert (name_emitted o !! j ≠ None → p_name s = "") as Hgone.
  { intros Hne. rewrite Ed. destruct (name_emitted o !! j) as [n|] eqn:E; [|done].
    destruct (pending o !! j) as [x|] eqn:Hx; [|done].
    by destruct (s_gone _ _ _ _ S j n x E Hx). }
  assert (p_seq q = f' (p_seq p)) as Hs' by (by rewrite Ef).
  exists f'. unfold migrate, LiteLlm.migrate. rewrite Hp, Hq, <- Ea, Hargs. cbn [is_empty assert LiteLlm.assert]. rewrite Eno.
  rewrite Hcont, <- Hn, <- Ha.
  set (o1 := ensure_pending j o) in *. set (l1 := LiteLlm.ensure_pending l (KId c)) in *.
  assert (Hk1 : at_home o1 j (KId c)).
  { unfold o1, ensure_pending. by destruct (contains_index (pending o) j). }
  assert (Hown : ∀ m, or_insert_call (LiteLlm.put_slot l1 (KId c) m) (KId c) c
      = LiteLlm.put_slot l1 (KId c) m).
  { intros m. unfold or_insert_call, contains. simpl. rewrite (s_known _ _ _ _ S1).
    simpl in Hk1. by rewrite Hk1. }
  assert (p_seq p < next_seq o1)%nat as Hb1.
  { unfold o1, ensure_pending. destruct (contains_index (pending o) j); simpl; lia. }
  assert (((p_seq p <? p_seq s) = (p_seq q <? p_seq r))%nat ∨ name_emitted o !! j ≠ None) as Hcmp.
  { destruct (name_emitted o !! j) as [n|] eqn:E; [by right|left]. rewrite Hs', (Es eq_refl).
    pose proof (s_renumber _ _ _ _ S1) as Hmono.
    destruct (Nat.ltb_spec (p_seq p) (p_seq s)), (Nat.ltb_spec (f' (p_seq p)) (f' (p_seq s))); try done.
    - assert (f' (p_seq p) < f' (p_seq s))%nat by (by apply Hmono). lia.
    - destruct (decide (p_seq p = p_seq s)) as [Heq|]; [rewrite Heq in *; lia|].
      assert (f' (p_seq s) < f' (p_seq p))%nat by (apply Hmono; [lia|done]). lia. }
  destruct (name_emitted o !! j) as [n|] eqn:E.
  - replace (contains_index (name_emitted o) j) with true by (unfold contains_index; by rewrite E).
    specialize (Hgone ltac:(done)). rewrite Hgone in *.
    assert (merged_name p s = "" ∨ negb (is_empty (p_name p)) = true) as Hm.
    { unfold merged_name. destruct (is_empty (p_name p)); [left; by rewrite Hgone|by right]. }
    assert (merged_name q r = "" ∨ negb (is_empty (p_name p)) = true) as Hm'.
    { unfold merged_name. rewrite <- Hn, <- En. destruct (is_empty (p_name p)); [by left|by right]. }
    destruct (negb (is_empty (p_name p))) eqn:Hne; simpl; (split; [|apply Hown]);
      (apply (put_sim f' o1 l1 j); [done|done|..]); simpl; rewrite ?Eno, ?E; try done;
      try (by destruct (_ <? _)%nat); try naive_solver congruence.
  - replace (contains_index (name_emitted o) j) with false by (unfold contains_index; by rewrite E).
    rewrite andb_false_r. simpl. split; [|apply Hown].
    destruct Hcmp as [Hcmp|]; [|done]. rewrite <- Hcmp.
    apply (put_sim f' o1 l1 j); [done|done|..]; simpl; rewrite ?Eno, ?E; try done.
    + unfold merged_name. by rewrite Hcmp, Hn, En.
    + intros _. specialize (Es eq_refl). by destruct (_ <? _)%nat.
    + by destruct (_ <? _)%nat.
Qed.

Lemma set_canonical_id o c j :
  canonical o !! c = Some j → set_canonical (<[c := j]> (canonical o)) o = o.
Proof. intros H. unfold set_canonical. rewrite insert_id by done. by destruct o. Qed.

(** An index whose id is known. *)
Lemma known_place f o l i c :
  sim None f o l → wf None l → tool_calls o !! i = Some c → c ≠ "" →
  ∃ j, canonicalize o i c = (o, j) ∧ LiteLlm.canonicalize l (KIndex i) c = (l, KId c)
  ∧ at_home o j (KId c).
Proof.
  intros S W Hi Hc. apply is_empty_false in Hc as Hce.
  assert (LiteLlm.pending l !! KIndex i = None) as Hlp.
  { destruct (LiteLlm.pending l !! KIndex i) as [p|] eqn:Hp; [|done].
    apply (wf_buffered_index _ _ W) in Hp; [|done]. rewrite (s_calls _ _ _ _ S) in Hp. naive_solver. }
  assert (∃ j, canonical o !! c = Some j ∧ (j = i ∨ pending o !! i = None)) as (j & Hj & Hcase).
  { destruct (decide (canonical o !! c = Some i)) as [H|H]; [exists i; auto|].
    destruct (s_alias _ _ _ _ S i c Hi Hc H) as (H1 & _ & [j Hj]). exists j. auto. }
  exists j. split_and!; [| |done].
  - unfold canonicalize. rewrite Hce, Hj. simpl. rewrite set_canonical_id by done.
    destruct (Z.eqb_spec j i) as [->|Hne]; [done|]. by destruct Hcase as [-> | ->].
  - unfold LiteLlm.canonicalize. rewrite Hce. simpl. rewrite Hlp.
    unfold or_insert_call, contains. by rewrite (s_known _ _ _ _ S), Hj.
Qed.

(** An index that has just resolved an id with an owner. *)
Lemma alias_place f o l i j c :
  sim None f o l → wf None l → c ≠ "" → canonical o !! c = Some j →
  (tool_calls o !! i = None ∨ tool_calls o !! i = Some "" ∧ c ≠ "" ∧ i ∉ blank_emitted o) →
  let o1 := set_tool_calls (<[i := c]> (tool_calls o)) o in
  let l1 := LiteLlm.set_tool_calls l (<[KIndex i := c]> (LiteLlm.tool_calls l)) in
  ∃ f' o2 l2, canonicalize o1 i c = (o2, j) ∧ LiteLlm.canonicalize l1 (KIndex i) c = (l2, KId c)
  ∧ at_home o2 j (KId c) ∧ sim (Some j) f' o2 l2.
Proof.
  intros S W Hc Hj Hi o1 l1. destruct (alias_sim f o l i j c S W Hj Hi) as [Hij S1].
  assert (at_home o i (KIndex i)) as Hk by (simpl; naive_solver).
  pose proof (s_slot _ _ _ _ S i _ Hk) as Hs. apply is_empty_false in Hc as Hce.
  assert (name_emitted o !! i = None) as Hn by (eapply unresolved_unnamed; naive_solver).
  unfold canonicalize, LiteLlm.canonicalize. rewrite Hce. change (canonical o1) with (canonical o).
  rewrite Hj. simpl. pose proof (set_canonical_id o1 c j Hj) as Hsame.
  change (canonical o1) with (canonical o) in Hsame. rewrite Hsame.
  destruct (Z.eqb_spec j i) as [->|_]; [done|]. change (pending o1) with (pending o).
  destruct (pending o !! i) as [p|] eqn:Hp, (LiteLlm.pending l !! KIndex i) as [q|] eqn:Hq; try done.
  - destruct Hs as (En & Ea & Es). rewrite Hn in Es.
    destruct (migrate_sim f _ _ j c p q S1 Hj) as (f' & S2 & Hins); try done.
    { simpl. intros r. rewrite lookup_delete_ne by done. by apply (wf_drained _ _ W c). }
    { by apply Es. }
    { by apply (s_bound _ _ _ _ S i). }
    simpl in S2, Hins. fold l1 in S2, Hins.
    destruct (LiteLlm.migrate _ q (KId c)) as [t1 go]. simpl in *.
    exists f'. eexists _, t1. split; [reflexivity|]. split; [destruct go; by rewrite ?Hins|].
    split; [|done].
    unfold migrate, ensure_pending, put_slot, assert. simpl. by repeat case_match.
  - exists f, o1, l1. split; [done|]. split.
    + unfold or_insert_call, contains. simpl. rewrite lookup_insert_ne by done.
      by rewrite (s_known _ _ _ _ S), Hj.
    + split; [done|]. apply sim_weaken. revert S1. rewrite !delete_id by done. by destruct o, l.
Qed.

(** The step over one entry. *)
Lemma handle_sim f o l tc pos any :
  sim None f o l → wf None l →
  ∃ f', let '(o', evs) := handle_tool_call_chunk o tc in
    let '(l', evs') := handle_tool_call l (lite_call tc) pos any in evs = evs' ∧ sim None f' o' l'.
Proof.
  intros S W. unfold handle_tool_call_chunk, handle_tool_call. simpl.
  change (LiteLlm.name_frag (lite_call tc)) with (name_frag tc).
  change (LiteLlm.args_frag (lite_call tc)) with (args_frag tc).
  set (i := cc_index tc). set (nf := name_frag tc). set (af := args_frag tc).
  assert (Hblank : ∀ o l, sim None f o l → tool_calls o !! i = Some "" →
    ∃ f', let '(o', evs) := advance_call o i "" nf af in
      let '(l', evs') := LiteLlm.advance_call l (KIndex i) "" nf af in evs = evs' ∧ sim None f' o' l').
  { intros o1 l1 S1 H1. apply (advance_sim f); [by apply sim_weaken|simpl; auto|done]. }
  destruct (register_sim None f o l i (cc_id tc) S) as [(Ho & Hl & Hid)|(c & Ho & Hl & Hi)];
    rewrite Ho, Hl.
  - rewrite (s_calls _ _ _ _ S). destruct (tool_calls o !! i) as [c|] eqn:Hi.
    + destruct (decide (c = "")) as [->|Hc]; [by apply Hblank|].
      destruct (known_place f o l i c S W Hi Hc) as (j & -> & -> & Hk).
      apply (advance_sim f); [by apply sim_weaken|done|done].
    + assert (at_home o i (KIndex i)) as Hk by (simpl; auto).
      assert (name_emitted o !! i = None) as Hn by (eapply unresolved_unnamed; eauto).
      destruct (ensure_sim f o l i _ (sim_weaken _ _ _ _ S) Hk)
        as (f' & p & q & S1 & -> & -> & En & Ea & Es & Eb & _ & _). exists f'. split; [done|].
      assert (name_emitted (ensure_pending i o) = name_emitted o) as Eno.
      { unfold ensure_pending. by destruct (contains_index (pending o) i). }
      apply (sim_unexempt _ _ _ i); [|left; simpl; by rewrite Eno].
      apply put_sim; simpl; rewrite ?Eno, ?Hn, ?En, ?Ea; try done; [|intros _; by apply Es].
      unfold ensure_pending. destruct (contains_index (pending o) i); auto.
  - simpl. rewrite !lookup_insert_eq. destruct (decide (c = "")) as [->|Hc].
    + apply Hblank; [|simpl; by rewrite lookup_insert_eq].
      apply register_blank_sim; [done|]. destruct Hi as [?|(_ & ? & _)]; done.
    + destruct (canonical o !! c) as [j|] eqn:Hj.
      * destruct (alias_place f o l i j c S W Hc Hj Hi) as (f' & o2 & l2 & -> & -> & Hk & S2).
        by apply (advance_sim f').
      * destruct (own_sim f o l i c S W Hc Hj Hi) as (o2 & l2 & -> & -> & Hown & S2).
        by apply (advance_sim f).
Qed.

(** *** Chunks *)

(** The linked states of two translators: besides [sim], the reason [r] they
    have seen last. *)
Record linked (f : nat → nat) (o : ChatTranslator) (l : LiteLlm.ChatTranslator)
    (r : option OaFinishReason) : Prop := {
  k_sim : sim None f o l;
  k_wf : wf None l;
  k_finish : finish_reason o = map_finish <$> r;
  k_raw : LiteLlm.t_finish_reason l = raw_finish <$> r;
}.

Lemma canonicalize_finish o i c : finish_reason (canonicalize o i c).1 = finish_reason o.
Proof.
  unfold canonicalize, migrate, ensure_pending, put_slot, assert. simpl. by repeat case_match.
Qed.

Lemma advance_finish o i c nf af : finish_reason (advance_call o i c nf af).1 = finish_reason o.
Proof.
  unfold advance_call. cbv zeta. set (o1 := ensure_pending i o).
  assert (finish_reason o1 = finish_reason o) as <-.
  { unfold o1, ensure_pending. by destruct (contains_index _ _). }
  by destruct (name_complete _ _ _ _); repeat case_match.
Qed.

Lemma handle_finish o tc : finish_reason (handle_tool_call_chunk o tc).1 = finish_reason o.
Proof.
  unfold handle_tool_call_chunk. cbv zeta. set (o1 := register_id _ _ o).
  assert (finish_reason o1 = finish_reason o) as Hr.
  { unfold o1, register_id. by repeat case_match. }
  destruct (tool_calls o1 !! cc_index tc) as [c|]; simpl.
  - pose proof (canonicalize_finish o1 (cc_index tc) c) as Hc.
    destruct (canonicalize o1 _ c) as [o2 j]. rewrite advance_finish. simpl in Hc. congruence.
  - unfold ensure_pending. by destruct (contains_index _ _).
Qed.

Lemma chunks_linked f o l r tcs pos any :
  linked f o l r →
  ∃ f', let '(o', evs) := handle_chunks o tcs in
    let '(l', evs') := handle_tool_calls l (lite_call <$> tcs) pos any in
    evs = evs' ∧ linked f' o' l' r.
Proof.
  revert f o l pos. induction tcs as [|tc tcs IH]; intros f o l pos [Sm W Ho Hl]; simpl; [by exists f|].
  destruct (handle_sim f o l tc pos any Sm W) as [f1 H1]. pose proof (handle_finish o tc) as Hf.
  destruct (handle_tool_call_chunk o tc) as [o1 e1].
  destruct (handle_tool_call l (lite_call tc) pos any) as [l1 e1'] eqn:E1. destruct H1 as [<- S1].
  apply handle_tool_call_cases in E1; [|done]. pose proof (handled_wf _ _ _ _ _ _ W E1) as W1.
  apply handled_quiet in E1 as [Hr _]. simpl in Hf.
  destruct (IH f1 o1 l1 (S pos)) as [f2 H2]; [by split; congruence|]. exists f2.
  destruct (handle_chunks o1 tcs) as [o2 e2].
  change (list_fmap CallChunk ToolCallChunk lite_call tcs) with (lite_call <$> tcs).
  destruct (handle_tool_calls l1 (lite_call <$> tcs) (S pos) any) as [l2 e2']. by destruct H2 as [-> ?].
Qed.

Section Agreement.
Context `{J : SerdeJson}.

Lemma choice_linked f o l r c :
  linked f o l r →
  ∃ f', let '(o', evs) := consume_choice o c in
    let '(l', evs') := LiteLlm.consume l (mkStreamChunk [lite_choice c] None None) in
    evs = evs' ∧ linked f' o' l' (match oc_finish_reason c with Some x => Some x | None => r end).
Proof.
  intros K. unfold consume_choice, LiteLlm.consume, LiteLlm.consume_choice. simpl.
  unfold consume_delta. simpl.
  assert (delta_events (mkDelta (oc_content c) None None (map lite_call <$> oc_tool_calls c))
    = match oc_content c with
      | Some content => if is_empty content then [] else [METokenDelta content] | None => [] end) as Ht.
  { unfold delta_events, nonblank. simpl. rewrite app_nil_r. destruct (oc_content c) as [x|]; [|done].
    by destruct (is_empty x). }
  rewrite Ht. set (text := match oc_content c with Some _ => _ | None => _ end).
  assert (∃ f', let '(o', evs) := handle_chunks o (default [] (oc_tool_calls c)) in
    let '(l', evs') := match map lite_call <$> oc_tool_calls c with
      | Some tcs => let '(t1, evs) := handle_tool_calls l tcs 0 (existsb has_index tcs) in (t1, text ++ evs)
      | None => (l, text) end in
    text ++ evs = evs' ∧ linked f' o' l' r) as [f' H].
  { destruct (oc_tool_calls c) as [tcs|]; simpl.
    - destruct (chunks_linked f o l r tcs 0 (existsb has_index (map lite_call tcs)) K) as [f' H].
      exists f'. destruct (handle_chunks o tcs) as [o' evs].
      change (lite_call <$> tcs) with (map lite_call tcs) in H.
      destruct (handle_tool_calls _ _ _ _) as [l' evs']. by destruct H as [-> ?].
    - exists f. by rewrite app_nil_r. }
  exists f'. destruct (handle_chunks o (default [] (oc_tool_calls c))) as [o' evs].
  destruct (match map lite_call <$> oc_tool_calls c with Some tcs => _ | None => _ end) as [l' evs'].
  destruct H as [<- [S W Ho Hl]]. rewrite app_nil_r.
  destruct (oc_finish_reason c) as [x|]; simpl; (split; [done|]); [|by split].
  split; simpl; try done.
  - by destruct S; split.
  - by apply wf_set_finish.
Qed.

Definition last_reason (r : option OaFinishReason) (l : list OaFinishReason) : option OaFinishReason :=
  match last l with Some x => Some x | None => r end.

(** The finish reasons of a stream, in order. *)
Definition reasons (chunks : list OaChunk) : list OaFinishReason :=
  omap oc_finish_reason (chunks ≫= oa_choices).

Lemma choices_linked f o l r cs rest :
  linked f o l r →
  ∃ f' l', let '(o', evs) := consume_choices o cs in
    linked f' o' l' (last_reason r (omap oc_finish_reason cs))
    ∧ LiteLlm.consume_all l (((λ c, mkStreamChunk [lite_choice c] None None) <$> cs) ++ rest)
      = (let '(l2, evs') := LiteLlm.consume_all l' rest in (l2, evs ++ evs')).
Proof.
  revert f o l r. induction cs as [|c cs IH]; intros f o l r K.
  { exists f, l. simpl. split; [done|]. by destruct (LiteLlm.consume_all l rest). }
  cbn [consume_choices fmap list_fmap app LiteLlm.consume_all].
  destruct (choice_linked f o l r c K) as [f1 H1]. destruct (consume_choice o c) as [o1 e1].
  destruct (LiteLlm.consume l _) as [l1 e1']. destruct H1 as [<- K1].
  destruct (IH _ _ _ _ K1) as (f2 & l2 & H2). exists f2, l2.
  destruct (consume_choices o1 cs) as [o2 e2]. destruct H2 as [K2 E2].
  change (list_fmap OaChoice StreamChunk (λ c, mkStreamChunk [lite_choice c] None None) cs)
    with ((λ c, mkStreamChunk [lite_choice c] None None) <$> cs). rewrite E2.
  split; [|by destruct (LiteLlm.consume_all l2 rest); rewrite app_assoc].
  replace (last_reason r (omap oc_finish_reason (c :: cs)))
    with (last_reason (match oc_finish_reason c with Some x => Some x | None => r end)
            (omap oc_finish_reason cs)); [done|].
  unfold last_reason. cbn [omap list_omap]. destruct (oc_finish_reason c); [|done].
  rewrite last_cons. change (list_omap OaChoice OaFinishReason oc_finish_reason cs) with (omap oc_finish_reason cs).
  by destruct (last (omap oc_finish_reason cs)).
Qed.

Lemma consume_all_linked f o l r chunks :
  linked f o l r →
  ∃ f', let '(o', evs) := consume_all o chunks in
    let '(l', evs') := LiteLlm.consume_all l (chunks ≫= lite_chunks) in
    evs = evs' ∧ linked f' o' l' (last_reason r (reasons chunks)).
Proof.
  revert f o l r. induction chunks as [|chunk chunks IH]; intros f o l r K; [by exists f|].
  cbn [consume_all mbind list_bind]. unfold lite_chunks at 1, consume. rewrite <- app_assoc.
  destruct (choices_linked f o l r (oa_choices chunk)
    ([mkStreamChunk [] (oa_usage chunk) None] ++ (chunks ≫= lite_chunks)) K) as (f1 & l1 & H1).
  destruct (consume_choices o (oa_choices chunk)) as [o1 e1]. destruct H1 as [K1 E1].
  change (list_bind OaChunk StreamChunk lite_chunks chunks) with (chunks ≫= lite_chunks). rewrite E1.
  cbn [app LiteLlm.consume_all LiteLlm.consume choices sc_usage].
  destruct (IH _ _ _ _ K1) as [f2 H2]. exists f2. destruct (consume_all o1 chunks) as [o2 e2].
  destruct (LiteLlm.consume_all l1 (chunks ≫= lite_chunks)) as [l2 e2']. destruct H2 as [<- K2].
  split; [by rewrite !app_assoc|].
  replace (last_reason r (reasons (chunk :: chunks)))
    with (last_reason (last_reason r (omap oc_finish_reason (oa_choices chunk))) (reasons chunks)); [done|].
  unfold reasons, last_reason. cbn [mbind list_bind]. rewrite omap_app, last_app.
  change (list_bind OaChunk OaChoice oa_choices chunks) with (chunks ≫= oa_choices).
  by destruct (last (omap oc_finish_reason (chunks ≫= oa_choices))).
Qed.
End Agreement.

(** *** The end of the stream *)

(** What the flush owes an index, here and there. *)
Definition flush_event (o : ChatTranslator) (i : Z) : option ModelEvent :=
  match name_emitted o !! i, tool_calls o !! i, pending o !! i with
  | None, Some c, Some p =>
      if is_empty (p_name p) then None else Some (METoolCallDelta c (Some (p_name p)) "")
  | _, _, _ => None
  end.

Definition lite_flush_event (l : LiteLlm.ChatTranslator) (k : Key) : option ModelEvent :=
  match LiteLlm.name_emitted l !! k, LiteLlm.tool_calls l !! k, LiteLlm.pending l !! k with
  | None, Some c, Some p =>
      if is_empty (p_name p) then None else Some (METoolCallDelta c (Some (p_name p)) "")
  | _, _, _ => None
  end.

(** Without an alarm each buffer is flushed on its own. *)
Lemma lite_flush_list l0 keys l already :
  NoDup keys → LiteLlm.tool_calls l = LiteLlm.tool_calls l0 →
  (∀ k, k ∈ keys → LiteLlm.pending l !! k = LiteLlm.pending l0 !! k
     ∧ LiteLlm.name_emitted l !! k = LiteLlm.name_emitted l0 !! k) →
  let '(l', out) := flush_keys l already keys in
  (LiteLlm.alarms l ≤ LiteLlm.alarms l')%nat
  ∧ (LiteLlm.alarms l' = LiteLlm.alarms l → out = omap (lite_flush_event l0) keys).
Proof.
  intros Hnd. revert l already. induction Hnd as [|k keys Hk _ IH]; intros l already Hc Hs; simpl; [done|].
  destruct (flush_key l already k) as [[l1 already1] e1] eqn:E1.
  assert (LiteLlm.tool_calls l1 = LiteLlm.tool_calls l0
    ∧ (∀ k', k' ≠ k → LiteLlm.pending l1 !! k' = LiteLlm.pending l !! k'
         ∧ LiteLlm.name_emitted l1 !! k' = LiteLlm.name_emitted l !! k')
    ∧ (LiteLlm.alarms l ≤ LiteLlm.alarms l1)%nat
    ∧ (LiteLlm.alarms l1 = LiteLlm.alarms l → e1 = option_list (lite_flush_event l0 k)))
    as (Hc1 & Ho & Ha & He).
  { destruct (Hs k) as [Hp Hn]; [by left|]. unfold lite_flush_event. rewrite <- Hp, <- Hn, <- Hc.
    revert E1. unfold flush_key, contains.
    destruct (LiteLlm.name_emitted l !! k); [by intros [= <- <- <-]|].
    destruct (LiteLlm.tool_calls l !! k) as [c|]; [|by intros [= <- <- <-]].
    destruct (LiteLlm.pending l !! k) as [p|]; [|by intros [= <- <- <-]].
    destruct (is_empty (p_name p)); [by intros [= <- <- <-]|].
    destruct (_ && _)%bool; intros [= <- <- <-]; simpl; split_and!; try done; try lia.
    intros k' Hne. by rewrite !lookup_insert_ne. }
  specialize (IH l1 already1 Hc1). destruct (flush_keys l1 already1 keys) as [l2 e2].
  destruct IH as [Hle Heq].
  { intros k' Hk'. destruct (Ho k') as [-> ->]; [by intros ->|]. apply Hs. by right. }
  split; [lia|]. intros Hsame. rewrite Heq, He by lia. by destruct (lite_flush_event l0 k).
Qed.

Lemma flush_list o0 indices o already :
  NoDup indices → tool_calls o = tool_calls o0 →
  (∀ i, i ∈ indices → pending o !! i = pending o0 !! i ∧ name_emitted o !! i = name_emitted o0 !! i) →
  (∀ i c, i ∈ indices → is_Some (flush_event o0 i) → tool_calls o0 !! i = Some c → c ≠ "" →
     (c ∉ already) ∧ (∀ j, j ∈ indices → is_Some (flush_event o0 j) → tool_calls o0 !! j = Some c → j = i)) →
  let '(o', out) := flush_indices o already indices in
  alarms o' = alarms o ∧ finish_reason o' = finish_reason o ∧ out = omap (flush_event o0) indices.
Proof.
  intros Hnd. revert o already. induction Hnd as [|i indices Hi _ IH]; intros o already Hc Hs Hu; simpl; [done|].
  destruct (flush_index o already i) as [[o1 already1] e1] eqn:E1.
  assert (tool_calls o1 = tool_calls o0
    ∧ (∀ j, j ≠ i → pending o1 !! j = pending o !! j ∧ name_emitted o1 !! j = name_emitted o !! j)
    ∧ alarms o1 = alarms o ∧ finish_reason o1 = finish_reason o
    ∧ e1 = option_list (flush_event o0 i)
    ∧ (∀ c, c ∈ already1 → c ∈ already ∨ is_Some (flush_event o0 i) ∧ tool_calls o0 !! i = Some c))
    as (Hc1 & Ho & Ha & Hf & He & Hal).
  { destruct (Hs i) as [Hp Hn]; [by left|].
    specialize (Hu i). revert Hu. unfold flush_event. rewrite <- Hp, <- Hn, <- Hc. revert E1.
    unfold flush_index, contains_index.
    destruct (name_emitted o !! i); simpl; [intros [= <- <- <-] _; split_and!; by auto|].
    destruct (tool_calls o !! i) as [c|]; [|intros [= <- <- <-] _; split_and!; by auto].
    destruct (pending o !! i) as [p|]; [|intros [= <- <- <-] _; split_and!; by auto].
    destruct (is_empty (p_name p)); [intros [= <- <- <-] _; split_and!; by auto|].
    destruct (negb (is_empty c) && bool_decide (c ∈ already)) eqn:Hb.
    { intros _ Hu. exfalso. apply andb_true_iff in Hb as [Hb1 Hb2]. apply bool_decide_eq_true in Hb2.
      destruct (Hu c) as [Hnot _]; [by left|by eexists|done| |done].
      intros ->. done. }
    intros [= <- <- <-] _. simpl. split_and!; try done.
    - intros j Hne. by rewrite !lookup_insert_ne.
    - intros d. destruct (is_empty c); [auto|]. rewrite elem_of_union, elem_of_singleton.
      intros [->|]; [right|by left]. split; [by eexists|done]. }
  specialize (IH o1 already1 Hc1). destruct (flush_indices o1 already1 indices) as [o2 e2].
  destruct IH as (Ha2 & Hf2 & He2).
  { intros j Hj. destruct (Ho j) as [-> ->]; [by intros ->|]. apply Hs. by right. }
  { intros j c Hj Hfj Hcj Hne. destruct (Hu j c) as [Hnot Huniq]; [by right|done..|]. split.
    - intros Hin. destruct (Hal c Hin) as [?|[Hfi Hci]]; [done|]. apply Hi.
      by rewrite (Huniq i) by (done || by left).
    - intros j' Hj'. apply Huniq. by right. }
  split_and!; [congruence|congruence|]. rewrite He, He2. by destruct (flush_event o0 i).
Qed.

(** Where a buffered index is kept by LiteLLM. *)
Definition home (o : ChatTranslator) (i : Z) : Key :=
  match tool_calls o !! i with
  | Some c => if is_empty c then KIndex i else KId c
  | None => KIndex i
  end.

Lemma home_buffered e f o l i p : sim e f o l → pending o !! i = Some p → at_home o i (home o i).
Proof.
  intros Sm Hp. unfold home. destruct (tool_calls o !! i) as [c|] eqn:Hc; [|simpl; auto].
  destruct (is_empty c) eqn:Hce; [apply is_empty_true in Hce as ->; simpl; auto|].
  apply is_empty_false in Hce. simpl. destruct (decide (canonical o !! c = Some i)) as [|Hown]; [done|].
  destruct (s_alias _ _ _ _ Sm i c Hc Hce Hown). congruence.
Qed.

Lemma buffers_correspond f o l :
  sim None f o l → wf None l →
  (map_to_list (LiteLlm.pending l)).*1 ≡ₚ home o <$> (map_to_list (pending o)).*1.
Proof.
  intros Sm W.
  assert (Hin : ∀ i, i ∈ (map_to_list (pending o)).*1 ↔ is_Some (pending o !! i)).
  { intros i. rewrite list_elem_of_fmap. split.
    - intros ([j p] & -> & Hp). apply elem_of_map_to_list in Hp. by exists p.
    - intros [p Hp]. exists (i, p). by rewrite elem_of_map_to_list. }
  apply NoDup_Permutation.
  - apply NoDup_fst_map_to_list.
  - apply NoDup_fmap_2_strong; [|apply NoDup_fst_map_to_list].
    intros i j [p Hi]%Hin [q Hj]%Hin Heq. apply (home_index o i j (home o i)).
    + by eapply home_buffered.
    + rewrite Heq. by eapply home_buffered.
  - intros k. rewrite !list_elem_of_fmap. split.
    + intros ([k' q] & -> & Hq). apply elem_of_map_to_list in Hq. simpl.
      assert (∃ i, at_home o i k') as [i Hk].
      { destruct k' as [i|c].
        - exists i. simpl. rewrite <- (s_calls _ _ _ _ Sm). split; [done|].
          by apply (wf_buffered_index _ _ W) in Hq.
        - apply (wf_buffered_id _ _ W) in Hq. rewrite (s_known _ _ _ _ Sm) in Hq. simpl.
          destruct (canonical o !! c) as [i|]; [by exists i|done]. }
      pose proof (s_slot _ _ _ _ Sm i k' Hk) as Hs. rewrite Hq in Hs.
      destruct (pending o !! i) as [p|] eqn:Hp; [|done]. exists i. split; [|by apply Hin; exists p].
      eapply home_key; [done..|]. by eapply home_buffered.
    + intros (i & -> & [p Hp]%Hin). pose proof (home_buffered _ _ _ _ _ _ Sm Hp) as Hk.
      pose proof (s_slot _ _ _ _ Sm i _ Hk) as Hs. rewrite Hp in Hs.
      destruct (LiteLlm.pending l !! home o i) as [q|] eqn:Hq; [|done].
      exists (home o i, q). by rewrite elem_of_map_to_list.
Qed.

Lemma flush_event_home f o l i p :
  sim None f o l → pending o !! i = Some p → lite_flush_event l (home o i) = flush_event o i.
Proof.
  intros Sm Hp. pose proof (home_buffered _ _ _ _ _ _ Sm Hp) as Hk.
  unfold lite_flush_event, flush_event. rewrite (s_named _ _ _ _ Sm i _ Hk), Hp.
  assert (LiteLlm.tool_calls l !! home o i = tool_calls o !! i) as ->.
  { revert Hk. destruct (home o i) as [j|c]; simpl; [intros [-> _]; apply (s_calls _ _ _ _ Sm)|].
    intros Hc. rewrite (s_known _ _ _ _ Sm), Hc. by destruct (s_owner _ _ _ _ Sm _ _ Hc). }
  pose proof (s_slot _ _ _ _ Sm i _ Hk) as Hs. rewrite Hp in Hs.
  destruct (LiteLlm.pending l !! home o i) as [q|]; [|done]. by destruct Hs as (-> & _ & _).
Qed.

Lemma flush_only_calls o indices : only_calls (omap (flush_event o) indices).
Proof.
  unfold only_calls, text_deltas, reasoning_deltas, usage_events, finish_events.
  induction indices as [|i indices IH]; [done|]. simpl.
  destruct (flush_event o i) as [ev|] eqn:Hev; [|exact IH]. revert Hev. unfold flush_event.
  repeat case_match; try done; intros [= <-]; exact IH.
Qed.

(** At the end the two flush the same names, in their own orders. *)
Lemma finish_linked f o l r :
  linked f o l r →
  ∃ names names', names ≡ₚ names' ∧ only_calls names
  ∧ (∀ c, c ≠ "" → (length (call_deltas c names') ≤ 1)%nat)
  ∧ (finish o).2 = names ++ ((λ x, MEFinish (map_finish x)) <$> option_list r)
  ∧ (translator_finish l).2 = names' ++ ((λ x, MEFinish (finish_reason_of (raw_finish x))) <$> option_list r)
  ∧ alarms (finish o).1 = 0%nat.
Proof.
  intros [Sm W Ho Hl].
  exists (omap (flush_event o) (sorted_indices (pending o))), (omap (lite_flush_event l) (flush_order (LiteLlm.pending l)).*1).
  assert (sorted_indices (pending o) ≡ₚ (map_to_list (pending o)).*1) as Hperm by apply merge_sort_Permutation.
  assert (NoDup (sorted_indices (pending o))) as Hnd by (rewrite Hperm; apply NoDup_fst_map_to_list).
  assert (Hflush : ∀ i, is_Some (flush_event o i) → ∃ p, pending o !! i = Some p ∧ name_emitted o !! i = None).
  { intros i [ev Hev]. revert Hev. unfold flush_event. repeat case_match; naive_solver. }
  pose proof (flush_list o (sorted_indices (pending o)) o (already_named o) Hnd eq_refl) as Hfl.
  unfold finish, flush_buffered_names. destruct (flush_indices _ _ _) as [o1 out]. destruct Hfl as (Ha & Hf & ->).
  { done. }
  { intros i c _ [p [Hp Hn]]%Hflush Hc Hne. split.
    - unfold already_named. rewrite elem_of_list_to_set, list_elem_of_omap.
      intros ([j n] & Hj & Hcj). apply elem_of_map_to_list in Hj. simpl in Hcj.
      assert (tool_calls o !! j = Some c) as Hcj'.
      { unfold nonblank in Hcj. destruct (tool_calls o !! j) as [x|]; [|done].
        destruct (is_empty x); congruence. }
      pose proof (home_buffered _ _ _ _ _ _ Sm Hp) as Hk. unfold home in Hk. rewrite Hc in Hk.
      apply is_empty_false in Hne as Hce. rewrite Hce in Hk. simpl in Hk.
      destruct (decide (j = i)) as [->|Hji]; [congruence|].
      destruct (s_alias _ _ _ _ Sm j c Hcj' Hne) as (_ & Hnj & _); congruence.
    - intros j _ [q [Hq _]]%Hflush Hcj.
      pose proof (home_buffered _ _ _ _ _ _ Sm Hp) as Hk. pose proof (home_buffered _ _ _ _ _ _ Sm Hq) as Hk'.
      unfold home in *. rewrite Hc in Hk. rewrite Hcj in Hk'. apply is_empty_false in Hne. rewrite Hne in *.
      by eapply home_index. }
  pose proof (lite_flush_list l (flush_order (LiteLlm.pending l)).*1 l (LiteLlm.already_named l)) as Hlf.
  destruct (translator_finish l) as [l' out'] eqn:El. pose proof El as El'.
  apply finish_spec in El' as (_ & _ & Hal & _); [|done]. revert El.
  unfold translator_finish, LiteLlm.flush_buffered_names.
  destruct (flush_keys _ _ _) as [l1 out1] eqn:Ek.
  assert (NoDup (flush_order (LiteLlm.pending l)).*1) as Hnl.
  { rewrite flush_order_perm. apply NoDup_fst_map_to_list. }
  destruct Hlf as [_ Hlf]; [done..|].
  apply flush_keys_spec in Ek as (Hal1 & Hfl1 & Howed & _); [|by apply wf_flushable|done].
  rewrite Hlf in Howed |- * by (by rewrite Hal1, (wf_alarms _ _ W)). clear Hlf.
  rewrite Hfl1, Hl, Hf, Ho.
  intros El. split_and!.
  - rewrite Hperm, flush_order_perm, (buffers_correspond f o l Sm W).
    apply reflexive_eq. apply list_omap_ext, Forall2_fmap_r, Forall2_same_length_lookup.
    split; [done|]. intros n i j Hi Hj. rewrite Hi in Hj. injection Hj as <-. simpl.
    apply list_elem_of_lookup_2, list_elem_of_fmap in Hi as ([i' p] & -> & Hp).
    apply elem_of_map_to_list in Hp. symmetry. by apply (flush_event_home f o l i' p).
  - apply flush_only_calls.
  - intros c Hne. rewrite Howed by done. destruct (bool_decide _); simpl; [|lia].
    unfold owed. destruct (_ && _)%bool; simpl; lia.
  - destruct r; simpl; by rewrite ?app_nil_r.
  - destruct r; simpl in *; injection El as <- <-; simpl; by rewrite ?app_nil_r.
  - destruct r; simpl; rewrite Ha; apply (s_alarms _ _ _ _ Sm).
Qed.

(** ** What the backend delivers *)

Section Delivery.
Context `{J : SerdeJson}.

Lemma new_linked : linked id ChatTranslator_new LiteLlm.ChatTranslator_new None.
Proof.
  split; [|apply wf_new|done..].
  split; simpl; try done; intros; rewrite ?lookup_empty in *; try done; try lia.
Qed.

(** A whole response here, and what LiteLLM makes of it. *)
Definition translate (chunks : list OaChunk) : ChatTranslator * list ModelEvent :=
  let '(o, evs) := consume_all ChatTranslator_new chunks in
  let '(o', evs') := finish o in (o', evs ++ evs').

Lemma translate_linked chunks :
  ∃ evs names names', names ≡ₚ names' ∧ only_calls names
  ∧ (∀ c, c ≠ "" → (length (call_deltas c names') ≤ 1)%nat)
  ∧ snd (translate chunks) = evs ++ names ++ ((λ x, MEFinish (map_finish x)) <$> option_list (last (reasons chunks)))
  ∧ snd (LiteLlm.translate (chunks ≫= lite_chunks))
    = evs ++ names' ++ ((λ x, MEFinish (finish_reason_of (raw_finish x))) <$> option_list (last (reasons chunks)))
  ∧ snd (consume_all ChatTranslator_new chunks) = evs
  ∧ snd (LiteLlm.consume_all LiteLlm.ChatTranslator_new (chunks ≫= lite_chunks)) = evs
  ∧ alarms (fst (translate chunks)) = 0%nat.
Proof.
  unfold translate, LiteLlm.translate.
  destruct (consume_all_linked id _ _ None chunks new_linked) as [f H].
  destruct (consume_all ChatTranslator_new chunks) as [o evs].
  destruct (LiteLlm.consume_all _ (chunks ≫= lite_chunks)) as [l evs']. destruct H as [<- K].
  destruct (finish_linked _ _ _ _ K) as (names & names' & Hp & Hc & Hone & Ho & Hl & Ha).
  destruct (finish o) as [o' out]. destruct (translator_finish l) as [l' out']. simpl in *. subst out out'.
  replace (last_reason None (reasons chunks)) with (last (reasons chunks)).
  - by exists evs, names, names'.
  - unfold last_reason. by destruct (last (reasons chunks)).
Qed.

(** C17. The two chat translators agree, as the source says they do.  On any
    stream of the Chat Completions API the OpenAI translator emits, event for
    event and chunk by chunk, what the LiteLLM translator emits when the same
    stream comes through the proxy, however ids and names are cut, interleaved,
    repeated, blank, late or shared by several indexes; at the end both flush
    the same names, each in its own order, and close with the reason seen last,
    which differs only for the deprecated [function_call]. *)
Theorem chat_agrees chunks :
  ∃ evs names names',
    snd (consume_all ChatTranslator_new chunks) = evs
    ∧ snd (LiteLlm.consume_all LiteLlm.ChatTranslator_new (chunks ≫= lite_chunks)) = evs
    ∧ names ≡ₚ names'
    ∧ snd (translate chunks)
      = evs ++ names ++ (MEFinish <$> option_list (map_finish <$> last (reasons chunks)))
    ∧ snd (LiteLlm.translate (chunks ≫= lite_chunks))
      = evs ++ names' ++ (MEFinish <$> option_list (finish_reason_of ∘ raw_finish <$> last (reasons chunks)))
    ∧ (last (reasons chunks) ≠ Some OaFunctionCall →
       map_finish <$> last (reasons chunks) = (finish_reason_of ∘ raw_finish <$> last (reasons chunks))).
Proof.
  destruct (translate_linked chunks) as (evs & names & names' & Hp & _ & _ & Ho & Hl & He & He' & _).
  exists evs, names, names'. split_and!; [done..| | |].
  - rewrite Ho. by destruct (last (reasons chunks)).
  - rewrite Hl. by destruct (last (reasons chunks)).
  - by destruct (last (reasons chunks)) as [[]|].
Qed.

Lemma names_of_perm c e1 e2 : e1 ≡ₚ e2 → names_of c e1 ≡ₚ names_of c e2.
Proof. unfold names_of, call_deltas. by intros ->. Qed.

(** Whatever the API sends, a call that has an id is named at most once, even
    in a stream cut short, [Finish] comes exactly when a reason was sent, once,
    with the reason sent last and as the last event, and neither the assertion
    nor the regression net of the translator fires. *)
Theorem openai_chat_protocol chunks :
  alarms (fst (translate chunks)) = 0%nat
  ∧ (∀ c, c ≠ "" → (length (names_of c (snd (consume_all ChatTranslator_new chunks))) ≤ 1)%nat
       ∧ (length (names_of c (snd (translate chunks))) ≤ 1)%nat)
  ∧ ∃ pre, finish_events pre = []
      ∧ snd (translate chunks) = pre ++ (MEFinish <$> option_list (map_finish <$> last (reasons chunks))).
Proof.
  destruct (translate_linked chunks) as (evs & names & names' & Hp & Hc & _ & Ho & Hl & He & He' & Ha).
  assert (Hw : wf None (fst (LiteLlm.consume_all LiteLlm.ChatTranslator_new (chunks ≫= lite_chunks)))
    ∧ traced (fst (LiteLlm.consume_all LiteLlm.ChatTranslator_new (chunks ≫= lite_chunks))) evs
    ∧ finish_events evs = []).
  { rewrite <- He'. apply (consume_all_wf (chunks ≫= lite_chunks)), surjective_pairing. }
  destruct Hw as (W & T & Hf).
  split_and!; [done| |].
  - intros c Hne. rewrite He. revert W T Hl. unfold LiteLlm.translate. rewrite <- He'.
    destruct (LiteLlm.consume_all _ _) as [l es]. simpl. intros W T.
    destruct (translator_finish l) as [l' out'] eqn:El. simpl. intros Hout.
    destruct (names_bound l es l' out' c W T El Hne) as [H1 H2]. split; [done|].
    etrans; [|exact H2]. rewrite Ho, Hout, <- He'. simpl. rewrite !names_of_app, !length_app.
    rewrite (names_of_perm c names names' Hp). destruct (last (reasons chunks)); simpl; lia.
  - exists (evs ++ names). split.
    + unfold finish_events in *. rewrite omap_app, Hf. apply Hc.
    + rewrite Ho, app_assoc. by destruct (last (reasons chunks)).
Qed.
(** *** The turn *)

(** The channels of a response as the API sent them. *)
Definition oa_calls (chunks : list OaChunk) : list CallChunk :=
  (chunks ≫= oa_choices) ≫= λ c, default [] (oc_tool_calls c).
Definition oa_text (chunks : list OaChunk) : list string := omap oc_content (chunks ≫= oa_choices).
Definition oa_fragments (i : Z) (chunks : list OaChunk) : list CallChunk :=
  filter (λ tc, cc_index tc = i) (oa_calls chunks).

(** Extraction from the chunks LiteLLM sees. *)
Lemma lite_bind {X} (h : StreamChunk → list X) (k : OaChoice → list X) chunks :
  (∀ c, h (mkStreamChunk [lite_choice c] None None) = k c) →
  (∀ u, h (mkStreamChunk [] u None) = []) →
  (chunks ≫= lite_chunks) ≫= h = (chunks ≫= oa_choices) ≫= k.
Proof.
  intros Hc Hu. induction chunks as [|chunk chunks IH]; [done|].
  cbn [mbind list_bind]. rewrite !bind_app. f_equal; [|exact IH].
  unfold lite_chunks. rewrite bind_app. simpl. rewrite Hu, !app_nil_r.
  induction (oa_choices chunk) as [|c cs IHc]; [done|].
  cbn [fmap list_fmap mbind list_bind]. rewrite Hc. f_equal. exact IHc.
Qed.

Lemma concat_bind {A B} (h : A → list B) l : concat (h <$> l) = l ≫= h.
Proof. induction l as [|x l IH]; [done|]. simpl. f_equal. exact IH. Qed.

Lemma omap_bind {A B} (h : A → option B) l : omap h l = l ≫= λ x, option_list (h x).
Proof. induction l as [|x l IH]; [done|]. simpl. destruct (h x); simpl; [f_equal|]; exact IH. Qed.

Lemma lite_wire_calls chunks : wire_calls (chunks ≫= lite_chunks) = lite_call <$> oa_calls chunks.
Proof.
  unfold wire_calls, oa_calls. rewrite concat_bind.
  rewrite (lite_bind _ (λ c, lite_call <$> default [] (oc_tool_calls c))).
  - induction (chunks ≫= oa_choices) as [|c cs IH]; [done|].
    cbn [mbind list_bind]. rewrite fmap_app. f_equal. exact IH.
  - intros c. simpl. unfold first_delta. simpl. by destruct (oc_tool_calls c).
  - done.
Qed.

Lemma lite_wire_text chunks : wire_text (chunks ≫= lite_chunks) = oa_text chunks.
Proof.
  unfold wire_text, oa_text. rewrite !omap_bind. by apply lite_bind.
Qed.

Lemma lite_wire_usage chunks : wire_usage (chunks ≫= lite_chunks) = omap oa_usage chunks.
Proof.
  unfold wire_usage. rewrite !omap_bind.
  induction chunks as [|chunk chunks IH]; [done|].
  cbn [mbind list_bind]. rewrite bind_app. f_equal; [|exact IH].
  unfold lite_chunks. rewrite bind_app. simpl. rewrite app_nil_r.
  induction (oa_choices chunk) as [|c cs IHc]; [done|]. exact IHc.
Qed.

Lemma lite_fragments i chunks :
  fragments i (wire_calls (chunks ≫= lite_chunks)) = lite_call <$> oa_fragments i chunks.
Proof.
  rewrite lite_wire_calls. unfold fragments, oa_fragments.
  induction (oa_calls chunks) as [|tc l IH]; [done|]. rewrite fmap_cons, !filter_cons. simpl.
  destruct (decide (cc_index tc = i)) as [->|Hne]; [rewrite decide_True by done|rewrite decide_False by congruence].
  - by rewrite fmap_cons, IH.
  - exact IH.
Qed.

(** A backend with one id per index. *)
Record conforming_chat (indexes : list Z) (id_of : Z → string) (chunks : list OaChunk) : Prop := {
  cf_entries : Forall (λ tc, cc_index tc ∈ indexes
                         ∧ (cc_id tc = None ∨ cc_id tc = Some (id_of (cc_index tc)))) (oa_calls chunks);
  cf_ids : ∀ i, i ∈ indexes → id_of i ≠ "";
  cf_inj : ∀ i j, i ∈ indexes → j ∈ indexes → id_of i = id_of j → i = j;
}.

Lemma conforming_lite indexes id_of chunks :
  conforming_chat indexes id_of chunks → conforming indexes id_of (chunks ≫= lite_chunks).
Proof.
  intros [He Hi Hj]. split; [|done|done]. rewrite lite_wire_calls. apply Forall_fmap.
  eapply Forall_weaken; [exact He|]. intros tc [H1 H2]. exists (cc_index tc). by split_and!.
Qed.

(** Names of one id in a permutation, when there is at most one. *)
Lemma call_deltas_perm c e1 e2 :
  e1 ≡ₚ e2 → (length (call_deltas c e2) ≤ 1)%nat → call_deltas c e1 = call_deltas c e2.
Proof.
  intros Hp Hl. assert (call_deltas c e1 ≡ₚ call_deltas c e2) as H by (unfold call_deltas; by rewrite Hp).
  destruct (call_deltas c e2) as [|x [|y l]]; [by apply Permutation_nil_r in H|by apply Permutation_singleton_r in H|].
  simpl in Hl. lia.
Qed.
(** A call is decoded here as it is by LiteLLM. *)
Lemma calls_agree chunks c :
  c ≠ "" → call_deltas c (snd (translate chunks)) = call_deltas c (snd (LiteLlm.translate (chunks ≫= lite_chunks))).
Proof.
  intros Hne. destruct (translate_linked chunks) as (evs & names & names' & Hp & _ & Hone & -> & -> & _).
  rewrite !call_deltas_app, (call_deltas_perm c names names' Hp) by by apply Hone.
  f_equal. f_equal. by destruct (last (reasons chunks)).
Qed.

Lemma calls_agree_none chunks c :
  call_deltas c (snd (LiteLlm.translate (chunks ≫= lite_chunks))) = [] →
  call_deltas c (snd (translate chunks)) = [].
Proof.
  destruct (translate_linked chunks) as (evs & names & names' & Hp & _ & _ & -> & -> & _).
  rewrite !call_deltas_app. intros [-> [Hn _]%app_eq_nil]%app_eq_nil.
  rewrite (call_deltas_perm c names names' Hp) by (rewrite Hn; simpl; lia). rewrite Hn.
  by destruct (last (reasons chunks)).
Qed.

Lemma channels_agree chunks :
  text_deltas (snd (translate chunks)) = text_deltas (snd (LiteLlm.translate (chunks ≫= lite_chunks)))
  ∧ reasoning_deltas (snd (translate chunks)) = reasoning_deltas (snd (LiteLlm.translate (chunks ≫= lite_chunks)))
  ∧ usage_events (snd (translate chunks)) = usage_events (snd (LiteLlm.translate (chunks ≫= lite_chunks)))
  ∧ last (finish_events (snd (translate chunks))) = map_finish <$> last (reasons chunks).
Proof.
  destruct (translate_linked chunks)
    as (evs & names & names' & Hp & (C1 & C2 & C3 & C4) & _ & -> & -> & _ & He & _).
  assert (finish_events evs = []) as Hf.
  { rewrite <- He. eapply (consume_all_wf (chunks ≫= lite_chunks)), surjective_pairing. }
  unfold text_deltas, reasoning_deltas, usage_events, finish_events in *.
  assert (∀ {B} (h : ModelEvent → option B), omap h names = [] → omap h names' = []) as Hnil.
  { intros B h Hh. apply Permutation_nil. rewrite <- Hh. by rewrite Hp. }
  rewrite !omap_app, C1, C2, C3, C4, Hf, !Hnil by done.
  by destruct (last (reasons chunks)).
Qed.

Lemma stream_loop_data chunks o :
  stream_loop o (OaData <$> chunks)
  = Ok <$> (let '(o1, es) := consume_all o chunks in es ++ snd (finish o1)).
Proof.
  revert o. induction chunks as [|chunk chunks IH]; intros o; [done|]. simpl.
  destruct (consume o chunk) as [o1 e1]. change (list_fmap _ _ OaData chunks) with (OaData <$> chunks).
  rewrite IH. destruct (consume_all o1 chunks) as [o2 e2]. by rewrite <- fmap_app, app_assoc.
Qed.

(** For a backend that gives each index one id, the response of the Chat
    Completions API that is read to its end yields events only, and the turn
    accumulated from them is exactly what was sent: the text deltas
    concatenated, the last usage and finish reason, and for every call its name
    and argument fragments concatenated, however the calls interleave, wherever
    in a call its id comes and however the name is cut, with no call that was
    not sent. *)
Theorem openai_chat_turn_exact indexes id_of chunks agent :
  conforming_chat indexes id_of chunks →
  (∀ i, i ∈ indexes → let frs := oa_fragments i chunks in
     existsb (λ tc, is_some (cc_id tc)) frs = true ∧ names_first "" (lite_call <$> frs) = true
     ∧ concat_all (name_frag <$> frs) ≠ "") →
  ∃ evs, invoke (CreatedStream (OaData <$> chunks)) = Ok <$> evs ∧
  let acc := observe_all agent evs in
  text acc = concat_all (oa_text chunks)
  ∧ latest_usage acc = usage_tokens <$> last (omap oa_usage chunks)
  ∧ ModelTurn.finish_reason acc = default Stop (map_finish <$> last (reasons chunks))
  ∧ (∀ c a, btree_get c (tool_accum acc) = Some a ↔
      ∃ i, i ∈ indexes ∧ c = id_of i ∧
        let frs := oa_fragments i chunks in
        a = mkToolCallAccum (Some (concat_all (name_frag <$> frs))) (concat_all (args_frag <$> frs))).
Proof.
  intros K Hfr. exists (snd (translate chunks)). split.
  { simpl. rewrite stream_loop_data. unfold translate. destruct (consume_all _ chunks) as [o es].
    by destruct (finish o). }
  pose proof (observe_all_spec agent (snd (translate chunks))) as [_ Ht _ _ Hc Hu Hf].
  destruct (translate_calls indexes id_of _ (conforming_lite _ _ _ K)) as [Hcalls Honly].
  destruct (channels_agree chunks) as (A1 & _ & A3 & A4).
  pose proof (translate_channels (chunks ≫= lite_chunks)) as (C1 & _ & C3 & _).
  assert (Hcall : ∀ i, i ∈ indexes → call_spec (call_deltas (id_of i) (snd (translate chunks)))
    = Some (mkToolCallAccum (Some (concat_all (name_frag <$> oa_fragments i chunks)))
        (concat_all (args_frag <$> oa_fragments i chunks)))).
  { intros i Hi. rewrite calls_agree by by apply (cf_ids _ _ _ K). rewrite Hcalls by done.
    rewrite lite_fragments. destruct (Hfr i Hi) as (H1 & H2 & H3).
    assert (∀ frs, existsb (λ tc, is_some (tc_id tc)) (lite_call <$> frs) = existsb (λ tc, is_some (cc_id tc)) frs)
      as Hex by (induction frs as [|fr frs IH]; simpl; [done|by rewrite <- IH]).
    rewrite call_run_total; rewrite <- ?list_fmap_compose; [done| |done|done]. by rewrite Hex. }
  simpl. split_and!.
  - by rewrite Ht, A1, C1, nonblank_concat, lite_wire_text.
  - by rewrite Hu, A3, C3, fmap_last, lite_wire_usage.
  - by rewrite Hf, A4.
  - intros c a. rewrite Hc. split.
    + intros Hs. destruct (Honly c) as (i & Hi & ->).
      { intros Hnone. by rewrite (calls_agree_none _ _ Hnone) in Hs. }
      exists i. split_and!; [done..|]. rewrite Hcall in Hs by done. congruence.
    + intros (i & Hi & -> & ->). by apply Hcall.
Qed.
End Delivery.

Module OpenAiDemo.
#[local] Existing Instance Toy.json.

Definition fn (name args : string) : option FunctionChunk :=
  Some (mkFunctionChunk (if is_empty name then None else Some name)
          (if is_empty args then None else Some args)).

Definition entries (tcs : list CallChunk) : OaChunk :=
  mkOaChunk [mkOaChoice None (Some tcs) None] None.

Definition text (t : string) : OaChunk := mkOaChunk [mkOaChoice (Some t) None None] None.
Definition closing (r : OaFinishReason) : OaChunk := mkOaChunk [mkOaChoice None None (Some r)] None.

(** Two calls interleave, the second one's id comes after its name. *)
Definition stream : list OaChunk :=
  [text "look"; entries [mkCallChunk 0 (Some "call_a") (fn "read_" ""); mkCallChunk 1 None (fn "list" "")];
   entries [mkCallChunk 1 None (fn "" "{x"); mkCallChunk 0 None (fn "file" "{1")];
   entries [mkCallChunk 1 (Some "call_b") (fn "" "}")]; entries [mkCallChunk 0 (Some "call_a") (fn "" "}")];
   closing OaToolCalls; mkOaChunk [] (Some (mkUsage 7 3 None (Some (Some 2%Z))))].

Definition id_of (i : Z) : string := if Z.eqb i 0 then "call_a" else "call_b".

(** One call under two indexes is one call: the second index is an alias of the
    first, and a name buffered under it is merged in the order of creation. *)
Example shared_id :
  snd (translate [entries [mkCallChunk 3 None (fn "sea" "")]; entries [mkCallChunk 5 (Some "c") (fn "rch" "")];
                  entries [mkCallChunk 3 (Some "c") (fn "" "{}")]; closing OaStop])
  = [METoolCallDelta "c" (Some "search") "{}"; MEFinish Stop].
Proof. vm_compute. reflexivity. Qed.

(** Blank ids identify nothing: the calls stay apart, and each gets its name. *)
Example blank_ids :
  snd (translate [entries [mkCallChunk 0 (Some "") (fn "a" ""); mkCallChunk 1 (Some "") (fn "b" "")]])
  = [METoolCallDelta "" (Some "a") ""; METoolCallDelta "" (Some "b") ""].
Proof. vm_compute. reflexivity. Qed.

(** The deprecated reason is the one difference from LiteLLM. *)
Example function_call_reason :
  snd (translate [closing OaFunctionCall]) = [MEFinish (FinishOther "function_call")]
  ∧ snd (LiteLlm.translate ([closing OaFunctionCall] ≫= lite_chunks)) = [MEFinish ToolCalls].
Proof. vm_compute. auto. Qed.

Lemma openai_chat_turn_exact_witness :
  ∃ evs, invoke (CreatedStream (OaData <$> stream)) = Ok <$> evs
  ∧ ModelTurn.text (observe_all "agent" evs) = "look"
  ∧ btree_get "call_b" (tool_accum (observe_all "agent" evs)) = Some (mkToolCallAccum (Some "list") "{x}").
Proof.
  destruct (openai_chat_turn_exact [0; 1]%Z id_of stream "agent") as (evs & E & Ht & _ & _ & Hc).
  - split.
    + repeat constructor; vm_compute; auto; try (by left); by right; left.
    + intros i Hi. unfold id_of. by destruct (Z.eqb i 0).
    + intros i j Hi Hj. repeat (apply elem_of_cons in Hi as [->|Hi]); repeat (apply elem_of_cons in Hj as [->|Hj]);
        try (by apply elem_of_nil in Hi); try (by apply elem_of_nil in Hj); vm_compute; congruence.
  - intros i Hi. repeat (apply elem_of_cons in Hi as [->|Hi]); [| |by apply elem_of_nil in Hi];
      (split; [vm_compute; reflexivity|split; [vm_compute; reflexivity|vm_compute; discriminate]]).
  - exists evs. split; [exact E|]. split; [rewrite Ht; vm_compute; reflexivity|].
    apply Hc. exists 1%Z. split; [right; left|]. split; [reflexivity|]. vm_compute. reflexivity.
Defined.
End OpenAiDemo.
