(* ===== verification/OpenAiResponses.v ===== *)
(** The Responses API backend of the OpenAI provider
    (paigasus-helikon-providers-openai/src/backend/responses.rs): the
    translation of server-sent events into model events and the streaming loop.

    The events of async-openai are an inductive of the ones the code handles,
    each with the fields it reads; [Unhandled] is every other event.  Logging is
    left out, and with it the values of [named_calls], which only a log line
    reads: the map is the set of its keys.

    A function call is an item with an internal id ([item.id]), under which its
    argument deltas arrive, and a [call_id], under which it is reported.  What
    happens to one item is specified by a machine of three states, [item_step];
    [consume_tracks] shows that the translator runs one such machine per item,
    and the theorems read the delivered arguments off the machine. *)

From S2P Require Import Prelude Json Items Redaction ModelTurn LiteLlm LiteLlmTurn OpenAiChat.

(** ** The wire types *)

Inductive OutputStatus : Type := ItemInProgress | ItemCompleted | ItemIncomplete.

#[export] Instance OutputStatus_eq_dec : EqDecision OutputStatus.
Proof. solve_decision. Defined.

Record FunctionToolCall := mkFunctionToolCall {
  fc_id : option string;
  fc_call_id : string;
  fc_tool : string;
  fc_args : string;
  fc_status : option OutputStatus;
}.

(** [OutputItem]; messages, reasoning and hosted tools are not looked into. *)
Inductive OutputItem : Type :=
| FunctionCallItem (fc : FunctionToolCall)
| OtherItem.

Inductive Status : Type := Completed | Failed | Incomplete | Cancelled | Queued | InProgress.

Record ResponseUsage := mkResponseUsage {
  ru_input_tokens : Z;
  ru_output_tokens : Z;
  ru_cached_tokens : Z;
  ru_reasoning_tokens : Z;
}.

(** [incomplete_details.reason] and [error.message] are flattened. *)
Record Response := mkResponse {
  r_output : list OutputItem;
  r_usage : option ResponseUsage;
  r_status : Status;
  r_incomplete_reason : option string;
  r_error : option string;
}.

Inductive ResponseStreamEvent : Type :=
| OutputTextDelta (delta : string)
| RefusalDelta (delta : string)
| ReasoningSummaryTextDelta (delta : string)
| ReasoningTextDelta (delta : string)
| OutputItemAdded (item : OutputItem)
| OutputItemDone (item : OutputItem)
| FunctionCallArgumentsDelta (item_id delta : string)
| ResponseCompleted (response : Response)
| ResponseIncomplete (response : Response)
| ResponseFailed (response : Response)
| ResponseError (message : string)
| Unhandled.

(** ** The translator *)

Record ResponsesTranslator := mkResponsesTranslator {
  emitted_items : gset string;
  named_calls : gset string;
  item_to_call : gmap string (string * string);
  pending_args : gmap string string;
}.

Definition ResponsesTranslator_new : ResponsesTranslator := mkResponsesTranslator ∅ ∅ ∅ ∅.

Definition claim_name (call_id name : string) (t : ResponsesTranslator)
  : ResponsesTranslator * option string :=
  if is_empty call_id then (t, Some name)
  else if bool_decide (call_id ∈ named_calls t) then (t, None)
  else (mkResponsesTranslator (emitted_items t) ({[call_id]} ∪ named_calls t) (item_to_call t)
          (pending_args t), Some name).

(** [item_to_call.entry(item_id).or_insert_with(..)]. *)
Definition register_item (item_id : string) (fc : FunctionToolCall) (t : ResponsesTranslator)
  : ResponsesTranslator :=
  match item_to_call t !! item_id with
  | Some _ => t
  | None => mkResponsesTranslator (emitted_items t) (named_calls t)
              (<[item_id := (fc_call_id fc, fc_tool fc)]> (item_to_call t)) (pending_args t)
  end.

Definition mark_emitted (item_id : string) (t : ResponsesTranslator) : ResponsesTranslator :=
  mkResponsesTranslator ({[item_id]} ∪ emitted_items t) (named_calls t) (item_to_call t)
    (pending_args t).

Definition set_pending_args (m : gmap string string) (t : ResponsesTranslator) : ResponsesTranslator :=
  mkResponsesTranslator (emitted_items t) (named_calls t) (item_to_call t) m.

(** [matches!(fc.status, None | Some(OutputStatus::Completed))]. *)
Definition is_complete (fc : FunctionToolCall) : bool :=
  match fc_status fc with None | Some ItemCompleted => true | _ => false end.

Definition emit_call_if_unseen (t : ResponsesTranslator) (item : OutputItem)
  : ResponsesTranslator * list ModelEvent :=
  match item with
  | OtherItem => (t, [])
  | FunctionCallItem fc =>
      match fc_id fc with
      | None => (t, [])
      | Some item_id =>
          if negb (is_complete fc) then (t, [])
          else
            let t1 := register_item item_id fc t in
            if bool_decide (item_id ∈ emitted_items t1) then (t1, [])
            else
              let buffered := default "" (pending_args t1 !! item_id) in
              let t2 := set_pending_args (delete item_id (pending_args t1)) t1 in
              let args_delta := if is_empty (fc_args fc) && negb (is_empty buffered)
                                then buffered else fc_args fc in
              let '(t3, name) := claim_name (fc_call_id fc) (fc_tool fc) t2 in
              (mark_emitted item_id t3, [METoolCallDelta (fc_call_id fc) name args_delta])
      end
  end.

(** The sweep over [response.output]. *)
Fixpoint sweep_output (t : ResponsesTranslator) (items : list OutputItem)
  : ResponsesTranslator * list ModelEvent :=
  match items with
  | [] => (t, [])
  | item :: items' =>
      let '(t1, evs) := emit_call_if_unseen t item in
      let '(t2, evs') := sweep_output t1 items' in
      (t2, evs ++ evs')
  end.

(** [response.output_item.added]. *)
Definition item_added (t : ResponsesTranslator) (item : OutputItem)
  : ResponsesTranslator * list ModelEvent :=
  match item with
  | OtherItem => (t, [])
  | FunctionCallItem fc =>
      match fc_id fc with
      | None => (t, [])
      | Some item_id =>
          let t1 := register_item item_id fc t in
          match pending_args t1 !! item_id with
          | None => (t1, [])
          | Some buffered =>
              let t2 := set_pending_args (delete item_id (pending_args t1)) t1 in
              if is_empty buffered then (t2, [])
              else
                let '(t3, name) := claim_name (fc_call_id fc) (fc_tool fc) t2 in
                (mark_emitted item_id t3, [METoolCallDelta (fc_call_id fc) name buffered])
          end
      end
  end.

(** [response.function_call_arguments.delta]. *)
Definition arguments_delta (t : ResponsesTranslator) (item_id delta : string)
  : ResponsesTranslator * list ModelEvent :=
  match item_to_call t !! item_id with
  | Some (call_id, fn_name) =>
      let first := negb (bool_decide (item_id ∈ emitted_items t)) in
      let t1 := mark_emitted item_id t in
      let '(t2, name) := if first then claim_name call_id fn_name t1 else (t1, None) in
      (t2, [METoolCallDelta call_id name delta])
  | None =>
      if is_empty delta then (t, [])
      else (set_pending_args
              (<[item_id := default "" (pending_args t !! item_id) +:+ delta]> (pending_args t)) t, [])
  end.

Definition terminal_usage (usage : option ResponseUsage) : list ModelEvent :=
  match usage with
  | Some u => [MEUsage (ru_input_tokens u) (ru_output_tokens u) (Some (ru_cached_tokens u))
                 (Some (ru_reasoning_tokens u))]
  | None => []
  end.

Definition terminal_reason (status : Status) (incomplete_reason : option string)
    (has_tool_calls : bool) : FinishReason :=
  match incomplete_reason with
  | Some r =>
      if String.eqb r "max_output_tokens" then Length
      else if String.eqb r "content_filter" then ContentFilter
      else FinishOther r
  | None =>
      match status with
      | Completed => if has_tool_calls then ToolCalls else Stop
      | Failed => FinishOther "failed"
      | Incomplete => Length
      | Cancelled => FinishOther "cancelled"
      | Queued => FinishOther "queued"
      | InProgress => FinishOther "in_progress"
      end
  end.

Definition terminal_events (usage : option ResponseUsage) (status : Status)
    (incomplete_reason : option string) (has_tool_calls : bool) : list ModelEvent :=
  terminal_usage usage ++ [MEFinish (terminal_reason status incomplete_reason has_tool_calls)].

Definition consume (t : ResponsesTranslator) (event : ResponseStreamEvent)
  : result (ResponsesTranslator * list ModelEvent) ModelError :=
  match event with
  | OutputTextDelta d | RefusalDelta d =>
      Ok (t, if is_empty d then [] else [METokenDelta d])
  | ReasoningSummaryTextDelta d | ReasoningTextDelta d =>
      Ok (t, if is_empty d then [] else [MEReasoningDelta d])
  | OutputItemAdded item => Ok (item_added t item)
  | OutputItemDone item => Ok (emit_call_if_unseen t item)
  | FunctionCallArgumentsDelta item_id d => Ok (arguments_delta t item_id d)
  | ResponseCompleted r =>
      let '(t1, out) := sweep_output t (r_output r) in
      Ok (t1, out ++ terminal_events (r_usage r) (r_status r) None
                       (negb (bool_decide (emitted_items t1 = ∅))))
  | ResponseIncomplete r =>
      Ok (t, terminal_events (r_usage r) (r_status r) (r_incomplete_reason r)
               (negb (bool_decide (item_to_call t = ∅))))
  | ResponseFailed r =>
      Err (ModelOther (default "response.failed with no error details" (r_error r)))
  | ResponseError message => Err (ModelOther message)
  | Unhandled => Ok (t, [])
  end.

(** ** The streaming loop *)

(** One turn of the loop's biased [select!]; the end of the list is the end of
    the upstream. *)
Inductive RPolled : Type :=
| RCancelled
| RErr (e : OpenAIError)
| REvent (event : ResponseStreamEvent).

(** The loop reads on after a terminal event; only the upstream ends it. *)
Fixpoint stream_loop (t : ResponsesTranslator) (polls : list RPolled)
  : list (result ModelEvent ModelError) :=
  match polls with
  | [] | RCancelled :: _ => []
  | RErr e :: _ => [Err (map_openai_error e)]
  | REvent event :: polls' =>
      match consume t event with
      | Ok (t1, evs) => (Ok <$> evs) ++ stream_loop t1 polls'
      | Err e => [Err e]
      end
  end.

Inductive RCreated : Type :=
| RCreateCancelled
| RCreateFailed (e : OpenAIError)
| RCreatedStream (polls : list RPolled).

Definition invoke (created : RCreated) : list (result ModelEvent ModelError) :=
  match created with
  | RCreateCancelled => []
  | RCreateFailed e => [Err (map_openai_error e)]
  | RCreatedStream polls => stream_loop ResponsesTranslator_new polls
  end.

(** ** The protocol, for any sequence of events *)

(** What a step on one item does to the sets the guarantees rest on. *)
Inductive op_effect (t t' : ResponsesTranslator) : list ModelEvent → Prop :=
| op_silent :
    emitted_items t' = emitted_items t → named_calls t' = named_calls t → op_effect t t' []
| op_delta item_id call_id name args_delta :
    emitted_items t' = {[item_id]} ∪ emitted_items t →
    match name with
    | None => named_calls t' = named_calls t
    | Some _ => (call_id = "" ∧ named_calls t' = named_calls t)
                ∨ ((call_id ∉ named_calls t) ∧ named_calls t' = ({[call_id]} ∪ named_calls t))
    end →
    op_effect t t' [METoolCallDelta call_id name args_delta].

Lemma register_same i fc t :
  emitted_items (register_item i fc t) = emitted_items t ∧ named_calls (register_item i fc t) = named_calls t
  ∧ pending_args (register_item i fc t) = pending_args t.
Proof. unfold register_item. by destruct (item_to_call t !! i). Qed.

Lemma claim_effect t c n t' name :
  claim_name c n t = (t', name) →
  emitted_items t' = emitted_items t ∧ item_to_call t' = item_to_call t ∧ pending_args t' = pending_args t
  ∧ match name with
    | None => named_calls t' = named_calls t ∧ c ∈ named_calls t ∧ c ≠ ""
    | Some n' => n' = n ∧ ((c = "" ∧ named_calls t' = named_calls t)
                 ∨ (c ≠ "" ∧ (c ∉ named_calls t) ∧ named_calls t' = ({[c]} ∪ named_calls t)))
    end.
Proof.
  unfold claim_name. destruct (is_empty c) eqn:E.
  - apply is_empty_true in E as ->. intros [= <- <-]. split_and!; auto.
  - apply is_empty_false in E. case_bool_decide; intros [= <- <-]; split_and!; auto.
Qed.

Lemma emit_effect t item : op_effect t (emit_call_if_unseen t item).1 (emit_call_if_unseen t item).2.
Proof.
  destruct item as [fc|]; simpl; [|by constructor]. destruct (fc_id fc) as [i|]; [|by constructor].
  destruct (is_complete fc); simpl; [|by constructor]. destruct (register_same i fc t) as (He & Hn & Hp).
  case_bool_decide; [by constructor|]. destruct (claim_name _ _ _) as [t3 name] eqn:Ec.
  apply claim_effect in Ec as (E1 & _ & _ & E4). simpl in *. econstructor; simpl.
  - by rewrite E1, He.
  - rewrite <- Hn. destruct name; naive_solver.
Qed.

Lemma added_effect t item : op_effect t (item_added t item).1 (item_added t item).2.
Proof.
  destruct item as [fc|]; simpl; [|by constructor]. destruct (fc_id fc) as [i|]; [|by constructor].
  destruct (register_same i fc t) as (He & Hn & Hp).
  destruct (pending_args _ !! i) as [b|]; [|by constructor]. destruct (is_empty b); [by constructor|].
  destruct (claim_name _ _ _) as [t3 name] eqn:Ec.
  apply claim_effect in Ec as (E1 & _ & _ & E4). simpl in *. econstructor; simpl.
  - by rewrite E1, He.
  - rewrite <- Hn. destruct name; naive_solver.
Qed.

Lemma delta_effect t i d : op_effect t (arguments_delta t i d).1 (arguments_delta t i d).2.
Proof.
  unfold arguments_delta. destruct (item_to_call t !! i) as [[c n]|].
  - destruct (bool_decide (i ∈ emitted_items t)); simpl; [by econstructor|].
    destruct (claim_name _ _ _) as [t3 name] eqn:Ec. apply claim_effect in Ec as (E1 & _ & _ & E4).
    econstructor; simpl; [by rewrite E1|]. destruct name; naive_solver.
  - destruct (is_empty d); by constructor.
Qed.

Definition is_call (ev : ModelEvent) : bool :=
  match ev with METoolCallDelta _ _ _ => true | _ => false end.

(** The invariant of the translator and of what it has emitted. *)
Record accounted (t : ResponsesTranslator) (out : list ModelEvent) : Prop := {
  a_emitted : negb (bool_decide (emitted_items t = ∅)) = existsb is_call out;
  a_named : ∀ c, c ≠ "" → length (names_of c out) = if bool_decide (c ∈ named_calls t) then 1%nat else 0%nat;
}.

Lemma accounted_quiet t out evs :
  Forall (λ ev, is_call ev = false) evs → accounted t out → accounted t (out ++ evs).
Proof.
  intros Hq [He Hn]. split.
  - rewrite He, existsb_app. apply existsb_Forall in Hq as ->. by rewrite orb_false_r.
  - intros c Hc. rewrite names_of_app, length_app, Hn by done.
    replace (names_of c evs) with (@nil string); [simpl; lia|]. clear -Hq.
    induction Hq as [|[] evs H _ IH]; try done.
Qed.

Lemma accounted_op t t' out evs : op_effect t t' evs → accounted t out → accounted t' (out ++ evs).
Proof.
  intros H [He Hn]. destruct H as [E1 E2|i c name d E1 E2].
  - rewrite app_nil_r. split; [by rewrite E1|]. intros c Hc. rewrite E2. auto.
  - split.
    + rewrite E1, existsb_app. simpl. rewrite orb_true_r. rewrite bool_decide_false; [done|set_solver].
    + intros k Hk. rewrite names_of_app, length_app, Hn by done. unfold names_of. simpl.
      destruct (String.eqb_spec k c) as [->|Hne]; simpl.
      * destruct name as [n|]; [|by rewrite E2, Nat.add_0_r].
        destruct E2 as [[-> _]|[Hc ->]]; [done|]. rewrite bool_decide_false by done.
        by rewrite bool_decide_true by set_solver.
      * rewrite Nat.add_0_r. destruct name as [n|]; [|by rewrite E2].
        destruct E2 as [[-> ->]|[Hc ->]]; [done|]. erewrite (bool_decide_ext (k ∈ {[c]} ∪ _)); [done|].
        rewrite elem_of_union, elem_of_singleton. naive_solver.
Qed.

Lemma op_only_calls t t' evs : op_effect t t' evs → only_calls evs.
Proof. by intros []. Qed.

Lemma sweep_effect items t out :
  accounted t out → accounted (sweep_output t items).1 (out ++ (sweep_output t items).2) ∧ only_calls (sweep_output t items).2.
Proof.
  revert t out. induction items as [|item items IH]; intros t out A; simpl.
  - by rewrite app_nil_r.
  - pose proof (emit_effect t item) as H. destruct (emit_call_if_unseen t item) as [t1 evs].
    destruct (IH t1 (out ++ evs)) as [IH1 IH2]; [by eapply accounted_op|].
    destruct (sweep_output t1 items) as [t2 evs']. simpl in *. rewrite app_assoc. split; [done|].
    by eapply only_calls_app; [eapply op_only_calls|].
Qed.

(** Consuming several events. *)
Fixpoint consume_all (t : ResponsesTranslator) (events : list ResponseStreamEvent)
  : result (ResponsesTranslator * list ModelEvent) ModelError :=
  match events with
  | [] => Ok (t, [])
  | event :: events' =>
      match consume t event with
      | Ok (t1, evs) =>
          match consume_all t1 events' with
          | Ok (t2, evs') => Ok (t2, evs ++ evs')
          | Err e => Err e
          end
      | Err e => Err e
      end
  end.

Definition is_terminal (event : ResponseStreamEvent) : bool :=
  match event with ResponseCompleted _ | ResponseIncomplete _ => true | _ => false end.
Definition is_failure (event : ResponseStreamEvent) : bool :=
  match event with ResponseFailed _ | ResponseError _ => true | _ => false end.

(** Before the terminal event there is neither usage nor a finish. *)
Definition open_events (evs : list ModelEvent) : Prop :=
  usage_events evs = [] ∧ finish_events evs = [].

Lemma open_events_app e1 e2 : open_events e1 → open_events e2 → open_events (e1 ++ e2).
Proof. unfold open_events, usage_events, finish_events. rewrite !omap_app. by intros [-> ->] [-> ->]. Qed.

Lemma consume_open t event out :
  is_terminal event = false → is_failure event = false → accounted t out →
  ∃ t' evs, consume t event = Ok (t', evs) ∧ accounted t' (out ++ evs) ∧ open_events evs.
Proof.
  intros Ht Hf A. destruct event; try done; simpl;
    try (eexists _, _; split; [done|]; split; [apply accounted_quiet; [|done]|];
         by try destruct (is_empty _); repeat constructor).
  - destruct (item_added t item) as [t' evs] eqn:E. pose proof (added_effect t item) as H. rewrite E in H.
    exists t', evs. split_and!; [done|by eapply accounted_op|]. apply op_only_calls in H. by destruct H as (_ & _ & ? & ?).
  - destruct (emit_call_if_unseen t item) as [t' evs] eqn:E. pose proof (emit_effect t item) as H. rewrite E in H.
    exists t', evs. split_and!; [done|by eapply accounted_op|]. apply op_only_calls in H. by destruct H as (_ & _ & ? & ?).
  - destruct (arguments_delta t item_id delta) as [t' evs] eqn:E.
    pose proof (delta_effect t item_id delta) as H. rewrite E in H.
    exists t', evs. split_and!; [done|by eapply accounted_op|]. apply op_only_calls in H. by destruct H as (_ & _ & ? & ?).
Qed.

Lemma consume_all_open events t out :
  Forall (λ ev, is_terminal ev = false ∧ is_failure ev = false) events → accounted t out →
  ∃ t' evs, consume_all t events = Ok (t', evs) ∧ accounted t' (out ++ evs) ∧ open_events evs.
Proof.
  intros H. revert t out. induction H as [|event events [Ht Hf] _ IH]; intros t out A; simpl.
  - exists t, []. by rewrite app_nil_r.
  - destruct (consume_open t event out Ht Hf A) as (t1 & e1 & -> & A1 & O1).
    destruct (IH t1 (out ++ e1) A1) as (t2 & e2 & -> & A2 & O2).
    exists t2, (e1 ++ e2). rewrite app_assoc. split_and!; [done..|]. by apply open_events_app.
Qed.

Lemma accounted_new : accounted ResponsesTranslator_new [].
Proof. split; [done|]. intros c _. simpl. by rewrite bool_decide_false by set_solver. Qed.

(** The loop delivers what is consumed, and goes on with the rest. *)
Lemma stream_loop_app events t t' evs polls :
  consume_all t events = Ok (t', evs) →
  stream_loop t ((REvent <$> events) ++ polls) = (Ok <$> evs) ++ stream_loop t' polls.
Proof.
  revert t evs. induction events as [|event events IH]; intros t evs; simpl; [by intros [= -> <-]|].
  destruct (consume t event) as [[t1 e1]|]; [|done].
  destruct (consume_all t1 events) as [[t2 e2]|] eqn:E; [|done]. intros [= <- <-].
  change (list_fmap _ _ REvent events) with (REvent <$> events).
  by rewrite (IH t1 e2 E), fmap_app, app_assoc.
Qed.

(** What follows the events before the terminal one. *)
Inductive Ending : Type :=
| EndCompleted (r : Response)
| EndIncomplete (r : Response)
| EndFailed (r : Response)
| EndError (message : string)
| EndTransport (e : OpenAIError)
| EndCancelled
| EndDropped.

Definition ending_polls (e : Ending) : list RPolled :=
  match e with
  | EndCompleted r => [REvent (ResponseCompleted r)]
  | EndIncomplete r => [REvent (ResponseIncomplete r)]
  | EndFailed r => [REvent (ResponseFailed r)]
  | EndError m => [REvent (ResponseError m)]
  | EndTransport e => [RErr e]
  | EndCancelled => [RCancelled]
  | EndDropped => []
  end.

(** The end of the stream; [any_call] is the [has_tool_calls] of the terminal event. *)
Definition ending_results (e : Ending) (any_call : bool) : list (result ModelEvent ModelError) :=
  match e with
  | EndCompleted r => Ok <$> terminal_events (r_usage r) (r_status r) None any_call
  | EndIncomplete r =>
      Ok <$> terminal_events (r_usage r) (r_status r) (r_incomplete_reason r) any_call
  | EndFailed r => [Err (ModelOther (default "response.failed with no error details" (r_error r)))]
  | EndError m => [Err (ModelOther m)]
  | EndTransport e => [Err (map_openai_error e)]
  | EndCancelled | EndDropped => []
  end.

(** Whatever items, ids and deltas the Responses API sends before its terminal
    event, in whatever order, each [call_id] that is one is named at most once,
    and neither [Usage] nor [Finish] is emitted.  The terminal event closes the
    stream with the calls it still has to report, its usage and one [Finish];
    a completed response finishes with [ToolCalls] exactly when some call was
    reported and with [Stop] otherwise.  Every failure is one error at the end,
    and an upstream that is cancelled or merely stops adds nothing. *)
Theorem responses_protocol events ending :
  Forall (λ ev, is_terminal ev = false ∧ is_failure ev = false) events →
  ∃ body any_call,
    invoke (RCreatedStream ((REvent <$> events) ++ ending_polls ending))
    = (Ok <$> body) ++ ending_results ending any_call
    ∧ open_events body
    ∧ (∀ c, c ≠ "" → (length (names_of c body) ≤ 1)%nat)
    ∧ (∀ r, ending = EndCompleted r → any_call = existsb is_call body).
Proof.
  intros H. destruct (consume_all_open events _ [] H accounted_new) as (t & out & E & A & O).
  simpl. rewrite (stream_loop_app _ _ _ _ _ E). simpl in A.
  assert (Hn : ∀ t out, accounted t out → ∀ c, c ≠ "" → (length (names_of c out) ≤ 1)%nat).
  { intros ?? B c Hc. rewrite (a_named _ _ B c Hc). case_bool_decide; lia. }
  destruct ending as [r|r|r|m|e| |]; simpl.
  - destruct (sweep_effect (r_output r) t out A) as [A1 C].
    destruct (sweep_output t (r_output r)) as [t1 calls]. simpl in *.
    exists (out ++ calls), (negb (bool_decide (emitted_items t1 = ∅))). split_and!.
    + by rewrite app_nil_r, !fmap_app, app_assoc.
    + apply open_events_app; [done|]. by destruct C as (_ & _ & ? & ?).
    + by eapply Hn.
    + intros _ _. apply (a_emitted _ _ A1).
  - exists out, (negb (bool_decide (item_to_call t = ∅))). split_and!; try by eauto. by rewrite app_nil_r.
  - exists out, false. split_and!; by eauto.
  - exists out, false. split_and!; by eauto.
  - exists out, false. split_and!; by eauto.
  - exists out, false. split_and!; by eauto.
  - exists out, false. split_and!; by eauto.
Qed.

(** ** One item *)

(** Nothing but buffered deltas is known, the item is registered, or its
    arguments have been reported. *)
Inductive ItemState : Type :=
| Unseen (buffer : string)
| Known
| Reported.

(** What the stream can do to an item; [TDone] carries the arguments of a
    complete description, from [output_item.done] or the final sweep. *)
Inductive Touch : Type :=
| TAdded
| TDelta (d : string)
| TDone (args : string).

(** The specification of an item named [name]: the next state and the delta
    reported under its call id. *)
Definition item_step (name : string) (s : ItemState) (touch : Touch)
  : ItemState * list (option string * string) :=
  match s, touch with
  | Unseen b, TAdded => if is_empty b then (Known, []) else (Reported, [(Some name, b)])
  | Unseen b, TDelta d => (Unseen (b +:+ d), [])
  | Unseen b, TDone a =>
      (Reported, [(Some name, if is_empty a && negb (is_empty b) then b else a)])
  | Known, TAdded => (Known, [])
  | Known, TDelta d => (Reported, [(Some name, d)])
  | Known, TDone a => (Reported, [(Some name, a)])
  | Reported, TDelta d => (Reported, [(None, d)])
  | Reported, (TAdded | TDone _) => (Reported, [])
  end.

Fixpoint item_run (name : string) (s : ItemState) (touches : list Touch)
  : ItemState * list (option string * string) :=
  match touches with
  | [] => (s, [])
  | touch :: touches' =>
      let '(s1, ds) := item_step name s touch in
      let '(s2, ds') := item_run name s1 touches' in
      (s2, ds ++ ds')
  end.

Lemma item_run_app name s l1 l2 :
  item_run name s (l1 ++ l2)
  = (let '(s1, d1) := item_run name s l1 in let '(s2, d2) := item_run name s1 l2 in (s2, d1 ++ d2)).
Proof.
  revert s. induction l1 as [|x l1 IH]; intros s; simpl; [by destruct (item_run name s l2)|].
  destruct (item_step name s x) as [s1 d1]. rewrite IH.
  destruct (item_run name s1 l1) as [s2 d2]. destruct (item_run name s2 l2). by rewrite app_assoc.
Qed.

(** The touches in the events, each with its item. *)
Definition done_touches (item : OutputItem) : list (string * Touch) :=
  match item with
  | FunctionCallItem fc =>
      match fc_id fc with
      | Some i => if is_complete fc then [(i, TDone (fc_args fc))] else []
      | None => []
      end
  | OtherItem => []
  end.

Definition event_touches (event : ResponseStreamEvent) : list (string * Touch) :=
  match event with
  | OutputItemAdded (FunctionCallItem fc) => (λ i, (i, TAdded)) <$> option_list (fc_id fc)
  | OutputItemDone item => done_touches item
  | FunctionCallArgumentsDelta i d => [(i, TDelta d)]
  | ResponseCompleted r => r_output r ≫= done_touches
  | _ => []
  end.

Definition touches_of (i : string) (l : list (string * Touch)) : list Touch :=
  omap (λ p, if String.eqb p.1 i then Some p.2 else None) l.

Lemma touches_of_app i l1 l2 : touches_of i (l1 ++ l2) = touches_of i l1 ++ touches_of i l2.
Proof. apply omap_app. Qed.

(** The function calls an event describes. *)
Definition item_calls (item : OutputItem) : list FunctionToolCall :=
  match item with FunctionCallItem fc => [fc] | OtherItem => [] end.

Definition event_calls (event : ResponseStreamEvent) : list FunctionToolCall :=
  match event with
  | OutputItemAdded item | OutputItemDone item => item_calls item
  | ResponseCompleted r => r_output r ≫= item_calls
  | _ => []
  end.

Section Tracks.
(** The items of a response, with the call id and the name of each. *)
Variables (items : list string) (call_id_of name_of : string → string).
Hypothesis call_ids : ∀ i, i ∈ items → call_id_of i ≠ "".
Hypothesis distinct : ∀ i j, i ∈ items → j ∈ items → call_id_of i = call_id_of j → i = j.

(** A description that says what is known of its item. *)
Definition describes (fc : FunctionToolCall) : Prop :=
  match fc_id fc with
  | Some i => i ∈ items ∧ fc_call_id fc = call_id_of i ∧ fc_tool fc = name_of i
  | None => True
  end.

Record tracks (t : ResponsesTranslator) : Prop := {
  t_emitted : ∀ i, i ∈ emitted_items t → is_Some (item_to_call t !! i);
  t_pending : ∀ i b, pending_args t !! i = Some b → item_to_call t !! i = None ∧ b ≠ "";
  t_calls : ∀ i c, item_to_call t !! i = Some c → i ∈ items ∧ c = (call_id_of i, name_of i);
  t_named : ∀ c, c ∈ named_calls t → ∃ i, i ∈ emitted_items t ∧ c = call_id_of i;
}.

Definition item_state (t : ResponsesTranslator) (i : string) : ItemState :=
  if bool_decide (i ∈ emitted_items t) then Reported
  else match item_to_call t !! i with
       | Some _ => Known
       | None => Unseen (default "" (pending_args t !! i))
       end.

(** A step on item [i] is a step of its machine and of no other. *)
Record stepped (t t' : ResponsesTranslator) (i : string) (touch : Touch) (evs : list ModelEvent)
  : Prop := {
  st_tracks : tracks t';
  st_item : item_state t' i = (item_step (name_of i) (item_state t i) touch).1;
  st_events : evs = (λ d, METoolCallDelta (call_id_of i) d.1 d.2)
                      <$> (item_step (name_of i) (item_state t i) touch).2;
  st_others : ∀ j, j ≠ i → item_state t' j = item_state t j;
}.

Lemma register_tracks t i fc :
  tracks t → fc_id fc = Some i → describes fc →
  item_to_call (register_item i fc t) !! i = Some (call_id_of i, name_of i)
  ∧ (∀ j, j ≠ i → item_to_call (register_item i fc t) !! j = item_to_call t !! j).
Proof.
  intros T Hi Hd. unfold describes in Hd. rewrite Hi in Hd. destruct Hd as (Hin & Hc & Hn).
  unfold register_item. destruct (item_to_call t !! i) as [c|] eqn:E.
  - destruct (t_calls _ T i c E) as [_ ->]. done.
  - simpl. rewrite lookup_insert_eq, Hc, Hn. split; [done|].
    intros j Hj. by rewrite lookup_insert_ne.
Qed.

(** A call that has not been reported has not been named. *)
Lemma claim_fresh t i :
  tracks t → i ∈ items → i ∉ emitted_items t →
  is_empty (call_id_of i) = false ∧ bool_decide (call_id_of i ∈ named_calls t) = false.
Proof.
  intros T Hi He. split; [by apply is_empty_false, call_ids|].
  apply bool_decide_false. intros Hc.
  destruct (t_named _ T _ Hc) as (j & Hj & Hcj). destruct (t_emitted _ T j Hj) as [c Hjc].
  destruct (t_calls _ T j c Hjc) as [Hjin _]. by rewrite (distinct i j Hi Hjin Hcj) in He.
Qed.

(** [t] after its item [i] is registered and reported. *)
Definition report (t : ResponsesTranslator) (i : string) : ResponsesTranslator :=
  mkResponsesTranslator ({[i]} ∪ emitted_items t) ({[call_id_of i]} ∪ named_calls t)
    (<[i := (call_id_of i, name_of i)]> (item_to_call t)) (delete i (pending_args t)).

Lemma report_tracks t i :
  tracks t → i ∈ items →
  tracks (report t i) ∧ item_state (report t i) i = Reported
  ∧ (∀ j, j ≠ i → item_state (report t i) j = item_state t j).
Proof.
  intros [T1 T2 T3 T4] Hi. split_and!.
  - split; simpl.
    + intros j Hj. destruct (decide (j = i)) as [->|Hne]; [by rewrite lookup_insert_eq|].
      rewrite lookup_insert_ne by done. apply T1. set_solver.
    + intros j b. rewrite lookup_delete_Some. intros [Hne Hb]. rewrite lookup_insert_ne by done. by apply T2.
    + intros j c. destruct (decide (j = i)) as [->|Hne].
      * rewrite lookup_insert_eq. by intros [= <-].
      * rewrite lookup_insert_ne by done. apply T3.
    + intros c. rewrite elem_of_union, elem_of_singleton. intros [->|Hc].
      * exists i. split; [set_solver|done].
      * destruct (T4 c Hc) as (j & Hj & ->). exists j. split; [set_solver|done].
  - unfold item_state, report. simpl. by rewrite bool_decide_true by set_solver.
  - intros j Hne. unfold item_state, report. simpl.
    rewrite lookup_insert_ne, lookup_delete_ne by done.
    erewrite (bool_decide_ext (j ∈ {[i]} ∪ _)); [done|]. rewrite elem_of_union, elem_of_singleton. naive_solver.
Qed.

Lemma pending_known t i :
  tracks t → is_Some (item_to_call t !! i) → pending_args t !! i = None.
Proof.
  intros T [c Hc]. destruct (pending_args t !! i) as [b|] eqn:E; [|done].
  destruct (t_pending _ T i b E). congruence.
Qed.

(** Registering writes the call of the item, whether or not it was known. *)
Lemma register_insert t i fc :
  tracks t → fc_id fc = Some i → describes fc →
  register_item i fc t = mkResponsesTranslator (emitted_items t) (named_calls t)
                      (<[i := (call_id_of i, name_of i)]> (item_to_call t)) (pending_args t).
Proof.
  intros T Hi Hd. unfold describes in Hd. rewrite Hi in Hd. destruct Hd as (Hin & Hc & Hn).
  unfold register_item. destruct (item_to_call t !! i) as [c|] eqn:E.
  - destruct (t_calls _ T i c E) as [_ ->]. rewrite insert_id by done. by destruct t.
  - by rewrite Hc, Hn.
Qed.

Lemma register_known t i :
  tracks t → i ∈ items → pending_args t !! i = None →
  let t' := mkResponsesTranslator (emitted_items t) (named_calls t)
              (<[i := (call_id_of i, name_of i)]> (item_to_call t)) (pending_args t) in
  tracks t' ∧ item_state t' i = (if bool_decide (i ∈ emitted_items t) then Reported else Known)
  ∧ (∀ j, j ≠ i → item_state t' j = item_state t j).
Proof.
  intros [T1 T2 T3 T4] Hi Hp t'. split_and!.
  - split; simpl; try done.
    + intros j Hj. destruct (decide (j = i)) as [->|Hne]; [by rewrite lookup_insert_eq|].
      rewrite lookup_insert_ne by done. by apply T1.
    + intros j b Hb. rewrite lookup_insert_ne by congruence. by apply T2.
    + intros j c. destruct (decide (j = i)) as [->|Hne].
      * rewrite lookup_insert_eq. by intros [= <-].
      * rewrite lookup_insert_ne by done. apply T3.
  - unfold item_state. simpl. by rewrite lookup_insert_eq.
  - intros j Hne. unfold item_state. simpl. by rewrite lookup_insert_ne.
Qed.

Lemma emit_stepped t fc i :
  tracks t → fc_id fc = Some i → describes fc → is_complete fc = true →
  let '(t', evs) := emit_call_if_unseen t (FunctionCallItem fc) in stepped t t' i (TDone (fc_args fc)) evs.
Proof.
  intros T Hi Hd Hok. simpl. rewrite Hi, Hok. simpl. rewrite (register_insert t i fc T Hi Hd). simpl.
  unfold describes in Hd. rewrite Hi in Hd. destruct Hd as (Hin & Hc & Hn).
  destruct (bool_decide (i ∈ emitted_items t)) eqn:He.
  - apply bool_decide_eq_true in He. pose proof (t_emitted _ T i He) as Hs.
    destruct (register_known t i T Hin) as (R1 & R2 & R3); [by apply pending_known|].
    rewrite bool_decide_true in R2 by done.
    assert (item_state t i = Reported) as Es by (unfold item_state; by rewrite bool_decide_true).
    split; [done| |by rewrite Es|done]. by rewrite R2, Es.
  - apply bool_decide_eq_false in He. destruct (report_tracks t i T Hin) as (R1 & R2 & R3).
    rewrite Hc, Hn. unfold claim_name. simpl. destruct (claim_fresh t i T Hin He) as [-> ->].
    split; [exact R1| | |exact R3].
    + etrans; [exact R2|]. unfold item_state.
      rewrite bool_decide_false by done. by destruct (item_to_call t !! i).
    + unfold item_state. rewrite bool_decide_false by done.
      destruct (item_to_call t !! i) eqn:Ek; simpl; [|done].
      rewrite pending_known by done. simpl. by rewrite andb_false_r.
Qed.

Lemma added_stepped t fc i :
  tracks t → fc_id fc = Some i → describes fc →
  let '(t', evs) := item_added t (FunctionCallItem fc) in stepped t t' i TAdded evs.
Proof.
  intros T Hi Hd. simpl. rewrite Hi. simpl. rewrite (register_insert t i fc T Hi Hd). simpl.
  unfold describes in Hd. rewrite Hi in Hd. destruct Hd as (Hin & Hc & Hn).
  destruct (pending_args t !! i) as [b|] eqn:Hp.
  - destruct (t_pending _ T i b Hp) as [Hk Hb].
    assert (He : i ∉ emitted_items t) by (intros He; destruct (t_emitted _ T i He); congruence).
    assert (item_state t i = Unseen b) as Es.
    { unfold item_state. rewrite bool_decide_false by done. by rewrite Hk, Hp. }
    apply is_empty_false in Hb. rewrite Hb. destruct (report_tracks t i T Hin) as (R1 & R2 & R3).
    rewrite Hc, Hn. unfold claim_name. simpl. destruct (claim_fresh t i T Hin He) as [-> ->].
    split; [exact R1| | |exact R3]; rewrite Es; simpl; rewrite Hb; [exact R2|done].
  - destruct (register_known t i T Hin Hp) as (R1 & R2 & R3).
    assert (item_state t i = if bool_decide (i ∈ emitted_items t) then Reported
                             else if is_some (item_to_call t !! i) then Known else Unseen "") as Es.
    { unfold item_state. rewrite Hp. by destruct (bool_decide _), (item_to_call t !! i). }
    split; [exact R1| | |exact R3]; rewrite Es; [etrans; [exact R2|]|];
      by destruct (bool_decide _), (item_to_call t !! i).
Qed.

Lemma delta_stepped t i d :
  tracks t → i ∈ items →
  let '(t', evs) := arguments_delta t i d in stepped t t' i (TDelta d) evs.
Proof.
  intros T Hin. unfold arguments_delta. destruct (item_to_call t !! i) as [c|] eqn:Hk.
  - destruct (t_calls _ T i c Hk) as [_ ->].
    destruct (report_tracks t i T Hin) as (R1 & R2 & R3).
    assert (pending_args t !! i = None) as Hp by by apply pending_known.
    case_bool_decide as He; simpl.
    + assert (item_state t i = Reported) as Es by (unfold item_state; by rewrite bool_decide_true).
      assert (mark_emitted i t = t) as ->.
      { unfold mark_emitted. rewrite subseteq_union_1_L by set_solver. by destruct t. }
      split; [done| |by rewrite Es|done]. by rewrite Es.
    + assert (item_state t i = Known) as Es.
      { unfold item_state. rewrite bool_decide_false by done. by rewrite Hk. }
      unfold claim_name. simpl. destruct (claim_fresh t i T Hin He) as [-> ->].
      assert (mkResponsesTranslator ({[i]} ∪ emitted_items t) ({[call_id_of i]} ∪ named_calls t)
                (item_to_call t) (pending_args t) = report t i) as ->.
      { unfold report. by rewrite insert_id, delete_id. }
      split; [exact R1| | |exact R3]; by rewrite Es.
  - assert (He : i ∉ emitted_items t) by (intros He; destruct (t_emitted _ T i He); congruence).
    assert (item_state t i = Unseen (default "" (pending_args t !! i))) as Es.
    { unfold item_state. rewrite bool_decide_false by done. by rewrite Hk. }
    destruct (is_empty d) eqn:Ed.
    + apply is_empty_true in Ed as ->. split; [done| |by rewrite Es|done].
      rewrite Es. simpl. by rewrite string_app_nil_r.
    + apply is_empty_false in Ed. split; [| |by rewrite Es|].
      * destruct T as [T1 T2 T3 T4]. split; simpl; try done. intros j b.
        destruct (decide (j = i)) as [->|Hne]; [|rewrite lookup_insert_ne by done; apply T2].
        rewrite lookup_insert_eq. intros [= <-]. split; [done|]. by destruct (default _ _), d.
      * rewrite Es. unfold item_state. simpl. rewrite bool_decide_false, Hk by done.
        by rewrite lookup_insert_eq.
      * intros j Hne. unfold item_state. simpl. by rewrite lookup_insert_ne.
Qed.

(** *** All items at once *)

(** The items go through [touches] and report exactly what their machines do. *)
Definition runs (t t' : ResponsesTranslator) (touches : list (string * Touch)) (evs : list ModelEvent)
  : Prop :=
  tracks t'
  ∧ (∀ i, i ∈ items → (item_state t' i, call_deltas (call_id_of i) evs)
                       = item_run (name_of i) (item_state t i) (touches_of i touches))
  ∧ (∀ c, (∀ i, i ∈ items → c ≠ call_id_of i) → call_deltas c evs = []).

Lemma runs_quiet t evs : tracks t → Forall (λ ev, is_call ev = false) evs → runs t t [] evs.
Proof.
  intros T H. assert (∀ c, call_deltas c evs = []) as E.
  { intros c. unfold call_deltas. induction H as [|[] evs ? _ IH]; simpl; done. }
  split_and!; [done|intros i _; by rewrite E|by intros].
Qed.

Lemma runs_app t1 t2 t3 l1 l2 e1 e2 :
  runs t1 t2 l1 e1 → runs t2 t3 l2 e2 → runs t1 t3 (l1 ++ l2) (e1 ++ e2).
Proof.
  intros (_ & A1 & B1) (T & A2 & B2). split_and!; [done| |].
  - intros i Hi. rewrite call_deltas_app, touches_of_app, item_run_app, <- A1 by done.
    by rewrite <- A2 by done.
  - intros c Hc. by rewrite call_deltas_app, B1, B2.
Qed.

Lemma call_deltas_own c c' (ds : list (option string * string)) :
  call_deltas c ((λ d, METoolCallDelta c' d.1 d.2) <$> ds) = if String.eqb c c' then ds else [].
Proof.
  unfold call_deltas. destruct (String.eqb c c') eqn:E; induction ds as [|[n d] ds IH]; simpl;
    rewrite ?E; [done|f_equal; apply IH|done|apply IH].
Qed.

Lemma stepped_runs t t' i touch evs :
  i ∈ items → stepped t t' i touch evs → runs t t' [(i, touch)] evs.
Proof.
  intros Hi [T S E O]. split_and!; [done| |].
  - intros j Hj. rewrite E, call_deltas_own. simpl. destruct (String.eqb_spec i j) as [<-|Hne].
    + rewrite String.eqb_refl. simpl. rewrite S. destruct (item_step _ _ _). by rewrite app_nil_r.
    + rewrite O by congruence. destruct (String.eqb_spec (call_id_of j) (call_id_of i)) as [Heq|_]; [|done].
      by apply distinct in Heq.
  - intros c Hc. rewrite E, call_deltas_own. destruct (String.eqb_spec c (call_id_of i)); [|done].
    by destruct (Hc i Hi).
Qed.

(** An event that speaks of known items only. *)
Definition speaks (event : ResponseStreamEvent) : Prop :=
  Forall describes (event_calls event)
  ∧ match event with FunctionCallArgumentsDelta i _ => i ∈ items | _ => True end.

Lemma describes_item fc i : describes fc → fc_id fc = Some i → i ∈ items.
Proof. unfold describes. intros H E. rewrite E in H. by destruct H. Qed.

Lemma emit_runs t item :
  tracks t → Forall describes (item_calls item) →
  let '(t', evs) := emit_call_if_unseen t item in runs t t' (done_touches item) evs.
Proof.
  intros T Hd. destruct item as [fc|]; [|by apply runs_quiet]. simpl in Hd. rewrite Forall_singleton in Hd.
  destruct (fc_id fc) as [i|] eqn:Hi; [|by simpl; rewrite ?Hi; apply runs_quiet].
  destruct (is_complete fc) eqn:Hok.
  - pose proof (emit_stepped t fc i T Hi Hd Hok) as H. simpl done_touches. rewrite Hi, Hok.
    destruct (emit_call_if_unseen t _) as [t' evs].
    eapply stepped_runs; [by eapply describes_item|done].
  - simpl. rewrite ?Hi, ?Hok. simpl. rewrite ?Hi, ?Hok. simpl. apply runs_quiet; [done|constructor].
Qed.

Lemma sweep_runs outs t :
  tracks t → Forall describes (event_calls (ResponseCompleted (mkResponse outs None Completed None None))) →
  let '(t', evs) := sweep_output t outs in runs t t' (outs ≫= done_touches) evs.
Proof.
  revert t. induction outs as [|item outs IH]; intros t T Hd; simpl.
  - apply runs_quiet; [done|constructor].
  - simpl in Hd. apply Forall_app in Hd as [Hi Hd].
    pose proof (emit_runs t item T Hi) as H. destruct (emit_call_if_unseen t item) as [t1 e1].
    specialize (IH t1 (proj1 H) Hd). destruct (sweep_output t1 outs) as [t2 e2]. by eapply runs_app.
Qed.

Lemma terminal_quiet u s r b : Forall (λ ev, is_call ev = false) (terminal_events u s r b).
Proof. destruct u; repeat constructor. Qed.

Lemma consume_tracks t event t' evs :
  tracks t → speaks event → consume t event = Ok (t', evs) → runs t t' (event_touches event) evs.
Proof.
  intros T [Hd Hi]. destruct event; simpl; try done;
    try (intros [= <- <-]; apply runs_quiet; [done|]; by try destruct (is_empty _); repeat constructor).
  - intros [= H]. destruct item as [fc|].
    + simpl in Hd. rewrite Forall_singleton in Hd. destruct (fc_id fc) as [i|] eqn:Ei.
      * pose proof (added_stepped t fc i T Ei Hd) as S. rewrite H in S. simpl.
        eapply stepped_runs; [by eapply describes_item|done].
      * simpl in H. rewrite Ei in H. injection H as <- <-. apply runs_quiet; [done|constructor].
    + injection H as <- <-. apply runs_quiet; [done|constructor].
  - intros [= H]. pose proof (emit_runs t item T Hd) as S. by rewrite H in S.
  - intros [= H]. pose proof (delta_stepped t item_id delta T Hi) as S. rewrite H in S.
    by apply stepped_runs.
  - pose proof (sweep_runs (r_output response) t T Hd) as S.
    destruct (sweep_output t (r_output response)) as [t1 e1]. intros [= <- <-].
    rewrite <- (app_nil_r (_ ≫= _)). eapply runs_app; [done|].
    apply runs_quiet; [by destruct S|apply terminal_quiet].
  - intros [= <- <-]. apply runs_quiet; [done|apply terminal_quiet].
Qed.

Lemma consume_all_runs events t t' evs :
  tracks t → Forall speaks events → consume_all t events = Ok (t', evs) →
  runs t t' (events ≫= event_touches) evs.
Proof.
  intros T H. revert t t' evs T. induction H as [|event events He _ IH]; intros t t' evs T; simpl.
  - intros [= <- <-]. apply runs_quiet; [done|constructor].
  - destruct (consume t event) as [[t1 e1]|] eqn:E1; [|done].
    pose proof (consume_tracks _ _ _ _ T He E1) as R1.
    destruct (consume_all t1 events) as [[t2 e2]|] eqn:E2; [|done]. intros [= <- <-].
    eapply runs_app; [exact R1|]. apply IH; [by destruct R1|done].
Qed.

Lemma tracks_new : tracks ResponsesTranslator_new.
Proof. split; simpl; intros *; rewrite ?lookup_empty; try done; set_solver. Qed.
End Tracks.

(** ** What a whole stream says of an item *)

Definition touch_deltas (l : list Touch) : list string :=
  omap (λ x, match x with TDelta d => Some d | _ => None end) l.
Definition is_done (x : Touch) : bool := match x with TDone _ => true | _ => false end.

(** Deltas while the item is open, then its complete description, once or more.
    If the item was announced, the deltas are all of its arguments or there are
    none; if it was not, they may be any part of them. *)
Record told_exactly (args : string) (l pre post : list Touch) : Prop := {
  te_split : l = pre ++ post;
  te_open : Forall (λ x, is_done x = false) pre;
  te_closed : Forall (λ x, x = TDone args) post;
  te_some : post ≠ [];
  te_added : TAdded ∈ pre → concat_all (touch_deltas pre) = args ∨ touch_deltas pre = [];
  te_resumed : TAdded ∉ pre → args = "" → concat_all (touch_deltas pre) = "";
}.

(** The machine on an item that is still open. *)
Lemma open_run name pre :
  Forall (λ x, is_done x = false) pre →
  let '(s, ds) := item_run name (Unseen "") pre in
  let all := concat_all (touch_deltas pre) in
  match s with
  | Unseen b => (TAdded ∉ pre) ∧ b = all ∧ ds = []
  | Known => TAdded ∈ pre ∧ all = "" ∧ ds = []
  | Reported => TAdded ∈ pre ∧ touch_deltas pre ≠ [] ∧ call_spec ds = Some (mkToolCallAccum (Some name) all)
  end.
Proof.
  induction pre as [|x pre IH] using rev_ind; intros H.
  { simpl. split_and!; [by intros ?%elem_of_nil|done..]. }
  apply Forall_app in H as [H Hx]. rewrite Forall_singleton in Hx. specialize (IH H).
  rewrite item_run_app. destruct (item_run name (Unseen "") pre) as [s ds].
  assert (Ed : ∀ d, touch_deltas (pre ++ [TDelta d]) = touch_deltas pre ++ [d])
    by (intros d; unfold touch_deltas; by rewrite omap_app).
  assert (Ea : touch_deltas (pre ++ [TAdded]) = touch_deltas pre)
    by (unfold touch_deltas; by rewrite omap_app, app_nil_r).
  assert (Hm : TAdded ∈ pre ++ [x] ↔ TAdded ∈ pre ∨ x = TAdded).
  { rewrite elem_of_app, list_elem_of_singleton. naive_solver. }
  assert (Hs : ∀ l d, l ++ [d] ≠ @nil string) by (by intros [|] ?).
  destruct s as [b| |], x as [|d|a]; try done; simpl in *; rewrite ?Ea, ?Ed, ?concat_all_snoc, ?Hm, ?app_nil_r.
  - destruct IH as (Hn & -> & ->). destruct (is_empty _) eqn:E; simpl; rewrite ?Ea, ?Hm.
    + apply is_empty_true in E. auto.
    + split_and!; [by right| |by rewrite string_app_nil_r]. intros Hnil. by rewrite Hnil in E.
  - naive_solver.
  - naive_solver.
  - destruct IH as (Hi & -> & ->). split_and!; [by left|by apply Hs|by rewrite call_spec_snoc].
  - naive_solver.
  - destruct IH as (Hi & _ & Hc). split_and!; [by left|by apply Hs|].
    by rewrite call_spec_snoc, Hc.
Qed.

(** An item that is told exactly is reported exactly: named first and once, its
    deltas are its arguments. *)
Lemma told_run name args l pre post :
  told_exactly args l pre post →
  call_spec (item_run name (Unseen "") l).2 = Some (mkToolCallAccum (Some name) args).
Proof.
  intros [-> Ho Hc Hs Ha Hr]. rewrite item_run_app. pose proof (open_run name pre Ho) as H.
  destruct (item_run name (Unseen "") pre) as [s ds].
  destruct post as [|x post]; [done|]. apply Forall_cons in Hc as [-> Hc]. simpl.
  assert (Hq : item_run name Reported post = (Reported, [])).
  { clear -Hc. induction Hc as [|x post -> _ IH]; [done|]. simpl. by rewrite IH. }
  destruct s as [b| |]; simpl; rewrite Hq; simpl.
  - destruct H as (Hn & -> & ->). unfold call_spec, first_name. simpl. rewrite string_app_nil_r.
    destruct (is_empty args) eqn:E; simpl; [|done]. apply is_empty_true in E as ->.
    by rewrite (Hr Hn eq_refl).
  - destruct H as (Hi & Hall & ->). unfold call_spec, first_name. simpl. by rewrite string_app_nil_r.
  - rewrite app_nil_r. destruct H as (Hi & Hd & ->). destruct (Ha Hi) as [->|]; [done|done].
Qed.

(** The usual order: the item is announced, then come all of its argument
    deltas or none, then complete descriptions. *)
Definition in_order (args : string) (l : list Touch) (ds : list string) (post : list Touch) : Prop :=
  l = TAdded :: (TDelta <$> ds) ++ post
  ∧ (concat_all ds = args ∨ ds = [])
  ∧ Forall (λ x, x = TDone args) post.

Lemma deltas_open ds : Forall (λ x, is_done x = false) (TDelta <$> ds).
Proof. by apply Forall_fmap, Forall_true. Qed.

Lemma deltas_touches ds : touch_deltas (TDelta <$> ds) = ds.
Proof. unfold touch_deltas. induction ds as [|d ds IH]; simpl; [done|]. f_equal. apply IH. Qed.

Lemma concat_all_nil_suffix ds1 ds2 : concat_all (ds1 ++ ds2) = "" → concat_all ds2 = "".
Proof. rewrite concat_all_app. by destruct (concat_all ds1). Qed.

(** Whatever is cut off the front, what is left tells the item exactly, as long
    as its complete description is left. *)
Lemma in_order_suffix args dropped kept ds post :
  in_order args (dropped ++ kept) ds post → TDone args ∈ kept →
  ∃ pre post', told_exactly args kept pre post'.
Proof.
  intros (E & Hds & Hpost) Hk.
  assert (Hnd : ∀ ds l, TDone args ∈ (TDelta <$> ds) ++ l → TDone args ∈ l).
  { intros ds' l [Hx|Hx]%elem_of_app; [|done]. apply list_elem_of_fmap in Hx. naive_solver. }
  assert (Hne : ∀ l : list Touch, TDone args ∈ l → l ≠ []) by (by intros l Hl ->; apply elem_of_nil in Hl).
  destruct dropped as [|x dropped]; simpl in E.
  - subst kept. exists (TAdded :: (TDelta <$> ds)), post. split; [done| |done| | |].
    + constructor; [done|apply deltas_open].
    + apply Hne, (Hnd ds). by apply elem_of_cons in Hk as [|].
    + intros _. change (touch_deltas _) with (touch_deltas (TDelta <$> ds)). by rewrite deltas_touches.
    + intros Hn. destruct Hn. by left.
  - injection E as -> E. apply app_eq_app in E as (mid & [[E1 E2]|[E1 E2]]).
    + exists [], kept. subst post. apply Forall_app in Hpost as [_ Hpost].
      split; [done|done|done|by apply Hne| |done]. by intros ?%elem_of_nil.
    + apply fmap_app_inv in E1 as (ds1 & ds2 & -> & -> & ->). subst kept. exists (TDelta <$> ds2), post.
      split; [done|apply deltas_open|done| | |].
      * by apply Hne, (Hnd ds2).
      * intros Hx. apply list_elem_of_fmap in Hx. naive_solver.
      * intros _ ->. rewrite deltas_touches. destruct Hds as [Hds|Hds]; [by eapply concat_all_nil_suffix|].
        by apply app_eq_nil in Hds as [_ ->].
Qed.

(** ** The turn *)

(** The text and the reasoning of a response as it was streamed. *)
Definition response_text (events : list ResponseStreamEvent) : list string :=
  omap (λ ev, match ev with OutputTextDelta d | RefusalDelta d => Some d | _ => None end) events.
Definition response_reasoning (events : list ResponseStreamEvent) : list string :=
  omap (λ ev, match ev with
              | ReasoningSummaryTextDelta d | ReasoningTextDelta d => Some d
              | _ => None
              end) events.

Definition usage_of_response (u : ResponseUsage) : TokenUsage :=
  usage_of_event (ru_input_tokens u) (ru_output_tokens u) (Some (ru_cached_tokens u))
    (Some (ru_reasoning_tokens u)).

Lemma consume_channels t event t' evs :
  is_terminal event = false → consume t event = Ok (t', evs) →
  concat_all (text_deltas evs) = concat_all (response_text [event])
  ∧ concat_all (reasoning_deltas evs) = concat_all (response_reasoning [event]).
Proof.
  intros Ht. destruct event; try done; simpl;
    try (intros [= <- <-]; destruct delta; simpl; by rewrite ?string_app_nil_r).
  - intros [= E]. pose proof (added_effect t item) as H. rewrite E in H.
    apply op_only_calls in H as (H1 & H2 & _). simpl in *. by rewrite H1, H2.
  - intros [= E]. pose proof (emit_effect t item) as H. rewrite E in H.
    apply op_only_calls in H as (H1 & H2 & _). simpl in *. by rewrite H1, H2.
  - intros [= E]. pose proof (delta_effect t item_id delta) as H. rewrite E in H.
    apply op_only_calls in H as (H1 & H2 & _). simpl in *. by rewrite H1, H2.
  - by intros [= <- <-].
Qed.

Lemma consume_all_channels events t t' evs :
  Forall (λ ev, is_terminal ev = false ∧ is_failure ev = false) events →
  consume_all t events = Ok (t', evs) →
  concat_all (text_deltas evs) = concat_all (response_text events)
  ∧ concat_all (reasoning_deltas evs) = concat_all (response_reasoning events).
Proof.
  intros H. revert t evs. induction H as [|event events [Ht _] _ IH]; intros t evs; simpl; [by intros [= _ <-]|].
  destruct (consume t event) as [[t1 e1]|] eqn:E1; [|done].
  destruct (consume_all t1 events) as [[t2 e2]|] eqn:E2; [|done]. intros [= <- <-].
  destruct (consume_channels _ _ _ _ Ht E1) as [T1 R1]. destruct (IH _ _ E2) as [T2 R2].
  unfold text_deltas, reasoning_deltas in *. rewrite !omap_app, !concat_all_app, T1, R1, T2, R2.
  rewrite <- !concat_all_app. split; f_equal; by destruct event.
Qed.

(** A response that runs to its end: the items have distinct call ids, and every
    description of an item says the same of it. *)
Record conforming_response (items : list string) (call_id_of name_of : string → string)
    (events : list ResponseStreamEvent) (r : Response) : Prop := {
  cr_open : Forall (λ ev, is_terminal ev = false ∧ is_failure ev = false) events;
  cr_status : r_status r = Completed;
  cr_ids : ∀ i, i ∈ items → call_id_of i ≠ "";
  cr_distinct : ∀ i j, i ∈ items → j ∈ items → call_id_of i = call_id_of j → i = j;
  cr_speaks : Forall (speaks items call_id_of name_of) (events ++ [ResponseCompleted r]);
}.

Lemma consume_all_app events1 events2 t :
  consume_all t (events1 ++ events2)
  = match consume_all t events1 with
    | Ok (t1, e1) => match consume_all t1 events2 with
                     | Ok (t2, e2) => Ok (t2, e1 ++ e2)
                     | Err e => Err e
                     end
    | Err e => Err e
    end.
Proof.
  revert t. induction events1 as [|event events1 IH]; intros t; simpl.
  - by destruct (consume_all t events2) as [[]|].
  - destruct (consume t event) as [[t1 e1]|]; [|done]. rewrite IH.
    destruct (consume_all t1 events1) as [[t2 e2]|]; [|done].
    destruct (consume_all t2 events2) as [[t3 e3]|]; [|done]. by rewrite app_assoc.
Qed.

(** The events of a completed response, channel by channel. *)
Lemma completed_events events r :
  Forall (λ ev, is_terminal ev = false ∧ is_failure ev = false) events → r_status r = Completed →
  ∃ t evs, consume_all ResponsesTranslator_new (events ++ [ResponseCompleted r]) = Ok (t, evs)
  ∧ concat_all (text_deltas evs) = concat_all (response_text events)
  ∧ concat_all (reasoning_deltas evs) = concat_all (response_reasoning events)
  ∧ usage_events evs = usage_of_response <$> option_list (r_usage r)
  ∧ finish_events evs = [if existsb is_call evs then ToolCalls else Stop].
Proof.
  intros H Hs. destruct (consume_all_open events _ [] H accounted_new) as (t & out & E & A & [U F]).
  rewrite consume_all_app, E. simpl. simpl in A. destruct (sweep_effect (r_output r) t out A) as [A1 C].
  destruct (sweep_output t (r_output r)) as [t1 calls]. simpl in *. destruct C as (C1 & C2 & C3 & C4).
  destruct (consume_all_channels _ _ _ _ H E) as [T R].
  eexists _, _. split; [done|].
  unfold text_deltas, reasoning_deltas, usage_events, finish_events in *.
  rewrite !omap_app, !existsb_app, C1, C2, C3, C4, U, F, Hs, (a_emitted _ _ A1), existsb_app.
  unfold terminal_events. rewrite !omap_app, existsb_app. simpl.
  destruct (r_usage r); simpl; rewrite ?app_nil_r, !orb_false_r; auto.
Qed.

(** The turn read from a response. *)
Definition reads_turn (items : list string) (call_id_of name_of args_of : string → string)
    (events : list ResponseStreamEvent) (r : Response) (acc : ModelTurnAccumulator) : Prop :=
  text acc = concat_all (response_text events)
  ∧ reasoning acc = concat_all (response_reasoning events)
  ∧ latest_usage acc = usage_of_response <$> r_usage r
  ∧ ModelTurn.finish_reason acc = match items with [] => Stop | _ => ToolCalls end
  ∧ (∀ c a, btree_get c (tool_accum acc) = Some a ↔
       ∃ i, i ∈ items ∧ c = call_id_of i ∧ a = mkToolCallAccum (Some (name_of i)) (args_of i)).

Lemma no_call_deltas evs : (∀ c, call_deltas c evs = []) → existsb is_call evs = false.
Proof.
  induction evs as [|ev evs IH]; [done|]. intros H. simpl.
  assert (is_call ev = false) as ->.
  { destruct ev as [| |c n d| |]; try done. specialize (H c). unfold call_deltas in H. simpl in H.
    by rewrite String.eqb_refl in H. }
  apply IH. intros c. specialize (H c). unfold call_deltas in *. simpl in H.
  destruct ev as [| |c' n d| |]; try done. by destruct (String.eqb c c').
Qed.

(** An item told exactly is a call reported exactly, wherever its deltas and
    descriptions stand in the stream. *)
Lemma told_turn items call_id_of name_of args_of events r agent :
  conforming_response items call_id_of name_of events r →
  (∀ i, i ∈ items → ∃ pre post,
     told_exactly (args_of i) (touches_of i ((events ++ [ResponseCompleted r]) ≫= event_touches)) pre post) →
  ∃ evs, invoke (RCreatedStream (REvent <$> events ++ [ResponseCompleted r])) = Ok <$> evs
    ∧ reads_turn items call_id_of name_of args_of events r (observe_all agent evs).
Proof.
  intros [Ho Hs Hid Hdis Hsp] Htold.
  destruct (completed_events events r Ho Hs) as (t & evs & E & T & R & U & F).
  exists evs. split.
  { simpl. rewrite <- (app_nil_r (REvent <$> _)), (stream_loop_app _ _ _ _ _ E). simpl. by rewrite app_nil_r. }
  destruct (consume_all_runs items call_id_of name_of Hid Hdis _ _ _ _ (tracks_new _ _ _) Hsp E)
    as (_ & Hrun & Hother).
  assert (Hcall : ∀ i, i ∈ items →
    call_spec (call_deltas (call_id_of i) evs) = Some (mkToolCallAccum (Some (name_of i)) (args_of i))).
  { intros i Hi. destruct (Htold i Hi) as (pre & post & Ht). rewrite <- (told_run _ _ _ _ _ Ht).
    pose proof (Hrun i Hi) as Hr. change (item_state _ i) with (Unseen "") in Hr at 2. by rewrite <- Hr. }
  destruct (observe_all_spec agent evs) as [_ At Ar _ Ac Au Af]. unfold reads_turn.
  rewrite At, Ar, Au, Af, T, R, U, F. split_and!; [done|done|by destruct (r_usage r)| |].
  - destruct items as [|i items]; simpl.
    + rewrite no_call_deltas; [done|]. intros c. apply Hother. by intros i Hi%elem_of_nil.
    + destruct (existsb is_call evs) eqn:Ee; [done|]. specialize (Hcall i ltac:(by left)). exfalso.
      assert (∀ c, call_deltas c evs = []) as Hn.
      { intros c. clear -Ee. induction evs as [|[] evs IH]; simpl in *; try done; by apply IH. }
      by rewrite Hn in Hcall.
  - intros c a. rewrite Ac. split.
    + intros Ha. destruct (decide (Exists (λ i, c = call_id_of i) items)) as [He|Hn].
      * apply Exists_exists in He as (i & Hi & ->). exists i. rewrite Hcall in Ha by done. naive_solver.
      * rewrite Hother in Ha; [done|]. intros i Hi ->. apply Hn, Exists_exists. by exists i.
    + intros (i & Hi & -> & ->). by apply Hcall.
Qed.

(** C18. A stream of the Responses API that is picked up in the middle reports the
    same tool calls as the whole.  When every call is announced, streams all of
    its argument deltas or none, and is described completely in the final
    response, then after any number of leading events is lost the stream that is
    left reads as: exactly the calls of the response, each once under its call
    id, with its name and all of its arguments, however the calls interleave;
    [ToolCalls] exactly when there is one; the usage of the response; and the
    text and reasoning that were left.  With nothing lost, that is the turn. *)
Theorem responses_resume_exact items call_id_of name_of args_of dropped kept r agent :
  conforming_response items call_id_of name_of (dropped ++ kept) r →
  (∀ i, i ∈ items → ∃ deltas post,
     in_order (args_of i)
       (touches_of i ((dropped ++ kept ++ [ResponseCompleted r]) ≫= event_touches)) deltas post) →
  (∀ i, i ∈ items → TDone (args_of i) ∈ touches_of i (event_touches (ResponseCompleted r))) →
  ∃ evs, invoke (RCreatedStream (REvent <$> kept ++ [ResponseCompleted r])) = Ok <$> evs
    ∧ reads_turn items call_id_of name_of args_of kept r (observe_all agent evs).
Proof.
  intros [Ho Hs Hid Hdis Hsp] Hin Hlast. apply told_turn.
  - apply Forall_app in Ho as [_ Ho]. rewrite <- app_assoc in Hsp. by apply Forall_app in Hsp as [_ Hsp].
  - intros i Hi. destruct (Hin i Hi) as (ds & post & H). rewrite bind_app, touches_of_app in H.
    eapply in_order_suffix; [exact H|]. rewrite bind_app, touches_of_app. apply elem_of_app. right.
    simpl. rewrite app_nil_r. by apply Hlast.
Qed.

Module ResponsesDemo.
Definition call (i c n a : string) : OutputItem :=
  FunctionCallItem (mkFunctionToolCall (Some i) c n a (Some ItemCompleted)).
Definition opening (i c n : string) : OutputItem :=
  FunctionCallItem (mkFunctionToolCall (Some i) c n "" (Some ItemInProgress)).
Definition final_response (output : list OutputItem) : Response :=
  mkResponse output (Some (mkResponseUsage 5 7 0 0)) Completed None None.

(** Two calls whose deltas interleave. *)
Definition announced : list ResponseStreamEvent :=
  [OutputItemAdded (opening "fc_1" "call_a" "search"); FunctionCallArgumentsDelta "fc_1" "{1";
   OutputItemAdded (opening "fc_2" "call_b" "list")].
Definition rest : list ResponseStreamEvent :=
  [FunctionCallArgumentsDelta "fc_2" "{2}"; OutputTextDelta "hi"; FunctionCallArgumentsDelta "fc_1" "}";
   OutputItemDone (call "fc_1" "call_a" "search" "{1}"); OutputItemDone (call "fc_2" "call_b" "list" "{2}")].
Definition final : Response :=
  final_response [OtherItem; call "fc_1" "call_a" "search" "{1}"; call "fc_2" "call_b" "list" "{2}"].

Definition run (events : list ResponseStreamEvent) : list (result ModelEvent ModelError) :=
  invoke (RCreatedStream (REvent <$> events)).

(** A delta before its item is announced waits for it. *)
Example early_delta :
  run [FunctionCallArgumentsDelta "fc_1" "{1"; OutputItemAdded (opening "fc_1" "call_a" "search");
       FunctionCallArgumentsDelta "fc_1" "}"]
  = Ok <$> [METoolCallDelta "call_a" (Some "search") "{1"; METoolCallDelta "call_a" None "}"].
Proof. reflexivity. Qed.

(** Two items with one call id: one name, and the arguments of both. *)
Example shared_call_id :
  run [OutputItemDone (call "fc_1" "c" "f" "{}"); OutputItemDone (call "fc_2" "c" "g" "[]")]
  = Ok <$> [METoolCallDelta "c" (Some "f") "{}"; METoolCallDelta "c" None "[]"].
Proof. reflexivity. Qed.

(** An item that is not complete is not reported, and does not make the reason. *)
Example truncated_item :
  run [OutputItemAdded (opening "fc_1" "call_a" "search");
       ResponseCompleted (final_response [opening "fc_1" "call_a" "search"])]
  = Ok <$> [MEUsage 5 7 (Some 0%Z) (Some 0%Z); MEFinish Stop].
Proof. reflexivity. Qed.

Lemma responses_protocol_witness :
  ∃ body any_call,
    invoke (RCreatedStream ((REvent <$> announced ++ rest) ++ ending_polls (EndCompleted final)))
    = (Ok <$> body) ++ ending_results (EndCompleted final) any_call
    ∧ names_of "call_a" body = ["search"] ∧ any_call = true.
Proof.
  destruct (responses_protocol (announced ++ rest) (EndCompleted final)) as (body & b & E & _ & Hn & Hb).
  { by repeat constructor. }
  exists body, b. split; [exact E|]. specialize (Hb final eq_refl). subst b.
  assert (body = omap (λ x, match x with Ok ev => Some ev | Err _ => None end)
                   (take (length body) ((Ok <$> body) ++ ending_results (EndCompleted final) (existsb is_call body)))) as Eb.
  { rewrite take_app_length' by by rewrite length_fmap. clear. induction body; simpl; [done|by f_equal]. }
  assert (length body = 4)%nat as El.
  { apply (f_equal length) in E. rewrite length_app, length_fmap in E. vm_compute (length (invoke _)) in E.
    destruct (existsb is_call body); vm_compute (length (ending_results _ _)) in E; lia. }
  rewrite El, <- E in Eb. vm_compute in Eb. subst body. by vm_compute.
Defined.

Definition call_id_of (i : string) : string := if String.eqb i "fc_1" then "call_a" else "call_b".
Definition tool_of (i : string) : string := if String.eqb i "fc_1" then "search" else "list".
Definition args_of (i : string) : string := if String.eqb i "fc_1" then "{1}" else "{2}".

Lemma demo_conforming :
  conforming_response ["fc_1"; "fc_2"] call_id_of tool_of (announced ++ rest) final.
Proof.
  split; [by repeat constructor|done| | |].
  - intros i _. unfold call_id_of. by destruct (String.eqb i "fc_1").
  - intros i j Hi Hj. repeat (apply elem_of_cons in Hi as [->|Hi]); repeat (apply elem_of_cons in Hj as [->|Hj]);
      try (by apply elem_of_nil in Hi); try (by apply elem_of_nil in Hj); vm_compute; congruence.
  - repeat (constructor; [split; [repeat constructor|]; try exact I; set_solver|]). constructor.
Qed.

Lemma responses_resume_exact_witness :
  ∃ evs, invoke (RCreatedStream (REvent <$> rest ++ [ResponseCompleted final])) = Ok <$> evs
  ∧ btree_get "call_a" (tool_accum (observe_all "agent" evs)) = Some (mkToolCallAccum (Some "search") "{1}")
  ∧ text (observe_all "agent" evs) = "hi".
Proof.
  destruct (responses_resume_exact ["fc_1"; "fc_2"] call_id_of tool_of args_of announced rest final "agent")
    as (evs & E & Ht & _ & _ & _ & Hc).
  - exact demo_conforming.
  - intros i Hi. apply elem_of_cons in Hi as [->|Hi]; [|apply list_elem_of_singleton in Hi as ->].
    + exists ["{1"; "}"], [TDone "{1}"; TDone "{1}"]. split; [reflexivity|]. split; [by left|by repeat constructor].
    + exists ["{2}"], [TDone "{2}"; TDone "{2}"]. split; [reflexivity|]. split; [by left|by repeat constructor].
  - intros i Hi. apply elem_of_cons in Hi as [->|Hi]; [|apply list_elem_of_singleton in Hi as ->]; by left.
  - exists evs. split; [exact E|]. split; [|exact Ht].
    apply Hc. exists "fc_1". split; [by left|done].
Defined.
End ResponsesDemo.
