(* ===== verification/OpenAiRequest.v ===== *)
(** The request side of the OpenAI provider
    (paigasus-helikon-providers-openai/src/translate/request.rs): a conversation
    as the messages of the Chat Completions API and as the input of the
    Responses API.  LiteLLM's translate/request.rs has the same code for chat.

    The code builds JSON values; here a message is an inductive and
    [chat_message_json], [input_item_json] are its JSON.  The two tests the code
    makes on a JSON message, its role and whether it has a list of calls, are
    justified by [role_json] and [tool_calls_json]. *)

From S2P Require Import Prelude Json Items.

(** ** Chat Completions *)

Inductive UserPart : Type :=
| UPText (text : string)
| UPImage (url : string)
| UPAudio (data : string).

Inductive UserContent : Type :=
| UText (text : string)
| UParts (parts : list UserPart).

(** [arguments] is the text of a JSON value. *)
Record WireCall := mkWireCall { wc_id : string; wc_name : string; wc_arguments : string }.

Inductive ChatMessage : Type :=
| CMSystem (text : string)
| CMUser (content : UserContent)
| CMAssistant (content : option string) (tool_calls : list WireCall)
| CMTool (call_id content : string).

Section Request.
Context `{J : SerdeJson}.

(** Texts joined by newlines; nothing is put before the first text that is not
    empty. *)
Definition push_text (s text : string) : string :=
  (if is_empty s then s else snoc s newline) +:+ text.

Fixpoint text_from (s : string) (parts : list ContentPart) : string :=
  match parts with
  | [] => s
  | Text text :: parts' => text_from (push_text s text) parts'
  | _ :: parts' => text_from s parts'
  end.

Definition text_of (parts : list ContentPart) : string := text_from "" parts.

Definition media_url (src : MediaSource) : string :=
  match src with
  | Url url => url
  | Base64 mime_type data => "data:" +:+ mime_type +:+ ";base64," +:+ data
  end.

Definition is_text (p : ContentPart) : bool := match p with Text _ => true | _ => false end.

Definition user_part (p : ContentPart) : option UserPart :=
  match p with
  | Text text => Some (UPText text)
  | Image source => Some (UPImage (media_url source))
  | Audio source => Some (UPAudio (media_url source))
  | _ => None
  end.

Definition user_message (parts : list ContentPart) : UserContent :=
  if forallb is_text parts then UText (text_of parts) else UParts (omap user_part parts).

(** The tool results nested in a user message, and its other parts. *)
Definition hoisted (content : list ContentPart) : list (string * string) :=
  omap (λ p, match p with
             | PartToolResult call_id parts => Some (call_id, text_of parts)
             | _ => None
             end) content.

Definition user_parts (content : list ContentPart) : list ContentPart :=
  List.filter (λ p, match p with PartToolResult _ _ => false | _ => true end) content.

Definition emit_user_or_hoist (content : list ContentPart) : list ChatMessage :=
  (match user_parts content with
   | [] => []
   | parts => [CMUser (user_message parts)]
   end) ++ ((λ h, CMTool h.1 h.2) <$> hoisted content).

Definition openai_tool_call (call_id name : string) (args : Value) : WireCall :=
  mkWireCall call_id name (to_string args).

Definition nested_calls (content : list ContentPart) : list WireCall :=
  omap (λ p, match p with
             | PartToolUse call_id name args => Some (openai_tool_call call_id name args)
             | _ => None
             end) content.

Definition assistant_content (content : list ContentPart) : option string :=
  match nested_calls content with
  | _ :: _ => if is_empty (text_of content) then None else Some (text_of content)
  | [] => Some (text_of content)
  end.

Definition assistant_message (content : list ContentPart) : ChatMessage :=
  CMAssistant (assistant_content content) (nested_calls content).

Definition flush_pending (out : list ChatMessage) (pending : list WireCall) : list ChatMessage :=
  match pending with
  | [] => out
  | _ => out ++ [CMAssistant None pending]
  end.

(** A standalone call goes to the assistant message it follows, and waits for one
    of its own otherwise. *)
Definition push_call (out : list ChatMessage) (pending : list WireCall) (call : WireCall)
  : list ChatMessage * list WireCall :=
  match last out with
  | Some (CMAssistant content calls) =>
      (removelast out ++ [CMAssistant content (calls ++ [call])], pending)
  | _ => (out, pending ++ [call])
  end.

Definition chat_step (acc : list ChatMessage * list WireCall) (item : Item)
  : list ChatMessage * list WireCall :=
  let '(out, pending) := acc in
  match item with
  | System content => (flush_pending out pending ++ [CMSystem (text_of content)], [])
  | UserMessage content => (flush_pending out pending ++ emit_user_or_hoist content, [])
  | AssistantMessage content _ => (flush_pending out pending ++ [assistant_message content], [])
  | ToolCall call_id name args => push_call out pending (openai_tool_call call_id name args)
  | ToolResult call_id content =>
      (flush_pending out pending ++ [CMTool call_id (text_of content)], [])
  end.

Definition to_chat_messages (items : list Item) : list ChatMessage :=
  let '(out, pending) := fold_left chat_step items ([], []) in flush_pending out pending.

(** *** The JSON of a message *)

Definition call_json (c : WireCall) : Value :=
  VObject [("id", VString (wc_id c)); ("type", VString "function");
           ("function", VObject [("name", VString (wc_name c)); ("arguments", VString (wc_arguments c))])].

Definition user_part_json (p : UserPart) : Value :=
  match p with
  | UPText text => VObject [("type", VString "text"); ("text", VString text)]
  | UPImage url =>
      VObject [("type", VString "image_url"); ("image_url", VObject [("url", VString url)])]
  | UPAudio data =>
      VObject [("type", VString "input_audio"); ("input_audio", VObject [("data", VString data)])]
  end.

Definition role (m : ChatMessage) : string :=
  match m with
  | CMSystem _ => "system" | CMUser _ => "user" | CMAssistant _ _ => "assistant" | CMTool _ _ => "tool"
  end.

Definition chat_message_json (m : ChatMessage) : Value :=
  VObject (("role", VString (role m)) ::
    match m with
    | CMSystem text | CMUser (UText text) => [("content", VString text)]
    | CMUser (UParts parts) => [("content", VArray (user_part_json <$> parts))]
    | CMAssistant content calls =>
        ("content", match content with Some text => VString text | None => VNull end) ::
        match calls with [] => [] | _ => [("tool_calls", VArray (call_json <$> calls))] end
    | CMTool call_id content => [("tool_call_id", VString call_id); ("content", VString content)]
    end).

(** The code reads a message's role and calls back from its JSON. *)
Lemma role_json `{!SerdeJsonLaws} m : get (chat_message_json m) "role" = Some (VString (role m)).
Proof.
  unfold chat_message_json. rewrite get_VObject.
  by destruct m as [|[]|[] []|].
Qed.

Lemma tool_calls_json `{!SerdeJsonLaws} content calls :
  get (chat_message_json (CMAssistant content calls)) "tool_calls"
  = match calls with [] => None | _ => Some (VArray (call_json <$> calls)) end.
Proof. unfold chat_message_json. rewrite get_VObject. by destruct content, calls. Qed.

(** ** The Responses API *)

Inductive InputPart : Type :=
| InputText (text : string)
| InputImage (url : string)
| OutputText (text : string).

Inductive InputItem : Type :=
| InputMessage (role : string) (content : list InputPart)
| InputCall (call : WireCall)
| InputCallOutput (call_id output : string).

Definition input_part (p : ContentPart) : option InputPart :=
  match p with
  | Text text => Some (InputText text)
  | Image source => Some (InputImage (media_url source))
  | _ => None
  end.

(** A message, unless it has no part. *)
Definition input_message (role : string) (parts : list InputPart) : list InputItem :=
  match parts with [] => [] | _ => [InputMessage role parts] end.

Definition item_input (item : Item) : list InputItem :=
  match item with
  | System content => [InputMessage "system" [InputText (text_of content)]]
  | UserMessage content =>
      input_message "user" (omap input_part content)
      ++ ((λ h, InputCallOutput h.1 h.2) <$> hoisted content)
  | AssistantMessage content _ =>
      input_message "assistant"
        (omap (λ p, match p with Text text => Some (OutputText text) | _ => None end) content)
      ++ (InputCall <$> nested_calls content)
  | ToolCall call_id name args => [InputCall (openai_tool_call call_id name args)]
  | ToolResult call_id content => [InputCallOutput call_id (text_of content)]
  end.

Definition to_responses_input (items : list Item) : list InputItem := items ≫= item_input.

Definition input_part_json (p : InputPart) : Value :=
  match p with
  | InputText text => VObject [("type", VString "input_text"); ("text", VString text)]
  | InputImage url => VObject [("type", VString "input_image"); ("image_url", VString url)]
  | OutputText text => VObject [("type", VString "output_text"); ("text", VString text)]
  end.

Definition input_item_json (i : InputItem) : Value :=
  match i with
  | InputMessage role content =>
      VObject [("type", VString "message"); ("role", VString role);
               ("content", VArray (input_part_json <$> content))]
  | InputCall c =>
      VObject [("type", VString "function_call"); ("call_id", VString (wc_id c));
               ("name", VString (wc_name c)); ("arguments", VString (wc_arguments c))]
  | InputCallOutput call_id output =>
      VObject [("type", VString "function_call_output"); ("call_id", VString call_id);
               ("output", VString output)]
  end.
End Request.

(** ** Nothing is lost or reordered *)

(** What a conversation says, one thing after the other. *)
Inductive ChatEvent : Type :=
| EvSystem (text : string)
| EvUser (content : UserContent)
| EvAssistant (text : string)
| EvCall (call : WireCall)
| EvResult (call_id content : string).

Definition message_events (m : ChatMessage) : list ChatEvent :=
  match m with
  | CMSystem text => [EvSystem text]
  | CMUser content => [EvUser content]
  | CMAssistant content calls => (EvAssistant <$> option_list content) ++ (EvCall <$> calls)
  | CMTool call_id content => [EvResult call_id content]
  end.

Definition input_events (i : InputItem) : list ChatEvent :=
  match i with
  | InputMessage _ _ => []
  | InputCall c => [EvCall c]
  | InputCallOutput call_id output => [EvResult call_id output]
  end.

(** The calls and the results. *)
Definition is_exchange (ev : ChatEvent) : bool :=
  match ev with EvCall _ | EvResult _ _ => true | _ => false end.

Section Faithful.
Context `{J : SerdeJson}.

Definition item_events (item : Item) : list ChatEvent :=
  match item with
  | System content => [EvSystem (text_of content)]
  | UserMessage content =>
      match user_parts content with [] => [] | parts => [EvUser (user_message parts)] end
      ++ ((λ h, EvResult h.1 h.2) <$> hoisted content)
  | AssistantMessage content _ =>
      (EvAssistant <$> option_list (assistant_content content)) ++ (EvCall <$> nested_calls content)
  | ToolCall call_id name args => [EvCall (openai_tool_call call_id name args)]
  | ToolResult call_id content => [EvResult call_id (text_of content)]
  end.

Definition ends_with_assistant (out : list ChatMessage) : bool :=
  match last out with Some (CMAssistant _ _) => true | _ => false end.

(** Calls wait only when there is no assistant message to take them. *)
Definition pending_ok (acc : list ChatMessage * list WireCall) : Prop :=
  acc.2 = [] ∨ ends_with_assistant acc.1 = false.

Definition acc_events (acc : list ChatMessage * list WireCall) : list ChatEvent :=
  (acc.1 ≫= message_events) ++ (EvCall <$> acc.2).

Lemma flush_events out pending :
  flush_pending out pending ≫= message_events = acc_events (out, pending).
Proof.
  unfold acc_events, flush_pending. destruct pending as [|c pending]; simpl; [by rewrite app_nil_r|].
  rewrite bind_app. simpl. by rewrite app_nil_r.
Qed.

Lemma last_split {A} (l : list A) x : last l = Some x → l = removelast l ++ [x].
Proof.
  intros H. apply last_Some in H as [l' ->]. by rewrite removelast_last.
Qed.

Lemma push_call_events out pending call :
  pending_ok (out, pending) →
  acc_events (push_call out pending call) = acc_events (out, pending) ++ [EvCall call]
  ∧ pending_ok (push_call out pending call).
Proof.
  unfold push_call, pending_ok, ends_with_assistant, acc_events. simpl. intros Hok.
  assert (Hwait : acc_events (out, pending ++ [call]) = acc_events (out, pending) ++ [EvCall call])
    by (unfold acc_events; simpl; by rewrite fmap_app, app_assoc).
  destruct (last out) as [[| |content calls|]|] eqn:E; simpl;
    try (split; [exact Hwait|right; by rewrite E]).
  destruct Hok as [->|]; [|done]. rewrite (last_split _ _ E) at 2. rewrite !bind_app. simpl.
  rewrite !app_nil_r, fmap_app, <- !app_assoc. split; [done|by left].
Qed.

Lemma hoist_events content :
  emit_user_or_hoist content ≫= message_events = item_events (UserMessage content).
Proof.
  unfold emit_user_or_hoist. rewrite bind_app. simpl. f_equal.
  - by destruct (user_parts content).
  - induction (hoisted content) as [|h l IH]; simpl; [done|]. by f_equal.
Qed.

Lemma chat_step_events acc item :
  pending_ok acc →
  acc_events (chat_step acc item) = acc_events acc ++ item_events item
  ∧ pending_ok (chat_step acc item).
Proof.
  destruct acc as [out pending]. intros Hok. destruct item; simpl.
  4:{ by apply push_call_events. }
  all: split; [|by left]; unfold acc_events at 1; simpl;
    rewrite bind_app, flush_events, app_nil_r, ?hoist_events; try done.
  simpl. by rewrite app_nil_r.
Qed.

Lemma chat_steps_events items acc :
  pending_ok acc →
  acc_events (fold_left chat_step items acc) = acc_events acc ++ (items ≫= item_events)
  ∧ pending_ok (fold_left chat_step items acc).
Proof.
  revert acc. induction items as [|item items IH]; intros acc Hok; simpl; [by rewrite app_nil_r|].
  destruct (chat_step_events acc item Hok) as [E Hok'].
  destruct (IH _ Hok') as [-> ?]. by rewrite E, app_assoc.
Qed.

Lemma chat_events items :
  to_chat_messages items ≫= message_events = items ≫= item_events.
Proof.
  unfold to_chat_messages.
  destruct (chat_steps_events items ([], []) ltac:(by left)) as [E _].
  destruct (fold_left chat_step items ([], [])) as [out pending].
  by rewrite flush_events, E.
Qed.

Lemma input_exchange item :
  item_input item ≫= input_events = filter (λ ev, is_exchange ev = true) (item_events item).
Proof.
  destruct item as [content|content a|content|i n a|i c]; simpl; try done.
  - rewrite bind_app, filter_app. f_equal.
    + destruct (user_parts content); by destruct (omap input_part content).
    + induction (hoisted content) as [|h l IH]; [done|].
      by rewrite !fmap_cons, bind_cons, filter_cons_True, <- IH by done.
  - rewrite bind_app, filter_app. f_equal.
    + destruct (assistant_content content); by destruct (omap _ content).
    + induction (nested_calls content) as [|c l IH]; [done|].
      by rewrite !fmap_cons, bind_cons, filter_cons_True, <- IH by done.
Qed.

Lemma filter_bind {A B} (P : B → Prop) `{!∀ x, Decision (P x)} (f : A → list B) l :
  filter P (l ≫= f) = l ≫= λ x, filter P (f x).
Proof. induction l as [|x l IH]; [done|]. by rewrite !bind_cons, filter_app, IH. Qed.

(** Both backends tell the model of the same calls and results, in the same
    order and with the same arguments. *)
Lemma backends_same_exchange items :
  to_responses_input items ≫= input_events
  = filter (λ ev, is_exchange ev = true) (to_chat_messages items ≫= message_events).
Proof.
  unfold to_responses_input. rewrite chat_events, filter_bind.
  induction items as [|item items IH]; [done|].
  by rewrite !bind_cons, bind_app, input_exchange, IH.
Qed.
End Faithful.

(** ** The rule of the API

    Every assistant message with calls is followed at once by the results of
    exactly its calls, and there is no other tool message.  [open_calls] reads
    messages and returns the calls still open; results in the order of the calls
    are more than the API asks for. *)

Fixpoint open_calls (open : list string) (msgs : list ChatMessage) : option (list string) :=
  match msgs with
  | [] => Some open
  | CMTool call_id _ :: msgs' =>
      match open with
      | id :: open' => if String.eqb call_id id then open_calls open' msgs' else None
      | [] => None
      end
  | CMAssistant _ calls :: msgs' => if is_nil open then open_calls (wc_id <$> calls) msgs' else None
  | (CMSystem _ | CMUser _) :: msgs' => if is_nil open then open_calls [] msgs' else None
  end.

Definition answered (msgs : list ChatMessage) : Prop := open_calls [] msgs = Some [].

Lemma open_calls_app open m1 m2 :
  open_calls open (m1 ++ m2) = o ← open_calls open m1; open_calls o m2.
Proof.
  revert open. induction m1 as [|m m1 IH]; intros open; [done|]. simpl.
  destruct m; try by destruct (is_nil open).
  destruct open as [|id open]; [done|]. by destruct (String.eqb call_id id).
Qed.

Section Rule.
Context `{J : SerdeJson}.

(** The same for items.  Calls are collected until the first result ([true]); a
    message stands between exchanges, and tool use is not nested in content. *)
Definition item_open (s : list string * bool) (item : Item) : option (list string * bool) :=
  let '(open, collecting) := s in
  match item with
  | ToolCall call_id _ _ =>
      if collecting || is_nil open then Some (open ++ [call_id], true) else None
  | ToolResult call_id _ =>
      match open with
      | id :: open' => if String.eqb call_id id then Some (open', false) else None
      | [] => None
      end
  | System _ => if is_nil open then Some ([], true) else None
  | UserMessage content => if is_nil open && is_nil (hoisted content) then Some ([], true) else None
  | AssistantMessage content _ =>
      if is_nil open && is_nil (nested_calls content) then Some ([], true) else None
  end.

Fixpoint items_open (s : list string * bool) (items : list Item) : option (list string * bool) :=
  match items with
  | [] => Some s
  | item :: items' => s' ← item_open s item; items_open s' items'
  end.

(** Every call of the conversation is answered. *)
Definition paired (items : list Item) : Prop := ∃ b, items_open ([], true) items = Some ([], b).

Lemma items_open_app s l1 l2 : items_open s (l1 ++ l2) = s' ← items_open s l1; items_open s' l2.
Proof.
  revert s. induction l1 as [|i l1 IH]; intros s; [done|]. simpl.
  by destruct (item_open s i) as [s'|]; simpl.
Qed.

(** The translation of a conversation up to an item with these calls open. *)
Record opened (acc : list ChatMessage * list WireCall) (open : list string) (collecting : bool)
  : Prop := {
  op_calls : open_calls [] (flush_pending acc.1 acc.2) = Some open;
  op_pending : pending_ok acc;
  op_last : collecting = true → open ≠ [] → acc.2 ≠ [] ∨ ends_with_assistant acc.1 = true;
}.

Lemma open_assistant msgs content calls open :
  open_calls [] (msgs ++ [CMAssistant content calls]) = Some open →
  open_calls [] msgs = Some [] ∧ open = wc_id <$> calls.
Proof.
  rewrite open_calls_app. destruct (open_calls [] msgs) as [[|id o]|]; simpl; [|done..].
  by intros [= <-].
Qed.

Lemma push_call_opened acc open collecting call :
  opened acc open collecting → (collecting || is_nil open) = true →
  opened (push_call acc.1 acc.2 call) (open ++ [wc_id call]) true.
Proof.
  destruct acc as [out pending]. intros [Ho Hp Hl] Hc. simpl in *.
  destruct (push_call_events out pending call Hp) as [_ Hp'].
  assert (Hopen : open = [] ∨ pending ≠ [] ∨ ends_with_assistant out = true).
  { destruct open; [by left|right]. apply Hl; [by destruct collecting|done]. }
  unfold push_call, pending_ok, ends_with_assistant in *. simpl in *.
  destruct (last out) as [m|] eqn:E; [destruct m as [| |content calls|]|].
  3:{ destruct Hp as [->|]; [|done]. simpl in Ho. rewrite (last_split _ _ E) in Ho.
      apply open_assistant in Ho as [Ho ->]. split; simpl.
      - rewrite open_calls_app, Ho. simpl. by rewrite fmap_app.
      - done.
      - intros _ _. right. unfold ends_with_assistant. simpl. by rewrite last_snoc. }
  all: split; simpl; [|done|by intros _ _; left; destruct pending].
  all: assert (flush_pending out (pending ++ [call]) = out ++ [CMAssistant None (pending ++ [call])])
         as -> by (by destruct pending).
  all: rewrite open_calls_app; destruct pending as [|c pending]; simpl in Ho |- *.
  all: try (apply open_assistant in Ho as [-> ->]; simpl; by rewrite fmap_app).
  all: destruct Hopen as [->|[|]]; [|done..]; by rewrite Ho.
Qed.

Lemma message_opened acc open collecting msgs open' b :
  opened acc open collecting → open_calls open msgs = Some open' → (open' = [] ∨ b = false) →
  opened (flush_pending acc.1 acc.2 ++ msgs, []) open' b.
Proof.
  intros [Ho _ _] Hm Hb. split; simpl; [by rewrite open_calls_app, Ho|by left|].
  destruct Hb as [->| ->]; done.
Qed.

Lemma chat_step_opened acc open collecting item open' collecting' :
  opened acc open collecting → item_open (open, collecting) item = Some (open', collecting') →
  opened (chat_step acc item) open' collecting'.
Proof.
  destruct acc as [out pending]. intros H. destruct item as [content|content a|content|i n a|i c]; simpl.
  - destruct open; [|done]. unfold emit_user_or_hoist. destruct (hoisted content); [|done].
    intros [= <- <-]. apply (message_opened _ _ _ _ _ _ H); [|by left]. by destruct (user_parts content).
  - destruct open; [|done]. destruct (nested_calls content) eqn:E; [|done]. intros [= <- <-].
    apply (message_opened _ _ _ _ _ _ H); [|by left]. simpl. by rewrite E.
  - destruct open; [|done]. intros [= <- <-]. apply (message_opened _ _ _ _ _ _ H); [done|by left].
  - destruct (collecting || is_nil open) eqn:E; [|done]. intros [= <- <-].
    by apply (push_call_opened _ _ _ (openai_tool_call i n a) H).
  - destruct open as [|id open]; [done|]. destruct (String.eqb_spec i id) as [->|]; [|done].
    intros [= <- <-]. apply (message_opened _ _ _ _ _ _ H); [|by right]. simpl. by rewrite String.eqb_refl.
Qed.

Lemma chat_steps_opened items acc open collecting open' collecting' :
  opened acc open collecting → items_open (open, collecting) items = Some (open', collecting') →
  opened (fold_left chat_step items acc) open' collecting'.
Proof.
  revert acc open collecting. induction items as [|item items IH]; intros acc open collecting H.
  - by intros [= <- <-].
  - cbn [items_open fold_left]. destruct (item_open (open, collecting) item) as [[o b]|] eqn:E; [|done]. simpl.
    apply IH. by eapply chat_step_opened.
Qed.

Lemma messages_open items open collecting :
  items_open ([], true) items = Some (open, collecting) →
  open_calls [] (to_chat_messages items) = Some open.
Proof.
  intros H. assert (opened ([], []) [] true) as H0 by (by split; [|left|]). 
  destruct (chat_steps_opened _ _ _ _ _ _ H0 H) as [Ho _ _]. unfold to_chat_messages.
  by destruct (fold_left chat_step items ([], [])).
Qed.

(** A conversation whose calls are answered translates to one the API takes. *)
Lemma paired_answered items : paired items → answered (to_chat_messages items).
Proof. intros [b H]. by eapply messages_open. Qed.
End Rule.
