(* ===== verification/ContentBlocks.v ===== *)
(** Streams of content blocks, as Anthropic's Messages API and Bedrock's Converse
    API send them: a block is started under an index, and its deltas name that
    index.  Both translators (providers-anthropic/src/stream.rs,
    providers-bedrock/src/stream.rs) keep the same state for them, [Blocks], and
    change it the same way; the files Anthropic and Bedrock build their
    translators on it.  [blocks_exact] reads off the final channels what a
    sequence of block events emits. *)

From S2P Require Import Prelude Json Items ModelTurn LiteLlm.

(** The tool that carries a structured output. *)
Definition SYNTHESIZED_TOOL_NAME : string := "__paigasus_structured_output__".

Inductive BlockState : Type :=
| BText
| BThinking
| BToolUse (call_id name : string) (name_emitted : bool).

(** [synthesized] is the index of the synthesized tool's block. *)
Record Blocks := mkBlocks {
  blocks : gmap Z BlockState;
  synthesizing : bool;
  synthesized : option Z;
  other_tool_fired : bool;
}.

Definition Blocks_new (synthesizing : bool) : Blocks := mkBlocks ∅ synthesizing None false.

Definition start_block (index : Z) (s : BlockState) (b : Blocks) : Blocks :=
  mkBlocks (<[index := s]> (blocks b)) (synthesizing b) (synthesized b) (other_tool_fired b).

Definition start_tool (index : Z) (id name : string) (b : Blocks) : Blocks :=
  let b1 := if synthesizing b && String.eqb name SYNTHESIZED_TOOL_NAME
            then mkBlocks (blocks b) (synthesizing b) (Some index) (other_tool_fired b)
            else mkBlocks (blocks b) (synthesizing b) (synthesized b) true in
  start_block index (BToolUse id name false) b1.

(** [Some(index) == self.synthesized_tool_index]. *)
Definition is_synth (s : option Z) (index : Z) : bool :=
  match s with Some i => Z.eqb i index | None => false end.

(** A piece of tool input: text of the structured output, or a delta of a call;
    [None] when no tool was started under the index. *)
Definition input_delta (index : Z) (partial_json : string) (b : Blocks) : option (Blocks * ModelEvent) :=
  if is_synth (synthesized b) index then Some (b, METokenDelta partial_json)
  else match blocks b !! index with
       | Some (BToolUse call_id name name_emitted) =>
           Some (start_block index (BToolUse call_id name true) b,
                 METoolCallDelta call_id (if name_emitted then None else Some name) partial_json)
       | _ => None
       end.

(** ** Sequences of block events *)

Inductive BlockEvent : Type :=
| StartTool (index : Z) (id name : string)
| StartOther (index : Z) (thinking : bool)
| InputDelta (index : Z) (partial_json : string)
| TextDelta (text : string)
| ThinkingDelta (thinking : string).

Definition other_block (thinking : bool) : BlockState := if thinking then BThinking else BText.

Definition block_step (b : Blocks) (ev : BlockEvent) : option (Blocks * list ModelEvent) :=
  match ev with
  | StartTool index id name => Some (start_tool index id name b, [])
  | StartOther index thinking => Some (start_block index (other_block thinking) b, [])
  | InputDelta index json => '(b', out) ← input_delta index json b; Some (b', [out])
  | TextDelta text => Some (b, [METokenDelta text])
  | ThinkingDelta t => Some (b, [MEReasoningDelta t])
  end.

Fixpoint block_run (b : Blocks) (evs : list BlockEvent) : option (Blocks * list ModelEvent) :=
  match evs with
  | [] => Some (b, [])
  | ev :: evs' =>
      '(b1, out1) ← block_step b ev; '(b2, out2) ← block_run b1 evs'; Some (b2, out1 ++ out2)
  end.

Lemma block_run_app b e1 e2 :
  block_run b (e1 ++ e2)
  = '(b1, o1) ← block_run b e1; '(b2, o2) ← block_run b1 e2; Some (b2, o1 ++ o2).
Proof.
  revert b. induction e1 as [|ev e1 IH]; intros b; simpl; [by destruct (block_run b e2) as [[]|]|].
  destruct (block_step b ev) as [[b1 o1]|]; [|done]. simpl. rewrite IH.
  destruct (block_run b1 e1) as [[b2 o2]|]; [|done]. simpl.
  destruct (block_run b2 e2) as [[b3 o3]|]; [|done]. simpl. by rewrite app_assoc.
Qed.

(** ** What a sequence says *)

(** The started blocks, and the tools among them. *)
Definition started (evs : list BlockEvent) : list Z :=
  omap (λ ev, match ev with StartTool i _ _ | StartOther i _ => Some i | _ => None end) evs.
Definition started_tools (evs : list BlockEvent) : list (Z * (string * string)) :=
  omap (λ ev, match ev with StartTool i id name => Some (i, (id, name)) | _ => None end) evs.
Definition inputs (i : Z) (evs : list BlockEvent) : list string :=
  omap (λ ev, match ev with InputDelta j s => if Z.eqb i j then Some s else None | _ => None end) evs.

(** The synthesized tools. *)
Definition is_synthesized (synthesizing : bool) (name : string) : bool :=
  synthesizing && String.eqb name SYNTHESIZED_TOOL_NAME.

(** The text: the text blocks, and the input of the synthesized tool [s]. *)
Definition block_text (s : option Z) (evs : list BlockEvent) : list string :=
  omap (λ ev, match ev with
              | TextDelta t => Some t
              | InputDelta j t => if is_synth s j then Some t else None
              | _ => None
              end) evs.
Definition block_reasoning (evs : list BlockEvent) : list string :=
  omap (λ ev, match ev with ThinkingDelta t => Some t | _ => None end) evs.

(** The deltas of one call: its name first. *)
Definition named_first (name : string) (l : list string) : list (option string * string) :=
  match l with [] => [] | x :: l' => (Some name, x) :: ((λ y, (None, y)) <$> l') end.

Lemma named_first_snoc name l x :
  named_first name (l ++ [x])
  = named_first name l ++ [(if is_nil l then Some name else None, x)].
Proof. destruct l as [|y l]; simpl; [done|]. by rewrite fmap_app. Qed.

Lemma named_first_spec name l :
  call_spec (named_first name l)
  = match l with [] => None | _ => Some (mkToolCallAccum (Some name) (concat_all l)) end.
Proof.
  destruct l as [|x l]; [done|]. unfold call_spec, first_name. simpl. do 3 f_equal.
  rewrite <- list_fmap_compose. induction l as [|y l IH]; simpl; [done|]. by f_equal.
Qed.

(** Each block is started once, each tool has an id of its own, and there is one
    structured output at most. *)
Record blocks_conform (synth : bool) (evs : list BlockEvent) : Prop := {
  bc_started : NoDup (started evs);
  bc_ids : ∀ i j id n m, (i, (id, n)) ∈ started_tools evs → (j, (id, m)) ∈ started_tools evs → i = j;
  bc_synth : ∀ i j id id' n m, (i, (id, n)) ∈ started_tools evs → (j, (id', m)) ∈ started_tools evs →
    is_synthesized synth n = true → is_synthesized synth m = true → i = j;
}.

Lemma started_tools_in evs i t : (i, t) ∈ started_tools evs → i ∈ started evs.
Proof.
  unfold started_tools, started. intros H. apply list_elem_of_omap in H as (ev & Hev & He).
  apply list_elem_of_omap. exists ev. split; [done|]. destruct ev; naive_solver.
Qed.

Lemma started_app e1 e2 : started (e1 ++ e2) = started e1 ++ started e2.
Proof. apply omap_app. Qed.
Lemma started_tools_app e1 e2 : started_tools (e1 ++ e2) = started_tools e1 ++ started_tools e2.
Proof. apply omap_app. Qed.
Lemma inputs_app i e1 e2 : inputs i (e1 ++ e2) = inputs i e1 ++ inputs i e2.
Proof. apply omap_app. Qed.
Lemma block_text_app s e1 e2 : block_text s (e1 ++ e2) = block_text s e1 ++ block_text s e2.
Proof. apply omap_app. Qed.
Lemma block_reasoning_app e1 e2 : block_reasoning (e1 ++ e2) = block_reasoning e1 ++ block_reasoning e2.
Proof. apply omap_app. Qed.

Lemma conform_prefix synth e1 e2 : blocks_conform synth (e1 ++ e2) → blocks_conform synth e1.
Proof.
  intros [H1 H2 H3]. rewrite started_app in H1. rewrite started_tools_app in H2, H3. split.
  - by apply NoDup_app in H1 as (? & _).
  - intros i j id n m Hi Hj. eapply H2; apply elem_of_app; left; eassumption.
  - intros i j id id' n m Hi Hj. eapply H3; apply elem_of_app; left; eassumption.
Qed.

(** The block state and the events after a sequence. *)
Record blocks_after (synth : bool) (evs : list BlockEvent) (b : Blocks) (out : list ModelEvent) : Prop := {
  ba_synth : synthesizing b = synth;
  ba_fired : other_tool_fired b = existsb (λ t, negb (is_synthesized synth t.2.2)) (started_tools evs);
  ba_index : ∀ i, synthesized b = Some i ↔
    ∃ id n, (i, (id, n)) ∈ started_tools evs ∧ is_synthesized synth n = true;
  ba_block : ∀ i id n, (i, (id, n)) ∈ started_tools evs → is_synthesized synth n = false →
    blocks b !! i = Some (BToolUse id n (negb (is_nil (inputs i evs))))
    ∧ call_deltas id out = named_first n (inputs i evs);
  ba_known : ∀ i t, blocks b !! i = Some t → i ∈ started evs
    ∧ ∀ id n e, t = BToolUse id n e → (i, (id, n)) ∈ started_tools evs;
  ba_orphan : ∀ i, i ∉ started evs → inputs i evs = [];
  ba_none : ∀ c, (∀ i n, (i, (c, n)) ∈ started_tools evs → is_synthesized synth n = true) →
    call_deltas c out = [];
  ba_text : text_deltas out = block_text (synthesized b) evs;
  ba_reasoning : reasoning_deltas out = block_reasoning evs;
  ba_open : usage_events out = [] ∧ finish_events out = [];
}.

Lemma blocks_after_new synth : blocks_after synth [] (Blocks_new synth) [].
Proof.
  split; simpl; try done; try (intros *; by rewrite lookup_empty).
  - intros i. split; [done|]. by intros (id & n & H%elem_of_nil & _).
  - by intros i id n H%elem_of_nil.
Qed.

(** An index that takes no input so far can become the structured output. *)
Lemma block_text_fresh i evs : inputs i evs = [] → block_text (Some i) evs = block_text None evs.
Proof.
  unfold inputs, block_text. induction evs as [|ev evs IH]; [done|]. simpl.
  destruct ev; try exact IH.
  - destruct (Z.eqb i index); [done|exact IH].
  - intros H. f_equal. by apply IH.
Qed.

Lemma quiet_step synth evs ev b out o :
  started [ev] = [] → started_tools [ev] = [] → (∀ i, inputs i [ev] = []) →
  (∀ c, call_deltas c o = []) → text_deltas o = block_text (synthesized b) [ev] →
  reasoning_deltas o = block_reasoning [ev] → usage_events o = [] ∧ finish_events o = [] →
  blocks_after synth evs b out → blocks_after synth (evs ++ [ev]) b (out ++ o).
Proof.
  intros Hs Ht Hi Hc Htx Hr [Hu Hf] A. destruct A as [S F X B K O N T R [U V]].
  assert (∀ i, inputs i (evs ++ [ev]) = inputs i evs) as Ei by (intros; by rewrite inputs_app, Hi, app_nil_r).
  assert (∀ c, call_deltas c (out ++ o) = call_deltas c out) as Ec
    by (intros; by rewrite call_deltas_app, Hc, app_nil_r).
  assert (started_tools (evs ++ [ev]) = started_tools evs) as Et by (by rewrite started_tools_app, Ht, app_nil_r).
  assert (started (evs ++ [ev]) = started evs) as Es by (by rewrite started_app, Hs, app_nil_r).
  split; rewrite ?Et, ?Es; try done; try (intros *; rewrite ?Ei, ?Ec; auto; done).
  - unfold text_deltas in *. by rewrite omap_app, T, Htx, block_text_app.
  - unfold reasoning_deltas in *. by rewrite omap_app, R, Hr, block_reasoning_app.
  - unfold usage_events, finish_events in *. by rewrite !omap_app, U, V, Hu, Hf.
Qed.

(** Starting a block under a fresh index. *)
Lemma start_other_step synth evs i thinking b out :
  i ∉ started evs →
  blocks_after synth evs b out →
  blocks_after synth (evs ++ [StartOther i thinking]) (start_block i (other_block thinking) b) out.
Proof.
  intros Hi [S F X B K O N T R U].
  assert (started_tools (evs ++ [StartOther i thinking]) = started_tools evs) as Et
    by (by rewrite started_tools_app, app_nil_r).
  assert (∀ j, inputs j (evs ++ [StartOther i thinking]) = inputs j evs) as Ei by (intros; by rewrite inputs_app, app_nil_r).
  split; rewrite ?Et; try done; simpl.
  - intros j id n Hj Hn. rewrite Ei, lookup_insert_ne; [by apply B|].
    intros <-. by apply started_tools_in in Hj.
  - intros j t. rewrite started_app, elem_of_app. destruct (decide (i = j)) as [->|Hne].
    + rewrite lookup_insert_eq. intros [= <-]. split; [right; by left|]. by destruct thinking.
    + rewrite lookup_insert_ne by done. intros Hj. destruct (K j t Hj). split; [by left|done].
  - intros j. rewrite started_app, not_elem_of_app, Ei. intros [? _]. by apply O.
  - by rewrite block_text_app, app_nil_r.
  - by rewrite block_reasoning_app, app_nil_r.
Qed.

Lemma started_tools_keys evs : NoDup (started evs) → NoDup (started_tools evs).*1.
Proof.
  induction evs as [|ev evs IH]; [constructor|]. destruct ev; simpl; try exact IH.
  - intros [Hi Hn]%NoDup_cons. apply NoDup_cons. split; [|by apply IH].
    intros Hin. apply Hi. apply list_elem_of_fmap in Hin as ([j t] & -> & Hin). by eapply started_tools_in.
  - intros [_ Hn]%NoDup_cons. by apply IH.
Qed.

Lemma started_tools_unique evs i t t' :
  NoDup (started evs) → (i, t) ∈ started_tools evs → (i, t') ∈ started_tools evs → t = t'.
Proof.
  intros Hn%started_tools_keys. revert Hn. induction (started_tools evs) as [|[j x] l IH]; simpl.
  - by intros _ H%elem_of_nil.
  - intros [Hj Hn]%NoDup_cons.
    assert (∀ y, (i, y) ∈ l → i ≠ j) as Hne.
    { intros y Hy ->. apply Hj. apply list_elem_of_fmap. by exists (j, y). }
    intros [[= -> ->]|H]%elem_of_cons [[= Ht]|H']%elem_of_cons; subst; try done.
    + by destruct (Hne _ H').
    + by destruct (Hne _ H).
    + by apply IH.
Qed.

Lemma start_tool_step synth evs i id n b out :
  blocks_conform synth (evs ++ [StartTool i id n]) → blocks_after synth evs b out →
  blocks_after synth (evs ++ [StartTool i id n]) (start_tool i id n b) out.
Proof.
  intros [C1 C2 C3] [S F X B K O N T R U].
  assert (Hi : i ∉ started evs).
  { rewrite started_app in C1. apply NoDup_app in C1 as (_ & H & _). intros Hi. apply (H i Hi). by left. }
  assert (Hnew : (i, (id, n)) ∈ started_tools (evs ++ [StartTool i id n])).
  { rewrite started_tools_app. apply elem_of_app. right. by left. }
  assert (Hold : ∀ j t, (j, t) ∈ started_tools evs → (j, t) ∈ started_tools (evs ++ [StartTool i id n]) ∧ j ≠ i).
  { intros j t Hj. rewrite started_tools_app, elem_of_app. split; [by left|].
    intros ->. by apply started_tools_in in Hj. }
  assert (Hsplit : ∀ j t, (j, t) ∈ started_tools (evs ++ [StartTool i id n]) →
    (j, t) ∈ started_tools evs ∨ (j, t) = (i, (id, n))).
  { intros j t. rewrite started_tools_app, elem_of_app. simpl. rewrite list_elem_of_singleton. done. }
  assert (Ei : ∀ j, inputs j (evs ++ [StartTool i id n]) = inputs j evs) by (intros; by rewrite inputs_app, app_nil_r).
  assert (Hb : blocks (start_tool i id n b) = <[i := BToolUse id n false]> (blocks b)).
  { unfold start_tool. by destruct (synthesizing b && _). }
  assert (Hfresh : is_synthesized synth n = true → synthesized b = None).
  { intros Hn. destruct (synthesized b) as [k|] eqn:Ek; [|done].
    destruct (proj1 (X k) eq_refl) as (id' & n' & Hk & Hs). destruct (Hold _ _ Hk) as [Hk' Hne].
    by destruct (Hne (C3 _ _ _ _ _ _ Hk' Hnew Hs Hn)). }
  assert (Hsyn : synthesized (start_tool i id n b) = if is_synthesized synth n then Some i else synthesized b).
  { unfold start_tool, is_synthesized. rewrite S. by destruct (synth && _). }
  split; rewrite ?Hb, ?Hsyn.
  - unfold start_tool. by destruct (synthesizing b && _).
  - rewrite started_tools_app, existsb_app, <- F. unfold start_tool, is_synthesized. rewrite S. simpl.
    destruct (synth && _); simpl; by rewrite ?orb_false_r, ?orb_true_r.
  - intros j. destruct (is_synthesized synth n) eqn:En.
    + split; [intros [= <-]; by exists id, n|]. intros (id' & n' & Hj & Hs). f_equal.
      by apply (C3 _ _ _ _ _ _ Hnew Hj).
    + rewrite X. split; intros (id' & n' & Hj & Hs); exists id', n'; split; try done.
      * by apply Hold.
      * destruct (Hsplit _ _ Hj) as [Hj'|[= -> -> ->]]; [done|]. by rewrite Hs in En.
  - intros j id' n' Hj Hn. rewrite Ei. destruct (Hsplit _ _ Hj) as [Ho|[= -> -> ->]].
    + destruct (Hold _ _ Ho) as [_ Hne]. rewrite lookup_insert_ne by (by intros ->). by apply B.
    + rewrite lookup_insert_eq, (O i Hi). split; [done|]. apply N. intros j m Hjm.
      destruct (Hold _ _ Hjm) as [Hjm' Hne]. by destruct (Hne (C2 _ _ _ _ _ Hjm' Hnew)).
  - intros j t. rewrite started_app, elem_of_app. destruct (decide (i = j)) as [->|Hne].
    + rewrite lookup_insert_eq. intros [= <-]. split; [right; by left|]. by intros id' n' e [= <- <- <-].
    + rewrite lookup_insert_ne by done. intros Hj. destruct (K j t Hj) as [K1 K2]. split; [by left|].
      intros id' n' e ->. by eapply Hold, K2.
  - intros j. rewrite started_app, not_elem_of_app, Ei. intros [? _]. by apply O.
  - intros c Hc. apply N. intros j m Hj. apply (Hc j). by apply Hold.
  - rewrite block_text_app, app_nil_r. destruct (is_synthesized synth n) eqn:En; [|done].
    rewrite T, Hfresh by done. by rewrite block_text_fresh by by apply O.
  - by rewrite block_reasoning_app, app_nil_r.
  - done.
Qed.

Lemma input_step synth evs i json b out b' o :
  blocks_conform synth (evs ++ [InputDelta i json]) → blocks_after synth evs b out →
  input_delta i json b = Some (b', o) →
  blocks_after synth (evs ++ [InputDelta i json]) b' (out ++ [o]).
Proof.
  intros C A. apply conform_prefix in C as [C1 C2 C3]. pose proof A as [S F X B K O N T R [U V]].
  assert (Et : started_tools (evs ++ [InputDelta i json]) = started_tools evs)
    by (by rewrite started_tools_app, app_nil_r).
  assert (Es : started (evs ++ [InputDelta i json]) = started evs) by (by rewrite started_app, app_nil_r).
  assert (Ei : ∀ j, inputs j (evs ++ [InputDelta i json]) = inputs j evs ++ (if Z.eqb j i then [json] else [])).
  { intros j. rewrite inputs_app. simpl. by destruct (Z.eqb j i). }
  assert (Eb : ∀ s, block_text s (evs ++ [InputDelta i json]) = block_text s evs ++ (if is_synth s i then [json] else [])).
  { intros s. rewrite block_text_app. simpl. by destruct (is_synth s i). }
  unfold input_delta. destruct (is_synth (synthesized b) i) eqn:Ex.
  - intros [= <- <-]. assert (synthesized b = Some i) as Hx.
    { unfold is_synth in Ex. destruct (synthesized b); [|done]. apply Z.eqb_eq in Ex. by subst. }
    destruct (proj1 (X i) Hx) as (id & n & Hin & Hn).
    assert (Hne : ∀ j id' n', (j, (id', n')) ∈ started_tools evs → is_synthesized synth n' = false → j ≠ i).
    { intros j id' n' Hj Hf ->. pose proof (started_tools_unique _ _ _ _ C1 Hj Hin) as [= -> ->]. by rewrite Hn in Hf. }
    split; rewrite ?Et, ?Es; try done.
    + intros j id' n' Hj Hf. rewrite Ei, (proj2 (Z.eqb_neq j i)) by by eapply Hne.
      rewrite call_deltas_app, !app_nil_r. by apply B.
    + intros j Hj. rewrite Ei, O by done. destruct (Z.eqb_spec j i) as [->|]; [|done].
      by apply started_tools_in in Hin.
    + intros c Hc. by rewrite call_deltas_app, N, app_nil_r.
    + unfold text_deltas in *. by rewrite omap_app, T, Eb, Ex.
    + unfold reasoning_deltas in *. by rewrite omap_app, R, block_reasoning_app.
    + unfold usage_events, finish_events in *. by rewrite !omap_app, U, V.
  - destruct (blocks b !! i) as [[| |cid n e]|] eqn:Ebi; try done. intros [= <- <-].
    destruct (K _ _ Ebi) as [Hst Hin%(λ H, H cid n e eq_refl)].
    assert (Hn : is_synthesized synth n = false).
    { destruct (is_synthesized synth n) eqn:En; [|done]. unfold is_synth in Ex.
      rewrite (proj2 (X i)) in Ex by by exists cid, n. by rewrite Z.eqb_refl in Ex. }
    destruct (B i cid n Hin Hn) as [Hbl Hcd]. rewrite Ebi in Hbl. injection Hbl as He.
    split; rewrite ?Et, ?Es; try done.
    + intros j id' n' Hj Hf. rewrite Ei, call_deltas_app. simpl.
      destruct (Z.eqb_spec j i) as [->|Hne].
      * pose proof (started_tools_unique _ _ _ _ C1 Hj Hin) as [= -> ->].
        rewrite lookup_insert_eq, String.eqb_refl, Hcd, named_first_snoc, He. split.
        -- by destruct (inputs i evs).
        -- by destruct (inputs i evs).
      * rewrite lookup_insert_ne by done. destruct (String.eqb_spec id' cid) as [->|].
        -- by destruct (Hne (C2 _ _ _ _ _ Hj Hin)).
        -- rewrite !app_nil_r. by apply B.
    + simpl. intros j t. destruct (decide (i = j)) as [->|Hne].
      * rewrite lookup_insert_eq. intros [= <-]. split; [done|]. by intros ??? [= <- <- <-].
      * rewrite lookup_insert_ne by done. apply K.
    + intros j Hj. rewrite Ei, O by done. by destruct (Z.eqb_spec j i) as [->|].
    + intros c Hc. rewrite call_deltas_app, N by done. simpl.
      destruct (String.eqb_spec c cid) as [->|]; [|done]. rewrite (Hc i n Hin) in Hn. done.
    + unfold text_deltas in *. simpl. by rewrite omap_app, T, Eb, Ex.
    + unfold reasoning_deltas in *. by rewrite omap_app, R, block_reasoning_app.
    + unfold usage_events, finish_events in *. by rewrite !omap_app, U, V.
Qed.

(** What a sequence of block events leaves and emits. *)
Lemma block_run_after synth evs b out :
  blocks_conform synth evs → block_run (Blocks_new synth) evs = Some (b, out) → blocks_after synth evs b out.
Proof.
  revert b out. induction evs as [|ev evs IH] using rev_ind; intros b out C.
  - intros [= <- <-]. apply blocks_after_new.
  - rewrite block_run_app. destruct (block_run _ evs) as [[b1 o1]|]; [|done]. simpl.
    pose proof (IH b1 o1 (conform_prefix _ _ _ C) eq_refl) as A.
    destruct (block_step b1 ev) as [[b2 o2]|] eqn:E; [|done]. simpl. rewrite app_nil_r. intros [= <- <-].
    assert (Hfresh : ∀ i, started [ev] = [i] → i ∉ started evs).
    { intros i Hi. destruct C as [C _ _]. rewrite started_app, Hi in C. apply NoDup_app in C as (_ & H & _).
      intros Hin. apply (H i Hin). by left. }
    destruct ev as [i id n|i th|i json|t|t]; simpl in E.
    + injection E as <- <-. rewrite app_nil_r. by apply start_tool_step.
    + injection E as <- <-. rewrite app_nil_r. apply start_other_step; [by apply Hfresh|done].
    + destruct (input_delta i json b1) as [[b' o]|] eqn:Ei; [|done]. injection E as <- <-. by eapply input_step.
    + injection E as <- <-. by apply quiet_step.
    + injection E as <- <-. by apply quiet_step.
Qed.

(** The calls of a sequence: the tools that are not the structured output and
    have taken input. *)
Definition calls_read (synth : bool) (evs : list BlockEvent) (m : list (string * ToolCallAccum)) : Prop :=
  ∀ c a, btree_get c m = Some a ↔
    ∃ i n, (i, (c, n)) ∈ started_tools evs ∧ is_synthesized synth n = false ∧ inputs i evs ≠ []
      ∧ a = mkToolCallAccum (Some n) (concat_all (inputs i evs)).

Lemma blocks_exact synth evs b out agent pre post :
  blocks_conform synth evs → block_run (Blocks_new synth) evs = Some (b, out) →
  (∀ c, call_deltas c pre = []) → (∀ c, call_deltas c post = []) →
  calls_read synth evs (tool_accum (observe_all agent (pre ++ out ++ post))).
Proof.
  intros C H Hpre Hpost. pose proof (block_run_after _ _ _ _ C H) as A.
  destruct (observe_all_spec agent (pre ++ out ++ post)) as [_ _ _ _ Hc _ _].
  intros c a. rewrite Hc, !call_deltas_app, Hpre, Hpost, app_nil_r. simpl. split.
  - intros Ha. destruct (decide (Exists (λ t : Z * (string * string), t.2.1 = c ∧ is_synthesized synth t.2.2 = false)
      (started_tools evs))) as [He|Hn].
    + apply Exists_exists in He as ([i [id n]] & Hin & Hid & Hs). simpl in *. subst id.
      destruct (ba_block _ _ _ _ A i c n Hin Hs) as [_ Hd]. rewrite Hd, named_first_spec in Ha.
      exists i, n. destruct (inputs i evs) as [|x l]; [done|]. split_and!; [done..|congruence].
    + rewrite (ba_none _ _ _ _ A) in Ha; [done|]. intros i n Hin.
      destruct (is_synthesized synth n) eqn:En; [done|]. exfalso. apply Hn, Exists_exists. by exists (i, (c, n)).
  - intros (i & n & Hin & Hs & Hne & ->). destruct (ba_block _ _ _ _ A i c n Hin Hs) as [_ ->].
    rewrite named_first_spec. by destruct (inputs i evs).
Qed.

(** ** The turn read from a sequence *)

(** The structured output's block. *)
Definition synth_index (synth : bool) (evs : list BlockEvent) : option Z :=
  find_map (λ t, if is_synthesized synth t.2.2 then Some t.1 else None) (started_tools evs).

Lemma synthesized_index synth evs b out : blocks_after synth evs b out → synthesized b = synth_index synth evs.
Proof.
  intros A. unfold synth_index. destruct (find_map _ _) as [i|] eqn:E.
  - apply find_map_Some in E as (l1 & [j [id n]] & l2 & El & Hs & _). simpl in Hs.
    destruct (is_synthesized synth n) eqn:En; [|done]. injection Hs as ->.
    apply (ba_index _ _ _ _ A). exists id, n. rewrite El. split; [set_solver|done].
  - destruct (synthesized b) as [i|] eqn:Eb; [|done].
    apply (ba_index _ _ _ _ A) in Eb as (id & n & Hin & Hn).
    apply find_map_None in E. rewrite Forall_forall in E. specialize (E _ Hin). simpl in E. by rewrite Hn in E.
Qed.

(** A tool other than the structured output was started. *)
Definition real_tool (synth : bool) (evs : list BlockEvent) : bool :=
  existsb (λ t, negb (is_synthesized synth t.2.2)) (started_tools evs).

(** Input comes for tools that were started. *)
Definition inputs_follow (evs : list BlockEvent) : Prop :=
  ∀ pre i json post, evs = pre ++ InputDelta i json :: post → i ∈ (started_tools pre).*1.

Lemma input_delta_total synth evs i json b out :
  blocks_after synth evs b out → i ∈ (started_tools evs).*1 → is_Some (input_delta i json b).
Proof.
  intros A Hi. apply list_elem_of_fmap in Hi as ([j [id n]] & -> & Hin). simpl. unfold input_delta.
  destruct (is_synth (synthesized b) j) eqn:E; [done|]. destruct (is_synthesized synth n) eqn:En.
  - unfold is_synth in E. rewrite (proj2 (ba_index _ _ _ _ A j)) in E by by exists id, n.
    by rewrite Z.eqb_refl in E.
  - by rewrite (proj1 (ba_block _ _ _ _ A j id n Hin En)).
Qed.

Lemma block_run_total synth evs :
  blocks_conform synth evs → inputs_follow evs →
  ∃ b out, block_run (Blocks_new synth) evs = Some (b, out) ∧ blocks_after synth evs b out.
Proof.
  induction evs as [|ev evs IH] using rev_ind; intros C F.
  - exists (Blocks_new synth), []. split; [done|apply blocks_after_new].
  - destruct IH as (b & out & E & A); [by eapply conform_prefix| |].
    { intros pre i json post ->. eapply (F pre i json (post ++ [ev])). by rewrite <- app_assoc. }
    assert (is_Some (block_step b ev)) as [[b' o] Es].
    { destruct ev; try done. simpl.
      destruct (input_delta_total _ _ index partial_json _ _ A (F evs index partial_json [] eq_refl)) as [[] ->]. done. }
    exists b', (out ++ o). assert (block_run (Blocks_new synth) (evs ++ [ev]) = Some (b', out ++ o)) as Er.
    { rewrite block_run_app, E. simpl. rewrite Es. simpl. by rewrite app_nil_r. }
    split; [done|]. by apply block_run_after.
Qed.

(** The content of a turn, read from its blocks. *)
Record reads_blocks (synth : bool) (evs : list BlockEvent) (acc : ModelTurnAccumulator) : Prop := {
  rb_text : text acc = concat_all (block_text (synth_index synth evs) evs);
  rb_reasoning : reasoning acc = concat_all (block_reasoning evs);
  rb_calls : calls_read synth evs (tool_accum acc);
}.

(** Usage and the finish, which the blocks do not emit. *)
Definition is_closing (ev : ModelEvent) : bool :=
  match ev with MEUsage _ _ _ _ | MEFinish _ => true | _ => false end.

Lemma closing_channels evs :
  Forall (λ ev, is_closing ev = true) evs →
  text_deltas evs = [] ∧ reasoning_deltas evs = [] ∧ ∀ c, call_deltas c evs = [].
Proof.
  induction 1 as [|ev evs Hev _ (T & R & C)]; [done|]. by destruct ev.
Qed.

Lemma blocks_turn synth evs b out agent pre post :
  blocks_conform synth evs → block_run (Blocks_new synth) evs = Some (b, out) →
  Forall (λ ev, is_closing ev = true) pre → Forall (λ ev, is_closing ev = true) post →
  let acc := observe_all agent (pre ++ out ++ post) in
  reads_blocks synth evs acc
  ∧ latest_usage acc = last (usage_events (pre ++ post))
  ∧ finish_reason acc = default Stop (last (finish_events (pre ++ post))).
Proof.
  intros C H Hpre Hpost acc. pose proof (block_run_after _ _ _ _ C H) as A.
  apply closing_channels in Hpre as (T1 & R1 & C1), Hpost as (T2 & R2 & C2).
  destruct (observe_all_spec agent (pre ++ out ++ post)) as [_ At Ar _ _ Au Af].
  destruct (ba_open _ _ _ _ A) as [U F].
  unfold acc. split_and!; [split| |].
  - rewrite At. unfold text_deltas in *. rewrite !omap_app, T1, T2, app_nil_r. simpl.
    by rewrite <- (synthesized_index _ _ _ _ A), <- (ba_text _ _ _ _ A).
  - rewrite Ar. unfold reasoning_deltas in *. rewrite !omap_app, R1, R2, app_nil_r. simpl.
    by rewrite <- (ba_reasoning _ _ _ _ A).
  - by eapply blocks_exact.
  - rewrite Au. unfold usage_events in *. by rewrite !omap_app, U.
  - rewrite Af. unfold finish_events in *. by rewrite !omap_app, F.
Qed.

(** The terminal item of a stream: a finish, an error, or none. *)
Definition finishes (r : option (result ModelEvent ModelError)) : list ModelEvent :=
  match r with Some (Ok ev) => [ev] | _ => [] end.
Definition failures (r : option (result ModelEvent ModelError)) : list (result ModelEvent ModelError) :=
  match r with Some (Err e) => [Err e] | _ => [] end.

Lemma terminal_split r : option_list r = (Ok <$> finishes r) ++ failures r.
Proof. by destruct r as [[]|]. Qed.
