(* ===== verification/Anthropic.v ===== *)
(** The response side of the Anthropic provider
    (paigasus-helikon-providers-anthropic/src): the events of the Messages API
    (sse.rs), their translation into model events ([MessageTranslator] of
    stream.rs), the classification of failures (error.rs) and the streaming loop
    of [AnthropicModel::invoke] (model.rs).  The block state is [Blocks] of
    ContentBlocks, and the content of a turn is read off with its lemmas.
    [retry-after] is parsed as LiteLLM's provider does ([parse_retry_after_ms]).

    Deserializing an event is the parameter [parse_event]. *)

From S2P Require Import Prelude Json Items Redaction ModelTurn LiteLlm ContentBlocks.

(** ** Failures *)

Definition map_error_type (status : option Z) (error_type message : string) (retry_after_ms : option Z)
  : ModelError :=
  if String.eqb error_type "overloaded_error" then Unavailable
  else if String.eqb error_type "rate_limit_error" then RateLimited retry_after_ms
  else if String.eqb error_type "authentication_error" || String.eqb error_type "permission_error"
  then Refused message
  else if String.eqb error_type "invalid_request_error" && contains_str message "prompt is too long"
  then ContextLengthExceeded
  else match status with
       | Some s =>
           if ((500 <=? s)%Z && (s <=? 504)%Z) || Z.eqb s 529 then Unavailable
           else ModelOther ("anthropic " +:+ error_type +:+ ": " +:+ message)
       | None => Transport message
       end.

(** ** Events *)

Inductive ContentBlockHead : Type :=
| HeadText
| HeadThinking
| HeadToolUse (id name : string).

Inductive ContentBlockDelta : Type :=
| DeltaText (text : string)
| DeltaThinking (thinking : string)
| DeltaSignature (signature : string)
| DeltaInputJson (partial_json : string).

Record MessageStartUsage := mkMessageStartUsage {
  su_input_tokens : Z;
  su_cache_read_input_tokens : option Z;
}.

Inductive AnthropicEvent : Type :=
| MessageStart (usage : MessageStartUsage)
| ContentBlockStart (index : Z) (content_block : ContentBlockHead)
| ContentBlockDeltaEvent (index : Z) (delta : ContentBlockDelta)
| ContentBlockStop (index : Z)
| MessageDelta (stop_reason : option string) (output_tokens : option Z)
| MessageStop
| Ping
| ErrorEvent (ty message : string).

(** ** The translator *)

Record MessageTranslator := mkMessageTranslator {
  tr_blocks : Blocks;
  last_input_tokens : Z;
  last_cached_input_tokens : option Z;
  stop_reason : option string;
  terminal_emitted : bool;
}.

Definition MessageTranslator_new (synthesizing_output : bool) : MessageTranslator :=
  mkMessageTranslator (Blocks_new synthesizing_output) 0 None None false.

Definition set_blocks (b : Blocks) (t : MessageTranslator) : MessageTranslator :=
  mkMessageTranslator b (last_input_tokens t) (last_cached_input_tokens t) (stop_reason t) (terminal_emitted t).

Definition finish_or_error (t : MessageTranslator) (reason : string) : result ModelEvent ModelError :=
  if String.eqb reason "end_turn" || String.eqb reason "stop_sequence" then Ok (MEFinish Stop)
  else if String.eqb reason "max_tokens" then Ok (MEFinish Length)
  else if String.eqb reason "tool_use" then
    if synthesizing (tr_blocks t) && negb (other_tool_fired (tr_blocks t)) then Ok (MEFinish Stop)
    else if synthesizing (tr_blocks t) && other_tool_fired (tr_blocks t) then
      Err (ModelOther "structured output: model fired both a real tool and the synthesized output tool")
    else Ok (MEFinish ToolCalls)
  else if String.eqb reason "refusal" then Err (Refused "model refused")
  else Ok (MEFinish (FinishOther reason)).

(** The usage reported when a message starts, and when its output is counted. *)
Definition start_usage (u : MessageStartUsage) : ModelEvent :=
  MEUsage (su_input_tokens u) 0 (su_cache_read_input_tokens u) None.
Definition delta_usage (t : MessageTranslator) (output_tokens : Z) : ModelEvent :=
  MEUsage (last_input_tokens t) output_tokens (last_cached_input_tokens t) None.

Definition consume (t : MessageTranslator) (event : AnthropicEvent)
  : result (MessageTranslator * list (result ModelEvent ModelError)) ModelError :=
  match event with
  | MessageStart u =>
      Ok (mkMessageTranslator (tr_blocks t) (su_input_tokens u) (su_cache_read_input_tokens u)
            (stop_reason t) (terminal_emitted t),
          [Ok (start_usage u)])
  | ContentBlockStart index HeadText => Ok (set_blocks (start_block index BText (tr_blocks t)) t, [])
  | ContentBlockStart index HeadThinking => Ok (set_blocks (start_block index BThinking (tr_blocks t)) t, [])
  | ContentBlockStart index (HeadToolUse id name) =>
      Ok (set_blocks (start_tool index id name (tr_blocks t)) t, [])
  | ContentBlockDeltaEvent _ (DeltaText text) => Ok (t, [Ok (METokenDelta text)])
  | ContentBlockDeltaEvent _ (DeltaThinking thinking) => Ok (t, [Ok (MEReasoningDelta thinking)])
  | ContentBlockDeltaEvent _ (DeltaSignature _) => Ok (t, [])
  | ContentBlockDeltaEvent index (DeltaInputJson partial_json) =>
      match input_delta index partial_json (tr_blocks t) with
      | Some (b, ev) => Ok (set_blocks b t, [Ok ev])
      | None =>
          Err (Transport ("anthropic stream: input_json_delta at index " +:+ show_Z index +:+
                          " has no preceding tool_use content_block_start"))
      end
  | ContentBlockStop _ | Ping => Ok (t, [])
  | MessageDelta reason output_tokens =>
      Ok (mkMessageTranslator (tr_blocks t) (last_input_tokens t) (last_cached_input_tokens t)
            (match reason with Some r => Some r | None => stop_reason t end) (terminal_emitted t),
          if terminal_emitted t then []
          else (λ n, Ok (delta_usage t n)) <$> option_list output_tokens)
  | MessageStop =>
      match stop_reason t with
      | Some reason =>
          let t' := mkMessageTranslator (tr_blocks t) (last_input_tokens t) (last_cached_input_tokens t) None true in
          Ok (t', if terminal_emitted t then [] else [finish_or_error t' reason])
      | None => Ok (t, [])
      end
  | ErrorEvent ty message => Err (map_error_type None ty message None)
  end.

(** The flush at a clean end of the body. *)
Definition finish (t : MessageTranslator) : option (result ModelEvent ModelError) :=
  if terminal_emitted t then None
  else reason ← stop_reason t; Some (finish_or_error t reason).

(** ** The streaming loop *)

Section Stream.
Context `{J : SerdeJson}.
Variable parse_event : string → result AnthropicEvent string.

(** A terminal event does not end the loop; an error of [consume] does. *)
Fixpoint stream_loop (t : MessageTranslator) (polls : list Polled) : list (result ModelEvent ModelError) :=
  match polls with
  | [] => option_list (finish t)
  | PollCancelled :: _ => []
  | PollErr m :: _ => [Err (Transport m)]
  | PollData data :: polls' =>
      match parse_event data with
      | Err _ => stream_loop t polls'
      | Ok event =>
          match consume t event with
          | Err e => [Err e]
          | Ok (t', events) => events ++ stream_loop t' polls'
          end
      end
  end.

(** The type and the message of an error body; a body that is not JSON is the
    message. *)
Definition error_of_body (body : string) : string * string :=
  match from_str body with
  | Ok v =>
      let field k := default "" (e ← get v "error"; x ← get e k; as_str x) in
      (field "type", field "message")
  | Err _ => ("", body)
  end.

Record AnthropicResponse := mkAnthropicResponse {
  a_status : Z;
  a_retry_after : option string;
  a_body : string;
  a_polls : list Polled;
}.

Inductive AnthropicSent : Type :=
| ASentCancelled
| ASendFailed (msg : string)
| AResponded (r : AnthropicResponse).

(** The stream of [invoke], once the request is prepared. *)
Definition invoke_stream (synthesizing : bool) (sent : AnthropicSent) : list (result ModelEvent ModelError) :=
  match sent with
  | ASentCancelled => []
  | ASendFailed m => [Err (Transport m)]
  | AResponded r =>
      if (200 <=? a_status r)%Z && (a_status r <? 300)%Z
      then stream_loop (MessageTranslator_new synthesizing) (a_polls r)
      else let '(ty, message) := error_of_body (a_body r) in
           [Err (map_error_type (Some (a_status r)) ty message (parse_retry_after_ms (a_retry_after r)))]
  end.

(** ** A message, from its start to its end *)

(** What an event does to the blocks. *)
Definition block_events (event : AnthropicEvent) : list BlockEvent :=
  match event with
  | ContentBlockStart i HeadText => [StartOther i false]
  | ContentBlockStart i HeadThinking => [StartOther i true]
  | ContentBlockStart i (HeadToolUse id name) => [StartTool i id name]
  | ContentBlockDeltaEvent _ (DeltaText text) => [TextDelta text]
  | ContentBlockDeltaEvent _ (DeltaThinking t) => [ThinkingDelta t]
  | ContentBlockDeltaEvent i (DeltaInputJson json) => [InputDelta i json]
  | _ => []
  end.

(** The events between the start of a message and its end. *)
Definition is_content (event : AnthropicEvent) : bool :=
  match event with
  | ContentBlockStart _ _ | ContentBlockDeltaEvent _ _ | ContentBlockStop _ | Ping => true
  | _ => false
  end.

(** The events that the payloads carry; one that does not parse is skipped. *)
Definition parsed (data : string) : option AnthropicEvent :=
  match parse_event data with Ok event => Some event | Err _ => None end.

Lemma set_blocks_id t : set_blocks (tr_blocks t) t = t.
Proof. by destruct t. Qed.

Lemma consume_content t event b out :
  is_content event = true → block_run (tr_blocks t) (block_events event) = Some (b, out) →
  consume t event = Ok (set_blocks b t, Ok <$> out).
Proof.
  destruct event as [|i [| |id n]|i [s|s|s|s]|i| | | |]; try done; simpl; intros _;
    try (intros [= <- <-]; by rewrite ?set_blocks_id).
  destruct (input_delta i s (tr_blocks t)) as [[b' ev]|]; [|done]. simpl. by intros [= <- <-].
Qed.

(** The loop over events that are parsed. *)
Fixpoint event_loop (t : MessageTranslator) (events : list AnthropicEvent) (polls : list Polled)
  : list (result ModelEvent ModelError) :=
  match events with
  | [] => stream_loop t polls
  | event :: events' =>
      match consume t event with
      | Err e => [Err e]
      | Ok (t', out) => out ++ event_loop t' events' polls
      end
  end.

Lemma stream_loop_events t datas polls :
  stream_loop t ((PollData <$> datas) ++ polls) = event_loop t (omap parsed datas) polls.
Proof.
  revert t. induction datas as [|d datas IH]; intros t; [done|]. simpl. unfold parsed at 1.
  destruct (parse_event d) as [event|]; [|apply IH]. simpl.
  destruct (consume t event) as [[t' out]|]; [|done]. by rewrite <- IH.
Qed.

(** The content goes through the blocks. *)
Lemma event_loop_content events rest t b out polls :
  Forall (λ ev, is_content ev = true) events →
  block_run (tr_blocks t) (events ≫= block_events) = Some (b, out) →
  event_loop t (events ++ rest) polls = (Ok <$> out) ++ event_loop (set_blocks b t) rest polls.
Proof.
  intros H. revert t out. induction H as [|event events Hc _ IH]; intros t out; simpl.
  - intros [= <- <-]. by rewrite set_blocks_id.
  - rewrite block_run_app. destruct (block_run (tr_blocks t) (block_events event)) as [[b1 o1]|] eqn:E1; [|done].
    simpl. destruct (block_run b1 _) as [[b2 o2]|] eqn:E2; [|done]. intros [= <- <-].
    rewrite (consume_content _ _ _ _ Hc E1), fmap_app, <- app_assoc. f_equal.
    rewrite (IH (set_blocks b1 t) o2 E2). by destruct t.
Qed.

(** How a message ends: with its stop reason, with or without the frame that
    follows it, or before it. *)
Inductive Ending : Type :=
| EStopped (reason : string) (output_tokens : option Z) (framed : bool)
| EError (ty message : string)
| ETransport (msg : string)
| ECancelled
| EEof.

Definition ending_events (e : Ending) : list AnthropicEvent :=
  match e with
  | EStopped reason n framed => MessageDelta (Some reason) n :: (if framed then [MessageStop] else [])
  | EError ty message => [ErrorEvent ty message]
  | _ => []
  end.

Definition ending_polls (e : Ending) : list Polled :=
  match e with
  | ETransport m => [PollErr m]
  | ECancelled => [PollCancelled]
  | _ => []
  end.

(** The usage at the end. *)
Definition ending_usage (u : MessageStartUsage) (e : Ending) : list ModelEvent :=
  match e with
  | EStopped _ (Some n) _ => [MEUsage (su_input_tokens u) n (su_cache_read_input_tokens u) None]
  | _ => []
  end.

Definition output_counted (e : Ending) : Z := match e with EStopped _ (Some n) _ => n | _ => 0%Z end.

(** The meaning of a stop reason; [real] tells whether a tool was called that is
    not the structured output. *)
Definition stop_result (synth real : bool) (reason : string) : result ModelEvent ModelError :=
  if String.eqb reason "refusal" then Err (Refused "model refused")
  else if String.eqb reason "tool_use" && synth && real then
    Err (ModelOther "structured output: model fired both a real tool and the synthesized output tool")
  else Ok (MEFinish
    (if String.eqb reason "tool_use" then if synth then Stop else ToolCalls
     else if String.eqb reason "max_tokens" then Length
     else if String.eqb reason "end_turn" || String.eqb reason "stop_sequence" then Stop
     else FinishOther reason)).

Definition ending_result (synth real : bool) (e : Ending) : option (result ModelEvent ModelError) :=
  match e with
  | EStopped reason _ _ => Some (stop_result synth real reason)
  | EError ty message => Some (Err (map_error_type None ty message None))
  | ETransport m => Some (Err (Transport m))
  | ECancelled | EEof => None
  end.

Lemma finish_or_error_spec t reason :
  finish_or_error t reason = stop_result (synthesizing (tr_blocks t)) (other_tool_fired (tr_blocks t)) reason.
Proof.
  unfold finish_or_error, stop_result. destruct (String.eqb_spec reason "end_turn") as [->|]; [done|].
  destruct (String.eqb_spec reason "stop_sequence") as [->|]; [done|].
  destruct (String.eqb_spec reason "max_tokens") as [->|]; [done|].
  destruct (String.eqb_spec reason "tool_use") as [->|]; [|done].
  by destruct (synthesizing _), (other_tool_fired _).
Qed.

(** The end of a message whose start reported [u]. *)
Lemma event_loop_ending t u e :
  last_input_tokens t = su_input_tokens u → last_cached_input_tokens t = su_cache_read_input_tokens u →
  stop_reason t = None → terminal_emitted t = false →
  event_loop t (ending_events e) (ending_polls e)
  = (Ok <$> ending_usage u e)
    ++ option_list (ending_result (synthesizing (tr_blocks t)) (other_tool_fired (tr_blocks t)) e).
Proof.
  intros Hi Hc Hs Ht. destruct e as [reason n framed|ty m|m| |]; simpl; try done.
  - rewrite Ht. unfold delta_usage. rewrite Hi, Hc. destruct n as [n|], framed; simpl;
      by rewrite ?Ht, ?finish_or_error_spec.
  - unfold finish. by rewrite Ht, Hs.
Qed.
End Stream.

(** C15. What the Anthropic stream says is the turn.  Whatever unreadable payloads
    stand between its events, a message of the Messages API - its start, content
    blocks whose deltas may interleave, and its end - gives the text of its text
    blocks in order, its thinking, and exactly the tools that took input, each
    with its name, its id and its whole input; the structured output's input is
    text and no call.  The usage is the one of the start, with the output once it
    is counted.  The stop reason is reported with or without the frame that
    follows it: a tool use finishes with [ToolCalls], with [Stop] for a structured
    output alone, and is an error when a real tool was called there; a refusal is
    an error.  A message that is cut off has no finish, and an error event or a
    failure of the transport is the last thing in the stream. *)
Theorem anthropic_turn_exact `{J : SerdeJson} parse_event synth datas u body e agent :
  omap (parsed parse_event) datas = MessageStart u :: body ++ ending_events e →
  Forall (λ ev, is_content ev = true) body →
  blocks_conform synth (body ≫= block_events) → inputs_follow (body ≫= block_events) →
  let r := ending_result synth (real_tool synth (body ≫= block_events)) e in
  ∃ evs, stream_loop parse_event (MessageTranslator_new synth) ((PollData <$> datas) ++ ending_polls e)
         = (Ok <$> evs) ++ failures r
  ∧ reads_blocks synth (body ≫= block_events) (observe_all agent evs)
  ∧ latest_usage (observe_all agent evs)
    = Some (usage_of_event (su_input_tokens u) (output_counted e) (su_cache_read_input_tokens u) None)
  ∧ finish_events evs = finish_events (finishes r).
Proof.
  intros Hd Hb C F r. destruct (block_run_total _ _ C F) as (b & out & E & A).
  assert (Hr : ∀ ev, r = Some (Ok ev) → ∃ reason, ev = MEFinish reason).
  { unfold r, ending_result, stop_result. intros ev. repeat case_match; intros [= <-]; eauto. }
  exists ([start_usage u] ++ out ++ (ending_usage u e ++ finishes r)). split.
  - rewrite stream_loop_events, Hd. simpl. rewrite (event_loop_content _ body _ _ b out) by done.
    rewrite (event_loop_ending _ _ u) by done. simpl. rewrite (ba_synth _ _ _ _ A), (ba_fired _ _ _ _ A).
    fold (real_tool synth (body ≫= block_events)). fold r. by rewrite terminal_split, !fmap_app, <- !app_assoc.
  - destruct (blocks_turn _ _ _ _ agent [start_usage u] (ending_usage u e ++ finishes r) C E) as (T & U & _).
    { by repeat constructor. }
    { apply Forall_app. split; [destruct e as [? []| | | |]; by repeat constructor|].
      destruct r as [[ev|]|]; repeat constructor. by destruct (Hr ev eq_refl) as [? ->]. }
    split; [exact T|]. split.
    + rewrite U. unfold usage_events. rewrite !omap_app. destruct r as [[ev|]|]; [|by destruct e as [? []| | | |]..].
      destruct (Hr ev eq_refl) as [? ->]. by destruct e as [? []| | | |].
    + destruct (ba_open _ _ _ _ A) as [_ Fb]. unfold finish_events in *. rewrite !omap_app, Fb.
      by destruct e as [? []| | | |].
Qed.

Module AnthropicDemo.
#[local] Existing Instance Toy.json.

(** Two tools whose input interleaves, with a thought and a text. *)
Definition body : list AnthropicEvent :=
  [ContentBlockStart 0 HeadThinking; ContentBlockDeltaEvent 0 (DeltaThinking "hm");
   ContentBlockDeltaEvent 0 (DeltaSignature "x"); ContentBlockStop 0;
   ContentBlockStart 1 (HeadToolUse "tu_1" "search"); ContentBlockStart 2 (HeadToolUse "tu_2" "list");
   ContentBlockDeltaEvent 1 (DeltaInputJson "{1"); ContentBlockDeltaEvent 2 (DeltaInputJson "{2}"); Ping;
   ContentBlockDeltaEvent 1 (DeltaInputJson "}")].
Definition start : MessageStartUsage := mkMessageStartUsage 10 (Some 4%Z).
Definition message : list AnthropicEvent :=
  MessageStart start :: body ++ ending_events (EStopped "tool_use" (Some 7%Z) true).

(** A payload is the number of its event. *)
Definition numbered (events : list AnthropicEvent) (data : string) : result AnthropicEvent string :=
  match parse_uint u64_max data with
  | Some n => match events !! Z.to_nat n with Some ev => Ok ev | None => Err "no event" end
  | None => Err "not a number"
  end.
Definition payloads : list string := "noise" :: (show_Z <$> [0; 1; 2; 3; 4; 5; 6; 7; 8; 9; 10; 11; 12]%Z).

Definition play (synth : bool) (events : list AnthropicEvent) : list (result ModelEvent ModelError) :=
  event_loop (numbered []) (MessageTranslator_new synth) events [].

(** The structured output is text, and its tool use a stop. *)
Example structured :
  play true [ContentBlockStart 0 (HeadToolUse "tu_1" SYNTHESIZED_TOOL_NAME);
             ContentBlockDeltaEvent 0 (DeltaInputJson "{}"); MessageDelta (Some "tool_use") None; MessageStop]
  = Ok <$> [METokenDelta "{}"; MEFinish Stop].
Proof. reflexivity. Qed.

(** Input for a tool that was not started ends the stream. *)
Example orphan_input :
  play false [ContentBlockDeltaEvent 3 (DeltaInputJson "{}"); MessageDelta (Some "end_turn") None]
  = [Err (Transport "anthropic stream: input_json_delta at index 3 has no preceding tool_use content_block_start")].
Proof. reflexivity. Qed.

(** A second terminal event: an error after the message has stopped. *)
Example error_after_stop :
  play false [MessageDelta (Some "end_turn") None; MessageStop; ErrorEvent "overloaded_error" "busy"]
  = [Ok (MEFinish Stop); Err Unavailable].
Proof. reflexivity. Qed.

Lemma demo_conform : blocks_conform false (body ≫= block_events) ∧ inputs_follow (body ≫= block_events).
Proof.
  split.
  - split; simpl.
    + repeat (apply NoDup_cons; split; [set_solver|]). apply NoDup_nil_2.
    + set_solver.
    + set_solver.
  - intros pre i json post H. simpl in H.
    repeat (destruct pre as [|? pre]; simplify_eq/=; try (set_solver)).
Qed.

Lemma anthropic_turn_exact_witness :
  ∃ evs, stream_loop (numbered message) (MessageTranslator_new false) (PollData <$> payloads) = Ok <$> evs
  ∧ btree_get "tu_1" (tool_accum (observe_all "agent" evs)) = Some (mkToolCallAccum (Some "search") "{1}")
  ∧ finish_events evs = [ToolCalls].
Proof.
  destruct demo_conform as [C F].
  destruct (anthropic_turn_exact (numbered message) false payloads start body
    (EStopped "tool_use" (Some 7%Z) true) "agent") as (evs & E & [_ _ T] & _ & Fi).
  - vm_compute. reflexivity.
  - by repeat constructor.
  - exact C.
  - exact F.
  - exists evs. rewrite (app_nil_r (PollData <$> payloads)) in E. rewrite E. split; [by rewrite app_nil_r|].
    split; [|exact Fi]. apply T. exists 1%Z, "search". split_and!; [set_solver|done|done|done].
Defined.
End AnthropicDemo.
