(* ===== verification/Bedrock.v ===== *)
(** The response side of the Bedrock provider
    (paigasus-helikon-providers-bedrock/src): the translation of the events of
    ConverseStream into model events ([StreamTranslator] of stream.rs), the
    classification of failures (error.rs) and the streaming loop of
    [BedrockModel::invoke] (model.rs).  The types of the AWS SDK are inductives
    with the fields the code reads.  The block state is [Blocks] of ContentBlocks;
    [retry-after] is parsed as LiteLLM's provider does ([parse_retry_after_ms]).

    Usage comes after the stop reason here, and a finish has to come last: the
    translator holds the reason back until the usage arrives or the stream ends. *)

From S2P Require Import Prelude Json Items Redaction ModelTurn LiteLlm ContentBlocks.

(** ** Failures *)

Definition classify (code : option string) (message : string) (retry_after_ms : option Z) : ModelError :=
  let named s := match code with Some c => String.eqb c s | None => false end in
  if named "ThrottlingException" then RateLimited retry_after_ms
  else if named "ServiceUnavailableException" || named "ModelNotReadyException" || named "InternalServerException"
          || named "ModelStreamErrorException" || named "ModelTimeoutException" then Unavailable
  else if named "AccessDeniedException" then Refused message
  else if named "ValidationException" then
    let msg_lower := string_lower message in
    if contains_str msg_lower "too long" || contains_str msg_lower "maximum context"
    then ContextLengthExceeded
    else ModelOther ("bedrock ValidationException: " +:+ message)
  else ModelOther ("bedrock error " +:+ default "unknown" code +:+ ": " +:+ message).

(** A modelled error of the service, or a failure with its debug text. *)
Inductive SdkError : Type :=
| ServiceError (code message : option string)
| SdkFailure (debug : string).

Definition map_sdk_error (err : SdkError) : ModelError :=
  match err with
  | ServiceError code message => classify code (default "" message) None
  | SdkFailure d => Transport d
  end.

(** [retry_after] is the header of the response, when there is one. *)
Definition map_sdk_http_error (err : SdkError) (retry_after : option string) : ModelError :=
  match err with
  | ServiceError code message => classify code (default "" message) (parse_retry_after_ms retry_after)
  | SdkFailure d => Transport d
  end.

(** ** Events *)

Inductive StopReason : Type :=
| EndTurn | StopSequence | ToolUse | MaxTokens | GuardrailIntervened | ContentFiltered
| OtherReason (s : string).

Inductive BlockStart : Type :=
| StartToolUse (id name : string)
| StartImage
| StartToolResult
| StartUnknown
| StartNone.

Inductive BlockDelta : Type :=
| DeltaText (text : string)
| DeltaToolUse (input : string)
| DeltaReasoningText (text : string)
| DeltaReasoningOther
| DeltaOther.

Record Usage := mkUsage {
  u_input_tokens : Z;
  u_output_tokens : Z;
  u_cache_read_input_tokens : option Z;
}.

Inductive ConverseStreamOutput : Type :=
| MessageStart
| ContentBlockStart (index : Z) (start : BlockStart)
| ContentBlockDelta (index : Z) (delta : BlockDelta)
| ContentBlockStop
| MessageStop (reason : StopReason)
| Metadata (usage : option Usage)
| Unknown.

(** ** The translator *)

Record StreamTranslator := mkStreamTranslator {
  st_blocks : Blocks;
  pending_stop_reason : option StopReason;
  metadata_seen : bool;
}.

Definition StreamTranslator_new (synthesizing : bool) : StreamTranslator :=
  mkStreamTranslator (Blocks_new synthesizing) None false.

Definition set_blocks (b : Blocks) (t : StreamTranslator) : StreamTranslator :=
  mkStreamTranslator b (pending_stop_reason t) (metadata_seen t).

Definition finish_event (t : StreamTranslator) (reason : StopReason) : result ModelEvent ModelError :=
  match reason with
  | EndTurn | StopSequence => Ok (MEFinish Stop)
  | ToolUse =>
      if synthesizing (st_blocks t) then
        if other_tool_fired (st_blocks t) then
          Err (ModelOther ("bedrock stream: structured-output synthesis: model fired both a real tool " +:+
                           "and the synthesized output tool '__paigasus_structured_output__'"))
        else Ok (MEFinish Stop)
      else Ok (MEFinish ToolCalls)
  | MaxTokens => Ok (MEFinish Length)
  | GuardrailIntervened | ContentFiltered => Ok (MEFinish ContentFilter)
  | OtherReason s => Ok (MEFinish (FinishOther s))
  end.

(** [n.max(0) as u32], of an i32. *)
Definition clamp (n : Z) : Z := Z.max n 0.

Definition usage_event (u : Usage) : ModelEvent :=
  MEUsage (clamp (u_input_tokens u)) (clamp (u_output_tokens u))
    (clamp <$> u_cache_read_input_tokens u) None.

Definition consume (t : StreamTranslator) (ev : ConverseStreamOutput)
  : StreamTranslator * list (result ModelEvent ModelError) :=
  match ev with
  | MessageStart | ContentBlockStop | Unknown => (t, [])
  | ContentBlockStart index (StartToolUse id name) =>
      (set_blocks (start_tool index id name (st_blocks t)) t, [])
  | ContentBlockStart _ (StartImage | StartToolResult) => (t, [])
  | ContentBlockStart index (StartUnknown | StartNone) =>
      (set_blocks (start_block index BText (st_blocks t)) t, [])
  | ContentBlockDelta _ (DeltaText text) => (t, [Ok (METokenDelta text)])
  | ContentBlockDelta index (DeltaToolUse input) =>
      match input_delta index input (st_blocks t) with
      | Some (b, out) => (set_blocks b t, [Ok out])
      | None => (t, [])
      end
  | ContentBlockDelta _ (DeltaReasoningText text) => (t, [Ok (MEReasoningDelta text)])
  | ContentBlockDelta _ (DeltaReasoningOther | DeltaOther) => (t, [])
  | MessageStop reason =>
      if metadata_seen t then (t, [finish_event t reason])
      else (mkStreamTranslator (st_blocks t) (Some reason) false, [])
  | Metadata usage =>
      let t' := mkStreamTranslator (st_blocks t) None true in
      (t', ((λ u, Ok (usage_event u)) <$> option_list usage)
           ++ (finish_event t' <$> option_list (pending_stop_reason t)))
  end.

Definition finish (t : StreamTranslator) : option (result ModelEvent ModelError) :=
  finish_event t <$> pending_stop_reason t.

(** ** The streaming loop *)

Inductive BPolled : Type :=
| BCancelled
| BErr (e : SdkError)
| BEvent (ev : ConverseStreamOutput).

Fixpoint stream_loop (t : StreamTranslator) (polls : list BPolled) : list (result ModelEvent ModelError) :=
  match polls with
  | [] => option_list (finish t)
  | BCancelled :: _ => []
  | BErr e :: _ => [Err (map_sdk_error e)]
  | BEvent ev :: polls' => let '(t', out) := consume t ev in out ++ stream_loop t' polls'
  end.

Inductive BSent : Type :=
| BSentCancelled
| BSendFailed (e : SdkError) (retry_after : option string)
| BResponded (polls : list BPolled).

(** The stream of [invoke], once the request is prepared. *)
Definition invoke_stream (synthesizing : bool) (sent : BSent) : list (result ModelEvent ModelError) :=
  match sent with
  | BSentCancelled => []
  | BSendFailed e retry_after => [Err (map_sdk_http_error e retry_after)]
  | BResponded polls => stream_loop (StreamTranslator_new synthesizing) polls
  end.

(** ** A message, from its start to its end *)

Definition block_events (ev : ConverseStreamOutput) : list BlockEvent :=
  match ev with
  | ContentBlockStart i (StartToolUse id name) => [StartTool i id name]
  | ContentBlockStart i (StartUnknown | StartNone) => [StartOther i false]
  | ContentBlockDelta _ (DeltaText text) => [TextDelta text]
  | ContentBlockDelta _ (DeltaReasoningText text) => [ThinkingDelta text]
  | ContentBlockDelta i (DeltaToolUse input) => [InputDelta i input]
  | _ => []
  end.

Definition is_content (ev : ConverseStreamOutput) : bool :=
  match ev with MessageStop _ | Metadata _ => false | _ => true end.

Lemma set_blocks_same t : set_blocks (st_blocks t) t = t.
Proof. by destruct t. Qed.

Lemma consume_block t ev b out :
  is_content ev = true → block_run (st_blocks t) (block_events ev) = Some (b, out) →
  consume t ev = (set_blocks b t, Ok <$> out).
Proof.
  destruct ev as [|i [id n| | | |]|i [s|s|s| |]| |r|u|]; try done; simpl; intros _;
    try (intros [= <- <-]; by rewrite ?set_blocks_same).
  destruct (input_delta i s (st_blocks t)) as [[b' o]|]; [|done]. simpl. by intros [= <- <-].
Qed.

Lemma stream_loop_content events polls t b out :
  Forall (λ ev, is_content ev = true) events →
  block_run (st_blocks t) (events ≫= block_events) = Some (b, out) →
  stream_loop t ((BEvent <$> events) ++ polls) = (Ok <$> out) ++ stream_loop (set_blocks b t) polls.
Proof.
  intros H. revert t out. induction H as [|ev events Hc _ IH]; intros t out; simpl.
  - intros [= <- <-]. by rewrite set_blocks_same.
  - rewrite block_run_app. destruct (block_run (st_blocks t) (block_events ev)) as [[b1 o1]|] eqn:E1; [|done].
    simpl. destruct (block_run b1 _) as [[b2 o2]|] eqn:E2; [|done]. intros [= <- <-].
    rewrite (consume_block _ _ _ _ Hc E1), fmap_app, <- app_assoc. f_equal.
    etrans; [exact (IH (set_blocks b1 t) o2 E2)|]. by destruct t.
Qed.

(** How a message ends: the reason before the usage, as the service sends them,
    after it, or without it; or not at all. *)
Inductive Ending : Type :=
| EReasonUsage (reason : StopReason) (usage : option Usage)
| EUsageReason (usage : option Usage) (reason : StopReason)
| EReason (reason : StopReason)
| EFailed (e : SdkError)
| ECancelled
| EEof.

Definition ending_polls (e : Ending) : list BPolled :=
  match e with
  | EReasonUsage reason usage => [BEvent (MessageStop reason); BEvent (Metadata usage)]
  | EUsageReason usage reason => [BEvent (Metadata usage); BEvent (MessageStop reason)]
  | EReason reason => [BEvent (MessageStop reason)]
  | EFailed e => [BErr e]
  | ECancelled => [BCancelled]
  | EEof => []
  end.

Definition ending_usage (e : Ending) : option Usage :=
  match e with EReasonUsage _ usage | EUsageReason usage _ => usage | _ => None end.

(** The meaning of a stop reason; [real] tells whether a tool was called that is
    not the structured output. *)
Definition stop_result (synth real : bool) (reason : StopReason) : result ModelEvent ModelError :=
  match reason with
  | ToolUse =>
      if synth && real then
        Err (ModelOther ("bedrock stream: structured-output synthesis: model fired both a real tool " +:+
                         "and the synthesized output tool '__paigasus_structured_output__'"))
      else Ok (MEFinish (if synth then Stop else ToolCalls))
  | EndTurn | StopSequence => Ok (MEFinish Stop)
  | MaxTokens => Ok (MEFinish Length)
  | GuardrailIntervened | ContentFiltered => Ok (MEFinish ContentFilter)
  | OtherReason s => Ok (MEFinish (FinishOther s))
  end.

Definition ending_result (synth real : bool) (e : Ending) : option (result ModelEvent ModelError) :=
  match e with
  | EReasonUsage reason _ | EUsageReason _ reason | EReason reason => Some (stop_result synth real reason)
  | EFailed e => Some (Err (map_sdk_error e))
  | ECancelled | EEof => None
  end.

Lemma finish_event_spec t reason :
  finish_event t reason = stop_result (synthesizing (st_blocks t)) (other_tool_fired (st_blocks t)) reason.
Proof. destruct reason; try done. simpl. by destruct (synthesizing _), (other_tool_fired _). Qed.

Lemma stream_loop_end b e :
  stream_loop (mkStreamTranslator b None false) (ending_polls e)
  = (Ok <$> (usage_event <$> option_list (ending_usage e)))
    ++ option_list (ending_result (synthesizing b) (other_tool_fired b) e).
Proof.
  destruct e as [r u|u r|r|f| |]; try done; simpl;
    rewrite ?finish_event_spec, ?app_nil_r; try done; by destruct u.
Qed.

Definition usage_of (u : Usage) : TokenUsage :=
  usage_of_event (clamp (u_input_tokens u)) (clamp (u_output_tokens u))
    (clamp <$> u_cache_read_input_tokens u) None.

(** What the Bedrock stream says is the turn.  The content blocks of a message,
    whose deltas may interleave, give its text in order, its reasoning, and exactly
    the tools that took input, each with its name, its id and its whole input; the
    structured output's input is text and no call.  Wherever the usage stands, it
    is reported, with no negative count, and the finish comes after it; a stream
    that ends without usage still finishes with its stop reason.  A guardrail or
    a filter finishes with [ContentFilter], a tool use with [ToolCalls], with
    [Stop] for a structured output alone, and is an error when a real tool was
    called there.  A message that is cut off has no finish, and a failure is the
    last thing in the stream. *)
Theorem bedrock_turn_exact `{J : SerdeJson} synth body e agent :
  Forall (λ ev, is_content ev = true) body →
  blocks_conform synth (body ≫= block_events) → inputs_follow (body ≫= block_events) →
  let r := ending_result synth (real_tool synth (body ≫= block_events)) e in
  ∃ evs, invoke_stream synth (BResponded ((BEvent <$> body) ++ ending_polls e))
         = (Ok <$> evs) ++ (Ok <$> (usage_event <$> option_list (ending_usage e))) ++ option_list r
  ∧ let all := evs ++ (usage_event <$> option_list (ending_usage e)) ++ finishes r in
    reads_blocks synth (body ≫= block_events) (observe_all agent all)
    ∧ latest_usage (observe_all agent all) = usage_of <$> ending_usage e
    ∧ finish_events all = finish_events (finishes r).
Proof.
  intros Hb C F r. destruct (block_run_total _ _ C F) as (b & out & E & A).
  assert (Hr : ∀ ev, r = Some (Ok ev) → ∃ reason, ev = MEFinish reason).
  { unfold r, ending_result, stop_result. intros ev. repeat case_match; intros [= <-]; eauto. }
  exists out. split.
  - simpl. rewrite (stream_loop_content body _ _ b out) by done.
    change (set_blocks b (StreamTranslator_new synth)) with (mkStreamTranslator b None false).
    rewrite stream_loop_end, (ba_synth _ _ _ _ A), (ba_fired _ _ _ _ A). done.
  - destruct (blocks_turn _ _ _ _ agent [] ((usage_event <$> option_list (ending_usage e)) ++ finishes r) C E)
      as (T & U & _).
    { done. }
    { apply Forall_app. split; [destruct (ending_usage e); by repeat constructor|].
      destruct r as [[ev|]|]; repeat constructor. by destruct (Hr ev eq_refl) as [? ->]. }
    split; [exact T|]. split.
    + rewrite app_nil_l in U. rewrite U. unfold usage_events. rewrite omap_app.
      destruct r as [[ev|]|]; [|by destruct (ending_usage e)..].
      destruct (Hr ev eq_refl) as [? ->]. by destruct (ending_usage e).
    + destruct (ba_open _ _ _ _ A) as [_ Fb]. unfold finish_events in *. rewrite !omap_app, Fb.
      by destruct (ending_usage e).
Qed.

Module BedrockDemo.
#[local] Existing Instance Toy.json.

Definition body : list ConverseStreamOutput :=
  [MessageStart; ContentBlockStart 0 StartNone; ContentBlockDelta 0 (DeltaText "let me "); ContentBlockStop;
   ContentBlockStart 1 (StartToolUse "tu_1" "search"); ContentBlockStart 2 (StartToolUse "tu_2" "list");
   ContentBlockDelta 1 (DeltaToolUse "{1"); ContentBlockDelta 2 (DeltaToolUse "{2}");
   ContentBlockDelta 1 (DeltaToolUse "}")].
Definition counted : Usage := mkUsage 10 (-1) None.

Definition play (synth : bool) (events : list ConverseStreamOutput) : list (result ModelEvent ModelError) :=
  invoke_stream synth (BResponded (BEvent <$> events)).

(** The finish waits for the usage. *)
Example usage_first :
  play false [ContentBlockDelta 0 (DeltaText "hi"); MessageStop EndTurn; Metadata (Some counted)]
  = Ok <$> [METokenDelta "hi"; MEUsage 10 0 None None; MEFinish Stop].
Proof. reflexivity. Qed.

(** Input for a tool that was not started is dropped. *)
Example dropped_input :
  play false [ContentBlockDelta 3 (DeltaToolUse "{}"); MessageStop ToolUse] = [Ok (MEFinish ToolCalls)].
Proof. reflexivity. Qed.

(** Nothing keeps a second stop from finishing again. *)
Example second_stop :
  play false [MessageStop EndTurn; Metadata None; MessageStop EndTurn]
  = Ok <$> [MEFinish Stop; MEFinish Stop].
Proof. reflexivity. Qed.

Lemma body_conform : blocks_conform false (body ≫= block_events) ∧ inputs_follow (body ≫= block_events).
Proof.
  split.
  - split; simpl.
    + repeat (apply NoDup_cons; split; [set_solver|]). apply NoDup_nil_2.
    + set_solver.
    + set_solver.
  - intros pre i json post H. simpl in H.
    repeat (destruct pre as [|? pre]; simplify_eq/=; try (set_solver)).
Qed.

Lemma bedrock_turn_exact_witness :
  ∃ evs, play false (body ++ [MessageStop ToolUse; Metadata (Some counted)])
         = (Ok <$> evs) ++ (Ok <$> [MEUsage 10 0 None None; MEFinish ToolCalls])
  ∧ btree_get "tu_1" (tool_accum (observe_all "agent" (evs ++ [MEUsage 10 0 None None; MEFinish ToolCalls])))
    = Some (mkToolCallAccum (Some "search") "{1}").
Proof.
  destruct body_conform as [C F].
  destruct (bedrock_turn_exact false body (EReasonUsage ToolUse (Some counted)) "agent") as (evs & E & [_ _ T] & _).
  - by repeat constructor.
  - exact C.
  - exact F.
  - exists evs. split; [exact E|]. apply T. exists 1%Z, "search". split_and!; [set_solver|done|done|done].
Defined.
End BedrockDemo.
