(* ===== verification/BlockRequests.v ===== *)
(** The request side of the Anthropic and Bedrock providers
    (paigasus-helikon-providers-anthropic/src/translate/request.rs,
    paigasus-helikon-providers-bedrock/src/translate/request.rs): a conversation
    as messages of content blocks, calls in an assistant's and results in a
    user's.  Both APIs ask that the message after one with calls brings their
    results; Bedrock's also that roles alternate from the user's on.

    [items_to_messages] (Bedrock) meets that for every conversation whose calls
    are answered.  [translate_messages] (Anthropic) does not when an assistant
    message follows an exchange that had none to carry its calls: it then sends
    the results before the calls, and [anthropic_answered_iff] says exactly when.

    Anthropic's code builds JSON, which [message_json] gives; the arguments of a
    Bedrock call are a [Document] made from the value, which is left out. *)

From S2P Require Import Prelude Json Items OpenAiRequest.

(** ** Messages of blocks *)

Inductive BlockRole : Type := RUser | RAssistant.

#[export] Instance BlockRole_eq_dec : EqDecision BlockRole.
Proof. solve_decision. Defined.

Section Blocks.
Context `{J : SerdeJson}.

Inductive Block : Type :=
| BkText (text : string)
| BkImage (source : MediaSource)
| BkToolUse (id name : string) (input : Value)
| BkToolResult (tool_use_id content : string).

Record BlockMessage := mkBlockMessage { bm_role : BlockRole; bm_content : list Block }.

(** A message of the pending blocks, unless there are none. *)
Definition flush (role : BlockRole) (messages : list BlockMessage) (pending : list Block) : list BlockMessage :=
  match pending with [] => messages | _ => messages ++ [mkBlockMessage role pending] end.

Definition last_role (messages : list BlockMessage) : option BlockRole := bm_role <$> last messages.

(** Blocks appended to the last message. *)
Definition extend_last (messages : list BlockMessage) (blocks : list Block) : list BlockMessage :=
  match last messages with
  | Some m => removelast messages ++ [mkBlockMessage (bm_role m) (bm_content m ++ blocks)]
  | None => messages
  end.

(** ** Anthropic *)

Record AnthropicAcc := mkAnthropicAcc {
  system_text : string;
  an_messages : list BlockMessage;
  pending_tool_use : list Block;
  pending_tool_results : list Block;
}.

Definition user_block (p : ContentPart) : option Block :=
  match p with
  | Text text => Some (BkText text)
  | PartToolResult call_id content => Some (BkToolResult call_id (text_of content))
  | Image source => Some (BkImage source)
  | _ => None
  end.

Definition assistant_block (p : ContentPart) : option Block :=
  match p with
  | Text text => Some (BkText text)
  | PartToolUse call_id name args => Some (BkToolUse call_id name args)
  | _ => None
  end.

Definition translate_step (acc : AnthropicAcc) (item : Item) : AnthropicAcc :=
  let '(mkAnthropicAcc sys msgs calls results) := acc in
  match item with
  | System content =>
      mkAnthropicAcc (push_text sys (text_of content))
        (flush RUser (flush RAssistant msgs calls) results) [] []
  | UserMessage content =>
      mkAnthropicAcc sys
        (flush RAssistant msgs calls ++ [mkBlockMessage RUser (results ++ omap user_block content)]) [] []
  | AssistantMessage content _ =>
      mkAnthropicAcc sys
        (flush RAssistant (flush RUser msgs results) calls
         ++ [mkBlockMessage RAssistant (omap assistant_block content)]) [] []
  | ToolCall call_id name args =>
      if decide (last_role msgs = Some RAssistant)
      then mkAnthropicAcc sys (extend_last msgs [BkToolUse call_id name args]) calls results
      else mkAnthropicAcc sys msgs (calls ++ [BkToolUse call_id name args]) results
  | ToolResult call_id content =>
      mkAnthropicAcc sys msgs calls (results ++ [BkToolResult call_id (text_of content)])
  end.

(** The system text, and the messages. *)
Definition translate_messages (items : list Item) : option string * list BlockMessage :=
  let '(mkAnthropicAcc sys msgs calls results) := fold_left translate_step items (mkAnthropicAcc "" [] [] []) in
  (if is_empty sys then None else Some sys, flush RUser (flush RAssistant msgs calls) results).

Definition block_json (b : Block) : Value :=
  match b with
  | BkText text => VObject [("type", VString "text"); ("text", VString text)]
  | BkImage (Url url) =>
      VObject [("type", VString "image");
               ("source", VObject [("type", VString "url"); ("url", VString url)])]
  | BkImage (Base64 mime_type data) =>
      VObject [("type", VString "image");
               ("source", VObject [("type", VString "base64"); ("media_type", VString mime_type);
                                   ("data", VString data)])]
  | BkToolUse id name input =>
      VObject [("type", VString "tool_use"); ("id", VString id); ("name", VString name); ("input", input)]
  | BkToolResult id content =>
      VObject [("type", VString "tool_result"); ("tool_use_id", VString id); ("content", VString content)]
  end.

Definition message_json (m : BlockMessage) : Value :=
  VObject [("role", VString (match bm_role m with RUser => "user" | RAssistant => "assistant" end));
           ("content", VArray (block_json <$> bm_content m))].

(** ** Bedrock *)

Record BedrockAcc := mkBedrockAcc {
  br_system : list string;
  br_messages : list BlockMessage;
  br_pending_assistant : list Block;
  br_pending_tool_results : list Block;
}.

(** Blocks of a role, appended to the last message when it has that role. *)
Definition coalesce (role : BlockRole) (messages : list BlockMessage) (blocks : list Block) : list BlockMessage :=
  match blocks with
  | [] => messages
  | _ => if decide (last_role messages = Some role) then extend_last messages blocks
         else messages ++ [mkBlockMessage role blocks]
  end.

Definition bedrock_user_block (p : ContentPart) : option Block :=
  match p with
  | Text text => Some (BkText text)
  | PartToolResult call_id content => Some (BkToolResult call_id (text_of content))
  | _ => None
  end.

Definition bedrock_step (acc : BedrockAcc) (item : Item) : BedrockAcc :=
  let '(mkBedrockAcc sys msgs calls results) := acc in
  match item with
  | System content =>
      mkBedrockAcc (sys ++ [text_of content]) (flush RUser (coalesce RAssistant msgs calls) results) [] []
  | UserMessage content =>
      mkBedrockAcc sys
        (coalesce RUser (coalesce RAssistant msgs calls) (results ++ omap bedrock_user_block content)) [] []
  | AssistantMessage content _ =>
      mkBedrockAcc sys
        (coalesce RAssistant (coalesce RAssistant (flush RUser msgs results) calls) (omap assistant_block content))
        [] []
  | ToolCall call_id name args => mkBedrockAcc sys msgs (calls ++ [BkToolUse call_id name args]) results
  | ToolResult call_id content =>
      mkBedrockAcc sys (coalesce RAssistant msgs calls) []
        (results ++ [BkToolResult call_id (text_of content)])
  end.

Definition items_to_messages (items : list Item) : result (list string * list BlockMessage) ModelError :=
  let '(mkBedrockAcc sys msgs calls results) := fold_left bedrock_step items (mkBedrockAcc [] [] [] []) in
  match flush RUser (coalesce RAssistant msgs calls) results with
  | [] => Err (ModelOther "Bedrock Converse requires at least one non-system message")
  | m :: ms =>
      Ok (sys, match bm_role m with
               | RAssistant => mkBlockMessage RUser [BkText ""] :: m :: ms
               | RUser => m :: ms
               end)
  end.
End Blocks.

(** ** The rule of the APIs *)

Section Rule.
Context `{J : SerdeJson}.

Definition block_uses (blocks : list Block) : list string :=
  omap (λ b, match b with BkToolUse id _ _ => Some id | _ => None end) blocks.
Definition block_results (blocks : list Block) : list string :=
  omap (λ b, match b with BkToolResult id _ => Some id | _ => None end) blocks.

(** Each message brings the results of exactly the calls of the one before it, in
    order; the calls of the last are still open. *)
Fixpoint open_uses (open : list string) (messages : list BlockMessage) : option (list string) :=
  match messages with
  | [] => Some open
  | m :: ms =>
      if decide (block_results (bm_content m) = open) then open_uses (block_uses (bm_content m)) ms else None
  end.

Definition answered_blocks (messages : list BlockMessage) : Prop := open_uses [] messages = Some [].

(** A user calls nothing, an assistant answers nothing. *)
Definition sided (m : BlockMessage) : Prop :=
  match bm_role m with
  | RUser => block_uses (bm_content m) = []
  | RAssistant => block_results (bm_content m) = []
  end.

Fixpoint roles_alternate (messages : list BlockMessage) : Prop :=
  match messages with
  | m :: (m' :: _) as ms => bm_role m ≠ bm_role m' ∧ roles_alternate ms
  | _ => True
  end.

Lemma block_uses_app b1 b2 : block_uses (b1 ++ b2) = block_uses b1 ++ block_uses b2.
Proof. apply omap_app. Qed.
Lemma block_results_app b1 b2 : block_results (b1 ++ b2) = block_results b1 ++ block_results b2.
Proof. apply omap_app. Qed.

Lemma open_uses_snoc open msgs m :
  open_uses open (msgs ++ [m])
  = o ← open_uses open msgs;
    if decide (block_results (bm_content m) = o) then Some (block_uses (bm_content m)) else None.
Proof.
  revert open. induction msgs as [|m' msgs IH]; intros open; [done|]. simpl.
  by destruct (decide _).
Qed.

Lemma last_role_snoc msgs m : last_role (msgs ++ [m]) = Some (bm_role m).
Proof. unfold last_role. by rewrite last_snoc. Qed.

Lemma last_role_Some msgs role :
  last_role msgs = Some role → ∃ init content, msgs = init ++ [mkBlockMessage role content].
Proof.
  unfold last_role. destruct (last msgs) as [[r content]|] eqn:E; [|done]. intros [= <-].
  exists (removelast msgs), content. by apply last_split.
Qed.

Lemma extend_snoc init m blocks :
  extend_last (init ++ [m]) blocks = init ++ [mkBlockMessage (bm_role m) (bm_content m ++ blocks)].
Proof. unfold extend_last. by rewrite last_snoc, removelast_last. Qed.

Lemma alternate_snoc msgs m :
  roles_alternate msgs → last_role msgs ≠ Some (bm_role m) → roles_alternate (msgs ++ [m]).
Proof.
  induction msgs as [|m1 msgs IH]; [done|]. destruct msgs as [|m2 msgs]; simpl.
  - intros _ H. split; [|done]. by intros E; apply H; unfold last_role; simpl; rewrite E.
  - intros [Hne Ha] H. split; [done|]. by apply IH.
Qed.

Lemma alternate_replace init r b1 b2 :
  roles_alternate (init ++ [mkBlockMessage r b1]) → roles_alternate (init ++ [mkBlockMessage r b2]).
Proof.
  induction init as [|m1 init IH]; [done|]. destruct init as [|m2 init]; simpl; [done|].
  intros [Hne Ha]. split; [done|]. by apply IH.
Qed.

Lemma sided_snoc msgs m : Forall sided (msgs ++ [m]) ↔ Forall sided msgs ∧ sided m.
Proof. by rewrite Forall_app, Forall_singleton. Qed.

(** Messages with the calls [open] at their end. *)
Record messages_ok (msgs : list BlockMessage) (open : list string) : Prop := {
  mo_uses : open_uses [] msgs = Some open;
  mo_sided : Forall sided msgs;
}.

Lemma messages_ok_last msgs open :
  messages_ok msgs open → last_role msgs ≠ Some RAssistant → open = [].
Proof.
  intros [Hu Hs] Hl. destruct (last_role msgs) as [r|] eqn:E.
  - destruct (last_role_Some _ _ E) as (init & content & ->). rewrite open_uses_snoc in Hu.
    apply sided_snoc in Hs as [_ Hs]. destruct (open_uses [] init); [|done]. unfold sided in Hs. simpl in Hs, Hu.
    destruct (decide _); [|done]. destruct r; [|done]. congruence.
  - destruct msgs as [|m msgs]; [by injection Hu|]. unfold last_role in E.
    destruct (last (m :: msgs)) eqn:El; [done|]. by apply last_None in El.
Qed.

(** A message added: an assistant's when nothing is open, a user's that answers. *)
Lemma add_assistant msgs blocks :
  messages_ok msgs [] → block_results blocks = [] →
  messages_ok (msgs ++ [mkBlockMessage RAssistant blocks]) (block_uses blocks).
Proof.
  intros [Hu Hs] Hb. split; [|by apply sided_snoc].
  rewrite open_uses_snoc, Hu. simpl. by rewrite decide_True.
Qed.

Lemma add_user msgs open blocks :
  messages_ok msgs open → block_results blocks = open → block_uses blocks = [] →
  messages_ok (msgs ++ [mkBlockMessage RUser blocks]) [].
Proof.
  intros [Hu Hs] Hb Hn. split; [|by apply sided_snoc].
  rewrite open_uses_snoc, Hu. simpl. rewrite decide_True by done. by rewrite Hn.
Qed.

(** Calls added to the assistant message at the end. *)
Lemma extend_assistant msgs open blocks :
  messages_ok msgs open → last_role msgs = Some RAssistant → block_results blocks = [] →
  messages_ok (extend_last msgs blocks) (open ++ block_uses blocks).
Proof.
  intros [Hu Hs] Hl Hb. destruct (last_role_Some _ _ Hl) as (init & content & ->). rewrite extend_snoc.
  apply sided_snoc in Hs as [Hs1 Hs2]. rewrite open_uses_snoc in Hu.
  split.
  - rewrite open_uses_snoc. destruct (open_uses [] init) as [o|]; [|done]. simpl in *.
    destruct (decide _) as [Hd|]; [|done]. injection Hu as <-.
    by rewrite block_results_app, Hb, app_nil_r, decide_True, block_uses_app.
  - apply sided_snoc. split; [done|]. unfold sided in *. simpl in *.
    by rewrite block_results_app, Hs2, Hb.
Qed.

Lemma coalesce_assistant msgs open blocks :
  messages_ok msgs open → block_results blocks = [] →
  messages_ok (coalesce RAssistant msgs blocks) (open ++ block_uses blocks).
Proof.
  intros Hm Hb. unfold coalesce. destruct blocks as [|b blocks]; [by rewrite app_nil_r|].
  destruct (decide (last_role msgs = Some RAssistant)) as [Hl|Hl]; [by apply extend_assistant|].
  pose proof (messages_ok_last _ _ Hm Hl) as ->. by apply add_assistant.
Qed.

(** The answers to what is open. *)
Lemma flush_results msgs open results :
  messages_ok msgs open → block_results results = open → block_uses results = [] →
  messages_ok (flush RUser msgs results) [].
Proof.
  intros Hm Hr Hu. unfold flush. destruct results; [by simpl in Hr; subst|]. by eapply add_user.
Qed.

Lemma coalesce_user msgs open blocks :
  messages_ok msgs open → block_results blocks = open → block_uses blocks = [] →
  messages_ok (coalesce RUser msgs blocks) [].
Proof.
  intros Hm Hr Hu. unfold coalesce. destruct blocks as [|b bs]; [by simpl in Hr; subst|].
  remember (b :: bs) as blocks eqn:Eb. clear b bs Eb.
  destruct (decide (last_role msgs = Some RUser)) as [Hl|Hl]; [|by eapply add_user].
  assert (open = []) as -> by (apply (messages_ok_last _ _ Hm); by rewrite Hl).
  destruct (last_role_Some _ _ Hl) as (init & content & ->). rewrite extend_snoc. destruct Hm as [Ho Hs].
  apply sided_snoc in Hs as [Hs1 Hs2]. unfold sided in Hs2. simpl in Hs2.
  rewrite open_uses_snoc in Ho. split.
  - rewrite open_uses_snoc. destruct (open_uses [] init) as [o|]; [|done]. simpl in *.
    destruct (decide _) as [Hd|]; [|done].
    rewrite block_results_app, Hr, app_nil_r, decide_True by done. by rewrite block_uses_app, Hs2, Hu.
  - apply sided_snoc. split; [done|]. unfold sided. simpl.
    by rewrite block_uses_app, Hs2, Hu.
Qed.
End Rule.

(** ** Bedrock's messages *)

Section Bedrock.
Context `{J : SerdeJson}.

Lemma user_blocks_plain (f : ContentPart → option Block) content :
  (∀ p b, f p = Some b → (∀ id n i, b ≠ BkToolUse id n i)
     ∧ ∀ id c, b = BkToolResult id c → ∃ c', p = PartToolResult id c') →
  block_uses (omap f content) = [] ∧ (hoisted content = [] → block_results (omap f content) = []).
Proof.
  intros Hf. induction content as [|p content [IH1 IH2]]; [done|]. simpl.
  destruct (f p) as [b|] eqn:E.
  - destruct (Hf p b E) as [Hu Hr]. split.
    + simpl. destruct b as [| |id n i|]; try done. by destruct (Hu id n i).
    + intros Hh. simpl. destruct b as [| | |id c]; simpl.
      1-3: apply IH2; destruct p; done.
      destruct (Hr id c eq_refl) as [c' ->]. done.
  - split; [done|]. intros Hh. apply IH2. by destruct p.
Qed.

Lemma bedrock_user_plain content :
  block_uses (omap bedrock_user_block content) = []
  ∧ (hoisted content = [] → block_results (omap bedrock_user_block content) = []).
Proof. apply user_blocks_plain. intros [] b [= <-]; split; try done; intros ?? [= <- <-]; eauto. Qed.

Lemma user_plain content :
  block_uses (omap user_block content) = []
  ∧ (hoisted content = [] → block_results (omap user_block content) = []).
Proof. apply user_blocks_plain. intros [] b [= <-]; split; try done; intros ?? [= <- <-]; eauto. Qed.

Lemma assistant_plain content :
  block_results (omap assistant_block content) = []
  ∧ block_uses (omap assistant_block content) = wc_id <$> nested_calls content.
Proof.
  induction content as [|p content [IH1 IH2]]; [done|]. destruct p; simpl; try done.
  split; [done|]. by f_equal.
Qed.

(** The calls and results at hand, against the open calls of the conversation. *)
Record pending_ok (open : list string) (msgs : list BlockMessage) (calls results : list Block) : Prop := {
  po_open : ∃ told, messages_ok msgs told ∧ told ++ block_uses calls = block_results results ++ open;
  po_calls : block_results calls = [];
  po_results : block_uses results = [];
}.

Lemma pending_call open msgs calls results id name input :
  pending_ok open msgs calls results →
  pending_ok (open ++ [id]) msgs (calls ++ [BkToolUse id name input]) results.
Proof.
  intros [(told & Hm & He) Hc Hr]. split; [|by rewrite block_results_app, Hc|done].
  exists told. split; [done|]. by rewrite block_uses_app, app_assoc, He, <- app_assoc.
Qed.

Lemma pending_result open msgs calls results id content :
  pending_ok (id :: open) msgs calls results →
  pending_ok open (coalesce RAssistant msgs calls) [] (results ++ [BkToolResult id content]).
Proof.
  intros [(told & Hm & He) Hc Hr]. split; [|done|by rewrite block_uses_app, Hr].
  exists (told ++ block_uses calls). split; [by apply coalesce_assistant|].
  by rewrite app_nil_r, He, block_results_app, <- app_assoc.
Qed.

(** With nothing open, the results at hand answer the calls. *)
Lemma pending_closed msgs calls results :
  pending_ok [] msgs calls results →
  messages_ok (coalesce RAssistant msgs calls) (block_results results) ∧ block_uses results = [].
Proof.
  intros [(told & Hm & He) Hc Hr]. split; [|done]. rewrite app_nil_r in He. rewrite <- He.
  by apply coalesce_assistant.
Qed.

Lemma messages_pending msgs : messages_ok msgs [] → pending_ok [] msgs [] [].
Proof. intros H. by split; [exists []|..]. Qed.

(** Calls at hand are open; results at hand follow an assistant message. *)
Record bedrock_ok (open : list string) (acc : BedrockAcc) : Prop := {
  bk_pending : pending_ok open (br_messages acc) (br_pending_assistant acc) (br_pending_tool_results acc);
  bk_open : ∃ before, open = before ++ block_uses (br_pending_assistant acc);
  bk_uses : br_pending_assistant acc = [] ∨ block_uses (br_pending_assistant acc) ≠ [];
  bk_last : br_pending_tool_results acc = [] ∨ last_role (br_messages acc) = Some RAssistant;
  bk_alternate : roles_alternate (br_messages acc);
  bk_content : Forall (λ m, bm_content m ≠ []) (br_messages acc);
}.

(** The shape of the messages: roles alternate, and none is empty. *)
Definition well_shaped (msgs : list BlockMessage) : Prop :=
  roles_alternate msgs ∧ Forall (λ m, bm_content m ≠ []) msgs.

Lemma shaped_snoc msgs role blocks :
  well_shaped msgs → last_role msgs ≠ Some role → blocks ≠ [] →
  well_shaped (msgs ++ [mkBlockMessage role blocks]).
Proof.
  intros [Ha Hc] Hl Hb. split; [by apply alternate_snoc|]. apply Forall_app. split; [done|].
  by repeat constructor.
Qed.

Lemma shaped_coalesce msgs role blocks :
  well_shaped msgs →
  well_shaped (coalesce role msgs blocks)
  ∧ last_role (coalesce role msgs blocks) = if is_nil blocks then last_role msgs else Some role.
Proof.
  intros Hs. unfold coalesce. destruct blocks as [|b bs]; [done|].
  destruct (decide (last_role msgs = Some role)) as [Hl|Hl].
  - destruct (last_role_Some _ _ Hl) as (init & content & ->). rewrite extend_snoc, last_role_snoc.
    destruct Hs as [Ha Hc]. split; [split|done]; [by eapply alternate_replace|].
    apply Forall_app in Hc as [Hc _]. apply Forall_app. split; [done|]. repeat constructor.
    simpl. by destruct content.
  - rewrite last_role_snoc. split; [by apply shaped_snoc|done].
Qed.

Lemma shaped_results msgs results :
  well_shaped msgs → results = [] ∨ last_role msgs = Some RAssistant →
  well_shaped (flush RUser msgs results).
Proof.
  intros Hs Hl. unfold flush. destruct results as [|r rs]; [done|].
  destruct Hl as [?|Hl]; [done|]. apply shaped_snoc; [done|by rewrite Hl|done].
Qed.

Lemma bedrock_call open sys msgs calls results id name input :
  bedrock_ok open (mkBedrockAcc sys msgs calls results) →
  bedrock_ok (open ++ [id]) (mkBedrockAcc sys msgs (calls ++ [BkToolUse id name input]) results).
Proof.
  intros [Hp [before Hb] _ Hl Ha Hc]; simpl in *. split; simpl; try done.
  - by apply pending_call.
  - exists before. by rewrite Hb, block_uses_app, <- app_assoc.
  - right. rewrite block_uses_app. by destruct (block_uses calls).
Qed.

Lemma bedrock_result open sys msgs calls results id content :
  bedrock_ok (id :: open) (mkBedrockAcc sys msgs calls results) →
  bedrock_ok open (mkBedrockAcc sys (coalesce RAssistant msgs calls) [] (results ++ [BkToolResult id content])).
Proof.
  intros [Hp _ _ Hl Ha Hc]; simpl in *.
  destruct (shaped_coalesce msgs RAssistant calls (conj Ha Hc)) as [[Ha' Hc'] Hr].
  split; simpl; try done.
  - by apply pending_result.
  - exists open. by rewrite app_nil_r.
  - by left.
  - right. rewrite Hr. destruct calls as [|c calls]; [|done]. simpl.
    destruct Hl as [->|]; [|done]. destruct Hp as [(told & Hm & He) _ _]. simpl in He. rewrite app_nil_r in He.
    subst told. destruct (decide (last_role msgs = Some RAssistant)) as [|Hn]; [done|].
    by pose proof (messages_ok_last _ _ Hm Hn).
Qed.

(** Between exchanges there are no calls at hand. *)
Lemma bedrock_closed sys msgs calls results :
  bedrock_ok [] (mkBedrockAcc sys msgs calls results) →
  calls = [] ∧ messages_ok msgs (block_results results) ∧ block_uses results = []
  ∧ well_shaped msgs ∧ (results = [] ∨ last_role msgs = Some RAssistant).
Proof.
  intros [Hp [before Hb] Hu Hl Ha Hc]; simpl in *. symmetry in Hb. apply app_eq_nil in Hb as [_ Hb].
  destruct Hu as [->|]; [|done]. apply pending_closed in Hp as [Hm Hr]. done.
Qed.

Lemma bedrock_message sys msgs :
  messages_ok msgs [] → well_shaped msgs → bedrock_ok [] (mkBedrockAcc sys msgs [] []).
Proof. intros Hm [Ha Hc]. split; simpl; auto; [by apply messages_pending|by exists []]. Qed.

Lemma bedrock_step_ok open collecting acc item open' collecting' :
  bedrock_ok open acc → item_open (open, collecting) item = Some (open', collecting') →
  bedrock_ok open' (bedrock_step acc item).
Proof.
  destruct acc as [sys msgs calls results]. intros H.
  destruct item as [content|content a|content|i n a|i c]; simpl.
  - destruct open; [|done]. destruct (hoisted content) eqn:Eh; [|done]. intros [= <- <-].
    apply bedrock_closed in H as (-> & Hm & Hu & Hs & Hl). destruct (bedrock_user_plain content) as [P1 P2].
    apply bedrock_message.
    + eapply coalesce_user; [exact Hm|by rewrite block_results_app, P2, app_nil_r|by rewrite block_uses_app, Hu].
    + by apply shaped_coalesce.
  - destruct open; [|done]. destruct (nested_calls content) eqn:En; [|done]. intros [= <- <-].
    apply bedrock_closed in H as (-> & Hm & Hu & Hs & Hl). destruct (assistant_plain content) as [P1 P2].
    rewrite En in P2. apply bedrock_message.
    + pose proof (coalesce_assistant (flush RUser msgs results) [] _ (flush_results _ _ _ Hm eq_refl Hu) P1) as Hc.
      by rewrite P2 in Hc.
    + apply shaped_coalesce. simpl. by apply shaped_results.
  - destruct open; [|done]. intros [= <- <-]. apply bedrock_closed in H as (-> & Hm & Hu & Hs & Hl).
    apply bedrock_message; [by eapply flush_results|by apply shaped_results].
  - destruct (collecting || is_nil open) eqn:E; [|done]. intros [= <- <-]. by apply bedrock_call.
  - destruct open as [|id open]; [done|]. destruct (String.eqb_spec i id) as [->|]; [|done].
    intros [= <- <-]. by apply bedrock_result.
Qed.

Lemma bedrock_steps_ok items acc open collecting open' collecting' :
  bedrock_ok open acc → items_open (open, collecting) items = Some (open', collecting') →
  bedrock_ok open' (fold_left bedrock_step items acc).
Proof.
  revert acc open collecting. induction items as [|item items IH]; intros acc open collecting H.
  - by intros [= <- <-].
  - cbn [items_open fold_left]. destruct (item_open (open, collecting) item) as [[o b]|] eqn:E; [|done]. simpl.
    apply IH. by eapply bedrock_step_ok.
Qed.
End Bedrock.

(** ** Each side keeps its order *)

Section Sides.
Context `{J : SerdeJson}.

(** The blocks of one role, in order. *)
Definition content_of (role : BlockRole) (msgs : list BlockMessage) : list Block :=
  msgs ≫= λ m, if decide (bm_role m = role) then bm_content m else [].

(** What an item says on a side. *)
Definition side_blocks (user : ContentPart → option Block) (role : BlockRole) (item : Item) : list Block :=
  match role, item with
  | RUser, UserMessage content => omap user content
  | RUser, ToolResult call_id content => [BkToolResult call_id (text_of content)]
  | RAssistant, AssistantMessage content _ => omap assistant_block content
  | RAssistant, ToolCall call_id name args => [BkToolUse call_id name args]
  | _, _ => []
  end.

(** The blocks at hand of a role. *)
Definition at_hand (calls results : list Block) (role : BlockRole) : list Block :=
  match role with RUser => results | RAssistant => calls end.

Lemma content_of_app role m1 m2 : content_of role (m1 ++ m2) = content_of role m1 ++ content_of role m2.
Proof. apply bind_app. Qed.

Lemma content_of_one role r blocks :
  content_of role [mkBlockMessage r blocks] = if decide (r = role) then blocks else [].
Proof. unfold content_of. simpl. by rewrite app_nil_r. Qed.

Lemma content_flush role r msgs blocks :
  content_of role (flush r msgs blocks) = content_of role msgs ++ if decide (r = role) then blocks else [].
Proof.
  unfold flush. destruct blocks; [by destruct (decide _); rewrite app_nil_r|].
  by rewrite content_of_app, content_of_one.
Qed.

Lemma content_extend role r msgs blocks :
  last_role msgs = Some r →
  content_of role (extend_last msgs blocks) = content_of role msgs ++ if decide (r = role) then blocks else [].
Proof.
  intros Hl. destruct (last_role_Some _ _ Hl) as (init & content & ->).
  rewrite extend_snoc, !content_of_app, !content_of_one, <- app_assoc. simpl. f_equal.
  destruct (decide (r = role)); [done|by rewrite app_nil_r].
Qed.

Lemma content_coalesce role r msgs blocks :
  content_of role (coalesce r msgs blocks) = content_of role msgs ++ if decide (r = role) then blocks else [].
Proof.
  unfold coalesce. destruct blocks as [|b bs]; [by destruct (decide _); rewrite app_nil_r|].
  destruct (decide (last_role msgs = Some r)); [by apply content_extend|].
  by rewrite content_of_app, content_of_one.
Qed.

Lemma bedrock_step_sides role acc item :
  let told a := content_of role (br_messages a)
                ++ at_hand (br_pending_assistant a) (br_pending_tool_results a) role in
  told (bedrock_step acc item) = told acc ++ side_blocks bedrock_user_block role item.
Proof.
  destruct acc as [sys msgs calls results], role, item; simpl;
    rewrite ?content_coalesce, ?content_flush, ?content_coalesce, ?content_flush; simpl;
    rewrite ?app_nil_r, <- ?app_assoc; try done; by rewrite ?app_nil_r.
Qed.

Lemma bedrock_sides role items acc :
  let told a := content_of role (br_messages a)
                ++ at_hand (br_pending_assistant a) (br_pending_tool_results a) role in
  told (fold_left bedrock_step items acc) = told acc ++ (items ≫= side_blocks bedrock_user_block role).
Proof.
  revert acc. induction items as [|item items IH]; intros acc; simpl; [by rewrite !app_nil_r|].
  rewrite IH, bedrock_step_sides. by rewrite <- !app_assoc.
Qed.

(** The texts of the system items. *)
Definition system_texts (items : list Item) : list string :=
  omap (λ i, match i with System content => Some (text_of content) | _ => None end) items.

Lemma bedrock_system items acc :
  br_system (fold_left bedrock_step items acc) = br_system acc ++ system_texts items.
Proof.
  revert acc. induction items as [|item items IH]; intros acc; simpl; [by rewrite app_nil_r|].
  rewrite IH. destruct acc, item; simpl; try done. by rewrite <- app_assoc.
Qed.

(** Calls are at hand only when there is no assistant message to take them. *)
Definition calls_waiting (acc : AnthropicAcc) : Prop :=
  pending_tool_use acc = [] ∨ last_role (an_messages acc) ≠ Some RAssistant.

Lemma anthropic_step_sides role acc item :
  let told a := content_of role (an_messages a)
                ++ at_hand (pending_tool_use a) (pending_tool_results a) role in
  calls_waiting acc →
  told (translate_step acc item) = told acc ++ side_blocks user_block role item
  ∧ calls_waiting (translate_step acc item).
Proof.
  destruct acc as [sys msgs calls results]. unfold calls_waiting. simpl. intros Hw.
  destruct item as [content|content a|content|i n a|i c]; simpl; try (split; [|auto; fail]).
  4:{ destruct (decide _) as [Hl|Hl]; simpl.
      - destruct Hw as [->|]; [|done]. split; [|by left]. rewrite (content_extend _ _ _ _ Hl).
        destruct role; simpl; by rewrite ?app_nil_r.
      - split; [|by right]. destruct role; simpl; by rewrite ?app_nil_r, <- ?app_assoc. }
  all: destruct role; simpl;
    rewrite ?content_of_app, ?content_of_one, ?content_flush, ?content_flush; simpl;
    rewrite ?app_nil_r, <- ?app_assoc; try done; by rewrite ?app_nil_r.
Qed.

Lemma anthropic_sides role items acc :
  let told a := content_of role (an_messages a)
                ++ at_hand (pending_tool_use a) (pending_tool_results a) role in
  calls_waiting acc →
  told (fold_left translate_step items acc) = told acc ++ (items ≫= side_blocks user_block role).
Proof.
  simpl. revert acc. induction items as [|item items IH]; intros acc Hw; simpl; [by rewrite !app_nil_r|].
  destruct (anthropic_step_sides role acc item Hw) as [E Hw']. rewrite IH, E by done. by rewrite <- !app_assoc.
Qed.
End Sides.

(** ** Anthropic's messages *)

Section Anthropic.
Context `{J : SerdeJson}.

(** Whether there is an assistant message to carry calls: none, one at the end, one
    that carries an exchange, or none while an exchange goes on. *)
Inductive Carrier : Type := NoCarrier | Free | Carrying | Bare.

Definition carrier_step (c : Carrier) (item : Item) : option Carrier :=
  match item with
  | UserMessage _ => Some NoCarrier
  | AssistantMessage _ _ => match c with Bare => None | _ => Some Free end
  | System _ => Some match c with Free => Free | _ => NoCarrier end
  | ToolCall _ _ _ | ToolResult _ _ => Some match c with NoCarrier | Bare => Bare | _ => Carrying end
  end.

Fixpoint carriers (c : Carrier) (items : list Item) : option Carrier :=
  match items with
  | [] => Some c
  | item :: items' => c' ← carrier_step c item; carriers c' items'
  end.

(** No assistant message follows an exchange that began without one. *)
Definition carried (items : list Item) : bool := match carriers NoCarrier items with Some _ => true | None => false end.

Record anthropic_ok (open : list string) (c : Carrier) (acc : AnthropicAcc) : Prop := {
  ao_pending : pending_ok open (an_messages acc) (pending_tool_use acc) (pending_tool_results acc);
  ao_carrier :
    match c with
    | NoCarrier => last_role (an_messages acc) ≠ Some RAssistant ∧ pending_tool_use acc = []
                   ∧ pending_tool_results acc = []
    | Free => last_role (an_messages acc) = Some RAssistant ∧ pending_tool_use acc = []
              ∧ pending_tool_results acc = []
    | Carrying => last_role (an_messages acc) = Some RAssistant ∧ pending_tool_use acc = []
                  ∧ ¬ messages_ok (an_messages acc) []
    | Bare => last_role (an_messages acc) ≠ Some RAssistant ∧ block_uses (pending_tool_use acc) ≠ []
    end;
}.

(** The calls at hand become a message of their own when none carries them. *)
Lemma flush_coalesce msgs calls :
  calls = [] ∨ last_role msgs ≠ Some RAssistant → flush RAssistant msgs calls = coalesce RAssistant msgs calls.
Proof.
  unfold flush, coalesce. intros [->|Hl]; [done|]. destruct calls; [done|]. by rewrite decide_False.
Qed.

Lemma anthropic_waiting open c acc : anthropic_ok open c acc → calls_waiting acc.
Proof. intros [_ H]. unfold calls_waiting. destruct c; naive_solver. Qed.

Lemma messages_ok_unique msgs o1 o2 : messages_ok msgs o1 → messages_ok msgs o2 → o1 = o2.
Proof. intros [H1 _] [H2 _]. congruence. Qed.

(** Between exchanges: the calls at hand and their results can be sent. *)
Lemma anthropic_closed c sys msgs calls results :
  anthropic_ok [] c (mkAnthropicAcc sys msgs calls results) →
  messages_ok (flush RAssistant msgs calls) (block_results results) ∧ block_uses results = [].
Proof.
  intros H. pose proof (anthropic_waiting _ _ _ H) as Hw. unfold calls_waiting in Hw. simpl in Hw.
  rewrite (flush_coalesce _ _ Hw). destruct H as [Hp _]. by apply pending_closed.
Qed.

Lemma anthropic_user sys sys' msgs calls results content c :
  hoisted content = [] → anthropic_ok [] c (mkAnthropicAcc sys msgs calls results) →
  anthropic_ok [] NoCarrier
    (mkAnthropicAcc sys' (flush RAssistant msgs calls
       ++ [mkBlockMessage RUser (results ++ omap user_block content)]) [] []).
Proof.
  intros Hh H. apply anthropic_closed in H as [Hm Hu]. destruct (user_plain content) as [P1 P2].
  split; simpl; [|by rewrite last_role_snoc]. apply messages_pending.
  eapply add_user; [exact Hm|by rewrite block_results_app, P2, app_nil_r|by rewrite block_uses_app, Hu].
Qed.

Lemma anthropic_system sys sys' msgs calls results c :
  anthropic_ok [] c (mkAnthropicAcc sys msgs calls results) →
  anthropic_ok [] (match c with Free => Free | _ => NoCarrier end)
    (mkAnthropicAcc sys' (flush RUser (flush RAssistant msgs calls) results) [] []).
Proof.
  intros H. pose proof (anthropic_closed _ _ _ _ _ H) as [Hm Hu]. destruct H as [[(told & Ht & He) Hc Hr] Hk].
  simpl in *. rewrite app_nil_r in He. split; simpl.
  { apply messages_pending. by eapply flush_results. }
  destruct c; simpl in Hk.
  - by destruct Hk as (? & -> & ->).
  - by destruct Hk as (? & -> & ->).
  - destruct Hk as (? & -> & Hn). split; [|done]. destruct results as [|r rs]; simpl.
    + by destruct Hn.
    + by rewrite last_role_snoc.
  - destruct Hk as (Hl & Hb). split; [|done]. destruct results as [|r rs]; simpl.
    + simpl in He. by apply app_eq_nil in He as [_ ?].
    + by rewrite last_role_snoc.
Qed.

Lemma anthropic_assistant sys msgs calls results content c :
  nested_calls content = [] → c ≠ Bare → anthropic_ok [] c (mkAnthropicAcc sys msgs calls results) →
  anthropic_ok [] Free
    (mkAnthropicAcc sys (flush RAssistant (flush RUser msgs results) calls
       ++ [mkBlockMessage RAssistant (omap assistant_block content)]) [] []).
Proof.
  intros Hn Hc H. pose proof (anthropic_closed _ _ _ _ _ H) as [Hm Hu]. destruct H as [_ Hk]. simpl in *.
  assert (calls = []) as -> by (destruct c; naive_solver). simpl in *.
  destruct (assistant_plain content) as [P1 P2]. rewrite Hn in P2.
  split; simpl; [|by rewrite last_role_snoc]. apply messages_pending.
  pose proof (add_assistant _ _ (flush_results _ _ _ Hm eq_refl Hu) P1) as Ha. by rewrite P2 in Ha.
Qed.

Lemma anthropic_call sys msgs calls results id name input open c :
  anthropic_ok open c (mkAnthropicAcc sys msgs calls results) →
  anthropic_ok (open ++ [id]) (match c with NoCarrier | Bare => Bare | _ => Carrying end)
    (translate_step (mkAnthropicAcc sys msgs calls results) (ToolCall id name input)).
Proof.
  intros [Hp Hk]. simpl in *. destruct (decide (last_role msgs = Some RAssistant)) as [Hl|Hl].
  - assert (calls = [] ∧ (c = Free ∨ c = Carrying)) as [-> Hcc] by (destruct c; naive_solver).
    destruct Hp as [(told & Hm & He) Hc Hr]. simpl in *. rewrite app_nil_r in He.
    pose proof (extend_assistant msgs told [BkToolUse id name input] Hm Hl eq_refl) as Hx.
    split; simpl.
    + split; [|done..]. exists (told ++ [id]). split; [done|]. simpl. by rewrite app_nil_r, He, app_assoc.
    + destruct Hcc as [->| ->]; (split; [|split; [done|]]).
      1,3: destruct (last_role_Some _ _ Hl) as (init & content & ->); by rewrite extend_snoc, last_role_snoc.
      all: intros H0; pose proof (messages_ok_unique _ _ _ H0 Hx) as Hb; simpl in Hb; by destruct told.
  - split; simpl; [by apply pending_call|].
    assert (c = NoCarrier ∨ c = Bare) as [->| ->] by (destruct c; naive_solver);
      (split; [done|]); rewrite block_uses_app; by destruct (block_uses calls).
Qed.

Lemma anthropic_result sys msgs calls results id content open c :
  anthropic_ok (id :: open) c (mkAnthropicAcc sys msgs calls results) →
  anthropic_ok open (match c with NoCarrier | Bare => Bare | _ => Carrying end)
    (mkAnthropicAcc sys msgs calls (results ++ [BkToolResult id content])).
Proof.
  intros [[(told & Hm & He) Hc Hr] Hk]. simpl in *. split; simpl.
  - split; [|done|by rewrite block_uses_app, Hr]. exists told. split; [done|].
    by rewrite He, block_results_app, <- app_assoc.
  - destruct c; simpl in *.
    + destruct Hk as (Hl & -> & ->). pose proof (messages_ok_last _ _ Hm Hl) as ->. done.
    + destruct Hk as (Hl & -> & ->). split_and!; [done..|]. intros H0.
      pose proof (messages_ok_unique _ _ _ Hm H0) as ->. done.
    + done.
    + done.
Qed.

Lemma anthropic_step_ok open collecting acc item open' collecting' c c' :
  anthropic_ok open c acc → item_open (open, collecting) item = Some (open', collecting') →
  carrier_step c item = Some c' → anthropic_ok open' c' (translate_step acc item).
Proof.
  destruct acc as [sys msgs calls results]. intros H.
  destruct item as [content|content a|content|i n a|i r]; cbn [item_open carrier_step].
  - destruct open; [|done]. destruct (hoisted content) eqn:Eh; [|done]. intros [= <- <-] [= <-].
    by eapply anthropic_user.
  - destruct open; [|done]. destruct (nested_calls content) eqn:En; [|done]. intros [= <- <-] Hc.
    destruct c; simplify_eq; (eapply anthropic_assistant; [exact En| |exact H]; done).
  - destruct open; [|done]. intros [= <- <-] [= <-]. by eapply anthropic_system.
  - destruct (collecting || is_nil open) eqn:E; [|done]. intros [= <- <-] [= <-]. by apply anthropic_call.
  - destruct open as [|id open]; [done|]. destruct (String.eqb_spec i id) as [->|]; [|done].
    intros [= <- <-] [= <-]. by apply anthropic_result.
Qed.

(** *** What goes wrong without a carrier *)

Lemma failed_snoc msgs m : open_uses [] msgs = None → open_uses [] (msgs ++ [m]) = None.
Proof. intros H. by rewrite open_uses_snoc, H. Qed.

Lemma failed_flush msgs role blocks : open_uses [] msgs = None → open_uses [] (flush role msgs blocks) = None.
Proof. intros H. unfold flush. destruct blocks; [done|by apply failed_snoc]. Qed.

Lemma failed_extend msgs blocks :
  block_results blocks = [] → open_uses [] msgs = None → open_uses [] (extend_last msgs blocks) = None.
Proof.
  intros Hb H. unfold extend_last. destruct (last msgs) as [m|] eqn:El; [|done].
  apply last_split in El. rewrite El in H. rewrite open_uses_snoc in H |- *.
  destruct (open_uses [] (removelast msgs)) as [o|]; [|done]. simpl in *.
  rewrite block_results_app, Hb, app_nil_r. by destruct (decide _).
Qed.

Lemma failed_steps items acc :
  open_uses [] (an_messages acc) = None →
  open_uses [] (an_messages (fold_left translate_step items acc)) = None.
Proof.
  revert acc. induction items as [|item items IH]; intros acc H; [done|]. simpl. apply IH.
  destruct acc as [sys msgs calls results]. simpl in H. destruct item; simpl.
  - by apply failed_snoc, failed_flush.
  - by apply failed_snoc, failed_flush, failed_flush.
  - by apply failed_flush, failed_flush.
  - destruct (decide _); [by apply failed_extend|done].
  - done.
Qed.

(** Results sent before their calls. *)
Lemma bare_assistant open sys msgs calls results content agent :
  anthropic_ok open Bare (mkAnthropicAcc sys msgs calls results) → open = [] →
  open_uses [] (an_messages (translate_step (mkAnthropicAcc sys msgs calls results) (AssistantMessage content agent)))
  = None.
Proof.
  intros [[(told & Hm & He) _ _] (Hl & Hb)] ->. simpl in *. rewrite app_nil_r in He.
  pose proof (messages_ok_last _ _ Hm Hl) as ->. simpl in He. destruct Hm as [Hu _].
  apply failed_snoc, failed_flush. unfold flush. destruct results as [|r rs]; [done|].
  rewrite open_uses_snoc, Hu. simpl in *. rewrite decide_False; [done|]. congruence.
Qed.

(** A conversation goes on to a state that answers, or fails for good. *)
Lemma anthropic_steps items open collecting acc open' collecting' c :
  anthropic_ok open c acc → items_open (open, collecting) items = Some (open', collecting') →
  match carriers c items with
  | Some c' => anthropic_ok open' c' (fold_left translate_step items acc)
  | None => open_uses [] (an_messages (fold_left translate_step items acc)) = None
  end.
Proof.
  revert acc open collecting c. induction items as [|item items IH]; intros acc open collecting c H.
  - by intros [= <- <-].
  - cbn [items_open fold_left carriers].
    destruct (item_open (open, collecting) item) as [[o b]|] eqn:E; [|done]. cbn. intros Hi.
    destruct (carrier_step c item) as [c1|] eqn:Ec; cbn.
    + eapply IH; [|exact Hi]. by eapply anthropic_step_ok.
    + apply failed_steps. destruct item; try done. destruct c; try done. destruct acc.
      apply (bare_assistant open); [done|]. simpl in E. by destruct open.
Qed.

Lemma anthropic_end items open collecting c :
  items_open ([], true) items = Some (open, collecting) → carriers NoCarrier items = Some c →
  anthropic_ok open c (fold_left translate_step items (mkAnthropicAcc "" [] [] [])).
Proof.
  intros H Hc. assert (anthropic_ok [] NoCarrier (mkAnthropicAcc "" [] [] [])) as H0.
  { split; [apply messages_pending; by split|done]. }
  pose proof (anthropic_steps _ _ _ _ _ _ _ H0 H) as Hs. by rewrite Hc in Hs.
Qed.

(** The system texts in order, joined by newlines. *)
Lemma anthropic_system_text items acc :
  system_text (fold_left translate_step items acc) = fold_left push_text (system_texts items) (system_text acc).
Proof.
  revert acc. induction items as [|item items IH]; intros acc; [done|]. simpl. rewrite IH.
  destruct acc, item; simpl; try done. by destruct (decide _).
Qed.
End Anthropic.


(** What Bedrock's translation of answered calls comes to. *)
Lemma bedrock_answers `{J : SerdeJson} items :
  paired items →
  match items_to_messages items with
  | Ok (_, msgs) =>
      bm_role <$> head msgs = Some RUser ∧ roles_alternate msgs
      ∧ Forall (λ m, bm_content m ≠ []) msgs ∧ answered_blocks msgs
  | Err _ => True
  end.
Proof.
  intros [b Hp]. unfold items_to_messages. set (acc0 := mkBedrockAcc [] [] [] []).
  assert (bedrock_ok [] acc0) as H0 by (apply bedrock_message; [by split|done]).
  pose proof (bedrock_steps_ok _ _ _ _ _ _ H0 Hp) as H.
  destruct (fold_left bedrock_step items acc0) as [sys msgs calls results].
  apply bedrock_closed in H as (-> & Hm & Hu & Hs & Hl). simpl.
  pose proof (flush_results _ _ _ Hm eq_refl Hu) as [Ha _].
  pose proof (shaped_results _ _ Hs Hl) as [Hr Hc].
  destruct (flush RUser msgs results) as [|[r content] ms]; [done|]. simpl.
  destruct r; split_and!; try done. by constructor.
Qed.

(** Bedrock's messages say what the items say. *)
Lemma bedrock_says `{J : SerdeJson} items :
  match items_to_messages items with
  | Ok (sys, msgs) =>
      sys = system_texts items
      ∧ ∃ lead rest, msgs = lead ++ rest ∧ (lead = [] ∨ lead = [mkBlockMessage RUser [BkText ""]])
          ∧ ∀ role, content_of role rest = items ≫= side_blocks bedrock_user_block role
  | Err _ => ∀ role, items ≫= side_blocks bedrock_user_block role = []
  end.
Proof.
  unfold items_to_messages. set (acc0 := mkBedrockAcc [] [] [] []).
  pose proof (λ role, bedrock_sides role items acc0) as Hsides.
  pose proof (bedrock_system items acc0) as Hsys. simpl in Hsides, Hsys.
  destruct (fold_left bedrock_step items acc0) as [sys msgs calls results]. simpl in *.
  assert (∀ role, content_of role (flush RUser (coalesce RAssistant msgs calls) results)
                  = items ≫= side_blocks bedrock_user_block role) as Hsd.
  { intros role. rewrite content_flush, content_coalesce, <- app_assoc. specialize (Hsides role).
    destruct role; simpl in *; rewrite <- Hsides; by rewrite ?app_nil_r. }
  destruct (flush RUser _ results) as [|[r content] ms]; [by intros role; rewrite <- Hsd|]. simpl.
  split; [done|]. destruct r.
  - eexists [], _. split; [done|]. split; [by left|done].
  - eexists [_], _. split; [done|]. split; [by right|done].
Qed.


Module BlockRequestsDemo.
#[local] Existing Instance Toy.json.

(** A call without a message, its result, and the answer. *)
Definition bare_history : list Item :=
  [UserMessage [Text "when?"]; ToolCall "c1" "clock" VNull; ToolResult "c1" [Text "12:00"];
   AssistantMessage [Text "noon"] (Some "bot"); UserMessage [Text "thanks"]].

(** Anthropic gets the result before the call. *)
Example result_first :
  (translate_messages bare_history).2
  = [mkBlockMessage RUser [BkText "when?"]; mkBlockMessage RUser [BkToolResult "c1" "12:00"];
     mkBlockMessage RAssistant [BkToolUse "c1" "clock" VNull]; mkBlockMessage RAssistant [BkText "noon"];
     mkBlockMessage RUser [BkText "thanks"]].
Proof. vm_compute. reflexivity. Qed.

(** Two rounds of calls are sent as one, to both. *)
Example rounds_merge :
  let items := [UserMessage [Text "when?"]; AssistantMessage [Text "let me see"] None;
                ToolCall "c1" "clock" VNull; ToolResult "c1" [Text "12:00"];
                ToolCall "c2" "map" VNull; ToolResult "c2" [Text "here"]] in
  let msgs := [mkBlockMessage RUser [BkText "when?"];
               mkBlockMessage RAssistant [BkText "let me see"; BkToolUse "c1" "clock" VNull; BkToolUse "c2" "map" VNull];
               mkBlockMessage RUser [BkToolResult "c1" "12:00"; BkToolResult "c2" "here"]] in
  translate_messages items = (None, msgs) ∧ items_to_messages items = Ok ([], msgs).
Proof. vm_compute. done. Qed.

Lemma bare_paired : paired bare_history.
Proof. by exists true. Qed.


End BlockRequestsDemo.
