(* ===== verification/Gemini.v ===== *)
(** The Gemini provider (paigasus-helikon-providers-gemini/src): the chunks of a
    response (sse.rs), their translation into model events ([StreamTranslator] of
    stream.rs), the classification of failures (error.rs), the streaming loop of
    [GeminiModel::invoke] (model.rs), and the translation of conversations
    (translate/request.rs), whose JSON is an inductive here.  [retry-after] is
    parsed as LiteLLM's provider does ([parse_retry_after_ms]).

    Deserializing a chunk is the parameter [parse_chunk].  A call without an id
    is given one, numbered from zero in every response: [ids_repeat] shows that
    two turns of a conversation then share it, and that the second turn's name is
    sent with the first turn's result. *)

From S2P Require Import Prelude Json Items Redaction ModelTurn LiteLlm ContentBlocks OpenAiRequest.

(** ** Failures *)

Definition classify (status : Z) (status_field : option string) (message : string) (retry_after_ms : option Z)
  : ModelError :=
  if Z.eqb status 429 then RateLimited retry_after_ms
  else if one_of status [500; 502; 503; 504]%Z then Unavailable
  else if one_of status [401; 403]%Z then Refused message
  else if Z.eqb status 400 then
    let lc := string_lower message in
    if contains_str lc "token count" || (contains_str lc "maximum" && contains_str lc "context")
       || (contains_str lc "exceeds" && contains_str lc "token")
    then ContextLengthExceeded
    else ModelOther ("gemini " +:+ default "INVALID_ARGUMENT" status_field +:+ ": " +:+ message)
  else ModelOther ("gemini http " +:+ show_Z status +:+ " " +:+ default "" status_field +:+ ": " +:+ message).

Section Gemini.
Context `{J : SerdeJson}.

(** ** Chunks *)

Record FunctionCall := mkFunctionCall { fc_id : option string; fc_name : string; fc_args : Value }.

Record Part := mkPart { p_text : option string; p_function_call : option FunctionCall }.

Record Candidate := mkCandidate { c_content : option (list Part); c_finish_reason : option string }.

Record UsageMetadata := mkUsageMetadata {
  prompt_token_count : Z;
  candidates_token_count : Z;
  cached_content_token_count : option Z;
  thoughts_token_count : option Z;
}.

(** [prompt_feedback] is there when the prompt was judged, with the reason it was
    blocked if it was. *)
Record GeminiChunk := mkGeminiChunk {
  candidates : list Candidate;
  usage_metadata : option UsageMetadata;
  prompt_feedback : option (option string);
}.

(** ** The translator *)

Record StreamTranslator := mkStreamTranslator {
  fn_index : nat;
  saw_function_call : bool;
  finish_reason : option string;
}.

Definition StreamTranslator_new : StreamTranslator := mkStreamTranslator 0 false None.

Definition synthesized_id (n : nat) : string := "fc_" +:+ show_Z (Z.of_nat n).

Definition consume_part (t : StreamTranslator) (p : Part) : StreamTranslator * list ModelEvent :=
  match p_text p, p_function_call p with
  | Some text, _ => (t, [METokenDelta text])
  | None, Some fc =>
      let '(n, call_id) :=
        match fc_id fc with
        | Some id => (fn_index t, id)
        | None => (S (fn_index t), synthesized_id (fn_index t))
        end in
      (mkStreamTranslator n true (finish_reason t),
       [METoolCallDelta call_id (Some (fc_name fc)) (to_string (fc_args fc))])
  | None, None => (t, [])
  end.

Fixpoint consume_parts (t : StreamTranslator) (ps : list Part) : StreamTranslator * list ModelEvent :=
  match ps with
  | [] => (t, [])
  | p :: ps' =>
      let '(t1, out) := consume_part t p in let '(t2, out') := consume_parts t1 ps' in (t2, out ++ out')
  end.

Definition usage_event (u : UsageMetadata) : ModelEvent :=
  MEUsage (prompt_token_count u) (candidates_token_count u) (cached_content_token_count u)
    (thoughts_token_count u).

Definition set_finish_reason (r : option string) (t : StreamTranslator) : StreamTranslator :=
  match r with
  | Some _ => mkStreamTranslator (fn_index t) (saw_function_call t) r
  | None => t
  end.

(** Only the first candidate is read. *)
Definition consume (t : StreamTranslator) (chunk : GeminiChunk)
  : StreamTranslator * list (result ModelEvent ModelError) :=
  match prompt_feedback chunk with
  | Some (Some reason) => (t, [Err (Refused ("prompt blocked: " +:+ reason))])
  | _ =>
      let '(t1, out) :=
        match candidates chunk with
        | cand :: _ =>
            let '(t', out) := consume_parts t (default [] (c_content cand)) in
            (set_finish_reason (c_finish_reason cand) t', out)
        | [] => (t, [])
        end in
      (t1, Ok <$> out ++ (usage_event <$> option_list (usage_metadata chunk)))
  end.

Definition map_finish (saw_function_call : bool) (reason : string) : FinishReason :=
  if String.eqb reason "STOP" then if saw_function_call then ToolCalls else Stop
  else if String.eqb reason "MAX_TOKENS" then Length
  else if existsb (String.eqb reason) ["SAFETY"; "RECITATION"; "PROHIBITED_CONTENT"; "BLOCKLIST"; "SPII"]
  then ContentFilter
  else FinishOther reason.

Definition finish (t : StreamTranslator) : list ModelEvent :=
  (λ reason, MEFinish (map_finish (saw_function_call t) reason)) <$> option_list (finish_reason t).

(** ** The streaming loop *)

Section Stream.
Variable parse_chunk : string → result GeminiChunk string.

(** The events of a chunk, and what comes after them unless one is an error. *)
Fixpoint deliver (events rest : list (result ModelEvent ModelError)) : list (result ModelEvent ModelError) :=
  match events with
  | [] => rest
  | Ok ev :: events' => Ok ev :: deliver events' rest
  | Err e :: _ => [Err e]
  end.

Fixpoint stream_loop (t : StreamTranslator) (polls : list Polled) : list (result ModelEvent ModelError) :=
  match polls with
  | [] => Ok <$> finish t
  | PollCancelled :: _ => []
  | PollErr m :: _ => [Err (Transport m)]
  | PollData data :: polls' =>
      if String.eqb data "[DONE]" then Ok <$> finish t
      else match parse_chunk data with
           | Err _ => stream_loop t polls'
           | Ok chunk => let '(t', events) := consume t chunk in deliver events (stream_loop t' polls')
           end
  end.

(** The status and the message of an error body; a body that is not JSON is the
    message. *)
Definition error_of_body (body : string) : string * string :=
  match from_str body with
  | Ok v =>
      let field k := default "" (e ← get v "error"; x ← get e k; as_str x) in
      (field "status", field "message")
  | Err _ => ("", body)
  end.

Record GeminiResponse := mkGeminiResponse {
  g_status : Z;
  g_retry_after : option string;
  g_body : string;
  g_polls : list Polled;
}.

Inductive GeminiSent : Type :=
| GSentCancelled
| GSendFailed (msg : string)
| GResponded (r : GeminiResponse).

(** The stream of [invoke], once the request is prepared and authorized. *)
Definition invoke_stream (sent : GeminiSent) : list (result ModelEvent ModelError) :=
  match sent with
  | GSentCancelled => []
  | GSendFailed m => [Err (Transport m)]
  | GResponded r =>
      if (200 <=? g_status r)%Z && (g_status r <? 300)%Z
      then stream_loop StreamTranslator_new (g_polls r)
      else let '(sfield, message) := error_of_body (g_body r) in
           [Err (classify (g_status r) (if is_empty sfield then None else Some sfield) message
                   (parse_retry_after_ms (g_retry_after r)))]
  end.
End Stream.

(** ** Conversations *)

Inductive GeminiPart : Type :=
| GText (text : string)
| GInlineData (mime_type data : string)
| GFunctionCall (id name : string) (args : Value)
| GFunctionResponse (id name : string) (response : Value).

Inductive GeminiRole : Type := GUser | GModel.

Record GeminiContent := mkGeminiContent { gc_role : GeminiRole; gc_parts : list GeminiPart }.

(** The calls of an item. *)
Definition item_calls (item : Item) : list (string * string) :=
  match item with
  | ToolCall call_id name _ => [(call_id, name)]
  | AssistantMessage content _ =>
      omap (λ p, match p with PartToolUse call_id name _ => Some (call_id, name) | _ => None end) content
  | _ => []
  end.

(** The names of the calls, the last call of an id winning. *)
Definition call_names (items : list Item) : gmap string string :=
  fold_left (λ m c, <[c.1 := c.2]> m) (items ≫= item_calls) ∅.

(** The text parts joined, read as a JSON object when it is one. *)
Definition tool_response_object (content : list ContentPart) : Value :=
  let text := concat_all (omap (λ p, match p with Text text => Some text | _ => None end) content) in
  match from_str text with
  | Ok v => match as_object v with Some _ => v | None => VObject [("result", v)] end
  | Err _ => VObject [("result", VString text)]
  end.

Definition function_response (names : gmap string string) (call_id : string) (content : list ContentPart)
  : result GeminiPart ModelError :=
  match names !! call_id with
  | Some name => Ok (GFunctionResponse call_id name (tool_response_object content))
  | None => Err (ModelOther ("tool result references unknown call_id " +:+ call_id))
  end.

Fixpoint user_parts (names : gmap string string) (content : list ContentPart)
  : result (list GeminiPart) ModelError :=
  match content with
  | [] => Ok []
  | p :: content' =>
      match match p with
            | Text text => Ok [GText text]
            | Image (Base64 mime_type data) => Ok [GInlineData mime_type data]
            | PartToolResult call_id c =>
                match function_response names call_id c with Ok r => Ok [r] | Err e => Err e end
            | _ => Ok []
            end with
      | Err e => Err e
      | Ok here => match user_parts names content' with Ok more => Ok (here ++ more) | Err e => Err e end
      end
  end.

Definition assistant_parts (content : list ContentPart) : list GeminiPart :=
  omap (λ p, match p with
             | Text text => Some (GText text)
             | PartToolUse call_id name args => Some (GFunctionCall call_id name args)
             | _ => None
             end) content.

Definition text_parts (content : list ContentPart) : list GeminiPart :=
  omap (λ p, match p with Text text => Some (GText text) | _ => None end) content.

(** The contents of an item. *)
Definition item_contents (names : gmap string string) (item : Item) : result (list GeminiContent) ModelError :=
  match item with
  | System _ => Ok []
  | UserMessage content =>
      match user_parts names content with
      | Ok [] => Ok []
      | Ok parts => Ok [mkGeminiContent GUser parts]
      | Err e => Err e
      end
  | AssistantMessage content _ => Ok [mkGeminiContent GModel (assistant_parts content)]
  | ToolCall call_id name args => Ok [mkGeminiContent GModel [GFunctionCall call_id name args]]
  | ToolResult call_id content =>
      match function_response names call_id content with
      | Ok r => Ok [mkGeminiContent GUser [r]]
      | Err e => Err e
      end
  end.

Fixpoint contents_from (names : gmap string string) (items : list Item) : result (list GeminiContent) ModelError :=
  match items with
  | [] => Ok []
  | item :: items' =>
      match item_contents names item with
      | Err e => Err e
      | Ok here => match contents_from names items' with Ok more => Ok (here ++ more) | Err e => Err e end
      end
  end.

(** The parts of the system instruction, and the contents. *)
Definition items_to_contents (items : list Item) : result (list GeminiPart * list GeminiContent) ModelError :=
  match contents_from (call_names items) items with
  | Err e => Err e
  | Ok [] => Err (ModelOther "gemini request has no user/model turns (empty or system-only conversation)")
  | Ok contents =>
      Ok (items ≫= λ i, match i with System content => text_parts content | _ => [] end, contents)
  end.

(** ** What a response says *)

(** The parts of the first candidates. *)
Definition chunk_parts (chunk : GeminiChunk) : list Part :=
  match candidates chunk with cand :: _ => default [] (c_content cand) | [] => [] end.
Definition chunk_reason (chunk : GeminiChunk) : option string :=
  cand ← head (candidates chunk); c_finish_reason cand.

(** A part with a text is a text, whatever else it has. *)
Definition part_call (p : Part) : option FunctionCall :=
  match p_text p with Some _ => None | None => p_function_call p end.

(** The calls with their ids, the ids that are missing numbered from [n]. *)
Fixpoint identify (n : nat) (calls : list FunctionCall) : list (string * FunctionCall) :=
  match calls with
  | [] => []
  | fc :: calls' =>
      match fc_id fc with
      | Some id => (id, fc) :: identify n calls'
      | None => (synthesized_id n, fc) :: identify (S n) calls'
      end
  end.

Definition missing (calls : list FunctionCall) : nat :=
  length (List.filter (λ fc, match fc_id fc with None => true | Some _ => false end) calls).

Lemma identify_app n l1 l2 : identify n (l1 ++ l2) = identify n l1 ++ identify (n + missing l1) l2.
Proof.
  revert n. induction l1 as [|fc l1 IH]; intros n; simpl; [by rewrite Nat.add_0_r|].
  unfold missing. simpl. destruct (fc_id fc); simpl; rewrite IH; [done|]. do 2 f_equal. unfold missing. f_equal. lia.
Qed.

Lemma missing_app l1 l2 : missing (l1 ++ l2) = (missing l1 + missing l2)%nat.
Proof. unfold missing. by rewrite List.filter_app, length_app. Qed.

(** The deltas of one id: each of its calls whole. *)
Definition id_deltas (c : string) (calls : list (string * FunctionCall)) : list (option string * string) :=
  omap (λ p, if String.eqb c p.1 then Some (Some (fc_name p.2), to_string (fc_args p.2)) else None) calls.

(** Events that tell parts and usages, the ids that are missing numbered from [n]. *)
Record tells (n : nat) (parts : list Part) (usages : list UsageMetadata) (out : list ModelEvent) : Prop := {
  te_text : text_deltas out = omap p_text parts;
  te_reasoning : reasoning_deltas out = [];
  te_calls : ∀ c, call_deltas c out = id_deltas c (identify n (omap part_call parts));
  te_usage : usage_events out = (λ u, usage_of_event (prompt_token_count u) (candidates_token_count u)
               (cached_content_token_count u) (thoughts_token_count u)) <$> usages;
  te_finish : finish_events out = [];
}.

Lemma tells_nil n : tells n [] [] [].
Proof. by split. Qed.

Lemma tells_app n p1 p2 u1 u2 o1 o2 :
  tells n p1 u1 o1 → tells (n + missing (omap part_call p1)) p2 u2 o2 → tells n (p1 ++ p2) (u1 ++ u2) (o1 ++ o2).
Proof.
  intros [T1 R1 C1 U1 F1] [T2 R2 C2 U2 F2]. split.
  - unfold text_deltas in *. by rewrite !omap_app, T1, T2.
  - unfold reasoning_deltas in *. by rewrite omap_app, R1, R2.
  - intros c. rewrite call_deltas_app, C1, C2, omap_app, identify_app. unfold id_deltas. by rewrite omap_app.
  - unfold usage_events in *. by rewrite omap_app, U1, U2, fmap_app.
  - unfold finish_events in *. by rewrite omap_app, F1, F2.
Qed.

(** The translator after parts that say this. *)
Record advanced (t t' : StreamTranslator) (parts : list Part) (reason : option string) : Prop := {
  ad_index : fn_index t' = (fn_index t + missing (omap part_call parts))%nat;
  ad_call : saw_function_call t' = saw_function_call t || negb (is_nil (omap part_call parts));
  ad_reason : finish_reason t' = match reason with Some r => Some r | None => finish_reason t end;
}.

Lemma advanced_app t1 t2 t3 p1 p2 r1 r2 :
  advanced t1 t2 p1 r1 → advanced t2 t3 p2 r2 →
  advanced t1 t3 (p1 ++ p2) (match r2 with Some r => Some r | None => r1 end).
Proof.
  intros [I1 S1 R1] [I2 S2 R2]. split; rewrite ?omap_app, ?missing_app.
  - lia.
  - rewrite S2, S1. by destruct (saw_function_call t1), (omap part_call p1), (omap part_call p2).
  - rewrite R2, R1. by destruct r2.
Qed.

Lemma consume_part_tells t p :
  let '(t', out) := consume_part t p in advanced t t' [p] None ∧ tells (fn_index t) [p] [] out.
Proof.
  destruct t as [n s r], p as [[text|] [[[id|] name args]|]]; simpl; split; split; simpl;
    rewrite ?orb_false_r, ?orb_true_r; unfold missing; simpl; try done; try lia; intros c; simpl;
    by destruct (String.eqb c _).
Qed.

Lemma consume_parts_tells t ps :
  let '(t', out) := consume_parts t ps in advanced t t' ps None ∧ tells (fn_index t) ps [] out.
Proof.
  revert t. induction ps as [|p ps IH]; intros t; simpl.
  - split; [|apply tells_nil]. split; simpl; [unfold missing; simpl; lia|by rewrite orb_false_r|done].
  - pose proof (consume_part_tells t p) as H1. destruct (consume_part t p) as [t1 o1]. destruct H1 as [A1 T1].
    specialize (IH t1). destruct (consume_parts t1 ps) as [t2 o2]. destruct IH as [A2 T2]. split.
    + apply (advanced_app _ _ _ [p] ps None None A1 A2).
    + apply (tells_app _ [p] ps [] []); [done|]. by rewrite <- (ad_index _ _ _ _ A1).
Qed.

(** A chunk whose prompt is not blocked. *)
Definition is_open (chunk : GeminiChunk) : bool :=
  match prompt_feedback chunk with Some (Some _) => false | _ => true end.

Lemma advanced_reason t t' parts r : advanced t t' parts None → advanced t (set_finish_reason r t') parts r.
Proof. intros [I S R]. split; unfold set_finish_reason; by destruct r. Qed.

Lemma tells_usage n parts u out :
  tells n parts [] out → tells n parts (option_list u) (out ++ (usage_event <$> option_list u)).
Proof.
  intros T. rewrite <- (app_nil_r parts). change (option_list u) with ([] ++ option_list u) at 1.
  apply tells_app; [done|]. by destruct u; split.
Qed.

Lemma consume_tells t chunk :
  is_open chunk = true →
  ∃ t' out, consume t chunk = (t', Ok <$> out) ∧ advanced t t' (chunk_parts chunk) (chunk_reason chunk)
  ∧ tells (fn_index t) (chunk_parts chunk) (option_list (usage_metadata chunk)) out.
Proof.
  intros Ho. unfold consume, chunk_parts, chunk_reason.
  replace (match prompt_feedback chunk with Some (Some reason) => _ | _ => _ end)
    with (let '(t1, out) :=
            match candidates chunk with
            | cand :: _ =>
                let '(t', out) := consume_parts t (default [] (c_content cand)) in
                (set_finish_reason (c_finish_reason cand) t', out)
            | [] => (t, [])
            end in
          (t1, @Ok ModelEvent ModelError <$> out ++ (usage_event <$> option_list (usage_metadata chunk))))
    by (unfold is_open in Ho; by destruct (prompt_feedback chunk) as [[]|]).
  destruct (candidates chunk) as [|cand l]; simpl.
  - eexists _, _. split; [done|]. split; [|by apply (tells_usage _ _ _ []), tells_nil].
    split; simpl; [unfold missing; simpl; lia|by rewrite orb_false_r|done].
  - pose proof (consume_parts_tells t (default [] (c_content cand))) as H.
    destruct (consume_parts t _) as [t1 out]. destruct H as [A T]. eexists _, _. split; [done|].
    split; [by apply advanced_reason|by apply tells_usage].
Qed.

(** A whole stream of chunks. *)
Definition last_reason (chunks : list GeminiChunk) : option string := last (omap chunk_reason chunks).
Definition turn_parts (chunks : list GeminiChunk) : list Part := chunks ≫= chunk_parts.
Definition turn_calls (chunks : list GeminiChunk) : list (string * FunctionCall) :=
  identify 0 (omap part_call (turn_parts chunks)).

Lemma last_reason_cons chunk chunks :
  last_reason (chunk :: chunks) = match last_reason chunks with Some r => Some r | None => chunk_reason chunk end.
Proof.
  unfold last_reason. simpl. destruct (chunk_reason chunk) as [r|]; [by rewrite last_cons|].
  by destruct (last _).
Qed.

Section Loop.
Variable parse_chunk : string → result GeminiChunk string.

Definition parsed (data : string) : option GeminiChunk :=
  match parse_chunk data with Ok chunk => Some chunk | Err _ => None end.

Lemma deliver_ok (evs : list ModelEvent) rest : deliver (Ok <$> evs) rest = (Ok <$> evs) ++ rest.
Proof. induction evs as [|ev evs IH]; simpl; [done|]. by f_equal. Qed.

Lemma stream_loop_tells datas t polls :
  Forall (λ d, d ≠ "[DONE]") datas → Forall (λ ch, is_open ch = true) (omap parsed datas) →
  ∃ t' out, stream_loop parse_chunk t ((PollData <$> datas) ++ polls)
            = (Ok <$> out) ++ stream_loop parse_chunk t' polls
  ∧ advanced t t' (turn_parts (omap parsed datas)) (last_reason (omap parsed datas))
  ∧ tells (fn_index t) (turn_parts (omap parsed datas)) (omap usage_metadata (omap parsed datas)) out.
Proof.
  revert t. induction datas as [|d datas IH]; intros t; simpl.
  - intros _ _. exists t, []. split; [done|]. split; [|apply tells_nil].
    split; simpl; [unfold missing; simpl; lia|by rewrite orb_false_r|done].
  - intros [Hd%String.eqb_neq Hds]%Forall_cons. rewrite Hd.
    assert (parsed d = match parse_chunk d with Ok chunk => Some chunk | Err _ => None end) as Ep by done.
    destruct (parse_chunk d) as [chunk|]; rewrite Ep; [|by apply IH]. intros [Ho Hos]%Forall_cons.
    destruct (consume_tells t chunk Ho) as (t1 & o1 & -> & A1 & T1).
    destruct (IH t1 Hds Hos) as (t2 & o2 & E & A2 & T2).
    exists t2, (o1 ++ o2). split_and!.
    + rewrite deliver_ok, fmap_app, <- app_assoc. f_equal. exact E.
    + rewrite last_reason_cons. exact (advanced_app _ _ _ _ _ _ _ A1 A2).
    + rewrite (ad_index _ _ _ _ A1) in T2. pose proof (tells_app _ _ _ _ _ _ _ T1 T2) as T.
      unfold turn_parts in *. simpl. by destruct (usage_metadata chunk).
Qed.
End Loop.
End Gemini.

(** How a response ends. *)
Inductive GeminiEnding : Type :=
| GDone (rest : list Polled)
| GEof
| GTransport (msg : string)
| GCancelled.

Definition ending_polls (e : GeminiEnding) : list Polled :=
  match e with
  | GDone rest => PollData "[DONE]" :: rest
  | GEof => []
  | GTransport m => [PollErr m]
  | GCancelled => [PollCancelled]
  end.

Definition ended (e : GeminiEnding) : bool := match e with GDone _ | GEof => true | _ => false end.

Definition ending_error (e : GeminiEnding) : list (result ModelEvent ModelError) :=
  match e with GTransport m => [Err (Transport m)] | _ => [] end.

Lemma stream_loop_ending `{J : SerdeJson} parse_chunk t e :
  stream_loop parse_chunk t (ending_polls e)
  = (Ok <$> (if ended e then finish t else [])) ++ ending_error e.
Proof. destruct e; simpl; by rewrite ?app_nil_r. Qed.

Lemma id_deltas_cons `{J : SerdeJson} c i fc calls :
  id_deltas c ((i, fc) :: calls)
  = (if String.eqb c i then [(Some (fc_name fc), to_string (fc_args fc))] else []) ++ id_deltas c calls.
Proof. unfold id_deltas. simpl. by destruct (String.eqb c i). Qed.

Lemma id_deltas_absent `{J : SerdeJson} c calls : c ∉ calls.*1 → id_deltas c calls = [].
Proof.
  induction calls as [|[i fc] calls IH]; [done|]. intros [Hc Hn]%not_elem_of_cons. simpl in Hc.
  rewrite id_deltas_cons, (proj2 (String.eqb_neq c i) Hc). by apply IH.
Qed.

(** The calls of an id, one delta each, when no two share it. *)
Lemma id_deltas_unique `{J : SerdeJson} c calls a :
  NoDup calls.*1 →
  call_spec (id_deltas c calls) = Some a ↔
    ∃ fc, (c, fc) ∈ calls ∧ a = mkToolCallAccum (Some (fc_name fc)) (to_string (fc_args fc)).
Proof.
  induction calls as [|[i fc] calls IH]; intros Hn.
  - split; [done|]. by intros (? & H%elem_of_nil & _).
  - apply NoDup_cons in Hn as [Hi Hn]. rewrite id_deltas_cons. destruct (String.eqb_spec c i) as [->|Hne].
    + rewrite id_deltas_absent by done. unfold call_spec, first_name. simpl. rewrite string_app_nil_r. split.
      * intros [= <-]. exists fc. split; [by left|done].
      * intros (f & [[= <-]|Hin]%elem_of_cons & ->); [done|]. destruct Hi. apply list_elem_of_fmap. by exists (i, f).
    + simpl. rewrite IH by done. split; intros (f & Hf & ->); exists f; (split; [|done]).
      * by right.
      * apply elem_of_cons in Hf as [[= -> ->]|]; done.
Qed.

(** C16. What the Gemini stream says is the turn.  Whatever unreadable payloads stand
    between its chunks, the first candidates give the text of their text parts in
    order and exactly their calls, each with its name and its arguments as JSON,
    under its id or the one it is given, as long as no two share one.  The usage
    is the last reported.  A response that ends, with [[DONE]] or without,
    finishes with its last reason: [STOP] as [ToolCalls] exactly when there was a
    call; without a reason, or cut off, it does not finish, and a failure of the
    transport is the last thing in the stream. *)
Theorem gemini_turn_exact `{J : SerdeJson} parse_chunk datas e agent :
  let chunks := omap (parsed parse_chunk) datas in
  Forall (λ d, d ≠ "[DONE]") datas → Forall (λ ch, is_open ch = true) chunks →
  NoDup (turn_calls chunks).*1 →
  ∃ evs, stream_loop parse_chunk StreamTranslator_new ((PollData <$> datas) ++ ending_polls e)
         = (Ok <$> evs) ++ ending_error e
  ∧ let acc := observe_all agent evs in
    text acc = concat_all (omap p_text (turn_parts chunks)) ∧ reasoning acc = ""
    ∧ (∀ c a, btree_get c (tool_accum acc) = Some a ↔
         ∃ fc, (c, fc) ∈ turn_calls chunks
           ∧ a = mkToolCallAccum (Some (fc_name fc)) (to_string (fc_args fc)))
    ∧ latest_usage acc = (λ u, usage_of_event (prompt_token_count u) (candidates_token_count u)
         (cached_content_token_count u) (thoughts_token_count u)) <$> last (omap usage_metadata chunks)
    ∧ finish_events evs
      = if ended e
        then map_finish (negb (is_nil (turn_calls chunks))) <$> option_list (last_reason chunks)
        else [].
Proof.
  intros chunks Hd Ho Hn.
  destruct (stream_loop_tells parse_chunk datas StreamTranslator_new (ending_polls e) Hd Ho)
    as (t & out & E & [_ Hs Hr] & [T R C U F]).
  exists (out ++ if ended e then finish t else []).
  assert (Hfin : ∀ b : bool, text_deltas (if b then finish t else []) = []
    ∧ reasoning_deltas (if b then finish t else []) = [] ∧ usage_events (if b then finish t else []) = []
    ∧ ∀ c, call_deltas c (if b then finish t else []) = []).
  { intros []; [|done]. unfold finish. by destruct (Gemini.finish_reason t). }
  destruct (Hfin (ended e)) as (T1 & R1 & U1 & C1).
  split; [by rewrite E, stream_loop_ending, fmap_app, <- app_assoc|]. simpl.
  destruct (observe_all_spec agent (out ++ if ended e then finish t else [])) as [_ At Ar _ Ac Au _].
  rewrite At, Ar, Au. unfold text_deltas, reasoning_deltas, usage_events in *.
  rewrite !omap_app, T, R, U, T1, R1, U1, !app_nil_r. split_and!; [done|done| |by rewrite fmap_last|].
  - intros c a. rewrite Ac, call_deltas_app, C, C1, app_nil_r. by apply id_deltas_unique.
  - unfold finish_events in *. rewrite omap_app, F. simpl. destruct (ended e); [|done].
    unfold finish. rewrite Hr, Hs. simpl. fold chunks.
    replace (is_nil (turn_calls chunks)) with (is_nil (omap part_call (turn_parts chunks))).
    + by destruct (last_reason chunks).
    + unfold turn_calls. destruct (omap part_call (turn_parts chunks)) as [|fc l]; [done|]. simpl.
      by destruct (fc_id fc).
Qed.

(** ** The names of the results *)

Section Names.
Context `{J : SerdeJson}.

Lemma call_names_lookup calls (m : gmap string string) c :
  fold_left (λ m (p : string * string), <[p.1 := p.2]> m) calls m !! c
  = match last (omap (λ p : string * string, if String.eqb p.1 c then Some p.2 else None) calls) with
    | Some name => Some name
    | None => m !! c
    end.
Proof.
  revert m. induction calls as [|[i n] calls IH]; intros m; [done|]. cbn [fold_left]. rewrite IH. simpl.
  destruct (String.eqb_spec i c) as [->|Hne]; simpl.
  - rewrite last_cons. destruct (last _); [done|]. by rewrite lookup_insert_eq.
  - destruct (last _); [done|]. by rewrite lookup_insert_ne.
Qed.

Lemma function_response_named names i c p :
  function_response names i c = Ok p → ∃ name r, p = GFunctionResponse i name r ∧ names !! i = Some name.
Proof. unfold function_response. destruct (names !! i) as [name|]; [|done]. intros [= <-]. eauto. Qed.

Lemma user_parts_named names content parts id name r :
  user_parts names content = Ok parts → GFunctionResponse id name r ∈ parts → names !! id = Some name.
Proof.
  revert parts. induction content as [|p content IH]; intros parts; simpl; [intros [= <-]; by intros H%elem_of_nil|].
  destruct (match p with Text _ => _ | _ => _ end) as [here|] eqn:Eh; [|done].
  destruct (user_parts names content) as [more|]; [|done]. intros [= <-] [Hin|Hin]%elem_of_app; [|by eapply IH].
  destruct p as [s|[u|m d]|s|i n a|i c|s]; simplify_eq/=; try (by apply elem_of_nil in Hin);
    try (by apply list_elem_of_singleton in Hin).
  destruct (function_response names i c) as [q|] eqn:Eq; [|done]. injection Eh as <-.
  apply list_elem_of_singleton in Hin as <-. destruct (function_response_named _ _ _ _ Eq) as (n & r' & Hq & ?).
  by simplify_eq.
Qed.

Lemma contents_named names items contents id name r :
  contents_from names items = Ok contents → GFunctionResponse id name r ∈ contents ≫= gc_parts →
  names !! id = Some name.
Proof.
  revert contents. induction items as [|item items IH]; intros contents; simpl;
    [intros [= <-]; by intros H%elem_of_nil|].
  destruct (item_contents names item) as [here|] eqn:Eh; [|done].
  destruct (contents_from names items) as [more|]; [|done]. intros [= <-].
  rewrite bind_app. intros [Hin|Hin]%elem_of_app; [|by eapply IH].
  destruct item as [content|content a|content|i n a|i c]; simpl in Eh.
  - destruct (user_parts names content) as [[|p parts]|] eqn:Eu; simplify_eq/=; [by apply elem_of_nil in Hin|].
    rewrite app_nil_r in Hin. by eapply user_parts_named.
  - simplify_eq/=. rewrite app_nil_r in Hin. unfold assistant_parts in Hin.
    apply list_elem_of_omap in Hin as (p & _ & Hp). by destruct p.
  - simplify_eq/=. by apply elem_of_nil in Hin.
  - simplify_eq/=. by apply list_elem_of_singleton in Hin.
  - destruct (function_response names i c) as [q|] eqn:Eq; [|done]. simplify_eq/=.
    apply list_elem_of_singleton in Hin as <-. destruct (function_response_named _ _ _ _ Eq) as (n & r' & Hq & ?).
    by simplify_eq.
Qed.

(** A result is sent with the name of the last call that has its id, so with the
    name of its call when the calls of an id agree on it. *)
Lemma response_name items sys contents id name r :
  items_to_contents items = Ok (sys, contents) → GFunctionResponse id name r ∈ contents ≫= gc_parts →
  last (omap (λ p : string * string, if String.eqb p.1 id then Some p.2 else None) (items ≫= item_calls))
  = Some name.
Proof.
  unfold items_to_contents. destruct (contents_from _ items) as [cs|] eqn:E; [|done].
  intros H Hin. assert (cs = contents) as -> by (destruct cs; by simplify_eq).
  pose proof (contents_named _ _ _ _ _ _ E Hin) as Hn. unfold call_names in Hn. rewrite call_names_lookup in Hn.
  by destruct (last _).
Qed.
End Names.

Module GeminiDemo.
#[local] Existing Instance Toy.json.

Definition calling (name : string) : GeminiChunk :=
  mkGeminiChunk [mkCandidate (Some [mkPart (Some "so ") None;
    mkPart None (Some (mkFunctionCall None name (VObject [])))]) (Some "STOP")] None None.

Definition chunk_of (data : string) : result GeminiChunk string :=
  if String.eqb data "search" || String.eqb data "list" then Ok (calling data) else Err "noise".

(** The items of the turn of one chunk. *)
Definition turn (data : string) : list Item :=
  match ModelTurn.finish (observe_all "bot" (omap (λ x, match x with Ok ev => Some ev | Err _ => None end)
          (stream_loop chunk_of StreamTranslator_new [PollData data]))) with
  | Ok t => mt_items t
  | Err _ => []
  end.

(** Two turns whose calls have no id share one, and the first result is sent with
    the second call's name. *)
Example ids_repeat :
  let history := UserMessage [Text "go"] :: turn "search" ++ ToolResult "fc_0" [Text "found"]
                   :: turn "list" ++ [ToolResult "fc_0" [Text "listed"]] in
  match items_to_contents history with
  | Ok (_, contents) =>
      omap (λ p, match p with GFunctionCall i n _ => Some (i, n) | _ => None end) (contents ≫= gc_parts)
      = [("fc_0", "search"); ("fc_0", "list")]
      ∧ omap (λ p, match p with GFunctionResponse i n _ => Some (i, n) | _ => None end) (contents ≫= gc_parts)
        = [("fc_0", "list"); ("fc_0", "list")]
  | Err _ => False
  end.
Proof. vm_compute. done. Qed.

(** A prompt that is blocked is refused, and nothing follows. *)
Example blocked :
  stream_loop (λ _, Ok (mkGeminiChunk [] None (Some (Some "SAFETY")))) StreamTranslator_new
    [PollData "x"; PollData "y"]
  = [Err (Refused "prompt blocked: SAFETY")].
Proof. reflexivity. Qed.

Lemma gemini_turn_exact_witness :
  ∃ evs, stream_loop chunk_of StreamTranslator_new
           ((PollData <$> ["search"; "noise"; "list"]) ++ ending_polls (GDone [])) = Ok <$> evs
  ∧ text (observe_all "bot" evs) = "so so "
  ∧ btree_get "fc_1" (tool_accum (observe_all "bot" evs)) = Some (mkToolCallAccum (Some "list") "{}")
  ∧ finish_events evs = [ToolCalls].
Proof.
  destruct (gemini_turn_exact chunk_of ["search"; "noise"; "list"] (GDone []) "bot")
    as (evs & E & T & _ & C & _ & F).
  - by repeat constructor.
  - by repeat constructor.
  - vm_compute. repeat (apply NoDup_cons; split; [set_solver|]). apply NoDup_nil_2.
  - exists evs. rewrite app_nil_r in E. split; [exact E|]. split; [exact T|]. split; [|exact F].
    apply C. exists (mkFunctionCall None "list" (VObject [])). split; [right; left|reflexivity].
Defined.
End GeminiDemo.
