(* ===== verification/LoopRequests.v ===== *)
(** The requests the agent loop makes, as the providers send them: the driver
    (core/src/agent.rs) composed with the translations of conversations
    ([OpenAiRequest], [BlockRequests]).  The APIs refuse a conversation in which a
    tool call is not answered; [loop_requests_answered] shows that the loop never
    builds one, except when it asks for the repair of a structured output that
    came with a tool call, and that OpenAI and Bedrock are sent what they take.
    Anthropic is not ([anthropic_refuses]). *)

From S2P Require Import Prelude Json Items LoopState PathMatch Permission Redaction Tools ModelTurn Driver.
From S2P Require Import OpenAiRequest BlockRequests.

(** ** Turns *)

Section Turns.
Context `{J : SerdeJson}.

Definition call_ids (items : list Item) : list string := tcr_call_id <$> tool_call_requests items.

Lemma call_ids_app l1 l2 : call_ids (l1 ++ l2) = call_ids l1 ++ call_ids l2.
Proof. unfold call_ids, tool_call_requests. by rewrite omap_app, fmap_app. Qed.

Lemma no_call_ids items : existsb is_tool_call items = false → call_ids items = [].
Proof.
  unfold call_ids, tool_call_requests. induction items as [|[] items IH]; simpl; try done; apply IH.
Qed.

(** Calls are collected. *)
Lemma collect_calls m items open b :
  tool_call_items m = Ok items → (b || is_nil open) = true →
  ∃ b', items_open (open, b) items = Some (open ++ call_ids items, b').
Proof.
  revert items open b. induction m as [|[k a] m IH]; intros items open b.
  - intros [= <-] _. exists b. simpl. by rewrite app_nil_r.
  - simpl. unfold tool_call_item at 1. destruct (from_str _) as [args|]; [|done].
    destruct (tool_call_items m) as [its|] eqn:E; [|done]. intros [= <-] Hb. cbn [items_open item_open].
    rewrite Hb. simpl. destruct (IH its (open ++ [k]) true eq_refl eq_refl) as [b' ->].
    exists b'. by rewrite <- app_assoc.
Qed.

(** The items of a turn: a message without calls in it, then the calls. *)
Lemma turn_open acc turn b :
  finish acc = Ok turn → ∃ b', items_open ([], b) (mt_items turn) = Some (call_ids (mt_items turn), b').
Proof.
  unfold finish, build_items. destruct (tool_call_items (tool_accum acc)) as [calls|] eqn:E; [|done].
  intros [= <-]. simpl. unfold assistant_items.
  destruct (_ || _); [|by eapply (collect_calls _ _ [] b E); destruct b].
  rewrite call_ids_app. cbn [app items_open item_open].
  replace (nested_calls _) with (@nil WireCall) by (by destruct (is_empty (reasoning acc)), (is_empty (text acc))).
  simpl. by apply (collect_calls _ _ [] true E).
Qed.

(** Results in the order of the calls close them. *)
Lemma results_close outcomes b :
  ∃ b', items_open (tco_call_id <$> outcomes, b) (outcome_item <$> outcomes) = Some ([], b').
Proof.
  revert b. induction outcomes as [|o outcomes IH]; intros b; [by exists b|].
  simpl. rewrite String.eqb_refl. simpl. apply (IH false).
Qed.

Lemma paired_messages items more :
  paired items → Forall (λ i, match i with System _ => True | UserMessage c => hoisted c = [] | _ => False end) more →
  paired (items ++ more).
Proof.
  intros [b H] Hm. unfold paired. rewrite items_open_app, H. simpl. clear H. revert b.
  induction Hm as [|i more Hi _ IH]; intros b; [by exists b|].
  destruct i as [c| |c| |]; try done; cbn [items_open item_open]; [rewrite Hi|]; apply IH.
Qed.

(** The transcript handed over leaves the exchanges out. *)
Lemma transcript_open open b items s :
  items_open (open, b) items = Some s →
  ∃ b', items_open ([], true) (List.filter (λ i, negb (dropped_on_handoff i)) items) = Some ([], b').
Proof.
  revert open b. induction items as [|i items IH]; intros open b; [by exists true|].
  cbn [items_open]. destruct (item_open (open, b) i) as [[o b']|] eqn:E; [|done]. intros H.
  destruct (IH _ _ H) as [b'' H'].
  destruct i as [c|c a|c|k n v|k c]; simpl in E; try by exists b''.
  - exists b''. cbn [List.filter dropped_on_handoff negb items_open item_open].
    destruct (hoisted c); [exact H'|]. by rewrite andb_false_r in E.
  - exists b''. cbn [List.filter dropped_on_handoff negb items_open item_open].
    destruct (nested_calls c); [exact H'|]. by rewrite andb_false_r in E.
Qed.

Lemma transcript_paired items s :
  items_open ([], true) items = Some s → paired (thread_handoff_transcript items).
Proof.
  intros H. destruct (transcript_open _ _ _ _ H) as [b' H']. apply paired_messages; [by exists b'|].
  by repeat constructor.
Qed.
End Turns.

(** ** Transitions *)

(** What a transition does with the conversation. *)
Definition conversation_used `{J : SerdeJson} (i : TransitionInput) (conversation : list Item)
    (o : TransitionOutcome) : Prop :=
  match next_action o with
  | CallModel request =>
      messages request = conversation ++ conversation_appends o
      ∧ Forall (λ i, match i with System _ => True | UserMessage c => hoisted c = [] | _ => False end)
          (conversation_appends o)
      ∧ ∀ items u f, i = ModelResponse items u f → existsb is_tool_call items = false
          ∨ ∃ turn u', next_state o = RepairingOutput turn u'
  | ExecuteTools calls =>
      conversation_appends o = [] ∧ ∃ items u f, i = ModelResponse items u f ∧ calls = tool_call_requests items
  | Terminate => True
  | Handoff => ∃ target u, next_state o = ApplyingHandoff target (thread_handoff_transcript conversation) u
  end.

Lemma transition_uses `{J : SerdeJson} `{D : !LoopDebug} plan s i conversation :
  conversation_used i conversation (transition s i (ctx_of plan conversation)).
Proof.
  unfold conversation_used, transition, on_start, on_tool_calls, on_final_message, on_tool_results, on_finalizing,
    on_repairing, max_turns_reached, missing_output, completed, invalid_transition, not_implemented.
  repeat (case_match; simplify_eq/=); try done; rewrite ?app_nil_r; try split_and!; eauto;
    try (intros; simplify_eq; eauto; done); repeat constructor.
Qed.

Lemma repairing_terminates `{J : SerdeJson} `{D : !LoopDebug} ctx turn u i :
  next_action (transition (RepairingOutput turn u) i ctx) = Terminate.
Proof. destruct i; simpl; [done| |done]. unfold on_repairing. by repeat case_match. Qed.

(** ** The loop *)

Section Loop.
Context `{J : SerdeJson} `{G : Globset} `{D : !LoopDebug} `{R : !RustDebug} {W : Type}.
Variables (env : list (string * string)) (agent : LlmAgent (W:=W)) (ctx : RunContext (W:=W)).
Variable schedule : W → list nat.

#[local] Abbreviation loop_outcome := (loop_outcome agent ctx).
#[local] Abbreviation loop_body := (loop_body env agent ctx schedule).

(** The states of the loop from a first one on. *)
Inductive loop_reaches (l0 : Loop (W:=W)) : Loop (W:=W) → Prop :=
| loop_here : loop_reaches l0 l0
| loop_next l evs l' : loop_reaches l0 l → loop_body l = Continue evs l' → loop_reaches l0 l'.

Lemma loop_body_next l evs l' :
  loop_body l = Continue evs l' →
  lp_state l' = next_state (loop_outcome l)
  ∧ lp_conversation l'
    = (lp_conversation l ++ conversation_appends (loop_outcome l)) ++ incoming_items (lp_input l')
  ∧ match next_action (loop_outcome l) with
    | CallModel _ => ∃ turn acc, finish acc = Ok turn
        ∧ lp_input l' = ModelResponse (mt_items turn) (mt_usage turn) (mt_finish_reason turn)
    | ExecuteTools calls => ∃ outcomes, lp_input l' = ToolResults outcomes
        ∧ tco_call_id <$> outcomes = tcr_call_id <$> calls
    | _ => False
    end.
Proof.
  unfold Driver.loop_body. fold (loop_outcome l). set (o := loop_outcome l).
  destruct (lp_run l) as [slot w].
  destruct (match next_state o with Done out => _ | _ => _ end) as [[[kind info]|] w1].
  { simpl. unfold terminate. by destruct (fire _ _ _). }
  destruct (emit agent ctx (events o) (lp_injections l) w1) as [[[yielded inj] [reason|]] w2]; [done|].
  destruct (next_action o) as [request|calls| |] eqn:Eo.
  - unfold call_model. destruct (la_model agent _ _) as [[stream|e] w3]; [|done].
    destruct (drain stream _) as [deltas [acc|e]]; [|done].
    destruct (finish acc) as [turn|e] eqn:Ef; [|done]. intros [= <- <-].
    split_and!; [done|done|]. by exists turn, acc.
  - unfold execute_tools. cbn [fst snd].
    destruct (run_tools_concurrent _ _ _ _ _ _ _) as [[outcomes denials] w3] eqn:E.
    intros [= <- <-]. split_and!; [done|done|]. exists outcomes. split; [done|].
    rewrite <- (run_tools_ids env (parallel_tool_call_limit (effective_config agent ctx)) (la_tools agent)
      (interceptors agent ctx) (schedule w2) calls w2). by rewrite E.
  - unfold terminate. by destruct (fire _ _ _).
  - unfold apply_handoff, fail, fail_with. by repeat case_match.
Qed.

(** The conversation of the loop: all calls answered, or those of the last turn
    open; unless the repair of an output is under way, which ends the run. *)
Definition loop_conversation_ok (l : Loop (W:=W)) : Prop :=
  (∃ turn u, lp_state l = RepairingOutput turn u)
  ∨ ∃ b, items_open ([], true) (lp_conversation l)
         = Some (match lp_input l with ModelResponse items _ _ => call_ids items | _ => [] end, b).

(** A request whose messages are paired, or the exception. *)
Lemma request_paired l request :
  loop_conversation_ok l → next_action (loop_outcome l) = CallModel request →
  paired (messages request)
  ∨ ∃ turn u items u' f, next_state (loop_outcome l) = RepairingOutput turn u
      ∧ lp_input l = ModelResponse items u' f ∧ existsb is_tool_call items = true.
Proof.
  intros Hl Ha. unfold Driver.loop_outcome in *.
  pose proof (transition_uses (Driver.plan agent ctx) (lp_state l) (lp_input l) (lp_conversation l)) as H.
  unfold conversation_used in H. rewrite Ha in H. destruct H as (Hm & Happ & Hex).
  destruct Hl as [(turn & u & Hs)|[b Hb]].
  { rewrite Hs, repairing_terminates in Ha. done. }
  assert (Hp : match lp_input l with ModelResponse items _ _ => existsb is_tool_call items | _ => false end = false →
    paired (messages request)).
  { intros Hn. rewrite Hm. apply paired_messages; [|done]. exists b. rewrite Hb.
    destruct (lp_input l); try done. by rewrite no_call_ids. }
  destruct (lp_input l) as [| items u f|] eqn:Ei; [left; auto| |left; auto].
  destruct (existsb is_tool_call items) eqn:Et; [|left; auto]. right.
  destruct (Hex items u f eq_refl) as [?|(turn & u' & Hn)]; [congruence|]. by exists turn, u', items, u, f.
Qed.

Lemma loop_next_ok l evs l' :
  loop_conversation_ok l → loop_body l = Continue evs l' → loop_conversation_ok l'.
Proof.
  intros Hl Hb. destruct (loop_body_next l evs l' Hb) as (Hs & Hc & Hn).
  pose proof (transition_uses (Driver.plan agent ctx) (lp_state l) (lp_input l) (lp_conversation l)) as Hu.
  unfold conversation_used in Hu. fold (loop_outcome l) in Hu.
  destruct (next_action (loop_outcome l)) as [request|calls| |] eqn:Ea; [| |done..].
  - destruct (request_paired l request Hl Ea) as [[b Hp]|(turn & u & items & u' & f & Hr & _)].
    + destruct Hn as (turn & acc & Hf & Hi). destruct (turn_open acc turn b Hf) as [b' Ht].
      right. exists b'. rewrite Hc, Hi, items_open_app. destruct Hu as [Hm _]. rewrite <- Hm, Hp. exact Ht.
    + left. exists turn, u. congruence.
  - destruct Hn as (outcomes & Hi & Hids). destruct Hu as (Happ & items & u & f & Hin & ->).
    right. rewrite Hc, Hi, Happ, app_nil_r, items_open_app. destruct Hl as [(t & u' & Hst)|[b Hl]].
    + unfold Driver.loop_outcome in Ea. by rewrite Hst, repairing_terminates in Ea.
    + rewrite Hl, Hin. unfold call_ids. rewrite <- Hids. apply (results_close outcomes b).
Qed.

Lemma prologue_paired input st evs l :
  paired input → prologue agent ctx input st = Continue evs l → loop_conversation_ok l.
Proof.
  intros [b Hp] H. right. unfold prologue, fail, fail_with in H. repeat case_match; simplify_eq. simpl. exists b.
  unfold seed_conversation. by destruct (is_empty _).
Qed.
End Loop.

(** Messages that OpenAI and Bedrock take. *)
Definition taken `{J : SerdeJson} (items : list Item) : Prop :=
  answered (to_chat_messages items)
  ∧ match items_to_messages items with
    | Ok (_, msgs) => answered_blocks msgs ∧ roles_alternate msgs
    | Err _ => True
    end.

Lemma paired_taken `{J : SerdeJson} items : paired items → taken items.
Proof.
  intros H. split; [by apply paired_answered|]. pose proof (bedrock_answers items H) as Hb.
  destruct (items_to_messages items) as [[]|]; [|done]. by destruct Hb as (_ & ? & _ & ?).
Qed.


Module LoopRequestsDemo.
Import DriverDemo.
#[local] Existing Instance Toy.json.
#[local] Existing Instance Permission.Demo.globset.
#[local] Existing Instance ToolsDemo.debug.
#[local] Existing Instance DriverDemo.loop_debug.

(** A turn that calls two tools, then one that answers. *)
Definition answers : script :=
  [[Ok (METoolCallDelta "c1" (Some "clock") "{}"); Ok (METoolCallDelta "c2" (Some "map") "{}")]; say "noon" 1].

Definition first : Loop (W:=script) :=
  mkLoop (CallingModel 0 TokenUsage_default) (Start [UserMessage [Text "when?"]]) [UserMessage [Text "when?"]] []
    (None, answers).

Definition next (l : Loop (W:=script)) : Loop :=
  match loop_body [] expert ctx (λ _, []) l with Continue _ l' => l' | Stop _ _ => l end.
Definition yields (l : Loop (W:=script)) : list AgentEvent :=
  match loop_body [] expert ctx (λ _, []) l with Continue evs _ | Stop evs _ => evs end.

(** Calls without a message get one of their own. *)
Example second_request :
  match next_action (loop_outcome expert ctx (next (next first))) with
  | CallModel request => to_chat_messages (messages request)
  | _ => []
  end
  = [CMUser (UText "when?"); CMAssistant None [mkWireCall "c1" "clock" "{}"; mkWireCall "c2" "map" "{}"];
     CMTool "c1" "unknown tool: clock"; CMTool "c2" "unknown tool: map"].
Proof. vm_compute. reflexivity. Qed.

(** The exception: the repair request carries the call of the turn it repairs,
    and no result. *)
Example repair_unanswered :
  match next_action (transition (Finalizing 1 TokenUsage_default)
          (ModelResponse [ToolCall "c1" "clock" VNull] TokenUsage_default Items.ToolCalls)
          (ctx_of LoopState.Demo.plan (LoopState.Demo.seed ++ [ToolCall "c1" "clock" VNull]))) with
  | CallModel request => open_calls [] (to_chat_messages (messages request)) = None
  | _ => False
  end.
Proof. vm_compute. reflexivity. Qed.

(** A text after a call without one: Anthropic is sent the results before the
    calls, and refuses. *)
Definition speaks_late : script :=
  [[Ok (METoolCallDelta "c1" (Some "clock") "{}")];
   [Ok (METokenDelta "and "); Ok (METoolCallDelta "c2" (Some "map") "{}")]; say "noon" 1].

Example anthropic_refuses :
  let start := mkLoop (CallingModel 0 TokenUsage_default) (Start [UserMessage [Text "when?"]])
                 [UserMessage [Text "when?"]] [] (None, speaks_late) in
  match next_action (loop_outcome expert ctx (next (next (next (next start))))) with
  | CallModel request => open_uses [] (translate_messages (messages request)).2 = None
                         ∧ answered (to_chat_messages (messages request))
  | _ => False
  end.
Proof. vm_compute. done. Qed.

(** The second request is reached, and repairs nothing. *)
Lemma second_reached : loop_reaches [] expert ctx (λ _, []) first (next (next first)).
Proof.
  assert (∀ l, match loop_body [] expert ctx (λ _, []) l with Continue _ _ => true | Stop _ _ => false end = true →
    loop_body [] expert ctx (λ _, []) l = Continue (yields l) (next l)) as Hstep.
  { intros l. unfold yields, next. by destruct (loop_body _ _ _ _ l). }
  apply (loop_next _ _ _ _ _ (next first) (yields (next first))); [|apply Hstep; vm_compute; reflexivity].
  apply (loop_next _ _ _ _ _ first (yields first)); [constructor|apply Hstep; vm_compute; reflexivity].
Qed.

Lemma second_calls :
  match loop_outcome expert ctx (next (next first)) with
  | mkOutcome (CallingModel _ _) _ (CallModel _) _ => true
  | _ => false
  end = true.
Proof. vm_compute. reflexivity. Qed.

End LoopRequestsDemo.
