(* ===== verification/FileTools.v ===== *)
(** The file tools (paigasus-helikon-tools/src: sandbox.rs, read.rs, write.rs,
    edit.rs).

    The capability directory of cap-std is a parameter: reading, creating
    directories and writing over any state [F] of the files.  Every path handed
    to it is recorded, so that what the front gate [guard_relative] promises can
    be stated of the tools; cap-std is the backstop for symbolic links.  Paths
    are those of a Unix host. *)

From S2P Require Import Prelude Json Items Redaction.

(** ** Paths *)

(** [std::path::Component]; there are no prefixes on Unix. *)
Inductive Component : Type :=
| RootDir
| CurDir
| ParentDir
| Normal (name : string).

#[export] Instance Component_eq_dec : EqDecision Component.
Proof. solve_decision. Defined.

(** [Path::components]: empty names and inner dots are dropped, a leading slash
    is the root and a leading dot is kept. *)
Definition inner_component (piece : string) : option Component :=
  if String.eqb piece "" || String.eqb piece "." then None
  else if String.eqb piece ".." then Some ParentDir
  else Some (Normal piece).

Definition first_component (piece : string) (more : bool) : list Component :=
  if String.eqb piece "" then if more then [RootDir] else []
  else if String.eqb piece "." then [CurDir]
  else option_list (inner_component piece).

Definition components (path : string) : list Component :=
  match split_on slash path with
  | [] => []
  | piece :: pieces =>
      first_component piece (negb (is_nil pieces)) ++ omap inner_component pieces
  end.

(** [Path::parent] of a path without a root: its pieces, last first, without
    those that are no component, and without the last component. *)
Fixpoint trim_pieces (rev_pieces : list string) : list string :=
  match rev_pieces with
  | [] => []
  | piece :: rest =>
      match rest with
      | [] => if String.eqb piece "" then [] else [piece]
      | _ => if String.eqb piece "" || String.eqb piece "." then trim_pieces rest else rev_pieces
      end
  end.

Definition parent (path : string) : option string :=
  match trim_pieces (rev (split_on slash path)) with
  | [] => None
  | _ :: rest => Some (String.concat "/" (rev (trim_pieces rest)))
  end.

Definition climbs (c : Component) : bool :=
  match c with ParentDir | RootDir => true | CurDir | Normal _ => false end.

Definition guard_relative (path : string) : result string string :=
  if existsb climbs (components path) then Err ("path escapes the sandbox root: " +:+ path)
  else Ok path.

(** ** The window of a read *)

(** [str::lines] *)
Definition line_body (line : string) : string :=
  match strip_suffix (String newline "") line with
  | Some body => default body (strip_suffix (String (chr 13) "") body)
  | None => line
  end.

Definition str_lines (text : string) : list string := line_body <$> split_lines text.

(** [usize] has 64 bits, so the casts keep the numbers. *)
Definition window (text : string) (offset limit : option Z) : string :=
  match offset, limit with
  | None, None => text
  | _, _ =>
      let start := Z.to_nat (Z.max 0 (default 1%Z offset - 1)) in
      let rest := drop start (str_lines text) in
      String.concat (String newline "")
        (match limit with Some n => take (Z.to_nat n) rest | None => rest end)
  end.

(** ** Exact replacement *)

(** [str::matches(pat).count()], for a pattern that is not empty: leftmost
    occurrences that do not overlap. *)
Fixpoint matches_go (fuel : nat) (pat s : string) : nat :=
  match fuel with
  | O => O
  | S fuel' =>
      match strip_prefix pat s with
      | Some s' => S (matches_go fuel' pat s')
      | None => match s with EmptyString => O | String _ s' => matches_go fuel' pat s' end
      end
  end.

Definition matches_count (pat s : string) : nat := matches_go (S (String.length s)) pat s.

(** [str::replacen] *)
Fixpoint replacen_go (fuel : nat) (pat rep s : string) (n : nat) : string :=
  match fuel, n with
  | O, _ | _, O => s
  | S fuel', S n' =>
      match strip_prefix pat s with
      | Some s' => rep +:+ replacen_go fuel' pat rep s' n'
      | None =>
          match s with
          | EmptyString => EmptyString
          | String c s' => String c (replacen_go fuel' pat rep s' n)
          end
      end
  end.

Definition replacen (pat rep s : string) (n : nat) : string :=
  replacen_go (S (String.length s)) pat rep s n.

(** ** The tools *)

Inductive ErrorKind : Type :=
| NotFound
| InvalidData
| OtherKind.

(** [std::io::Error]: its kind and what it displays. *)
Record IoError := mkIoError { io_kind : ErrorKind; io_display : string }.

Record ReadArgs := mkReadArgs {
  ra_path : string;
  ra_offset : option Z;
  ra_limit : option Z;
}.

Record WriteArgs := mkWriteArgs { wa_path : string; wa_content : string }.

Record EditArgs := mkEditArgs {
  ea_path : string;
  ea_old_string : string;
  ea_new_string : string;
  ea_replace_all : bool;
}.

(** The operations of the directory handle. *)
Record Dir (F : Type) := mkDir {
  read_to_string : string → F → result string IoError;
  create_dir_all : string → F → result unit IoError * F;
  dir_write : string → string → F → result unit IoError * F;
}.
Arguments mkDir {F} _ _ _.
Arguments read_to_string {F} _ _ _.
Arguments create_dir_all {F} _ _ _.
Arguments dir_write {F} _ _ _ _.

Definition map_read_error (path : string) (e : IoError) : ToolError :=
  match io_kind e with
  | NotFound => ToolOther ("no such file: " +:+ path)
  | InvalidData => ToolDenied ("file is not valid UTF-8: " +:+ path)
  | OtherKind => ToolDenied ("cannot read " +:+ path +:+ ": " +:+ io_display e)
  end.

Definition edit_read_error (path : string) (e : IoError) : ToolError :=
  match io_kind e with
  | NotFound => ToolOther ("no such file: " +:+ path)
  | _ => ToolDenied ("cannot read " +:+ path +:+ " for edit: " +:+ io_display e)
  end.

Definition write_error (path : string) (e : IoError) : ToolError :=
  ToolDenied ("cannot write " +:+ path +:+ ": " +:+ io_display e).

(** The part of an edit between the read and the write: the new text and the
    number of replacements. *)
Definition edit_text (a : EditArgs) (original : string) : result (string * nat) ToolError :=
  let count := matches_count (ea_old_string a) original in
  if (count =? 0)%nat then
    Err (ToolDenied ("old_string not found in " +:+ ea_path a))
  else if (1 <? count)%nat && negb (ea_replace_all a) then
    Err (ToolDenied "old_string is not unique; pass replace_all or add context")
  else
    Ok (if ea_replace_all a then replace (ea_old_string a) (ea_new_string a) original
        else replacen (ea_old_string a) (ea_new_string a) original 1, count).

Section Tools.
Context `{J : SerdeJson} `{!JsonU64} {F : Type} (dir : Dir F).
(** [serde_json::from_value] of the arguments of the three tools. *)
Context (parse_read : Value → result ReadArgs string).
Context (parse_write : Value → result WriteArgs string).
Context (parse_edit : Value → result EditArgs string).

(** What a tool returns, the paths it handed to the directory, and the files. *)
Definition Outcome : Type := result Value ToolError * list string * F.

Definition read_invoke (args : Value) (files : F) : Outcome :=
  match parse_read args with
  | Err e => (Err (InvalidArgs [e]), [], files)
  | Ok a =>
      match guard_relative (ra_path a) with
      | Err reason => (Err (ToolDenied reason), [], files)
      | Ok rel =>
          (match read_to_string dir rel files with
           | Err e => Err (map_read_error (ra_path a) e)
           | Ok text =>
               Ok (VObject [("content", VString (window text (ra_offset a) (ra_limit a)))])
           end, [rel], files)
      end
  end.

(** The blocking part of a write. *)
Definition write_file (rel content : string) (files : F)
  : result unit IoError * list string * F :=
  let made :=
    match parent rel with
    | Some up => if is_empty up then (Ok tt, [], files)
                 else let '(r, files) := create_dir_all dir up files in (r, [up], files)
    | None => (Ok tt, [], files)
    end in
  match made with
  | (Err e, touched, files) => (Err e, touched, files)
  | (Ok _, touched, files) =>
      let '(r, files) := dir_write dir rel content files in (r, touched ++ [rel], files)
  end.

Definition write_invoke (args : Value) (files : F) : Outcome :=
  match parse_write args with
  | Err e => (Err (InvalidArgs [e]), [], files)
  | Ok a =>
      match guard_relative (wa_path a) with
      | Err reason => (Err (ToolDenied reason), [], files)
      | Ok rel =>
          match write_file rel (wa_content a) files with
          | (Err e, touched, files) => (Err (write_error (wa_path a) e), touched, files)
          | (Ok _, touched, files) =>
              (Ok (VObject [("path", VString (wa_path a));
                     ("bytes_written", from_u64 (Z.of_nat (String.length (wa_content a))))]),
               touched, files)
          end
      end
  end.

(** The read and the write of an edit are two steps of the file system; others
    may come between them ([lost_update]). *)
Definition edit_file (a : EditArgs) (rel : string) (files : F)
  : result nat ToolError * list string * F :=
  match read_to_string dir rel files with
  | Err e => (Err (edit_read_error (ea_path a) e), [rel], files)
  | Ok original =>
      match edit_text a original with
      | Err e => (Err e, [rel], files)
      | Ok (updated, count) =>
          match dir_write dir rel updated files with
          | (Err e, files) => (Err (write_error (ea_path a) e), [rel; rel], files)
          | (Ok _, files) => (Ok count, [rel; rel], files)
          end
      end
  end.

Definition edit_invoke (args : Value) (files : F) : Outcome :=
  match parse_edit args with
  | Err e => (Err (InvalidArgs [e]), [], files)
  | Ok a =>
      match guard_relative (ea_path a) with
      | Err reason => (Err (ToolDenied reason), [], files)
      | Ok rel =>
          if is_empty (ea_old_string a) then
            (Err (ToolDenied "old_string must not be empty"), [], files)
          else
            match edit_file a rel files with
            | (Err e, touched, files) => (Err e, touched, files)
            | (Ok count, touched, files) =>
                (Ok (VObject [("path", VString (ea_path a));
                       ("replacements", from_u64 (Z.of_nat count))]), touched, files)
            end
      end
  end.

Inductive FileTool : Type :=
| ReadTool
| WriteTool
| EditTool.

Definition file_invoke (tool : FileTool) (args : Value) (files : F) : Outcome :=
  match tool with
  | ReadTool => read_invoke args files
  | WriteTool => write_invoke args files
  | EditTool => edit_invoke args files
  end.
End Tools.

(** ** The front gate *)

(** Where a path leads from a directory, by its names alone. *)
Definition follow (at_dir : list string) (c : Component) : list string :=
  match c with
  | RootDir => []
  | CurDir => at_dir
  | ParentDir => removelast at_dir
  | Normal name => at_dir ++ [name]
  end.

Definition leads_to (root : list string) (path : string) : list string :=
  fold_left follow (components path) root.

(** A path below the root, whatever the root is. *)
Definition confined (path : string) : Prop :=
  ∀ root, ∃ names, leads_to root path = root ++ names.

Lemma follow_below cs root :
  existsb climbs cs = false → ∃ names, fold_left follow cs root = root ++ names.
Proof.
  revert root. induction cs as [|c cs IH]; intros root; simpl.
  { exists []. by rewrite app_nil_r. }
  intros [Hc Hcs]%orb_false_iff. destruct (IH (follow root c) Hcs) as (names & ->).
  destruct c; simpl in *; try done; [by exists names|].
  eexists. by rewrite <- (assoc_L (++)).
Qed.

Lemma guard_confined path rel : guard_relative path = Ok rel → rel = path ∧ confined path.
Proof.
  unfold guard_relative. destruct (existsb climbs _) eqn:E; [done|]. intros [= <-].
  split; [done|]. intros root. by apply follow_below.
Qed.

Lemma trim_pieces_suffix l : ∃ l', l = l' ++ trim_pieces l.
Proof.
  induction l as [|x [|y l] IH]; [by exists []| |]; simpl.
  - destruct (String.eqb x ""); [by exists [x]|by exists []].
  - destruct IH as [l' IH]. destruct (String.eqb x "" || String.eqb x ".").
    + exists (x :: l'). simpl in *. by rewrite <- IH.
    + by exists [].
Qed.

(** The parent of a gated path passes the gate. *)
Lemma parent_confined path up :
  existsb climbs (components path) = false → parent path = Some up →
  existsb climbs (components up) = false.
Proof.
  unfold parent. destruct (trim_pieces_suffix (rev (split_on slash path))) as [l1 E1].
  destruct (trim_pieces _) as [|x rest]; [done|]. intros Hc [= <-].
  destruct (trim_pieces_suffix rest) as [l2 E2]. remember (trim_pieces rest) as kept eqn:Hk.
  clear Hk. destruct (decide (rev kept = [])) as [->|Hne]; [done|].
  assert (split_on slash path = rev kept ++ rev l2 ++ [x] ++ rev l1) as Hp.
  { rewrite <- (rev_involutive (split_on slash path)), E1, E2.
    rewrite rev_app_distr. simpl. rewrite rev_app_distr, <- !(assoc_L (++)). done. }
  assert (Forall (λ w, contains_char w slash = false) (rev kept)) as Hs.
  { pose proof (split_on_no_sep slash path) as H. rewrite Hp in H. by apply Forall_app in H as [H _]. }
  unfold components in *. change "/" with (String slash ""). rewrite split_on_concat by done.
  rewrite Hp in Hc. destruct (rev kept) as [|q qs]; [done|]. simpl in Hc |- *.
  rewrite existsb_app in Hc |- *. apply orb_false_iff in Hc as [Hq Hqs].
  rewrite omap_app, existsb_app in Hqs. apply orb_false_iff in Hqs as [Hqs _].
  apply orb_false_iff. split; [|done]. unfold first_component in *.
  destruct (String.eqb q ""); [|done].
  destruct (is_nil _) eqn:Hn in Hq; [|done]. exfalso. revert Hn. by destruct qs, (rev l2).
Qed.

Lemma guard_ok path : existsb climbs (components path) = false → guard_relative path = Ok path.
Proof. unfold guard_relative. by intros ->. Qed.

Lemma no_climb_confined path : existsb climbs (components path) = false → confined path.
Proof. intros H root. by apply follow_below. Qed.

Section Confinement.
Context `{J : SerdeJson} `{!JsonU64} {F : Type} (dir : Dir F).
Context (parse_read : Value → result ReadArgs string).
Context (parse_write : Value → result WriteArgs string).
Context (parse_edit : Value → result EditArgs string).

(** The path of a tool's arguments. *)
Definition path_of (tool : FileTool) (args : Value) : option string :=
  match tool with
  | ReadTool => match parse_read args with Ok a => Some (ra_path a) | Err _ => None end
  | WriteTool => match parse_write args with Ok a => Some (wa_path a) | Err _ => None end
  | EditTool => match parse_edit args with Ok a => Some (ea_path a) | Err _ => None end
  end.

Lemma write_file_touches rel content files :
  existsb climbs (components rel) = false →
  Forall confined (write_file dir rel content files).1.2.
Proof.
  intros Hr. pose proof (no_climb_confined _ Hr) as Hc. unfold write_file.
  assert (∀ up, parent rel = Some up → confined up) as Hup.
  { intros up E. by eapply no_climb_confined, parent_confined. }
  destruct (parent rel) as [up|].
  2:{ destruct (dir_write _ _ _ _). by repeat constructor. }
  destruct (is_empty up); [destruct (dir_write _ _ _ _); by repeat constructor|].
  destruct (create_dir_all dir up files) as [[] files1]; simpl.
  - destruct (dir_write _ _ _ _); simpl. repeat constructor; [by apply Hup|done].
  - repeat constructor. by apply Hup.
Qed.

Lemma edit_file_touches a rel files :
  confined rel → Forall confined (edit_file dir a rel files).1.2.
Proof.
  intros Hc. unfold edit_file. destruct (read_to_string _ _ _); [|by repeat constructor].
  destruct (edit_text a a0) as [[updated count]|]; [|by repeat constructor].
  destruct (dir_write _ _ _ _) as [[] ?]; by repeat constructor.
Qed.

(** C30. Whatever its arguments, a file tool hands the directory only paths that
    stay below the sandbox root by their names, the directories a write creates
    on its way included; and when its path would climb out, by an absolute path
    or by [..] anywhere in it, the call is denied and the files are not
    touched. *)
Theorem file_tools_confined tool args files :
  let '(r, touched, files') := file_invoke dir parse_read parse_write parse_edit tool args files in
  Forall confined touched
  ∧ ∀ path, path_of tool args = Some path → existsb climbs (components path) = true →
      r = Err (ToolDenied ("path escapes the sandbox root: " +:+ path))
      ∧ touched = [] ∧ files' = files.
Proof.
  destruct tool; simpl; unfold read_invoke, write_invoke, edit_invoke, guard_relative.
  - destruct (parse_read args) as [a|e]; [|by split].
    destruct (existsb climbs (components (ra_path a))) eqn:E.
    { split; [done|]. by intros path [= <-]. }
    split; [by repeat constructor; apply no_climb_confined|]. intros path [= <-]. congruence.
  - destruct (parse_write args) as [a|e]; [|by split].
    destruct (existsb climbs (components (wa_path a))) eqn:E.
    { split; [done|]. by intros path [= <-]. }
    pose proof (write_file_touches _ (wa_content a) files E) as Hw.
    destruct (write_file _ _ _ _) as [[[] touched] files1];
      (split; [exact Hw|]; intros path [= <-]; congruence).
  - destruct (parse_edit args) as [a|e]; [|by split].
    destruct (existsb climbs (components (ea_path a))) eqn:E.
    { split; [done|]. by intros path [= <-]. }
    destruct (is_empty _); [split; [done|]; intros path [= <-]; congruence|].
    pose proof (edit_file_touches a _ files (no_climb_confined _ E)) as Hw.
    destruct (edit_file _ _ _ _) as [[[] touched] files1];
      (split; [exact Hw|]; intros path [= <-]; congruence).
Qed.
End Confinement.

(** ** The text of an edit *)

(** The text without its last character. *)
Definition but_last (s : string) : string := String.substring 0 (String.length s - 1) s.

(** The pieces of a text between the occurrences of a pattern, counted from the
    left and without overlap: no occurrence begins before the one that ends the
    piece. *)
Inductive pieces_between (pat : string) : string → list string → Prop :=
| between_last s : contains_str s pat = false → pieces_between pat s [s]
| between_cut p s ps :
    contains_str (p +:+ but_last pat) pat = false → pieces_between pat s ps →
    pieces_between pat (p +:+ pat +:+ s) (p :: ps).

Lemma starts_with_longer s t p : starts_with s p = true → starts_with (s +:+ t) p = true.
Proof. rewrite !starts_with_spec. intros [r ->]. exists (r +:+ t). by rewrite string_app_assoc. Qed.

Lemma string_app_cancel (a b c : string) : a +:+ b = a +:+ c → b = c.
Proof. induction a as [|x a IH]; simpl; [done|]. intros [= ?]. auto. Qed.

Lemma prefix_within s t p :
  (String.length p ≤ String.length s)%nat → starts_with (s +:+ t) p = starts_with s p.
Proof.
  revert s. induction p as [|c p IH]; intros [|d s]; simpl; intros H; try lia.
  - by destruct t.
  - done.
  - unfold starts_with in *. simpl. destruct (Ascii.eqb c d); [apply IH; lia|done].
Qed.

Lemma contains_str_cons c s pat :
  contains_str (String c s) pat = false ↔
    starts_with (String c s) pat = false ∧ contains_str s pat = false.
Proof. cbn [contains_str]. by rewrite orb_false_iff. Qed.

Lemma starts_with_strip s pat : starts_with s pat = false ↔ strip_prefix pat s = None.
Proof. unfold starts_with. by destruct (strip_prefix pat s). Qed.

Section Pieces.
Context (pat : string) (Hpat : pat ≠ "").

Lemma but_last_split : ∃ c, pat = but_last pat +:+ String c "".
Proof using Hpat.
  unfold but_last. clear -Hpat. induction pat as [|c p IH]; [done|].
  destruct p as [|d p]; [by exists c|]. destruct (IH ltac:(done)) as [e E]. exists e.
  replace (String.length (String c (String d p)) - 1)%nat
    with (S (String.length (String d p) - 1))%nat by (simpl; lia).
  transitivity (String c (String.substring 0 (String.length (String d p) - 1) (String d p) +:+
    String e "")); [by rewrite <- E|reflexivity].
Qed.

Lemma but_last_length : String.length pat = S (String.length (but_last pat)).
Proof using Hpat.
  destruct but_last_split as [c E]. rewrite E at 1. rewrite string_length_app. simpl. lia.
Qed.

Lemma short_contains_not s :
  (String.length s < String.length pat)%nat → contains_str s pat = false.
Proof.
  assert (∀ t, starts_with t pat = true → (String.length pat ≤ String.length t)%nat) as Hlen.
  { intros t [r ->]%starts_with_spec. rewrite string_length_app. lia. }
  induction s as [|c s IH]; intros H.
  - cbn [contains_str]. rewrite orb_false_r. apply not_true_is_false. intros Hs%Hlen. simpl in *. lia.
  - apply contains_str_cons. split; [|apply IH; simpl in H; lia].
    apply not_true_is_false. intros Hs%Hlen. lia.
Qed.

(** Before an occurrence that ends a piece, nothing matches. *)
Lemma piece_no_match c p s :
  contains_str (String c p +:+ but_last pat) pat = false →
  strip_prefix pat (String c p +:+ (pat +:+ s)) = None.
Proof using Hpat.
  intros H. simpl in H. apply contains_str_cons in H as [H _]. apply starts_with_strip.
  destruct but_last_split as [d E]. rewrite E at 1. rewrite <- !string_app_assoc.
  rewrite string_app_assoc, prefix_within; [exact H|].
  rewrite but_last_length. simpl. rewrite string_length_app. lia.
Qed.

Lemma between_skip c s p ps :
  strip_prefix pat (String c s) = None → pieces_between pat s (p :: ps) →
  pieces_between pat (String c s) (String c p :: ps).
Proof using Hpat.
  intros Hn H. apply starts_with_strip in Hn. inversion H as [? Hs|? s2 ? Hp Hps]; subst.
  - constructor. by apply contains_str_cons.
  - change (String c (p +:+ pat +:+ s2)) with (String c p +:+ pat +:+ s2). constructor; [|done].
    simpl. apply contains_str_cons. split; [|done]. apply not_true_is_false. intros Hs.
    destruct but_last_split as [d E].
    assert (starts_with (String c (p +:+ pat +:+ s2)) pat = true); [|congruence].
    replace (String c (p +:+ pat +:+ s2))
      with (String c (p +:+ but_last pat) +:+ (String d "" +:+ s2)).
    { by apply starts_with_longer. }
    change (String c (p +:+ but_last pat) +:+ (String d "" +:+ s2))
      with (String c ((p +:+ but_last pat) +:+ (String d "" +:+ s2))).
    by rewrite string_app_assoc, <- (string_app_assoc (but_last pat)), <- E.
Qed.

Lemma between_match s ps : pieces_between pat s ps → pieces_between pat (pat +:+ s) ("" :: ps).
Proof using Hpat.
  intros H. apply (between_cut pat "" s ps); [|done]. apply short_contains_not.
  simpl. rewrite but_last_length. lia.
Qed.

Lemma between_nil_inv ps : pieces_between pat "" ps → ps = [""].
Proof using Hpat.
  inversion 1 as [|p s ? ? ? E]; [done|]. apply (f_equal String.length) in E.
  rewrite !string_length_app, but_last_length in E. simpl in E. lia.
Qed.

Lemma between_skip_inv c s ps :
  strip_prefix pat (String c s) = None → pieces_between pat (String c s) ps →
  ∃ p ps', ps = String c p :: ps' ∧ pieces_between pat s (p :: ps').
Proof.
  intros Hn H. inversion H as [? Hs|p s2 ps' Hp Hps E]; subst.
  - exists s, []. split; [done|]. constructor. by apply contains_str_cons in Hs as [_ Hs].
  - destruct p as [|d p].
    + simpl in E. rewrite <- E in Hn. by rewrite (proj2 (strip_prefix_Some pat _ s2)) in Hn.
    + simpl in E. injection E as -> <-. exists p, ps'. split; [done|].
      simpl in Hp. apply contains_str_cons in Hp as [_ Hp]. by constructor.
Qed.

Lemma between_match_inv s ps :
  pieces_between pat (pat +:+ s) ps → ∃ ps', ps = "" :: ps' ∧ pieces_between pat s ps'.
Proof using Hpat.
  intros H. inversion H as [? Hs|p s2 ps' Hp Hps E]; subst.
  - exfalso. destruct pat as [|c q] eqn:Eq; [done|]. rewrite <- Eq in *.
    assert (starts_with (pat +:+ s) pat = true) as Hst by (apply starts_with_spec; by exists s).
    rewrite Eq in Hs at 1. simpl in Hs. rewrite Eq in Hst at 1. simpl in Hst.
    apply contains_str_cons in Hs as [Hs _]. congruence.
  - destruct p as [|c p].
    + simpl in E. apply string_app_cancel in E as ->. by exists ps'.
    + exfalso. pose proof (piece_no_match c p s2 Hp) as Hn. rewrite E in Hn.
      by rewrite (proj2 (strip_prefix_Some pat _ s)) in Hn.
Qed.
(** Reading a text from the left: an occurrence ends a piece, any other
    character belongs to one. *)
Lemma scan_ind (P : string → Prop) :
  P "" →
  (∀ s, P s → P (pat +:+ s)) →
  (∀ c s, strip_prefix pat (String c s) = None → P s → P (String c s)) →
  ∀ s, P s.
Proof using Hpat.
  intros H0 Hm Hs s. remember (String.length s) as n eqn:En. revert s En.
  induction (lt_wf n) as [n _ IH]. intros s ->.
  destruct (strip_prefix pat s) as [s'|] eqn:E.
  - apply strip_prefix_Some in E as ->. apply Hm. eapply IH; [|done].
    rewrite string_length_app, but_last_length. lia.
  - destruct s as [|c s]; [done|]. apply Hs; [done|]. eapply IH; [|done]. simpl. lia.
Qed.

Lemma strip_own s : strip_prefix pat (pat +:+ s) = Some s.
Proof. by apply strip_prefix_Some. Qed.

Lemma between_exists s : ∃ p ps, pieces_between pat s (p :: ps).
Proof using Hpat.
  revert s. apply scan_ind.
  - exists "", []. constructor. apply short_contains_not. rewrite but_last_length. simpl. lia.
  - intros s (p & ps & H). exists "", (p :: ps). by apply between_match.
  - intros c s Hn (p & ps & H). exists (String c p), ps. by apply between_skip.
Qed.

Lemma between_unique s ps ps' :
  pieces_between pat s ps → pieces_between pat s ps' → ps = ps'.
Proof using Hpat.
  revert s ps ps'. refine (scan_ind (λ s, ∀ ps ps', _ → _ → ps = ps') _ _ _).
  - intros ps ps' ->%between_nil_inv ->%between_nil_inv. done.
  - intros s IH ps ps' (qs & -> & Hq)%between_match_inv (qs' & -> & Hq')%between_match_inv.
    f_equal. by apply IH.
  - intros c s Hn IH ps ps' H H'.
    apply between_skip_inv in H as (q & qs & -> & Hq); [|done].
    apply between_skip_inv in H' as (q' & qs' & -> & Hq'); [|done].
    by injection (IH _ _ Hq Hq') as -> ->.
Qed.

Lemma pat_not_empty s : pat +:+ s ≠ "".
Proof using Hpat. by destruct pat. Qed.

Lemma matches_pieces s fuel ps :
  pieces_between pat s ps → (String.length s < fuel)%nat →
  S (matches_go fuel pat s) = length ps.
Proof using Hpat.
  revert s fuel ps. refine (scan_ind (λ s, ∀ fuel ps, _ → (String.length s < fuel)%nat → _) _ _ _).
  - intros [|fuel] ps ->%between_nil_inv H; [lia|]. simpl. by destruct pat.
  - intros s IH [|fuel] ps (qs & -> & Hq)%between_match_inv H; [lia|].
    cbn [matches_go]. rewrite strip_own. simpl. f_equal. apply IH; [done|].
    rewrite string_length_app, but_last_length in H. lia.
  - intros c s Hn IH [|fuel] ps Hps H; [lia|].
    apply between_skip_inv in Hps as (q & qs & -> & Hq); [|done].
    cbn [matches_go]. rewrite Hn. apply (IH fuel _ Hq). simpl in H. lia.
Qed.

Lemma replacen_pieces rep s fuel n ps :
  pieces_between pat s ps → (String.length s < fuel)%nat → (length ps ≤ S n)%nat →
  replacen_go fuel pat rep s n = String.concat rep ps.
Proof using Hpat.
  revert s fuel n ps.
  refine (scan_ind (λ s, ∀ fuel n ps, _ → (String.length s < fuel)%nat → _ → _) _ _ _).
  - intros [|fuel] [|n] ps ->%between_nil_inv H Hn; try lia; simpl; [done|by destruct pat].
  - intros s IH [|fuel] n ps (qs & -> & Hq)%between_match_inv H Hl; [lia|]. simpl in Hl.
    destruct qs as [|q qs]; [by inversion Hq|]. destruct n as [|n]; [simpl in Hl; lia|]. cbn [replacen_go].
    rewrite strip_own, (IH fuel n _ Hq); [done| |lia].
    rewrite string_length_app, but_last_length in H. lia.
  - intros c s Hn IH [|fuel] n ps Hps H Hl; [lia|].
    apply between_skip_inv in Hps as (q & qs & -> & Hq); [|done].
    simpl in Hl. cbn [replacen_go]. rewrite Hn. destruct n as [|n].
    + destruct qs; [|simpl in Hl; lia]. inversion Hq as [|? ? ? ? Hps]; subst; [done|]. inversion Hps.
    + rewrite (IH fuel _ _ Hq); [|simpl in H; lia|simpl; lia]. by destruct qs.
Qed.

Lemma replace_pieces rep s fuel ps :
  pieces_between pat s ps → (String.length s < fuel)%nat →
  replace_go fuel pat rep s = String.concat rep ps.
Proof using Hpat.
  revert s fuel ps. refine (scan_ind (λ s, ∀ fuel ps, _ → (String.length s < fuel)%nat → _) _ _ _).
  - intros [|fuel] ps ->%between_nil_inv H; [lia|]. simpl. by destruct pat.
  - intros s IH [|fuel] ps (qs & -> & Hq)%between_match_inv H; [lia|].
    destruct qs as [|q qs]; [by inversion Hq|].
    cbn [replace_go]. rewrite strip_own, (IH fuel _ Hq); [done|].
    rewrite string_length_app, but_last_length in H. lia.
  - intros c s Hn IH [|fuel] ps Hps H; [lia|].
    apply between_skip_inv in Hps as (q & qs & -> & Hq); [|done].
    cbn [replace_go]. rewrite Hn, (IH fuel _ Hq); [by destruct qs|]. simpl in H. lia.
Qed.
End Pieces.

Lemma between_concat pat s ps : pieces_between pat s ps → s = String.concat pat ps.
Proof. induction 1 as [s Hs|p s ps Hp H IH]; [done|]. by destruct H; rewrite IH. Qed.

Section Edit.
Context `{J : SerdeJson} `{!JsonU64} {F : Type} (dir : Dir F).
Context (parse_edit : Value → result EditArgs string).

(** C29. An edit is exact.  The occurrences of [old_string], counted from the
    left without overlap, cut the file's text into pieces in one way; without an
    occurrence, or with several unless [replace_all] is set, the edit is
    refused and the files are not written; otherwise the text written is those
    pieces with [new_string] between them, and the answer reports their
    number. *)
Theorem edit_exact args a files original :
  parse_edit args = Ok a → existsb climbs (components (ea_path a)) = false →
  ea_old_string a ≠ "" → read_to_string dir (ea_path a) files = Ok original →
  ∃ p ps,
    (∀ qs, pieces_between (ea_old_string a) original qs ↔ qs = p :: ps)
    ∧ original = String.concat (ea_old_string a) (p :: ps)
    ∧ edit_invoke dir parse_edit args files =
        if is_nil ps then
          (Err (ToolDenied ("old_string not found in " +:+ ea_path a)), [ea_path a], files)
        else if (1 <? length ps)%nat && negb (ea_replace_all a) then
          (Err (ToolDenied "old_string is not unique; pass replace_all or add context"),
           [ea_path a], files)
        else
          match dir_write dir (ea_path a) (String.concat (ea_new_string a) (p :: ps)) files with
          | (Err e, files') => (Err (write_error (ea_path a) e), [ea_path a; ea_path a], files')
          | (Ok _, files') =>
              (Ok (VObject [("path", VString (ea_path a));
                     ("replacements", from_u64 (Z.of_nat (length ps)))]),
               [ea_path a; ea_path a], files')
          end.
Proof.
  intros Hp Hg Hold Hr. destruct (between_exists _ Hold original) as (p & ps & Hps).
  exists p, ps. split_and!; [|by apply between_concat|].
  { intros qs. split; [|by intros ->]. intros Hq. by eapply between_unique. }
  unfold edit_invoke. rewrite Hp, guard_ok by done.
  replace (is_empty (ea_old_string a)) with false by (by destruct (ea_old_string a)).
  unfold edit_file. rewrite Hr. unfold edit_text, matches_count, replace, replacen.
  pose proof (matches_pieces _ Hold original (S (String.length original)) _ Hps ltac:(lia)) as Hc.
  cbn [length] in Hc. apply Nat.succ_inj in Hc. rewrite Hc. destruct ps as [|q ps]; [done|]. cbn [length Nat.eqb is_nil].
  destruct ((1 <? S (length ps))%nat && negb (ea_replace_all a)) eqn:E; [done|].
  rewrite (replace_pieces _ Hold _ _ _ _ Hps) by lia. destruct (ea_replace_all a); [|].
  { by destruct (dir_write _ _ _ _) as [[] ?]. }
  rewrite (replacen_pieces _ Hold _ _ _ 1 _ Hps);
    [by destruct (dir_write _ _ _ _) as [[] ?]|lia|].
  rewrite andb_true_r in E. apply Nat.ltb_ge in E. simpl. lia.
Qed.
End Edit.

(** ** The window *)

Lemma line_join_app (ls ls' : list string) :
  ls ≠ [] → ls' ≠ [] →
  String.concat (String newline "") (ls ++ ls')
  = String.concat (String newline "") ls +:+
      String newline (String.concat (String newline "") ls').
Proof.
  intros Hne Hne'. induction ls as [|l ls IH]; [done|]. destruct ls as [|l2 ls].
  - by destruct ls'.
  - simpl in *. rewrite IH by done. by rewrite !string_app_assoc.
Qed.

(** Reading on from where a window ended misses and repeats nothing: the
    window of [n] lines from line [k], a line feed, and the window of [m] lines
    from line [k + n] are the window of [n + m] lines from [k], as long as
    neither is past the end. *)
Theorem windows_join text (k n m : Z) :
  (1 ≤ k)%Z → (0 < n)%Z → (0 < m)%Z → (k + n ≤ Z.of_nat (length (str_lines text)))%Z →
  window text (Some k) (Some (n + m)%Z)
  = window text (Some k) (Some n) +:+
      String newline (window text (Some (k + n)%Z) (Some m)).
Proof.
  intros Hk Hn Hm Hl. unfold window. simpl.
  replace (Z.to_nat (n + m)) with (Z.to_nat n + Z.to_nat m)%nat by lia.
  set (ls := drop (Z.to_nat (Z.max 0 (k - 1))) (str_lines text)).
  replace (drop (Z.to_nat (Z.max 0 (k + n - 1))) (str_lines text)) with (drop (Z.to_nat n) ls).
  2:{ unfold ls. rewrite drop_drop. f_equal. lia. }
  rewrite <- (take_drop (Z.to_nat n) ls) at 1. rewrite take_app_add'.
  2:{ unfold ls. rewrite length_take, length_drop. lia. }
  assert (Z.to_nat n < length ls)%nat by (unfold ls; rewrite length_drop; lia).
  apply line_join_app; intros H0%(f_equal length); rewrite length_take in H0;
    try rewrite length_drop in H0; simpl in H0; lia.
Qed.

(** ** A directory of files, to run the tools on *)

Module FileToolsDemo.
#[local] Existing Instances Toy.json Toy.json_u64.

Definition Files : Type := gmap string string.

Definition demo_dir : Dir Files := mkDir
  (λ path files, match files !! path with
                 | Some text => Ok text
                 | None => Err (mkIoError NotFound "not found")
                 end)
  (λ _ files, (Ok tt, files))
  (λ path text files, (Ok tt, <[path := text]> files)).

Definition edit_args (old new : string) (all : bool) (_ : Toy.value) : result EditArgs string :=
  Ok (mkEditArgs "src/a.rs" old new all).

Definition demo_files : Files := {["src/a.rs" := "let x = one; let y = one;"]}.

Definition edited (old new : string) (all : bool) : result Toy.value ToolError * Files :=
  let '(r, _, files) := edit_invoke demo_dir (edit_args old new all) VNull demo_files in (r, files).

Lemma edit_exact_witness :
  edited "one" "two" true
  = (Ok (VObject [("path", VString "src/a.rs"); ("replacements", from_u64 2)]),
     {["src/a.rs" := "let x = two; let y = two;"]}).
Proof.
  destruct (edit_exact (J:=Toy.json) demo_dir (edit_args "one" "two" true) VNull
              (mkEditArgs "src/a.rs" "one" "two" true) demo_files "let x = one; let y = one;")
    as (p & ps & Hps & _ & E); [reflexivity|reflexivity|discriminate|reflexivity|].
  assert (pieces_between "one" "let x = one; let y = one;" ["let x = "; "; let y = "; ";"]) as Hd.
  { apply (between_cut "one" "let x = " "; let y = one;"); [reflexivity|].
    apply (between_cut "one" "; let y = " ";"); [reflexivity|]. constructor. reflexivity. }
  apply Hps in Hd. injection Hd as <- <-. unfold edited. rewrite E. vm_compute. reflexivity.
Defined.

(** Two occurrences that share a character count as one: the edit is done at the
    first. *)
Example overlap_edited :
  (edit_text (mkEditArgs "a" "aXa" "b" false) "aXaXa")
  = Ok ("bXa", 1%nat)
  ∧ edit_text (mkEditArgs "a" "aXa" "b" false) "aXa aXa"
    = Err (ToolDenied "old_string is not unique; pass replace_all or add context").
Proof. vm_compute. done. Qed.

(** Of two edits that read before either wrote, the second undoes the first, and
    both report their replacement. *)
Example lost_update :
  let text := "let x = one; let y = 1;" in
  match edit_text (mkEditArgs "a" "one" "two" false) text,
        edit_text (mkEditArgs "a" "1" "2" false) text with
  | Ok (first, 1%nat), Ok (second, 1%nat) =>
      let files := (dir_write demo_dir "a" second (dir_write demo_dir "a" first ∅).2).2 in
      files !! "a" = Some "let x = one; let y = 2;"
  | _, _ => False
  end.
Proof. vm_compute. done. Qed.

Example escapes :
  (guard_relative "a/../b", guard_relative "/etc/passwd", guard_relative "./a//b", parent "./a//b",
   parent "a", parent "..foo/c/.")
  = (Err "path escapes the sandbox root: a/../b", Err "path escapes the sandbox root: /etc/passwd",
     Ok "./a//b", Some "./a", Some "", Some "..foo").
Proof. vm_compute. done. Qed.

Lemma windows_join_witness :
  window ("a" +:+ String (chr 13) (String newline "b") +:+ String newline "c") (Some 1%Z) (Some 2%Z)
  = "a" +:+ String newline "b".
Proof.
  rewrite (windows_join _ 1 1 1); [vm_compute; reflexivity|lia..|vm_compute; discriminate].
Defined.
End FileToolsDemo.
