(* ===== verification/ExecTools.v ===== *)
(** The shell and search tools and the execution backends
    (paigasus-helikon-tools/src: bash.rs, exec/mod.rs, exec/host.rs,
    exec/forkd.rs, web/search.rs).

    [BashTool] resolves a command with [CommandMatch] and hands it to a backend,
    which is a record of operations over any world.  Of the host backend the
    model has what is computed around the operating system: the environment of
    the child, the signals of a timeout and the capture of its output.  The
    micro-VM backend is a client of a REST controller: HTTP is a parameter that
    threads the world and the calls made are recorded; a call that is not
    answered within its timeout has no response. *)

From Stdlib Require Import Ascii.
From S2P Require Import Prelude Json Items CommandMatch Net.

(** ** Execution *)

Record ExecOutput := mkExecOutput {
  eo_stdout : string;
  eo_stderr : string;
  eo_exit_code : option Z;
  eo_timed_out : bool;
  eo_truncated : bool;
}.

Inductive Isolation : Type :=
| IsolationNone
| OsKernel
| Virtualized
| Proxied.

Record SandboxGuarantees := mkSandboxGuarantees {
  g_filesystem : Isolation;
  g_network : Isolation;
  g_syscalls : Isolation;
  g_label : string;
}.

(** [ExecutionBackend]; a request is its command. *)
Record ExecutionBackend (W : Type) := mkExecutionBackend {
  backend_run : string → W → result ExecOutput ToolError * W;
  guarantees : SandboxGuarantees;
}.
Arguments mkExecutionBackend {W} _ _.
Arguments backend_run {W} _ _ _.
Arguments guarantees {W} _.

(** ** The shell tool *)

Record BashTool (W : Type) := mkBashTool {
  bt_backend : ExecutionBackend W;
  bt_deny_commands : list string;
  bt_allow_commands : option (list string);
}.
Arguments mkBashTool {W} _ _ _.
Arguments bt_backend {W} _.
Arguments bt_deny_commands {W} _.
Arguments bt_allow_commands {W} _.

Definition bash_builder {W} (backend : ExecutionBackend W) : BashTool W := mkBashTool backend [] None.
Definition set_deny_commands {W} (b : BashTool W) (names : list string) : BashTool W :=
  mkBashTool (bt_backend b) names (bt_allow_commands b).
Definition set_allow_commands {W} (b : BashTool W) (names : list string) : BashTool W :=
  mkBashTool (bt_backend b) (bt_deny_commands b) (Some names).

Definition bash_description {W} (b : BashTool W) : string :=
  "Run a shell command. Containment tier: " +:+ g_label (guarantees (bt_backend b)) +:+
  ". The working directory is pinned to the sandbox root. The actual enforcement depends on the "
  +:+ "configured backend (see the containment tier above); gate access with a PermissionPolicy or "
  +:+ "DenyRule(" +:+ String double_quote "Bash" +:+ String double_quote ") as needed.".

Definition check_command_allowed {W} (self : BashTool W) (command : string)
  : result unit ToolError :=
  let programs := program <$> resolve_all command in
  match List.find (λ p, existsb (String.eqb p) (bt_deny_commands self)) programs with
  | Some bad => Err (ToolDenied ("command `" +:+ bad +:+ "` is blocked by the deny list"))
  | None =>
      match bt_allow_commands self with
      | Some allow =>
          match List.find (λ p, negb (existsb (String.eqb p) allow)) programs with
          | Some bad => Err (ToolDenied ("command `" +:+ bad +:+ "` is not in the allow list"))
          | None => Ok tt
          end
      | None => Ok tt
      end
  end.

Section Bash.
Context `{J : SerdeJson} {W : Type}.
(** [serde_json::from_value] of the arguments, and [Value::from] of an exit
    code. *)
Context (parse_args : Value → result string string).
Context (from_i32 : Z → Value).

Definition output_json (out : ExecOutput) : Value :=
  VObject [("stdout", VString (eo_stdout out)); ("stderr", VString (eo_stderr out));
    ("exit_code", match eo_exit_code out with Some c => from_i32 c | None => VNull end);
    ("timed_out", VBool (eo_timed_out out)); ("truncated", VBool (eo_truncated out))].

Definition bash_invoke (self : BashTool W) (args : Value) (w : W) : result Value ToolError * W :=
  match parse_args args with
  | Err e => (Err (InvalidArgs [e]), w)
  | Ok command =>
      match check_command_allowed self command with
      | Err e => (Err e, w)
      | Ok _ =>
          match backend_run (bt_backend self) command w with
          | (Err e, w) => (Err e, w)
          | (Ok out, w) => (Ok (output_json out), w)
          end
      end
  end.
End Bash.

(** ** The host backend *)

(** A [Duration], in nanoseconds. *)
Definition secs (n : Z) : Z := (n * 1000000000)%Z.
Definition as_secs (d : Z) : Z := (d / 1000000000)%Z.

Definition DEFAULT_TIMEOUT : Z := secs 30.
Definition DEFAULT_MAX_OUTPUT : Z := Z.shiftl 1 20.
Definition DEFAULT_ENV_ALLOWLIST : list string := ["PATH"; "HOME"].
Definition DEFAULT_FILE_SIZE_LIMIT : Z := Z.shiftl 1 30.
Definition CPU_LIMIT_MARGIN_SECS : Z := 5.

Record ResourceLimits := mkResourceLimits {
  cpu_seconds : option Z;
  file_size_bytes : option Z;
  address_space_bytes : option Z;
}.

Record ExecConfig := mkExecConfig {
  cwd : string;
  env_allowlist : list string;
  ec_timeout : Z;
  ec_max_output_bytes : Z;
}.

Record HostBackendBuilder := mkHostBackendBuilder {
  hb_root : string;
  hb_timeout : Z;
  hb_env_allowlist : list string;
  hb_max_output_bytes : Z;
  hb_limits : ResourceLimits;
  hb_limits_set : bool;
}.

Definition host_builder (root : string) : HostBackendBuilder :=
  mkHostBackendBuilder root DEFAULT_TIMEOUT DEFAULT_ENV_ALLOWLIST DEFAULT_MAX_OUTPUT
    (mkResourceLimits None None None) false.

Definition hb_set_timeout (b : HostBackendBuilder) (timeout : Z) : HostBackendBuilder :=
  mkHostBackendBuilder (hb_root b) timeout (hb_env_allowlist b) (hb_max_output_bytes b)
    (hb_limits b) (hb_limits_set b).
Definition hb_set_env_allowlist (b : HostBackendBuilder) (names : list string)
  : HostBackendBuilder :=
  mkHostBackendBuilder (hb_root b) (hb_timeout b) names (hb_max_output_bytes b)
    (hb_limits b) (hb_limits_set b).
Definition hb_set_max_output_bytes (b : HostBackendBuilder) (n : Z) : HostBackendBuilder :=
  mkHostBackendBuilder (hb_root b) (hb_timeout b) (hb_env_allowlist b) n
    (hb_limits b) (hb_limits_set b).
Definition hb_set_rlimits (b : HostBackendBuilder) (limits : ResourceLimits) : HostBackendBuilder :=
  mkHostBackendBuilder (hb_root b) (hb_timeout b) (hb_env_allowlist b) (hb_max_output_bytes b)
    limits true.

Definition host_build (b : HostBackendBuilder) : ExecConfig * ResourceLimits :=
  (mkExecConfig (hb_root b) (hb_env_allowlist b) (hb_timeout b) (hb_max_output_bytes b),
   if hb_limits_set b then hb_limits b
   else mkResourceLimits (Some (u64_saturating_add (as_secs (hb_timeout b)) CPU_LIMIT_MARGIN_SECS))
          (Some DEFAULT_FILE_SIZE_LIMIT) None).

Definition host_guarantees : SandboxGuarantees :=
  mkSandboxGuarantees IsolationNone IsolationNone IsolationNone "host (no containment)".

(** [apply_rlimits]: the limits set, in order, the soft and the hard one alike. *)
Inductive Resource := RlimitCpu | RlimitFsize | RlimitAs.

Definition apply_rlimits (limits : ResourceLimits) : list (Resource * Z) :=
  option_list (pair RlimitCpu <$> cpu_seconds limits)
  ++ option_list (pair RlimitFsize <$> file_size_bytes limits)
  ++ option_list (pair RlimitAs <$> address_space_bytes limits).

(** [build_command] on Unix: the program and its arguments. *)
Definition build_command (prefix : list string) (command : string) : list string :=
  prefix ++ ["sh"; "-c"; command].

(** [env_clear], then one [env] for every listed name the process has. *)
Definition child_env (env : gmap string string) (allowlist : list string) : gmap string string :=
  fold_left (λ m name, match env !! name with Some v => <[name := v]> m | None => m end) allowlist ∅.

Inductive Signal := SIGSTOP | SIGKILL.

(** The signals of a timeout: the group is stopped, then killed. *)
Definition as_i32 (n : Z) : Z := ((n + 2147483648) mod 4294967296 - 2147483648)%Z.

Definition kill_process_group (pgid : Z) : list (Z * Signal) :=
  let target := (- as_i32 pgid)%Z in [(target, SIGSTOP); (target, SIGKILL)].

(** [read_capped]: the bytes the pipe yields, read up to one more than the cap. *)
Definition take_bytes (n : Z) (s : string) : string :=
  String.substring 0 (Z.to_nat (Z.min n (Z.of_nat (String.length s)))) s.

Definition read_capped (bytes : string) (cap : Z) : string * bool :=
  let buf := take_bytes (u64_add cap 1) bytes in
  (from_utf8_lossy (take_bytes cap buf), (cap <? Z.of_nat (String.length buf))%Z).

(** [join_reader]: a reader that is not done after the grace period is
    aborted and what it read is discarded. *)
Definition join_reader (captured : option (string * bool)) : string * bool :=
  default ("", false) captured.

(** What the operating system answers: the spawn, the child's end within the
    timeout ([None] when it elapses), and what each pipe yields until its end
    ([None] when that takes longer than the grace period). *)
Record ChildRun := mkChildRun {
  cr_spawned : result (option Z) string;
  cr_wait : option (result (option Z) string);
  cr_stdout : option string;
  cr_stderr : option string;
}.

Definition spawn_capped (cfg : ExecConfig) (run : ChildRun)
  : result ExecOutput ToolError * list (Z * Signal) :=
  match cr_spawned run with
  | Err e => (Err (ToolOther ("failed to spawn shell: " +:+ e)), [])
  | Ok pgid =>
      let cap := ec_max_output_bytes cfg in
      let capture pipe := join_reader ((λ bytes, read_capped bytes cap) <$> pipe) in
      let finish exit_code timed_out :=
        let '(out, out_trunc) := capture (cr_stdout run) in
        let '(err, err_trunc) := capture (cr_stderr run) in
        Ok (mkExecOutput out err exit_code timed_out (out_trunc || err_trunc)) in
      match cr_wait run with
      | Some (Err e) => (Err (ToolOther e), [])
      | Some (Ok code) => (finish code false, [])
      | None =>
          (finish None true, match pgid with Some pid => kill_process_group pid | None => [] end)
      end
  end.

(** ** The micro-VM backend *)

(** [truncate]: to [cap] bytes, back to the boundary of a character. *)
Definition is_char_boundary (s : string) (i : nat) : bool :=
  (i =? 0)%nat ||
  match String.get i s with
  | Some c => let b := Ascii.nat_of_ascii c in (b <? 128)%nat || (192 <=? b)%nat
  | None => (i =? String.length s)%nat
  end.

Fixpoint back_to_boundary (s : string) (n : nat) : nat :=
  match n with
  | O => O
  | S n' => if is_char_boundary s n then n else back_to_boundary s n'
  end.

Definition truncate (s : string) (cap : Z) : string * bool :=
  if (Z.of_nat (String.length s) <=? cap)%Z then (s, false)
  else (String.substring 0 (back_to_boundary s (Z.to_nat cap)) s, true).

Definition CONTROL_TIMEOUT : Z := secs 10.
Definition DEFAULT_REAP_AGE : Z := secs 300.
Definition REAP_CONCURRENCY : nat := 8.

Inductive ForkdError : Type :=
| InvalidUrl (url : string)
| MissingConfig (what : string)
| InvalidCa
| ClientBuild
| InsecureControllerUrl
| ProxyUnreachable.

Record ForkdBackendBuilder := mkForkdBackendBuilder {
  fb_controller_url : string;
  fb_bearer_token : option string;
  fb_controller_ca : option string;
  fb_snapshot : option string;
  fb_timeout : Z;
  fb_max_output_bytes : Z;
  fb_egress : EgressPolicy;
  fb_enforce_egress : option string;
  fb_reap_age : Z;
}.

Record ForkdBackend := mkForkdBackend {
  f_base : string;
  f_token : string;
  f_snapshot : string;
  f_timeout : Z;
  f_max_output_bytes : Z;
  f_egress : EgressPolicy;
  f_egress_enforced : bool;
  f_reap_age : Z;
}.

Definition forkd_builder (controller_url : string) : ForkdBackendBuilder :=
  mkForkdBackendBuilder controller_url None None None DEFAULT_TIMEOUT DEFAULT_MAX_OUTPUT deny_all
    None DEFAULT_REAP_AGE.

(** [str::parse::<Ipv4Addr>]: four decimal numbers below 256 without leading
    zeros. *)
Definition parse_octet (s : string) : option Z :=
  match s with
  | String c (String _ _) => if Ascii.eqb c "0"%char then None else parse_digits 255 0 s
  | String _ EmptyString => parse_digits 255 0 s
  | EmptyString => None
  end.

Definition parse_ipv4 (s : string) : option Z :=
  match mapM parse_octet (split_on dot s) with
  | Some [a; b; c; d] => Some (a * 2 ^ 24 + b * 2 ^ 16 + c * 2 ^ 8 + d)%Z
  | _ => None
  end.

Fixpoint trim_start_matches (c : Ascii.ascii) (s : string) : string :=
  match s with
  | String d s' => if Ascii.eqb d c then trim_start_matches c s' else s
  | EmptyString => EmptyString
  end.

Section Forkd.
Context `{U : UrlLib} {W : Type}.

Definition host_is_loopback (url : Url) : bool :=
  match url_host_str url with
  | None => false
  | Some host =>
      let host := trim_end_matches "]"%char (trim_start_matches "["%char host) in
      eq_ignore_ascii_case host "localhost" || String.eqb host "::1"
      || match parse_ipv4 host with Some ip => is_loopback ip | None => false end
  end.

(** [Certificate::from_pem], [ClientBuilder::build] and the resolution and the
    connections of the probe. *)
Context (from_pem : string → bool) (client_builds : bool).
Context (to_socket_addrs : string → result (list IpAddr) string) (connects : IpAddr → bool).

Definition probe_proxy_reachable (endpoint : string) : bool :=
  let hostport :=
    match strip_prefix "http://" endpoint with
    | Some rest => rest
    | None => default endpoint (strip_prefix "https://" endpoint)
    end in
  match to_socket_addrs (trim_end_matches slash hostport) with
  | Ok addrs => existsb connects addrs
  | Err _ => false
  end.

Definition build_backend (b : ForkdBackendBuilder) : result ForkdBackend ForkdError :=
  match url_parse (fb_controller_url b) with
  | Err _ => Err (InvalidUrl (fb_controller_url b))
  | Ok parsed =>
      if String.eqb (url_scheme parsed) "http" && negb (host_is_loopback parsed)
      then Err InsecureControllerUrl
      else
        match fb_bearer_token b, fb_snapshot b with
        | None, _ => Err (MissingConfig "bearer_token")
        | Some _, None => Err (MissingConfig "snapshot")
        | Some token, Some snapshot =>
            if negb (match fb_controller_ca b with Some pem => from_pem pem | None => true end)
            then Err InvalidCa
            else if negb client_builds then Err ClientBuild
            else
              match (match fb_enforce_egress b with
                     | Some ep => if probe_proxy_reachable ep then Ok true else Err ProxyUnreachable
                     | None => Ok false
                     end) with
              | Err e => Err e
              | Ok enforced =>
                  Ok (mkForkdBackend (trim_end_matches slash (fb_controller_url b)) token snapshot
                        (fb_timeout b) (fb_max_output_bytes b) (fb_egress b) enforced
                        (fb_reap_age b))
              end
        end
  end.

(** A call on the controller; every call carries the token in its header. *)
Inductive HttpCall : Type :=
| PostFork (url snapshot_tag : string) (n : Z) (per_child_netns : bool)
| PostExec (url : string) (args : list string) (timeout_secs : Z)
| GetList (url : string)
| DeleteSandbox (url : string).

Record HttpResponse := mkHttpResponse { hr_status : Z; hr_body : string }.

(** [None]: no answer within the timeout. *)
Context (http : HttpCall → Z → W → option (result HttpResponse string) * W).

Record ExecResp := mkExecResp {
  xr_stdout : string;
  xr_stderr : string;
  xr_exit_code : option Z;
}.

(** [Response::json] at the two types. *)
Context (decode_sandboxes : string → result (list string) string).
Context (decode_exec : string → result ExecResp string).

Definition is_success (status : Z) : bool := (200 <=? status)%Z && (status <? 300)%Z.

Definition http_error (status : Z) : ToolError :=
  ToolOther ("forkd controller returned HTTP " +:+ show_Z status).

(** [post_json] and [get_json], after the send. *)
Definition json_response {A} (decode : string → result A string)
    (r : result HttpResponse string) : result A ToolError :=
  match r with
  | Err e => Err (ToolOther ("forkd request failed: " +:+ e))
  | Ok resp =>
      if negb (is_success (hr_status resp)) then Err (http_error (hr_status resp))
      else match decode (hr_body resp) with
           | Ok a => Ok a
           | Err e => Err (ToolOther ("forkd response decode failed: " +:+ e))
           end
  end.

Definition sandboxes_url (self : ForkdBackend) : string := f_base self +:+ "/v1/sandboxes".
Definition sandbox_url (self : ForkdBackend) (id : string) : string :=
  sandboxes_url self +:+ "/" +:+ id.

Definition fork_call (self : ForkdBackend) : HttpCall :=
  PostFork (sandboxes_url self) (f_snapshot self) 1 true.
Definition exec_call (self : ForkdBackend) (id command : string) : HttpCall :=
  PostExec (sandbox_url self id +:+ "/exec") ["sh"; "-c"; command] (as_secs (f_timeout self)).
Definition delete_call (self : ForkdBackend) (id : string) : HttpCall :=
  DeleteSandbox (sandbox_url self id).

Definition fork (self : ForkdBackend) (w : W) : result string ToolError * W :=
  match http (fork_call self) (f_timeout self) w with
  | (None, w) => (Err (ToolOther "forkd: fork timed out"), w)
  | (Some r, w) =>
      (match json_response decode_sandboxes r with
       | Err e => Err e
       | Ok [] => Err (ToolOther "forkd returned no sandbox")
       | Ok (id :: _) => Ok id
       end, w)
  end.

(** [try_destroy], after the send; a sandbox that is gone is destroyed. *)
Definition destroyed (r : result HttpResponse string) : result unit ToolError :=
  match r with
  | Err e => Err (ToolOther ("forkd request failed: " +:+ e))
  | Ok resp =>
      if is_success (hr_status resp) || (hr_status resp =? 404)%Z then Ok tt
      else Err (http_error (hr_status resp))
  end.

(** [run]: fork, execute and tear down; the teardown's outcome is not looked at. *)
Definition forkd_run (self : ForkdBackend) (command : string) (w : W)
  : result ExecOutput ToolError * list HttpCall * W :=
  match fork self w with
  | (Err e, w) => (Err e, [fork_call self], w)
  | (Ok id, w) =>
      let '(executed, w) := http (exec_call self id command) (f_timeout self) w in
      let '(_, w) := http (delete_call self id) CONTROL_TIMEOUT w in
      (match executed with
       | Some r =>
           match json_response decode_exec r with
           | Err e => Err e
           | Ok resp =>
               let '(stdout, t1) := truncate (xr_stdout resp) (f_max_output_bytes self) in
               let '(stderr, t2) := truncate (xr_stderr resp) (f_max_output_bytes self) in
               Ok (mkExecOutput stdout stderr (xr_exit_code resp) false (t1 || t2))
           end
       | None => Ok (mkExecOutput "" "" None true false)
       end, [fork_call self; exec_call self id command; delete_call self id], w)
  end.

Definition forkd_guarantees (self : ForkdBackend) : SandboxGuarantees :=
  mkSandboxGuarantees Virtualized (if f_egress_enforced self then Proxied else IsolationNone)
    Virtualized "forkd (firecracker microvm — experimental)".

(** *** Reconciliation *)

(** An entry of the list; [created_at_unix] is decoded leniently. *)
Record SandboxListEntry := mkSandboxListEntry {
  le_id : string;
  le_snapshot_tag : string;
  le_created_at_unix : option Z;
}.

Definition lenient_unix_secs `{J : SerdeJson} `{!JsonU64} (value : option Value) : option Z :=
  value ≫= as_u64.

Record ReconcileReport := mkReconcileReport {
  rr_scanned : nat;
  rr_reaped : list string;
  rr_failed : list string;
  rr_skipped_unageable : nat;
}.

(** The loop over the list: the candidates and the entries without an age. *)
Definition sort_entry (self : ForkdBackend) (now : Z) (acc : list string * nat)
    (entry : SandboxListEntry) : list string * nat :=
  let '(candidates, skipped) := acc in
  if negb (String.eqb (le_snapshot_tag entry) (f_snapshot self)) then acc
  else match le_created_at_unix entry with
       | None => (candidates, S skipped)
       | Some t =>
           if (as_secs (f_reap_age self) <? Z.max 0 (now - t))%Z
           then (candidates ++ [le_id entry], skipped) else acc
       end.

(** [chunks(n)]; every chunk takes one step of the fuel. *)
Fixpoint chunks_fuel {A} (fuel n : nat) (l : list A) : list (list A) :=
  match fuel, l with
  | O, _ | _, [] => []
  | S fuel', _ => take n l :: chunks_fuel fuel' n (drop n l)
  end.

Definition chunks {A} (n : nat) (l : list A) : list (list A) := chunks_fuel (length l) n l.

Context (decode_list : string → result (list SandboxListEntry) string).
(** The deletions of a chunk are in flight together: the model is given their
    outcomes by position ([None] when the timeout elapses). *)
Context (deleted : nat → option (result HttpResponse string)).

(** The outcomes of a chunk whose first deletion is the [i]th. *)
Definition reap_chunk (i : nat) (chunk : list string) (acc : list string * list string)
  : list string * list string :=
  fold_left (λ '(reaped, failed) '(id, outcome),
      if (outcome : bool) then (reaped ++ [id], failed) else (reaped, failed ++ [id]))
    (imap (λ k id, (id, match deleted (i + k) with
                        | Some r => is_ok (destroyed r)
                        | None => false
                        end)) chunk) acc.

Fixpoint reap (i : nat) (batches : list (list string)) (acc : list string * list string)
  : list string * list string :=
  match batches with
  | [] => acc
  | chunk :: batches' => reap (i + length chunk) batches' (reap_chunk i chunk acc)
  end.

(** The report, and the deletions sent, chunk by chunk. *)
Definition reconcile (self : ForkdBackend) (now : Z) (w : W)
  : result ReconcileReport ToolError * list (list HttpCall) * W :=
  match http (GetList (sandboxes_url self)) CONTROL_TIMEOUT w with
  | (None, w) => (Err (ToolOther "forkd: list timed out"), [], w)
  | (Some r, w) =>
      match json_response decode_list r with
      | Err e => (Err e, [], w)
      | Ok entries =>
          let '(candidates, skipped) := fold_left (sort_entry self now) entries ([], 0%nat) in
          let batches := chunks REAP_CONCURRENCY candidates in
          let '(reaped, failed) := reap 0 batches ([], []) in
          (Ok (mkReconcileReport (length entries) reaped failed skipped),
           map (map (delete_call self)) batches, w)
      end
  end.
End Forkd.

(** ** The search tool *)

Definition HARD_MAX_RESULTS : Z := 20.

Record SearchResult := mkSearchResult {
  sr_title : string;
  sr_url : string;
  sr_snippet : string;
  sr_content : option string;
}.

(** [SearchBackend] *)
Record SearchBackend (W : Type) := mkSearchBackend {
  sb_name : string;
  sb_search : string → Z → W → result (list SearchResult) string * W;
}.
Arguments mkSearchBackend {W} _ _.
Arguments sb_name {W} _.
Arguments sb_search {W} _ _ _ _.

Record WebSearchTool (W : Type) := mkWebSearchTool {
  ws_backend : SearchBackend W;
  ws_max_results : Z;
  ws_allowed_domains : option (list string);
  ws_blocked_domains : list string;
}.
Arguments mkWebSearchTool {W} _ _ _ _.
Arguments ws_backend {W} _.
Arguments ws_max_results {W} _.
Arguments ws_allowed_domains {W} _.
Arguments ws_blocked_domains {W} _.

(** [Ord::clamp] *)
Definition clamp (n low high : Z) : Z := Z.min high (Z.max low n).

Definition web_search_builder {W} (backend : SearchBackend W) : WebSearchTool W :=
  mkWebSearchTool backend 5 None [].
Definition ws_set_max_results {W} (b : WebSearchTool W) (n : Z) : WebSearchTool W :=
  mkWebSearchTool (ws_backend b) (clamp n 1 HARD_MAX_RESULTS) (ws_allowed_domains b)
    (ws_blocked_domains b).
Definition ws_set_allowed_domains {W} (b : WebSearchTool W) (hosts : list string)
  : WebSearchTool W :=
  mkWebSearchTool (ws_backend b) (ws_max_results b)
    (match hosts with [] => None | _ => Some hosts end) (ws_blocked_domains b).
Definition ws_set_blocked_domains {W} (b : WebSearchTool W) (hosts : list string)
  : WebSearchTool W :=
  mkWebSearchTool (ws_backend b) (ws_max_results b) (ws_allowed_domains b) hosts.

Section WebSearch.
Context `{J : SerdeJson} `{U : UrlLib} {W : Type}.
(** [serde_json::from_value] of the arguments: the query and the limit. *)
Context (parse_args : Value → result (string * option Z) string).

Definition host_of (url : string) : option string :=
  match url_parse url with Ok u => url_host_str u | Err _ => None end.

Definition keeps_host (self : WebSearchTool W) (r : SearchResult) : bool :=
  match host_of (sr_url r) with
  | Some h => host_allowed h (ws_allowed_domains self) (ws_blocked_domains self)
  | None => false
  end.

Definition filter_by_domain (self : WebSearchTool W) (results : list SearchResult)
  : list SearchResult :=
  match ws_allowed_domains self, ws_blocked_domains self with
  | None, [] => results
  | _, _ => List.filter (keeps_host self) results
  end.

Definition search_result_json (r : SearchResult) : Value :=
  VObject ([("title", VString (sr_title r)); ("url", VString (sr_url r));
    ("snippet", VString (sr_snippet r))]
    ++ option_list (pair "content" ∘ VString <$> sr_content r)).

Definition web_search_invoke (self : WebSearchTool W) (args : Value) (w : W)
  : result Value ToolError * W :=
  match parse_args args with
  | Err e => (Err (InvalidArgs [e]), w)
  | Ok (query, limit) =>
      let limit := clamp (default (ws_max_results self) limit) 1 HARD_MAX_RESULTS in
      match sb_search (ws_backend self) query limit w with
      | (Err e, w) => (Err (ToolOther ("[" +:+ sb_name (ws_backend self) +:+ "] " +:+ e)), w)
      | (Ok results, w) =>
          (Ok (VObject [("results",
             VArray (map search_result_json (filter_by_domain self results)))]), w)
      end
  end.
End WebSearch.

(** ** Commands *)

Section BashLists.
Context `{J : SerdeJson} {W : Type}.
Context (parse_args : Value → result string string) (from_i32 : Z → Value).

(** The command lists let a program pass. *)
Definition lists_permit (self : BashTool W) (p : string) : Prop :=
  (p ∉ bt_deny_commands self) ∧ ∀ allow, bt_allow_commands self = Some allow → p ∈ allow.

Lemma existsb_elem (l : list string) p : existsb (String.eqb p) l = true ↔ p ∈ l.
Proof.
  rewrite existsb_Exists. split; [|intros Hp; exists p; by rewrite String.eqb_refl].
  by intros (q & Hq & ->%String.eqb_eq).
Qed.

Lemma find_elem {A} (f : A → bool) l x : List.find f l = Some x → x ∈ l ∧ f x = true.
Proof. intros [H1 H2]%find_some. split; [by apply list_elem_of_In|done]. Qed.

Lemma check_permits self command :
  (∀ p, p ∈ program <$> resolve_all command → lists_permit self p) →
  check_command_allowed self command = Ok tt.
Proof.
  intros H. unfold check_command_allowed. destruct (List.find _ _) as [bad|] eqn:E.
  { apply find_elem in E as [Hb E%existsb_elem]. by apply H in Hb as [? _]. }
  destruct (bt_allow_commands self) as [allow|] eqn:Ha; [|done].
  destruct (List.find (λ p, negb _) _) as [bad|] eqn:E'; [|done].
  apply find_elem in E' as [Hb E']. apply H in Hb as [_ Hb]. apply Hb, existsb_elem in Ha.
  by rewrite Ha in E'.
Qed.

Lemma check_refuses self command p :
  p ∈ program <$> resolve_all command → ¬ lists_permit self p →
  ∃ reason, check_command_allowed self command = Err (ToolDenied reason).
Proof.
  intros Hp Hn. unfold check_command_allowed.
  destruct (List.find _ _) as [bad|] eqn:E; [by eexists|].
  pose proof (find_none _ _ E p (proj1 (list_elem_of_In _ _) Hp)) as Hd. cbn beta in Hd.
  destruct (bt_allow_commands self) as [allow|] eqn:Ha.
  - destruct (List.find (λ p, negb _) _) as [bad|] eqn:E'; [by eexists|]. exfalso. apply Hn. split.
    + intros Hin%existsb_elem. congruence.
    + intros allow' Ha'. rewrite Ha in Ha'. injection Ha' as <-. apply existsb_elem.
      pose proof (find_none _ _ E' p (proj1 (list_elem_of_In _ _) Hp)) as Hb.
      by apply negb_false_iff in Hb.
  - exfalso. apply Hn. split; [intros Hin%existsb_elem; congruence|]. by rewrite Ha.
Qed.

End BashLists.

(** ** Captured output *)

Lemma substring_0_length n s :
  (n ≤ String.length s)%nat → String.length (String.substring 0 n s) = n.
Proof.
  revert s. induction n as [|n IH]; intros [|c s]; simpl; try done; try lia.
  intros H. rewrite IH; lia.
Qed.

Lemma substring_0_split n s : ∃ rest, s = String.substring 0 n s +:+ rest.
Proof.
  revert s. induction n as [|n IH]; intros [|c s]; simpl; [by exists ""|by exists (String c s)|by exists ""|].
  destruct (IH s) as [rest E]. exists rest. by rewrite <- E.
Qed.

Lemma substring_all s : String.substring 0 (String.length s) s = s.
Proof. induction s as [|c s IH]; simpl; [done|]. by rewrite IH. Qed.

Lemma substring_substring n m s :
  (n ≤ m)%nat → String.substring 0 n (String.substring 0 m s) = String.substring 0 n s.
Proof.
  revert m s. induction n as [|n IH]; intros [|m] [|c s] H; simpl; try done; try lia.
  rewrite IH by lia. done.
Qed.

Lemma take_bytes_length n s :
  (0 ≤ n)%Z → Z.of_nat (String.length (take_bytes n s)) = Z.min n (Z.of_nat (String.length s)).
Proof. intros H. unfold take_bytes. rewrite substring_0_length; lia. Qed.

Lemma take_bytes_twice n m s :
  (0 ≤ n ≤ m)%Z → take_bytes n (take_bytes m s) = take_bytes n s.
Proof.
  intros H. unfold take_bytes at 1. rewrite take_bytes_length by lia. unfold take_bytes.
  rewrite substring_substring by lia. f_equal. lia.
Qed.

(** A character of the result stands for at least one byte. *)
Lemma lossy_go_length need lo hi acc s :
  (need ≠ 0 → 1 ≤ String.length acc)%nat →
  (String.length (lossy_go need lo hi acc s)
     ≤ 3 * ((if need =? 0 then 0 else String.length acc) + String.length s))%nat.
Proof.
  revert need lo hi acc. induction s as [|c s IH]; intros need lo hi acc Hacc.
  { cbn [lossy_go]. destruct need; [simpl; lia|]. specialize (Hacc ltac:(lia)).
    change (String.length replacement) with 3%nat. simpl. lia. }
  assert (∀ a : string, (String.length (if (Ascii.nat_of_ascii c <? 128)%nat
              then String c (lossy_go 0 0 0 "" s)
              else match lead_byte (Ascii.nat_of_ascii c) with
                   | Some (n, l, h) => lossy_go n l h (String c "") s
                   | None => replacement +:+ lossy_go 0 0 0 "" s
                   end) ≤ 3 * S (String.length s))%nat) as Hstart.
  { intros _. pose proof (IH 0%nat 0%nat 0%nat "" ltac:(lia)) as H0. cbn [Nat.eqb] in H0.
    destruct (_ <? _)%nat; [simpl String.length; lia|].
    destruct (lead_byte _) as [[[n l] h]|].
    - specialize (IH n l h (String c "") ltac:(simpl; lia)). simpl String.length in IH.
      destruct (n =? 0)%nat; lia.
    - rewrite string_length_app. change (String.length replacement) with 3%nat. lia. }
  cbn [lossy_go]. destruct need as [|need]; [by apply Hstart|]. specialize (Hacc ltac:(lia)).
  cbn [Nat.eqb]. destruct (_ && _).
  - assert (String.length (snoc acc c) = S (String.length acc)) as Hs.
    { unfold snoc. rewrite string_length_app. simpl. lia. }
    destruct (Nat.eqb_spec need 0) as [->|Hn].
    + rewrite string_length_app, Hs. specialize (IH 0%nat 0%nat 0%nat "" ltac:(lia)).
      cbn [Nat.eqb] in IH. simpl String.length. lia.
    + specialize (IH need 128%nat 191%nat (snoc acc c) ltac:(lia)).
      rewrite (proj2 (Nat.eqb_neq need 0) Hn), Hs in IH. simpl String.length. lia.
  - rewrite string_length_app. change (String.length replacement) with 3%nat.
    specialize (Hstart ""). simpl String.length in *. lia.
Qed.

Lemma from_utf8_lossy_length s : (String.length (from_utf8_lossy s) ≤ 3 * String.length s)%nat.
Proof. unfold from_utf8_lossy. etrans; [apply lossy_go_length; lia|]. simpl. lia. Qed.

(** The capture of a stream is bounded: below the largest [usize] it is the
    first [cap] bytes, decoded, never more than three bytes for each of them,
    and marked truncated exactly when there were more.  At the largest
    [usize], which reads as no limit, the bound wraps to zero: nothing is
    captured and nothing is marked. *)
Theorem capture_bounded bytes cap :
  (0 ≤ cap)%Z →
  ((cap < u64_max)%Z →
     read_capped bytes cap
       = (from_utf8_lossy (take_bytes cap bytes), (cap <? Z.of_nat (String.length bytes))%Z)
     ∧ (Z.of_nat (String.length (fst (read_capped bytes cap))) ≤ 3 * cap)%Z)
  ∧ (cap = u64_max → read_capped bytes cap = ("", false)).
Proof.
  intros Hc. split.
  - intros Hm.
    assert (read_capped bytes cap = (from_utf8_lossy (take_bytes cap bytes),
              (cap <? Z.of_nat (String.length bytes))%Z)) as E.
    { unfold read_capped. rewrite u64_add_small by (unfold u64_max in *; lia).
      rewrite take_bytes_twice, take_bytes_length by lia. f_equal.
      destruct (Z.ltb_spec cap (Z.min (cap + 1) (Z.of_nat (String.length bytes))));
        destruct (Z.ltb_spec cap (Z.of_nat (String.length bytes))); done || lia. }
    split; [done|]. rewrite E. simpl.
    pose proof (from_utf8_lossy_length (take_bytes cap bytes)).
    pose proof (take_bytes_length cap bytes Hc). lia.
  - intros ->. unfold read_capped. change (u64_add u64_max 1) with 0%Z.
    assert (take_bytes 0 bytes = "") as ->.
    { pose proof (take_bytes_length 0 bytes ltac:(lia)) as H.
      destruct (take_bytes 0 bytes); [done|]. simpl in H. lia. }
    reflexivity.
Qed.

(** The exit code is none exactly as the contract of [ExecOutput] asks. *)
Lemma spawn_contract cfg run out signals :
  spawn_capped cfg run = (Ok out, signals) →
  (eo_timed_out out = true ↔ cr_wait run = None)
  ∧ (eo_timed_out out = true → eo_exit_code out = None)
  ∧ (signals ≠ [] → eo_timed_out out = true).
Proof.
  unfold spawn_capped. destruct (cr_spawned run) as [pgid|]; [|done].
  destruct (cr_wait run) as [[code|e]|]; [| |].
  - destruct (join_reader _), (join_reader _). intros [= <- <-]. done.
  - done.
  - destruct (join_reader _), (join_reader _). intros [= <- <-]. done.
Qed.

(** The child sees the listed names of the environment, and no other. *)
Lemma child_env_exact env allowlist name :
  child_env env allowlist !! name = if decide (name ∈ allowlist) then env !! name else None.
Proof.
  unfold child_env.
  assert (∀ m : gmap string string,
    fold_left (λ m n, match env !! n with Some v => <[n := v]> m | None => m end) allowlist m !! name
    = match (if decide (name ∈ allowlist) then env !! name else None) with
      | Some v => Some v | None => m !! name end) as H.
  { induction allowlist as [|n l IH]; intros m; cbn [fold_left]; [done|]. rewrite IH.
    destruct (decide (name ∈ l)) as [Hl|Hl].
    - rewrite decide_True by (by right). destruct (env !! name) eqn:E; [done|].
      destruct (decide (n = name)) as [->|Hn]; [by rewrite E|].
      destruct (env !! n); [by rewrite lookup_insert_ne|done].
    - destruct (decide (n = name)) as [->|Hn].
      + rewrite decide_True by (by left). destruct (env !! name); [by rewrite lookup_insert_eq|done].
      + rewrite decide_False by (by rewrite elem_of_cons; intros [?|?]).
        destruct (env !! n); [by rewrite lookup_insert_ne|done]. }
  rewrite H. destruct (decide _); [by destruct (env !! name)|done].
Qed.

(** ** Truncation at a character *)

Lemma back_to_boundary_spec s n :
  (back_to_boundary s n ≤ n)%nat ∧ is_char_boundary s (back_to_boundary s n) = true
  ∧ ∀ i, (back_to_boundary s n < i ≤ n)%nat → is_char_boundary s i = false.
Proof.
  induction n as [|n (IH1 & IH2 & IH3)].
  { split_and!; [done|done|]. simpl. lia. }
  simpl. destruct (is_char_boundary s (S n)) eqn:E; [split_and!; [lia|done|lia]|].
  split_and!; [lia|done|]. intros i Hi. destruct (decide (i = S n)) as [->|]; [done|].
  apply IH3. lia.
Qed.

(** What is left of a text: all of it when it fits, otherwise the longest prefix
    within the cap that ends between two characters. *)
Lemma truncate_spec s cap :
  (0 ≤ cap)%Z →
  let '(t, cut) := truncate s cap in
  (Z.of_nat (String.length t) ≤ cap)%Z
  ∧ (∃ rest, s = t +:+ rest)
  ∧ (cut = true ↔ (cap < Z.of_nat (String.length s))%Z)
  ∧ (cut = false → t = s)
  ∧ (cut = true → is_char_boundary s (String.length t) = true
     ∧ ∀ i, (String.length t < i)%nat → (Z.of_nat i ≤ cap)%Z → is_char_boundary s i = false).
Proof.
  intros Hc. unfold truncate. destruct (Z.leb_spec (Z.of_nat (String.length s)) cap) as [H|H].
  { split_and!; try done; [exists ""; by rewrite string_app_nil_r|lia]. }
  destruct (back_to_boundary_spec s (Z.to_nat cap)) as (H1 & H2 & H3).
  rewrite substring_0_length by lia.
  split_and!; [lia|apply substring_0_split|done|done|].
  intros _. split; [done|]. intros i Hi Hi2. apply H3. lia.
Qed.

(** ** The life of a micro-VM *)

Section Lifecycle.
Context `{U : UrlLib} {W : Type}.
Context (http : HttpCall → Z → W → option (result HttpResponse string) * W).
Context (decode_sandboxes : string → result (list string) string).
Context (decode_exec : string → result ExecResp string).

(** Every sandbox a run learns of is torn down.  When the fork fails nothing
    else is sent; otherwise exactly one execution and then one deletion of that
    sandbox follow, whatever the execution's outcome, a timeout or an error
    included.  A run times out exactly when the execution got no answer, then
    has no exit code, and its output is within the cap. *)
Theorem forkd_tears_down self command w :
  (0 ≤ f_max_output_bytes self)%Z →
  let '(r, calls, w') := forkd_run http decode_sandboxes decode_exec self command w in
  match fork http decode_sandboxes self w with
  | (Err e, w1) => r = Err e ∧ calls = [fork_call self] ∧ w' = w1
  | (Ok id, w1) =>
      let '(answer, w2) := http (exec_call self id command) (f_timeout self) w1 in
      calls = [fork_call self; exec_call self id command; delete_call self id]
      ∧ w' = snd (http (delete_call self id) CONTROL_TIMEOUT w2)
      ∧ (answer = None ↔ ∃ out, r = Ok out ∧ eo_timed_out out = true)
      ∧ ∀ out, r = Ok out →
          (eo_timed_out out = true → eo_exit_code out = None)
          ∧ (Z.of_nat (String.length (eo_stdout out)) ≤ f_max_output_bytes self)%Z
          ∧ (Z.of_nat (String.length (eo_stderr out)) ≤ f_max_output_bytes self)%Z
  end.
Proof.
  intros Hcap. unfold forkd_run. destruct (fork http decode_sandboxes self w) as [[id|e] w1]; [|done].
  destruct (http (exec_call _ _ _) _ w1) as [answer w2].
  destruct (http (delete_call _ _) _ w2) as [deletion w3] eqn:Ed.
  split; [done|]. split; [done|]. destruct answer as [answer|].
  - destruct (json_response decode_exec answer) as [resp|e]; [|split; [naive_solver|done]].
    pose proof (truncate_spec (xr_stdout resp) _ Hcap) as Ho.
    pose proof (truncate_spec (xr_stderr resp) _ Hcap) as He.
    destruct (truncate (xr_stdout resp) _) as [out t1], (truncate (xr_stderr resp) _) as [err t2].
    split; [naive_solver|]. intros o [= <-]. simpl. by destruct Ho as [? _], He as [? _].
  - split; [split; [by eexists|done]|]. intros o [= <-]. simpl. done.
Qed.

(** A backend never sends its token in the clear to another machine, and claims
    a proxied network only after the proxy was reached. *)
Lemma build_backend_secure from_pem client_builds to_socket_addrs connects b f :
  build_backend from_pem client_builds to_socket_addrs connects b = Ok f →
  (∃ url, url_parse (fb_controller_url b) = Ok url
     ∧ (url_scheme url = "http" → host_is_loopback url = true))
  ∧ (g_network (forkd_guarantees f) = Proxied ↔ ∃ ep, fb_enforce_egress b = Some ep
       ∧ probe_proxy_reachable to_socket_addrs connects ep = true).
Proof.
  unfold build_backend. destruct (url_parse _) as [url|]; [|done].
  destruct (String.eqb (url_scheme url) "http" && negb (host_is_loopback url)) eqn:Es; [done|].
  destruct (fb_bearer_token b), (fb_snapshot b); try done.
  destruct (negb (match fb_controller_ca b with Some pem => from_pem pem | None => true end));
    [done|].
  destruct client_builds; [|done]. intros H. split.
  - exists url. split; [done|]. intros Hh. rewrite Hh in Es. by apply negb_false_iff in Es.
  - destruct (fb_enforce_egress b) as [ep|]; [destruct (probe_proxy_reachable _ _ ep) eqn:Ep|];
      simplify_eq; simpl; naive_solver.
Qed.
End Lifecycle.

(** ** Reconciliation *)

Lemma chunks_fuel_spec {A} fuel n (l : list A) :
  (0 < n)%nat → (length l ≤ fuel)%nat →
  concat (chunks_fuel fuel n l) = l ∧ Forall (λ c, length c ≤ n)%nat (chunks_fuel fuel n l).
Proof.
  intros Hn. revert l. induction fuel as [|fuel IH]; intros [|x l] Hl; simpl in *; try done; try lia.
  destruct n as [|n]; [lia|]. simpl.
  destruct (IH (drop n l)) as [E1 E2]; [rewrite length_drop; lia|].
  rewrite E1, take_drop. split; [done|]. constructor; [|done].
  simpl. rewrite length_take. lia.
Qed.

(** The ids whose deletion had the given outcome, by position. *)
Definition outcomes_are (deleted : nat → option (result HttpResponse string)) (ok : bool)
    (from : nat) (ids : list string) : list string :=
  omap id (imap (λ k id,
    if Bool.eqb ok (match deleted (from + k)%nat with
                    | Some r => is_ok (destroyed r) | None => false end)
    then Some id else None) ids).

Lemma outcomes_cons deleted ok i x ids :
  outcomes_are deleted ok i (x :: ids)
  = (if Bool.eqb ok (match deleted i with Some r => is_ok (destroyed r) | None => false end)
     then [x] else []) ++ outcomes_are deleted ok (S i) ids.
Proof.
  unfold outcomes_are. rewrite imap_cons. cbn [omap list_omap]. rewrite Nat.add_0_r.
  assert (imap ((λ k id, if Bool.eqb ok (match deleted (i + k)%nat with
                    | Some r => is_ok (destroyed r) | None => false end)
                 then Some id else None) ∘ S) ids
          = imap (λ k id, if Bool.eqb ok (match deleted (S i + k)%nat with
                    | Some r => is_ok (destroyed r) | None => false end)
                 then Some id else None) ids) as ->.
  { apply imap_ext. intros k y _. simpl. by rewrite Nat.add_succ_r. }
  by destruct (Bool.eqb _ _).
Qed.

Lemma outcomes_app deleted ok i ids ids' :
  outcomes_are deleted ok i (ids ++ ids')
  = outcomes_are deleted ok i ids ++ outcomes_are deleted ok (i + length ids) ids'.
Proof.
  revert i. induction ids as [|x ids IH]; intros i; simpl app.
  { by rewrite Nat.add_0_r. }
  rewrite !outcomes_cons, IH, (assoc_L (++)). simpl length. by rewrite Nat.add_succ_r.
Qed.

Lemma reap_chunk_spec deleted i chunk acc :
  reap_chunk deleted i chunk acc
  = (acc.1 ++ outcomes_are deleted true i chunk, acc.2 ++ outcomes_are deleted false i chunk).
Proof.
  unfold reap_chunk. revert i acc. induction chunk as [|x chunk IH]; intros i [reaped failed].
  { by rewrite !app_nil_r. }
  rewrite imap_cons. cbn [fold_left]. rewrite !outcomes_cons, Nat.add_0_r.
  assert (imap ((λ k id, (id, match deleted (i + k)%nat with
                    | Some r => is_ok (destroyed r) | None => false end)) ∘ S) chunk
          = imap (λ k id, (id, match deleted (S i + k)%nat with
                    | Some r => is_ok (destroyed r) | None => false end)) chunk) as ->.
  { apply imap_ext. intros k y _. simpl. by rewrite Nat.add_succ_r. }
  destruct (match deleted i with Some r => is_ok (destroyed r) | None => false end);
    rewrite IH; simpl; by rewrite <- !(assoc_L (++)).
Qed.

Lemma reap_spec deleted i batches acc :
  reap deleted i batches acc
  = (acc.1 ++ outcomes_are deleted true i (concat batches),
     acc.2 ++ outcomes_are deleted false i (concat batches)).
Proof.
  revert i acc. induction batches as [|chunk batches IH]; intros i acc; simpl.
  { rewrite !app_nil_r. by destruct acc. }
  rewrite IH, reap_chunk_spec, !outcomes_app. simpl. by rewrite <- !(assoc_L (++)).
Qed.

(** An entry of this backend that is older than the reap age. *)
Definition due (self : ForkdBackend) (now : Z) (e : SandboxListEntry) : bool :=
  String.eqb (le_snapshot_tag e) (f_snapshot self)
  && match le_created_at_unix e with
     | Some t => (as_secs (f_reap_age self) <? now - t)%Z
     | None => false
     end.

Definition unageable (self : ForkdBackend) (e : SandboxListEntry) : bool :=
  String.eqb (le_snapshot_tag e) (f_snapshot self)
  && match le_created_at_unix e with Some _ => false | None => true end.

Lemma sort_entries self now entries candidates skipped :
  (0 ≤ f_reap_age self)%Z →
  fold_left (sort_entry self now) entries (candidates, skipped)
  = (candidates ++ (le_id <$> List.filter (due self now) entries),
     (skipped + length (List.filter (unageable self) entries))%nat).
Proof.
  intros Hage. revert candidates skipped.
  assert (0 ≤ as_secs (f_reap_age self))%Z as Hs by (apply Z.div_pos; lia).
  induction entries as [|e entries IH]; intros candidates skipped.
  { simpl. by rewrite app_nil_r, Nat.add_0_r. }
  cbn [fold_left List.filter]. unfold sort_entry at 2, due at 1, unageable at 1.
  destruct (String.eqb (le_snapshot_tag e) (f_snapshot self)); simpl; [|apply IH].
  destruct (le_created_at_unix e) as [t|]; [|rewrite IH; simpl; f_equal; lia].
  replace (as_secs (f_reap_age self) <? Z.max 0 (now - t))%Z
    with (as_secs (f_reap_age self) <? now - t)%Z.
  { destruct (_ <? now - t)%Z; rewrite IH; [|done]. simpl. by rewrite <- (assoc_L (++)). }
  destruct (Z.ltb_spec (as_secs (f_reap_age self)) (now - t));
    destruct (Z.ltb_spec (as_secs (f_reap_age self)) (Z.max 0 (now - t))); done || lia.
Qed.

Section Reconcile.
Context {W : Type}.
Context (http : HttpCall → Z → W → option (result HttpResponse string) * W).
Context (decode_list : string → result (list SandboxListEntry) string).
Context (deleted : nat → option (result HttpResponse string)).

(** A sweep deletes exactly the sandboxes of its own snapshot that are
    strictly older than the reap age, each once, in the order of the list and
    at most [REAP_CONCURRENCY] at a time: nothing younger, of another snapshot
    or without an age is deleted.  The report divides them by the outcome of
    their deletion and counts what was listed and what had no age. *)
Theorem reconcile_exact self now w r w' entries :
  (0 ≤ f_reap_age self)%Z →
  http (GetList (sandboxes_url self)) CONTROL_TIMEOUT w = (Some r, w') →
  json_response decode_list r = Ok entries →
  let ids := le_id <$> List.filter (due self now) entries in
  ∃ batches,
    reconcile http decode_list deleted self now w
      = (Ok (mkReconcileReport (length entries) (outcomes_are deleted true 0 ids)
               (outcomes_are deleted false 0 ids)
               (length (List.filter (unageable self) entries))),
         batches, w')
    ∧ concat batches = delete_call self <$> ids
    ∧ Forall (λ batch, length batch ≤ REAP_CONCURRENCY)%nat batches.
Proof.
  intros Hage Hh Hd ids. unfold reconcile. rewrite Hh, Hd, sort_entries by done. fold ids.
  destruct (chunks_fuel_spec (length ids) REAP_CONCURRENCY ids ltac:(unfold REAP_CONCURRENCY; lia)
              ltac:(done)) as [Hc Hb].
  simpl app. unfold chunks. rewrite reap_spec, Hc. eexists. split; [reflexivity|]. split.
  - rewrite <- concat_map, Hc. done.
  - apply Forall_map. eapply Forall_weaken; [exact Hb|]. intros c Hl. simpl. by rewrite length_map.
Qed.
End Reconcile.

(** ** Search *)

Section Search.
Context `{U : UrlLib} {W : Type}.

(** With a domain list set, what is returned are the results on allowed hosts, in
    the backend's order; without one, all of them. *)
Lemma filter_by_domain_spec (self : WebSearchTool W) results :
  filter_by_domain self results
  = List.filter (λ r, (is_nil (ws_blocked_domains self)
                       && match ws_allowed_domains self with None => true | Some _ => false end)
                      || keeps_host self r) results.
Proof.
  unfold filter_by_domain.
  destruct (ws_allowed_domains self), (ws_blocked_domains self); try (by apply List.filter_ext).
  simpl. by induction results as [|x l IH]; simpl; [|rewrite <- IH].
Qed.

Lemma clamp_range n low high : (low ≤ high)%Z → (low ≤ clamp n low high ≤ high)%Z.
Proof. unfold clamp. lia. Qed.
End Search.

(** ** Examples *)

Module ExecToolsDemo.
#[local] Existing Instances Toy.json Toy.json_u64.

(** A backend that records what it runs. *)
Definition recorder : ExecutionBackend (list string) := mkExecutionBackend
  (λ command log, (Ok (mkExecOutput "done" "" (Some 0%Z) false false), log ++ [command]))
  host_guarantees.

Definition demo_line : string := render "cd /tmp" [(OpAnd, "sudo 'r'm -r\f /"); (OpSemi, "sh -c 'ls'")].

Definition no_rm : BashTool (list string) := set_deny_commands (bash_builder recorder) ["rm"].


(** What the lists do not see: a command substitution is a word of the outer
    command. *)
Example substitution_runs :
  let git_only := set_allow_commands (bash_builder recorder) ["git"] in
  check_command_allowed git_only "git log $(rm -rf .)" = Ok tt
  ∧ check_command_allowed git_only "git status && rm -rf ."
    = Err (ToolDenied "command `rm` is not in the allow list").
Proof. vm_compute. done. Qed.

Lemma capture_bounded_witness :
  read_capped "hello" 3 = ("hel", true) ∧ read_capped "hello" 5 = ("hello", false)
  ∧ read_capped "hello" u64_max = ("", false).
Proof.
  split_and!.
  - rewrite (proj1 (proj1 (capture_bounded "hello" 3 ltac:(lia)) ltac:(unfold u64_max; lia))).
    vm_compute. reflexivity.
  - rewrite (proj1 (proj1 (capture_bounded "hello" 5 ltac:(lia)) ltac:(unfold u64_max; lia))).
    vm_compute. reflexivity.
  - exact (proj2 (capture_bounded "hello" u64_max ltac:(unfold u64_max; lia)) eq_refl).
Defined.

(** A group that timed out is stopped before it is killed, and its partial
    output is kept only when its pipes close in time. *)
Example timed_out_run :
  spawn_capped (fst (host_build (host_builder "/work")))
    (mkChildRun (Ok (Some 42%Z)) None (Some "partial") None)
  = (Ok (mkExecOutput "partial" "" None true false), [((-42)%Z, SIGSTOP); ((-42)%Z, SIGKILL)]).
Proof. vm_compute. done. Qed.

(** A text is cut before a character that does not fit. *)
Example truncated_text :
  truncate (utf8 [104; 195; 169]%nat) 2 = ("h", true)
  ∧ truncate (utf8 [104; 195; 169]%nat) 3 = (utf8 [104; 195; 169]%nat, false).
Proof. vm_compute. done. Qed.

Definition demo_forkd : ForkdBackend :=
  mkForkdBackend "http://127.0.0.1:8889" "secret" "base" DEFAULT_TIMEOUT 4 deny_all false
    DEFAULT_REAP_AGE.

(** A controller whose executions answer or, in state [0], do not. *)
Definition controller (call : HttpCall) (_ : Z) (w : nat)
  : option (result HttpResponse string) * nat :=
  match call with
  | PostExec _ _ _ => (if (w =? 0)%nat then None else Some (Ok (mkHttpResponse 200 "out")), w)
  | _ => (Some (Ok (mkHttpResponse 200 "")), w)
  end.

Definition demo_run := forkd_run controller (λ _, Ok ["sb-1"])
  (λ _, Ok (mkExecResp "hello" "" (Some 0%Z))) demo_forkd "echo hello".

Lemma forkd_tears_down_witness :
  fst (fst (demo_run 1%nat)) = Ok (mkExecOutput "hell" "" (Some 0%Z) false true)
  ∧ snd (fst (demo_run 0%nat))
    = [fork_call demo_forkd; exec_call demo_forkd "sb-1" "echo hello"; delete_call demo_forkd "sb-1"].
Proof.
  split; [vm_compute; reflexivity|].
  pose proof (forkd_tears_down controller (λ _, Ok ["sb-1"])
    (λ _, Ok (mkExecResp "hello" "" (Some 0%Z))) demo_forkd "echo hello" 0%nat) as H.
  unfold demo_run. destruct (forkd_run _ _ _ _ _ _) as [[r calls] w'].
  specialize (H ltac:(simpl; lia)). cbn in H. exact (proj1 H).
Defined.

Definition demo_entries : list SandboxListEntry :=
  [mkSandboxListEntry "old" "base" (Some 100%Z); mkSandboxListEntry "young" "base" (Some 900%Z);
   mkSandboxListEntry "other" "beta" (Some 0%Z); mkSandboxListEntry "ageless" "base" None;
   mkSandboxListEntry "gone" "base" (Some 0%Z); mkSandboxListEntry "stuck" "base" (Some 1%Z)].

Definition demo_deletions (k : nat) : option (result HttpResponse string) :=
  match k with
  | 0%nat => Some (Ok (mkHttpResponse 204 ""))
  | 1%nat => Some (Ok (mkHttpResponse 404 ""))
  | _ => None
  end.

Lemma reconcile_exact_witness :
  fst (fst (reconcile controller (λ _, Ok demo_entries) demo_deletions demo_forkd 1000 0%nat))
  = Ok (mkReconcileReport 6 ["old"; "gone"] ["stuck"] 1).
Proof.
  destruct (reconcile_exact controller (λ _, Ok demo_entries) demo_deletions demo_forkd 1000 0%nat
    (Ok (mkHttpResponse 200 "")) 0%nat demo_entries) as (batches & -> & _);
    [vm_compute; discriminate|reflexivity..|]. vm_compute. reflexivity.
Defined.

Example loopback_numbers :
  parse_ipv4 "127.0.0.1" = Some 2130706433%Z ∧ parse_ipv4 "127.0.0.256" = None
  ∧ parse_ipv4 "127.0.0.1.example.com" = None ∧ parse_ipv4 "0127.0.0.1" = None.
Proof. vm_compute. done. Qed.
End ExecToolsDemo.
